(* ===== verification/_CoqProject ===== *)
-Q . S2P
Prelude.v
Bytes.v
Error.v
Monad.v
Keys.v
Job.v
Store.v
Stats.v
LeaseRegistry.v
TimeBound.v
ClaimCursor.v
Completion.v
Txn.v
Stage.v
StoreInv.v
Sound.v
Core.v
QueueCore.v
Control.v
Effects.v
Claim.v
Settle.v
Enqueue.v
Sweeps.v
InboxEntry.v
Inbox.v
InboxListing.v
Queue.v
WorkerLoop.v
CoreInv.v
StagedOps.v
View.v
Session.v
Listing.v
OpsOk.v
CallsOk.v
Finishes.v
InboxOk.v
Linear.v
Outcomes.v
Frame.v
Recovery.v
Healthy.v
Applied.v
SessionOk.v
Process.v
MemStore.v
ProcessTheorems.v
CallTheorems.v
ComponentTheorems.v
ViewTheorems.v
InboxTheorems.v
OpenTheorems.v
Cron.v
RunError.v
RunKeys.v
RunRecords.v
StepEffects.v
Runs.v
RunCalls.v
Webhooks.v
StepWorker.v
Commands.v
RunSweeps.v
RunViews.v
Groups.v
Jobs.v
StepFacts.v
RunFlow.v
RunReads.v
RunSettle.v
RunSubmit.v
RunCancel.v
RunRetention.v
CronFacts.v
MemRuns.v
RunTheorems.v
CronTheorems.v
ClientTheorems.v
FindingTheorems.v
