(* ===== verification/Prelude.v ===== *)
(** * Taquba: a verification library

    Taquba is a durable job queue: a library, linked into the one process that writes
    the store, over SlateDB, a transactional key-value store on object storage; with a
    workflow runtime, a cron scheduler and a webhook worker on top of it. This
    development models the crates [taquba], [taquba-workflow], [taquba-cron] and
    [taquba-webhooks] (src/) as functions of a process state, proves the invariant of
    that state under every interleaving of its calls, and proves what each call does, in
    every outcome.

    ** The program and its parts

    A job is a record at a key of its state (pending, scheduled, claimed, done, dead);
    an index maps its id to that key, a dedup entry reserves its dedup key, a history
    lists its attempts, and counters follow the number of records of a queue and a
    state. All of these are keys of one store. A call is a transaction in a retry
    loop: it begins on a snapshot, stages its writes, and commits, or conflicts with a
    commit in between and runs again. What is not durable is process state: the leases
    of the claimed jobs, the claim cursor that keeps a claim from scanning the
    tombstones of earlier claims, the time bounds that do the same for the sweeps, and
    the tasks that wait for a job. An inbox of objects in the object store takes
    entries (enqueue, cancel, signal) from processes that do not write the store.

    A run of the workflow runtime is a sequence of step jobs on one queue. Its record,
    the pointer to its current step and the records of its group and its owner are user
    keys, which the effects of a settlement change in the transaction of that
    settlement; outcomes and results are objects. A typed job is a run of one step. The
    cron scheduler enqueues the firings of its schedules and keeps a watermark of a
    backfill as a user key. A webhook is a job whose headers are an HTTP request.

    ** Files, in the order of the build

    - [Prelude], [Bytes], [Monad]: integers at their width, durations, lists, byte
      order, big-endian fields, UTF-8, decimal text; [M], the fallible steps of a
      transaction, and [IO], the calls on a process state, which keep what they did
      before an error.
    - [Error] (error.rs), [Keys] (keys.rs), [Job] (job.rs, codec.rs), [Stats]
      (stats.rs, history.rs): the data of the store, byte for byte.
    - [Store]: the interface of SlateDB and the laws the sources rely on.
    - [LeaseRegistry] (lease_registry.rs), [TimeBound] (time_bound.rs), [ClaimCursor]
      (claim_cursor.rs), [Completion] (completion.rs): the components of the process
      state, each on its own.
    - [Txn] (txn.rs): a transaction with its commit notes and its counter changes, and
      the staged transitions of a job. [Core] (queue_core.rs): the record [Core] of the
      state that all handles share, the monad [Q] of calls, [commit] and [retry].
    - [QueueCore] (queue_core.rs, payload_store.rs, objects.rs), [Control]
      (queue_core/control.rs, signal.rs, count.rs), [Effects] (effects.rs), [Claim]
      (queue_core/claim.rs), [Settle] (queue_core/settle.rs), [Enqueue]
      (queue_core/enqueue.rs), [Sweeps] (scheduler.rs, reaper.rs), [InboxEntry] and
      [Inbox] (inbox.rs, inbox/), [Queue] (queue.rs, lease.rs, kv.rs, worker.rs),
      [View] (view.rs, kv.rs), [Session] (the open and the close of queue.rs, with
      options.rs, inbox.rs, liveness.rs, background.rs and reader.rs), [WorkerLoop]
      (worker.rs): the operations, with the names of the sources.
    - [Stage], [StoreInv], [Sound], [CoreInv], [StagedOps], [OpsOk], [CallsOk],
      [InboxOk]: the invariant, and that every operation preserves it.
    - [Finishes], [SessionOk]: every call returns. [Linear], [Outcomes], [Frame],
      [Applied]: where a call takes effect, and what the effect is on the records and on
      the user keys. [Recovery]: the open. [Healthy]: calls that return a result.
      [InboxListing], [Listing]: listings.
    - [Process]: the type of all calls, their interleaved execution [exec], and the
      reachable states, across opens.
    - [Cron] (taquba-cron/src/lib.rs), with [CronFacts].
    - [RunError] (error.rs, keys.rs), [RunKeys] (keys.rs, owner.rs), [RunRecords]
      (durable.rs, terminal.rs, runner.rs), [StepEffects] (effects.rs), [Runs]
      (worker.rs, group.rs, owner.rs, runtime/), [RunCalls] (runtime/enqueue.rs,
      runtime/cancel.rs, memo.rs, blob.rs), [StepWorker] (worker.rs, signal.rs,
      owner.rs), [Commands] (command.rs, runtime.rs, runtime/builder.rs), [RunSweeps] (sweep.rs,
      runtime/terminate.rs, and expiry.rs of the queue), [RunViews] (view.rs,
      runtime.rs), [Groups] (group.rs), [Jobs] (jobs/): the workflow runtime.
    - [StepFacts], [RunFlow], [RunReads], [RunSettle], [RunSubmit], [RunCancel],
      [RunRetention]: a run in the user key space as a transition system, and that the
      settlements, submissions, cancellations and sweeps make its transitions.
    - [Webhooks] (taquba-webhooks/src/, terminal.rs).
    - [MemStore], [MemRuns]: instances of every interface, and processes and runs over
      them, on which the witnesses run.
    - [ProcessTheorems], [CallTheorems], [ComponentTheorems], [ViewTheorems],
      [InboxTheorems], [OpenTheorems], [RunTheorems], [CronTheorems], [ClientTheorems],
      [FindingTheorems]: the properties, which carry the numbers C1, C2 and so on.

    ** State and interleaving

    [Core] has a field for each field of QueueCore: the store [db], the registry of
    leases, the cursor, the bounds, the waiters, the payload objects and the closed
    flag; the fields [ticks], [ulids], [job_ids] and [tokens] count the readings of the
    clock and the generated ids, so that each reading is a function of its number. A
    [World] is a core with the list [others] of what other tasks do: each [yield] of a
    call, at the awaits where another task can run, applies one entry of it. The
    theorems quantify over [others]: either over any functions that preserve the
    invariant, or, in [Process], over calls that run inside calls to any depth. The
    mutexes of the process state are held between awaits only, so that an operation on
    a component is one step; the claim lock of a queue is held across awaits, and
    [ClaimCursor] models what runs under it. The workflow crate's calls are in [EIO],
    the same calls with its own error type. The concurrent worker loop and the tasks of a
    runtime are state machines ([loop_event], [run_task_event]): the ends of the tasks,
    the turns of the loop and the shutdown are events, in any order.

    ** What the theorems show

    - Consistency ([core_ok]): every record is well formed and at its key, the index,
      the dedup entries and the histories refer to it and back, the counters follow the
      populations modulo 2^64, and the lease index agrees with the leases, in every
      state that calls, failures, retries, crashes and opens reach.
    - Termination (every_call_finishes): the retry loop runs on fuel, one more than the
      interleavings left, and that is enough: a conflict needs a commit in between. No
      call, pass, open or close returns [Unfinished].
    - Effects: a call that returns changed the store once, at one point, by the
      transition that its outcome names ([effect]), or not at all ([no_effect]); a call
      that fails with an error of the code changed nothing; a claim settles once. An
      inbox entry has its effect and its record in one change, and applies once. An
      open ends every claim of the process before, and nothing else.
    - Runs: a settlement of a step moves its run by the outcome of the step, ends it or
      leaves it, in the one change in which the claimed record left, and no other run
      changes; a submission, a cancellation, a reconciliation and a retention sweep
      each are one transition of their run.
    - Clients: a backfill follows its watermark, a firing commits with it; the result of
      a typed job is what its handler returned; a webhook is sent as it was requested,
      within its lease; a worker loop drops no claim and runs at most its limit.
    - The components against their specifications: the order and the round trips of the
      keys and the records, the merge operator in any grouping, the expired leases and
      the fencing of a renewal, the cursor and the bounds under which no claim and no
      sweep misses a job, the waiters, the backoff, the counts, the pages of a view.
    - Results: on a store whose operations do not fail ([SlateDbHealthy]), without other
      tasks, an open returns and a live claim is settled.
    - [FindingTheorems]: runs of the model in which overlapping calls end in a way that
      a comment of the sources excludes; each is listed with the lines it is about.

    ** Parameters

    SlateDB ([SlateDb], [SlateDbLaws], [SlateReads], [StoreSession], [SlateBuilder]), the object store
    ([ObjectStore], [EntryStore]), MessagePack ([Serde]), SHA-256 ([Sha256]), ULIDs, the
    clock and the configuration ([Env], [UlidLaws], [InboxEnv]), the dates and cron
    expressions ([Chrono], [Croner]) and the HTTP client ([Reqwest]) are classes: their
    operations are arguments of every definition, each may fail at any time, and their
    laws are the documented behaviour that the sources rely on. The user's code (a step
    runner, a terminal hook, a job type) is an argument as well. A value of an error
    type of these libraries is a constructor of the model with the data the code reads
    of it. Two values of [Error] are not of the code: [Unfinished] is the fuel of the
    model, or a wait that no other task ends, and [Panicked] is an unwrap or an
    unreachable that fails. The payloads and the inbox are objects of one store, as they
    are unless a store of their own is configured.

    ** Fuel

    [retry], [wait_for_completion] and [wait_run] take their fuel from the length of
    [others], which is enough: see above, and a wait without other tasks does not end.
    The listings of the workflow crate take the number of the pages they read at most
    ([page_fuel]), as an argument: a larger number does not change a listing that ended.
    The passes of the inbox and of the expiry indexes take the number of their batches.

    ** What is not modelled

    The executor (tokio) with its timers, metrics and logs, the parsing of store URLs,
    and inside of the libraries the build of the database and of its readers: they keep
    no state of the queue, and what they call is modelled. A wait of a run with a
    timeout is not modelled, since a timeout can drop its call at any await. The durability of a commit that does not wait for the write-ahead log
    is that of SlateDB: an open finds some earlier state. The members of a group that
    the code submits or waits for concurrently are submitted one after the other here,
    and waited for in an order that is an argument. The benchmarks, the examples and the
    tests are not part of the program. *)
From Stdlib Require Export ZArith Lia Sorted.
From stdpp Require Export base gmap sets strings option list.

#[global] Set Default Proof Using "Type".

(** ** Bytes and machine integers

    A byte, a [u32], a [u64] and an [i64] are [Z]; the wrap-around, saturation
    and truncation of each operation are written out where the code does them. *)

Abbreviation bytes := (list Z).

Definition u8_mod : Z := 256.
Definition u32_mod : Z := 4294967296.
Definition u64_mod : Z := 18446744073709551616.
Definition u64_max : Z := 18446744073709551615.
Definition u32_max : Z := 4294967295.

(** The value of [x as u64], [x as u32] and [x as u8]; also the result of an
    unchecked addition in a build without overflow checks. *)
Definition wrap64 (x : Z) : Z := x mod u64_mod.
Definition wrap32 (x : Z) : Z := x mod u32_mod.
Definition wrap8 (x : Z) : Z := x mod u8_mod.

(** Two's complement reading of the low 64 bits: the result of an [i64]
    addition. *)
Definition wrap_i64 (x : Z) : Z := (x + 9223372036854775808) mod u64_mod - 9223372036854775808.

(** [u64::saturating_add] and [u64::saturating_sub] on arguments in range. *)
Definition sat_add64 (a b : Z) : Z := Z.min (a + b) u64_max.
Definition sat_sub64 (a b : Z) : Z := Z.max (a - b) 0.

(** ** Durations

    A [Duration] is a number of nanoseconds. *)
Abbreviation Duration := Z (only parsing).
Definition duration_max : Z := u64_max * 1000000000 + 999999999.
Definition from_secs (s : Z) : Duration := (s * 1000000000)%Z.
(** [Duration::from_millis]. *)
Definition from_millis (ms : Z) : Duration := (ms * 1000000)%Z.

(** [d.as_millis() as u64], and [u64::try_from(d.as_millis())] with the maximum
    for a value out of range. *)
Definition as_millis (d : Duration) : Z := (d / 1000000)%Z.
Definition millis_u64 (d : Duration) : Z := wrap64 (as_millis d).
Definition millis_sat (d : Duration) : Z := Z.min (as_millis d) u64_max.

Definition is_u64 (x : Z) : Prop := (0 <= x < u64_mod)%Z.
Definition is_u32 (x : Z) : Prop := (0 <= x < u32_mod)%Z.
Definition is_byte (x : Z) : Prop := (0 <= x < 256)%Z.

Lemma wrap64_small x : is_u64 x → wrap64 x = x.
Proof. apply Z.mod_small. Qed.

Lemma wrap64_range x : is_u64 (wrap64 x).
Proof. by apply Z.mod_pos_bound. Qed.

Lemma wrap32_small x : is_u32 x → wrap32 x = x.
Proof. apply Z.mod_small. Qed.

Lemma wrap_i64_small x : (-9223372036854775808 <= x < 9223372036854775808)%Z → wrap_i64 x = x.
Proof. intros. unfold wrap_i64. rewrite Z.mod_small; unfold u64_mod; lia. Qed.

(** ** Lists *)

Lemma NoDup_omap {A B} (f : A → option B) l :
  NoDup l → (∀ x y z, f x = Some z → f y = Some z → x = y) → NoDup (omap f l).
Proof.
  intros Hl Hf. induction Hl as [|x l Hx Hl IH]; cbn; [constructor|].
  destruct (f x) as [z|] eqn:E; [|done]. constructor; [|done].
  intros (y & Hy & Ey)%list_elem_of_omap. by rewrite (Hf x y z) in Hx.
Qed.

(** ** Results

    [result E A] is Rust's [Result<A, E>]. *)

Inductive result (E A : Type) : Type :=
| Ok (a : A)
| Err (e : E).
Arguments Ok {E A} a.
Arguments Err {E A} e.

#[global] Instance result_ret {E} : MRet (result E) := λ A a, Ok a.
#[global] Instance result_bind {E} : MBind (result E) :=
  λ A B f m, match m with Ok a => f a | Err e => Err e end.
#[global] Instance result_fmap {E} : FMap (result E) :=
  λ A B f m, match m with Ok a => Ok (f a) | Err e => Err e end.

Lemma bind_Ok {E A B} (f : A → result E B) (m : result E A) b :
  m ≫= f = Ok b ↔ ∃ a, m = Ok a ∧ f a = Ok b.
Proof. destruct m; cbn; naive_solver. Qed.

Lemma bind_Err {E A B} (f : A → result E B) (m : result E A) e :
  m ≫= f = Err e ↔ m = Err e ∨ ∃ a, m = Ok a ∧ f a = Err e.
Proof. destruct m; cbn; naive_solver. Qed.

Lemma fmap_Ok {E A B} (f : A → B) (m : result E A) b :
  f <$> m = Ok b ↔ ∃ a, m = Ok a ∧ f a = b.
Proof. destruct m; cbn; naive_solver. Qed.

Lemma Ok_inj {E A} (a b : A) : @Ok E A a = Ok b → a = b.
Proof. by intros [= ->]. Qed.

(** The success value as an option. *)
Definition ok {E A} (r : result E A) : option A :=
  match r with Ok a => Some a | Err _ => None end.

Definition ok_or {E A} (o : option A) (e : E) : result E A :=
  match o with Some a => Ok a | None => Err e end.

(** [Iterator::collect] into a [Result<Vec<_>, _>]: the first error ends it. *)
Fixpoint collect_results {E A B} (f : A → result E B) (l : list A) : result E (list B) :=
  match l with
  | [] => Ok []
  | a :: l => b ← f a; bs ← collect_results f l; Ok (b :: bs)
  end.

Lemma collect_results_Ok {E A B} (f : A → result E B) l bs :
  collect_results f l = Ok bs ↔ Forall2 (λ a b, f a = Ok b) l bs.
Proof.
  revert bs. induction l as [|a l IH]; intros bs; cbn.
  { split; [intros [= <-]; constructor | by inversion 1]. }
  rewrite bind_Ok. setoid_rewrite bind_Ok. setoid_rewrite IH. split.
  - intros (b & Hb & bs' & Hbs & [= <-]). by constructor.
  - inversion 1; naive_solver.
Qed.

(** Inverts every hypothesis that says that a sequence of fallible steps
    succeeded, naming nothing: each step becomes an equation. *)
Ltac inv_ok :=
  repeat match goal with
  | H : Ok _ = Ok _ |- _ => injection H as H; try subst
  | H : Err _ = Ok _ |- _ => discriminate H
  | H : Ok _ = Err _ |- _ => discriminate H
  | H : mret _ = Ok _ |- _ => injection H as H; try subst
  | H : _ ≫= _ = Ok _ |- _ =>
      apply bind_Ok in H; let E := fresh "E" in destruct H as (? & E & H)
  | H : _ <$> _ = Ok _ |- _ =>
      apply fmap_Ok in H; let E := fresh "E" in destruct H as (? & E & H)
  | H : (_, _) = (_, _) |- _ => injection H as; try subst
  end.

(** Case analysis on the scrutinee of the first [match] of a hypothesis. *)
Ltac case_match_in H :=
  match type of H with
  | context [match ?x with _ => _ end] =>
      let E := fresh "Hcase" in destruct x eqn:E
  end.

#[global] Arguments result_bind {E} A B / f m.
