(* ===== verification/Bytes.v ===== *)
(** * Byte strings: order, big-endian fields, text

    What the sources use of the Rust standard library on byte slices: the
    lexicographic order of [\[u8\]], [u64::to_be_bytes] and its inverse,
    [strip_prefix], the UTF-8 view of a [String], and the decimal text of integers. *)
From stdpp Require Import pretty.
From Stdlib Require Import Ascii.
From S2P Require Import Prelude.

(** ** The order of byte slices *)

Fixpoint bytes_lt (a b : bytes) : bool :=
  match a, b with
  | [], [] => false
  | [], _ :: _ => true
  | _ :: _, [] => false
  | x :: a, y :: b => if (x <? y)%Z then true else if (x =? y)%Z then bytes_lt a b else false
  end.

Definition bytes_le (a b : bytes) : bool := negb (bytes_lt b a).

Lemma bytes_lt_irrefl a : bytes_lt a a = false.
Proof. induction a as [|x a IH]; cbn; [done|]. by rewrite Z.ltb_irrefl, Z.eqb_refl. Qed.

Lemma bytes_lt_trans a b c : bytes_lt a b = true → bytes_lt b c = true → bytes_lt a c = true.
Proof.
  revert b c. induction a as [|x a IH]; intros [|y b] [|z c]; cbn; try done.
  destruct (Z.ltb_spec x y), (Z.ltb_spec y z), (Z.ltb_spec x z),
    (Z.eqb_spec x y), (Z.eqb_spec y z), (Z.eqb_spec x z); subst; try done; try lia; eauto.
Qed.

Lemma bytes_lt_total a b : bytes_lt a b = false → bytes_lt b a = false → a = b.
Proof.
  revert b. induction a as [|x a IH]; intros [|y b]; cbn; try done.
  destruct (Z.ltb_spec x y), (Z.ltb_spec y x), (Z.eqb_spec x y), (Z.eqb_spec y x);
    subst; try done; try lia.
  intros. f_equal. eauto.
Qed.

Lemma bytes_lt_asym a b : bytes_lt a b = true → bytes_lt b a = false.
Proof.
  intros H. destruct (bytes_lt b a) eqn:E; [|done].
  pose proof (bytes_lt_trans _ _ _ H E) as T. by rewrite bytes_lt_irrefl in T.
Qed.

Lemma bytes_le_refl a : bytes_le a a = true.
Proof. unfold bytes_le. by rewrite bytes_lt_irrefl. Qed.

Lemma bytes_lt_le a b : bytes_lt a b = true → bytes_le a b = true.
Proof. unfold bytes_le. intros. by rewrite (bytes_lt_asym a b). Qed.

Lemma bytes_le_lt_or_eq a b : bytes_le a b = true → bytes_lt a b = true ∨ a = b.
Proof.
  unfold bytes_le. intros H. destruct (bytes_lt a b) eqn:E; [by left|right].
  apply bytes_lt_total; [done|]. by destruct (bytes_lt b a).
Qed.

Lemma bytes_le_trans a b c : bytes_le a b = true → bytes_le b c = true → bytes_le a c = true.
Proof.
  intros [?| ->]%bytes_le_lt_or_eq; [|done].
  intros [?| <-]%bytes_le_lt_or_eq; apply bytes_lt_le; [by eapply bytes_lt_trans|done].
Qed.

Lemma bytes_lt_le_trans a b c : bytes_lt a b = true → bytes_le b c = true → bytes_lt a c = true.
Proof. intros ? [?| <-]%bytes_le_lt_or_eq; [by eapply bytes_lt_trans|done]. Qed.

Lemma bytes_le_lt_trans a b c : bytes_le a b = true → bytes_lt b c = true → bytes_lt a c = true.
Proof. intros [?| ->]%bytes_le_lt_or_eq ?; [by eapply bytes_lt_trans|done]. Qed.

Lemma bytes_nlt_le a b : bytes_lt a b = false → bytes_le b a = true.
Proof. unfold bytes_le. by intros ->. Qed.

Lemma bytes_nle_lt a b : bytes_le a b = false → bytes_lt b a = true.
Proof. unfold bytes_le. by destruct (bytes_lt b a). Qed.

Lemma bytes_lt_app_l p a b : bytes_lt (p ++ a) (p ++ b) = bytes_lt a b.
Proof. induction p as [|x p IH]; cbn; [done|]. by rewrite Z.ltb_irrefl, Z.eqb_refl. Qed.

(** The first differing bytes decide, so a comparison of equal-length fields
    decides the comparison of the keys that continue after them. *)
Lemma bytes_lt_app_r a b c d :
  length a = length b → bytes_lt a b = true → bytes_lt (a ++ c) (b ++ d) = true.
Proof.
  revert b. induction a as [|x a IH]; intros [|y b] Hlen; cbn; try done.
  cbn in Hlen. destruct (Z.ltb_spec x y); [done|].
  destruct (Z.eqb_spec x y); [|done]. apply IH. lia.
Qed.

(** ** Big-endian fixed-width fields *)

(** [x.to_be_bytes()] of a [w]-byte integer: most significant byte first. *)
Fixpoint be_bytes (w : nat) (x : Z) : bytes :=
  match w with
  | O => []
  | S w => ((x / 256 ^ Z.of_nat w) mod 256)%Z :: be_bytes w x
  end.

(** [from_be_bytes]. *)
Fixpoint from_be (l : bytes) : Z :=
  match l with
  | [] => 0
  | b :: l => b * 256 ^ Z.of_nat (length l) + from_be l
  end.

Lemma length_be_bytes w x : length (be_bytes w x) = w.
Proof. induction w; cbn; auto. Qed.

Lemma from_be_be_bytes w x : (from_be (be_bytes w x) = x mod 256 ^ Z.of_nat w)%Z.
Proof.
  induction w as [|w IH]; cbn [be_bytes from_be].
  { cbn. by rewrite Z.mod_1_r. }
  rewrite IH, length_be_bytes, Nat2Z.inj_succ, Z.pow_succ_r by lia.
  assert (0 < 256 ^ Z.of_nat w)%Z by (apply Z.pow_pos_nonneg; lia).
  rewrite (Z.mul_comm 256), (Z.rem_mul_r x (256 ^ Z.of_nat w) 256) by lia. lia.
Qed.

Lemma be_bytes_roundtrip w x :
  (0 ≤ x < 256 ^ Z.of_nat w)%Z → from_be (be_bytes w x) = x.
Proof. intros. rewrite from_be_be_bytes. by apply Z.mod_small. Qed.

Lemma be_bytes_inj w x y :
  (0 ≤ x < 256 ^ Z.of_nat w)%Z → (0 ≤ y < 256 ^ Z.of_nat w)%Z →
  be_bytes w x = be_bytes w y → x = y.
Proof. intros Hx Hy E. apply (f_equal from_be) in E. by rewrite !be_bytes_roundtrip in E. Qed.

(** Only the low [w] bytes are encoded. *)
Lemma be_bytes_mod w z : be_bytes w z = be_bytes w (z mod 256 ^ Z.of_nat w).
Proof.
  assert (H : ∀ v z, (v ≤ w)%nat → be_bytes v (z mod 256 ^ Z.of_nat w) = be_bytes v z);
    [|by rewrite H].
  clear z. induction v as [|v IH]; intros z Hv; [done|]. cbn [be_bytes].
  rewrite IH by lia. f_equal.
  replace (Z.of_nat w) with (Z.of_nat v + (1 + Z.of_nat (w - S v)))%Z by lia.
  assert (0 < 256 ^ Z.of_nat v)%Z by (apply Z.pow_pos_nonneg; lia).
  assert (0 < 256 ^ Z.of_nat (w - S v))%Z by (apply Z.pow_pos_nonneg; lia).
  rewrite (Z.pow_add_r _ _ (1 + _)), (Z.pow_add_r _ 1), Z.pow_1_r by lia.
  rewrite (Z.rem_mul_r z), Z.mul_comm, Z.div_add by lia.
  rewrite (Z.div_small (z mod _)) by (apply Z.mod_pos_bound; lia).
  rewrite Z.add_0_l, (Z.rem_mul_r _ 256) by lia.
  rewrite (Z.mul_comm 256), Z.mod_add, Z.mod_mod by lia. done.
Qed.

(** Byte order of the encodings is numeric order of the fields. *)
Lemma be_bytes_lt w x y :
  (0 ≤ x)%Z → (x < y)%Z → (y < 256 ^ Z.of_nat w)%Z →
  bytes_lt (be_bytes w x) (be_bytes w y) = true.
Proof.
  revert x y. induction w as [|w IH]; intros x y Hx Hxy Hy.
  { cbn in Hy. lia. }
  cbn [be_bytes bytes_lt].
  set (p := (256 ^ Z.of_nat w)%Z) in *.
  assert (0 < p)%Z by (apply Z.pow_pos_nonneg; lia).
  rewrite Nat2Z.inj_succ, Z.pow_succ_r in Hy by lia. fold p in Hy.
  assert (x / p < 256)%Z by (apply Z.div_lt_upper_bound; lia).
  assert (y / p < 256)%Z by (apply Z.div_lt_upper_bound; lia).
  assert (0 ≤ x / p)%Z by (apply Z.div_pos; lia).
  assert (x / p ≤ y / p)%Z by (apply Z.div_le_mono; lia).
  rewrite !Z.mod_small by lia.
  destruct (Z.ltb_spec (x / p) (y / p)); [done|].
  assert (Heq : (x / p = y / p)%Z) by lia. rewrite Heq, Z.eqb_refl.
  rewrite (be_bytes_mod w x), (be_bytes_mod w y). fold p. pose proof (Z.mod_pos_bound x p). pose proof (Z.mod_pos_bound y p).
  apply IH; [lia| |lia].
  pose proof (Z.div_mod x p). pose proof (Z.div_mod y p). rewrite Heq in *. lia.
Qed.

(** ** Slices *)

(** [slice::strip_prefix]. *)
Fixpoint strip_prefix (p k : bytes) : option bytes :=
  match p, k with
  | [], _ => Some k
  | x :: p, y :: k => if decide (x = y) then strip_prefix p k else None
  | _ :: _, [] => None
  end.

Lemma strip_prefix_Some p k r : strip_prefix p k = Some r ↔ k = p ++ r.
Proof.
  revert k. induction p as [|x p IH]; intros k; cbn; [naive_solver|].
  destruct k as [|y k]; [naive_solver|].
  case_decide as D; subst; [rewrite IH|]; naive_solver.
Qed.

Lemma strip_prefix_app p r : strip_prefix p (p ++ r) = Some r.
Proof. by apply strip_prefix_Some. Qed.

(** [slice.get(..n)], [slice.get(n..)] and [split_at_checked]. *)
Definition split_at_checked (n : nat) (k : bytes) : option (bytes * bytes) :=
  if decide (n ≤ length k) then Some (take n k, drop n k) else None.

Lemma split_at_checked_app a b : split_at_checked (length a) (a ++ b) = Some (a, b).
Proof.
  unfold split_at_checked. rewrite decide_True by (rewrite length_app; lia).
  by rewrite take_app_length, drop_app_length.
Qed.

(** ** Text

    A [String] is modelled as the stdlib [string] of its bytes. *)

Definition byte_of_ascii (a : Ascii.ascii) : Z := Z.of_N (Ascii.N_of_ascii a).
Definition ascii_of_byte (b : Z) : Ascii.ascii := Ascii.ascii_of_N (Z.to_N b).

(** [str::as_bytes]. *)
Definition as_bytes (s : string) : bytes := byte_of_ascii <$> String.list_ascii_of_string s.
Definition string_of_bytes (l : bytes) : string :=
  String.string_of_list_ascii (ascii_of_byte <$> l).

Lemma ascii_of_byte_of_ascii a : ascii_of_byte (byte_of_ascii a) = a.
Proof. unfold ascii_of_byte, byte_of_ascii. by rewrite N2Z.id, Ascii.ascii_N_embedding. Qed.

Lemma string_of_as_bytes s : string_of_bytes (as_bytes s) = s.
Proof.
  unfold string_of_bytes, as_bytes. rewrite <- list_fmap_compose.
  rewrite (list_fmap_ext _ id).
  - rewrite list_fmap_id. apply String.string_of_list_ascii_of_string.
  - intros i a _. apply ascii_of_byte_of_ascii.
Qed.

Lemma as_bytes_inj s t : as_bytes s = as_bytes t → s = t.
Proof. intros E. by rewrite <- (string_of_as_bytes s), E, string_of_as_bytes. Qed.

#[global] Instance as_bytes_Inj : Inj (=) (=) as_bytes.
Proof. exact as_bytes_inj. Qed.

Lemma as_bytes_byte s : Forall is_byte (as_bytes s).
Proof.
  unfold as_bytes. apply Forall_fmap, Forall_true. intros a.
  unfold is_byte, compose, byte_of_ascii. pose proof (Ascii.N_ascii_bounded a). lia.
Qed.

(** [str::len]: the length in bytes. *)
Definition str_len (s : string) : nat := length (as_bytes s).

(** Well-formed UTF-8: the bytes [str::from_utf8] accepts (the Unicode table of
    byte sequences, with no overlong form and no surrogate). *)
Definition cont_byte (b : Z) : bool := ((128 <=? b) && (b <=? 191))%Z.
Definition in_range (lo hi b : Z) : bool := ((lo <=? b) && (b <=? hi))%Z.

Fixpoint utf8_valid (fuel : nat) (l : bytes) : bool :=
  match fuel with
  | O => match l with [] => true | _ => false end
  | S fuel =>
      match l with
      | [] => true
      | b :: l =>
          if in_range 0 127 b then utf8_valid fuel l
          else if in_range 194 223 b then
            match l with c :: l => cont_byte c && utf8_valid fuel l | _ => false end
          else if in_range 224 239 b then
            match l with
            | c :: d :: l =>
                (if (b =? 224)%Z then in_range 160 191 c
                 else if (b =? 237)%Z then in_range 128 159 c else cont_byte c)
                && cont_byte d && utf8_valid fuel l
            | _ => false
            end
          else if in_range 240 244 b then
            match l with
            | c :: d :: e :: l =>
                (if (b =? 240)%Z then in_range 144 191 c
                 else if (b =? 244)%Z then in_range 128 143 c else cont_byte c)
                && cont_byte d && cont_byte e && utf8_valid fuel l
            | _ => false
            end
          else false
      end
  end.

(** [str::from_utf8] and [String::from_utf8]. Every step consumes a byte, so the
    length is enough fuel. *)
Definition from_utf8 (l : bytes) : option string :=
  if utf8_valid (length l) l then Some (string_of_bytes l) else None.

(** Text in ASCII is UTF-8. *)
Definition is_ascii_str (s : string) : bool := forallb (in_range 0 127) (as_bytes s).

Lemma utf8_valid_ascii l : forallb (in_range 0 127) l = true → utf8_valid (length l) l = true.
Proof. induction l as [|b l IH]; cbn; [done|]. intros [-> ?]%andb_prop. auto. Qed.

Lemma from_utf8_as_bytes s : is_ascii_str s = true → from_utf8 (as_bytes s) = Some s.
Proof.
  intros H. unfold from_utf8. rewrite utf8_valid_ascii by done. by rewrite string_of_as_bytes.
Qed.

Lemma from_utf8_string l s : Forall is_byte l → from_utf8 l = Some s → as_bytes s = l.
Proof.
  intros Hl. unfold from_utf8. case_match; [|done]. intros [= <-].
  unfold as_bytes, string_of_bytes. rewrite String.list_ascii_of_string_of_list_ascii.
  rewrite <- list_fmap_compose. rewrite <- (list_fmap_id l) at 2.
  apply list_fmap_ext. intros i b Hb. rewrite Forall_lookup in Hl. specialize (Hl i b Hb).
  unfold compose, byte_of_ascii, ascii_of_byte, is_byte in *.
  rewrite Ascii.N_ascii_embedding by lia. cbn. lia.
Qed.

(** ** Prefixes *)

(** [str::strip_prefix]. *)
Fixpoint str_strip_prefix (p s : string) : option string :=
  match p, s with
  | EmptyString, _ => Some s
  | String a p, String b s => if Ascii.eqb a b then str_strip_prefix p s else None
  | String _ _, EmptyString => None
  end.

(** [str::starts_with]. *)
Definition starts_with (p s : string) : bool := bool_decide (is_Some (str_strip_prefix p s)).
(** [slice::starts_with]. *)
Definition bytes_starts_with (p k : bytes) : bool := bool_decide (is_Some (strip_prefix p k)).

Lemma str_strip_prefix_Some p s r : str_strip_prefix p s = Some r ↔ s = p +:+ r.
Proof.
  revert s. induction p as [|a p IH]; intros s; cbn; [naive_solver|].
  destruct s as [|b s]; [naive_solver|]. destruct (Ascii.eqb_spec a b) as [->|Hab].
  - rewrite IH. split; [by intros ->|by intros [= ->]].
  - split; [done|]. by intros [= ->].
Qed.

Lemma str_strip_prefix_app p s : str_strip_prefix p (p +:+ s) = Some s.
Proof. by apply str_strip_prefix_Some. Qed.

Lemma starts_with_spec p s : starts_with p s = true ↔ ∃ r, s = p +:+ r.
Proof.
  unfold starts_with. rewrite bool_decide_eq_true. split.
  - intros [r Hr%str_strip_prefix_Some]. by exists r.
  - intros [r ->]. exists r. by apply str_strip_prefix_Some.
Qed.

Lemma bytes_starts_with_spec p k : bytes_starts_with p k = true ↔ ∃ r, k = p ++ r.
Proof.
  unfold bytes_starts_with. rewrite bool_decide_eq_true. split.
  - intros [r Hr%strip_prefix_Some]. by exists r.
  - intros [r ->]. exists r. by apply strip_prefix_Some.
Qed.

(** ** Decimal text of integers

    [ToString] and [FromStr] of [u32] and [i64] of the Rust standard library, and the
    facts of the decimal text that ids, headers and watermarks need. *)

(** [to_string] of an integer. *)
Definition dec_text (n : Z) : string := pretty n.

(** The loop of [from_str] of an integer type from [lo] to [hi]: each digit is added,
    or subtracted after a minus sign, with an overflow check. *)
Fixpoint dec_digits (lo hi sign acc : Z) (s : string) : option Z :=
  match s with
  | EmptyString => Some acc
  | String a s =>
      let d := (byte_of_ascii a - 48)%Z in
      let acc := (acc * 10 + sign * d)%Z in
      if (0 <=? d)%Z && (d <=? 9)%Z && (lo <=? acc)%Z && (acc <=? hi)%Z
      then dec_digits lo hi sign acc s else None
  end.

(** [from_str] of an unsigned type, [u32] and [u64]: an optional [+] and one or more
    digits. *)
Definition parse_unsigned (hi : Z) (s : string) : option Z :=
  let s := match s with
    | String "+"%char (String _ _ as rest) => rest
    | _ => s
    end in
  match s with EmptyString => None | _ => dec_digits 0 hi 1 0 s end.
Definition parse_u32 : string → option Z := parse_unsigned u32_max.
Definition parse_u64 : string → option Z := parse_unsigned u64_max.

Definition i64_min : Z := -9223372036854775808.
Definition i64_max : Z := 9223372036854775807.
Definition is_i64 (x : Z) : Prop := (-9223372036854775808 <= x < 9223372036854775808)%Z.

(** [i64::from_str]: an optional sign and one or more digits. *)
Definition parse_i64 (s : string) : option Z :=
  match s with
  | EmptyString => None
  | String "-"%char (String _ _ as rest) => dec_digits i64_min i64_max (-1) 0 rest
  | String "+"%char (String _ _ as rest) => dec_digits i64_min i64_max 1 0 rest
  | s => dec_digits i64_min i64_max 1 0 s
  end.

Lemma digit_byte x : (x < 10)%N → byte_of_ascii (pretty_N_char x) = (48 + Z.of_N x)%Z.
Proof.
  intros H. assert (x = 0 ∨ x = 1 ∨ x = 2 ∨ x = 3 ∨ x = 4 ∨ x = 5 ∨ x = 6 ∨ x = 7 ∨ x = 8 ∨ x = 9)%N
    by lia. repeat destruct_or!; by subst.
Qed.

Lemma N_digits x :
  ∃ q r, (x `div` 10)%N = q ∧ (x `mod` 10)%N = r ∧ (r < 10)%N ∧ x = (10 * q + r)%N.
Proof. eexists _, _. split_and!; [done|done|by apply N.mod_lt|by apply N.div_mod]. Qed.

Lemma dec_digits_go lo hi sign x s :
  (sign = 1 ∨ sign = -1)%Z → (lo <= 0 <= hi)%Z → (lo <= sign * Z.of_N x <= hi)%Z →
  dec_digits lo hi sign 0 (pretty_N_go x s) = dec_digits lo hi sign (sign * Z.of_N x) s.
Proof.
  intros Hsign H0. revert s. induction (N.lt_wf_0 x) as [x _ IH]. intros s Hx.
  assert (x = 0 ∨ 0 < x)%N as [->|Hpos] by lia.
  { rewrite pretty_N_go_0. by replace (sign * Z.of_N 0)%Z with 0%Z by lia. }
  rewrite pretty_N_go_step by done. destruct (N_digits x) as (q & r & -> & -> & Hr & E).
  rewrite IH by (destruct Hsign as [-> | ->]; lia). cbn [dec_digits]. rewrite digit_byte by done.
  replace (sign * Z.of_N q * 10 + sign * (48 + Z.of_N r - 48))%Z with (sign * Z.of_N x)%Z by lia.
  rewrite !(proj2 (Z.leb_le _ _)) by lia. done.
Qed.

(** The text of an [N] starts with a digit. *)
Lemma pretty_go_head x s :
  (0 < x)%N → ∃ d s', (d < 10)%N ∧ pretty_N_go x s = String (pretty_N_char d) s'.
Proof.
  revert s. induction (N.lt_wf_0 x) as [x _ IH]. intros s Hpos. rewrite pretty_N_go_step by done.
  destruct (N_digits x) as (q & r & -> & -> & Hr & E).
  assert (q = 0 ∨ 0 < q)%N as [->|?] by lia.
  - rewrite pretty_N_go_0. by eexists _, _.
  - apply IH; [lia|done].
Qed.

(** A digit is not a sign. *)
Lemma digit_no_sign d : (d < 10)%N → pretty_N_char d ≠ "+"%char ∧ pretty_N_char d ≠ "-"%char.
Proof.
  intros Hd. split; intros Heq; apply (f_equal byte_of_ascii) in Heq; rewrite digit_byte in Heq by done.
  - change (byte_of_ascii "+") with 43%Z in Heq. lia.
  - change (byte_of_ascii "-") with 45%Z in Heq. lia.
Qed.

(** A number is parsed back from its text. *)
Lemma parse_unsigned_text hi n : (0 <= n <= hi)%Z → parse_unsigned hi (dec_text n) = Some n.
Proof.
  intros [Hn0 Hn]. destruct n as [|p|p]; [|..|lia].
  { destruct hi; [done|done|lia]. }
  change (parse_unsigned hi (pretty_N_go (Npos p) "") = Some (Zpos p)).
  assert (Hd : dec_digits 0 hi 1 0 (pretty_N_go (Npos p) "") = Some (Zpos p)).
  { rewrite dec_digits_go; [done|by left|lia..]. }
  destruct (pretty_go_head (Npos p) "" eq_refl) as (d & s' & Hlt & E). rewrite E in Hd |- *.
  destruct (digit_no_sign d Hlt) as [Hne _]. unfold parse_unsigned.
  destruct (pretty_N_char d) as [[] [] [] [] [] [] [] []] eqn:Ec; cbn in Hne |- *; try done; try exact Hd.
Qed.
Lemma parse_u32_text n : is_u32 n → parse_u32 (dec_text n) = Some n.
Proof. intros [? ?]. apply parse_unsigned_text. unfold u32_max, u32_mod in *. lia. Qed.
Lemma parse_u64_text n : is_u64 n → parse_u64 (dec_text n) = Some n.
Proof. intros [? ?]. apply parse_unsigned_text. unfold u64_max, u64_mod in *. lia. Qed.

Lemma parse_i64_text n : is_i64 n → parse_i64 (dec_text n) = Some n.
Proof.
  unfold is_i64. intros [Hn0 Hn]. destruct n as [|p|p]; [done|..].
  - change (parse_i64 (pretty_N_go (Npos p) "") = Some (Zpos p)).
    assert (Hd : dec_digits i64_min i64_max 1 0 (pretty_N_go (Npos p) "") = Some (Zpos p)).
    { rewrite dec_digits_go; [done|by left|done|]. unfold i64_min, i64_max in *. cbn. lia. }
    destruct (pretty_go_head (Npos p) "" eq_refl) as (d & s' & Hlt & E). rewrite E in Hd |- *.
    destruct (digit_no_sign d Hlt) as [Hne Hne2]. unfold parse_i64.
    destruct (pretty_N_char d) as [[] [] [] [] [] [] [] []] eqn:Ec; cbn in Hne, Hne2 |- *; try done; try exact Hd.
  - change (parse_i64 (String "-" (pretty_N_go (Npos p) "")) = Some (Zneg p)).
    assert (Hd : dec_digits i64_min i64_max (-1) 0 (pretty_N_go (Npos p) "") = Some (Zneg p)).
    { rewrite dec_digits_go; [done|by right|done|]. unfold i64_min, i64_max in *. cbn. lia. }
    destruct (pretty_go_head (Npos p) "" eq_refl) as (d & s' & Hlt & E). rewrite E in Hd |- *. exact Hd.
Qed.

#[global] Arguments be_bytes : simpl never.
#[global] Arguments from_be : simpl never.
#[global] Arguments split_at_checked : simpl never.
#[global] Arguments dec_text : simpl never.
