(* ===== verification/Error.v ===== *)
(** * Errors and the forms of names (taquba/src/error.rs)

    The [Error] of every operation, which of its values are permanent, and the
    [Form] check behind queue names and caller-supplied ids. *)
From S2P Require Import Prelude Bytes.

(** ** Errors of the libraries

    What the sources inspect of the errors of SlateDB, of the object store and of
    MessagePack: the kind of a store error, and whether an object is missing. *)
Inductive ErrorKind := TransactionKind | DataKind | OtherKind.
Record SlateError := mkSlateError { slate_kind : ErrorKind; slate_message : string }.
Inductive ObjectStoreError := NotFound | OtherObjectStoreError (message : string).

#[global] Instance ErrorKind_eq_dec : EqDecision ErrorKind.
Proof. solve_decision. Defined.

(** A violation of a [Form]. A [char] is its code point. *)
Inductive FormError :=
| Empty
| TooLong (max : nat)
| InvalidStart (character : Z)
| InvalidCharacter (character : Z).

Inductive Error :=
| Storage (e : SlateError)
| Deserialization (message : string)
| JobNotFound (id : string)
| InvalidState
| ClaimLost
| CancelRequested
| ConflictingKvEffect (key : bytes)
| KvCompareFailed (key : bytes)
| KvValueTooLarge (size max : nat)
| InvalidId (id : string) (reason : FormError)
| DuplicateJobId (id : string)
| SignalWaitWithoutRunAt
| CountWaitWithoutRunAt
| CountWaiterExists (count waiter : string)
| InvalidQueueName (queue : string) (reason : FormError)
| PayloadStoreError (e : ObjectStoreError)
| PayloadMissing (id : string)
| StoreNotInitialized (path : string)
| InvalidStoreUrl (url : string) (source : string)
| InboxStore (e : ObjectStoreError)
| InboxPathWithinQueue (path queue_path : string)
(** Two values the Rust type does not have: an [expect] that panicked, and a loop
    that did not end within its fuel. The theorems of the loops exclude the
    second. *)
| Panicked
| Unfinished.

Abbreviation Result A := (result Error A).

(** [Error::is_permanent]: a retry of the same call cannot succeed. *)
Definition is_permanent (e : Error) : bool :=
  match e with
  | Deserialization _ | JobNotFound _ | InvalidState | ClaimLost | CancelRequested
  | KvValueTooLarge _ _ | ConflictingKvEffect _ | InvalidId _ _ | DuplicateJobId _
  | SignalWaitWithoutRunAt | CountWaitWithoutRunAt | CountWaiterExists _ _
  | InvalidQueueName _ _ | PayloadMissing _ | InvalidStoreUrl _ _
  | InboxPathWithinQueue _ _ | Panicked | Unfinished => true
  | Storage _ | KvCompareFailed _ | PayloadStoreError _ | StoreNotInitialized _
  | InboxStore _ => false
  end.

(** ** Characters

    [str::chars] of the UTF-8 bytes of a [String]: the code point of each byte
    sequence. On bytes that are not UTF-8, which no [String] holds, a byte that
    begins no sequence stands for itself. *)
Definition decode_char (l : bytes) : option (Z * bytes) :=
  match l with
  | [] => None
  | b :: l1 =>
      match l1 with
      | c :: l2 =>
          if in_range 194 223 b && cont_byte c
          then Some (((b - 192) * 64 + (c - 128))%Z, l2)
          else match l2 with
          | d :: l3 =>
              if in_range 224 239 b && cont_byte c && cont_byte d
                 && negb ((b =? 224)%Z && (c <? 160)%Z)
              then Some (((b - 224) * 4096 + (c - 128) * 64 + (d - 128))%Z, l3)
              else match l3 with
              | e :: l4 =>
                  if in_range 240 244 b && cont_byte c && cont_byte d && cont_byte e
                     && negb ((b =? 240)%Z && (c <? 144)%Z)
                  then Some (((b - 240) * 262144 + (c - 128) * 4096 + (d - 128) * 64
                              + (e - 128))%Z, l4)
                  else Some (b, l1)
              | [] => Some (b, l1)
              end
          | [] => Some (b, l1)
          end
      | [] => Some (b, l1)
      end
  end.

Fixpoint decode_chars (fuel : nat) (l : bytes) : list Z :=
  match fuel with
  | O => []
  | S fuel =>
      match decode_char l with
      | None => []
      | Some (c, l) => c :: decode_chars fuel l
      end
  end.

(** Every character takes a byte, so the length is enough fuel. *)
Definition chars (s : string) : list Z := decode_chars (str_len s) (as_bytes s).

(** [char::is_ascii_alphanumeric]. *)
Definition is_ascii_alphanumeric (c : Z) : bool :=
  in_range 48 57 c || in_range 65 90 c || in_range 97 122 c.

(** ** Forms *)

(** The form of a name: its greatest length, the characters it can start with
    and the characters it consists of. *)
Record Form := mkForm {
  form_max : nat;
  form_start : option (Z → bool);
  form_characters : Z → bool;
}.

(** [Form::id]: [\[A-Za-z0-9_-\]] up to [max] bytes. *)
Definition form_id (max : nat) : Form :=
  mkForm max None (λ c, is_ascii_alphanumeric c || bool_decide (c ∈ [95; 45]%Z)).

(** [Iterator::find]. *)
Fixpoint list_find_first {A} (p : A → bool) (l : list A) : option A :=
  match l with [] => None | x :: l => if p x then Some x else list_find_first p l end.

Lemma list_find_first_Some {A} (P : A → bool) l a : list_find_first P l = Some a → a ∈ l ∧ P a = true.
Proof.
  induction l as [|x l IH]; cbn; [done|]. destruct (P x) eqn:E; [intros [= ->]; split; [by left|done]|].
  intros [? ?]%IH. split; [by right|done].
Qed.

(** [Form::check]. *)
Definition form_check (f : Form) (value : string) : result FormError () :=
  match chars value with
  | [] => Err Empty
  | first :: _ =>
      if decide (form_max f < str_len value) then Err (TooLong (form_max f))
      else if match form_start f with Some start => negb (start first) | None => false end
      then Err (InvalidStart first)
      else match list_find_first (λ c, negb (form_characters f c)) (chars value) with
           | Some character => Err (InvalidCharacter character)
           | None => Ok ()
           end
  end.

(** ** Properties *)

Lemma list_find_first_None {A} (p : A → bool) l :
  list_find_first p l = None ↔ ∀ x, x ∈ l → p x = false.
Proof.
  induction l as [|x l IH]; cbn; [split; set_solver|].
  destruct (p x) eqn:E.
  - split; [done|]. intros H. rewrite H in E by set_solver. done.
  - rewrite IH. split; intros H y Hy; [apply elem_of_cons in Hy as [->|?]; auto|].
    apply H. set_solver.
Qed.

Lemma decode_char_ascii l c l' :
  decode_char l = Some (c, l') → in_range 0 127 c = true → l = c :: l'.
Proof.
  unfold decode_char. intros H Hc. repeat case_match; simplify_eq; try done;
    unfold in_range, cont_byte in *; lia.
Qed.

Lemma decode_char_of_ascii b l :
  in_range 0 127 b = true → decode_char (b :: l) = Some (b, l).
Proof.
  unfold decode_char. intros H. repeat case_match; try done;
    unfold in_range, cont_byte in *; lia.
Qed.

(** A text whose characters are ASCII has one byte per character. *)
Lemma decode_chars_ascii fuel l :
  length l ≤ fuel →
  (∀ c, c ∈ decode_chars fuel l → in_range 0 127 c = true) → decode_chars fuel l = l.
Proof.
  revert l. induction fuel as [|fuel IH]; intros l Hlen Hc.
  { by destruct l; [|cbn in Hlen; lia]. }
  cbn in *. destruct (decode_char l) as [[c l']|] eqn:E.
  - apply decode_char_ascii in E as ->; [|apply Hc; set_solver].
    cbn in Hlen. f_equal. apply IH; [lia|]. set_solver.
  - destruct l as [|b l]; [done|]. unfold decode_char in E. repeat case_match; done.
Qed.

Lemma decode_chars_of_ascii l :
  forallb (in_range 0 127) l = true → decode_chars (length l) l = l.
Proof.
  induction l as [|b l IH]; cbn [length decode_chars]; [done|].
  cbn [forallb]. intros [Hb Hl]%andb_prop. rewrite decode_char_of_ascii by done.
  f_equal. auto.
Qed.

(** A form whose characters are ASCII: what a checked value satisfies. *)
Lemma form_check_ascii f s :
  (∀ c, form_characters f c = true → in_range 0 127 c = true) →
  form_check f s = Ok () ↔
  str_len s ≠ 0 ∧ str_len s ≤ form_max f ∧
  Forall (λ c, form_characters f c = true) (as_bytes s) ∧
  (∀ start c, form_start f = Some start → head (as_bytes s) = Some c → start c = true).
Proof.
  intros Hascii. unfold form_check, str_len.
  assert (Hchars : Forall (λ c, form_characters f c = true) (as_bytes s) →
    chars s = as_bytes s).
  { intros Hall. apply decode_chars_of_ascii, Is_true_eq_true, forallb_True.
    eapply Forall_impl; [exact Hall|]. cbn. intros c Hc. apply Is_true_eq_left. auto. }
  split.
  - destruct (chars s) as [|first cs] eqn:E; [done|].
    case_decide as Hmax; [done|]. match goal with |- (if ?b then _ else _) = _ → _ => destruct b eqn:Es end; [done|].
    destruct (list_find_first _ _) eqn:Ef; [done|]. intros _.
    rewrite list_find_first_None in Ef.
    assert (Hall : ∀ c, c ∈ chars s → form_characters f c = true).
    { intros c Hc. rewrite E in Hc. specialize (Ef c Hc). by destruct (form_characters f c). }
    assert (Hs : chars s = as_bytes s).
    { apply decode_chars_ascii; [done|]. intros c Hc. auto. }
    rewrite Hs in E. rewrite E in Hs, Hmax |- *. cbn [length] in *.
    split_and!; [done|lia| |].
    + apply Forall_forall. intros c Hc. apply Hall. by rewrite Hs.
    + intros start c Hst [= <-]. rewrite Hst in Es. by destruct (start first).
  - intros (Hne & Hmax & Hall & Hst). rewrite Hchars by done.
    destruct (as_bytes s) as [|first cs] eqn:E; [done|].
    rewrite decide_False by lia.
    destruct (form_start f) as [start|].
    + rewrite (Hst start first) by done. cbn [negb].
      rewrite (proj2 (list_find_first_None _ _)); [done|].
      intros c Hc. rewrite Forall_forall in Hall. by rewrite Hall.
    + rewrite (proj2 (list_find_first_None _ _)); [done|].
      intros c Hc. rewrite Forall_forall in Hall. by rewrite Hall.
Qed.
