(* ===== verification/Monad.v ===== *)
(** * Fallible state passing

    [M S A] is a computation over a state [S] that returns an [A] or an error; the
    state of a computation that fails is dropped, as a transaction that fails is. *)
From S2P Require Import Prelude Error.

Definition M (S A : Type) : Type := S → Result (A * S).

#[global] Instance M_ret {S} : MRet (M S) := λ A a s, Ok (a, s).
#[global] Instance M_bind {S} : MBind (M S) :=
  λ A B f m s, match m s with Ok (a, s) => f a s | Err e => Err e end.

Definition raise {S A} (e : Error) : M S A := λ _, Err e.
Definition gets {S A} (f : S → A) : M S A := λ s, Ok (f s, s).
Definition modify {S} (f : S → S) : M S () := λ s, Ok (tt, f s).
(** A fallible computation that reads the state and leaves it. *)
Definition reads {S A} (f : S → Result A) : M S A := λ s, a ← f s; Ok (a, s).
(** A fallible value. *)
Definition of_result {S A} (r : Result A) : M S A := λ s, a ← r; Ok (a, s).

(** [for x in l]: the first error ends the loop. *)
Fixpoint for_each {S A} (f : A → M S ()) (l : list A) : M S () :=
  match l with
  | [] => mret tt
  | a :: l => f a ≫= λ _, for_each f l
  end.

Lemma M_bind_Ok {S A B} (m : M S A) (f : A → M S B) s r :
  (m ≫= f) s = Ok r ↔ ∃ a s', m s = Ok (a, s') ∧ f a s' = Ok r.
Proof. unfold mbind, M_bind. destruct (m s) as [[a s']|e]; naive_solver. Qed.

Lemma M_ret_Ok {S A} (a : A) (s : S) r : (mret a : M S A) s = Ok r ↔ r = (a, s).
Proof. unfold mret, M_ret. naive_solver. Qed.

Lemma gets_Ok {S A} (f : S → A) s r : gets f s = Ok r ↔ r = (f s, s).
Proof. unfold gets. naive_solver. Qed.
Lemma modify_Ok {S} (f : S → S) s r : modify f s = Ok r ↔ r = (tt, f s).
Proof. unfold modify. naive_solver. Qed.
Lemma raise_Ok {S A} e s (r : A * S) : raise e s = Ok r ↔ False.
Proof. unfold raise. naive_solver. Qed.
Lemma reads_Ok {S A} (f : S → Result A) s r :
  reads f s = Ok r ↔ ∃ a, f s = Ok a ∧ r = (a, s).
Proof. unfold reads. rewrite bind_Ok. naive_solver. Qed.
Lemma of_result_Ok {S A} (x : Result A) (s : S) r :
  of_result x s = Ok r ↔ ∃ a, x = Ok a ∧ r = (a, s).
Proof. unfold of_result. rewrite bind_Ok. naive_solver. Qed.

(** A loop that succeeds preserves what each of its iterations preserves. *)
Lemma for_each_ind {S A} (P : S → Prop) (f : A → M S ()) l s r :
  for_each f l s = Ok r → P s →
  (∀ a s r, a ∈ l → f a s = Ok r → P s → P r.2) → P r.2.
Proof.
  revert s. induction l as [|a l IH]; cbn; intros s.
  - rewrite M_ret_Ok. by intros ->.
  - rewrite M_bind_Ok. intros (u & s' & Hf & Hl) HP Hstep.
    eapply IH; [exact Hl|..].
    + by apply (Hstep a s (u, s')); [set_solver|..].
    + intros b s1 r1 ?. apply Hstep. set_solver.
Qed.

(** Inverts a computation that succeeded, step by step. *)
Ltac inv_m_step :=
  match goal with
  | H : (_ ≫= _) _ = Ok _ |- _ =>
      apply M_bind_Ok in H; let E := fresh "E" in destruct H as (? & ? & E & H)
  | H : mret _ _ = Ok _ |- _ => apply M_ret_Ok in H
  | H : gets _ _ = Ok _ |- _ => apply gets_Ok in H
  | H : modify _ _ = Ok _ |- _ => apply modify_Ok in H
  | H : raise _ _ = Ok _ |- _ => apply raise_Ok in H; destruct H
  | H : reads _ _ = Ok _ |- _ =>
      apply reads_Ok in H; let E := fresh "E" in destruct H as (? & E & H)
  | H : of_result _ _ = Ok _ |- _ =>
      apply of_result_Ok in H; let E := fresh "E" in destruct H as (? & E & H)
  | H : _ ≫= _ = Ok _ |- _ =>
      apply bind_Ok in H; let E := fresh "E" in destruct H as (? & E & H)
  | H : Ok _ = Ok _ |- _ => injection H as H
  | H : Err _ = Ok _ |- _ => discriminate H
  end.
Ltac inv_m := repeat (inv_m_step; simplify_eq/=).

(** ** Calls on process state

    [IO W A] is a call that changes the state [W] of the process and returns an
    [A] or an error. Unlike a transaction, what a call did before it failed
    stays done. *)
Definition IO (W A : Type) : Type := W → Result A * W.

#[global] Instance IO_ret {W} : MRet (IO W) := λ A a w, (Ok a, w).
#[global] Instance IO_bind {W} : MBind (IO W) :=
  λ A B f m w, match m w with (Ok a, w) => f a w | (Err e, w) => (Err e, w) end.

Definition io_err {W A} (e : Error) : IO W A := λ w, (Err e, w).
Definition io_gets {W A} (f : W → A) : IO W A := λ w, (Ok (f w), w).
Definition io_modify {W} (f : W → W) : IO W () := λ w, (Ok tt, f w).
Definition io_state {W A} (f : W → A * W) : IO W A := λ w, let '(a, w) := f w in (Ok a, w).
Definition io_result {W A} (r : Result A) : IO W A := λ w, (r, w).
(** The outcome of a call as a value: the caller continues on an error. *)
Definition io_try {W A} (m : IO W A) : IO W (Result A) := λ w, let '(r, w) := m w in (Ok r, w).

(** [for x in l] with [?]. *)
Fixpoint io_for_each {W A} (f : A → IO W ()) (l : list A) : IO W () :=
  match l with
  | [] => mret tt
  | a :: l => f a ≫= λ _, io_for_each f l
  end.

Fixpoint io_mapM {W A B} (f : A → IO W B) (l : list A) : IO W (list B) :=
  match l with
  | [] => mret []
  | a :: l => b ← f a; bs ← io_mapM f l; mret (b :: bs)
  end.

(** A call preserves [I], whether it succeeds or not. *)
Definition preserves {W A} (I : W → Prop) (m : IO W A) : Prop := ∀ w, I w → I (m w).2.

Section preserves.
  Context {W : Type} (I : W → Prop).

Lemma preserves_ret {A} (a : A) : preserves I (mret a).
Proof. by intros w. Qed.
Lemma preserves_err {A} e : preserves I (io_err e : IO W A).
Proof. by intros w. Qed.
Lemma preserves_gets {A} (f : W → A) : preserves I (io_gets f).
Proof. by intros w. Qed.
Lemma preserves_result {A} (r : Result A) : preserves I (io_result r).
Proof. by intros w. Qed.
Lemma preserves_modify f : (∀ w, I w → I (f w)) → preserves I (io_modify f).
Proof. intros H w. apply H. Qed.
Lemma preserves_bind {A B} (m : IO W A) (f : A → IO W B) :
  preserves I m → (∀ a, preserves I (f a)) → preserves I (m ≫= f).
Proof.
  intros Hm Hf w Hw. unfold mbind, IO_bind. specialize (Hm w Hw).
  destruct (m w) as [[a|e] w']; [by apply Hf|done].
Qed.
Lemma preserves_try {A} (m : IO W A) : preserves I m → preserves I (io_try m).
Proof. intros Hm w Hw. unfold io_try. specialize (Hm w Hw). by destruct (m w). Qed.
Lemma preserves_for_each {A} (f : A → IO W ()) l :
  (∀ a, preserves I (f a)) → preserves I (io_for_each f l).
Proof. intros Hf. induction l; cbn; [apply preserves_ret|by apply preserves_bind]. Qed.
Lemma preserves_mapM {A B} (f : A → IO W B) l :
  (∀ a, preserves I (f a)) → preserves I (io_mapM f l).
Proof.
  intros Hf. induction l; cbn; [apply preserves_ret|].
  apply preserves_bind; [done|]. intros b. apply preserves_bind; [done|].
  intros bs. apply preserves_ret.
Qed.
End preserves.

Create HintDb preserves.
#[export] Hint Resolve preserves_ret preserves_err preserves_gets preserves_result
  preserves_try preserves_for_each preserves_mapM : preserves.

Lemma IO_bind_Ok {W A B} (m : IO W A) (f : A → IO W B) w b w' :
  (m ≫= f) w = (Ok b, w') ↔ ∃ a w1, m w = (Ok a, w1) ∧ f a w1 = (Ok b, w').
Proof.
  unfold mbind, IO_bind. destruct (m w) as [[a|e] w1].
  - split; [by exists a, w1|]. by intros (? & ? & [= -> ->] & ?).
  - split; [done|]. by intros (? & ? & ? & ?).
Qed.
