(* ===== verification/Keys.v ===== *)
(** * Key encoding (taquba/src/keys.rs)

    Queue names, key tags, every key builder and every key parser, with the
    facts the rest of the library uses: builders are injective, live in disjoint
    key spaces, sort in the order of their leading fields and parse back. *)
From S2P Require Import Prelude Bytes Error.

(** ** Job states (taquba/src/job.rs) *)

Inductive JobStatus := Pending | Scheduled | Claimed | Done | Dead.

#[global] Instance JobStatus_eq_dec : EqDecision JobStatus.
Proof. solve_decision. Defined.

#[global] Instance JobStatus_countable : Countable JobStatus.
Proof.
  refine (inj_countable'
    (λ s, match s with Pending => 0 | Scheduled => 1 | Claimed => 2 | Done => 3 | Dead => 4 end)
    (λ n, match n with 0 => Pending | 1 => Scheduled | 2 => Claimed | 3 => Done | _ => Dead end) _).
  by intros [].
Defined.

(** ** Queue names *)

Definition MAX_QUEUE_NAME_LEN : nat := 255.

Definition QUEUE_NAME_FORM : Form :=
  mkForm MAX_QUEUE_NAME_LEN (Some is_ascii_alphanumeric)
    (λ c, is_ascii_alphanumeric c || bool_decide (c ∈ [46; 95; 45]%Z)).

#[global] Instance FormError_eq_dec : EqDecision FormError.
Proof. solve_decision. Defined.
#[global] Instance result_eq_dec {E A} `{EqDecision E, EqDecision A} : EqDecision (result E A).
Proof. solve_decision. Defined.

(** A validated name: the check is part of the type, as the constructor of the
    Rust type makes it. *)
Record QueueName := mkQueueName {
  qn_str : string;
  qn_valid : form_check QUEUE_NAME_FORM qn_str = Ok ();
}.

(** [QueueName::new]. *)
Definition QueueName_new (name : string) : Result QueueName :=
  match form_check QUEUE_NAME_FORM name as r
    return form_check QUEUE_NAME_FORM name = r → Result QueueName with
  | Ok tt => λ E, Ok (mkQueueName name E)
  | Err reason => λ _, Err (InvalidQueueName name reason)
  end eq_refl.

Lemma QueueName_eq (q r : QueueName) : qn_str q = qn_str r → q = r.
Proof.
  destruct q as [s Hs], r as [t Ht]. cbn. intros <-. f_equal. apply (proof_irrel Hs Ht).
Qed.

#[global] Instance QueueName_eq_dec : EqDecision QueueName.
Proof.
  refine (λ q r, cast_if (decide (qn_str q = qn_str r))).
  - by apply QueueName_eq.
  - by intros ->.
Defined.

Lemma QueueName_new_qn_str q : QueueName_new (qn_str q) = Ok q.
Proof.
  destruct q as [s Hs]. cbn. unfold QueueName_new.
  generalize (@eq_refl _ (form_check QUEUE_NAME_FORM s)).
  generalize (form_check QUEUE_NAME_FORM s) at 2 3. intros [[]|] E; [|congruence].
  f_equal. by apply QueueName_eq.
Qed.

Lemma QueueName_new_Ok s q : QueueName_new s = Ok q → qn_str q = s.
Proof.
  unfold QueueName_new. generalize (@eq_refl _ (form_check QUEUE_NAME_FORM s)).
  generalize (form_check QUEUE_NAME_FORM s) at 2 3. intros [[]|] E; by intros [= <-].
Qed.

#[global] Instance QueueName_countable : Countable QueueName.
Proof.
  refine (inj_countable qn_str (λ s, ok (QueueName_new s)) _).
  intros q. by rewrite QueueName_new_qn_str.
Defined.

(** [queue.as_bytes()] and [queue.len()]. *)
Definition qn_bytes (q : QueueName) : bytes := as_bytes (qn_str q).

Lemma queue_char_ascii c : form_characters QUEUE_NAME_FORM c = true → in_range 0 127 c = true.
Proof.
  cbn. unfold is_ascii_alphanumeric. rewrite orb_true_iff, bool_decide_eq_true.
  rewrite !elem_of_cons, elem_of_nil. unfold in_range. lia.
Qed.

Lemma qn_bytes_len q : 0 < length (qn_bytes q) ≤ 255.
Proof.
  pose proof (qn_valid q) as H. apply form_check_ascii in H as (? & Hmax & _).
  - unfold qn_bytes, str_len in *. cbn in Hmax. unfold MAX_QUEUE_NAME_LEN in Hmax. lia.
  - apply queue_char_ascii.
Qed.

Lemma qn_ascii q : is_ascii_str (qn_str q) = true.
Proof.
  pose proof (qn_valid q) as H. apply form_check_ascii in H as (_ & _ & Hall & _).
  - apply Is_true_eq_true, forallb_True. eapply Forall_impl; [exact Hall|].
    intros c Hc. apply Is_true_eq_left. by apply queue_char_ascii.
  - apply queue_char_ascii.
Qed.

Lemma from_utf8_qn_bytes q : from_utf8 (qn_bytes q) = Some (qn_str q).
Proof. apply from_utf8_as_bytes, qn_ascii. Qed.

#[global] Instance qn_bytes_Inj : Inj (=) (=) qn_bytes.
Proof. intros q r H. apply QueueName_eq. by apply as_bytes_inj. Qed.

(** ** Tags *)

Definition KEY_VERSION : Z := 1.

Inductive KeyTag :=
| TPending | TClaimed | TScheduled | TDone | TDead | TJobIndex | TDedup | TCursor | TStats
| TAttemptHistory | THeartbeat | TInboxRecord | TInboxExpiry | TInboxFailure | TCount | TUser.

#[global] Instance KeyTag_eq_dec : EqDecision KeyTag.
Proof. solve_decision. Defined.

(** [KeyTag::id]. *)
Definition tag_id (t : KeyTag) : Z :=
  match t with
  | TPending => 1 | TClaimed => 2 | TScheduled => 3 | TDone => 4 | TDead => 5
  | TJobIndex => 6 | TDedup => 7 | TCursor => 8 | TStats => 9 | TAttemptHistory => 10
  | THeartbeat => 11 | TInboxRecord => 12 | TInboxExpiry => 13 | TInboxFailure => 14
  | TCount => 15 | TUser => 255
  end.

(** [KeyTag::of]. *)
Definition tag_of (key : bytes) : option KeyTag :=
  b ← head key;
  match b with
  | 1 => Some TPending | 2 => Some TClaimed | 3 => Some TScheduled | 4 => Some TDone
  | 5 => Some TDead | 6 => Some TJobIndex | 7 => Some TDedup | 8 => Some TCursor
  | 9 => Some TStats | 10 => Some TAttemptHistory | 11 => Some THeartbeat
  | 12 => Some TInboxRecord | 13 => Some TInboxExpiry | 14 => Some TInboxFailure
  | 15 => Some TCount | 255 => Some TUser
  | _ => None
  end%Z.

(** [KeyTag::job_status]. *)
Definition tag_job_status (t : KeyTag) : option JobStatus :=
  match t with
  | TPending => Some Pending | TClaimed => Some Claimed | TScheduled => Some Scheduled
  | TDone => Some Done | TDead => Some Dead
  | TJobIndex | TDedup | TCursor | TStats | TAttemptHistory | THeartbeat | TInboxRecord
  | TInboxExpiry | TInboxFailure | TCount | TUser => None
  end.

(** ** Builders *)

Definition header (t : KeyTag) : bytes := [tag_id t; KEY_VERSION].

(** The length-prefixed queue name; the length is cast to [u8]. *)
Definition push_queue (q : QueueName) : bytes :=
  wrap8 (Z.of_nat (length (qn_bytes q))) :: qn_bytes q.

Definition pending_key (q : QueueName) (priority enqueued_at : Z) (id : string) : bytes :=
  header TPending ++ push_queue q ++ be_bytes 4 priority ++ be_bytes 8 enqueued_at ++ as_bytes id.

Definition pending_prefix (q : QueueName) : bytes := header TPending ++ push_queue q.

Definition time_first_key (t : KeyTag) (ts : Z) (q : QueueName) (id : string) : bytes :=
  header t ++ be_bytes 8 ts ++ push_queue q ++ as_bytes id.

Definition queue_first_key (t : KeyTag) (q : QueueName) (id : string) : bytes :=
  header t ++ push_queue q ++ as_bytes id.

Definition queue_prefix (t : KeyTag) (q : QueueName) : bytes := header t ++ push_queue q.

Definition claimed_key (q : QueueName) (id : string) : bytes := queue_first_key TClaimed q id.
Definition claimed_prefix (q : QueueName) : bytes := queue_prefix TClaimed q.
Definition scheduled_key (q : QueueName) (run_at : Z) (id : string) : bytes :=
  time_first_key TScheduled run_at q id.
Definition done_key (completed_at : Z) (q : QueueName) (id : string) : bytes :=
  time_first_key TDone completed_at q id.
Definition dead_key (q : QueueName) (id : string) : bytes := queue_first_key TDead q id.
Definition dead_prefix (q : QueueName) : bytes := queue_prefix TDead q.

Definition job_index_key (id : string) : bytes := header TJobIndex ++ as_bytes id.
Definition attempt_history_key (id : string) : bytes := header TAttemptHistory ++ as_bytes id.
Definition dedup_index_key (q : QueueName) (key : string) : bytes :=
  header TDedup ++ push_queue q ++ as_bytes key.
Definition cursor_key (q : QueueName) : bytes := header TCursor ++ qn_bytes q.
Definition heartbeat_key : bytes := header THeartbeat.
Definition inbox_record_key (q : QueueName) (id : string) : bytes :=
  queue_first_key TInboxRecord q id.
Definition inbox_expiry_key (applied_at : Z) (q : QueueName) (id : string) : bytes :=
  time_first_key TInboxExpiry applied_at q id.
Definition inbox_failure_key (q : QueueName) (id : string) : bytes :=
  queue_first_key TInboxFailure q id.
Definition count_key (name : string) : bytes := header TCount ++ as_bytes name.
Definition stats_key (q : QueueName) (metric : string) : bytes :=
  header TStats ++ push_queue q ++ as_bytes metric.
Definition tag_prefix (t : KeyTag) : bytes := header t.

(** A caller key in the user space, without a version byte. *)
Definition user_scoped_key (key : bytes) : bytes := tag_id TUser :: key.

(** ** Parsers *)

Definition parse_inbox_expiry_entry (key : bytes) : option (QueueName * string) :=
  rest ← strip_prefix (header TInboxExpiry) key;
  '(_, rest) ← split_at_checked 8 rest;
  qlen ← head rest;
  '(queue, id) ← split_at_checked (Z.to_nat qlen) (tail rest);
  queue ← from_utf8 queue;
  queue ← ok (QueueName_new queue);
  id ← from_utf8 id;
  Some (queue, id).

(** The leading timestamp of a time-first key of the given tag. *)
Definition parse_key_timestamp (key : bytes) (t : KeyTag) : option Z :=
  rest ← strip_prefix (header t) key;
  '(ts, _) ← split_at_checked 8 rest;
  Some (from_be ts).

Definition parse_cursor_key (key : bytes) : option QueueName :=
  rest ← strip_prefix (header TCursor) key;
  name ← from_utf8 rest;
  ok (QueueName_new name).

Definition parse_stats_key (key : bytes) : option (string * string) :=
  rest ← strip_prefix (header TStats) key;
  qlen ← head rest;
  let rest := tail rest in
  if decide (length rest < Z.to_nat qlen) then None
  else
    queue ← from_utf8 (take (Z.to_nat qlen) rest);
    metric ← from_utf8 (drop (Z.to_nat qlen) rest);
    Some (queue, metric).

(** ** Fields parse back *)

Lemma wrap8_qlen q : wrap8 (Z.of_nat (length (qn_bytes q))) = Z.of_nat (length (qn_bytes q)).
Proof. pose proof (qn_bytes_len q). apply Z.mod_small. unfold u8_mod. lia. Qed.

(** The one-byte length of a queue name is its length, so names end at a known
    offset and two keys agree on the name and on what follows it. *)
Lemma push_queue_app_inj q r a b :
  push_queue q ++ a = push_queue r ++ b → q = r ∧ a = b.
Proof.
  unfold push_queue. rewrite !wrap8_qlen. cbn [app]. intros E.
  injection E as Hlen E. apply app_inj_1 in E as [Hq ->]; [|lia].
  split; [by apply qn_bytes_Inj|done].
Qed.

Lemma be4_app_inj x y a b :
  is_u32 x → is_u32 y → be_bytes 4 x ++ a = be_bytes 4 y ++ b → x = y ∧ a = b.
Proof.
  intros Hx Hy E. apply app_inj_1 in E as [E ->]; [|by rewrite !length_be_bytes].
  split; [|done]. apply (be_bytes_inj 4); [exact Hx|exact Hy|done].
Qed.

Lemma be8_app_inj x y a b :
  is_u64 x → is_u64 y → be_bytes 8 x ++ a = be_bytes 8 y ++ b → x = y ∧ a = b.
Proof.
  intros Hx Hy E. apply app_inj_1 in E as [E ->]; [|by rewrite !length_be_bytes].
  split; [|done]. apply (be_bytes_inj 8); [exact Hx|exact Hy|done].
Qed.

Lemma header_app_inj t u a b : header t ++ a = header u ++ b → t = u ∧ a = b.
Proof. intros E. injection E as Ht ->. split; [|done]. by destruct t, u. Qed.

(** Splits an equation of keys field by field. *)
Ltac key_inj :=
  repeat match goal with
  | H : header _ ++ _ = header _ ++ _ |- _ => apply header_app_inj in H as [? H]
  | H : push_queue _ ++ _ = push_queue _ ++ _ |- _ => apply push_queue_app_inj in H as [? H]
  | H : be_bytes 4 _ ++ _ = be_bytes 4 _ ++ _ |- _ =>
      apply be4_app_inj in H as [? H]; [|done..]
  | H : be_bytes 8 _ ++ _ = be_bytes 8 _ ++ _ |- _ =>
      apply be8_app_inj in H as [? H]; [|done..]
  | H : as_bytes _ = as_bytes _ |- _ => apply as_bytes_inj in H
  | H : qn_bytes _ = qn_bytes _ |- _ => apply qn_bytes_Inj in H
  end; subst.

(** ** Builders are injective *)

Lemma pending_key_inj q q' p p' e e' id id' :
  is_u32 p → is_u32 p' → is_u64 e → is_u64 e' →
  pending_key q p e id = pending_key q' p' e' id' → q = q' ∧ p = p' ∧ e = e' ∧ id = id'.
Proof. unfold pending_key. intros. key_inj. done. Qed.

Lemma time_first_key_inj t t' ts ts' q q' id id' :
  is_u64 ts → is_u64 ts' →
  time_first_key t ts q id = time_first_key t' ts' q' id' →
  t = t' ∧ ts = ts' ∧ q = q' ∧ id = id'.
Proof. unfold time_first_key. intros. key_inj. done. Qed.

Lemma queue_first_key_inj t t' q q' id id' :
  queue_first_key t q id = queue_first_key t' q' id' → t = t' ∧ q = q' ∧ id = id'.
Proof. unfold queue_first_key. intros. key_inj. done. Qed.

#[global] Instance job_index_key_Inj : Inj (=) (=) job_index_key.
Proof. unfold job_index_key. intros a b E. by key_inj. Qed.
#[global] Instance attempt_history_key_Inj : Inj (=) (=) attempt_history_key.
Proof. unfold attempt_history_key. intros a b E. by key_inj. Qed.
#[global] Instance count_key_Inj : Inj (=) (=) count_key.
Proof. unfold count_key. intros a b E. by key_inj. Qed.
#[global] Instance cursor_key_Inj : Inj (=) (=) cursor_key.
Proof. unfold cursor_key. intros a b E. by key_inj. Qed.
#[global] Instance user_scoped_key_Inj : Inj (=) (=) user_scoped_key.
Proof. intros a b E. by injection E. Qed.

Lemma dedup_index_key_inj q q' k k' :
  dedup_index_key q k = dedup_index_key q' k' → q = q' ∧ k = k'.
Proof. unfold dedup_index_key. intros. key_inj. done. Qed.

Lemma stats_key_inj q q' k k' : stats_key q k = stats_key q' k' → q = q' ∧ k = k'.
Proof. unfold stats_key. intros. key_inj. done. Qed.

(** ** Key spaces are disjoint

    A key of one tag is never a key of another, the caller's keys included. *)

Lemma tag_of_header t k : tag_of (header t ++ k) = Some t.
Proof. by destruct t. Qed.

Lemma tag_of_tag_id t k : tag_of (tag_id t :: k) = Some t.
Proof. by destruct t. Qed.

Lemma tag_of_pending_key q p e id : tag_of (pending_key q p e id) = Some TPending.
Proof. apply tag_of_header. Qed.
Lemma tag_of_claimed_key q id : tag_of (claimed_key q id) = Some TClaimed.
Proof. apply tag_of_header. Qed.
Lemma tag_of_scheduled_key q ts id : tag_of (scheduled_key q ts id) = Some TScheduled.
Proof. apply tag_of_header. Qed.
Lemma tag_of_done_key q ts id : tag_of (done_key ts q id) = Some TDone.
Proof. apply tag_of_header. Qed.
Lemma tag_of_dead_key q id : tag_of (dead_key q id) = Some TDead.
Proof. apply tag_of_header. Qed.
Lemma tag_of_job_index_key id : tag_of (job_index_key id) = Some TJobIndex.
Proof. apply tag_of_header. Qed.
Lemma tag_of_attempt_history_key id : tag_of (attempt_history_key id) = Some TAttemptHistory.
Proof. apply tag_of_header. Qed.
Lemma tag_of_dedup_index_key q k : tag_of (dedup_index_key q k) = Some TDedup.
Proof. apply tag_of_header. Qed.
Lemma tag_of_stats_key q m : tag_of (stats_key q m) = Some TStats.
Proof. apply tag_of_header. Qed.
Lemma tag_of_count_key name : tag_of (count_key name) = Some TCount.
Proof. apply tag_of_header. Qed.
Lemma tag_of_user_scoped_key k : tag_of (user_scoped_key k) = Some TUser.
Proof. apply (tag_of_tag_id TUser). Qed.
Lemma tag_of_inbox_record_key q id : tag_of (inbox_record_key q id) = Some TInboxRecord.
Proof. apply tag_of_header. Qed.
Lemma tag_of_inbox_expiry_key q ts id : tag_of (inbox_expiry_key ts q id) = Some TInboxExpiry.
Proof. apply tag_of_header. Qed.
Lemma tag_of_cursor_key q : tag_of (cursor_key q) = Some TCursor.
Proof. apply tag_of_header. Qed.

Create Rewrite HintDb key_tags.
#[export] Hint Rewrite tag_of_pending_key tag_of_claimed_key tag_of_scheduled_key
  tag_of_done_key tag_of_dead_key tag_of_job_index_key tag_of_attempt_history_key
  tag_of_dedup_index_key tag_of_stats_key tag_of_count_key tag_of_user_scoped_key
  tag_of_inbox_record_key tag_of_inbox_expiry_key tag_of_cursor_key : key_tags.

(** Two keys of different spaces differ. *)
Lemma tag_of_ne k k' : tag_of k ≠ tag_of k' → k ≠ k'.
Proof. by intros H ->. Qed.

Ltac key_ne := apply tag_of_ne; autorewrite with key_tags; first [congruence | done].

(** ** Order *)

(** Pending keys of one queue sort by priority, then by enqueue time, then by
    id. *)
Lemma pending_key_order q p p' e e' id id' :
  is_u32 p → is_u32 p' → is_u64 e → is_u64 e' →
  bytes_lt (pending_key q p e id) (pending_key q p' e' id') = true ↔
  (p < p')%Z ∨ p = p' ∧ ((e < e')%Z ∨ e = e' ∧ bytes_lt (as_bytes id) (as_bytes id') = true).
Proof.
  intros Hp Hp' He He'.
  assert (Hlt : ∀ q q' f f' i i', is_u32 q → is_u32 q' → is_u64 f → is_u64 f' →
    (q < q')%Z ∨ q = q' ∧ ((f < f')%Z ∨ f = f' ∧ bytes_lt (as_bytes i) (as_bytes i') = true) →
    bytes_lt (be_bytes 4 q ++ be_bytes 8 f ++ as_bytes i)
      (be_bytes 4 q' ++ be_bytes 8 f' ++ as_bytes i') = true).
  { intros q1 q2 f f' i i' [Hq1 Hq1'] [_ Hq2] [Hf1 _] [_ Hf2] [?|[-> [?|[-> ?]]]].
    - apply bytes_lt_app_r; [by rewrite !length_be_bytes|by apply be_bytes_lt].
    - rewrite bytes_lt_app_l. apply bytes_lt_app_r; [by rewrite !length_be_bytes|].
      by apply be_bytes_lt.
    - by rewrite !bytes_lt_app_l. }
  unfold pending_key. rewrite !bytes_lt_app_l. split; [|by apply Hlt].
  intros H. destruct (Z.lt_total p p') as [?|[->|?]]; [by left| |].
  - right. split; [done|]. destruct (Z.lt_total e e') as [?|[->|?]]; [by left| |].
    + right. split; [done|]. by rewrite !bytes_lt_app_l in H.
    + apply bytes_lt_asym in H. rewrite Hlt in H; [done..|auto].
  - apply bytes_lt_asym in H. rewrite Hlt in H; [done..|auto].
Qed.

(** A time-first key with an earlier time sorts first, whatever follows. *)
Lemma time_first_key_lt t ts ts' q q' id id' :
  is_u64 ts → is_u64 ts' → (ts < ts')%Z →
  bytes_lt (time_first_key t ts q id) (time_first_key t ts' q' id') = true.
Proof.
  intros [? _] [_ ?] ?. unfold time_first_key. rewrite bytes_lt_app_l.
  apply bytes_lt_app_r; [by rewrite !length_be_bytes|by apply be_bytes_lt].
Qed.

(** A queue's prefix excludes the keys of every other queue. *)
Lemma pending_prefix_excludes q q' p e id r :
  pending_key q' p e id = pending_prefix q ++ r → q' = q.
Proof.
  unfold pending_key, pending_prefix. rewrite <- app_assoc. intros. by key_inj.
Qed.

(** ** Parsers invert builders *)

Lemma parse_key_timestamp_time_first t ts q id :
  is_u64 ts → parse_key_timestamp (time_first_key t ts q id) t = Some ts.
Proof.
  intros Hts. unfold parse_key_timestamp, time_first_key.
  rewrite strip_prefix_app. cbn [mbind option_bind].
  rewrite <- (length_be_bytes 8 ts) at 1. rewrite split_at_checked_app. cbn.
  f_equal. apply be_bytes_roundtrip, Hts.
Qed.

Lemma parse_inbox_expiry_entry_roundtrip ts q id :
  is_ascii_str id = true → parse_inbox_expiry_entry (inbox_expiry_key ts q id) = Some (q, id).
Proof.
  intros Hid. unfold parse_inbox_expiry_entry, inbox_expiry_key, time_first_key.
  rewrite strip_prefix_app. cbn [mbind option_bind].
  rewrite <- (length_be_bytes 8 ts) at 1. rewrite split_at_checked_app. cbn [mbind option_bind].
  unfold push_queue. cbn [app head mbind option_bind tail]. rewrite wrap8_qlen, Nat2Z.id.
  rewrite split_at_checked_app. cbn [mbind option_bind].
  rewrite from_utf8_qn_bytes. cbn [mbind option_bind].
  rewrite QueueName_new_qn_str. cbn. by rewrite from_utf8_as_bytes.
Qed.

Lemma parse_cursor_key_roundtrip q : parse_cursor_key (cursor_key q) = Some q.
Proof.
  unfold parse_cursor_key, cursor_key. rewrite strip_prefix_app. cbn.
  rewrite from_utf8_qn_bytes. cbn. by rewrite QueueName_new_qn_str.
Qed.

Lemma parse_stats_key_roundtrip q m :
  is_ascii_str m = true → parse_stats_key (stats_key q m) = Some (qn_str q, m).
Proof.
  intros Hm. unfold parse_stats_key, stats_key. rewrite strip_prefix_app.
  cbn [mbind option_bind]. unfold push_queue. cbn [app head mbind option_bind tail].
  rewrite wrap8_qlen, Nat2Z.id, decide_False by (rewrite length_app; lia).
  rewrite take_app_length, drop_app_length, from_utf8_qn_bytes. cbn.
  by rewrite from_utf8_as_bytes.
Qed.
