(* ===== verification/Job.v ===== *)
(** * Job records (taquba/src/job.rs, taquba/src/codec.rs)

    The record of a job, its stored form and its claim. MessagePack is a library:
    its encoding is the class [Serde], whose only law is the round trip of a
    self-delimiting format. *)
From S2P Require Import Prelude Bytes Error Keys.

(** ** Encoding

    [ser] is [rmp_serde::to_vec_named]; [de] reads one value off the front of a
    buffer and returns the rest. *)
Class Serde (A : Type) := {
  ser : A → bytes;
  de : bytes → option (A * bytes);
  de_ser : ∀ a rest, de (ser a ++ rest) = Some (a, rest);
  ser_nonempty : ∀ a, ser a ≠ [];
}.

(** [codec::encode]. *)
Definition encode {A} `{!Serde A} (a : A) : bytes := ser a.

(** [rmp_serde::from_slice]: the first value of the buffer. *)
Definition from_slice {A} `{!Serde A} (b : bytes) : Result A :=
  match de b with
  | Some (a, _) => Ok a
  | None => Err (Deserialization "malformed MessagePack")
  end.

Lemma from_slice_encode {A} `{!Serde A} (a : A) : from_slice (encode a) = Ok a.
Proof. unfold from_slice, encode. by rewrite <- (app_nil_r (ser a)), de_ser. Qed.

(** ** The record *)

Record JobRecord := mkJob {
  id : string;
  queue : QueueName;
  payload : bytes;
  payload_ref : option string;
  headers : gmap string string;
  status : JobStatus;
  attempts : Z;
  max_attempts : Z;
  enqueued_at : Z;
  claimed_at : option Z;
  run_at : option Z;
  signal : option bytes;
  signal_wait : bool;
  count_wait : option string;
  priority : Z;
  last_error : option string;
  dedup_key : option string;
  completed_at : option Z;
  failed_at : option Z;
  cancel_requested : bool;
}.

(** *** Assignments to the fields the operations change *)

Definition set_payload (v : bytes) (j : JobRecord) : JobRecord :=
  mkJob (id j) (queue j) v (payload_ref j) (headers j) (status j) (attempts j) (max_attempts
    j) (enqueued_at j) (claimed_at j) (run_at j) (signal j) (signal_wait j) (count_wait j)
    (priority j) (last_error j) (dedup_key j) (completed_at j) (failed_at j)
    (cancel_requested j).
Definition set_payload_ref (v : option string) (j : JobRecord) : JobRecord :=
  mkJob (id j) (queue j) (payload j) v (headers j) (status j) (attempts j) (max_attempts j)
    (enqueued_at j) (claimed_at j) (run_at j) (signal j) (signal_wait j) (count_wait j)
    (priority j) (last_error j) (dedup_key j) (completed_at j) (failed_at j)
    (cancel_requested j).
Definition set_headers (v : gmap string string) (j : JobRecord) : JobRecord :=
  mkJob (id j) (queue j) (payload j) (payload_ref j) v (status j) (attempts j) (max_attempts
    j) (enqueued_at j) (claimed_at j) (run_at j) (signal j) (signal_wait j) (count_wait j)
    (priority j) (last_error j) (dedup_key j) (completed_at j) (failed_at j)
    (cancel_requested j).
Definition set_status (v : JobStatus) (j : JobRecord) : JobRecord :=
  mkJob (id j) (queue j) (payload j) (payload_ref j) (headers j) v (attempts j)
    (max_attempts j) (enqueued_at j) (claimed_at j) (run_at j) (signal j) (signal_wait j)
    (count_wait j) (priority j) (last_error j) (dedup_key j) (completed_at j) (failed_at j)
    (cancel_requested j).
Definition set_attempts (v : Z) (j : JobRecord) : JobRecord :=
  mkJob (id j) (queue j) (payload j) (payload_ref j) (headers j) (status j) v (max_attempts
    j) (enqueued_at j) (claimed_at j) (run_at j) (signal j) (signal_wait j) (count_wait j)
    (priority j) (last_error j) (dedup_key j) (completed_at j) (failed_at j)
    (cancel_requested j).
Definition set_claimed_at (v : option Z) (j : JobRecord) : JobRecord :=
  mkJob (id j) (queue j) (payload j) (payload_ref j) (headers j) (status j) (attempts j)
    (max_attempts j) (enqueued_at j) v (run_at j) (signal j) (signal_wait j) (count_wait j)
    (priority j) (last_error j) (dedup_key j) (completed_at j) (failed_at j)
    (cancel_requested j).
Definition set_run_at (v : option Z) (j : JobRecord) : JobRecord :=
  mkJob (id j) (queue j) (payload j) (payload_ref j) (headers j) (status j) (attempts j)
    (max_attempts j) (enqueued_at j) (claimed_at j) v (signal j) (signal_wait j) (count_wait
    j) (priority j) (last_error j) (dedup_key j) (completed_at j) (failed_at j)
    (cancel_requested j).
Definition set_signal (v : option bytes) (j : JobRecord) : JobRecord :=
  mkJob (id j) (queue j) (payload j) (payload_ref j) (headers j) (status j) (attempts j)
    (max_attempts j) (enqueued_at j) (claimed_at j) (run_at j) v (signal_wait j) (count_wait
    j) (priority j) (last_error j) (dedup_key j) (completed_at j) (failed_at j)
    (cancel_requested j).
Definition set_signal_wait (v : bool) (j : JobRecord) : JobRecord :=
  mkJob (id j) (queue j) (payload j) (payload_ref j) (headers j) (status j) (attempts j)
    (max_attempts j) (enqueued_at j) (claimed_at j) (run_at j) (signal j) v (count_wait j)
    (priority j) (last_error j) (dedup_key j) (completed_at j) (failed_at j)
    (cancel_requested j).
Definition set_count_wait (v : option string) (j : JobRecord) : JobRecord :=
  mkJob (id j) (queue j) (payload j) (payload_ref j) (headers j) (status j) (attempts j)
    (max_attempts j) (enqueued_at j) (claimed_at j) (run_at j) (signal j) (signal_wait j) v
    (priority j) (last_error j) (dedup_key j) (completed_at j) (failed_at j)
    (cancel_requested j).
Definition set_last_error (v : option string) (j : JobRecord) : JobRecord :=
  mkJob (id j) (queue j) (payload j) (payload_ref j) (headers j) (status j) (attempts j)
    (max_attempts j) (enqueued_at j) (claimed_at j) (run_at j) (signal j) (signal_wait j)
    (count_wait j) (priority j) v (dedup_key j) (completed_at j) (failed_at j)
    (cancel_requested j).
Definition set_dedup_key (v : option string) (j : JobRecord) : JobRecord :=
  mkJob (id j) (queue j) (payload j) (payload_ref j) (headers j) (status j) (attempts j)
    (max_attempts j) (enqueued_at j) (claimed_at j) (run_at j) (signal j) (signal_wait j)
    (count_wait j) (priority j) (last_error j) v (completed_at j) (failed_at j)
    (cancel_requested j).
Definition set_completed_at (v : option Z) (j : JobRecord) : JobRecord :=
  mkJob (id j) (queue j) (payload j) (payload_ref j) (headers j) (status j) (attempts j)
    (max_attempts j) (enqueued_at j) (claimed_at j) (run_at j) (signal j) (signal_wait j)
    (count_wait j) (priority j) (last_error j) (dedup_key j) v (failed_at j)
    (cancel_requested j).
Definition set_failed_at (v : option Z) (j : JobRecord) : JobRecord :=
  mkJob (id j) (queue j) (payload j) (payload_ref j) (headers j) (status j) (attempts j)
    (max_attempts j) (enqueued_at j) (claimed_at j) (run_at j) (signal j) (signal_wait j)
    (count_wait j) (priority j) (last_error j) (dedup_key j) (completed_at j) v
    (cancel_requested j).
Definition set_cancel_requested (v : bool) (j : JobRecord) : JobRecord :=
  mkJob (id j) (queue j) (payload j) (payload_ref j) (headers j) (status j) (attempts j)
    (max_attempts j) (enqueued_at j) (claimed_at j) (run_at j) (signal j) (signal_wait j)
    (count_wait j) (priority j) (last_error j) (dedup_key j) (completed_at j) (failed_at j)
    v.

(** [JobRecord::is_last_attempt]. *)
Definition is_last_attempt (j : JobRecord) : bool := (max_attempts j <=? attempts j)%Z.

(** [JobStatus::initial]. *)
Definition status_initial : JobStatus := Pending.

(** [JobRecord::new_pending]. *)
Definition new_pending (id : string) (queue : QueueName) (payload : bytes)
    (max_attempts priority enqueued_at : Z) : JobRecord :=
  {| id := id; queue := queue; payload := payload; payload_ref := None; headers := ∅;
     status := Pending; attempts := 0; max_attempts := max_attempts;
     enqueued_at := enqueued_at; claimed_at := None; run_at := None; signal := None;
     signal_wait := false; count_wait := None; priority := priority; last_error := None;
     dedup_key := None; completed_at := None; failed_at := None; cancel_requested := false |}.

Section codec.
  Context `{!Serde JobRecord}.

(** The serialization of a record: the [status] field is skipped and reads back
    as [JobStatus::initial]. *)
Definition encode_job (j : JobRecord) : bytes := encode (set_status status_initial j).

(** [JobRecord::decode]: the state is the key space of the key. *)
Definition decode_job (key b : bytes) : Result JobRecord :=
  st ← ok_or (t ← tag_of key; tag_job_status t) (Deserialization "key holds no job record");
  j ← from_slice b;
  Ok (set_status st j).

(** [JobRecord::stored_key]. The two [expect]s panic on a scheduled record
    without a [run_at] and on a done record without a [completed_at]. *)
Definition stored_key (j : JobRecord) : Result bytes :=
  match status j with
  | Pending => Ok (pending_key (queue j) (priority j) (enqueued_at j) (id j))
  | Scheduled =>
      run_at ← ok_or (run_at j) Panicked;
      Ok (scheduled_key (queue j) run_at (id j))
  | Claimed => Ok (claimed_key (queue j) (id j))
  | Done =>
      completed_at ← ok_or (completed_at j) Panicked;
      Ok (done_key completed_at (queue j) (id j))
  | Dead => Ok (dead_key (queue j) (id j))
  end.

(** [JobRecord::stored_clone]: the stored form, without an offloaded payload. *)
Definition stored_clone (j : JobRecord) : JobRecord :=
  set_payload (if payload_ref j then [] else payload j) j.

(** [JobRecord::stored_bytes]. *)
Definition stored_bytes (j : JobRecord) : bytes :=
  match payload_ref j with
  | None => encode_job j
  | Some _ => encode_job (stored_clone j)
  end.

(** ** Properties *)

Lemma set_status_twice s s' j : set_status s (set_status s' j) = set_status s j.
Proof. by destruct j. Qed.

Lemma set_status_id j : set_status (status j) j = j.
Proof. by destruct j. Qed.

Lemma stored_clone_idemp j : stored_clone (stored_clone j) = stored_clone j.
Proof. destruct j as [??? [?|]]; done. Qed.

Lemma stored_bytes_clone j : stored_bytes j = encode_job (stored_clone j).
Proof. unfold stored_bytes. by destruct j as [??? [?|]]. Qed.

(** The key space a stored key lies in is the one of the record's state. *)
Lemma tag_of_stored_key j k :
  stored_key j = Ok k → (t ← tag_of k; tag_job_status t) = Some (status j).
Proof.
  unfold stored_key. destruct (status j) eqn:E; intros H; inv_ok;
    autorewrite with key_tags; done.
Qed.

Lemma decode_stored_bytes j k :
  (t ← tag_of k; tag_job_status t) = Some (status j) →
  decode_job k (stored_bytes j) = Ok (stored_clone j).
Proof.
  intros Hk. unfold decode_job. rewrite Hk. cbn. rewrite stored_bytes_clone.
  unfold encode_job. rewrite from_slice_encode. cbn. by destruct j.
Qed.

(** [decode] reads back what a record's stored key and stored bytes hold: the
    stored form with the state of the record. *)
Lemma decode_stored j k :
  stored_key j = Ok k → decode_job k (stored_bytes j) = Ok (stored_clone j).
Proof. intros. by apply decode_stored_bytes, tag_of_stored_key. Qed.

End codec.

(** ** Claims

    A cancellation token is shared mutable state: a [Claim] and the lease registry
    hold its name, and whether it fired is kept beside the registry. *)
Abbreviation CancellationToken := nat (only parsing).

Record Claim := mkClaim { job : JobRecord; claim_id : Z; cancel : CancellationToken }.
