(* ===== verification/Store.v ===== *)
(** * The store interface

    SlateDB is a library: the development does not define it. [SlateDb] lists the
    operations the sources call, each of which can fail, and [SlateDbLaws] states
    what the sources rely on: the documented behaviour of a transactional
    key-value store with snapshot transactions, prefix scans in key order, a merge
    operator and commit conflicts on the keys a transaction wrote or marked as
    read. Nothing is assumed of when an operation fails; [SlateDbHealthy] is the
    hypothesis of the liveness statements. [MemStore] gives an implementation. *)
From S2P Require Import Prelude Bytes Error Keys.

(** Where a prefix scan starts, as the suffix of the prefix. *)
Inductive ScanStart := Unbounded | Included (suffix : bytes) | Excluded (suffix : bytes).

Definition scan_start_ok (s : ScanStart) (suffix : bytes) : bool :=
  match s with
  | Unbounded => true
  | Included k => bytes_le k suffix
  | Excluded k => bytes_lt k suffix
  end.

Definition kv := (bytes * bytes)%type.

(** A page of a scan is in ascending key order, without a key twice. *)
Definition key_lt (a b : kv) : Prop := bytes_lt a.1 b.1 = true.

Inductive MergeOperatorError := MergeCallback (message : string).

Definition MergeOperator : Type :=
  bytes → option bytes → list bytes → result MergeOperatorError bytes.

Class SlateDb := {
  Db : Type;
  DbTransaction : Type;
  db_begin : Db → result SlateError DbTransaction;
  db_scan_prefix : Db → bytes → ScanStart → result SlateError (list kv);
  db_get : Db → bytes → result SlateError (option bytes);
  db_put : Db → bytes → bytes → result SlateError Db;
  db_delete : Db → bytes → result SlateError Db;
  db_await_durable : Db → result SlateError ();
  db_flush : Db → result SlateError ();
  txn_get : DbTransaction → bytes → result SlateError (option bytes);
  txn_scan_prefix : DbTransaction → bytes → ScanStart → result SlateError (list kv);
  txn_put : DbTransaction → bytes → bytes → result SlateError DbTransaction;
  txn_delete : DbTransaction → bytes → result SlateError DbTransaction;
  txn_merge : DbTransaction → bytes → bytes → result SlateError DbTransaction;
  txn_mark_read : DbTransaction → list bytes → result SlateError DbTransaction;
  txn_unmark_write : DbTransaction → list bytes → result SlateError DbTransaction;
  txn_commit : Db → DbTransaction → result SlateError Db;
}.

(** A scan returns the entries of [m] under [prefix] from [start] on, in order. *)
Definition is_scan (m : gmap bytes bytes) (prefix : bytes) (start : ScanStart)
    (l : list kv) : Prop :=
  StronglySorted key_lt l ∧
  ∀ k v, (k, v) ∈ l ↔
    m !! k = Some v ∧ ∃ suffix, k = prefix ++ suffix ∧ scan_start_ok start suffix = true.

(** ** Write sets

    A transaction buffers its writes; a merge operand is resolved by the merge
    operator against the value the key has when the write is read or committed.
    [fallback] is what a merge the operator refuses leaves, which nothing relies
    on. *)
Inductive write := WPut (key value : bytes) | WDelete (key : bytes) | WMerge (key operand : bytes).

#[global] Instance write_eq_dec : EqDecision write.
Proof. solve_decision. Defined.

Definition write_key (w : write) : bytes :=
  match w with WPut k _ | WDelete k | WMerge k _ => k end.

Definition apply_write (op : MergeOperator) (fallback : bytes → option bytes → bytes → bytes)
    (m : gmap bytes bytes) (w : write) : gmap bytes bytes :=
  match w with
  | WPut k v => <[k := v]> m
  | WDelete k => delete k m
  | WMerge k v =>
      <[k := match op k (m !! k) [v] with Ok x => x | Err _ => fallback k (m !! k) v end]> m
  end.

Definition apply_writes (op : MergeOperator)
    (fallback : bytes → option bytes → bytes → bytes) (ws : list write)
    (m : gmap bytes bytes) : gmap bytes bytes :=
  foldl (apply_write op fallback) m ws.

(** What the sources rely on. [contents] is what the store holds, [base] the
    store a transaction began on, [writes] its buffered writes and [tracked] the
    keys whose concurrent change is a conflict. A transaction reads its own
    writes over the snapshot it began on. *)
Class SlateDbLaws (op : MergeOperator) `{!SlateDb} := {
  contents : Db → gmap bytes bytes;
  base : DbTransaction → Db;
  writes : DbTransaction → list write;
  tracked : DbTransaction → gset bytes;
  merge_fallback : bytes → option bytes → bytes → bytes;

  begin_law d t : db_begin d = Ok t → base t = d ∧ writes t = [] ∧ tracked t = ∅;
  db_scan_law d p s l : db_scan_prefix d p s = Ok l → is_scan (contents d) p s l;
  db_get_law d k o : db_get d k = Ok o → o = contents d !! k;
  db_put_law d k v d' : db_put d k v = Ok d' → contents d' = <[k := v]> (contents d);
  db_delete_law d k d' : db_delete d k = Ok d' → contents d' = delete k (contents d);

  get_law t k o : txn_get t k = Ok o →
    o = apply_writes op merge_fallback (writes t) (contents (base t)) !! k;
  scan_law t p s l : txn_scan_prefix t p s = Ok l →
    is_scan (apply_writes op merge_fallback (writes t) (contents (base t))) p s l;
  put_law t k v t' : txn_put t k v = Ok t' →
    base t' = base t ∧ writes t' = writes t ++ [WPut k v] ∧ tracked t' = {[k]} ∪ tracked t;
  delete_law t k t' : txn_delete t k = Ok t' →
    base t' = base t ∧ writes t' = writes t ++ [WDelete k] ∧ tracked t' = {[k]} ∪ tracked t;
  merge_law t k v t' : txn_merge t k v = Ok t' →
    base t' = base t ∧ writes t' = writes t ++ [WMerge k v] ∧ tracked t' = {[k]} ∪ tracked t;
  mark_read_law t ks t' : txn_mark_read t ks = Ok t' →
    base t' = base t ∧ writes t' = writes t ∧ tracked t' = list_to_set ks ∪ tracked t;
  unmark_write_law t ks t' : txn_unmark_write t ks = Ok t' →
    base t' = base t ∧ writes t' = writes t ∧ tracked t' = tracked t ∖ list_to_set ks;

  (** A commit applies the writes to what the store then holds; it succeeds only
      when no tracked key changed since the transaction began, and it cannot
      conflict when nothing was committed since. *)
  commit_law d t d' : txn_commit d t = Ok d' →
    contents d' = apply_writes op merge_fallback (writes t) (contents d) ∧
    ∀ k, k ∈ tracked t → contents d !! k = contents (base t) !! k;
  commit_no_conflict_law t e : txn_commit (base t) t = Err e → slate_kind e ≠ TransactionKind;
}.

(** What a transaction reads. *)
Definition view `{SlateDbLaws} (t : DbTransaction) : gmap bytes bytes :=
  apply_writes op merge_fallback (writes t) (contents (base t)).

(** Operations that do not fail, for the statements that a call returns. *)
Class SlateDbHealthy `{!SlateDb} : Prop := {
  begin_healthy d : is_Some (ok (db_begin d));
  scan_healthy t p s : is_Some (ok (txn_scan_prefix t p s));
  db_scan_healthy d p s : is_Some (ok (db_scan_prefix d p s));
  get_healthy t k : is_Some (ok (txn_get t k));
  put_healthy t k v : is_Some (ok (txn_put t k v));
  delete_healthy t k : is_Some (ok (txn_delete t k));
  merge_healthy t k v : is_Some (ok (txn_merge t k v));
  mark_read_healthy t ks : is_Some (ok (txn_mark_read t ks));
  unmark_write_healthy t ks : is_Some (ok (txn_unmark_write t ks));
  await_healthy d : is_Some (ok (db_await_durable d));
  flush_healthy d : is_Some (ok (db_flush d));
  commit_healthy d t e : txn_commit d t = Err e → slate_kind e = TransactionKind;
}.

(** The [?] operator on a store error: [Error::Storage]. *)
Definition lift {A} (r : result SlateError A) : Result A :=
  match r with Ok a => Ok a | Err e => Err (Storage e) end.

Lemma lift_Ok {A} (r : result SlateError A) a : lift r = Ok a ↔ r = Ok a.
Proof. destruct r; cbn; naive_solver. Qed.
