(* ===== verification/Stats.v ===== *)
(** * Counters and the merge operator (taquba/src/stats.rs) *)
From S2P Require Import Prelude Bytes Error Keys Job Store.

(** [metric_name]. *)
Definition metric_name (s : JobStatus) : string :=
  match s with
  | Pending => "pending"
  | Claimed => "claimed"
  | Done => "done"
  | Dead => "dead"
  | Scheduled => "scheduled"
  end.

(** [i64::to_le_bytes] and [read_i64_le]. *)
Definition i64_le (x : Z) : bytes := rev (be_bytes 8 (wrap64 x)).

Definition read_i64_le (b : bytes) : result () Z :=
  if decide (length b = 8) then Ok (wrap_i64 (from_be (rev b))) else Err ().

(** [merge_counters]: the sum of the [i64] values, with the wrap-around of the
    [i64] additions. *)
Definition merge_counters (existing : option bytes) (operands : list bytes)
    : result MergeOperatorError bytes :=
  let invalid := MergeCallback "invalid 8-byte i64 operand" in
  let add acc op := total ← acc; x ← ok_or (ok (read_i64_le op)) invalid; Ok (wrap_i64 (total + x)) in
  let init := match existing with None => Ok 0%Z | Some v => ok_or (ok (read_i64_le v)) invalid end in
  total ← foldl add init operands; Ok (i64_le total).

(** [merge_append]. *)
Definition merge_append (existing : option bytes) (operands : list bytes) : bytes :=
  default [] existing ++ concat operands.

(** [QueueMergeOperator::merge_batch], and [merge], which is a batch of one. *)
Definition merge_batch : MergeOperator := λ key existing operands,
  match head key with
  | Some tag =>
      if (tag =? tag_id TStats)%Z then merge_counters existing operands
      else if (tag =? tag_id TAttemptHistory)%Z then Ok (merge_append existing operands)
      else Err (MergeCallback "merge on a non-merging key space")
  | None => Err (MergeCallback "merge on a non-merging key space")
  end.

Definition merge_one (key : bytes) (existing : option bytes) (operand : bytes)
    : result MergeOperatorError bytes := merge_batch key existing [operand].

(** [update_stats]: one merge on the counter, which then is no conflict. *)
Definition update_stats `{!SlateDb} (t : DbTransaction) (q : QueueName) (s : JobStatus)
    (delta : Z) : Result DbTransaction :=
  let key := stats_key q (metric_name s) in
  t ← lift (txn_merge t key (i64_le delta));
  lift (txn_unmark_write t [key]).

(** ** Properties *)

Lemma wrap_i64_wrap64 x : wrap_i64 (wrap64 x) = wrap_i64 x.
Proof. unfold wrap_i64, wrap64. by rewrite Zplus_mod_idemp_l. Qed.

Lemma wrap_i64_range x : is_i64 (wrap_i64 x).
Proof.
  unfold wrap_i64, is_i64. pose proof (Z.mod_pos_bound (x + 9223372036854775808) u64_mod).
  unfold u64_mod in *. lia.
Qed.

Lemma wrap_i64_add_l x y : wrap_i64 (wrap_i64 x + y) = wrap_i64 (x + y).
Proof.
  unfold wrap_i64. f_equal. set (h := 9223372036854775808%Z).
  replace ((x + h) mod u64_mod - h + y + h)%Z with ((x + h) mod u64_mod + y)%Z by lia.
  rewrite Zplus_mod_idemp_l. f_equal. lia.
Qed.

Lemma read_i64_le_i64_le x : read_i64_le (i64_le x) = Ok (wrap_i64 x).
Proof.
  unfold read_i64_le, i64_le. rewrite decide_True by (by rewrite length_rev, length_be_bytes).
  rewrite rev_involutive, be_bytes_roundtrip, wrap_i64_wrap64; [done|].
  apply wrap64_range.
Qed.

(** A counter holds its value when the sums stay in range. *)
Lemma merge_counters_one x y :
  merge_counters (Some (i64_le x)) [i64_le y] = Ok (i64_le (wrap_i64 (wrap_i64 x + wrap_i64 y))).
Proof. unfold merge_counters. cbn [foldl]. by rewrite !read_i64_le_i64_le. Qed.

Lemma metric_name_inj s s' : metric_name s = metric_name s' → s = s'.
Proof. by destruct s, s'. Qed.

(** A merge adds to what a readable counter holds. *)
Lemma merge_counters_add e v y :
  match e with None => v = 0%Z | Some b => read_i64_le b = Ok v end →
  merge_counters e [i64_le y] = Ok (i64_le (v + wrap_i64 y)).
Proof.
  assert (Hw : ∀ x, i64_le (wrap_i64 x) = i64_le x).
  { intros x. unfold i64_le, wrap_i64, wrap64. f_equal. f_equal.
    rewrite <- (Zminus_mod_idemp_l (_ mod _)), Zmod_mod, Zminus_mod_idemp_l. f_equal. lia. }
  intros He. unfold merge_counters. cbn [foldl]. rewrite read_i64_le_i64_le.
  destruct e as [b|].
  - rewrite He. cbn. by rewrite Hw.
  - subst v. cbn. by rewrite Hw.
Qed.

Lemma merge_counters_new y :
  merge_counters None [i64_le y] = Ok (i64_le (wrap_i64 y)).
Proof.
  unfold merge_counters. cbn [foldl]. rewrite read_i64_le_i64_le. cbn.
  do 2 f_equal. rewrite <- (wrap_i64_small (wrap_i64 y)) at 2 by apply wrap_i64_range. done.
Qed.

Lemma foldl_Err {E A B} (f : result E A → B → result E A) e l :
  (∀ b, f (Err e) b = Err e) → foldl f (Err e) l = Err e.
Proof. intros H. induction l as [|b l IH]; cbn; [done|]. by rewrite H. Qed.

(** The sum over a batch is the sum over its parts: the store may merge operands
    in any grouping. *)
Lemma merge_counters_app e a b :
  merge_counters e (a ++ b) = (m ← merge_counters e a; merge_counters (Some m) b).
Proof.
  unfold merge_counters. rewrite foldl_app.
  set (add := λ (acc : result MergeOperatorError Z) op, _).
  assert (Hr : ∀ acc l x, foldl add acc l = Ok x → (∀ y, acc = Ok y → is_i64 y) → is_i64 x).
  { intros acc l. revert acc. induction l as [|o l IH]; cbn; intros acc x; [naive_solver|].
    intros H Hacc. eapply IH; [exact H|]. subst add. cbn. intros y Hy. inv_ok.
    apply wrap_i64_range. }
  set (init := match e with None => _ | Some _ => _ end).
  assert (Hinit : ∀ y, init = Ok y → is_i64 y).
  { subst init. destruct e as [v|]; [|intros y [= <-]; unfold is_i64; lia].
    unfold read_i64_le. case_decide; cbn; [|done]. intros y [= <-]. apply wrap_i64_range. }
  destruct (foldl add init a) as [x|err] eqn:E; cbn.
  - rewrite read_i64_le_i64_le. cbn. rewrite wrap_i64_small; [done|].
    eapply Hr; [exact E|exact Hinit].
  - by rewrite foldl_Err.
Qed.

Lemma merge_append_app e a b :
  merge_append e (a ++ b) = merge_append (Some (merge_append e a)) b.
Proof. unfold merge_append. cbn. by rewrite concat_app, app_assoc. Qed.

Lemma merge_batch_app k e a b :
  merge_batch k e (a ++ b) = (m ← merge_batch k e a; merge_batch k (Some m) b).
Proof.
  unfold merge_batch. destruct (head k); [|done].
  destruct (_ =? _)%Z; [apply merge_counters_app|].
  destruct (_ =? _)%Z; [|done]. cbn. by rewrite merge_append_app.
Qed.

Lemma merge_batch_stats q m e ops : merge_batch (stats_key q m) e ops = merge_counters e ops.
Proof. done. Qed.

Lemma merge_batch_history i e ops :
  merge_batch (attempt_history_key i) e ops = Ok (merge_append e ops).
Proof. done. Qed.

(** ** Attempt history (taquba/src/history.rs) *)

Inductive AttemptOutcome :=
| OCompleted | ORetried | ODeadLettered | OLeaseExpired | OInterrupted | ORequeued.

Record JobAttempt := mkAttempt {
  attempt : Z;
  attempt_claimed_at : option Z;
  recorded_at : Z;
  outcome : AttemptOutcome;
  attempt_error : option string;
}.

Section history.
  Context `{!SlateDb, !Serde JobAttempt}.

(** [append_attempt]: one merge on the history key of the job. *)
Definition append_attempt (t : DbTransaction) (jid : string) (entry : JobAttempt)
    : Result DbTransaction :=
  lift (txn_merge t (attempt_history_key jid) (encode entry)).

(** The loop of [decode_history]; each entry takes a byte, so the length of the
    buffer is enough fuel. *)
Fixpoint decode_entries (fuel : nat) (rest : bytes) : Result (list JobAttempt) :=
  match fuel, rest with
  | _, [] => Ok []
  | O, _ => Ok []
  | S fuel, _ =>
      match de rest with
      | Some (entry, rest) => entries ← decode_entries fuel rest; Ok (entry :: entries)
      | None => Err (Deserialization "malformed MessagePack")
      end
  end.

(** [decode_history]. *)
Definition decode_history (b : bytes) : Result (list JobAttempt) :=
  decode_entries (length b) b.

(** ** Properties *)

Lemma decode_entries_concat fuel entries :
  length (concat (encode <$> entries)) ≤ fuel →
  decode_entries fuel (concat (encode <$> entries)) = Ok entries.
Proof.
  revert fuel. induction entries as [|e es IH]; intros fuel Hlen; cbn; [by destruct fuel|].
  cbn in Hlen. rewrite length_app in Hlen. unfold encode in *.
  destruct (ser e) as [|b l] eqn:E; [by apply ser_nonempty in E|].
  cbn in Hlen. destruct fuel as [|fuel]; [lia|]. cbn.
  rewrite app_comm_cons, <- E, de_ser. rewrite IH by lia. done.
Qed.

End history.
