(* ===== verification/LeaseRegistry.v ===== *)
(** * The lease registry (taquba/src/lease_registry.rs)

    In-memory leases of claimed jobs: expiry, claim id, cancellation token and
    reaping mark by job, with an expiry-ordered index. *)
From S2P Require Import Prelude Bytes Error Keys Job.

Inductive Renewal := Set_ | Extend.

Record DueLease := mkDueLease {
  due_queue : QueueName;
  due_id : string;
  due_expires_at : Z;
  due_claim_id : Z;
}.

Record Entry := mkEntry {
  expires_at : Z;
  entry_claim_id : Z;
  entry_cancel : CancellationToken;
  reaping : bool;
}.

Abbreviation JobKey := (QueueName * string)%type.
Abbreviation ExpiryKey := (Z * JobKey)%type.

(** The order of the tuples of the expiry index. *)
Definition jobkey_lt (a b : JobKey) : bool :=
  bytes_lt (qn_bytes a.1) (qn_bytes b.1) ||
  bool_decide (a.1 = b.1) && bytes_lt (as_bytes a.2) (as_bytes b.2).
Definition expiry_lt (a b : ExpiryKey) : bool :=
  (a.1 <? b.1)%Z || (a.1 =? b.1)%Z && jobkey_lt a.2 b.2.

(** A [BTreeSet]: its elements in ascending order. *)
Fixpoint btree_insert (x : ExpiryKey) (l : list ExpiryKey) : list ExpiryKey :=
  match l with
  | [] => [x]
  | y :: l => if expiry_lt x y then x :: y :: l
              else if decide (x = y) then y :: l else y :: btree_insert x l
  end.
Definition btree_remove (x : ExpiryKey) (l : list ExpiryKey) : list ExpiryKey :=
  filter (λ y, y ≠ x) l.

(** The registry. [fired] is the shared state of the cancellation tokens: the
    tokens that were cancelled, which clones of a token observe. *)
Record LeaseRegistry := mkRegistry {
  by_job : gmap JobKey Entry;
  by_expiry : list ExpiryKey;
  closed : bool;
  fired : gset CancellationToken;
}.

Definition registry_new : LeaseRegistry := mkRegistry ∅ [] false ∅.

Definition is_cancelled (r : LeaseRegistry) (t : CancellationToken) : bool :=
  bool_decide (t ∈ fired r).

(** [CancellationToken::cancel]. *)
Definition fire (t : CancellationToken) (r : LeaseRegistry) : LeaseRegistry :=
  mkRegistry (by_job r) (by_expiry r) (closed r) ({[t]} ∪ fired r).

(** [LeaseRegistry::insert]. *)
Definition lease_insert (queue : QueueName) (jid : string) (expires_at' claim_id : Z)
    (cancel : CancellationToken) (r : LeaseRegistry) : LeaseRegistry :=
  let key := (queue, jid) in
  let index := match by_job r !! key with
    | Some old => btree_remove (expires_at old, key) (by_expiry r)
    | None => by_expiry r
    end in
  mkRegistry (<[key := mkEntry expires_at' claim_id cancel false]> (by_job r))
    (btree_insert (expires_at', key) index) (closed r) (fired r).

Definition set_expires_at (at' : Z) (e : Entry) : Entry :=
  mkEntry at' (entry_claim_id e) (entry_cancel e) (reaping e).
Definition set_reaping (e : Entry) : Entry :=
  mkEntry (expires_at e) (entry_claim_id e) (entry_cancel e) true.

(** [LeaseRegistry::renew]: whether the expiry changed, and the registry. *)
Definition lease_renew (queue : QueueName) (jid : string) (claim_id : Z)
    (cancel : CancellationToken) (expires_at' : Z) (mode : Renewal) (r : LeaseRegistry)
    : Result (bool * LeaseRegistry) :=
  if closed r then Err ClaimLost
  else if is_cancelled r cancel then Err CancelRequested
  else
    let key := (queue, jid) in
    match by_job r !! key with
    | Some e =>
        if bool_decide (entry_claim_id e = claim_id) && negb (reaping e) then
          let old_expires := expires_at e in
          if (old_expires =? expires_at')%Z
             || match mode with Extend => (expires_at' <? old_expires)%Z | Set_ => false end
          then Ok (false, r)
          else Ok (true, mkRegistry (<[key := set_expires_at expires_at' e]> (by_job r))
                 (btree_insert (expires_at', key)
                    (btree_remove (old_expires, key) (by_expiry r)))
                 (closed r) (fired r))
        else Err ClaimLost
    | None => Err ClaimLost
    end.

(** [LeaseRegistry::current]. *)
Definition lease_current (queue : QueueName) (jid : string) (r : LeaseRegistry)
    : option (Z * Z) :=
  (λ e, (expires_at e, entry_claim_id e)) <$> by_job r !! (queue, jid).

(** [LeaseRegistry::cancel]. *)
Definition lease_cancel (queue : QueueName) (jid : string) (r : LeaseRegistry)
    : bool * LeaseRegistry :=
  match by_job r !! (queue, jid) with
  | Some e => (true, fire (entry_cancel e) r)
  | None => (false, r)
  end.

(** [LeaseRegistry::close]. *)
Definition lease_close (r : LeaseRegistry) : LeaseRegistry :=
  mkRegistry (by_job r) (by_expiry r) true
    (list_to_set (entry_cancel <$> (map_to_list (by_job r)).*2) ∪ fired r).

(** The loop of [take_due] over the due keys, soonest first. *)
Fixpoint mark_due (keys : list ExpiryKey) (m : gmap JobKey Entry)
    : Result (list DueLease * gmap JobKey Entry) :=
  match keys with
  | [] => Ok ([], m)
  | (at', key) :: keys =>
      e ← ok_or (m !! key) Panicked;
      '(due, m) ← mark_due keys (<[key := set_reaping e]> m);
      Ok (mkDueLease key.1 key.2 at' (entry_claim_id e) :: due, m)
  end.

(** [Iterator::take_while]. *)
Fixpoint take_while {A} (p : A → bool) (l : list A) : list A :=
  match l with [] => [] | x :: l => if p x then x :: take_while p l else [] end.

(** [LeaseRegistry::take_due]. *)
Definition take_due (now : Z) (r : LeaseRegistry) : Result (list DueLease * LeaseRegistry) :=
  let due_keys := take_while (λ k : ExpiryKey, (k.1 <=? now)%Z) (by_expiry r) in
  '(due, m) ← mark_due due_keys (by_job r);
  Ok (due, mkRegistry m (by_expiry r) (closed r) (fired r)).

(** [LeaseRegistry::remove]. *)
Definition lease_remove (queue : QueueName) (jid : string) (claim_id : Z) (r : LeaseRegistry)
    : LeaseRegistry :=
  let key := (queue, jid) in
  match by_job r !! key with
  | Some e =>
      if bool_decide (entry_claim_id e = claim_id)
      then mkRegistry (delete key (by_job r)) (btree_remove (expires_at e, key) (by_expiry r))
             (closed r) (fired r)
      else r
  | None => r
  end.

(** ** The expiry order *)

Lemma jobkey_lt_irrefl a : jobkey_lt a a = false.
Proof. unfold jobkey_lt. rewrite !bytes_lt_irrefl. by rewrite andb_false_r. Qed.

Lemma expiry_lt_irrefl a : expiry_lt a a = false.
Proof. unfold expiry_lt. by rewrite Z.ltb_irrefl, jobkey_lt_irrefl, andb_false_r. Qed.

Lemma jobkey_lt_trans a b c : jobkey_lt a b = true → jobkey_lt b c = true → jobkey_lt a c = true.
Proof.
  unfold jobkey_lt. rewrite !orb_true_iff, !andb_true_iff, !bool_decide_eq_true.
  intros [H1|[-> H1]] [H2|[E H2]].
  - left. by eapply bytes_lt_trans.
  - left. by rewrite <- E.
  - by left.
  - right. split; [done|]. by eapply bytes_lt_trans.
Qed.

Lemma expiry_lt_trans a b c : expiry_lt a b = true → expiry_lt b c = true → expiry_lt a c = true.
Proof.
  unfold expiry_lt. rewrite !orb_true_iff, !andb_true_iff, !Z.ltb_lt, !Z.eqb_eq.
  intros [H1|[E1 H1]] [H2|[E2 H2]]; try (left; lia).
  right. split; [lia|]. by eapply jobkey_lt_trans.
Qed.

Lemma jobkey_lt_total a b : jobkey_lt a b = false → a ≠ b → jobkey_lt b a = true.
Proof.
  destruct a as [q i], b as [q' i']. unfold jobkey_lt. cbn.
  rewrite orb_false_iff, andb_false_iff, bool_decide_eq_false.
  rewrite orb_true_iff, andb_true_iff, bool_decide_eq_true. intros [Hq Hi] Hne.
  destruct (bytes_lt (qn_bytes q') (qn_bytes q)) eqn:E; [by left|right].
  assert (q = q') as -> by (apply qn_bytes_Inj; by apply bytes_lt_total).
  split; [done|]. destruct Hi as [?|Hi]; [done|].
  destruct (bytes_lt (as_bytes i') (as_bytes i)) eqn:E'; [done|].
  destruct Hne. f_equal. apply as_bytes_inj. by apply bytes_lt_total.
Qed.

Lemma expiry_lt_total a b : expiry_lt a b = false → a ≠ b → expiry_lt b a = true.
Proof.
  destruct a as [x k], b as [y l]. unfold expiry_lt. cbn.
  rewrite orb_false_iff, andb_false_iff, Z.ltb_ge, Z.eqb_neq.
  rewrite orb_true_iff, andb_true_iff, Z.ltb_lt, Z.eqb_eq. intros [Hx Hk] Hne.
  destruct (Z.lt_total y x) as [?|[->|?]]; [by left| |lia].
  right. split; [done|]. destruct Hk as [?|Hk]; [done|].
  apply jobkey_lt_total; [done|]. intros ->. done.
Qed.

Lemma elem_of_btree_insert x y l : y ∈ btree_insert x l ↔ y = x ∨ y ∈ l.
Proof.
  induction l as [|z l IH]; cbn; [set_solver|].
  case_match; [set_solver|]. case_decide; set_solver.
Qed.

Lemma elem_of_btree_remove x y l : y ∈ btree_remove x l ↔ y ≠ x ∧ y ∈ l.
Proof. unfold btree_remove. by rewrite list_elem_of_filter. Qed.

Abbreviation expiry_sorted := (StronglySorted (λ a b : ExpiryKey, expiry_lt a b = true)).

Lemma btree_insert_sorted x l : expiry_sorted l → expiry_sorted (btree_insert x l).
Proof.
  induction 1 as [|y l Hl IH Hy]; cbn; [repeat constructor|].
  destruct (expiry_lt x y) eqn:E.
  - constructor; [by constructor|]. constructor; [done|].
    eapply Forall_impl; [exact Hy|]. intros z. by apply expiry_lt_trans.
  - case_decide as D; [by constructor|]. constructor; [done|].
    apply Forall_forall. intros z [->|Hz]%elem_of_btree_insert.
    + by apply expiry_lt_total.
    + rewrite Forall_forall in Hy. auto.
Qed.

Lemma sorted_filter {A} (R : A → A → Prop) (P : A → Prop) `{!∀ x, Decision (P x)} l :
  StronglySorted R l → StronglySorted R (filter P l).
Proof.
  induction 1 as [|y l Hl IH Hy]; [constructor|]. rewrite filter_cons.
  case_decide; [|done]. constructor; [done|].
  apply Forall_forall. intros z [_ Hz]%list_elem_of_filter.
  rewrite Forall_forall in Hy. auto.
Qed.

(** ** The index agrees with the leases *)

Definition registry_wf (r : LeaseRegistry) : Prop :=
  expiry_sorted (by_expiry r) ∧
  ∀ at' k, (at', k) ∈ by_expiry r ↔ ∃ e, by_job r !! k = Some e ∧ expires_at e = at'.

Lemma registry_new_wf : registry_wf registry_new.
Proof. split; [constructor|]. intros. cbn. set_unfold. naive_solver. Qed.

(** Replacing the lease of one job, with its old index tuple removed. *)
Lemma replace_wf r k e :
  registry_wf r →
  registry_wf (mkRegistry (<[k := e]> (by_job r))
    (btree_insert (expires_at e, k)
       match by_job r !! k with
       | Some old => btree_remove (expires_at old, k) (by_expiry r)
       | None => by_expiry r
       end) (closed r) (fired r)).
Proof.
  intros [Hs Hi]. split; cbn.
  - apply btree_insert_sorted. destruct (by_job r !! k); [by apply sorted_filter|done].
  - intros at' k'. rewrite elem_of_btree_insert, lookup_insert. case_decide as D.
    + subst k'. split; [|intros (? & [= <-] & <-); by left].
      intros [[= ->]|H]; [by eexists|].
      destruct (by_job r !! k) as [old|] eqn:E.
      * apply elem_of_btree_remove in H as [Hne H]. apply Hi in H as (e' & He' & <-). congruence.
      * apply Hi in H as (e' & He' & _). congruence.
    + rewrite <- Hi. destruct (by_job r !! k) as [old|]; rewrite ?elem_of_btree_remove.
      * split; [intros [?|[_ ?]]; [congruence|done]|]. intros ?. right. split; [congruence|done].
      * split; [intros [?|?]; [congruence|done]|]. auto.
Qed.

Lemma lease_insert_wf q i at' c t r : registry_wf r → registry_wf (lease_insert q i at' c t r).
Proof. intros H. apply (replace_wf r (q, i) (mkEntry at' c t false) H). Qed.

Lemma lease_remove_wf q i c r : registry_wf r → registry_wf (lease_remove q i c r).
Proof.
  intros [Hs Hi]. unfold lease_remove. destruct (by_job r !! (q, i)) as [e|] eqn:E; [|done].
  case_bool_decide; [|done]. split; cbn; [by apply sorted_filter|].
  intros at' k. rewrite elem_of_btree_remove, Hi, lookup_delete. case_decide as D.
  - subst k. rewrite E. split; [intros [Hne (e' & [= <-] & <-)]; done|].
    by intros (? & ? & _).
  - split; [by intros [_ ?]|]. intros He. split; [congruence|done].
Qed.

Lemma lease_renew_wf q i c t at' m r b r' :
  registry_wf r → lease_renew q i c t at' m r = Ok (b, r') → registry_wf r'.
Proof.
  intros H. unfold lease_renew. destruct (closed r) eqn:Hc, (is_cancelled r t); try done.
  destruct (by_job r !! (q, i)) as [e|] eqn:E; [|done].
  destruct (_ && _); [|done]. destruct (_ || _); intros [= <- <-]; [done|].
  pose proof (replace_wf r (q, i) (set_expires_at at' e) H) as H'.
  by rewrite E, Hc in H'.
Qed.

Lemma lease_cancel_wf q i r : registry_wf r → registry_wf (lease_cancel q i r).2.
Proof. unfold lease_cancel. by destruct (by_job r !! (q, i)). Qed.

Lemma lease_close_wf r : registry_wf r → registry_wf (lease_close r).
Proof. done. Qed.

(** *** Where the leases come from

    Each lease of [r'] is one that [r] has for the same job, or has a claim id of [U]. *)
Definition leases_from (U : Z → Prop) (r r' : LeaseRegistry) : Prop :=
  ∀ k e', by_job r' !! k = Some e' → U (entry_claim_id e') ∨
    ∃ e, by_job r !! k = Some e ∧ entry_claim_id e = entry_claim_id e'.

(** A step that keeps the index in agreement, and whose leases come from there. *)
Definition registry_step (U : Z → Prop) (r r' : LeaseRegistry) : Prop :=
  (registry_wf r → registry_wf r') ∧ leases_from U r r'.

Lemma leases_from_same U r r' : by_job r' = by_job r → leases_from U r r'.
Proof. intros E k e' He. right. exists e'. by rewrite <- E. Qed.

Lemma lease_insert_step (U : Z → Prop) q i at' c t r : U c → registry_step U r (lease_insert q i at' c t r).
Proof.
  intros HU. split; [apply lease_insert_wf|]. intros k e'. cbn. rewrite lookup_insert. case_decide.
  - intros [= <-]. by left.
  - intros He. right. by exists e'.
Qed.
Lemma lease_remove_step U q i c r : registry_step U r (lease_remove q i c r).
Proof.
  split; [apply lease_remove_wf|]. unfold lease_remove. destruct (by_job r !! (q, i)); [|by apply leases_from_same].
  case_bool_decide; [|by apply leases_from_same]. intros k e'. cbn. intros [_ He]%lookup_delete_Some. right. by exists e'.
Qed.
Lemma lease_renew_step U q i c t at' m r b r' :
  lease_renew q i c t at' m r = Ok (b, r') → registry_step U r r'.
Proof.
  intros E. split; [intros H; by eapply lease_renew_wf|]. revert E. unfold lease_renew.
  destruct (closed r), (is_cancelled r t); try done. destruct (by_job r !! (q, i)) as [e|] eqn:Ee; [|done].
  destruct (_ && _); [|done]. destruct (_ || _); intros [= <- <-]; [by apply leases_from_same|].
  intros k e'. cbn. rewrite lookup_insert. case_decide.
  - subst k. intros [= <-]. right. by exists e.
  - intros He. right. by exists e'.
Qed.
Lemma fire_step U tok r : registry_step U r (fire tok r).
Proof. split; [done|by apply leases_from_same]. Qed.
Lemma lease_cancel_step U q i r : registry_step U r (lease_cancel q i r).2.
Proof. split; [apply lease_cancel_wf|]. unfold lease_cancel. by destruct (by_job r !! (q, i)); apply leases_from_same. Qed.
Lemma lease_close_step U r : registry_step U r (lease_close r).
Proof. split; [done|by apply leases_from_same]. Qed.

(** After the removal of the lease of a claim, the job has no lease of that claim. *)
Lemma lease_removed q i c r : snd <$> lease_current q i (lease_remove q i c r) ≠ Some c.
Proof.
  unfold lease_current, lease_remove. destruct (by_job r !! (q, i)) as [e|] eqn:E; [|by rewrite E].
  case_bool_decide as D; cbn; [by rewrite lookup_delete_eq|]. rewrite E. by intros [= ?].
Qed.

(** ** Due leases *)

Lemma take_while_due now l :
  expiry_sorted l →
  ∀ k : ExpiryKey, k ∈ take_while (λ k, (k.1 <=? now)%Z) l ↔ k ∈ l ∧ (k.1 ≤ now)%Z.
Proof.
  induction 1 as [|y l Hl IH Hy]; cbn; intros k; [set_solver|].
  destruct (Z.leb_spec y.1 now) as [Hle|Hgt].
  - rewrite !elem_of_cons, IH. naive_solver.
  - split; [set_solver|]. rewrite elem_of_cons. intros [[->|Hk] ?]; [lia|].
    rewrite Forall_forall in Hy. specialize (Hy k Hk). unfold expiry_lt in Hy. lia.
Qed.

Lemma take_while_sorted {A} (R : A → A → Prop) p l :
  StronglySorted R l → StronglySorted R (take_while p l).
Proof.
  induction 1 as [|y l Hl IH Hy]; cbn; [constructor|]. destruct (p y); [|constructor].
  constructor; [done|]. apply Forall_forall. intros z Hz. rewrite Forall_forall in Hy.
  apply Hy. clear -Hz. induction l as [|x l IH]; cbn in Hz; [done|].
  destruct (p x); set_solver.
Qed.

Lemma mark_due_spec keys m :
  (∀ k, k ∈ keys → is_Some (m !! k.2)) →
  ∃ due m', mark_due keys m = Ok (due, m') ∧
    Forall2 (λ (k : ExpiryKey) d, ∃ e, m !! k.2 = Some e ∧
      d = mkDueLease k.2.1 k.2.2 k.1 (entry_claim_id e)) keys due ∧
    ∀ j, m' !! j = (if decide (j ∈ keys.*2) then set_reaping <$> m !! j else m !! j).
Proof.
  revert m. induction keys as [|[at' k] keys IH]; intros m Hm; cbn.
  { exists [], m. split_and!; [done|constructor|]. intros j.
    rewrite decide_False; set_solver. }
  destruct (Hm (at', k)) as [e He]; [set_solver|]. cbn in He. rewrite He. cbn.
  destruct (IH (<[k := set_reaping e]> m)) as (due & m' & -> & Hdue & Hm').
  { intros k' Hk'. rewrite lookup_insert. case_decide; [done|]. apply Hm. set_solver. }
  cbn. eexists _, m'. split_and!; [done|..].
  - constructor; [by exists e|]. eapply Forall2_impl; [exact Hdue|].
    intros k' d (e' & He' & ->). rewrite lookup_insert in He'. case_decide; [|by exists e'].
    injection He' as <-. exists e. by split; [congruence|].
  - intros j. rewrite Hm', lookup_insert. destruct (decide (k = j)) as [->|Hne].
    + rewrite (decide_True (P := j ∈ j :: _)) by set_solver. rewrite He. by case_decide.
    + destruct (decide (j ∈ keys.*2)), (decide (j ∈ k :: keys.*2)); set_solver.
Qed.

Lemma take_due_wf_spec now r :
  registry_wf r →
  ∃ due r', take_due now r = Ok (due, r') ∧ registry_wf r' ∧
    StronglySorted (λ d d', (due_expires_at d ≤ due_expires_at d')%Z) due ∧
    (∀ d, d ∈ due ↔ ∃ e, by_job r !! (due_queue d, due_id d) = Some e ∧
       expires_at e = due_expires_at d ∧ entry_claim_id e = due_claim_id d ∧
       (expires_at e ≤ now)%Z) ∧
    (∀ k, by_job r' !! k =
       (λ e, if (expires_at e <=? now)%Z then set_reaping e else e) <$> by_job r !! k) ∧
    closed r' = closed r ∧ fired r' = fired r.
Proof.
  intros [Hs Hi]. unfold take_due.
  set (keys := take_while _ _).
  assert (Hkeys : ∀ k, k ∈ keys ↔ k ∈ by_expiry r ∧ (k.1 ≤ now)%Z) by by apply take_while_due.
  destruct (mark_due_spec keys (by_job r)) as (due & m' & -> & Hdue & Hm').
  { intros [a k] [Hk _]%Hkeys. apply Hi in Hk as (e & He & _). by exists e. }
  cbn. eexists due, _. split; [done|].
  assert (Hlook : ∀ k, m' !! k =
    (λ e, if (expires_at e <=? now)%Z then set_reaping e else e) <$> by_job r !! k).
  { intros k. rewrite Hm'. case_decide as D.
    - apply list_elem_of_fmap in D as ([a k'] & -> & [Hk Hle]%Hkeys). cbn in *.
      apply Hi in Hk as (e & -> & <-). cbn. by rewrite (proj2 (Z.leb_le _ _)).
    - destruct (by_job r !! k) as [e|] eqn:E; [|done]. cbn.
      destruct (Z.leb_spec (expires_at e) now) as [Hle|]; [|done].
      destruct D. apply list_elem_of_fmap. exists (expires_at e, k). split; [done|].
      apply Hkeys. split; [|done]. apply Hi. by exists e. }
  split_and!; [| | |done..].
  - split; [done|]. cbn. intros a k. rewrite Hi, Hlook. destruct (by_job r !! k) as [e|]; cbn.
    + split; intros (e' & [= <-] & <-); eexists; (split; [done|]); by destruct (_ <=? _)%Z.
    + naive_solver.
  - assert (Hks : expiry_sorted keys) by by apply take_while_sorted.
    clear -Hdue Hks. induction Hdue as [|k d keys due (e & _ & ->) Hdue IH]; [constructor|].
    apply StronglySorted_inv in Hks as [Hks Hk]. constructor; [by apply IH|].
    apply Forall_forall. intros d Hd. apply list_elem_of_lookup in Hd as [n Hn].
    destruct (Forall2_lookup_r _ _ _ _ _ Hdue Hn) as (k' & Hk' & e' & _ & ->). cbn.
    rewrite Forall_forall in Hk. specialize (Hk k' (list_elem_of_lookup_2 _ _ _ Hk')).
    unfold expiry_lt in Hk. lia.
  - intros d. split.
    + intros [n Hn]%list_elem_of_lookup.
      destruct (Forall2_lookup_r _ _ _ _ _ Hdue Hn) as ([a [q i]] & Hk & e & He & ->). cbn in *.
      apply list_elem_of_lookup_2, Hkeys in Hk as [Hk Hle]. apply Hi in Hk as (e' & He' & <-).
      exists e. cbn in Hle. rewrite He in He'. injection He' as <-. done.
    + destruct d as [q i a c]. cbn. intros (e & He & <- & <- & Hle).
      assert (Hk : (expires_at e, (q, i)) ∈ keys).
      { apply Hkeys. split; [|done]. apply Hi. by exists e. }
      apply list_elem_of_lookup in Hk as [n Hn].
      destruct (Forall2_lookup_l _ _ _ _ _ Hdue Hn) as (d & Hd & e' & He' & ->). cbn in *.
      rewrite He in He'. injection He' as <-. by eapply list_elem_of_lookup_2.
Qed.

Lemma take_due_step U now r due r' : registry_wf r → take_due now r = Ok (due, r') → registry_step U r r'.
Proof.
  intros Hr E. destruct (take_due_wf_spec now r Hr) as (d & r1 & E1 & Hr1 & _ & _ & Hj & _).
  rewrite E in E1. injection E1 as <- <-. split; [done|]. intros k e'. rewrite Hj.
  destruct (by_job r !! k) as [e|]; cbn; [|done]. intros [= <-]. right. exists e. by destruct (_ <=? _)%Z.
Qed.
