(* ===== verification/TimeBound.v ===== *)
(** * Time bounds (taquba/src/time_bound.rs)

    The lower bound on the times of the live keys of a time-ordered key space, its
    scans, and the interleavings of writers and scans that keep it a bound. *)
From S2P Require Import Prelude Bytes.

Definition U64_MAX : Z := u64_max.

(** A [TimeBound]: the value of its atomic. *)
Abbreviation TimeBound := Z (only parsing).
Definition time_bound_new : TimeBound := 0%Z.

(** [TimeBound::lower]. *)
Definition lower (at_ms : Z) (b : TimeBound) : TimeBound := Z.min b at_ms.

(** [is_due]. *)
Definition is_due (at_ms now_ms retention_ms : Z) : bool :=
  (sat_add64 at_ms retention_ms <=? now_ms)%Z.

Record Scan := mkScan {
  scan_now_ms : Z;
  scan_retention_ms : Z;
  scan_from : Z;
  scan_retained : Z;
  scan_completed : bool;
}.

(** [TimeBound::begin]: the scan, if a key can be due, and the bound, which a
    begun scan swaps for the maximum. *)
Definition tb_begin (now_ms retention_ms : Z) (b : TimeBound) : option Scan * TimeBound :=
  if is_due b now_ms retention_ms
  then (Some (mkScan now_ms retention_ms b U64_MAX false), U64_MAX)
  else (None, b).

(** [Scan::due], [Scan::retain], [Scan::complete]. *)
Definition scan_due (s : Scan) (at_ms : Z) : bool :=
  is_due at_ms (scan_now_ms s) (scan_retention_ms s).
Definition scan_retain (at_ms : Z) (s : Scan) : Scan :=
  mkScan (scan_now_ms s) (scan_retention_ms s) (scan_from s)
    (Z.min (scan_retained s) at_ms) (scan_completed s).
Definition scan_complete (s : Scan) : Scan :=
  mkScan (scan_now_ms s) (scan_retention_ms s) (scan_from s) (scan_retained s) true.

(** The [Drop] of a scan. *)
Definition scan_drop (s : Scan) (b : TimeBound) : TimeBound :=
  Z.min b (if scan_completed s then scan_retained s else scan_from s).

Lemma is_due_mono at_ms at_ms' now ret :
  (at_ms ≤ at_ms')%Z → is_due at_ms' now ret = true → is_due at_ms now ret = true.
Proof. unfold is_due, sat_add64. rewrite !Z.leb_le. lia. Qed.

(** ** Interleavings

    A key space whose keys lead with a time, its writers and its scans. A writer
    commits a key and, later, calls [lower] for it; between the two the key is
    unnoted. A scan begins, reads the key space once from the time it began at,
    handles each due key (its removal by the transaction of the scan, or its
    retention), and completes or is dropped early. Any number of scans, writers
    and removals by other transactions interleave. *)
Module Sweep.

Definition Key : Type := Z * string.

(** The progress of a scan: begun, or with the due keys it has read and not yet
    handled. *)
Inductive Phase := Begun | Reading (todo : gset (Z * string)).

Record State := mkState {
  live : gset (Z * string);
  unnoted : gset (Z * string);
  bound : TimeBound;
  scans : list (Scan * Phase);
}.

(** What a read of the key space from [scan_from] returns: the keys that are due,
    and the scan after the [retain] of the first key that is not. *)
Definition read_due (s : Scan) (l : gset (Z * string)) : gset (Z * string) :=
  filter (λ k, (scan_from s ≤ k.1)%Z ∧ scan_due s k.1 = true) l.
Definition read_kept (s : Scan) (l : gset (Z * string)) : gset (Z * string) :=
  filter (λ k, (scan_from s ≤ k.1)%Z ∧ scan_due s k.1 = false) l.
Definition read_retain (s : Scan) (l : gset (Z * string)) : Scan :=
  set_fold (λ (k : Z * string) (s : Scan), scan_retain k.1 s) s (read_kept s l).

Inductive step : State → State → Prop :=
(** A transaction commits a key. *)
| step_write l u b ss k : is_u64 k.1 →
    step (mkState l u b ss) (mkState ({[k]} ∪ l) ({[k]} ∪ u) b ss)
(** Its writer calls [lower]. *)
| step_note l u b ss k :
    step (mkState l u b ss) (mkState l (u ∖ {[k]}) (lower k.1 b) ss)
(** Another transaction removes a key. *)
| step_remove l u b ss k :
    step (mkState l u b ss) (mkState (l ∖ {[k]}) u b ss)
| step_begin l u b ss now ret s b' : tb_begin now ret b = (Some s, b') →
    step (mkState l u b ss) (mkState l u b' ((s, Begun) :: ss))
| step_read l u b ss1 s ss2 :
    step (mkState l u b (ss1 ++ (s, Begun) :: ss2))
         (mkState l u b (ss1 ++ (read_retain s l, Reading (read_due s l)) :: ss2))
(** The scan's transaction removes a due key, or finds it gone. *)
| step_handle l u b ss1 s todo k ss2 : k ∈ todo →
    step (mkState l u b (ss1 ++ (s, Reading todo) :: ss2))
         (mkState (l ∖ {[k]}) u b (ss1 ++ (s, Reading (todo ∖ {[k]})) :: ss2))
| step_retain l u b ss1 s todo k ss2 : k ∈ todo →
    step (mkState l u b (ss1 ++ (s, Reading todo) :: ss2))
         (mkState l u b (ss1 ++ (scan_retain k.1 s, Reading (todo ∖ {[k]})) :: ss2))
| step_complete l u b ss1 s ss2 :
    step (mkState l u b (ss1 ++ (s, Reading ∅) :: ss2))
         (mkState l u (scan_drop (scan_complete s) b) (ss1 ++ ss2))
(** An error ends the scan before its completion. *)
| step_drop l u b ss1 s ph ss2 :
    step (mkState l u b (ss1 ++ (s, ph) :: ss2))
         (mkState l u (scan_drop s b) (ss1 ++ ss2)).

(** The state after an open: any live keys, and the bound at zero. *)
Definition initial (st : State) : Prop :=
  unnoted st = ∅ ∧ bound st = time_bound_new ∧ scans st = [] ∧
  ∀ k, k ∈ live st → is_u64 k.1.

Inductive reachable : State → Prop :=
| reach_init st : initial st → reachable st
| reach_step st st' : reachable st → step st st' → reachable st'.

(** A scan covers a key that it has yet to read or handle, or that it retains. *)
Definition covers (sp : Scan * Phase) (k : Z * string) : Prop :=
  (scan_from sp.1 ≤ k.1)%Z ∧
  match sp.2 with
  | Begun => True
  | Reading todo => k ∈ todo ∨ (scan_retained sp.1 ≤ k.1)%Z
  end.

Definition bound_inv (st : State) : Prop :=
  (∀ k, k ∈ live st → is_u64 k.1) ∧
  (∀ sp, sp ∈ scans st → scan_completed sp.1 = false) ∧
  ∀ k, k ∈ live st → k ∉ unnoted st → (bound st ≤ k.1)%Z ∨ ∃ sp, sp ∈ scans st ∧ covers sp k.

Lemma set_fold_retain (s : Scan) (l : gset (Z * string)) :
  let s' := set_fold (λ (k : Z * string) (s : Scan), scan_retain k.1 s) s l in
  scan_from s' = scan_from s ∧ scan_completed s' = scan_completed s ∧
  (scan_retained s' ≤ scan_retained s)%Z ∧
  ∀ k, k ∈ l → (scan_retained s' ≤ k.1)%Z.
Proof.
  cbn. apply (set_fold_ind_L (λ s' l, scan_from s' = scan_from s ∧
    scan_completed s' = scan_completed s ∧ (scan_retained s' ≤ scan_retained s)%Z ∧
    ∀ k, k ∈ l → (scan_retained s' ≤ k.1)%Z)); [set_solver by lia|].
  intros k X s' Hk (H1 & H2 & H3 & H4). cbn. split_and!; [done..|lia|].
  intros k' [->%elem_of_singleton|Hk']%elem_of_union; [lia|]. specialize (H4 k' Hk'). lia.
Qed.

Lemma read_retain_spec (s : Scan) (l : gset (Z * string)) :
  scan_from (read_retain s l) = scan_from s ∧
  scan_completed (read_retain s l) = scan_completed s ∧
  (∀ k, k ∈ l → (scan_from s ≤ k.1)%Z →
     k ∈ read_due s l ∨ (scan_retained (read_retain s l) ≤ k.1)%Z).
Proof.
  destruct (set_fold_retain s (read_kept s l)) as (Hf & Hc & _ & Hk).
  split_and!; [done..|]. intros k Hin Hle. destruct (scan_due s k.1) eqn:E.
  - left. unfold read_due. set_solver.
  - right. apply Hk. unfold read_kept. set_solver.
Qed.

(** Replacing one scan of the list by another one. *)
Lemma covered_replace ss1 sp sp' ss2 (k : Z * string) :
  (covers sp k → covers sp' k) →
  (∃ x, x ∈ ss1 ++ sp :: ss2 ∧ covers x k) → ∃ x, x ∈ ss1 ++ sp' :: ss2 ∧ covers x k.
Proof.
  intros Himp (x & Hx & Hc). apply elem_of_app in Hx as [Hx|[->|Hx]%elem_of_cons].
  - exists x. set_solver.
  - exists sp'. split; [set_solver|auto].
  - exists x. set_solver.
Qed.

(** A scan that ends with [b'] as its share of the bound. *)
Lemma bound_inv_end l u b b' ss1 sp ss2 :
  bound_inv (mkState l u b (ss1 ++ sp :: ss2)) →
  (b' ≤ b)%Z → (∀ k, covers sp k → (b' ≤ k.1)%Z) →
  bound_inv (mkState l u b' (ss1 ++ ss2)).
Proof.
  intros (H64 & Hcomp & Hinv) Hb Hcov. split_and!; cbn in *; [done|set_solver|].
  intros k Hk Hu. destruct (Hinv k Hk Hu) as [?|(x & Hx & Hc)]; [left; lia|].
  apply elem_of_app in Hx as [Hx|[->|Hx]%elem_of_cons].
  - right. exists x. set_solver.
  - left. auto.
  - right. exists x. set_solver.
Qed.

Lemma step_bound_inv st st' : bound_inv st → step st st' → bound_inv st'.
Proof.
  intros Hinv Hstep. destruct Hstep as [l u b ss k Hk|l u b ss k|l u b ss k
    |l u b ss now ret s b' Hb|l u b ss1 s ss2|l u b ss1 s todo k ss2 Hk
    |l u b ss1 s todo k ss2 Hk|l u b ss1 s ss2|l u b ss1 s ph ss2].
  - destruct Hinv as (H64 & Hc & Hinv). split_and!; cbn in *; [set_solver|done|].
    intros k' Hk' Hu. apply Hinv; set_solver.
  - destruct Hinv as (H64 & Hc & Hinv). split_and!; cbn in *; [done..|].
    intros k' Hk' Hu. unfold lower. destruct (decide (k' = k)) as [->|Hne]; [left; lia|].
    destruct (Hinv k') as [?|?]; [done|set_solver|left; lia|by right].
  - destruct Hinv as (H64 & Hc & Hinv). split_and!; cbn in *; [set_solver|done|].
    intros k' Hk' Hu. apply Hinv; set_solver.
  - destruct Hinv as (H64 & Hc & Hinv). unfold tb_begin in Hb. case_match; [|done].
    injection Hb as <- <-. split_and!; cbn in *; [done|set_solver|].
    intros k' Hk' Hu. right. destruct (Hinv k' Hk' Hu) as [Hle|(sp & Hsp & Hcov)].
    + eexists. split; [apply list_elem_of_here|]. by split.
    + exists sp. split; [by apply list_elem_of_further|done].
  - destruct Hinv as (H64 & Hc & Hinv). destruct (read_retain_spec s l) as (Hf & Hcp & Hr).
    split_and!; cbn in *; [done| |].
    + intros sp Hsp. apply elem_of_app in Hsp as [?|[->|?]%elem_of_cons]; [set_solver| |set_solver].
      cbn. rewrite Hcp. apply (Hc (s, Begun)). set_solver.
    + intros k' Hk' Hu. destruct (Hinv k' Hk' Hu) as [?|Hx]; [by left|right].
      eapply covered_replace; [|exact Hx]. unfold covers. cbn. rewrite Hf.
      intros [Hle _]. split; [done|]. auto.
  - destruct Hinv as (H64 & Hc & Hinv). split_and!; cbn in *; [set_solver| |].
    + intros sp Hsp. apply elem_of_app in Hsp as [?|[->|?]%elem_of_cons]; [set_solver| |set_solver].
      apply (Hc (s, Reading todo)). set_solver.
    + intros k' Hk' Hu. destruct (Hinv k') as [?|Hx]; [set_solver|done|by left|right].
      eapply covered_replace; [|exact Hx]. unfold covers. cbn. intros [? [?|?]]; set_solver.
  - destruct Hinv as (H64 & Hc & Hinv). split_and!; cbn in *; [done| |].
    + intros sp Hsp. apply elem_of_app in Hsp as [?|[->|?]%elem_of_cons]; [set_solver| |set_solver].
      cbn. apply (Hc (s, Reading todo)). set_solver.
    + intros k' Hk' Hu. destruct (Hinv k' Hk' Hu) as [?|Hx]; [by left|right].
      eapply covered_replace; [|exact Hx]. unfold covers. cbn. intros [? [?|?]].
      * destruct (decide (k' = k)) as [->|]; [split; [done|right; lia]|]. set_solver.
      * split; [done|right; lia].
  - eapply bound_inv_end; [exact Hinv| |]; unfold scan_drop; cbn; [lia|].
    intros k [Hle Hc]. cbn in *. destruct Hc; [set_solver|lia].
  - destruct Hinv as (H64 & Hc & Hinv).
    assert (Hs : scan_completed s = false) by (apply (Hc (s, ph)); cbn; set_solver).
    eapply bound_inv_end; [by split_and!|unfold scan_drop; lia|].
    intros k [Hle _]. unfold scan_drop. rewrite Hs. cbn in Hle. lia.
Qed.

Lemma reachable_bound_inv st : reachable st → bound_inv st.
Proof.
  induction 1 as [st (Hu & Hb & Hs & H64)|st st' _ IH Hstep].
  - split_and!; [done|rewrite Hs; set_solver|]. intros k Hk _. left. rewrite Hb.
    specialize (H64 k Hk). unfold time_bound_new, is_u64 in *. lia.
  - by eapply step_bound_inv.
Qed.

End Sweep.
