(* ===== verification/ClaimCursor.v ===== *)
(** * The claim cursor (taquba/src/claim_cursor.rs)

    Per-queue claim state: the scan-start bound, the insert epoch, the emptiness
    mark and the smallest insert ahead of the bound; and the interleavings of
    inserts, removals and claims under which no claim misses a job. *)
From S2P Require Import Prelude Bytes Error Keys Job.

Definition MAX_INSERT_WAKEUPS : nat := 64.

Record ScanFrom := mkScanFrom { sf_key : bytes; inclusive : bool }.

#[global] Instance ScanFrom_eq_dec : EqDecision ScanFrom.
Proof. solve_decision. Defined.

(** The claim state of a queue. [notified] counts the [notify_one] calls issued on
    the wakeup of the queue; the claim lock is the phase of the interleaving. *)
Record QueueClaimState := mkQueueClaimState {
  cs_scan_from : option ScanFrom;
  epoch : Z;
  empty_as_of : option Z;
  min_insert_ahead : option bytes;
  notified : nat;
}.

(** [QueueClaimState::default]. *)
Definition claim_state_default : QueueClaimState := mkQueueClaimState None 0 None None 0.

(** [QueueClaimState::known_empty]. *)
Definition state_known_empty (s : QueueClaimState) : bool :=
  bool_decide (empty_as_of s = Some (epoch s)).

Record ClaimScanStart := mkClaimScanStart {
  start_scan_from : option ScanFrom;
  start_epoch : Z;
  start_known_empty : bool;
}.

Record CursorState := mkCursorState {
  cursor_scan_from : option ScanFrom;
  cursor_known_empty : bool;
}.

Abbreviation ClaimCursor := (gmap QueueName QueueClaimState).

(** [map.entry(queue).or_default()]. *)
Definition entry_or_default (queue : QueueName) (c : ClaimCursor) : QueueClaimState :=
  default claim_state_default (c !! queue).

(** [ClaimCursor::begin_claim]. *)
Definition begin_claim (queue : QueueName) (c : ClaimCursor) : ClaimScanStart :=
  match c !! queue with
  | Some s => mkClaimScanStart (cs_scan_from s) (epoch s) (state_known_empty s)
  | None => mkClaimScanStart None 0 false
  end.

(** [ClaimCursor::advance], on the state of the queue. *)
Definition advance_state (claimed : bytes) (observed : ClaimScanStart) (s : QueueClaimState)
    : QueueClaimState :=
  if decide (cs_scan_from s ≠ start_scan_from observed) then s
  else
    let from := match min_insert_ahead s with
      | Some min => if bytes_le min claimed then mkScanFrom min true else mkScanFrom claimed false
      | None => mkScanFrom claimed false
      end in
    mkQueueClaimState (Some from) (epoch s) (empty_as_of s) None (notified s).
Definition advance (queue : QueueName) (claimed : bytes) (observed : ClaimScanStart)
    (c : ClaimCursor) : ClaimCursor :=
  <[queue := advance_state claimed observed (entry_or_default queue c)]> c.

(** [ClaimCursor::mark_empty]. *)
Definition mark_empty_state (observed : ClaimScanStart) (s : QueueClaimState)
    : QueueClaimState :=
  mkQueueClaimState (cs_scan_from s) (epoch s) (Some (start_epoch observed))
    (min_insert_ahead s) (notified s).
Definition mark_empty (queue : QueueName) (observed : ClaimScanStart) (c : ClaimCursor)
    : ClaimCursor :=
  <[queue := mark_empty_state observed (entry_or_default queue c)]> c.

(** [ClaimCursor::known_empty]. *)
Definition known_empty (queue : QueueName) (c : ClaimCursor) : bool :=
  match c !! queue with Some s => state_known_empty s | None => false end.

(** [ClaimCursor::note_pending_inserts]. *)
Definition note_pending_state (min_key : bytes) (count : nat) (s : QueueClaimState)
    : QueueClaimState :=
  let was_known_empty := state_known_empty s in
  let epoch' := wrap64 (epoch s + 1) in
  let include_min_key := match cs_scan_from s with
    | Some sf => bytes_lt min_key (sf_key sf) ||
                 bool_decide (min_key = sf_key sf) && negb (inclusive sf)
    | None => was_known_empty
    end in
  let notified' := (notified s + Nat.min count MAX_INSERT_WAKEUPS)%nat in
  if include_min_key
  then mkQueueClaimState (Some (mkScanFrom min_key true)) epoch' (empty_as_of s) None notified'
  else
    let is_new_min := match min_insert_ahead s with
      | Some min => bytes_lt min_key min
      | None => true
      end in
    mkQueueClaimState (cs_scan_from s) epoch' (empty_as_of s)
      (if is_new_min then Some min_key else min_insert_ahead s) notified'.
Definition note_pending_inserts (queue : QueueName) (min_key : bytes) (count : nat)
    (c : ClaimCursor) : ClaimCursor :=
  <[queue := note_pending_state min_key count (entry_or_default queue c)]> c.

(** [ClaimCursor::export]. *)
Definition export_state (s : QueueClaimState) : option CursorState :=
  let ke := state_known_empty s in
  match cs_scan_from s with
  | None => if ke then Some (mkCursorState None ke) else None
  | sf => Some (mkCursorState sf ke)
  end.
Definition export (c : ClaimCursor) : list (QueueName * CursorState) :=
  omap (λ qs, (λ st, (qs.1, st)) <$> export_state qs.2) (map_to_list c).

(** [ClaimCursor::restore]. *)
Definition restore_state (st : CursorState) (s : QueueClaimState) : QueueClaimState :=
  mkQueueClaimState (cursor_scan_from st) (epoch s)
    (if cursor_known_empty st then Some (epoch s) else empty_as_of s)
    (min_insert_ahead s) (notified s).
Definition restore (queue : QueueName) (st : CursorState) (c : ClaimCursor) : ClaimCursor :=
  <[queue := restore_state st (entry_or_default queue c)]> c.

(** [ClaimCursor::wakeup_for] and [claim_lock_for] create the entry of a queue. *)
Definition wakeup_for (queue : QueueName) (c : ClaimCursor) : ClaimCursor :=
  match c !! queue with Some _ => c | None => <[queue := claim_state_default]> c end.
(** [notify_one] on the wakeup of a queue. *)
Definition notify_one (queue : QueueName) (c : ClaimCursor) : ClaimCursor :=
  let s := entry_or_default queue c in
  <[queue := mkQueueClaimState (cs_scan_from s) (epoch s) (empty_as_of s) (min_insert_ahead s)
      (S (notified s))]> c.

(** ** The bound *)

(** Whether a scan from a bound yields a key. *)
Definition from_bound (o : option ScanFrom) (k : bytes) : bool :=
  match o with
  | None => true
  | Some sf => if inclusive sf then bytes_le (sf_key sf) k else bytes_lt (sf_key sf) k
  end.

(** A bound strictly below another: what an insert that moves the bound makes of
    it. *)
Definition bound_below (o' o : option ScanFrom) : Prop :=
  match o', o with
  | Some _, None => True
  | Some sf', Some sf =>
      bytes_lt (sf_key sf') (sf_key sf) = true ∨
      sf_key sf' = sf_key sf ∧ inclusive sf' = true ∧ inclusive sf = false
  | None, _ => False
  end.

Lemma bound_below_ne o' o : bound_below o' o → o' ≠ o.
Proof.
  destruct o' as [[k' i']|], o as [[k i]|]; cbn; try done.
  intros [H|(-> & -> & ->)]; [|done]. intros [= -> ->]. by rewrite bytes_lt_irrefl in H.
Qed.

Lemma bound_below_trans a b c : bound_below a b → bound_below b c → bound_below a c.
Proof.
  destruct a as [[ka ia]|], b as [[kb ib]|], c as [[kc ic]|]; cbn; try done.
  intros [?|(-> & -> & ->)] [?|(-> & -> & ->)]; try done; auto.
  left. by eapply bytes_lt_trans.
Qed.

(** An insert leaves the bound or moves it below. *)
Lemma note_pending_bound m n s :
  cs_scan_from (note_pending_state m n s) = cs_scan_from s ∨
  bound_below (cs_scan_from (note_pending_state m n s)) (cs_scan_from s) ∧
  cs_scan_from (note_pending_state m n s) = Some (mkScanFrom m true).
Proof.
  unfold note_pending_state. destruct (cs_scan_from s) as [[k i]|] eqn:E; cbn.
  - destruct (bytes_lt m k) eqn:Hl; cbn; [right; auto|].
    case_bool_decide; cbn; [|by left]. destruct i; cbn; [by left|right; auto].
  - destruct (state_known_empty s); cbn; auto.
Qed.

Lemma note_pending_epoch m n s :
  (epoch s < u64_max)%Z → (0 ≤ epoch s)%Z →
  epoch (note_pending_state m n s) = (epoch s + 1)%Z ∧
  empty_as_of (note_pending_state m n s) = empty_as_of s.
Proof.
  intros. unfold note_pending_state.
  destruct (match cs_scan_from s with Some _ => _ | None => _ end); cbn;
    (split; [apply wrap64_small; unfold is_u64, u64_mod, u64_max in *; lia|done]).
Qed.

(** After the insert is noted, a scan from the bound yields every key it yielded,
    and every key from the inserted one on, unless the queue was known empty. *)
Lemma note_pending_from_bound m n s k :
  from_bound (cs_scan_from s) k = true → (cs_scan_from s = None → state_known_empty s = false) →
  from_bound (cs_scan_from (note_pending_state m n s)) k = true.
Proof.
  unfold note_pending_state. destruct (cs_scan_from s) as [[b i]|] eqn:E; cbn.
  - intros Hb _. destruct (bytes_lt m b) eqn:Hl; cbn.
    + destruct i; [|apply bytes_lt_le in Hb]; apply bytes_lt_le;
        by eapply bytes_lt_le_trans.
    + case_bool_decide; cbn; [|done]. subst. destruct i; cbn; [done|]. by apply bytes_lt_le.
  - intros _ Hke. by rewrite Hke.
Qed.

Lemma note_pending_from_bound_new m n s k :
  bytes_le m k = true → from_bound (cs_scan_from (note_pending_state m n s)) k = true.
Proof.
  intros Hmk. unfold note_pending_state. destruct (cs_scan_from s) as [[b i]|] eqn:E; cbn.
  - destruct (bytes_lt m b) eqn:Hl; cbn; [done|]. apply bytes_nlt_le in Hl.
    case_bool_decide; cbn.
    + subst. destruct i; cbn; done.
    + apply bytes_le_lt_or_eq in Hl as [Hl|?]; [|congruence].
      destruct i; [apply bytes_lt_le|]; by eapply bytes_lt_le_trans.
  - destruct (state_known_empty s); done.
Qed.

(** An insert that leaves the bound is recorded for the advance. *)
Lemma note_pending_min m n s :
  cs_scan_from (note_pending_state m n s) = cs_scan_from s →
  ¬ bound_below (cs_scan_from (note_pending_state m n s)) (cs_scan_from s) →
  ∃ min, min_insert_ahead (note_pending_state m n s) = Some min ∧ bytes_le min m = true ∧
    ∀ min0, min_insert_ahead s = Some min0 → bytes_le min min0 = true.
Proof.
  unfold note_pending_state.
  set (inc := match cs_scan_from s with Some _ => _ | None => _ end).
  destruct inc eqn:Hinc; cbn; intros Heq Hnb.
  - destruct Hnb. subst inc. rewrite <- Heq in Hinc. cbn in Hinc.
    rewrite bytes_lt_irrefl, bool_decide_true in Hinc by done. done.
  - destruct (min_insert_ahead s) as [m0|].
    + destruct (bytes_lt m m0) eqn:E.
      * exists m. split_and!; [done|apply bytes_le_refl|]. intros ? [= <-]. by apply bytes_lt_le.
      * exists m0. split_and!; [done|by apply bytes_nlt_le|]. intros ? [= <-]. apply bytes_le_refl.
    + exists m. split_and!; [done|apply bytes_le_refl|done].
Qed.

(** ** Claims against concurrent inserts (claim_cursor.rs, queue_core/claim.rs)

    The interleavings of one queue's claims with its inserts and removals. A
    transaction that writes pending keys commits them and, afterwards, notes them
    at the cursor; between the two they are unnoted. A claim, under the queue's
    claim lock, reads the scan state, takes its snapshot, scans, commits the
    removal of its candidates, advances the bound and, when its scan ran dry, marks
    the queue empty. The inserts and removals of other tasks run between any two of
    these steps. The theorems: no noted job sorts before the bound, and a queue
    known to be empty has no noted job. *)

Module PendingScan.

(** Where the claim that holds the lock is. *)
Inductive Phase :=
| Idle
| Begun (scan : ClaimScanStart)
| Snapped (scan : ClaimScanStart) (snap : gset bytes)
| Committed (scan : ClaimScanStart) (last : bytes) (drained : bool)
| Advanced (scan : ClaimScanStart).

Record State := mkState {
  pending : gset bytes;
  unnoted : list (gset bytes);
  cursor : QueueClaimState;
  phase : Phase;
}.

Definition unnoted_keys (st : State) : gset bytes := ⋃ unnoted st.

(** The candidates of a scan of [snap] from [from]: ascending, from the bound on,
    the first ones; all of them when the scan ran dry. *)
Definition is_candidates (from : option ScanFrom) (snap : gset bytes) (cands : list bytes)
    (drained : bool) : Prop :=
  (∀ k, k ∈ cands → k ∈ snap ∧ from_bound from k = true) ∧
  (∀ k, k ∈ snap → from_bound from k = true →
     k ∈ cands ∨ drained = false ∧ ∀ c, c ∈ cands → bytes_lt c k = true).

Inductive step : State → State → Prop :=
(** A transaction commits new pending keys. *)
| step_insert p u c ph (keys : gset bytes) : keys ≠ ∅ →
    step (mkState p u c ph) (mkState (keys ∪ p) (keys :: u) c ph)
(** The commit of those keys is noted with the smallest of them. The epoch is a
    64-bit count of inserts. *)
| step_note p u1 keys u2 c ph min count :
    min ∈ keys → (∀ k, k ∈ keys → bytes_le min k = true) → (epoch c < u64_max)%Z →
    step (mkState p (u1 ++ keys :: u2) c ph)
         (mkState p (u1 ++ u2) (note_pending_state min count c) ph)
(** A cancel or a claim by id removes a pending key. *)
| step_remove p u c ph k : step (mkState p u c ph) (mkState (p ∖ {[k]}) u c ph)
| step_begin p u c : state_known_empty c = false →
    step (mkState p u c Idle)
         (mkState p u c (Begun (mkClaimScanStart (cs_scan_from c) (epoch c) false)))
| step_snapshot p u c scan :
    step (mkState p u c (Begun scan)) (mkState p u c (Snapped scan p))
(** The scan yields nothing: the queue is marked empty and the claim returns. *)
| step_found_none p u c scan snap :
    is_candidates (start_scan_from scan) snap [] true →
    step (mkState p u c (Snapped scan snap)) (mkState p u (mark_empty_state scan c) Idle)
(** The candidates are still there, so the commit is not a conflict. *)
| step_commit p u c scan snap cands last drained :
    is_candidates (start_scan_from scan) snap cands drained →
    last ∈ cands → (∀ k, k ∈ cands → bytes_le k last = true) →
    (∀ k, k ∈ cands → k ∈ p) →
    step (mkState p u c (Snapped scan snap))
         (mkState (p ∖ list_to_set cands) u c (Committed scan last drained))
(** A conflict or an error releases the lock. *)
| step_abort p u c ph : step (mkState p u c ph) (mkState p u c Idle)
| step_advance p u c scan last drained :
    step (mkState p u c (Committed scan last drained))
         (mkState p u (advance_state last scan c) (if drained then Advanced scan else Idle))
| step_mark p u c scan :
    step (mkState p u c (Advanced scan)) (mkState p u (mark_empty_state scan c) Idle).

(** After an open: the default state, over any pending keys. *)
Definition initial (st : State) : Prop :=
  unnoted st = [] ∧ cursor st = claim_state_default ∧ phase st = Idle.

Inductive reachable : State → Prop :=
| reach_init st : initial st → reachable st
| reach_step st st' : reachable st → step st st' → reachable st'.

(** ** The invariant *)

(** A noted pending key. *)
Definition noted (st : State) (k : bytes) : Prop := k ∈ pending st ∧ k ∉ unnoted_keys st.

Definition covered_by_min (c : QueueClaimState) (k : bytes) : Prop :=
  ∃ min, min_insert_ahead c = Some min ∧ bytes_le min k = true.

(** The bound of the cursor against the one a claim observed: equal, or moved
    below it by an insert, which takes the epoch past the observed one. *)
Definition observed_bound (scan : ClaimScanStart) (c : QueueClaimState) : Prop :=
  (start_epoch scan ≤ epoch c)%Z ∧
  (cs_scan_from c = start_scan_from scan ∨
   bound_below (cs_scan_from c) (start_scan_from scan) ∧ (start_epoch scan < epoch c)%Z).

Definition phase_inv (st : State) : Prop :=
  let c := cursor st in
  match phase st with
  | Idle => True
  | Begun scan => observed_bound scan c
  | Snapped scan snap =>
      observed_bound scan c ∧
      (cs_scan_from c = start_scan_from scan → ∀ k, noted st k → k ∈ snap ∨ covered_by_min c k) ∧
      (epoch c = start_epoch scan → ∀ k, noted st k → k ∈ snap)
  | Committed scan last drained =>
      observed_bound scan c ∧
      (cs_scan_from c = start_scan_from scan →
         ∀ k, noted st k → bytes_lt last k = true ∨ covered_by_min c k) ∧
      (drained = true → epoch c = start_epoch scan → ∀ k, ¬ noted st k)
  | Advanced scan =>
      (start_epoch scan ≤ epoch c)%Z ∧ (epoch c = start_epoch scan → ∀ k, ¬ noted st k)
  end.

Definition inv (st : State) : Prop :=
  (0 ≤ epoch (cursor st))%Z ∧
  (∀ e, empty_as_of (cursor st) = Some e → (e ≤ epoch (cursor st))%Z) ∧
  (∀ k, noted st k → from_bound (cs_scan_from (cursor st)) k = true) ∧
  (state_known_empty (cursor st) = true → ∀ k, ¬ noted st k) ∧
  phase_inv st.

(** The steps that only shrink the noted keys. *)
Lemma inv_shrink st st' :
  inv st → cursor st' = cursor st → phase st' = phase st →
  (∀ k, noted st' k → noted st k) → inv st'.
Proof.
  intros (He & Hea & Hb & Hk & Hp) Hc Hph Hn. unfold inv, phase_inv in *. rewrite Hc, Hph.
  split_and!; [done|done|intros k ?; by apply Hb, Hn|intros H k ?; by eapply (Hk H k), Hn|].
  destruct (phase st) as [| |scan snap|scan last d|scan]; [done..| | |].
  - destruct Hp as (? & H1 & H2).
    split_and!; [done|intros E k ?; by apply H1, Hn|intros E k ?; by apply H2, Hn].
  - destruct Hp as (? & H1 & H2).
    split_and!; [done|intros E k ?; by apply H1, Hn|intros Ed E k ?; by eapply (H2 Ed E k), Hn].
  - destruct Hp as (? & H1). split; [done|intros E k ?; by eapply (H1 E k), Hn].
Qed.

Lemma inv_abort p u c ph : inv (mkState p u c ph) → inv (mkState p u c Idle).
Proof. intros (? & ? & ? & ? & _). by split_and!. Qed.

Lemma unnoted_note p u1 keys u2 c ph c' ph' k :
  noted (mkState p (u1 ++ u2) c' ph') k →
  noted (mkState p (u1 ++ keys :: u2) c ph) k ∨ k ∈ keys.
Proof.
  unfold noted, unnoted_keys. cbn. rewrite !union_list_app_L. cbn. intros [? Hu].
  destruct (decide (k ∈ keys)); [by right|left]. split; [done|]. set_solver.
Qed.

Lemma known_empty_epoch c : state_known_empty c = true ↔ empty_as_of c = Some (epoch c).
Proof. unfold state_known_empty. by rewrite bool_decide_eq_true. Qed.

Lemma note_observed m n c scan :
  (0 ≤ epoch c < u64_max)%Z → observed_bound scan c →
  observed_bound scan (note_pending_state m n c) ∧
  (start_epoch scan < epoch (note_pending_state m n c))%Z.
Proof.
  intros [He Hm] [Hle Hobs]. unfold observed_bound.
  destruct (note_pending_epoch m n c Hm He) as [-> _].
  destruct (note_pending_bound m n c) as [->|[Hb _]].
  - split; [|lia]. split; [lia|]. destruct Hobs as [?|[? ?]]; [by left|right; split; [done|lia]].
  - split; [|lia]. split; [lia|]. right. split; [|lia].
    destruct Hobs as [<-|[? _]]; [done|by eapply bound_below_trans].
Qed.

(** What a note makes of the keys the claim in flight must not jump over. *)
Lemma note_covered m n c scan (P : bytes → Prop) k :
  observed_bound scan c →
  cs_scan_from (note_pending_state m n c) = start_scan_from scan →
  (cs_scan_from c = start_scan_from scan → P k ∨ covered_by_min c k) ∨ bytes_le m k = true →
  P k ∨ covered_by_min (note_pending_state m n c) k.
Proof.
  intros [_ Hobs] Heq Hk.
  assert (Hsame : cs_scan_from (note_pending_state m n c) = cs_scan_from c).
  { destruct (note_pending_bound m n c) as [?|[Hb _]]; [done|].
    destruct Hobs as [Hobs|[Hb' _]].
    - rewrite Heq, <- Hobs in Hb. by apply bound_below_ne in Hb.
    - exfalso. eapply (bound_below_ne _ (start_scan_from scan)); [|exact Heq].
      by eapply bound_below_trans. }
  destruct (note_pending_min m n c Hsame) as (min & Hmin & Hle & Hold).
  { rewrite Hsame. intros H. by apply bound_below_ne in H. }
  destruct Hk as [Hk|Hk].
  - destruct Hk as [?|(min0 & H0 & Hle0)]; [congruence|by left|right].
    exists min. split; [done|]. eapply bytes_le_trans; [by apply Hold|done].
  - right. exists min. split; [done|]. by eapply bytes_le_trans.
Qed.

Lemma inv_note p u1 keys u2 c ph m n :
  m ∈ keys → (∀ k, k ∈ keys → bytes_le m k = true) → (epoch c < u64_max)%Z →
  inv (mkState p (u1 ++ keys :: u2) c ph) →
  inv (mkState p (u1 ++ u2) (note_pending_state m n c) ph).
Proof.
  intros Hm Hmin Hmax (He & Hea & Hb & Hke & Hp). cbn in He, Hea, Hb, Hke.
  destruct (note_pending_epoch m n c Hmax He) as [Hep Hem].
  pose proof (note_observed m n c) as Hobs.
  assert (Hnk : state_known_empty (note_pending_state m n c) = false).
  { apply not_true_iff_false. rewrite known_empty_epoch, Hem, Hep. intros H%Hea. lia. }
  split_and!; cbn.
  - lia.
  - intros e. rewrite Hem, Hep. intros H%Hea. lia.
  - intros k Hk. eapply unnoted_note in Hk as [Hk|Hk].
    + apply note_pending_from_bound; [by eapply Hb|]. intros _. apply not_true_iff_false.
      intros H. by eapply (Hke H).
    + apply note_pending_from_bound_new. auto.
  - by rewrite Hnk.
  - unfold phase_inv in *. cbn in *.
    destruct ph as [|scan|scan snap|scan last d|scan]; [done| | | |].
    + by apply Hobs.
    + destruct Hp as (Ho & H1 & H2). destruct (Hobs scan) as [Ho' Hlt]; [lia|done|].
      split_and!; [done| |lia]. intros Heq k Hk.
      eapply (note_covered m n c scan (.∈ snap)); [done..|].
      eapply unnoted_note in Hk as [Hk|Hk]; [left; intros; by apply H1|right; auto].
    + destruct Hp as (Ho & H1 & H2). destruct (Hobs scan) as [Ho' Hlt]; [lia|done|].
      split_and!; [done| |lia]. intros Heq k Hk.
      eapply (note_covered m n c scan (λ k, bytes_lt last k = true)); [done..|].
      eapply unnoted_note in Hk as [Hk|Hk]; [left; intros; by apply H1|right; auto].
    + destruct Hp as (Hle & _). split; lia.
Qed.

Lemma inv_mark_empty p u c scan ph :
  inv (mkState p u c ph) → (start_epoch scan ≤ epoch c)%Z →
  (epoch c = start_epoch scan → ∀ k, ¬ noted (mkState p u c ph) k) →
  inv (mkState p u (mark_empty_state scan c) Idle).
Proof.
  intros (He & Hea & Hb & Hke & _) Hle Hnone. split_and!; cbn in *; [done| |done| |done].
  - intros e [= <-]. done.
  - rewrite known_empty_epoch. cbn. intros [= Heq]. by apply Hnone.
Qed.

Lemma inv_commit p u c scan snap cands last drained :
  is_candidates (start_scan_from scan) snap cands drained →
  last ∈ cands → (∀ k, k ∈ cands → bytes_le k last = true) →
  inv (mkState p u c (Snapped scan snap)) →
  inv (mkState (p ∖ list_to_set cands) u c (Committed scan last drained)).
Proof.
  intros [_ Hc] Hlast Hmax (He & Hea & Hb & Hke & (Ho & H1 & H2)).
  assert (Hn : ∀ k, noted (mkState (p ∖ list_to_set cands) u c (Committed scan last drained)) k →
    noted (mkState p u c (Snapped scan snap)) k ∧ k ∉ cands).
  { unfold noted. cbn. intros k [Hk ?]. split; [split; [set_solver|done]|]. set_solver. }
  split_and!; cbn in *; [done|done| | |split_and!; [done| |]].
  - intros k [Hk _]%Hn. auto.
  - intros H k [Hk _]%Hn. by eapply Hke.
  - intros Heq k [Hk Hnc]%Hn. destruct (H1 Heq k Hk) as [Hs|?]; [|by right].
    destruct (Hc k Hs) as [?|[_ Hlt]]; [rewrite <- Heq; auto|done|left; auto].
  - intros -> Heq k [Hk Hnc]%Hn. destruct Ho as [_ [Hf|[_ ?]]]; [|lia].
    destruct (Hc k (H2 Heq k Hk)) as [?|[? _]]; [rewrite <- Hf; auto|done|done].
Qed.

Lemma inv_advance p u c scan last drained :
  inv (mkState p u c (Committed scan last drained)) →
  inv (mkState p u (advance_state last scan c) (if drained then Advanced scan else Idle)).
Proof.
  intros (He & Hea & Hb & Hke & ([Hle _] & H1 & H2)). cbn in *. unfold advance_state.
  case_decide as Hd.
  - split_and!; [done..|]. unfold phase_inv. destruct drained; cbn; [|done]. split; [done|by apply H2].
  - split_and!; cbn; [done|done| |done|].
    + intros k Hk. destruct (H1 Hd k Hk) as [Hlt|(min & -> & Hmin)].
      * destruct (min_insert_ahead c) as [min|]; [|done]. destruct (bytes_le min last) eqn:E; cbn.
        -- eapply bytes_le_trans; [exact E|]. by apply bytes_lt_le.
        -- done.
      * destruct (bytes_le min last) eqn:E; cbn; [done|]. apply bytes_nle_lt in E.
        by eapply bytes_lt_le_trans.
    + destruct drained; cbn; [|done]. split; [done|by apply H2].
Qed.

Lemma step_inv st st' : inv st → step st st' → inv st'.
Proof.
  intros Hinv Hstep. destruct Hstep as [p u c ph keys Hne|p u1 keys u2 c ph m n Hm Hmin Hmax
    |p u c ph k|p u c Hke|p u c scan|p u c scan snap Hc|p u c scan snap cands last dr Hc Hl Hle Hp
    |p u c ph|p u c scan last dr|p u c scan].
  - eapply inv_shrink; [exact Hinv|done..|]. unfold noted, unnoted_keys. cbn. set_solver.
  - by eapply inv_note.
  - eapply inv_shrink; [exact Hinv|done..|]. unfold noted, unnoted_keys. cbn. set_solver.
  - destruct Hinv as (? & ? & ? & ? & _). split_and!; [done..|]. cbn. split; cbn; [lia|by left].
  - destruct Hinv as (? & ? & ? & ? & Ho). split_and!; [done..|].
    cbn in *. split_and!; [done| |]; unfold noted; cbn; [left|]; naive_solver.
  - eapply inv_mark_empty; [by eapply inv_abort|..];
      destruct Hinv as (_ & _ & Hb & _ & ([Hle Hobs] & _ & Hs)); cbn in *; [done|].
    intros Heq k Hk. destruct Hc as [_ Hc]. destruct Hobs as [Hf|[_ ?]]; [|lia].
    destruct (Hc k) as [?|[? _]]; [by apply Hs|rewrite <- Hf; by apply Hb|set_solver|done].
  - by eapply inv_commit.
  - by eapply inv_abort.
  - by eapply inv_advance.
  - destruct Hinv as (Hi1 & Hi2 & Hi3 & Hi4 & (Hle & Hn)).
    eapply (inv_mark_empty _ _ _ _ Idle); [by split_and!|done|done].
Qed.

Lemma reachable_inv st : reachable st → inv st.
Proof.
  induction 1 as [st (Hu & Hc & Hp)|st st' _ IH Hstep]; [|by eapply step_inv].
  unfold inv, phase_inv. rewrite Hc, Hp. split_and!; [done|done|done| |done].
  by rewrite known_empty_epoch.
Qed.

End PendingScan.
