(* ===== verification/Completion.v ===== *)
(** * Completion waiters (taquba/src/completion.rs)

    The tasks that wait for the terminal transition of a job. *)
From S2P Require Import Prelude Error Job.

(** [WaitOutcome] of taquba/src/queue.rs. *)
Inductive WaitOutcome :=
| WaitDone (record : JobRecord)
| WaitDead (record : JobRecord)
| WaitCancelled
| WaitNotFound.

(** The registry: the next key, and the keys of the waiters of each id. The
    channel of a waiter is named by its key; [channels] is what was sent on each. *)
Record CompletionWaiters := mkWaiters {
  next_key : Z;
  waiters : gmap string (list Z);
  channels : gmap Z WaitOutcome;
}.

Definition waiters_new : CompletionWaiters := mkWaiters 0 ∅ ∅.

Record Registration := mkRegistration { reg_id : string; reg_key : Z }.

(** [CompletionWaiters::register]. *)
Definition register (jid : string) (c : CompletionWaiters) : Registration * CompletionWaiters :=
  let key := next_key c in
  (mkRegistration jid key,
   mkWaiters (wrap64 (key + 1)) (<[jid := default [] (waiters c !! jid) ++ [key]]> (waiters c))
     (channels c)).

(** [CompletionWaiters::has_waiters]. *)
Definition has_waiters (jid : string) (c : CompletionWaiters) : bool :=
  bool_decide (is_Some (waiters c !! jid)).

(** [CompletionWaiters::settle]. *)
Definition waiters_settle (jid : string) (outcome : WaitOutcome) (c : CompletionWaiters)
    : CompletionWaiters :=
  match waiters c !! jid with
  | None => c
  | Some keys =>
      mkWaiters (next_key c) (delete jid (waiters c))
        (foldl (λ m key, <[key := outcome]> m) (channels c) keys)
  end.

(** [CompletionWaiters::withdraw], the drop of a registration. *)
Definition withdraw (jid : string) (key : Z) (c : CompletionWaiters) : CompletionWaiters :=
  match waiters c !! jid with
  | None => c
  | Some keys =>
      let keys := filter (λ k, k ≠ key) keys in
      mkWaiters (next_key c)
        (match keys with [] => delete jid (waiters c) | _ => <[jid := keys]> (waiters c) end)
        (channels c)
  end.

(** [Registration::try_outcome]. *)
Definition try_outcome (r : Registration) (c : CompletionWaiters) : option WaitOutcome :=
  channels c !! reg_key r.

(** ** Properties *)

(** Keys below the next one, each waiting for one id, and without an outcome. *)
Record waiters_wf (c : CompletionWaiters) : Prop := {
  wf_nonempty jid : waiters c !! jid ≠ Some [];
  wf_fresh jid keys key : waiters c !! jid = Some keys → key ∈ keys →
    (key < next_key c)%Z ∧ channels c !! key = None;
  wf_channels key o : channels c !! key = Some o → (key < next_key c)%Z;
  wf_next : is_u64 (next_key c);
}.

Lemma foldl_channels (keys : list Z) o (m : gmap Z WaitOutcome) k :
  foldl (λ m key, <[key := o]> m) m keys !! k = if decide (k ∈ keys) then Some o else m !! k.
Proof.
  revert m. induction keys as [|x keys IH]; intros m; cbn.
  - by rewrite decide_False by apply not_elem_of_nil.
  - rewrite IH. destruct (decide (k ∈ keys)) as [H|H].
    + rewrite decide_True; [done|]. by right.
    + destruct (decide (k = x)) as [->|].
      * rewrite lookup_insert_eq, decide_True; [done|]. by left.
      * rewrite lookup_insert_ne, decide_False; [done| |done].
        intros [?|?]%elem_of_cons; done.
Qed.

Lemma register_wf jid c :
  (next_key c + 1 < u64_mod)%Z → waiters_wf c → waiters_wf (register jid c).2.
Proof.
  intros Hlt [Hne Hf Hc Hn].
  assert (Hw : wrap64 (next_key c + 1) = (next_key c + 1)%Z).
  { apply wrap64_small. unfold is_u64 in *. lia. }
  constructor; cbn; rewrite ?Hw.
  - intros j. destruct (decide (j = jid)) as [->|].
    + rewrite lookup_insert_eq. intros [= E]. by apply app_eq_nil in E as [_ ?].
    + rewrite lookup_insert_ne by done. apply Hne.
  - intros j keys key. destruct (decide (j = jid)) as [->|].
    + rewrite lookup_insert_eq. intros [= <-] [H|H]%elem_of_app.
      * destruct (waiters c !! jid) as [l|] eqn:E; cbn in H; [|by apply elem_of_nil in H].
        destruct (Hf _ _ _ E H). split; [lia|done].
      * apply list_elem_of_singleton in H as ->. split; [lia|].
        destruct (channels c !! next_key c) eqn:E; [|done]. apply Hc in E. lia.
    + rewrite lookup_insert_ne by done. intros Hk Hin. destruct (Hf _ _ _ Hk Hin).
      split; [lia|done].
  - intros key o E. apply Hc in E. lia.
  - unfold is_u64 in *. lia.
Qed.

(** A settlement reaches every waiter of the id that is registered, and no
    other channel. *)
Lemma settle_delivers jid o c :
  waiters_settle jid o c = c ∧ waiters c !! jid = None ∨
  ∃ keys, waiters c !! jid = Some keys ∧ waiters (waiters_settle jid o c) !! jid = None ∧
    ∀ k, channels (waiters_settle jid o c) !! k = if decide (k ∈ keys) then Some o else channels c !! k.
Proof.
  unfold waiters_settle. destruct (waiters c !! jid) as [keys|] eqn:E; [|by left].
  right. exists keys. split; [done|]. cbn. split; [apply lookup_delete_eq|].
  intros k. apply foldl_channels.
Qed.

Lemma withdraw_wf jid key c : waiters_wf c → waiters_wf (withdraw jid key c).
Proof.
  intros [Hne Hf Hc Hn]. unfold withdraw. destruct (waiters c !! jid) as [keys|] eqn:E; [|done].
  set (l := filter _ keys).
  assert (Hl : ∀ k, k ∈ l → k ∈ keys) by by intros k [_ ?]%list_elem_of_filter.
  constructor; cbn; [| |done|done].
  - intros j. destruct l as [|x l'] eqn:El.
    + intros [? ?]%lookup_delete_Some. by eapply Hne.
    + intros [[_ [=]]|[? ?]]%lookup_insert_Some. by eapply Hne.
  - intros j ks k Hj Hk. destruct l as [|x l'] eqn:El.
    + apply lookup_delete_Some in Hj as [_ Hj]. by eapply Hf.
    + apply lookup_insert_Some in Hj as [[<- <-]|[_ Hj]]; [|by eapply Hf].
      eapply Hf; [exact E|]. by apply Hl.
Qed.

(** A key waits for one id only. *)
Definition waits_for (jid : string) (key : Z) (c : CompletionWaiters) : Prop :=
  (key < next_key c)%Z ∧ channels c !! key = None ∧
  (∃ keys, waiters c !! jid = Some keys ∧ key ∈ keys) ∧
  ∀ i keys, waiters c !! i = Some keys → i ≠ jid → key ∉ keys.

(** What the registry does between a registration and the settlement of its id:
    registrations, the withdrawals of other registrations and the settlements of
    other ids. *)
Inductive waiter_step (jid : string) (key : Z) : CompletionWaiters → CompletionWaiters → Prop :=
| ws_register i c : (next_key c + 1 < u64_mod)%Z → waiter_step jid key c (register i c).2
| ws_withdraw i k c : k ≠ key → waiter_step jid key c (withdraw i k c)
| ws_settle i o c : i ≠ jid → waiter_step jid key c (waiters_settle i o c).

Lemma register_waits jid c :
  (next_key c + 1 < u64_mod)%Z → waiters_wf c → waits_for jid (next_key c) (register jid c).2.
Proof.
  intros Hlt [Hne Hf Hc Hn]. unfold waits_for. cbn.
  rewrite wrap64_small by (unfold is_u64 in *; lia). split; [lia|]. split.
  { destruct (channels c !! next_key c) eqn:E; [|done]. apply Hc in E. lia. }
  split.
  - eexists. rewrite lookup_insert_eq. split; [done|]. apply elem_of_app. right. by left.
  - intros i keys Hi Hne' Hin. rewrite lookup_insert_ne in Hi by done.
    destruct (Hf _ _ _ Hi Hin). lia.
Qed.

Lemma waiter_step_waits jid key c c' :
  waiter_step jid key c c' → is_u64 (next_key c) → waits_for jid key c → waits_for jid key c' ∧ is_u64 (next_key c').
Proof.
  intros [i c0 Hlt|i k c0 Hk|i o c0 Hi] Hn (Hlt' & Hch & (keys & Hks & Hin) & Hone); unfold waits_for.
  - cbn. rewrite wrap64_small by (unfold is_u64 in *; lia).
    split; [|unfold is_u64 in *; lia]. split; [lia|]. split; [done|]. split.
    + destruct (decide (i = jid)) as [->|Hij].
      * eexists. rewrite lookup_insert_eq. split; [done|]. rewrite Hks. apply elem_of_app. by left.
      * exists keys. by rewrite lookup_insert_ne.
    + intros j ks Hj Hne Hin'. destruct (decide (i = j)) as [->|Hij].
      * rewrite lookup_insert_eq in Hj. injection Hj as <-. apply elem_of_app in Hin' as [Hin'|Hin'].
        -- destruct (waiters c0 !! j) as [l|] eqn:E; [by eapply Hone|by apply elem_of_nil in Hin'].
        -- apply list_elem_of_singleton in Hin'. lia.
      * rewrite lookup_insert_ne in Hj by done. by eapply Hone.
  - unfold withdraw. destruct (waiters c0 !! i) as [l|] eqn:E; [|by split_and!; eauto]. cbn.
    split; [|done]. split; [done|]. split; [done|].
    assert (Hl : ∀ x, x ∈ filter (λ y, y ≠ k) l ↔ x ≠ k ∧ x ∈ l) by (intros; by rewrite list_elem_of_filter).
    destruct (filter _ l) as [|x l'] eqn:El.
    + split.
      * exists keys. destruct (decide (i = jid)) as [->|]; [|by rewrite lookup_delete_ne].
        rewrite Hks in E. injection E as ->. specialize (Hl key). set_solver.
      * intros j ks [_ Hj]%lookup_delete_Some. by apply Hone.
    + split.
      * destruct (decide (i = jid)) as [->|]; [|exists keys; by rewrite lookup_insert_ne].
        eexists. rewrite lookup_insert_eq. split; [done|]. rewrite Hks in E. injection E as ->.
        by apply Hl.
      * intros j ks [[<- <-]|[_ Hj]]%lookup_insert_Some Hne; [|by eapply Hone].
        intros [_ Hin']%Hl. by eapply (Hone _ _ E).
  - unfold waiters_settle. destruct (waiters c0 !! i) as [l|] eqn:E; [|by split_and!; eauto]. cbn.
    split; [|done]. split; [done|]. split.
    + rewrite foldl_channels, decide_False; [done|]. by eapply (Hone _ _ E).
    + split; [exists keys; by rewrite lookup_delete_ne|].
      intros j ks [_ Hj]%lookup_delete_Some. by apply Hone.
Qed.

Lemma waits_settled jid key c o :
  waits_for jid key c → channels (waiters_settle jid o c) !! key = Some o.
Proof.
  intros (_ & _ & (keys & Hks & Hin) & _). unfold waiters_settle. rewrite Hks. cbn.
  by rewrite foldl_channels, decide_True.
Qed.
