(* ===== verification/Txn.v ===== *)
(** * Transactions (taquba/src/txn.rs)

    The store transaction of the queue with its commit notes and counter changes,
    and the staging of every job transition. *)
From S2P Require Import Prelude Bytes Error Monad Keys Job Store Stats LeaseRegistry.

(** An expiry index handle (taquba/src/expiry.rs): its prefix, and the name of
    the time bound its clones share. *)
Record ExpiryIndex := mkExpiryIndex { index_prefix : bytes; index_bound : nat }.

(** The encoded record of an inbox entry (taquba/src/inbox/record.rs). *)
Record StagedRecord := mkStagedRecord {
  staged_queue : QueueName;
  staged_id : string;
  staged_applied_at_ms : Z;
  staged_bytes : bytes;
}.

Record CommitNotes := mkNotes {
  note_pending : gmap QueueName (bytes * nat);
  note_scheduled : option Z;
  note_done : option Z;
  note_expiry : list (ExpiryIndex * Z);
  note_enqueued : list (QueueName * string);
  note_inbox : option Z;
}.

Definition notes_default : CommitNotes := mkNotes ∅ None None [] [] None.

Inductive Durability := Awaited | Deferred.
Inductive Commit := Committed | Conflict.
Inductive Attempt (T : Type) := CommitWith (value : T) | AbortWith (value : T).
Arguments CommitWith {T} value.
Arguments AbortWith {T} value.

(** The transition that ends a claim. *)
Inductive ClaimEnd :=
| EndDone (keep : bool)
| EndRetry (end_run_at : option Z) (end_outcome : AttemptOutcome) (end_error : option string)
| EndDead (dead_error : string).

#[global] Instance ClaimEnd_eq_dec : EqDecision ClaimEnd.
Proof. intros x y. unfold Decision. repeat decide equality. Defined.

(** [ClaimEnd::is_terminal]. *)
Definition is_terminal (e : ClaimEnd) : bool :=
  match e with EndRetry _ _ _ => false | _ => true end.

(** [Option<u64>] bounds that take the earliest time. *)
Definition earliest (bound : option Z) (at' : option Z) : option Z :=
  match at' with
  | Some at' => Some (match bound with Some b => Z.min b at' | None => at' end)
  | None => bound
  end.

Section txn.
  Context `{!SlateDb, !Serde JobRecord, !Serde JobAttempt}.

Record Txn := mkTxn {
  txn : DbTransaction;
  notes : CommitNotes;
  tstats : gmap (QueueName * JobStatus) Z;
}.

Abbreviation TxnM := (M Txn).

(** The operations of the dereferenced [DbTransaction]. *)
Definition t_get (k : bytes) : TxnM (option bytes) := reads (λ t, lift (txn_get (txn t) k)).
Definition t_upd (f : DbTransaction → result SlateError DbTransaction) : TxnM () :=
  λ t, t' ← lift (f (txn t)); Ok (tt, mkTxn t' (notes t) (tstats t)).
Definition t_put (k v : bytes) : TxnM () := t_upd (λ t, txn_put t k v).
Definition t_delete (k : bytes) : TxnM () := t_upd (λ t, txn_delete t k).
Definition t_mark_read (ks : list bytes) : TxnM () := t_upd (λ t, txn_mark_read t ks).
Definition t_append_attempt (jid : string) (entry : JobAttempt) : TxnM () :=
  λ t, t' ← append_attempt (txn t) jid entry; Ok (tt, mkTxn t' (notes t) (tstats t)).

Definition map_notes (f : CommitNotes → CommitNotes) : TxnM () :=
  modify (λ t, mkTxn (txn t) (f (notes t)) (tstats t)).

(** [key_status]: the state of the record stored at a key. *)
Definition key_status (key : bytes) : Result JobStatus :=
  ok_or (t ← tag_of key; tag_job_status t) Panicked.

(** The body of [note_written]. *)
Definition note_job (j : JobRecord) (key : bytes) (n : CommitNotes) : CommitNotes :=
  match status j with
  | Pending =>
      let '(min_key, count) := default (key, 0) (note_pending n !! queue j) in
      let min_key := if bytes_lt key min_key then key else min_key in
      mkNotes (<[queue j := (min_key, S count)]> (note_pending n)) (note_scheduled n)
        (note_done n) (note_expiry n) (note_enqueued n) (note_inbox n)
  | Scheduled =>
      mkNotes (note_pending n) (earliest (note_scheduled n) (run_at j)) (note_done n)
        (note_expiry n) (note_enqueued n) (note_inbox n)
  | Done =>
      mkNotes (note_pending n) (note_scheduled n) (earliest (note_done n) (completed_at j))
        (note_expiry n) (note_enqueued n) (note_inbox n)
  | Claimed | Dead => n
  end.
Definition note_written (j : JobRecord) (key : bytes) : TxnM () := map_notes (note_job j key).

(** [Txn::put_job]. *)
Definition put_job (key : bytes) (j : JobRecord) : TxnM () :=
  t_put key (stored_bytes j) ≫= λ _,
  t_put (job_index_key (id j)) key ≫= λ _,
  note_written j key.

(** The change of a counter by [d], from zero when it has none. *)
Definition stats_add (q : QueueName) (s : JobStatus) (d : Z)
    (m : gmap (QueueName * JobStatus) Z) : gmap (QueueName * JobStatus) Z :=
  <[(q, s) := wrap_i64 (default 0%Z (m !! (q, s)) + d)%Z]> m.

(** The counter changes of [Txn::count_move]. *)
Definition count_move_stats (q : QueueName) (from to : option JobStatus)
    (m : gmap (QueueName * JobStatus) Z) : gmap (QueueName * JobStatus) Z :=
  if decide (from = to) then m
  else
    let m := match from with
      | Some f => if decide (f = Done) then m else stats_add q f (-1)%Z m
      | None => m
      end in
    match to with Some t => stats_add q t 1%Z m | None => m end.
Definition count_move (q : QueueName) (from to : option JobStatus) : TxnM () :=
  modify (λ t, mkTxn (txn t) (notes t) (count_move_stats q from to (tstats t))).

(** [Txn::insert_job]. *)
Definition insert_job (j : JobRecord) : TxnM () :=
  key ← of_result (stored_key j);
  put_job key j ≫= λ _,
  count_move (queue j) None (Some (status j)) ≫= λ _,
  map_notes (λ n, mkNotes (note_pending n) (note_scheduled n) (note_done n) (note_expiry n)
    (note_enqueued n ++ [(queue j, id j)]) (note_inbox n)).

(** A job that leaves the scheduled state leaves its waits. *)
Definition leave_waits (j : JobRecord) : JobRecord :=
  if decide (status j = Scheduled) then j else set_count_wait None (set_signal_wait false j).

(** [Txn::move_job]; returns the record as written. *)
Definition move_job (from : bytes) (j : JobRecord) : TxnM JobRecord :=
  let j := leave_waits j in
  key ← of_result (stored_key j);
  if decide (from = key) then
    t_put key (stored_bytes j) ≫= λ _,
    note_written j key ≫= λ _,
    mret j
  else
    t_delete from ≫= λ _,
    put_job key j ≫= λ _,
    from_status ← of_result (key_status from);
    count_move (queue j) (Some from_status) (Some (status j)) ≫= λ _,
    mret j.

(** [Txn::stage_remove]. *)
Definition stage_remove (key : bytes) (j : JobRecord) : TxnM () :=
  t_delete key ≫= λ _,
  t_delete (job_index_key (id j)) ≫= λ _,
  t_delete (attempt_history_key (id j)) ≫= λ _,
  match dedup_key j with
  | Some dk => t_delete (dedup_index_key (queue j) dk)
  | None => mret tt
  end ≫= λ _,
  from_status ← of_result (key_status key);
  let completed := if decide (status j = Done) then Some Done else None in
  count_move (queue j) (Some from_status) completed.

(** [Txn::note_expiry_entry]. *)
Definition note_expiry_entry (index : ExpiryIndex) (at_ms : Z) : TxnM () :=
  map_notes (λ n, mkNotes (note_pending n) (note_scheduled n) (note_done n)
    (note_expiry n ++ [(index, at_ms)]) (note_enqueued n) (note_inbox n)).

(** [Txn::stage_inbox_record]. *)
Definition stage_inbox_record (r : StagedRecord) : TxnM () :=
  t_put (inbox_record_key (staged_queue r) (staged_id r)) (staged_bytes r) ≫= λ _,
  t_put (inbox_expiry_key (staged_applied_at_ms r) (staged_queue r) (staged_id r)) [] ≫= λ _,
  map_notes (λ n, mkNotes (note_pending n) (note_scheduled n) (note_done n) (note_expiry n)
    (note_enqueued n) (earliest (note_inbox n) (Some (staged_applied_at_ms r)))).

(** [get_indexed_job]: the index key, the current key and the record. *)
Definition get_indexed_job (t : DbTransaction) (jid : string)
    : Result (option (bytes * bytes * JobRecord)) :=
  let index_key := job_index_key jid in
  current ← lift (txn_get t index_key);
  match current with
  | None => Ok None
  | Some current_key =>
      raw ← lift (txn_get t current_key);
      match raw with
      | None => Ok None
      | Some b => j ← decode_job current_key b; Ok (Some (index_key, current_key, j))
      end
  end.

(** [read_claim]. *)
Definition read_claim (registry : LeaseRegistry) (q : QueueName) (jid : string) (cid : Z)
    : TxnM (bytes * JobRecord) :=
  match lease_current q jid registry with
  | Some (_, current) =>
      if decide (current = cid) then
        let key := claimed_key q jid in
        t_mark_read [key] ≫= λ _,
        raw ← t_get key;
        match raw with
        | None => raise ClaimLost
        | Some b => j ← of_result (decode_job key b); mret (key, j)
        end
      else raise ClaimLost
  | None => raise ClaimLost
  end.

(** [take_claim]. *)
Definition take_claim (registry : LeaseRegistry) (q : QueueName) (jid : string) (cid : Z)
    : TxnM JobRecord :=
  '(key, j) ← read_claim registry q jid cid;
  t_delete key ≫= λ _,
  mret j.

(** [Txn::stage_to_pending]. *)
Definition stage_to_pending (from : bytes) (j : JobRecord) : TxnM JobRecord :=
  move_job from (set_run_at None (set_status Pending j)).

(** [Txn::stage_dead_letter]. *)
Definition stage_dead_letter (from : bytes) (j : JobRecord) (now : Z) (error : string)
    : TxnM JobRecord :=
  let claimed_at' := claimed_at j in
  let j := set_failed_at (Some now) (set_last_error (Some error)
             (set_status Dead (set_claimed_at None j))) in
  t_append_attempt (id j) (mkAttempt (attempts j) claimed_at' now ODeadLettered (Some error))
    ≫= λ _,
  move_job from j.

(** [Txn::stage_claim_end]; returns the record as written. *)
Definition stage_claim_end (j : JobRecord) (end' : ClaimEnd) (now : Z) : TxnM JobRecord :=
  let from := claimed_key (queue j) (id j) in
  match end' with
  | EndDone keep =>
      let j := set_completed_at (Some now) (set_status Done j) in
      if keep then
        t_append_attempt (id j) (mkAttempt (attempts j) (claimed_at j) now OCompleted None)
          ≫= λ _,
        move_job from j
      else stage_remove from j ≫= λ _, mret j
  | EndRetry run_at' outcome error =>
      let claimed_at' := claimed_at j in
      let j := set_claimed_at None j in
      let j := match error with Some e => set_last_error (Some e) j | None => j end in
      t_append_attempt (id j) (mkAttempt (attempts j) claimed_at' now outcome error) ≫= λ _,
      match run_at' with
      | None => stage_to_pending from j
      | Some at' => move_job from (set_run_at (Some at') (set_status Scheduled j))
      end
  | EndDead error => stage_dead_letter from j now error
  end.

End txn.
Arguments Txn {_}.
Abbreviation TxnM := (M Txn).
