(* ===== verification/Stage.v ===== *)
(** * What the transaction operations write

    [stages t t' ws]: the operation that took [t] to [t'] buffered the writes
    [ws], each of which joined the conflict set. Every operation of Txn.v is
    characterised by its writes and its counter changes. *)
From S2P Require Import Prelude Bytes Error Monad Keys Job Store Stats LeaseRegistry.
From S2P Require Import Txn.

Section stage.
  Context {DB : SlateDb} {SR : Serde JobRecord} {SA : Serde JobAttempt}.
  Context {DL : SlateDbLaws merge_batch}.
  Implicit Types t : Txn.

Definition tview t : gmap bytes bytes := view (txn t).
Definition tbase t : gmap bytes bytes := contents (base (txn t)).
Definition ttracked t : gset bytes := tracked (txn t).

(** The writes [ws] over the store [m]. *)
Abbreviation run := (apply_writes merge_batch merge_fallback).

(** The writes of [t] over the store [m], which need not be its snapshot. *)
Definition twrite t (m : gmap bytes bytes) : gmap bytes bytes := run (writes (txn t)) m.

Lemma tview_eq t : tview t = twrite t (tbase t).
Proof. done. Qed.

Lemma run_app a b m : run (a ++ b) m = run b (run a m).
Proof. unfold apply_writes. by rewrite foldl_app. Qed.

(** A key reads as its own writes leave it: nothing else of the store matters. *)
Lemma run_lookup_ext ws m m' k : m !! k = m' !! k → run ws m !! k = run ws m' !! k.
Proof.
  revert m m'. induction ws as [|w ws IH]; intros m m' E; [done|]. cbn. apply IH.
  destruct w as [k' v|k'|k' v]; cbn; destruct (decide (k = k')) as [->|].
  1,3,5: by rewrite ?lookup_insert_eq, ?lookup_delete_eq, ?E.
  all: by rewrite ?lookup_insert_ne, ?lookup_delete_ne.
Qed.

Record stages t t' (ws : list write) : Prop := {
  stages_base : base (txn t') = base (txn t);
  stages_writes : writes (txn t') = writes (txn t) ++ ws;
  stages_mono : ttracked t ⊆ ttracked t';
  stages_tracked : ∀ w, w ∈ ws → write_key w ∈ ttracked t';
}.

Lemma stages_refl t : stages t t [].
Proof. constructor; [done|by rewrite app_nil_r|done|]. intros w []%elem_of_nil. Qed.

Lemma stages_trans t1 t2 t3 a b : stages t1 t2 a → stages t2 t3 b → stages t1 t3 (a ++ b).
Proof.
  intros [B1 W1 M1 T1] [B2 W2 M2 T2]. constructor.
  - congruence.
  - by rewrite W2, W1, app_assoc.
  - by etrans.
  - intros w [Hw|Hw]%elem_of_app; [apply M2|]; auto.
Qed.

Lemma stages_eq t t' a b : stages t t' a → a = b → stages t t' b.
Proof. by intros ? <-. Qed.

Lemma stages_twrite t t' ws m : stages t t' ws → twrite t' m = run ws (twrite t m).
Proof. intros [_ W _ _]. unfold twrite. by rewrite W, run_app. Qed.

Lemma stages_tbase t t' ws : stages t t' ws → tbase t' = tbase t.
Proof. intros [B _ _ _]. unfold tbase. by rewrite B. Qed.

Lemma stages_tview t t' ws : stages t t' ws → tview t' = run ws (tview t).
Proof.
  intros H. rewrite !tview_eq, (stages_tbase _ _ _ H). by apply stages_twrite.
Qed.

(** Changes of the notes and the counters stage no write. *)
Lemma stages_same_txn t t' : txn t' = txn t → stages t t' [].
Proof.
  intros E. constructor; unfold ttracked; rewrite ?E, ?app_nil_r; try done.
  intros w []%elem_of_nil.
Qed.

(** ** The store operations *)

Lemma t_get_Ok k t r : t_get k t = Ok r → r = (tview t !! k, t).
Proof.
  unfold t_get. intros H. inv_m. apply lift_Ok in E. apply get_law in E. by subst.
Qed.

Lemma t_put_Ok k v t r :
  t_put k v t = Ok r → stages t r.2 [WPut k v] ∧ notes r.2 = notes t ∧ tstats r.2 = tstats t
  ∧ ttracked r.2 = {[k]} ∪ ttracked t.
Proof.
  unfold t_put, t_upd. intros H. inv_m. apply lift_Ok in E. apply put_law in E as (?&?&Ht).
  split; [|done]. constructor; cbn; [done|done|unfold ttracked; cbn; set_solver|].
  intros w ->%list_elem_of_singleton. unfold ttracked. cbn. set_solver.
Qed.

Lemma t_delete_Ok k t r :
  t_delete k t = Ok r → stages t r.2 [WDelete k] ∧ notes r.2 = notes t ∧ tstats r.2 = tstats t
  ∧ ttracked r.2 = {[k]} ∪ ttracked t.
Proof.
  unfold t_delete, t_upd. intros H. inv_m. apply lift_Ok in E.
  apply delete_law in E as (?&?&Ht).
  split; [|done]. constructor; cbn; [done|done|unfold ttracked; cbn; set_solver|].
  intros w ->%list_elem_of_singleton. unfold ttracked. cbn. set_solver.
Qed.

Lemma t_mark_read_Ok ks t r :
  t_mark_read ks t = Ok r → stages t r.2 [] ∧ notes r.2 = notes t ∧ tstats r.2 = tstats t
  ∧ ttracked r.2 = list_to_set ks ∪ ttracked t.
Proof.
  unfold t_mark_read, t_upd. intros H. inv_m. apply lift_Ok in E.
  apply mark_read_law in E as (?&?&Ht).
  split; [|done]. constructor; cbn; [done|by rewrite app_nil_r|unfold ttracked; cbn; set_solver|].
  intros w []%elem_of_nil.
Qed.

Lemma t_append_attempt_Ok i e t r :
  t_append_attempt i e t = Ok r →
  stages t r.2 [WMerge (attempt_history_key i) (encode e)] ∧ notes r.2 = notes t
  ∧ tstats r.2 = tstats t.
Proof.
  unfold t_append_attempt, append_attempt. intros H. inv_m. apply lift_Ok in E.
  apply merge_law in E as (?&?&Ht).
  split; [|done]. constructor; cbn; [done|done|unfold ttracked; cbn; set_solver|].
  intros w ->%list_elem_of_singleton. unfold ttracked. cbn. set_solver.
Qed.

Lemma map_notes_Ok f t r :
  map_notes f t = Ok r → stages t r.2 [] ∧ tstats r.2 = tstats t.
Proof. unfold map_notes. intros H. inv_m. split; [by apply stages_same_txn|done]. Qed.

(** ** The job operations *)

Definition put_writes (key : bytes) (j : JobRecord) : list write :=
  [WPut key (stored_bytes j); WPut (job_index_key (id j)) key].

Ltac staged_step :=
  match goal with
  | H : t_get _ _ = Ok _ |- _ => apply t_get_Ok in H; simplify_eq/=
  | H : t_put _ _ _ = Ok _ |- _ => apply t_put_Ok in H as (? & _ & ? & _)
  | H : t_delete _ _ = Ok _ |- _ => apply t_delete_Ok in H as (? & _ & ? & _)
  | H : t_mark_read _ _ = Ok _ |- _ => apply t_mark_read_Ok in H as (? & _ & ? & ?)
  | H : t_append_attempt _ _ _ = Ok _ |- _ => apply t_append_attempt_Ok in H as (? & _ & ?)
  | H : map_notes _ _ = Ok _ |- _ => apply map_notes_Ok in H as (? & ?)
  end; cbn [snd] in *.

(** Chains the [stages] facts of consecutive steps. *)
Ltac staged_chain :=
  first [eassumption | eapply stages_trans; [eassumption | staged_chain]].
Ltac staged :=
  first
  [ eassumption
  | eapply stages_eq; [staged_chain | cbn; rewrite ?app_nil_r; reflexivity]
  | apply stages_refl ].

Lemma put_job_Ok key j t r :
  put_job key j t = Ok r → stages t r.2 (put_writes key j) ∧ tstats r.2 = tstats t.
Proof.
  unfold put_job, note_written. intros H. inv_m. repeat staged_step.
  split; [unfold put_writes; staged|congruence].
Qed.

Lemma count_move_Ok q from to t r :
  count_move q from to t = Ok r →
  stages t r.2 [] ∧ tstats r.2 = count_move_stats q from to (tstats t).
Proof. unfold count_move. intros H. inv_m. split; [by apply stages_same_txn|done]. Qed.

Lemma insert_job_Ok j t r :
  insert_job j t = Ok r → ∃ key,
    stored_key j = Ok key ∧ stages t r.2 (put_writes key j) ∧
    tstats r.2 = count_move_stats (queue j) None (Some (status j)) (tstats t).
Proof.
  unfold insert_job. intros H. inv_m. apply put_job_Ok in E0 as [? ?].
  apply count_move_Ok in E1 as [? Hc]. repeat staged_step.
  eexists. split; [done|]. split; [|congruence].
  unfold put_writes in *. staged.
Qed.

Definition move_writes (from key : bytes) (j : JobRecord) : list write :=
  if decide (from = key) then [WPut key (stored_bytes j)]
  else WDelete from :: put_writes key j.

Lemma move_job_Ok from j t j' t' :
  move_job from j t = Ok (j', t') → ∃ key,
    j' = leave_waits j ∧ stored_key j' = Ok key ∧ stages t t' (move_writes from key j') ∧
    (from = key ∧ tstats t' = tstats t ∨
     from ≠ key ∧ ∃ s, key_status from = Ok s ∧
       tstats t' = count_move_stats (queue j') (Some s) (Some (status j')) (tstats t)).
Proof.
  unfold move_job. intros H.
  apply M_bind_Ok in H as (key & ? & (? & Hkey & [= <- <-])%of_result_Ok & H).
  unfold move_writes. case_decide as D.
  - unfold note_written in H. inv_m. repeat staged_step. eexists. split; [done|]. split; [done|].
    rewrite decide_True by done. split; [staged|]. left. split; [done|congruence].
  - inv_m. apply put_job_Ok in E0 as [? ?]. repeat staged_step.
    apply count_move_Ok in E2 as [? Hc]. cbn [snd] in *.
    eexists. split; [done|]. split; [done|]. rewrite decide_False by done.
    split; [unfold put_writes in *; staged|]. right. split; [done|].
    eexists. split; [done|]. rewrite Hc. f_equal. congruence.
Qed.

Definition release_writes (q : QueueName) (dk : option string) : list write :=
  match dk with Some dk => [WDelete (dedup_index_key q dk)] | None => [] end.

Definition remove_writes (key : bytes) (j : JobRecord) : list write :=
  WDelete key :: WDelete (job_index_key (id j)) :: WDelete (attempt_history_key (id j))
    :: release_writes (queue j) (dedup_key j).

Definition completed_count (j : JobRecord) : option JobStatus :=
  if decide (status j = Done) then Some Done else None.

Lemma release_Ok q dk t r :
  match dk with Some dk => t_delete (dedup_index_key q dk) | None => mret tt end t = Ok r →
  stages t r.2 (release_writes q dk) ∧ tstats r.2 = tstats t.
Proof.
  destruct dk as [dk|]; cbn.
  - intros H. staged_step. split; [staged|done].
  - intros H. inv_m. split; [apply stages_refl|done].
Qed.

Lemma stage_remove_Ok key j t r :
  stage_remove key j t = Ok r → ∃ s,
    key_status key = Ok s ∧ stages t r.2 (remove_writes key j) ∧
    tstats r.2 = count_move_stats (queue j) (Some s) (completed_count j) (tstats t).
Proof.
  unfold stage_remove. intros H. inv_m. apply release_Ok in E2 as [? ?].
  repeat staged_step. apply count_move_Ok in H as [? Hc]. cbn [snd] in *.
  eexists. split; [done|]. split.
  - unfold remove_writes. staged.
  - unfold completed_count. rewrite Hc. f_equal. congruence.
Qed.

Lemma get_indexed_job_Ok t jid r :
  get_indexed_job (txn t) jid = Ok r →
  match r with
  | Some (ik, ck, j) =>
      ik = job_index_key jid ∧ tview t !! job_index_key jid = Some ck ∧
      ∃ b, tview t !! ck = Some b ∧ decode_job ck b = Ok j
  | None =>
      tview t !! job_index_key jid = None ∨
      ∃ ck, tview t !! job_index_key jid = Some ck ∧ tview t !! ck = None
  end.
Proof.
  unfold get_indexed_job. intros H. apply bind_Ok in H as ([ck|] & E & H).
  - apply lift_Ok, get_law in E. apply bind_Ok in H as ([b|] & E' & H).
    + apply lift_Ok, get_law in E'. apply bind_Ok in H as (j & Ej & [= <-]).
      unfold tview, view. by rewrite <- E, <- E'; eauto 10.
    + apply lift_Ok, get_law in E'. injection H as <-. right. exists ck. done.
  - apply lift_Ok, get_law in E. injection H as <-. by left.
Qed.

Lemma read_claim_Ok registry q jid cid t key j t' :
  read_claim registry q jid cid t = Ok ((key, j), t') →
  key = claimed_key q jid ∧ (∃ e, lease_current q jid registry = Some (e, cid)) ∧
  (∃ b, tview t !! key = Some b ∧ decode_job key b = Ok j) ∧
  stages t t' [] ∧ key ∈ ttracked t' ∧ tstats t' = tstats t.
Proof.
  unfold read_claim. intros H. destruct (lease_current q jid registry) as [[e c]|] eqn:L;
    [|inv_m]. case_decide as D; [|inv_m]. subst c. inv_m. repeat staged_step.
  destruct (tview _ !! claimed_key q jid) as [b|] eqn:Eb; [|inv_m]. inv_m.
  match goal with H : stages t _ _ |- _ => rename H into HS end.
  rewrite (stages_tview _ _ _ HS) in Eb. cbn in Eb.
  split; [done|]. split; [by eexists|]. split; [by eauto|]. split; [done|].
  split; [|done]. match goal with H : ttracked _ = _ |- _ => rewrite H end. set_solver.
Qed.

Lemma take_claim_Ok registry q jid cid t j t' :
  take_claim registry q jid cid t = Ok (j, t') →
  (∃ e, lease_current q jid registry = Some (e, cid)) ∧
  (∃ b, tview t !! claimed_key q jid = Some b ∧ decode_job (claimed_key q jid) b = Ok j) ∧
  stages t t' [WDelete (claimed_key q jid)] ∧ tstats t' = tstats t.
Proof.
  unfold take_claim. intros H. apply M_bind_Ok in H as ([key j1] & t1 & E & H). inv_m.
  apply read_claim_Ok in E as (-> & ? & ? & ? & ? & ?). staged_step.
  split; [done|]. split; [done|]. split; [staged|congruence].
Qed.

(** ** The end of a claim *)

(** The record a claim end writes, or drops when a done record is not kept. *)
Definition claim_end_record (e : ClaimEnd) (now : Z) (j : JobRecord) : JobRecord :=
  match e with
  | EndDone keep =>
      let j := set_completed_at (Some now) (set_status Done j) in
      if keep then leave_waits j else j
  | EndRetry at' _ err =>
      let j := set_claimed_at None j in
      let j := match err with Some x => set_last_error (Some x) j | None => j end in
      match at' with
      | None => leave_waits (set_run_at None (set_status Pending j))
      | Some _ => leave_waits (set_run_at at' (set_status Scheduled j))
      end
  | EndDead err =>
      leave_waits (set_failed_at (Some now) (set_last_error (Some err)
        (set_status Dead (set_claimed_at None j))))
  end.

(** The entry a claim end adds to the history. *)
Definition claim_end_attempt (e : ClaimEnd) (now : Z) (j : JobRecord) : JobAttempt :=
  match e with
  | EndDone _ => mkAttempt (attempts j) (claimed_at j) now OCompleted None
  | EndRetry _ o err => mkAttempt (attempts j) (claimed_at j) now o err
  | EndDead err => mkAttempt (attempts j) (claimed_at j) now ODeadLettered (Some err)
  end.

Lemma claim_end_record_fields e now j :
  id (claim_end_record e now j) = id j ∧ queue (claim_end_record e now j) = queue j ∧
  dedup_key (claim_end_record e now j) = dedup_key j ∧
  attempts (claim_end_record e now j) = attempts j ∧
  status (claim_end_record e now j) ≠ Claimed.
Proof.
  destruct e as [[]|[?|] ? [?|]|?]; cbn; unfold leave_waits; cbn; done.
Qed.

Lemma stage_claim_end_Ok j e now t j' t' :
  stage_claim_end j e now t = Ok (j', t') →
  j' = claim_end_record e now j ∧
  let from := claimed_key (queue j) (id j) in
  if decide (e = EndDone false) then
    stages t t' (remove_writes from j') ∧
    tstats t' = count_move_stats (queue j) (Some Claimed) (Some Done) (tstats t)
  else ∃ key,
    stored_key j' = Ok key ∧ from ≠ key ∧
    stages t t' (WMerge (attempt_history_key (id j)) (encode (claim_end_attempt e now j))
                   :: WDelete from :: put_writes key j') ∧
    tstats t' = count_move_stats (queue j) (Some Claimed) (Some (status j')) (tstats t).
Proof.
  assert (Hmove : ∀ (j1 : JobRecord) t1 jr tr,
    id j1 = id j → queue j1 = queue j → status j1 ≠ Claimed →
    move_job (claimed_key (queue j) (id j)) j1 t1 = Ok (jr, tr) → ∃ key,
      jr = leave_waits j1 ∧ stored_key jr = Ok key ∧ claimed_key (queue j) (id j) ≠ key ∧
      stages t1 tr (WDelete (claimed_key (queue j) (id j)) :: put_writes key jr) ∧
      tstats tr = count_move_stats (queue j) (Some Claimed) (Some (status jr)) (tstats t1)).
  { intros j1 t1 jr tr Hi Hq Hs H. apply move_job_Ok in H as (key & -> & Hk & Hst & H).
    exists key. split; [done|]. split; [done|].
    assert (Hls : status (leave_waits j1) = status j1) by (unfold leave_waits; by case_decide).
    assert (Hlq : queue (leave_waits j1) = queue j1) by (unfold leave_waits; by case_decide).
    assert (Hne : claimed_key (queue j) (id j) ≠ key).
    { intros <-. apply tag_of_stored_key in Hk. autorewrite with key_tags in Hk.
      injection Hk as Hk. congruence. }
    split; [done|]. unfold move_writes in Hst. rewrite decide_False in Hst by done.
    split; [done|]. destruct H as [[? _]|(_ & s & Hs' & ->)]; [done|].
    rewrite Hlq, Hq. unfold key_status in Hs'. autorewrite with key_tags in Hs'.
    by injection Hs' as <-. }
  unfold stage_claim_end, stage_to_pending, stage_dead_letter. intros H.
  destruct e as [[]|at' o err|err]; cbn beta iota zeta in H.
  - rewrite decide_False by done. inv_m. staged_step.
    apply Hmove in H as (key & -> & ? & ? & ? & ?); [|done..].
    split; [done|]. exists key. split; [done|]. split; [done|]. split; [staged|congruence].
  - rewrite decide_True by done. inv_m. apply stage_remove_Ok in E as (s & Hs & ? & ?).
    split; [done|]. cbn [snd] in *. split; [staged|].
    unfold key_status in Hs. autorewrite with key_tags in Hs. injection Hs as <-. done.
  - rewrite decide_False by done. inv_m. staged_step. destruct at' as [at'|].
    all: apply Hmove in H as (key & -> & ? & ? & ? & ?); [|by destruct err..].
    all: split; [by destruct err|]; exists key.
    all: split; [done|]; split; [done|]; split; [destruct err; staged|congruence].
  - rewrite decide_False by done. inv_m. staged_step.
    apply Hmove in H as (key & -> & ? & ? & ? & ?); [|done..].
    split; [done|]. exists key. split; [done|]. split; [done|]. split; [staged|congruence].
Qed.

End stage.
