(* ===== verification/StoreInv.v ===== *)
(** * The store invariant

    What every committed store satisfies: a job has one record, at the key its
    state determines; its index entry points to it; a dedup entry belongs to a
    pending or scheduled job with that dedup key; a job without a record has no
    history; and the fields of a record fit its state. The transitions of the
    program are changes of the store map, and each preserves the invariant. *)
From S2P Require Import Prelude Bytes Error Keys Job Store Stats Txn.

(** The fields of a record in each state. *)
Definition job_ok (j : JobRecord) : Prop :=
  match status j with
  | Pending => run_at j = None ∧ claimed_at j = None ∧ completed_at j = None ∧ failed_at j = None
  | Scheduled =>
      is_Some (run_at j) ∧ claimed_at j = None ∧ completed_at j = None ∧ failed_at j = None
  | Claimed => is_Some (claimed_at j) ∧ completed_at j = None ∧ failed_at j = None
  | Done => is_Some (claimed_at j) ∧ is_Some (completed_at j) ∧ failed_at j = None
  | Dead =>
      claimed_at j = None ∧ completed_at j = None ∧ is_Some (failed_at j) ∧ is_Some (last_error j)
  end ∧
  (status j ≠ Scheduled → signal_wait j = false ∧ count_wait j = None) ∧
  (is_Some (dedup_key j) → status j = Pending ∨ status j = Scheduled).

Lemma job_ok_stored_key j : job_ok j → is_Some (ok (stored_key j)).
Proof.
  unfold job_ok, stored_key. intros [H _]. destruct (status j); try by eexists.
  - destruct H as [[r ->] _]. by eexists.
  - destruct H as (_ & [r ->] & _). by eexists.
Qed.

(** The state of the key space a key lies in. *)
Definition record_status (k : bytes) : option JobStatus := t ← tag_of k; tag_job_status t.

(** A stored key determines the id, the queue and the state of its record. *)
Lemma stored_key_inj j j' k :
  stored_key j = Ok k → stored_key j' = Ok k → id j = id j' ∧ queue j = queue j' ∧ status j = status j'.
Proof.
  assert (Hbe : ∀ n x y (a b : bytes), be_bytes n x ++ a = be_bytes n y ++ b → a = b).
  { intros n x y a b E. apply app_inj_1 in E as [_ E]; [done|by rewrite !length_be_bytes]. }
  unfold stored_key. destruct (status j) eqn:Sj, (status j') eqn:Sj'; intros H H';
    try (apply bind_Ok in H as (? & _ & H)); try (apply bind_Ok in H' as (? & _ & H'));
    apply Ok_inj in H as <-; apply Ok_inj in H' as K.
  all: try (exfalso; revert K; key_ne).
  all: unfold pending_key, claimed_key, dead_key, scheduled_key, done_key, time_first_key,
         queue_first_key in K.
  all: apply header_app_inj in K as [_ K].
  all: try (apply Hbe in K).
  all: apply push_queue_app_inj in K as [-> K].
  all: try (do 2 apply Hbe in K).
  all: by apply as_bytes_inj in K as ->.
Qed.

Section inv.
  Context {SR : Serde JobRecord}.
  Implicit Types (m : gmap bytes bytes) (j : JobRecord) (k : bytes).

(** The record at a key. *)
Definition job_at m k : option JobRecord := b ← m !! k; ok (decode_job k b).

(** The record of an id. *)
Definition lookup_job m (i : string) : option (bytes * JobRecord) :=
  k ← m !! job_index_key i; j ← job_at m k; Some (k, j).

Record store_ok m : Prop := {
  ok_record k b : m !! k = Some b → is_Some (record_status k) → ∃ j,
    decode_job k b = Ok j ∧ stored_key j = Ok k ∧ job_ok j ∧
    m !! job_index_key (id j) = Some k ∧
    ∀ dk, dedup_key j = Some dk → m !! dedup_index_key (queue j) dk = Some (as_bytes (id j));
  ok_index i k : m !! job_index_key i = Some k → ∃ j, job_at m k = Some j ∧ id j = i;
  ok_dedup q dk b : m !! dedup_index_key q dk = Some b → ∃ i k j,
    b = as_bytes i ∧ lookup_job m i = Some (k, j) ∧ queue j = q ∧ dedup_key j = Some dk;
  ok_history i b : m !! attempt_history_key i = Some b → is_Some (m !! job_index_key i);
}.

Lemma store_ok_empty : store_ok ∅.
Proof. constructor; intros *; rewrite lookup_empty; done. Qed.

(** ** Reading records *)

Lemma decode_job_status k b j : decode_job k b = Ok j → record_status k = Some (status j).
Proof.
  unfold decode_job, record_status. intros H. apply bind_Ok in H as (s & Hs & H).
  apply bind_Ok in H as (j' & _ & [= <-]). destruct (t ← tag_of k; tag_job_status t); [|done].
  by injection Hs as ->.
Qed.

Lemma job_at_Some m k j : job_at m k = Some j ↔ ∃ b, m !! k = Some b ∧ decode_job k b = Ok j.
Proof.
  unfold job_at. rewrite bind_Some. split.
  - intros (b & ? & H). exists b. split; [done|].
    destruct (decode_job k b); [by injection H as ->|done].
  - intros (b & ? & H). exists b. by rewrite H.
Qed.

Lemma job_at_insert m k b j : decode_job k b = Ok j → job_at (<[k := b]> m) k = Some j.
Proof. intros H. unfold job_at. rewrite lookup_insert_eq. cbn. by rewrite H. Qed.

Lemma job_at_ext m m' k : m !! k = m' !! k → job_at m k = job_at m' k.
Proof. unfold job_at. by intros ->. Qed.

Lemma lookup_job_Some m i k j :
  lookup_job m i = Some (k, j) ↔ m !! job_index_key i = Some k ∧ job_at m k = Some j.
Proof.
  unfold lookup_job. destruct (m !! job_index_key i) as [k'|]; cbn; [|by split; [|intros []]].
  destruct (job_at m k') as [j'|] eqn:E; cbn; split.
  - intros [= -> ->]. done.
  - by intros [[= ->] [= ->]%(eq_trans (eq_sym E))].
  - done.
  - by intros [[= ->] ?%(eq_trans (eq_sym E))].
Qed.

(** What the invariant says of the record at a key. *)
Lemma store_ok_job m k j :
  store_ok m → job_at m k = Some j →
  stored_key j = Ok k ∧ job_ok j ∧ m !! job_index_key (id j) = Some k ∧
  ∀ dk, dedup_key j = Some dk → m !! dedup_index_key (queue j) dk = Some (as_bytes (id j)).
Proof.
  intros Hok (b & Hb & Hj)%job_at_Some.
  destruct (ok_record _ Hok k b Hb) as (j' & Hj' & ?).
  - eexists. by apply decode_job_status in Hj.
  - rewrite Hj in Hj'. injection Hj' as <-. done.
Qed.

(** Every record key holds a record. *)
Lemma store_ok_job_at m k b :
  store_ok m → m !! k = Some b → is_Some (record_status k) → is_Some (job_at m k).
Proof.
  intros Hok Hb Hk. destruct (ok_record _ Hok k b Hb Hk) as (j & Hj & _).
  exists j. apply job_at_Some. eauto.
Qed.

(** Two records of the same id are the same record. *)
Lemma store_ok_unique m k k' j j' :
  store_ok m → job_at m k = Some j → job_at m k' = Some j' → id j = id j' → k = k' ∧ j = j'.
Proof.
  intros Hok Hj Hj' Hid.
  destruct (store_ok_job _ _ _ Hok Hj) as (_ & _ & Hi & _).
  destruct (store_ok_job _ _ _ Hok Hj') as (_ & _ & Hi' & _).
  rewrite Hid, Hi' in Hi. injection Hi as ->. split; [done|]. congruence.
Qed.

Lemma record_status_index i : record_status (job_index_key i) = None.
Proof. done. Qed.
Lemma record_status_dedup q dk : record_status (dedup_index_key q dk) = None.
Proof. done. Qed.
Lemma record_status_history i : record_status (attempt_history_key i) = None.
Proof. done. Qed.
Lemma record_status_stored j k : stored_key j = Ok k → record_status k = Some (status j).
Proof. apply tag_of_stored_key. Qed.

Lemma stored_key_record j k : stored_key j = Ok k → is_Some (record_status k).
Proof. intros H. rewrite (record_status_stored _ _ H). by eexists. Qed.

(** A record key is in none of the other spaces. *)
Lemma record_key_ne k k' :
  is_Some (record_status k) → record_status k' = None → k ≠ k'.
Proof. intros [s Hs] H ->. congruence. Qed.

(** ** Transitions of the store

    The three ways the program changes the record of a job: it puts a record at
    its key with its index entry, with or without the deletion of the record it
    had, or it removes the job. *)
Definition put_map (key : bytes) j m : gmap bytes bytes :=
  <[job_index_key (id j) := key]> (<[key := stored_bytes j]> m).

Definition release_map (q : QueueName) (dk : option string) m : gmap bytes bytes :=
  match dk with Some dk => delete (dedup_index_key q dk) m | None => m end.

Definition reserve_map (q : QueueName) (dk : option string) (i : string) m : gmap bytes bytes :=
  match dk with Some dk => <[dedup_index_key q dk := as_bytes i]> m | None => m end.

Definition remove_map (key : bytes) j m : gmap bytes bytes :=
  release_map (queue j) (dedup_key j)
    (delete (attempt_history_key (id j)) (delete (job_index_key (id j)) (delete key m))).

Lemma release_map_ne q dk m k :
  (∀ x, dk = Some x → k ≠ dedup_index_key q x) → release_map q dk m !! k = m !! k.
Proof. destruct dk as [x|]; cbn; [|done]. intros H. apply lookup_delete_ne. intros E. by apply (H x). Qed.

Lemma reserve_map_ne q dk i m k :
  (∀ x, dk = Some x → k ≠ dedup_index_key q x) → reserve_map q dk i m !! k = m !! k.
Proof. destruct dk as [x|]; cbn; [|done]. intros H. apply lookup_insert_ne. intros E. by apply (H x). Qed.

Lemma release_map_Some q dk m k b :
  release_map q dk m !! k = Some b →
  m !! k = Some b ∧ ∀ x, dk = Some x → k ≠ dedup_index_key q x.
Proof.
  destruct dk as [x|]; cbn; [|by intros ->]. rewrite lookup_delete_Some. intros [? ?]. split; [done|]. by intros y [= <-].
Qed.

Lemma put_map_ne key j m k :
  k ≠ key → k ≠ job_index_key (id j) → put_map key j m !! k = m !! k.
Proof. intros. unfold put_map. by rewrite !lookup_insert_ne by congruence. Qed.

Lemma put_map_index key j m : put_map key j m !! job_index_key (id j) = Some key.
Proof. apply lookup_insert_eq. Qed.

Lemma put_map_key key j m :
  is_Some (record_status key) → put_map key j m !! key = Some (stored_bytes j).
Proof.
  intros Hk. unfold put_map. rewrite lookup_insert_ne; [by rewrite lookup_insert_eq|].
  intros E. apply (record_key_ne _ (job_index_key (id j)) Hk); done.
Qed.

Lemma job_at_release q dk m k : job_at (release_map q dk m) k = job_at m k.
Proof.
  destruct dk as [x|]; cbn; [|done]. unfold job_at.
  destruct (decide (k = dedup_index_key q x)) as [->|]; [|by rewrite lookup_delete_ne].
  rewrite lookup_delete_eq. cbn. by destruct (m !! _).
Qed.

Lemma job_at_reserve q dk i m k : job_at (reserve_map q dk i m) k = job_at m k.
Proof.
  destruct dk as [x|]; cbn; [|done]. unfold job_at.
  destruct (decide (k = dedup_index_key q x)) as [->|]; [|by rewrite lookup_insert_ne].
  rewrite lookup_insert_eq. cbn. by destruct (m !! _).
Qed.

Lemma job_at_put key j m k :
  stored_key j = Ok key →
  job_at (put_map key j m) k = if decide (k = key) then Some (stored_clone j) else job_at m k.
Proof.
  intros Hkey. case_decide as D; [subst k|].
  - apply job_at_Some. exists (stored_bytes j). split.
    + apply put_map_key. by eapply stored_key_record.
    + by apply decode_stored.
  - unfold job_at. destruct (decide (k = job_index_key (id j))) as [->|].
    + rewrite put_map_index. cbn. by destruct (m !! _).
    + by rewrite put_map_ne.
Qed.

Lemma stored_key_clone j : stored_key (stored_clone j) = stored_key j.
Proof. by destruct j as [??? [?|]]. Qed.

(** Fields the stored form keeps. *)
Lemma stored_clone_fields j :
  id (stored_clone j) = id j ∧ queue (stored_clone j) = queue j ∧
  status (stored_clone j) = status j ∧ dedup_key (stored_clone j) = dedup_key j.
Proof. done. Qed.

Lemma job_at_delete m from k : job_at (delete from m) k = if decide (k = from) then None else job_at m k.
Proof.
  unfold job_at. case_decide as D; [subst; by rewrite lookup_delete_eq|by rewrite lookup_delete_ne].
Qed.

(** A record of another id is not at the key of [j], nor at the key of a record
    with the id of [j]. *)
Lemma store_ok_other m k key j j1 :
  store_ok m → stored_key j = Ok key → job_at m k = Some j1 → id j1 ≠ id j → k ≠ key.
Proof.
  intros Hok Hkey Hj1 Hne ->.
  destruct (store_ok_job _ _ _ Hok Hj1) as (Hk1 & _).
  by destruct (stored_key_inj _ _ _ Hk1 Hkey) as [? _].
Qed.

Lemma store_ok_dedup_unique m k k' j j' dk :
  store_ok m → job_at m k = Some j → job_at m k' = Some j' →
  queue j = queue j' → dedup_key j = Some dk → dedup_key j' = Some dk → id j = id j'.
Proof.
  intros Hok Hj Hj' Hq Hd Hd'.
  destruct (store_ok_job _ _ _ Hok Hj) as (_ & _ & _ & D).
  destruct (store_ok_job _ _ _ Hok Hj') as (_ & _ & _ & D').
  specialize (D _ Hd). specialize (D' _ Hd'). rewrite Hq, D' in D.
  injection D as D. by apply as_bytes_inj in D.
Qed.

Definition move_map (from key : bytes) j m : gmap bytes bytes := put_map key j (delete from m).

(** A job that moves keeps its dedup entry or releases it. *)
Definition releases (j j' : JobRecord) (rel : option string) : Prop :=
  dedup_key j' = dedup_key j ∧ rel = None ∨ dedup_key j' = None ∧ rel = dedup_key j.

Section move.
  Context (m : gmap bytes bytes) (from key : bytes) (j j' : JobRecord) (rel : option string).
  Context (Hok : store_ok m) (Hfrom : job_at m from = Some j) (Hid : id j' = id j).
  Context (Hq : queue j' = queue j) (Hkey : stored_key j' = Ok key).
  Context (Hjob : job_ok (stored_clone j')) (Hrel : releases j j' rel).

Let m' := release_map (queue j) rel (move_map from key j' m).

Lemma move_job_at k :
  job_at m' k =
    if decide (k = key) then Some (stored_clone j')
    else if decide (k = from) then None else job_at m k.
Proof using Hkey.
  subst m'. unfold move_map. by rewrite job_at_release, job_at_put, job_at_delete by done.
Qed.

(** A record of another id stays where it is. *)
Lemma move_job_at_other k j1 :
  job_at m k = Some j1 → id j1 ≠ id j → job_at m' k = Some j1.
Proof using Hok Hfrom Hid Hkey.
  intros Hj1 Hne. rewrite move_job_at, decide_False, decide_False; [done|..].
  - intros ->. congruence.
  - eapply store_ok_other; [done|exact Hkey|done|congruence].
Qed.

Lemma move_ne k b :
  m' !! k = Some b → k ≠ key → k ≠ job_index_key (id j') →
  m !! k = Some b ∧ k ≠ from ∧ ∀ x, rel = Some x → k ≠ dedup_index_key (queue j) x.
Proof using Type.
  subst m'. intros [H ?]%release_map_Some ? ?. unfold move_map in H.
  rewrite put_map_ne in H by done. apply lookup_delete_Some in H as [? ?]. done.
Qed.

Lemma move_index i :
  m' !! job_index_key i = if decide (i = id j) then Some key else m !! job_index_key i.
Proof using Hid Hfrom Hok Hkey.
  destruct (store_ok_job _ _ _ Hok Hfrom) as (Hk & _).
  pose proof (stored_key_record _ _ Hk). pose proof (stored_key_record _ _ Hkey).
  subst m'. rewrite release_map_ne by (intros ??; key_ne). unfold move_map.
  case_decide as D; [subst i; rewrite <- Hid; apply put_map_index|].
  rewrite put_map_ne, lookup_delete_ne; [done|by apply record_key_ne|..].
  - intros E. symmetry in E. by apply record_key_ne in E.
  - intros E%(inj job_index_key). congruence.
Qed.

Lemma move_dedup q dk :
  m' !! dedup_index_key q dk =
    if decide (q = queue j ∧ rel = Some dk) then None else m !! dedup_index_key q dk.
Proof using Hid Hfrom Hok Hkey.
  destruct (store_ok_job _ _ _ Hok Hfrom) as (Hk & _).
  pose proof (stored_key_record _ _ Hk). pose proof (stored_key_record _ _ Hkey).
  subst m'. case_decide as D.
  - destruct D as [-> Er]. rewrite Er. apply lookup_delete_eq.
  - rewrite release_map_ne.
    + unfold move_map. rewrite put_map_ne, lookup_delete_ne; [done|by apply record_key_ne|..].
      * intros E. symmetry in E. by apply record_key_ne in E.
      * key_ne.
    + intros x Ex [Eq Ed]%dedup_index_key_inj. apply D. split; congruence.
Qed.

Lemma store_ok_move : store_ok m'.
Proof using All.
  destruct (store_ok_job _ _ _ Hok Hfrom) as (_ & _ & Hidx & Hded).
  constructor.
  - intros k b Hb Hrec. destruct (decide (k = key)) as [->|Hk].
    + exists (stored_clone j'). assert (Hat : job_at m' key = Some (stored_clone j')).
      { by rewrite move_job_at, decide_True. }
      apply job_at_Some in Hat as (b' & Hb' & Hdec). rewrite Hb in Hb'. injection Hb' as <-.
      destruct (stored_clone_fields j') as (Hi & Hqq & Hs & Hd).
      split; [done|]. split; [by rewrite stored_key_clone|]. split; [done|]. split.
      { by rewrite Hi, move_index, decide_True by done. }
      intros dk Hdk. rewrite Hi, Hqq, Hq, Hid, move_dedup. rewrite Hd in Hdk.
      destruct Hrel as [[E ->]|[E _]]; [|congruence].
      rewrite decide_False by (intros [_ ?]; done). apply Hded. congruence.
    + destruct (move_ne _ _ Hb Hk) as (Hb' & Hfr & _).
      { intros ->. destruct Hrec as [? Hrec]. done. }
      destruct (ok_record _ Hok k b Hb' Hrec) as (j1 & Hj1 & Hk1 & Hok1 & Hi1 & Hd1).
      assert (Hne : id j1 ≠ id j).
      { intros E. apply Hfr. eapply store_ok_unique; [done|apply job_at_Some; eauto|done|done]. }
      exists j1. split; [done|]. split; [done|]. split; [done|]. split.
      { by rewrite move_index, decide_False. }
      intros dk Hdk. rewrite move_dedup, decide_False; [by apply Hd1|].
      intros [E1 E2]. apply Hne. destruct Hrel as [[_ ?]|[_ E3]]; [congruence|].
      eapply (store_ok_dedup_unique m k from j1 j dk Hok); [apply job_at_Some; eauto|..]; congruence.
  - intros i k. rewrite move_index. case_decide as D.
    + intros [= <-]. exists (stored_clone j'). rewrite move_job_at, decide_True by done.
      split; [done|]. cbn. congruence.
    + intros (j1 & Hj1 & Hi1)%(ok_index _ Hok). exists j1.
      split; [|done]. apply move_job_at_other; [done|congruence].
  - intros q dk b. rewrite move_dedup. case_decide as D; [done|].
    intros (i & k & j1 & -> & [Hi Hj1]%lookup_job_Some & <- & Hdk)%(ok_dedup _ Hok).
    exists i. destruct (decide (i = id j)) as [->|Hne].
    + assert (k = from) as -> by congruence. assert (j1 = j) as -> by congruence.
      exists key, (stored_clone j'). split; [done|]. rewrite lookup_job_Some, move_index.
      rewrite decide_True, move_job_at, decide_True by done.
      split; [done|]. split; [done|]. cbn. destruct Hrel as [[? _]|[_ ?]]; [congruence|].
      exfalso. apply D. split; congruence.
    + exists k, j1. split; [done|]. rewrite lookup_job_Some, move_index, decide_False by done.
      split; [|done]. split; [done|]. apply move_job_at_other; [done|].
      destruct (ok_index _ Hok _ _ Hi) as (j2 & ? & ?). congruence.
  - intros i b Hb. rewrite move_index. case_decide; [done|].
    apply move_ne in Hb as (Hb & _).
    + by eapply ok_history.
    + intros <-. apply stored_key_record in Hkey as [? ?]. done.
    + key_ne.
Qed.

End move.

Section insert.
  Context (m : gmap bytes bytes) (key : bytes) (j : JobRecord).
  Context (Hok : store_ok m) (Hnew : m !! job_index_key (id j) = None).
  Context (Hded : ∀ dk, dedup_key j = Some dk → m !! dedup_index_key (queue j) dk = None).
  Context (Hkey : stored_key j = Ok key) (Hjob : job_ok (stored_clone j)).

Let m' := reserve_map (queue j) (dedup_key j) (id j) (put_map key j m).

Lemma insert_job_at k :
  job_at m' k = if decide (k = key) then Some (stored_clone j) else job_at m k.
Proof using Hkey. subst m'. by rewrite job_at_reserve, job_at_put. Qed.

Lemma insert_other k j1 : job_at m k = Some j1 → id j1 ≠ id j.
Proof using Hok Hnew.
  intros Hj1 E. destruct (store_ok_job _ _ _ Hok Hj1) as (_ & _ & Hi & _). congruence.
Qed.

Lemma insert_job_at_other k j1 : job_at m k = Some j1 → job_at m' k = Some j1.
Proof using Hok Hnew Hkey.
  intros Hj1. rewrite insert_job_at, decide_False; [done|].
  eapply store_ok_other; [done|exact Hkey|done|by eapply insert_other].
Qed.

Lemma insert_index i :
  m' !! job_index_key i = if decide (i = id j) then Some key else m !! job_index_key i.
Proof using Hkey.
  pose proof (stored_key_record _ _ Hkey).
  subst m'. rewrite reserve_map_ne by (intros ??; key_ne).
  case_decide as D; [subst i; apply put_map_index|].
  apply put_map_ne; [|by intros E%(inj job_index_key)].
  intros E. symmetry in E. by apply record_key_ne in E.
Qed.

Lemma insert_dedup q dk :
  m' !! dedup_index_key q dk =
    if decide (q = queue j ∧ dedup_key j = Some dk) then Some (as_bytes (id j))
    else m !! dedup_index_key q dk.
Proof using Hkey.
  pose proof (stored_key_record _ _ Hkey). subst m'. case_decide as D.
  - destruct D as [-> Er]. rewrite Er. apply lookup_insert_eq.
  - rewrite reserve_map_ne.
    + apply put_map_ne; [|key_ne]. intros E. symmetry in E. by apply record_key_ne in E.
    + intros x Ex [Eq Ed]%dedup_index_key_inj. apply D. split; congruence.
Qed.

Lemma store_ok_insert : store_ok m'.
Proof using All.
  constructor.
  - intros k b Hb Hrec. destruct (decide (k = key)) as [->|Hk].
    + exists (stored_clone j). assert (Hat : job_at m' key = Some (stored_clone j)).
      { by rewrite insert_job_at, decide_True. }
      apply job_at_Some in Hat as (b' & Hb' & Hdec). rewrite Hb in Hb'. injection Hb' as <-.
      split; [done|]. split; [by rewrite stored_key_clone|]. split; [done|].
      destruct (stored_clone_fields j) as (-> & -> & _ & ->). split.
      { by rewrite insert_index, decide_True by done. }
      intros dk Hdk. by rewrite insert_dedup, decide_True by done.
    + assert (Hb' : m !! k = Some b).
      { subst m'. revert Hb. rewrite reserve_map_ne, put_map_ne; [done|done|..].
        - intros ->. by destruct Hrec.
        - intros x _ ->. by destruct Hrec. }
      destruct (ok_record _ Hok k b Hb' Hrec) as (j1 & Hj1 & Hk1 & Hok1 & Hi1 & Hd1).
      assert (id j1 ≠ id j) by (eapply insert_other, job_at_Some; eauto).
      exists j1. split; [done|]. split; [done|]. split; [done|]. split.
      { by rewrite insert_index, decide_False. }
      intros dk Hdk. rewrite insert_dedup, decide_False; [by apply Hd1|].
      intros [Eq Ed]. specialize (Hd1 _ Hdk). rewrite Eq, (Hded _ Ed) in Hd1. done.
  - intros i k. rewrite insert_index. case_decide as D.
    + intros [= <-]. exists (stored_clone j). rewrite insert_job_at, decide_True by done. done.
    + intros (j1 & Hj1 & Hi1)%(ok_index _ Hok). exists j1.
      split; [|done]. by apply insert_job_at_other.
  - intros q dk b. rewrite insert_dedup. case_decide as D.
    + destruct D as [-> Ed]. intros [= <-]. exists (id j), key, (stored_clone j).
      rewrite lookup_job_Some, insert_index, insert_job_at, !decide_True by done. done.
    + intros (i & k & j1 & -> & [Hi Hj1]%lookup_job_Some & <- & Hdk)%(ok_dedup _ Hok).
      exists i, k, j1. split; [done|]. split; [|done]. apply lookup_job_Some. split.
      * rewrite insert_index, decide_False; [done|congruence].
      * by apply insert_job_at_other.
  - intros i b Hb. rewrite insert_index. case_decide; [done|].
    subst m'. rewrite reserve_map_ne, put_map_ne in Hb.
    + by eapply ok_history.
    + intros <-. apply stored_key_record in Hkey as [? ?]. done.
    + key_ne.
    + intros x _. key_ne.
Qed.

End insert.

Section remove.
  Context (m : gmap bytes bytes) (key : bytes) (j j0 : JobRecord).
  Context (Hok : store_ok m) (Hat : job_at m key = Some j0).
  Context (Hid : id j = id j0) (Hq : queue j = queue j0) (Hd : dedup_key j = dedup_key j0).

Let m' := remove_map key j m.

Lemma remove_job_at k : job_at m' k = if decide (k = key) then None else job_at m k.
Proof using Hat.
  subst m'. unfold remove_map. rewrite job_at_release, !job_at_delete.
  repeat case_decide; subst; try done.
  - unfold job_at. by destruct (m !! _).
  - unfold job_at. by destruct (m !! _).
Qed.

Lemma remove_lookup k :
  is_Some (record_status k) ∨ (∀ i, k ≠ attempt_history_key i) →
  k ≠ key → k ≠ job_index_key (id j) → (∀ dk, k ≠ dedup_index_key (queue j) dk) →
  m' !! k = m !! k.
Proof using Hat.
  intros Hk ? ? ?. subst m'. unfold remove_map. rewrite release_map_ne by (intros; done).
  rewrite !lookup_delete_ne; [done|congruence|congruence|].
  intros <-. destruct Hk as [[? Hk]|Hk]; [done|by eapply Hk].
Qed.

Lemma remove_index i :
  m' !! job_index_key i = if decide (i = id j) then None else m !! job_index_key i.
Proof using Hat Hok.
  destruct (store_ok_job _ _ _ Hok Hat) as (Hk & _). pose proof (stored_key_record _ _ Hk).
  case_decide as D; [subst i; subst m'; unfold remove_map|].
  - rewrite release_map_ne by (intros; key_ne). rewrite lookup_delete_ne by key_ne.
    apply lookup_delete_eq.
  - apply remove_lookup.
    + right. intros i'. key_ne.
    + intros E. symmetry in E. by apply record_key_ne in E.
    + by intros E%(inj job_index_key).
    + intros dk. key_ne.
Qed.

Lemma remove_dedup q dk :
  m' !! dedup_index_key q dk =
    if decide (q = queue j ∧ dedup_key j = Some dk) then None else m !! dedup_index_key q dk.
Proof using Hat Hok.
  destruct (store_ok_job _ _ _ Hok Hat) as (Hk & _). pose proof (stored_key_record _ _ Hk).
  subst m'. unfold remove_map. case_decide as D.
  - destruct D as [-> ->]. apply lookup_delete_eq.
  - rewrite release_map_ne.
    + rewrite !lookup_delete_ne; [done|by apply record_key_ne|key_ne|key_ne].
    + intros x Ex [Eq Ed]%dedup_index_key_inj. apply D. split; congruence.
Qed.

Lemma remove_job_at_other k j1 :
  job_at m k = Some j1 → id j1 ≠ id j → job_at m' k = Some j1.
Proof using Hat Hid.
  intros Hj1 Hne. rewrite remove_job_at, decide_False; [done|]. intros ->. congruence.
Qed.

Lemma store_ok_remove : store_ok m'.
Proof using All.
  destruct (store_ok_job _ _ _ Hok Hat) as (Hk & _ & Hidx & _).
  constructor.
  - intros k b Hb Hrec. destruct (decide (k = key)) as [->|Hne].
    { assert (H : job_at m' key = None) by (by rewrite remove_job_at, decide_True).
      subst m'. unfold remove_map in Hb. apply release_map_Some in Hb as [Hb _].
      rewrite !lookup_delete_Some in Hb. by destruct Hb as (_ & _ & [] & _). }
    assert (Hb' : m !! k = Some b).
    { rewrite <- Hb. symmetry. apply remove_lookup; [by left|done|..].
      - intros ->. by destruct Hrec.
      - intros dk ->. by destruct Hrec. }
    destruct (ok_record _ Hok k b Hb' Hrec) as (j1 & Hj1 & Hk1 & Hok1 & Hi1 & Hd1).
    assert (Hj1' : job_at m k = Some j1) by (apply job_at_Some; eauto).
    assert (id j1 ≠ id j).
    { intros E. apply Hne. eapply store_ok_unique; [done|done|done|congruence]. }
    exists j1. split; [done|]. split; [done|]. split; [done|]. split.
    { by rewrite remove_index, decide_False. }
    intros dk Hdk. rewrite remove_dedup, decide_False; [by apply Hd1|].
    intros [E1 E2]. eapply H. rewrite Hid.
    eapply (store_ok_dedup_unique m k key j1 j0 dk Hok); congruence.
  - intros i k. rewrite remove_index. case_decide as D; [done|].
    intros (j1 & Hj1 & Hi1)%(ok_index _ Hok). exists j1.
    split; [|done]. apply remove_job_at_other; [done|congruence].
  - intros q dk b. rewrite remove_dedup. case_decide as D; [done|].
    intros (i & k & j1 & -> & [Hi Hj1]%lookup_job_Some & <- & Hdk)%(ok_dedup _ Hok).
    destruct (ok_index _ Hok _ _ Hi) as (j2 & Hj2 & Hi2). assert (j2 = j1) as -> by congruence.
    assert (Hne : id j1 ≠ id j).
    { intros E. destruct (store_ok_unique m k key j1 j0 Hok Hj1 Hat) as [_ ->]; [congruence|].
      apply D. split; congruence. }
    exists i, k, j1. split; [done|]. split; [|done]. apply lookup_job_Some. split.
    + rewrite remove_index, decide_False; [done|congruence].
    + by apply remove_job_at_other.
  - intros i b Hb. rewrite remove_index. subst m'. unfold remove_map in Hb.
    apply release_map_Some in Hb as [Hb _]. rewrite !lookup_delete_Some in Hb.
    destruct Hb as (? & ? & ? & Hb). apply (ok_history _ Hok) in Hb.
    case_decide; [congruence|done].
Qed.

End remove.

(** ** Writes outside the job spaces *)

(** A key that no clause of the invariant reads. *)
Definition foreign (k : bytes) : bool :=
  match tag_of k with
  | Some (TPending | TClaimed | TScheduled | TDone | TDead | TJobIndex | TDedup
         | TAttemptHistory) => false
  | _ => true
  end.

(** The keys that the invariant reads of [m'] are those of [m]. *)
Definition same_jobs m m' : Prop := ∀ k, foreign k = false → m' !! k = m !! k.

Lemma same_jobs_at m m' k : same_jobs m m' → job_at m' k = job_at m k.
Proof.
  intros H. unfold job_at, decode_job, ok_or.
  destruct (tag_of k) as [[]|] eqn:E; cbn; try (by destruct (m' !! k), (m !! k));
    (rewrite H; [done|unfold foreign; by rewrite E]).
Qed.
Lemma same_jobs_lookup m m' i : same_jobs m m' → lookup_job m' i = lookup_job m i.
Proof.
  intros H. unfold lookup_job. rewrite H by done. destruct (m !! _); [|done]. cbn.
  by rewrite (same_jobs_at m m').
Qed.

Lemma store_ok_ext m m' : same_jobs m m' → store_ok m → store_ok m'.
Proof.
  intros E Hok.
  assert (Hr : ∀ k, is_Some (record_status k) → m' !! k = m !! k).
  { intros k [s Hs]. apply E. unfold record_status, foreign in *. destruct (tag_of k) as [[]|]; done. }
  constructor.
  - intros k b Hb Hk. rewrite Hr in Hb by done.
    destruct (ok_record _ Hok k b Hb Hk) as (j & ? & ? & ? & Hi & Hd). exists j.
    split; [done|]. split; [done|]. split; [done|]. split; [by rewrite E|].
    intros dk Hdk. rewrite E by done. auto.
  - intros i k. rewrite E by done. rewrite (same_jobs_at _ _ _ E). apply (ok_index _ Hok).
  - intros q dk b. rewrite E by done. intros (i & k & j & -> & Hl & ?)%(ok_dedup _ Hok).
    exists i, k, j. split; [done|]. split; [|done]. by rewrite (same_jobs_lookup _ _ _ E).
  - intros i b. rewrite !E by done. apply (ok_history _ Hok).
Qed.

(** A history holds no record. *)
Lemma job_at_history m i b k : job_at (<[attempt_history_key i := b]> m) k = job_at m k.
Proof.
  unfold job_at. destruct (decide (k = attempt_history_key i)) as [->|].
  - rewrite lookup_insert_eq. by destruct (m !! attempt_history_key i).
  - by rewrite lookup_insert_ne.
Qed.

Lemma store_ok_history m i b :
  is_Some (m !! job_index_key i) → store_ok m → store_ok (<[attempt_history_key i := b]> m).
Proof.
  intros Hi Hok.
  assert (E : ∀ k, tag_of k ≠ Some TAttemptHistory → <[attempt_history_key i := b]> m !! k = m !! k).
  { intros k Hk. apply lookup_insert_ne. by intros <-. }
  constructor.
  - intros k b' Hb Hk. rewrite E in Hb by (intros Ht; destruct Hk as [? Hk]; unfold record_status in Hk; by rewrite Ht in Hk).
    destruct (ok_record _ Hok k b' Hb Hk) as (j & ? & ? & ? & Hix & Hd). exists j.
    split; [done|]. split; [done|]. split; [done|]. split; [by rewrite E|].
    intros dk Hdk. rewrite E by done. auto.
  - intros i' k. rewrite E by done. rewrite job_at_history. apply (ok_index _ Hok).
  - intros q dk b'. rewrite E by done.
    intros (i' & k & j & -> & [Hi' Hk]%lookup_job_Some & ?)%(ok_dedup _ Hok).
    exists i', k, j. split; [done|]. split; [|done]. apply lookup_job_Some. by rewrite E, job_at_history.
  - intros i' b'. rewrite (E (job_index_key i')) by done.
    destruct (decide (i' = i)) as [->|]; [done|].
    rewrite lookup_insert_ne by (by intros ?%(inj attempt_history_key)). apply (ok_history _ Hok).
Qed.

End inv.

(** ** Populations and counters

    The number of job records of a queue in a state, how the transitions of the
    store change it, and the change a transaction counts for the same transition.
    The counters of taquba/src/stats.rs follow these numbers. *)

Section population.
  Context {SR : Serde JobRecord}.
  Implicit Types (m : gmap bytes bytes) (j : JobRecord) (k : bytes) (J : gmap bytes JobRecord).

(** The records of a store, by key. *)
Definition jobs m : gmap bytes JobRecord := map_imap (λ k b, ok (decode_job k b)) m.

Lemma lookup_jobs m k : jobs m !! k = job_at m k.
Proof. apply map_lookup_imap. Qed.

Definition in_state (q : QueueName) (s : JobStatus) (kj : bytes * JobRecord) : Prop :=
  queue kj.2 = q ∧ status kj.2 = s.

Definition pop J (q : QueueName) (s : JobStatus) : Z := Z.of_nat (size (filter (in_state q s) J)).

Definition population m (q : QueueName) (s : JobStatus) : Z := pop (jobs m) q s.

Lemma population_empty q s : population ∅ q s = 0%Z.
Proof.
  unfold population, pop. assert (jobs ∅ = ∅) as ->.
  { apply map_eq. intros k. by rewrite lookup_jobs. }
  by rewrite map_filter_empty, map_size_empty.
Qed.

(** One record of queue [q'] in state [s'] counts for [q] and [s]. *)
Definition one (q' : QueueName) (s' : option JobStatus) q s : Z :=
  if decide (q' = q ∧ s' = Some s) then 1 else 0.

Lemma pop_insert J k j q s :
  J !! k = None → pop (<[k := j]> J) q s = (pop J q s + one (queue j) (Some (status j)) q s)%Z.
Proof.
  intros Hk. unfold pop, one. rewrite map_filter_insert. case_decide as D; cbn in D.
  - rewrite decide_True by (destruct D as [E1 E2]; cbn in *; split; congruence).
    rewrite map_size_insert_None; [lia|]. apply map_lookup_filter_None. by left.
  - rewrite decide_False by (intros [? [= ?]]; by apply D).
    by rewrite delete_id, Z.add_0_r by done.
Qed.

Lemma pop_delete J k j q s :
  J !! k = Some j → pop (delete k J) q s = (pop J q s - one (queue j) (Some (status j)) q s)%Z.
Proof.
  intros Hk. rewrite <- (insert_delete_id J k j Hk) at 2.
  rewrite pop_insert by apply lookup_delete_eq. lia.
Qed.

Lemma population_ext m m' q s :
  (∀ k, job_at m' k = job_at m k) → population m' q s = population m q s.
Proof.
  intros H. unfold population. f_equal. apply map_eq. intros k. by rewrite !lookup_jobs.
Qed.

Lemma population_foreign m k b q s :
  record_status k = None → population (<[k := b]> m) q s = population m q s.
Proof.
  intros Hk. apply population_ext. intros k'. unfold job_at.
  destruct (decide (k' = k)) as [->|]; [|by rewrite lookup_insert_ne].
  rewrite lookup_insert_eq. cbn. unfold decode_job. fold (record_status k). rewrite Hk.
  by destruct (m !! k).
Qed.

Lemma population_foreign_delete m k q s :
  record_status k = None → population (delete k m) q s = population m q s.
Proof.
  intros Hk. apply population_ext. intros k'. rewrite job_at_delete.
  case_decide as D; [|done]. subst k'. unfold job_at, decode_job. fold (record_status k).
  rewrite Hk. by destruct (m !! k).
Qed.

(** A job that moves leaves the population of its state for the one of its new
    state. *)
Lemma population_move m from key j j' rel q s :
  store_ok m → job_at m from = Some j → id j' = id j → queue j' = queue j →
  stored_key j' = Ok key →
  population (release_map (queue j) rel (move_map from key j' m)) q s =
    (population m q s - one (queue j) (Some (status j)) q s
      + one (queue j) (Some (status j')) q s)%Z.
Proof.
  intros Hok Hj Hid Hq Hkey. unfold population.
  assert (E : jobs (release_map (queue j) rel (move_map from key j' m))
            = <[key := stored_clone j']> (delete from (jobs m))).
  { apply map_eq. intros k. rewrite lookup_jobs. erewrite move_job_at by done.
    destruct (decide (k = key)) as [->|]; [by rewrite lookup_insert_eq|].
    rewrite lookup_insert_ne by done.
    destruct (decide (k = from)) as [->|]; [by rewrite lookup_delete_eq|].
    by rewrite lookup_delete_ne, lookup_jobs. }
  rewrite E, pop_insert.
  - rewrite (pop_delete _ _ j) by (by rewrite lookup_jobs). cbn. rewrite Hq. lia.
  - destruct (decide (key = from)) as [->|]; [apply lookup_delete_eq|].
    rewrite lookup_delete_ne, lookup_jobs by done.
    destruct (job_at m key) as [j1|] eqn:E1; [|done]. exfalso.
    destruct (store_ok_job _ _ _ Hok E1) as (Hk1 & _).
    destruct (stored_key_inj _ _ _ Hk1 Hkey) as [Hi _].
    destruct (store_ok_unique m key from j1 j); try done. congruence.
Qed.

Lemma population_insert m key j rk q s :
  store_ok m → m !! job_index_key (id j) = None → stored_key j = Ok key →
  population (reserve_map (queue j) rk (id j) (put_map key j m)) q s =
    (population m q s + one (queue j) (Some (status j)) q s)%Z.
Proof.
  intros Hok Hnew Hkey. unfold population.
  assert (E : jobs (reserve_map (queue j) rk (id j) (put_map key j m))
            = <[key := stored_clone j]> (jobs m)).
  { apply map_eq. intros k. rewrite lookup_jobs, job_at_reserve, job_at_put by done.
    destruct (decide (k = key)) as [->|]; [by rewrite lookup_insert_eq|].
    by rewrite lookup_insert_ne, lookup_jobs. }
  rewrite E, pop_insert; [done|]. rewrite lookup_jobs.
  destruct (job_at m key) as [j1|] eqn:E1; [|done]. exfalso.
  eapply (store_ok_other m key key j j1); try done. by eapply insert_other.
Qed.

Lemma population_remove m key j j0 q s :
  store_ok m → job_at m key = Some j0 →
  population (remove_map key j m) q s =
    (population m q s - one (queue j0) (Some (status j0)) q s)%Z.
Proof.
  intros Hok Hat. unfold population.
  assert (E : jobs (remove_map key j m) = delete key (jobs m)).
  { apply map_eq. intros k. rewrite lookup_jobs. erewrite remove_job_at by done.
    destruct (decide (k = key)) as [->|]; [by rewrite lookup_delete_eq|].
    by rewrite lookup_delete_ne, lookup_jobs. }
  rewrite E, (pop_delete _ _ j0); [done|]. by rewrite lookup_jobs.
Qed.

(** ** The changes a transaction counts *)

Definition delta (d : gmap (QueueName * JobStatus) Z) (q : QueueName) (s : JobStatus) : Z :=
  default 0%Z (d !! (q, s)).

(** Two counts are the same [i64]. *)
Definition eq64 (x y : Z) : Prop := wrap_i64 x = wrap_i64 y.

#[global] Instance eq64_equivalence : Equivalence eq64.
Proof. unfold eq64. split; congruence. Qed.

Lemma eq64_alt x y : eq64 x y ↔ ∃ n, x = (y + n * u64_mod)%Z.
Proof.
  unfold eq64, wrap_i64. set (h := 9223372036854775808%Z). split.
  - intros H. exists ((x + h) / u64_mod - (y + h) / u64_mod)%Z.
    pose proof (Z.div_mod (x + h) u64_mod). pose proof (Z.div_mod (y + h) u64_mod).
    unfold u64_mod in *. lia.
  - intros [n ->]. replace (y + n * u64_mod + h)%Z with (y + h + n * u64_mod)%Z by lia.
    by rewrite Z_mod_plus_full.
Qed.

#[global] Instance eq64_add : Proper (eq64 ==> eq64 ==> eq64) Z.add.
Proof.
  intros x x' [n ->]%eq64_alt y y' [k ->]%eq64_alt. apply eq64_alt. exists (n + k)%Z. lia.
Qed.

#[global] Instance eq64_sub : Proper (eq64 ==> eq64 ==> eq64) Z.sub.
Proof.
  intros x x' [n ->]%eq64_alt y y' [k ->]%eq64_alt. apply eq64_alt. exists (n - k)%Z. lia.
Qed.

Lemma wrap_i64_eq64 x : eq64 (wrap_i64 x) x.
Proof. unfold eq64. apply wrap_i64_small, wrap_i64_range. Qed.

Lemma delta_stats_add d q s x q' s' :
  eq64 (delta (stats_add q s x d) q' s') (delta d q' s' + x * one q (Some s) q' s').
Proof.
  unfold delta, stats_add, one. destruct (decide (q = q' ∧ Some s = Some s')) as [[-> [= ->]]|D].
  - rewrite lookup_insert_eq. cbn. rewrite wrap_i64_eq64. by rewrite Z.mul_1_r.
  - rewrite lookup_insert_ne by naive_solver. by rewrite Z.mul_0_r, Z.add_0_r.
Qed.

(** The change counted for a move is the change of the populations, for every
    state but [Done], whose counter counts completions. *)
Lemma delta_count_move d q from to q' s' :
  s' ≠ Done →
  eq64 (delta (count_move_stats q from to d) q' s')
    (delta d q' s' - one q from q' s' + one q to q' s').
Proof.
  intros Hs. unfold count_move_stats. case_decide as D; [subst; by rewrite Z.sub_add|].
  assert (H : ∀ c : gmap (QueueName * JobStatus) Z, (match from with
      | Some f => if decide (f = Done) then c else stats_add q f (-1)%Z c
      | None => c end) = c ∧ one q from q' s' = 0%Z ∨
    ∃ f, from = Some f ∧ (match from with
      | Some f => if decide (f = Done) then c else stats_add q f (-1)%Z c
      | None => c end) = stats_add q f (-1)%Z c).
  { intros c. destruct from as [f|].
    - case_decide; [|by eauto]. left. split; [done|]. unfold one.
      rewrite decide_False; [done|]. intros [_ [= ?]]. congruence.
    - left. split; [done|]. unfold one. rewrite decide_False; [done|]. by intros [_ ?]. }
  assert (Hto : ∀ c, eq64 (delta (match to with Some t => stats_add q t 1%Z c | None => c end) q' s')
     (delta c q' s' + one q to q' s')).
  { intros c. destruct to as [t|]; [by rewrite delta_stats_add, Z.mul_1_l|].
    unfold one. rewrite decide_False by (by intros [_ ?]). by rewrite Z.add_0_r. }
  rewrite Hto. destruct (H d) as [[-> ->]|(f & -> & ->)].
  - by rewrite Z.sub_0_r.
  - rewrite delta_stats_add.
    replace (delta d q' s' + -1 * one q (Some f) q' s' + one q to q' s')%Z
      with (delta d q' s' - one q (Some f) q' s' + one q to q' s')%Z by lia. done.
Qed.

End population.
