(* ===== verification/Sound.v ===== *)
(** * Transactions preserve the store invariant under concurrency

    A transaction is judged by what its writes do to the store its commit meets,
    which may have changed since its snapshot in every key outside its conflict
    set. [sound t]: over any such store that satisfies the invariant, the writes
    of [t] leave the invariant, change the populations by the counts of [t], and
    do not touch the counters, and index no id but those the call may add. *)
From S2P Require Import Prelude Bytes Error Monad Keys Job Store Stats LeaseRegistry.
From S2P Require Import Txn Stage StoreInv.

(** The ids a call may index: those its requests supply and those generated for
    them; none, for a call that inserts no job. *)
Class NewIds := new_id : string → Prop.

Section sound.
  Context {DB : SlateDb} {SR : Serde JobRecord} {SA : Serde JobAttempt}.
  Context {DL : SlateDbLaws merge_batch} {NI : NewIds}.
  Implicit Types (t : Txn) (m : gmap bytes bytes) (j : JobRecord).

Abbreviation run := (apply_writes merge_batch merge_fallback).

(** The store [m] agrees with the snapshot of [t] on its conflict set, the
    counters excepted, whose concurrent change is no conflict. *)
Definition agrees t m : Prop :=
  ∀ k, k ∈ ttracked t → tag_of k ≠ Some TStats → m !! k = tbase t !! k.

(** What a sequence of writes does to a store: invariant, populations,
    counters and ids. *)
Record steps_ok m m' (d d' : gmap (QueueName * JobStatus) Z) : Prop := {
  steps_store : store_ok m';
  steps_population q s : s ≠ Done →
    eq64 (population m' q s) (population m q s + (delta d' q s - delta d q s));
  steps_stats k : tag_of k = Some TStats → m' !! k = m !! k;
  steps_ids i : is_Some (m' !! job_index_key i) → is_Some (m !! job_index_key i) ∨ new_id i;
}.

Lemma record_not_stats k : is_Some (record_status k) → tag_of k ≠ Some TStats.
Proof. intros [s Hs] E. unfold record_status in Hs. by rewrite E in Hs. Qed.

Lemma job_at_not_stats m k j : job_at m k = Some j → tag_of k ≠ Some TStats.
Proof.
  intros (b & _ & Hb)%job_at_Some. apply record_not_stats. eexists. by apply decode_job_status in Hb.
Qed.

Definition sound t : Prop :=
  store_ok (tbase t) ∧
  ∀ m, store_ok m → agrees t m → steps_ok m (twrite t m) ∅ (tstats t).

Lemma steps_ok_refl m d : store_ok m → steps_ok m m d d.
Proof. intros. constructor; [done| |done|by left]. intros. by rewrite Z.sub_diag, Z.add_0_r. Qed.

Lemma steps_ok_trans m1 m2 m3 d1 d2 d3 :
  steps_ok m1 m2 d1 d2 → steps_ok m2 m3 d2 d3 → steps_ok m1 m3 d1 d3.
Proof.
  intros [O1 P1 S1 I1] [O2 P2 S2 I2]. constructor; [done|..].
  - intros q s Hs. rewrite P2, P1 by done.
    replace (population m1 q s + (delta d2 q s - delta d1 q s) + (delta d3 q s - delta d2 q s))%Z
      with (population m1 q s + (delta d3 q s - delta d1 q s))%Z by lia. done.
  - intros k Hk. rewrite S2, S1; done.
  - intros i [Hi|Hi]%I2; [by apply I1|by right].
Qed.

(** A store that agrees with the snapshot agrees, under the writes of the
    transaction, with what the transaction reads. *)
Lemma agrees_view t m k :
  agrees t m → k ∈ ttracked t → tag_of k ≠ Some TStats → twrite t m !! k = tview t !! k.
Proof. intros H Hk Hs. rewrite tview_eq. apply run_lookup_ext. by apply H. Qed.

Lemma sound_step t t' ws :
  sound t → stages t t' ws →
  (∀ m, store_ok m →
    (∀ k, k ∈ ttracked t' → tag_of k ≠ Some TStats → m !! k = tview t !! k) →
    steps_ok m (run ws m) (tstats t) (tstats t')) →
  sound t'.
Proof.
  intros [Hbase Ht] Hst Hws.
  assert (Hb : tbase t' = tbase t) by by eapply stages_tbase.
  split; [by rewrite Hb|]. intros m Hm Ha.
  assert (Ha0 : ∀ k, k ∈ ttracked t' → tag_of k ≠ Some TStats → m !! k = tbase t !! k).
  { intros k Hk Hs. rewrite <- Hb. by apply Ha. }
  assert (Hs : steps_ok m (twrite t m) ∅ (tstats t)).
  { apply Ht; [done|]. intros k Hk Hks. apply Ha0; [|done]. by apply (stages_mono _ _ _ Hst). }
  eapply steps_ok_trans; [exact Hs|]. rewrite (stages_twrite _ _ _ _ Hst).
  apply Hws; [apply Hs|]. intros k Hk Hks. rewrite tview_eq. apply run_lookup_ext. by apply Ha0.
Qed.

(** A transaction that just began is sound. *)
Lemma sound_begin (t : DbTransaction) d :
  db_begin d = Ok t → store_ok (contents d) → sound (mkTxn t notes_default ∅).
Proof.
  intros (Hb & Hw & _)%begin_law Hd. split; unfold tbase; cbn; [by rewrite Hb|].
  intros m Hm _. unfold twrite. cbn. rewrite Hw. by apply steps_ok_refl.
Qed.

(** What a sound transaction reads is a store that satisfies the invariant. *)
Lemma sound_view t : sound t → store_ok (tview t).
Proof. intros [Hb Ht]. rewrite tview_eq. by apply Ht. Qed.

(** A transaction that only reads, marks or notes stays sound. *)
Lemma sound_same t t' : sound t → stages t t' [] → tstats t' = tstats t → sound t'.
Proof.
  intros Ht Hst Hd. eapply sound_step; [done..|]. intros m Hm _. rewrite Hd.
  by apply steps_ok_refl.
Qed.

Lemma steps_ok_foreign m m' d :
  store_ok m → (∀ k, foreign k = false ∨ tag_of k = Some TStats → m' !! k = m !! k) →
  steps_ok m m' d d.
Proof.
  intros Hm H. assert (Hs : same_jobs m m') by (intros k Hk; apply H; by left). constructor.
  - by eapply store_ok_ext.
  - intros q s _. rewrite Z.sub_diag, Z.add_0_r.
    rewrite (population_ext m m'); [done|]. intros k. by apply same_jobs_at.
  - intros k Hk. apply H. by right.
  - intros i. rewrite Hs by done. by left.
Qed.

(** A key outside the job spaces and the counters. *)
Definition is_other (k : bytes) : bool :=
  foreign k && negb (bool_decide (tag_of k = Some TStats)).

Lemma steps_ok_insert_other m k b d :
  is_other k = true → store_ok m → steps_ok m (<[k := b]> m) d d.
Proof.
  intros [Hf Hs]%andb_true_iff Hm. apply steps_ok_foreign; [done|].
  intros k' H. apply lookup_insert_ne. intros <-. apply negb_true_iff, bool_decide_eq_false in Hs.
  destruct H; [congruence|done].
Qed.

Lemma steps_ok_delete_other m k d :
  is_other k = true → store_ok m → steps_ok m (delete k m) d d.
Proof.
  intros [Hf Hs]%andb_true_iff Hm. apply steps_ok_foreign; [done|].
  intros k' H. apply lookup_delete_ne. intros <-. apply negb_true_iff, bool_decide_eq_false in Hs.
  destruct H; [congruence|done].
Qed.

Lemma sound_put_other t k v r : is_other k = true → sound t → t_put k v t = Ok r → sound r.2.
Proof.
  intros Hk Ht (Hst & _ & Hd & _)%t_put_Ok. eapply sound_step; [done..|].
  intros m Hm _. rewrite Hd. by apply steps_ok_insert_other.
Qed.

Lemma sound_delete_other t k r : is_other k = true → sound t → t_delete k t = Ok r → sound r.2.
Proof.
  intros Hk Ht (Hst & _ & Hd & _)%t_delete_Ok. eapply sound_step; [done..|].
  intros m Hm _. rewrite Hd. by apply steps_ok_delete_other.
Qed.

(** ** Job transitions *)

Lemma release_map_stats q rel m k :
  tag_of k = Some TStats → release_map q rel m !! k = m !! k.
Proof. intros E. apply release_map_ne. intros x _ ->. done. Qed.

Lemma put_map_stats key j m k :
  is_Some (record_status key) → tag_of k = Some TStats → put_map key j m !! k = m !! k.
Proof.
  intros Hk E. apply put_map_ne; [|by intros ->]. intros ->. by apply record_not_stats in Hk.
Qed.

Lemma steps_ok_history m i v d :
  store_ok m → is_Some (m !! job_index_key i) → steps_ok m (<[attempt_history_key i := v]> m) d d.
Proof.
  intros Hm Hi. constructor.
  - by apply store_ok_history.
  - intros q s _. by rewrite Z.sub_diag, Z.add_0_r, population_foreign.
  - intros k E. apply lookup_insert_ne. by intros <-.
  - intros i'. rewrite lookup_insert_ne by done. by left.
Qed.

Lemma steps_ok_move m from key j j' rel d d' :
  store_ok m → job_at m from = Some j → id j' = id j → queue j' = queue j →
  stored_key j' = Ok key → job_ok (stored_clone j') → releases j j' rel →
  d' = count_move_stats (queue j) (Some (status j)) (Some (status j')) d →
  steps_ok m (release_map (queue j) rel (move_map from key j' m)) d d'.
Proof.
  intros Hm Hj Hi Hq Hk Hok Hrel ->. constructor.
  - by eapply store_ok_move.
  - intros q s Hs. rewrite (population_move m from key j j') by done.
    rewrite delta_count_move by done. unfold eq64. f_equal. lia.
  - intros k E. rewrite release_map_stats by done. unfold move_map.
    rewrite put_map_stats by (by try eapply stored_key_record).
    apply lookup_delete_ne. intros <-. apply store_ok_job in Hj as (Hj & _); [|done].
    by apply stored_key_record, record_not_stats in Hj.
  - intros i. rewrite (move_index m from key j j') by done. left.
    destruct (store_ok_job _ _ _ Hm Hj) as (_ & _ & Hix & _).
    case_decide; [subst i; by eexists|done].
Qed.

Lemma steps_ok_insert m key j d d' :
  store_ok m → m !! job_index_key (id j) = None →
  (∀ dk, dedup_key j = Some dk → m !! dedup_index_key (queue j) dk = None) →
  stored_key j = Ok key → job_ok (stored_clone j) → new_id (id j) →
  d' = count_move_stats (queue j) None (Some (status j)) d →
  steps_ok m (reserve_map (queue j) (dedup_key j) (id j) (put_map key j m)) d d'.
Proof.
  intros Hm Hi Hd Hk Hok Hn ->. constructor.
  - by apply store_ok_insert.
  - intros q s Hs. rewrite population_insert by done.
    rewrite delta_count_move by done. unfold one at 2. rewrite decide_False by (by intros [_ ?]).
    unfold eq64. f_equal. lia.
  - intros k E. rewrite reserve_map_ne by (by intros x _ ->).
    apply put_map_stats; [by eapply stored_key_record|done].
  - intros i. rewrite insert_index by done. case_decide; [subst i; by right|by left].
Qed.

Lemma steps_ok_remove m key j j0 to d d' :
  store_ok m → job_at m key = Some j0 → id j = id j0 → queue j = queue j0 →
  dedup_key j = dedup_key j0 → to = None ∨ to = Some Done →
  d' = count_move_stats (queue j0) (Some (status j0)) to d →
  steps_ok m (remove_map key j m) d d'.
Proof.
  intros Hm Hj Hi Hq Hd Hto ->. constructor.
  - by eapply store_ok_remove.
  - intros q s Hs. rewrite (population_remove m key j j0) by done.
    rewrite delta_count_move by done.
    assert (one (queue j0) to q s = 0%Z) as ->.
    { unfold one. rewrite decide_False; [done|]. intros [_ E].
      destruct Hto as [->| ->]; congruence. }
    unfold eq64. f_equal. lia.
  - intros k E. unfold remove_map. rewrite release_map_stats by done.
    rewrite !lookup_delete_ne; [done|..]; intros <-; try done.
    apply store_ok_job in Hj as (Hj & _); [|done].
    by apply stored_key_record, record_not_stats in Hj.
  - intros i. rewrite (remove_index m key j j0) by done. case_decide; [by intros []|by left].
Qed.

(** ** The operations of a transaction *)

Lemma run_release q rel m : run (release_writes q rel) m = release_map q rel m.
Proof. by destruct rel. Qed.

Lemma run_remove key j m : run (remove_writes key j) m = remove_map key j m.
Proof. unfold remove_writes, remove_map. cbn. apply run_release. Qed.

Lemma run_move from key j m :
  (from = key → m !! job_index_key (id j) = Some key) → is_Some (record_status key) →
  run (move_writes from key j) m = move_map from key j m.
Proof.
  intros H Hk. unfold move_writes. case_decide as D; [|done]. subst from. cbn.
  unfold move_map, put_map. rewrite insert_delete_eq.
  rewrite (insert_id _ (job_index_key (id j)) key); [done|].
  rewrite lookup_insert_ne; [by apply H|]. by apply record_key_ne.
Qed.

Lemma decode_key_status k b j : decode_job k b = Ok j → key_status k = Ok (status j).
Proof.
  intros H%decode_job_status. unfold key_status. unfold record_status in H. by rewrite H.
Qed.

(** A job that moves, releasing its dedup entry or not. *)
Lemma sound_move t t' from key j j' rel :
  sound t → stages t t' (move_writes from key j' ++ release_writes (queue j) rel) →
  job_at (tview t) from = Some j → id j' = id j → queue j' = queue j →
  stored_key j' = Ok key → job_ok j' → releases j j' rel →
  (from = key ∧ tstats t' = tstats t ∨
   from ≠ key ∧ ∃ s, key_status from = Ok s ∧
     tstats t' = count_move_stats (queue j') (Some s) (Some (status j')) (tstats t)) →
  sound t'.
Proof.
  intros Ht Hst Hj Hi Hq Hk Hok Hrel Hd. eapply sound_step; [done..|]. intros m Hm Ha.
  assert (Hfrom : from ∈ ttracked t').
  { unfold move_writes in Hst. case_decide as D; [subst from|].
    - apply (stages_tracked _ _ _ Hst (WPut key (stored_bytes j'))). set_solver.
    - apply (stages_tracked _ _ _ Hst (WDelete from)). set_solver. }
  assert (Hjm : job_at m from = Some j) by (rewrite <- Hj; apply job_at_ext, Ha; [done|by eapply job_at_not_stats]).
  destruct (store_ok_job _ _ _ Hm Hjm) as (Hkj & _ & Hix & _).
  rewrite run_app, run_release, run_move.
  - eapply steps_ok_move; [done..|].
    destruct Hd as [[-> ->]|(_ & s & Hs & ->)].
    + destruct (stored_key_inj _ _ _ Hkj Hk) as (_ & _ & ->).
      unfold count_move_stats. by rewrite decide_True.
    + rewrite Hq. apply job_at_Some in Hjm as (b & _ & Hb).
      rewrite (decode_key_status _ _ _ Hb) in Hs. by injection Hs as <-.
  - intros <-. congruence.
  - by eapply stored_key_record.
Qed.

Lemma leave_waits_fields j :
  id (leave_waits j) = id j ∧ queue (leave_waits j) = queue j ∧
  status (leave_waits j) = status j ∧ dedup_key (leave_waits j) = dedup_key j.
Proof. unfold leave_waits. by case_decide. Qed.

Lemma sound_move_job t t' from j j1 j2 :
  sound t → move_job from j1 t = Ok (j2, t') → job_at (tview t) from = Some j →
  id j1 = id j → queue j1 = queue j → dedup_key j1 = dedup_key j →
  job_ok (leave_waits j1) → sound t'.
Proof.
  intros Ht (key & -> & Hk & Hst & Hd)%move_job_Ok Hj Hi Hq Hdk Hok.
  destruct (leave_waits_fields j1) as (Fi & Fq & Fs & Fd).
  eapply (sound_move t t' from key j (leave_waits j1) None); try done; try congruence.
  - eapply stages_eq; [exact Hst|]. by rewrite app_nil_r.
  - left. split; [congruence|done].
Qed.

Lemma sound_insert t t' t1 j :
  sound t → insert_job j t = Ok (tt, t1) →
  stages t1 t' (match dedup_key j with
    | Some dk => [WPut (dedup_index_key (queue j) dk) (as_bytes (id j))] | None => [] end) →
  tstats t' = tstats t1 →
  tview t !! job_index_key (id j) = None →
  (∀ dk, dedup_key j = Some dk → tview t !! dedup_index_key (queue j) dk = None) →
  job_ok j → new_id (id j) → sound t'.
Proof.
  intros Ht (key & Hk & Hst1 & Hd1)%insert_job_Ok Hst2 Hd2 Hi Hdk Hok Hn. cbn [snd] in *.
  pose proof (stages_trans _ _ _ _ _ Hst1 Hst2) as Hst.
  eapply sound_step; [done..|]. intros m Hm Ha. rewrite run_app.
  replace (run _ (run (put_writes key j) m)) with
    (reserve_map (queue j) (dedup_key j) (id j) (put_map key j m)) by by destruct (dedup_key j).
  eapply steps_ok_insert; try done.
  - rewrite Ha; [done| |done]. apply (stages_tracked _ _ _ Hst (WPut (job_index_key (id j)) key)).
    unfold put_writes. set_solver.
  - intros dk E. rewrite Ha; [by apply Hdk| |done].
    apply (stages_tracked _ _ _ Hst (WPut (dedup_index_key (queue j) dk) (as_bytes (id j)))).
    rewrite E. set_solver.
  - congruence.
Qed.

Lemma sound_stage_remove t r key j j0 :
  sound t → stage_remove key j t = Ok r → job_at (tview t) key = Some j0 →
  id j = id j0 → queue j = queue j0 → dedup_key j = dedup_key j0 → sound r.2.
Proof.
  intros Ht (s & Hs & Hst & Hd)%stage_remove_Ok Hj Hi Hq Hdk.
  eapply sound_step; [done..|]. intros m Hm Ha. rewrite run_remove.
  assert (Hjm : job_at m key = Some j0).
  { rewrite <- Hj. apply job_at_ext, Ha; [|by eapply job_at_not_stats].
    apply (stages_tracked _ _ _ Hst (WDelete key)). unfold remove_writes. set_solver. }
  eapply (steps_ok_remove m key j j0 (completed_count j)); try done.
  - unfold completed_count. case_decide; auto.
  - rewrite Hd. apply job_at_Some in Hjm as (b & _ & Hb).
    rewrite (decode_key_status _ _ _ Hb) in Hs. injection Hs as <-. congruence.
Qed.

(** ** The end of a claim *)

Lemma job_ok_claim_end e now j :
  job_ok j → status j = Claimed → job_ok (claim_end_record e now j).
Proof.
  unfold job_ok. intros (H & Hw & Hd) Hs. rewrite Hs in *. destruct H as ([c Hc] & Hco & Hf).
  destruct Hw as [Hsw Hcw]; [done|].
  assert (Hdk : dedup_key j = None).
  { destruct (dedup_key j); [|done]. destruct Hd as [?|?]; [by eexists|done..]. }
  destruct e as [[]|[at'|] o [err|]|err]; unfold claim_end_record, leave_waits; cbn;
    try (case_decide as D; [try discriminate D|try by destruct D]); cbn;
    rewrite ?Hc, ?Hco, ?Hf, ?Hdk, ?Hsw, ?Hcw.
  all: split; [|split]; [|done|by intros []]; repeat split; try done; by eexists.
Qed.

Lemma claimed_record m q i j :
  store_ok m → job_at m (claimed_key q i) = Some j → queue j = q ∧ id j = i ∧ status j = Claimed.
Proof.
  intros Hm Hj. destruct (store_ok_job _ _ _ Hm Hj) as (Hk & _).
  assert (Hs : status j = Claimed).
  { apply tag_of_stored_key in Hk. autorewrite with key_tags in Hk. by injection Hk as <-. }
  unfold stored_key in Hk. rewrite Hs in Hk. apply Ok_inj, queue_first_key_inj in Hk as (_ & ? & ?).
  done.
Qed.

(** A deletion before the writes of a claim end changes nothing: the record is
    deleted anyway. *)
Lemma run_delete_first from ws m h e :
  h ≠ from →
  run (WDelete from :: WMerge h e :: WDelete from :: ws) m =
  run (WMerge h e :: WDelete from :: ws) m.
Proof.
  intros Hne. cbn. rewrite lookup_delete_ne by done.
  by rewrite !delete_insert_ne, delete_delete_eq by done.
Qed.

Lemma run_remove_first from j m :
  run (WDelete from :: remove_writes from j) m = run (remove_writes from j) m.
Proof. unfold remove_writes. cbn. by rewrite delete_delete_eq. Qed.

Lemma sound_claim_end t t0 t' j e now j' pre :
  sound t → stages t t0 pre → pre = [] ∨ pre = [WDelete (claimed_key (queue j) (id j))] →
  tstats t0 = tstats t → job_at (tview t) (claimed_key (queue j) (id j)) = Some j →
  stage_claim_end j e now t0 = Ok (j', t') → sound t'.
Proof.
  intros Ht Hpre Hor Hd0 Hj (-> & H)%stage_claim_end_Ok.
  destruct (store_ok_job _ _ _ (sound_view _ Ht) Hj) as (_ & Hjok & _).
  destruct (claimed_record _ _ _ _ (sound_view _ Ht) Hj) as (_ & _ & Hcl).
  destruct (claim_end_record_fields e now j) as (Fi & Fq & Fd & _ & Fs).
  assert (Hne : attempt_history_key (id j) ≠ claimed_key (queue j) (id j)) by key_ne.
  case_decide as De.
  - destruct H as [Hst Hd]. pose proof (stages_trans _ _ _ _ _ Hpre Hst) as Hall.
    eapply sound_step; [done..|]. intros m Hm Ha.
    assert (run (pre ++ remove_writes (claimed_key (queue j) (id j)) (claim_end_record e now j)) m
      = remove_map (claimed_key (queue j) (id j)) (claim_end_record e now j) m) as ->.
    { rewrite <- run_remove. destruct Hor as [->| ->]; [done|]. apply run_remove_first. }
    assert (Hjm : job_at m (claimed_key (queue j) (id j)) = Some j).
    { rewrite <- Hj. apply job_at_ext, Ha; [|by eapply job_at_not_stats].
      apply (stages_tracked _ _ _ Hst (WDelete (claimed_key (queue j) (id j)))).
      unfold remove_writes. set_solver. }
    eapply steps_ok_remove; [done|done|done..|by right|]. rewrite Hd, Hd0. congruence.
  - destruct H as (key & Hk & Hkne & Hst & Hd).
    pose proof (stages_trans _ _ _ _ _ Hpre Hst) as Hall.
    eapply sound_step; [done..|]. intros m Hm Ha.
    set (h := attempt_history_key (id j)) in *.
    set (from := claimed_key (queue j) (id j)) in *.
    assert (Hjm : job_at m from = Some j).
    { rewrite <- Hj. apply job_at_ext, Ha; [|by eapply job_at_not_stats].
      apply (stages_tracked _ _ _ Hst (WDelete from)). set_solver. }
    assert (∃ v, run (pre ++ WMerge h (encode (claim_end_attempt e now j)) :: WDelete from
        :: put_writes key (claim_end_record e now j)) m
      = release_map (queue j) None (move_map from key (claim_end_record e now j) (<[h := v]> m)))
      as [v ->].
    { destruct Hor as [->| ->]; cbn [app]; [|rewrite run_delete_first by done]; by eexists. }
    destruct (store_ok_job _ _ _ Hm Hjm) as (_ & _ & Hix & _).
    eapply steps_ok_trans; [apply steps_ok_history; [done|by eexists]|].
    eapply steps_ok_move; try done.
    + apply store_ok_history; [by eexists|done].
    + unfold job_at. by rewrite lookup_insert_ne.
    + by apply job_ok_claim_end.
    + by left.
    + rewrite Hd, Hd0. congruence.
Qed.

(** A history entry of a job the transaction holds. *)
Lemma sound_append t i e r :
  sound t → job_index_key i ∈ ttracked t → is_Some (tview t !! job_index_key i) →
  t_append_attempt i e t = Ok r → sound r.2.
Proof.
  intros Ht Hk Hi (Hst & _ & Hd)%t_append_attempt_Ok. eapply sound_step; [done..|].
  intros m Hm Ha. rewrite Hd. cbn. apply steps_ok_history; [done|].
  rewrite Ha; [done| |done]. by apply (stages_mono _ _ _ Hst).
Qed.

End sound.
