(* ===== verification/Core.v ===== *)
(** * The process state and its commits (taquba/src/queue_core.rs, taquba/src/txn.rs)

    The state an open queue shares between its handle and its background tasks,
    the begin and the commit of a transaction, and the retry loop every
    transition runs in. *)
From S2P Require Import Prelude Bytes Error Monad Keys Job Store Stats LeaseRegistry.
From S2P Require Import TimeBound ClaimCursor Completion Txn.

(** ** Configuration (taquba/src/options.rs) *)

Definition DEFAULT_MAX_ATTEMPTS : Z := 3.
Definition DEFAULT_LEASE_DURATION : Duration := from_secs 30.
Definition PRIORITY_NORMAL : Z := 1000.

Record QueueConfig := mkConfig {
  cfg_max_attempts : Z;
  cfg_lease_duration : Duration;
  cfg_default_priority : Z;
  cfg_retry_backoff_base : Duration;
  cfg_retry_backoff_max : Duration;
  cfg_keep_done_jobs : option Duration;
  cfg_dead_retention : option Duration;
}.

Definition config_default : QueueConfig :=
  mkConfig DEFAULT_MAX_ATTEMPTS DEFAULT_LEASE_DURATION PRIORITY_NORMAL (from_secs 1)
    (from_secs 300) None (Some (from_secs (7 * 24 * 3600))).

(** The setters of [QueueConfig]. *)
Definition config_max_attempts (v : Z) (c : QueueConfig) : QueueConfig :=
  mkConfig v (cfg_lease_duration c) (cfg_default_priority c) (cfg_retry_backoff_base c)
    (cfg_retry_backoff_max c) (cfg_keep_done_jobs c) (cfg_dead_retention c).
Definition config_lease_duration (v : Duration) (c : QueueConfig) : QueueConfig :=
  mkConfig (cfg_max_attempts c) v (cfg_default_priority c) (cfg_retry_backoff_base c)
    (cfg_retry_backoff_max c) (cfg_keep_done_jobs c) (cfg_dead_retention c).
Definition config_default_priority (v : Z) (c : QueueConfig) : QueueConfig :=
  mkConfig (cfg_max_attempts c) (cfg_lease_duration c) v (cfg_retry_backoff_base c)
    (cfg_retry_backoff_max c) (cfg_keep_done_jobs c) (cfg_dead_retention c).
Definition config_retry_backoff_base (v : Duration) (c : QueueConfig) : QueueConfig :=
  mkConfig (cfg_max_attempts c) (cfg_lease_duration c) (cfg_default_priority c) v (cfg_retry_backoff_max c)
    (cfg_keep_done_jobs c) (cfg_dead_retention c).
Definition config_retry_backoff_max (v : Duration) (c : QueueConfig) : QueueConfig :=
  mkConfig (cfg_max_attempts c) (cfg_lease_duration c) (cfg_default_priority c) (cfg_retry_backoff_base c) v
    (cfg_keep_done_jobs c) (cfg_dead_retention c).
Definition config_keep_done_jobs (v : option Duration) (c : QueueConfig) : QueueConfig :=
  mkConfig (cfg_max_attempts c) (cfg_lease_duration c) (cfg_default_priority c) (cfg_retry_backoff_base c)
    (cfg_retry_backoff_max c) v (cfg_dead_retention c).
Definition config_dead_retention (v : option Duration) (c : QueueConfig) : QueueConfig :=
  mkConfig (cfg_max_attempts c) (cfg_lease_duration c) (cfg_default_priority c) (cfg_retry_backoff_base c)
    (cfg_retry_backoff_max c) (cfg_keep_done_jobs c) v.

Record QueueConfigs := mkConfigs {
  configs_default : QueueConfig;
  per_queue : gmap string QueueConfig;
}.

(** [QueueConfigs::get] and [QueueConfigs::iter]. *)
Definition configs_get (c : QueueConfigs) (q : string) : QueueConfig :=
  default (configs_default c) (per_queue c !! q).
Definition configs_iter (c : QueueConfigs) : list QueueConfig :=
  configs_default c :: (map_to_list (per_queue c)).*2.

(** ** The libraries around the process

    The object store of the payloads; the clock, as its successive readings; and
    the ULIDs, as the successive values of [Ulid::new] and of the generator,
    which takes the time it is called with. *)
Class ObjectStore := {
  Objects : Type;
  path_from : string → string;
  os_put : string → bytes → Objects → result ObjectStoreError () * Objects;
  os_get : string → Objects → result ObjectStoreError bytes;
  os_delete : string → Objects → result ObjectStoreError () * Objects;
  os_delete_stream : list string → Objects → list (result ObjectStoreError ()) * Objects;
}.

(** [PayloadStore] of taquba/src/payload_store.rs, without its object store. *)
Record PayloadStore := mkPayloadStore { ps_prefix : string; offload_threshold : option nat }.

Class Env := {
  clock_now : nat → Z;
  ulid_new : nat → Z;
  ulid_generate : nat → Z → Z;
  ulid_string : Z → string;
  configs : QueueConfigs;
  payload_store : PayloadStore;
}.

Section core.
  Context {DB : SlateDb} {OS : ObjectStore} {SR : Serde JobRecord} {SA : Serde JobAttempt}.
  Context {EN : Env}.

(** [QueueCore]: the store, how far the clock and the generators were read, and
    the in-process registries. *)
Record Core := mkCore {
  db : Db;
  ticks : nat;
  ulids : nat;
  job_ids : nat;
  tokens : nat;
  claim_cursor : ClaimCursor;
  scheduled_bound : TimeBound;
  done_bound : TimeBound;
  expiry_bounds : gmap nat TimeBound;
  inbox_bound : option TimeBound;
  lease_registry : LeaseRegistry;
  completion_waiters : CompletionWaiters;
  objects : Objects;
  core_closed : bool;
}.

Definition set_db (v : Db) (c : Core) : Core :=
  mkCore v (ticks c) (ulids c) (job_ids c) (tokens c) (claim_cursor c) (scheduled_bound c)
    (done_bound c) (expiry_bounds c) (inbox_bound c) (lease_registry c)
    (completion_waiters c) (objects c) (core_closed c).
Definition set_ticks (v : nat) (c : Core) : Core :=
  mkCore (db c) v (ulids c) (job_ids c) (tokens c) (claim_cursor c) (scheduled_bound c)
    (done_bound c) (expiry_bounds c) (inbox_bound c) (lease_registry c)
    (completion_waiters c) (objects c) (core_closed c).
Definition set_ulids (v : nat) (c : Core) : Core :=
  mkCore (db c) (ticks c) v (job_ids c) (tokens c) (claim_cursor c) (scheduled_bound c)
    (done_bound c) (expiry_bounds c) (inbox_bound c) (lease_registry c)
    (completion_waiters c) (objects c) (core_closed c).
Definition set_job_ids (v : nat) (c : Core) : Core :=
  mkCore (db c) (ticks c) (ulids c) v (tokens c) (claim_cursor c) (scheduled_bound c)
    (done_bound c) (expiry_bounds c) (inbox_bound c) (lease_registry c)
    (completion_waiters c) (objects c) (core_closed c).
Definition set_tokens (v : nat) (c : Core) : Core :=
  mkCore (db c) (ticks c) (ulids c) (job_ids c) v (claim_cursor c) (scheduled_bound c)
    (done_bound c) (expiry_bounds c) (inbox_bound c) (lease_registry c)
    (completion_waiters c) (objects c) (core_closed c).
Definition set_claim_cursor (v : ClaimCursor) (c : Core) : Core :=
  mkCore (db c) (ticks c) (ulids c) (job_ids c) (tokens c) v (scheduled_bound c) (done_bound
    c) (expiry_bounds c) (inbox_bound c) (lease_registry c) (completion_waiters c)
    (objects c) (core_closed c).
Definition set_scheduled_bound (v : TimeBound) (c : Core) : Core :=
  mkCore (db c) (ticks c) (ulids c) (job_ids c) (tokens c) (claim_cursor c) v (done_bound c)
    (expiry_bounds c) (inbox_bound c) (lease_registry c) (completion_waiters c) (objects
    c) (core_closed c).
Definition set_done_bound (v : TimeBound) (c : Core) : Core :=
  mkCore (db c) (ticks c) (ulids c) (job_ids c) (tokens c) (claim_cursor c) (scheduled_bound
    c) v (expiry_bounds c) (inbox_bound c) (lease_registry c) (completion_waiters c)
    (objects c) (core_closed c).
Definition set_expiry_bounds (v : gmap nat TimeBound) (c : Core) : Core :=
  mkCore (db c) (ticks c) (ulids c) (job_ids c) (tokens c) (claim_cursor c) (scheduled_bound
    c) (done_bound c) v (inbox_bound c) (lease_registry c) (completion_waiters c)
    (objects c) (core_closed c).
Definition set_inbox_bound (v : option TimeBound) (c : Core) : Core :=
  mkCore (db c) (ticks c) (ulids c) (job_ids c) (tokens c) (claim_cursor c) (scheduled_bound
    c) (done_bound c) (expiry_bounds c) v (lease_registry c) (completion_waiters c)
    (objects c) (core_closed c).
Definition set_lease_registry (v : LeaseRegistry) (c : Core) : Core :=
  mkCore (db c) (ticks c) (ulids c) (job_ids c) (tokens c) (claim_cursor c) (scheduled_bound
    c) (done_bound c) (expiry_bounds c) (inbox_bound c) v (completion_waiters c)
    (objects c) (core_closed c).
Definition set_completion_waiters (v : CompletionWaiters) (c : Core) : Core :=
  mkCore (db c) (ticks c) (ulids c) (job_ids c) (tokens c) (claim_cursor c) (scheduled_bound
    c) (done_bound c) (expiry_bounds c) (inbox_bound c) (lease_registry c) v (objects c)
    (core_closed c).
Definition set_objects (v : Objects) (c : Core) : Core :=
  mkCore (db c) (ticks c) (ulids c) (job_ids c) (tokens c) (claim_cursor c) (scheduled_bound
    c) (done_bound c) (expiry_bounds c) (inbox_bound c) (lease_registry c)
    (completion_waiters c) v (core_closed c).
Definition set_core_closed (v : bool) (c : Core) : Core :=
  mkCore (db c) (ticks c) (ulids c) (job_ids c) (tokens c) (claim_cursor c) (scheduled_bound
    c) (done_bound c) (expiry_bounds c) (inbox_bound c) (lease_registry c)
    (completion_waiters c) (objects c) v.

(** What a call runs in: the process state, and what the other tasks of the
    process do to it at the points where this call lets them run. *)
Record World := mkWorld { core : Core; others : list (Core → Core) }.

Abbreviation Q := (IO World).

Definition get {A} (f : Core → A) : Q A := io_gets (λ w, f (core w)).
Definition upd (f : Core → Core) : Q () := io_modify (λ w, mkWorld (f (core w)) (others w)).

(** A point where other tasks run. *)
Definition yield : Q () := io_modify (λ w,
  match others w with [] => w | f :: fs => mkWorld (f (core w)) fs end).

(** [QueueCore::now_ms]. *)
Definition now_ms : Q Z :=
  n ← get ticks; upd (λ c, set_ticks (S n) c) ≫= λ _, mret (clock_now n).

(** [Ulid::new()]. *)
Definition new_ulid : Q Z :=
  n ← get ulids; upd (λ c, set_ulids (S n) c) ≫= λ _, mret (ulid_new n).

(** [CancellationToken::new()]. *)
Definition new_token : Q CancellationToken :=
  n ← get tokens; upd (λ c, set_tokens (S n) c) ≫= λ _, mret n.

(** ** Transactions *)

(** [QueueCore::begin]. *)
Definition begin : Q Txn :=
  d ← get db;
  t ← io_result (lift (db_begin d));
  mret (mkTxn t notes_default ∅).

(** A step of a transaction inside a call. *)
Definition staging {A} (m : TxnM A) (t : Txn) : Q (A * Txn) := io_result (m t).

(** The counters of the commit. *)
Fixpoint write_stats (stats : list (QueueName * JobStatus * Z)) (t : DbTransaction)
    : Result DbTransaction :=
  match stats with
  | [] => Ok t
  | (q, s, delta) :: stats =>
      t ← (if decide (delta = 0%Z) then Ok t else update_stats t q s delta);
      write_stats stats t
  end.

(** [txn::commit]. *)
Definition commit_txn (t : DbTransaction) (durability : Durability) : Q Commit :=
  d ← get db;
  match txn_commit d t with
  | Ok d' =>
      upd (set_db d') ≫= λ _,
      match durability with
      | Awaited => io_result (lift (db_await_durable d')) ≫= λ _, mret Committed
      | Deferred => mret Committed
      end
  | Err e => if decide (slate_kind e = TransactionKind) then mret Conflict else io_err (Storage e)
  end.

(** The bound of an expiry index, [TimeBound::new] until it is first used. *)
Definition expiry_bound (n : nat) (c : Core) : TimeBound :=
  default time_bound_new (expiry_bounds c !! n).

(** [ExpiryIndex::written]. *)
Definition expiry_written (index : ExpiryIndex) (at_ms : Z) (c : Core) : Core :=
  set_expiry_bounds
    (<[index_bound index := lower at_ms (expiry_bound (index_bound index) c)]> (expiry_bounds c)) c.

(** What [QueueCore::commit] does with the notes of a committed transaction. *)
Definition apply_notes (n : CommitNotes) (c : Core) : Core :=
  let c := set_claim_cursor
    (foldl (λ cur '(q, (min_key, count)), note_pending_inserts q min_key count cur)
      (claim_cursor c) (map_to_list (note_pending n))) c in
  let c := match note_scheduled n with
    | Some run_at => set_scheduled_bound (lower run_at (scheduled_bound c)) c | None => c end in
  let c := match note_done n with
    | Some at' => set_done_bound (lower at' (done_bound c)) c | None => c end in
  let c := foldl (λ c '(index, at_ms), expiry_written index at_ms c) c (note_expiry n) in
  match note_inbox n, inbox_bound c with
  | Some at', Some b => set_inbox_bound (Some (lower at' b)) c
  | _, _ => c
  end.

(** [QueueCore::commit]. Other tasks can run between the commit and the notes. *)
Definition commit (t : Txn) (durability : Durability) : Q Commit :=
  t' ← io_result (write_stats (map_to_list (tstats t)) (txn t));
  outcome ← commit_txn t' durability;
  match outcome with
  | Committed => yield ≫= λ _, upd (apply_notes (notes t)) ≫= λ _, mret Committed
  | Conflict => mret Conflict
  end.

(** [QueueCore::retry]. Other tasks can run after the snapshot is taken and
    before the commit; each takes an entry of [others], so that many attempts
    and one more are enough. *)
Fixpoint retry_loop {T} (fuel : nat) (durability : Durability)
    (body : Txn → Q (Attempt T * Txn)) : Q T :=
  match fuel with
  | O => io_err Unfinished
  | S fuel =>
      t ← begin;
      yield ≫= λ _,
      '(attempt, t') ← body t;
      match attempt with
      | AbortWith v => mret v
      | CommitWith v =>
          yield ≫= λ _,
          outcome ← commit t' durability;
          match outcome with
          | Committed => mret v
          | Conflict => retry_loop fuel durability body
          end
      end
  end.

Definition retry {T} (durability : Durability) (body : Txn → Q (Attempt T * Txn)) : Q T :=
  λ w, retry_loop (S (length (others w))) durability body w.

(** [QueueCore::transition_by_id]. *)
Definition transition_by_id {T} (jid : string) (durability : Durability) (missing : Result T)
    (transition : Txn → bytes → JobRecord → Q (Attempt T * Txn)) : Q T :=
  retry durability (λ t,
    found ← io_result (get_indexed_job (txn t) jid);
    match found with
    | None => v ← io_result missing; mret (AbortWith v, t)
    | Some (_, current_key, j) => transition t current_key j
    end).

End core.
Abbreviation Q := (IO World).
