(* ===== verification/QueueCore.v ===== *)
(** * The queue core: offloaded payloads and the end of a claim (taquba/src/payload_store.rs,
    taquba/src/objects.rs, taquba/src/queue_core.rs)

    The objects that hold the payloads above the threshold: written before the
    transaction that writes the record, deleted after the removal of the record; and
    what the process does once the end of a claim is committed. *)
From S2P Require Import Prelude Bytes Error Monad Keys Job Store Stats.
From S2P Require Import LeaseRegistry TimeBound ClaimCursor Completion Txn Core.

Section payload_store.
  Context {DB : SlateDb} {OS : ObjectStore} {SR : Serde JobRecord} {SA : Serde JobAttempt}.
  Context {EN : Env}.

(** A call on the object store of the process. *)
Definition on_objects {A} (f : Objects → A * Objects) : Q A :=
  io_state (λ w, let '(a, o) := f (objects (core w)) in
    (a, mkWorld (set_objects o (core w)) (others w))).

(** [PayloadStore::object_path]. *)
Definition object_path (payload_ref : string) : string :=
  path_from (ps_prefix payload_store +:+ "/" +:+ payload_ref).

(** [PayloadStore::put], [get] and [delete]. *)
Definition payload_put (payload_ref : string) (payload : bytes) : Q () :=
  r ← on_objects (os_put (object_path payload_ref) payload);
  match r with Ok _ => mret tt | Err e => io_err (PayloadStoreError e) end.

Definition payload_get (payload_ref jid : string) : Q bytes :=
  r ← get (λ c, os_get (object_path payload_ref) (objects c));
  match r with
  | Ok b => mret b
  | Err NotFound => io_err (PayloadMissing jid)
  | Err e => io_err (PayloadStoreError e)
  end.

Definition payload_delete (payload_ref : string) : Q () :=
  r ← on_objects (os_delete (object_path payload_ref));
  match r with
  | Ok _ | Err NotFound => mret tt
  | Err e => io_err (PayloadStoreError e)
  end.

(** [PayloadStore::offload]: the job with its payload moved to an object. On a
    failed write the payload has left the job. *)
Definition offload (j : JobRecord) : Q JobRecord :=
  match offload_threshold payload_store with
  | None => mret j
  | Some threshold =>
      if decide (length (payload j) ≤ threshold) then mret j
      else
        u ← new_ulid;
        let payload_ref := ulid_string u in
        payload_put payload_ref (payload j) ≫= λ _,
        mret (set_payload_ref (Some payload_ref) (set_payload [] j))
  end.

(** [PayloadStore::delete_best_effort] and [PayloadStore::delete_for]. *)
Definition delete_best_effort (payload_ref jid : string) : Q () :=
  io_try (payload_delete payload_ref) ≫= λ _, mret tt.

Definition delete_for (j : JobRecord) : Q () :=
  match payload_ref j with
  | Some r => delete_best_effort r (id j)
  | None => mret tt
  end.

(** [PayloadStore::offload_all], over the jobs after the offloaded ones [before]. *)
Fixpoint offload_all_from (before jobs : list JobRecord) : Q (list JobRecord) :=
  match jobs with
  | [] => mret before
  | j :: jobs =>
      r ← io_try (offload j);
      match r with
      | Ok j => offload_all_from (before ++ [j]) jobs
      | Err e => io_for_each delete_for before ≫= λ _, io_err e
      end
  end.
Definition offload_all (jobs : list JobRecord) : Q (list JobRecord) := offload_all_from [] jobs.

(** [PayloadStore::materialize]. *)
Definition materialize (j : JobRecord) : Q JobRecord :=
  match payload_ref j with
  | Some r => b ← payload_get r (id j); mret (set_payload b j)
  | None => mret j
  end.

(** [delete_objects]: the number of failed deletes with the first error. *)
Definition count_failed (results : list (result ObjectStoreError ()))
    : option (Z * ObjectStoreError) :=
  foldl (λ failed r,
    match r with
    | Ok _ | Err NotFound => failed
    | Err e => match failed with Some (n, e0) => Some ((n + 1)%Z, e0) | None => Some (1%Z, e) end
    end) None results.
Definition delete_objects (locations : list string) : Q (option (Z * ObjectStoreError)) :=
  results ← on_objects (os_delete_stream locations);
  mret (count_failed results).

(** [PayloadStore::delete_all]. *)
Definition delete_all (payload_refs : list string) : Q () :=
  delete_objects (map object_path payload_refs) ≫= λ _, mret tt.

End payload_store.

(** ** The end of a claim and the close of the store *)

Section queue_core.
  Context {DB : SlateDb} {OS : ObjectStore} {SR : Serde JobRecord} {SA : Serde JobAttempt}.
  Context {EN : Env}.

Definition upd_registry (f : LeaseRegistry → LeaseRegistry) : Q () :=
  upd (λ c, set_lease_registry (f (lease_registry c)) c).

(** [has_waiters] and [settle] of the registry of the process. *)
Definition core_has_waiters (jid : string) : Q bool :=
  get (λ c, has_waiters jid (completion_waiters c)).
Definition settle_waiters (jid : string) (outcome : WaitOutcome) : Q () :=
  upd (λ c, set_completion_waiters (waiters_settle jid outcome (completion_waiters c)) c).

(** [QueueCore::finish_claim_end]. Other tasks can run between the commit of the
    transition and its completion. *)
Definition finish_claim_end (j : JobRecord) (e : ClaimEnd) (cid : Z) (claim : option Claim) : Q () :=
  yield ≫= λ _,
  upd_registry (lease_remove (queue j) (id j) cid) ≫= λ _,
  (if decide (e = EndDone false) then delete_for j else mret tt) ≫= λ _,
  waiting ← core_has_waiters (id j);
  if negb (is_terminal e) || negb waiting then mret tt
  else
    delivered ← (match payload_ref j, claim with
      | Some _, Some cl => mret (set_payload (payload (job cl)) j)
      | Some _, None =>
          r ← io_try (materialize j);
          mret (match r with Ok j => j | Err _ => j end)
      | None, _ => mret j
      end : Q JobRecord);
    settle_waiters (id j)
      (if decide (status j = Dead) then WaitDead delivered else WaitDone delivered).

(** [watch_store_close], once the store reports a close reason. *)
Definition watch_store_close : Q () :=
  upd (set_core_closed true) ≫= λ _,
  yield ≫= λ _,
  upd_registry lease_close.

End queue_core.
