(* ===== verification/Control.v ===== *)
(** * Wakes and cancels, staged (taquba/src/queue_core/control.rs)

    The wake of a scheduled job and the cancel of a job inside a transaction. *)
From S2P Require Import Prelude Bytes Error Monad Keys Job Store Stats LeaseRegistry.
From S2P Require Import Txn.

Inductive Wake := WakeSignal (signal_payload : bytes) | WakeCount (count : string) | WakeEarly.

Inductive NotWoken := Missing | Unscheduled | NoWait.

(** [CancelOutcome] of taquba/src/queue.rs. *)
Inductive CancelOutcome := CancelRemoved | CancelRequestedOutcome | CancelNotFound.

Inductive StagedCancel :=
| Removed (j : JobRecord)
| Requested (j : JobRecord)
| AlreadyRequested (j : JobRecord)
| CancelMissing.

(** [StagedCancel::outcome]. *)
Definition cancel_outcome (s : StagedCancel) : CancelOutcome :=
  match s with
  | Removed _ => CancelRemoved
  | Requested _ | AlreadyRequested _ => CancelRequestedOutcome
  | CancelMissing => CancelNotFound
  end.

Section control.
  Context {DB : SlateDb} {SR : Serde JobRecord} {SA : Serde JobAttempt}.

(** What the wake requires of a scheduled job: the record to move, or why it
    stays. *)
Definition wake_record (wake : Wake) (j : JobRecord) : NotWoken + JobRecord :=
  match wake with
  | WakeSignal payload =>
      if signal_wait j then inr (set_signal (Some payload) j) else inl NoWait
  | WakeCount name =>
      if decide (count_wait j = Some name) then inr j else inl NoWait
  | WakeEarly => inr j
  end.

(** [stage_wake]. *)
Definition stage_wake (jid : string) (wake : Wake) : TxnM (NotWoken + QueueName) :=
  found ← reads (λ t, get_indexed_job (txn t) jid);
  match found with
  | None => mret (inl Missing)
  | Some (_, current_key, j) =>
      if decide (status j = Scheduled) then
        match wake_record wake j with
        | inl why => mret (inl why)
        | inr j => j ← stage_to_pending current_key j; mret (inr (queue j))
        end
      else mret (inl Unscheduled)
  end.

(** [stage_cancel]. *)
Definition stage_cancel (jid : string) : TxnM StagedCancel :=
  found ← reads (λ t, get_indexed_job (txn t) jid);
  match found with
  | None => mret CancelMissing
  | Some (_, current_key, j) =>
      match status j with
      | Pending | Scheduled => stage_remove current_key j ≫= λ _, mret (Removed j)
      | Claimed =>
          if cancel_requested j then mret (AlreadyRequested j)
          else j ← move_job current_key (set_cancel_requested true j); mret (Requested j)
      | Done | Dead => mret CancelMissing
      end
  end.

End control.

(** ** Counts (taquba/src/count.rs)

    A named number of active items, and the job that waits for it to reach zero. *)

Record CountRecord := mkCount { active : Z; waiter : option string }.

Definition count_default : CountRecord := mkCount 0 None.

Section count.
  Context {DB : SlateDb} {SR : Serde JobRecord} {SA : Serde JobAttempt} {SC : Serde CountRecord}.

(** [read_record]. *)
Definition read_record (key : bytes) : TxnM CountRecord :=
  raw ← t_get key;
  match raw with
  | Some b => of_result (from_slice b)
  | None => mret count_default
  end.

(** [stage_count_change]. *)
Definition stage_count_change (name : string) (delta : Z) : TxnM () :=
  if decide (delta = 0%Z) then mret tt
  else
    let key := count_key name in
    record ← read_record key;
    let active' := wrap_i64 (active record + delta) in
    if decide (active' ≠ 0%Z) then t_put key (encode (mkCount active' (waiter record)))
    else
      t_delete key ≫= λ _,
      match waiter record with
      | Some w => stage_wake w (WakeCount name) ≫= λ _, mret tt
      | None => mret tt
      end.

(** [stage_count_wait]: the job as it is to be inserted. *)
Definition stage_count_wait (j : JobRecord) : TxnM JobRecord :=
  match count_wait j with
  | None => mret j
  | Some name =>
      let key := count_key name in
      record ← read_record key;
      if decide (active record = 0%Z) then
        mret (set_count_wait None (set_signal_wait false (set_run_at None (set_status Pending j))))
      else
        waiting ← match waiter record with
          | Some w =>
              found ← reads (λ t, get_indexed_job (txn t) w);
              mret (match found with
                | Some (_, _, current) =>
                    if decide (status current = Scheduled ∧ count_wait current = Some name)
                    then Some w else None
                | None => None
                end)
          | None => mret None
          end;
        match waiting with
        | Some w => raise (CountWaiterExists name w)
        | None =>
            t_put key (encode (mkCount (active record) (Some (id j)))) ≫= λ _,
            mret j
        end
  end.

End count.
