(* ===== verification/Effects.v ===== *)
(** * Settlement effects and new jobs (taquba/src/effects.rs, taquba/src/kv.rs)

    The preparation of job records and effects before a transaction, their
    staging inside it, and what follows its end. *)
From S2P Require Import Prelude Bytes Error Monad Keys Job Store Stats LeaseRegistry.
From S2P Require Import TimeBound ClaimCursor Completion Txn Core QueueCore.
From S2P Require Import Control.

(** ** Data *)

(** [EnqueueOptions] of taquba/src/options.rs; a [SystemTime] is its number of
    milliseconds from the epoch, negative before it. *)
Record EnqueueOptions := mkOptions {
  opt_max_attempts : option Z;
  opt_priority : option Z;
  opt_run_at : option Z;
  opt_dedup_key : option string;
  opt_headers : gmap string string;
  opt_id_override : option string;
  opt_signal_wait : bool;
  opt_count_wait : option string;
}.

Definition options_default : EnqueueOptions := mkOptions None None None None ∅ None false None.

(** The setters of [EnqueueOptions]. *)
Definition options_max_attempts (v : option Z) (o : EnqueueOptions) : EnqueueOptions :=
  mkOptions v (opt_priority o) (opt_run_at o) (opt_dedup_key o) (opt_headers o) (opt_id_override o)
    (opt_signal_wait o) (opt_count_wait o).
Definition options_priority (v : option Z) (o : EnqueueOptions) : EnqueueOptions :=
  mkOptions (opt_max_attempts o) v (opt_run_at o) (opt_dedup_key o) (opt_headers o) (opt_id_override o)
    (opt_signal_wait o) (opt_count_wait o).
Definition options_run_at (v : option Z) (o : EnqueueOptions) : EnqueueOptions :=
  mkOptions (opt_max_attempts o) (opt_priority o) v (opt_dedup_key o) (opt_headers o) (opt_id_override o)
    (opt_signal_wait o) (opt_count_wait o).
Definition options_dedup_key (v : option string) (o : EnqueueOptions) : EnqueueOptions :=
  mkOptions (opt_max_attempts o) (opt_priority o) (opt_run_at o) v (opt_headers o) (opt_id_override o)
    (opt_signal_wait o) (opt_count_wait o).
Definition options_headers (v : gmap string string) (o : EnqueueOptions) : EnqueueOptions :=
  mkOptions (opt_max_attempts o) (opt_priority o) (opt_run_at o) (opt_dedup_key o) v (opt_id_override o)
    (opt_signal_wait o) (opt_count_wait o).
Definition options_id_override (v : option string) (o : EnqueueOptions) : EnqueueOptions :=
  mkOptions (opt_max_attempts o) (opt_priority o) (opt_run_at o) (opt_dedup_key o) (opt_headers o) v
    (opt_signal_wait o) (opt_count_wait o).
Definition options_signal_wait (v : bool) (o : EnqueueOptions) : EnqueueOptions :=
  mkOptions (opt_max_attempts o) (opt_priority o) (opt_run_at o) (opt_dedup_key o) (opt_headers o)
    (opt_id_override o) v (opt_count_wait o).
Definition options_count_wait (v : option string) (o : EnqueueOptions) : EnqueueOptions :=
  mkOptions (opt_max_attempts o) (opt_priority o) (opt_run_at o) (opt_dedup_key o) (opt_headers o)
    (opt_id_override o) (opt_signal_wait o) v.
Definition options_header (name value : string) (o : EnqueueOptions) : EnqueueOptions :=
  options_headers (<[name := value]> (opt_headers o)) o.

(** [run_at_ms::serialize]: the stored form of a time is its milliseconds as a [u64],
    with 0 for a time before the epoch; and the options that are read back. *)
Definition stored_run_at (when : Z) : Z := wrap64 (Z.max when 0).
Definition stored_options (o : EnqueueOptions) : EnqueueOptions :=
  mkOptions (opt_max_attempts o) (opt_priority o) (stored_run_at <$> opt_run_at o) (opt_dedup_key o)
    (opt_headers o) (opt_id_override o) (opt_signal_wait o) (opt_count_wait o).

Record EnqueueRequest := mkRequest {
  req_queue : string;
  req_payload : bytes;
  req_options : EnqueueOptions;
}.

Record KvCompare := mkCompare { compare_key : bytes; compare_expected : option bytes }.

(** [ClaimFence] of taquba/src/lease.rs. *)
Record ClaimFence := mkFence { fence_queue : QueueName; fence_id : string; fence_claim_id : Z }.

Record SettlementEffects := mkEffects {
  kv_compares : list KvCompare;
  claim_fence : option ClaimFence;
  enqueues : list EnqueueRequest;
  kv_writes : gmap bytes bytes;
  kv_deletes : list bytes;
  expiry_entries : list (ExpiryIndex * Z);
  count_changes : gmap string Z;
}.

Definition effects_default : SettlementEffects := mkEffects [] None [] ∅ [] [] ∅.

(** [ExpiryIndex::entry_key] of taquba/src/expiry.rs. *)
Definition entry_key (index : ExpiryIndex) (at_ms : Z) (suffix : bytes) : bytes :=
  index_prefix index ++ be_bytes 8 at_ms ++ suffix.

(** The builder methods that combine with what is already there. *)
Definition eff_kv_compare (c : KvCompare) (e : SettlementEffects) : SettlementEffects :=
  mkEffects (kv_compares e ++ [c]) (claim_fence e) (enqueues e) (kv_writes e) (kv_deletes e)
    (expiry_entries e) (count_changes e).
Definition eff_count (name : string) (d : Z) (e : SettlementEffects) : SettlementEffects :=
  mkEffects (kv_compares e) (claim_fence e) (enqueues e) (kv_writes e) (kv_deletes e)
    (expiry_entries e)
    (<[name := wrap_i64 (default 0%Z (count_changes e !! name) + d)]> (count_changes e)).
Definition eff_count_up (name : string) : SettlementEffects → SettlementEffects := eff_count name 1.
Definition eff_count_down (name : string) : SettlementEffects → SettlementEffects :=
  eff_count name (-1).
Definition eff_enqueue (r : EnqueueRequest) (e : SettlementEffects) : SettlementEffects :=
  mkEffects (kv_compares e) (claim_fence e) (enqueues e ++ [r]) (kv_writes e) (kv_deletes e)
    (expiry_entries e) (count_changes e).
Definition eff_kv_put (k v : bytes) (e : SettlementEffects) : SettlementEffects :=
  mkEffects (kv_compares e) (claim_fence e) (enqueues e) (<[k := v]> (kv_writes e)) (kv_deletes e)
    (expiry_entries e) (count_changes e).
Definition eff_kv_delete (k : bytes) (e : SettlementEffects) : SettlementEffects :=
  mkEffects (kv_compares e) (claim_fence e) (enqueues e) (kv_writes e) (kv_deletes e ++ [k])
    (expiry_entries e) (count_changes e).
Definition eff_expiry_entry (index : ExpiryIndex) (at_ms : Z) (suffix : bytes)
    (e : SettlementEffects) : SettlementEffects :=
  mkEffects (kv_compares e) (claim_fence e) (enqueues e)
    (<[entry_key index at_ms suffix := []]> (kv_writes e)) (kv_deletes e)
    (expiry_entries e ++ [(index, at_ms)]) (count_changes e).

(** [EnqueueResult] of taquba/src/queue.rs. *)
Inductive EnqueueResult := New (id : string) | AlreadyEnqueued (id : string).

Definition result_id (r : EnqueueResult) : string :=
  match r with New i | AlreadyEnqueued i => i end.

Record PreparedJob := mkPrepared { prepared_job : JobRecord; id_override_used : bool }.

Record PreparedEffects := mkPreparedEffects {
  prep_kv_compares : list KvCompare;
  prep_claim_fence : option ClaimFence;
  prepared_jobs : list PreparedJob;
  prep_kv_writes : gmap bytes bytes;
  prep_kv_deletes : list bytes;
  prep_expiry_entries : list (ExpiryIndex * Z);
  prep_count_changes : gmap string Z;
}.

Definition prepared_default : PreparedEffects := mkPreparedEffects [] None [] ∅ [] [] ∅.

(** ** The user key space (taquba/src/kv.rs) *)

Definition MAX_KV_VALUE_SIZE : nat := Z.to_nat 262144.

(** [validate_kv_value_size]. *)
Definition validate_kv_value_size (value : bytes) : Result () :=
  if decide (MAX_KV_VALUE_SIZE < length value)
  then Err (KvValueTooLarge (length value) MAX_KV_VALUE_SIZE) else Ok ().

(** [MAX_ID_OVERRIDE_LEN], [ID_OVERRIDE_FORM] and [validate_id_override] of
    taquba/src/queue.rs. *)
Definition MAX_ID_OVERRIDE_LEN : nat := 128.
Definition ID_OVERRIDE_FORM : Form := form_id MAX_ID_OVERRIDE_LEN.
Definition validate_id_override (jid : string) : Result () :=
  match form_check ID_OVERRIDE_FORM jid with
  | Ok _ => Ok ()
  | Err reason => Err (InvalidId jid reason)
  end.

Section effects.
  Context {DB : SlateDb} {OS : ObjectStore} {SR : Serde JobRecord} {SA : Serde JobAttempt}.
  Context {SC : Serde CountRecord} {EN : Env}.

(** [kv_state_matches]. *)
Definition kv_state_matches (scoped : bytes) (expected : option bytes) : TxnM bool :=
  t_mark_read [scoped] ≫= λ _,
  current ← t_get scoped;
  mret (bool_decide (current = expected)).

(** ** Preparation *)

(** [QueueCore::next_job_id]. *)
Definition next_job_id : Q string :=
  at' ← now_ms;
  n ← get job_ids;
  upd (λ c, set_job_ids (S n) c) ≫= λ _,
  mret (ulid_string (ulid_generate n at')).

(** [QueueCore::prepare_job_record]. *)
Definition prepare_job_record (q : string) (pl : bytes) (opts : EnqueueOptions) : Q PreparedJob :=
  q ← io_result (QueueName_new q);
  let cfg := configs_get configs (qn_str q) in
  let max' := default (cfg_max_attempts cfg) (opt_max_attempts opts) in
  let prio := default (cfg_default_priority cfg) (opt_priority opts) in
  run ← (match opt_run_at opts with
    | Some when =>
        let ms := wrap64 (Z.max when 0) in
        now ← now_ms;
        mret (if (now <? ms)%Z then Some ms else None)
    | None => mret None
    end : Q (option Z));
  '(jid, overridden) ← (match opt_id_override opts with
    | Some supplied => io_result (validate_id_override supplied) ≫= λ _, mret (supplied, true)
    | None => i ← next_job_id; mret (i, false)
    end : Q (string * bool));
  if opt_signal_wait opts && bool_decide (opt_run_at opts = None) then io_err SignalWaitWithoutRunAt
  else if bool_decide (is_Some (opt_count_wait opts)) && bool_decide (opt_run_at opts = None)
  then io_err CountWaitWithoutRunAt
  else
    now ← now_ms;
    let j := set_headers (opt_headers opts) (new_pending jid q pl max' prio now) in
    let j := if decide (is_Some run) then set_status Scheduled j else j in
    let scheduled := bool_decide (status j = Scheduled) in
    let j := set_dedup_key (opt_dedup_key opts) (set_run_at run j) in
    let j := set_signal_wait (opt_signal_wait opts && scheduled) j in
    let j := set_count_wait (if scheduled then opt_count_wait opts else None) j in
    mret (mkPrepared j overridden).

(** [QueueCore::offload_prepared] and [QueueCore::discard_prepared]. *)
Definition offload_prepared (prepared : list PreparedJob) : Q (list PreparedJob) :=
  js ← offload_all (map prepared_job prepared);
  mret (zip_with (λ p j, mkPrepared j (id_override_used p)) prepared js).

Definition discard_prepared (prepared : list PreparedJob) : Q () :=
  io_for_each (λ p, delete_for (prepared_job p)) prepared.

(** [QueueCore::finish_effects]. *)
Definition finish_effects (prepared : PreparedEffects) (results : option (list EnqueueResult))
    : Q (option (list EnqueueResult)) :=
  match results with
  | None => discard_prepared (prepared_jobs prepared) ≫= λ _, mret None
  | Some results =>
      io_for_each (λ '(p, r),
          match r with
          | AlreadyEnqueued _ => delete_for (prepared_job p)
          | New _ => mret tt
          end) (zip (prepared_jobs prepared) results) ≫= λ _,
      mret (Some results)
  end.

(** [QueueCore::prepare_effects]. *)
Definition prepare_effects (e : SettlementEffects) : Q PreparedEffects :=
  io_for_each (λ '(_, v), io_result (validate_kv_value_size v)) (map_to_list (kv_writes e)) ≫= λ _,
  match list_find (λ k, is_Some (kv_writes e !! k)) (kv_deletes e) with
  | Some (_, key) => io_err (ConflictingKvEffect key)
  | None =>
      js ← io_mapM (λ r, prepare_job_record (req_queue r) (req_payload r) (req_options r))
             (enqueues e);
      js ← offload_prepared js;
      mret (mkPreparedEffects (kv_compares e) (claim_fence e) js (kv_writes e) (kv_deletes e)
              (expiry_entries e) (count_changes e))
  end.

(** ** Staging *)

(** [QueueCore::stage_job_writes]: the id of the new job, or of the job the dedup
    key matched. *)
Definition stage_job_writes (p : PreparedJob) : TxnM (string + string) :=
  let j := prepared_job p in
  let dkey := dedup_index_key (queue j) <$> dedup_key j in
  existing ← match dkey with Some k => t_get k | None => mret None end;
  match existing with
  | Some b =>
      match from_utf8 b with
      | Some i => mret (inl i)
      | None => raise InvalidState
      end
  | None =>
      taken ← (if id_override_used p then t_get (job_index_key (id j)) else mret None);
      match taken with
      | Some _ => raise (DuplicateJobId (id j))
      | None =>
          match count_wait j with
          | Some _ => j ← stage_count_wait j; insert_job j
          | None => insert_job j
          end ≫= λ _,
          match dkey with Some k => t_put k (as_bytes (id j)) | None => mret tt end ≫= λ _,
          mret (inr (id j))
      end
  end.

Fixpoint stage_compares (cs : list KvCompare) : TxnM () :=
  match cs with
  | [] => mret tt
  | c :: cs =>
      kv_state_matches (user_scoped_key (compare_key c)) (compare_expected c) ≫= λ same : bool,
      if same then stage_compares cs else raise (KvCompareFailed (compare_key c))
  end.

Fixpoint stage_enqueues (ps : list PreparedJob) : TxnM (list EnqueueResult) :=
  match ps with
  | [] => mret []
  | p :: ps =>
      r ← stage_job_writes p;
      rs ← stage_enqueues ps;
      mret (match r with inr i => New i | inl i => AlreadyEnqueued i end :: rs)
  end.

(** [QueueCore::stage_effects]. *)
Definition stage_effects (registry : LeaseRegistry) (p : PreparedEffects)
    : TxnM (list EnqueueResult) :=
  match prep_claim_fence p with
  | Some f => read_claim registry (fence_queue f) (fence_id f) (fence_claim_id f) ≫= λ _, mret tt
  | None => mret tt
  end ≫= λ _,
  stage_compares (prep_kv_compares p) ≫= λ _,
  for_each (λ '(name, d), stage_count_change name d) (map_to_list (prep_count_changes p)) ≫= λ _,
  results ← stage_enqueues (prepared_jobs p);
  for_each (λ '(k, v), t_put (user_scoped_key k) v) (map_to_list (prep_kv_writes p)) ≫= λ _,
  for_each (λ k, t_delete (user_scoped_key k)) (prep_kv_deletes p) ≫= λ _,
  for_each (λ '(index, at_ms), note_expiry_entry index at_ms) (prep_expiry_entries p) ≫= λ _,
  mret results.

(** ** Facts *)

Lemma stored_run_at_idemp t : stored_run_at (stored_run_at t) = stored_run_at t.
Proof using Type.
  unfold stored_run_at. pose proof (wrap64_range (Z.max t 0)) as H. unfold is_u64 in H.
  rewrite Z.max_l by lia. by apply wrap64_small.
Qed.

(** The options that are read back make the same job. *)
Lemma prepare_stored_options q pl o w :
  prepare_job_record q pl (stored_options o) w = prepare_job_record q pl o w.
Proof using Type.
  unfold prepare_job_record. destruct o as [m p [t|] d h i s c]; [|done]. cbn [stored_options opt_run_at fmap option_fmap option_map].
  pose proof (stored_run_at_idemp t) as Hs. unfold stored_run_at in *. by rewrite Hs.
Qed.
End effects.
