(* ===== verification/Claim.v ===== *)
(** * Claims (taquba/src/queue_core/claim.rs)

    The scan claim of a batch, the claim of one job by id, and the fetch of their
    offloaded payloads. *)
From S2P Require Import Prelude Bytes Error Monad Keys Job Store Stats LeaseRegistry.
From S2P Require Import TimeBound ClaimCursor Completion Txn Core QueueCore.


(** [ClaimOutcome] of taquba/src/queue.rs. *)
Inductive ClaimOutcome := ClaimedOutcome (c : Claim) | NotClaimable | ClaimNotFound.

Section claim.
  Context {DB : SlateDb} {OS : ObjectStore} {SR : Serde JobRecord} {SA : Serde JobAttempt}.
  Context {EN : Env}.

(** [new_claim_id]: the low 64 bits of a new ULID. *)
Definition new_claim_id : Q Z := u ← new_ulid; mret (wrap64 u).

(** The record of a claim of [j] at [now]; the dedup key has left it. *)
Definition claim_record (now : Z) (j : JobRecord) : JobRecord :=
  set_dedup_key None (set_attempts (wrap32 (attempts j + 1))
    (set_claimed_at (Some now) (set_status Claimed j))).

(** The deletion of the dedup entry of a claimed job. *)
Definition release_dedup (q : QueueName) (dk : option string) : TxnM () :=
  match dk with Some dk => t_delete (dedup_index_key q dk) | None => mret tt end.

(** The claim of one decoded candidate inside the transaction: the move of the
    record, and the lease entry, registered before the commit. *)
Definition claim_job (from : bytes) (j : JobRecord) (now lease_expires_at : Z) (t : Txn)
    : Q (Claim * Txn) :=
  let dedup_key_to_release := dedup_key j in
  cid ← new_claim_id;
  '(j, t) ← staging (move_job from (claim_record now j)) t;
  cancel ← new_token;
  (if cancel_requested j then upd_registry (fire cancel) else mret tt) ≫= λ _,
  upd_registry (lease_insert (queue j) (id j) lease_expires_at cid cancel) ≫= λ _,
  '(_, t) ← staging (release_dedup (queue j) dedup_key_to_release) t;
  mret (mkClaim j cid cancel, t).

(** The loop over the candidates of a scan. *)
Fixpoint claim_candidates (candidates : list kv) (now lease_expires_at : Z) (t : Txn)
    : Q (list Claim * Txn) :=
  match candidates with
  | [] => mret ([], t)
  | (k, v) :: candidates =>
      j ← io_result (decode_job k v);
      '(c, t) ← claim_job k j now lease_expires_at t;
      '(cs, t) ← claim_candidates candidates now lease_expires_at t;
      mret (c :: cs, t)
  end.

(** Where the scan of a claim starts, relative to the pending prefix. *)
Definition scan_start (q : QueueName) (scan : ClaimScanStart) : ScanStart :=
  match start_scan_from scan with
  | Some sf =>
      let suffix := drop (length (pending_prefix q)) (sf_key sf) in
      if inclusive sf then Included suffix else Excluded suffix
  | None => Unbounded
  end.

Definition upd_cursor (f : ClaimCursor → ClaimCursor) : Q () :=
  upd (λ c, set_claim_cursor (f (claim_cursor c)) c).

(** [QueueCore::claim_batch_locked]. The scan state is read before the
    transaction begins; other tasks can run after that read, after the snapshot
    and before the commit. *)
Fixpoint claim_batch_loop (fuel : nat) (q : QueueName) (max_jobs : nat) (lease_duration : Duration)
    : Q (list Claim) :=
  match fuel with
  | O => io_err Unfinished
  | S fuel =>
      scan ← get (λ c, begin_claim q (claim_cursor c));
      if start_known_empty scan then mret []
      else
        yield ≫= λ _,
        t ← begin;
        yield ≫= λ _,
        found ← io_result (lift (txn_scan_prefix (txn t) (pending_prefix q) (scan_start q scan)));
        let candidates := take max_jobs found in
        let drained := bool_decide (length found < max_jobs) in
        match last candidates with
        | None => upd_cursor (mark_empty q scan) ≫= λ _, mret []
        | Some last_kv =>
            now ← now_ms;
            let lease_expires_at := wrap64 (now + millis_u64 lease_duration) in
            '(cs, t) ← claim_candidates candidates now lease_expires_at t;
            yield ≫= λ _,
            outcome ← commit t Deferred;
            match outcome with
            | Committed =>
                upd_cursor (advance q last_kv.1 scan) ≫= λ _,
                (if drained then upd_cursor (mark_empty q scan) else mret tt) ≫= λ _,
                mret cs
            | Conflict => claim_batch_loop fuel q max_jobs lease_duration
            end
        end
  end.

Definition claim_batch_locked (q : QueueName) (max_jobs : nat) (lease_duration : Duration)
    : Q (list Claim) :=
  λ w, claim_batch_loop (S (length (others w))) q max_jobs lease_duration w.

(** [QueueCore::materialize_payloads]: every fetch is made, then the first error
    is returned. *)
Definition materialize_payloads (cs : list Claim) : Q (list Claim) :=
  fetched ← io_mapM (λ c, io_try (materialize (job c))) cs;
  js ← io_result (collect_results (λ r, r) fetched);
  mret (zip_with (λ c j, mkClaim j (claim_id c) (cancel c)) cs js).

(** [QueueCore::claim_batch]. *)
Definition core_claim_batch (q : QueueName) (max_jobs : nat) (lease_duration : Duration)
    : Q (list Claim) :=
  is_closed ← get core_closed;
  (if is_closed : bool
   then d ← get db; io_result (lift (db_begin d)) ≫= λ _, mret tt
   else mret tt) ≫= λ _,
  empty ← get (λ c, known_empty q (claim_cursor c));
  if empty : bool then mret []
  else
    cs ← claim_batch_locked q max_jobs lease_duration;
    materialize_payloads cs.

(** [QueueCore::claim_by_id]. *)
Definition claim_by_id (jid : string) (lease_duration : Duration) : Q ClaimOutcome :=
  claimed ← transition_by_id jid Deferred (Ok (inr ClaimNotFound : Claim + ClaimOutcome))
    (λ t current_key j,
      if bool_decide (status j = Pending) || bool_decide (status j = Scheduled) then
        now ← now_ms;
        '(c, t) ← claim_job current_key j now (wrap64 (now + millis_u64 lease_duration)) t;
        mret (CommitWith (inl c), t)
      else mret (AbortWith (inr NotClaimable), t));
  match claimed with
  | inl c =>
      cs ← materialize_payloads [c];
      match cs with
      | c :: _ => mret (ClaimedOutcome c)
      | [] => io_err Panicked
      end
  | inr outcome => mret outcome
  end.

End claim.
