(* ===== verification/Settle.v ===== *)
(** * Settlements (taquba/src/queue_core/settle.rs, taquba/src/queue_core/control.rs,
    taquba/src/queue_core/signal.rs, taquba/src/queue.rs)

    The end of a claim by its holder, the revival of a dead job, and the calls
    that cancel, wake and signal a job. *)
From S2P Require Import Prelude Bytes Error Monad Keys Job Store Stats LeaseRegistry.
From S2P Require Import TimeBound ClaimCursor Completion Txn Core QueueCore.
From S2P Require Import Control Effects.

Inductive NackOutcome := Retried | DeadLettered (results : list EnqueueResult).
Inductive SignalOutcome := Delivered | NotWaiting.
Inductive WakeOutcome := Woken | NotScheduled | WakeNotFound.

(** [backoff_delay] of taquba/src/queue.rs: [2u32.saturating_pow] and
    [Duration::saturating_mul]. *)
Definition backoff_delay (attempts' : Z) (base' max' : Duration) : Duration :=
  if decide (base' = 0%Z) then 0%Z
  else
    let mult := Z.min (2 ^ Z.max (attempts' - 1) 0) u32_max in
    Z.min (Z.min (base' * mult) duration_max) max'.

Section settle.
  Context {DB : SlateDb} {OS : ObjectStore} {SR : Serde JobRecord} {SA : Serde JobAttempt}.
  Context {SC : Serde CountRecord} {EN : Env}.

(** The transaction of [QueueCore::settle_claim]. *)
Definition settle_txn (claim : Claim) (prepared : PreparedEffects)
    (end_for : JobRecord → Z → ClaimEnd) : Q (JobRecord * ClaimEnd * option (list EnqueueResult)) :=
  let cid := claim_id claim in
  let q := queue (job claim) in
  let jid := id (job claim) in
  retry Awaited (λ t,
    registry ← get lease_registry;
    '(j, t) ← staging (take_claim registry q jid cid) t;
    now ← now_ms;
    let e := end_for j now in
    '(j, t) ← staging (stage_claim_end j e now) t;
    if is_terminal e then
      registry ← get lease_registry;
      '(results, t) ← staging (stage_effects registry prepared) t;
      mret (CommitWith (j, e, Some results), t)
    else mret (CommitWith (j, e, None), t)).

(** [QueueCore::settle_claim]. *)
Definition settle_claim (claim : Claim) (effects : SettlementEffects)
    (end_for : JobRecord → Z → ClaimEnd) : Q (JobRecord * option (list EnqueueResult)) :=
  prepared ← prepare_effects effects;
  settled ← io_try (settle_txn claim prepared end_for);
  let staged := match settled with Ok (_, _, staged) => staged | Err _ => None end in
  results ← finish_effects prepared staged;
  '(j, e, _) ← io_result settled;
  finish_claim_end j e (claim_id claim) (Some claim) ≫= λ _,
  mret (j, results).

(** [Queue::ack_with], [Queue::nack_with] and [Queue::dead_letter_with]. *)
Definition ack_with (claim : Claim) (effects : SettlementEffects) : Q (list EnqueueResult) :=
  let keep := bool_decide (is_Some
    (cfg_keep_done_jobs (configs_get configs (qn_str (queue (job claim)))))) in
  '(_, results) ← settle_claim claim effects (λ _ _, EndDone keep);
  mret (default [] results).

Definition nack_end (error : string) (stored : JobRecord) (now : Z) : ClaimEnd :=
  if is_last_attempt stored then EndDead error
  else
    let cfg := configs_get configs (qn_str (queue stored)) in
    let backoff := backoff_delay (attempts stored) (cfg_retry_backoff_base cfg)
                     (cfg_retry_backoff_max cfg) in
    EndRetry (if decide (backoff = 0%Z) then None else Some (wrap64 (now + millis_u64 backoff)))
      ORetried (Some error).

Definition nack_with (claim : Claim) (error : string) (effects : SettlementEffects)
    : Q NackOutcome :=
  '(_, results) ← settle_claim claim effects (nack_end error);
  mret (match results with Some rs => DeadLettered rs | None => Retried end).

Definition dead_letter_with (claim : Claim) (reason : string) (effects : SettlementEffects)
    : Q (list EnqueueResult) :=
  '(_, results) ← settle_claim claim effects (λ _ _, EndDead reason);
  mret (default [] results).

(** [QueueCore::requeue_dead_job]. *)
Definition revive_record (j : JobRecord) : JobRecord :=
  set_cancel_requested false (set_failed_at None (set_claimed_at None
    (set_last_error None (set_attempts 0 j)))).
Definition requeue_dead_job (jid : string) : Q () :=
  transition_by_id jid Awaited (Err (JobNotFound jid)) (λ t current_key j,
    if decide (status j = Dead) then
      '(j, t) ← staging (stage_to_pending current_key (revive_record j)) t;
      now ← now_ms;
      '(_, t) ← staging (t_append_attempt (id j) (mkAttempt 0 None now ORequeued None)) t;
      mret (CommitWith j, t)
    else io_err InvalidState) ≫= λ _,
  mret tt.

(** [QueueCore::finish_cancel]: the removed job. *)
Definition finish_cancel (staged : StagedCancel) : Q (option JobRecord) :=
  match staged with
  | Removed j =>
      upd_registry (λ r, (lease_cancel (queue j) (id j) r).2) ≫= λ _,
      settle_waiters (id j) WaitCancelled ≫= λ _,
      mret (Some j)
  | Requested j | AlreadyRequested j =>
      upd_registry (λ r, (lease_cancel (queue j) (id j) r).2) ≫= λ _,
      mret None
  | CancelMissing => mret None
  end.

(** [QueueCore::cancel], the body of [Queue::cancel_with]. *)
Definition cancel_with (jid : string) (effects : SettlementEffects)
    : Q (CancelOutcome * list EnqueueResult) :=
  prepared ← prepare_effects effects;
  committed ← io_try (retry Awaited (λ t,
    '(staged, t) ← staging (stage_cancel jid) t;
    match staged with
    | Removed _ =>
        registry ← get lease_registry;
        '(results, t) ← staging (stage_effects registry prepared) t;
        mret (CommitWith (staged, Some results), t)
    | Requested _ => mret (CommitWith (staged, None), t)
    | AlreadyRequested _ | CancelMissing => mret (AbortWith (staged, None), t)
    end));
  let results := match committed with Ok (_, results) => results | Err _ => None end in
  results ← finish_effects prepared results;
  '(staged, _) ← io_result committed;
  removed ← finish_cancel staged;
  match removed with Some j => delete_for j | None => mret tt end ≫= λ _,
  mret (cancel_outcome staged, default [] results).

(** [QueueCore::wake_scheduled]. *)
Definition wake_scheduled (jid : string) : Q WakeOutcome :=
  outcome ← retry Awaited (λ t,
    '(staged, t) ← staging (stage_wake jid WakeEarly) t;
    mret (match staged with
      | inr q => CommitWith (inr q)
      | inl Missing => AbortWith (inl WakeNotFound)
      | inl _ => AbortWith (inl NotScheduled)
      end, t) : Q (Attempt (WakeOutcome + QueueName) * Txn));
  mret (match outcome with inr _ => Woken | inl o => o end).

(** [stage_signal] and [QueueCore::signal]. *)
Definition stage_signal (jid : string) (pl : bytes) : TxnM SignalOutcome :=
  r ← stage_wake jid (WakeSignal pl);
  mret (match r with inr _ => Delivered | inl _ => NotWaiting end).
Definition signal_job (jid : string) (pl : bytes) : Q SignalOutcome :=
  retry Awaited (λ t,
    '(outcome, t) ← staging (stage_signal jid pl) t;
    mret (CommitWith outcome, t)).

End settle.
