(* ===== verification/Enqueue.v ===== *)
(** * Enqueues (taquba/src/queue_core/enqueue.rs, taquba/src/queue.rs)

    The calls that write new jobs, and the effects committed on their own. *)
From S2P Require Import Prelude Bytes Error Monad Keys Job Store Stats LeaseRegistry.
From S2P Require Import TimeBound ClaimCursor Completion Txn Core QueueCore.
From S2P Require Import Control Effects.

Section enqueue.
  Context {DB : SlateDb} {OS : ObjectStore} {SR : Serde JobRecord} {SA : Serde JobAttempt}.
  Context {SC : Serde CountRecord} {EN : Env}.

(** [QueueCore::commit_effects]. *)
Definition commit_effects (effects : SettlementEffects) : Q (list EnqueueResult) :=
  prepared ← prepare_effects effects;
  committed ← io_try (retry Awaited (λ t,
    registry ← get lease_registry;
    '(staged, t) ← staging (stage_effects registry prepared) t;
    mret (CommitWith staged, t)));
  results ← finish_effects prepared (ok committed);
  io_result committed ≫= λ _,
  mret (default [] results).

(** [QueueCore::write_job_txn]: the id of the new job with the results of the
    effects, or the id of the job the dedup key matched. *)
Definition write_job_txn (prepared : PreparedJob) (effects : PreparedEffects)
    : Q (string + string * list EnqueueResult) :=
  retry Awaited (λ t,
    '(written, t) ← staging (stage_job_writes prepared) t;
    match written with
    | inl existing => mret (AbortWith (inl existing), t)
    | inr jid =>
        registry ← get lease_registry;
        '(results, t) ← staging (stage_effects registry effects) t;
        mret (CommitWith (inr (jid, results)), t)
    end).

(** [QueueCore::finish_job_write], without its metric. *)
Definition finish_job_write (prepared : PreparedJob) (new : bool) : Q () :=
  if new then mret tt else delete_for (prepared_job prepared).

(** [QueueCore::write_job]. *)
Definition write_job (prepared : PreparedJob) (effects : PreparedEffects)
    : Q (EnqueueResult * list EnqueueResult) :=
  offloaded ← io_try (offload (prepared_job prepared));
  '(prepared, written) ← (match offloaded with
    | Ok j =>
        let prepared := mkPrepared j (id_override_used prepared) in
        r ← io_try (write_job_txn prepared effects);
        mret (prepared, r)
    | Err e => mret (prepared, Err e)
    end : Q (PreparedJob * Result (string + string * list EnqueueResult)));
  let '(outcome, staged) := match written with
    | Ok (inr (jid, staged)) => (Ok (New jid), Some staged)
    | Ok (inl existing) => (Ok (AlreadyEnqueued existing), None)
    | Err e => (Err e, None)
    end in
  finish_job_write prepared (bool_decide (is_Some staged)) ≫= λ _,
  results ← finish_effects effects staged;
  outcome ← io_result outcome;
  mret (outcome, default [] results).

(** [Queue::enqueue_with] and [Queue::enqueue_with_effects]. *)
Definition enqueue_with (q : string) (pl : bytes) (opts : EnqueueOptions) : Q string :=
  prepared ← prepare_job_record q pl opts;
  '(r, _) ← write_job prepared prepared_default;
  mret (result_id r).

Definition enqueue_with_effects (q : string) (pl : bytes) (opts : EnqueueOptions)
    (effects : SettlementEffects) : Q (EnqueueResult * list EnqueueResult) :=
  prepared ← prepare_job_record q pl opts;
  effects ← prepare_effects effects;
  write_job prepared effects.

(** [Queue::enqueue_batch]. *)
Definition enqueue_batch (q : string) (payloads : list bytes) : Q (list string) :=
  match payloads with
  | [] => mret []
  | _ =>
      results ← commit_effects (mkEffects [] None
        (map (λ p, mkRequest q p options_default) payloads) ∅ [] [] ∅);
      mret (map result_id results)
  end.

End enqueue.
