(* ===== verification/Sweeps.v ===== *)
(** * The background sweeps (taquba/src/scheduler.rs, taquba/src/reaper.rs)

    The promotion of due scheduled jobs, the reap of expired leases, the requeue
    of interrupted claims at open, and the retention sweeps. *)
From S2P Require Import Prelude Bytes Error Monad Keys Job Store Stats LeaseRegistry.
From S2P Require Import TimeBound ClaimCursor Completion Txn Core QueueCore.


Definition INBOX_SWEEP_BATCH : nat := 256.

Section sweeps.
  Context {DB : SlateDb} {OS : ObjectStore} {SR : Serde JobRecord} {SA : Serde JobAttempt}.
  Context {EN : Env}.
  (** [InboxState::retention]. *)
  Context (inbox_retention : Duration).

(** A pass over a time-ordered key space: [TimeBound::begin], the body, and the
    drop of the scan on every way out. Without a key that can be due the pass
    returns [idle]. *)
Definition with_scan {A} (bound : Core → TimeBound) (set_bound : TimeBound → Core → Core)
    (now retention_ms : Z) (idle : A) (body : Scan → Q (A * Scan)) : Q A :=
  b ← get bound;
  let '(started, b) := tb_begin now retention_ms b in
  upd (set_bound b) ≫= λ _,
  match started with
  | None => mret idle
  | Some s =>
      r ← io_try (body s);
      match r with
      | Ok (a, s) => upd (λ c, set_bound (scan_drop s (bound c)) c) ≫= λ _, mret a
      | Err e => upd (λ c, set_bound (scan_drop s (bound c)) c) ≫= λ _, io_err e
      end
  end.

Definition db_scan (prefix : bytes) (start : ScanStart) : Q (list kv) :=
  d ← get db; io_result (lift (db_scan_prefix d prefix start)).

(** ** The scheduler *)

(** The keys of a scan with a time that is due, in order; the first key that is
    not due ends the scan, retained. A key without a time is skipped. *)
Fixpoint due_keys (tag : KeyTag) (l : list kv) (s : Scan) : list (bytes * Z) * Scan :=
  match l with
  | [] => ([], s)
  | (k, _) :: l =>
      match parse_key_timestamp k tag with
      | None => due_keys tag l s
      | Some at' =>
          if scan_due s at' then let '(ks, s) := due_keys tag l s in ((k, at') :: ks, s)
          else ([], scan_retain at' s)
      end
  end.

(** [QueueCore::promote_job]. *)
Definition promote_job (scheduled_key_bytes : bytes) : Q () :=
  retry Deferred (λ t,
    '(raw, t) ← staging (t_get scheduled_key_bytes) t;
    match raw with
    | None => mret (AbortWith None, t)
    | Some b =>
        j ← io_result (decode_job scheduled_key_bytes b);
        '(j, t) ← staging (stage_to_pending scheduled_key_bytes j) t;
        mret (CommitWith (Some j), t)
    end) ≫= λ _,
  mret tt.

(** [QueueCore::promote_due_jobs]. *)
Definition promote_due_jobs : Q () :=
  now ← now_ms;
  with_scan scheduled_bound set_scheduled_bound now 0 tt (λ s,
    l ← db_scan (tag_prefix TScheduled) (Included (be_bytes 8 (scan_from s)));
    let '(due, s) := due_keys TScheduled l s in
    yield ≫= λ _,
    io_for_each (λ '(k, _), promote_job k) due ≫= λ _,
    mret (tt, scan_complete s)).

(** ** The reaper *)

(** [unsettled_claim_end]. *)
Definition unsettled_claim_end (j : JobRecord) (o : AttemptOutcome) (error : string) : ClaimEnd :=
  if is_last_attempt j then EndDead error else EndRetry None o None.

(** [QueueCore::reap_job]. *)
Definition reap_job (lease : DueLease) : Q () :=
  let q := due_queue lease in
  let jid := due_id lease in
  let cid := due_claim_id lease in
  let claimed_key_bytes := claimed_key q jid in
  reaped ← retry Deferred (λ t,
    registry ← get lease_registry;
    match lease_current q jid registry with
    | Some (_, current) =>
        if decide (current = cid) then
          '(raw, t) ← staging (t_get claimed_key_bytes) t;
          match raw with
          | None =>
              upd_registry (lease_remove q jid cid) ≫= λ _,
              mret (AbortWith None, t)
          | Some b =>
              j ← io_result (decode_job claimed_key_bytes b);
              let e := unsettled_claim_end j OLeaseExpired "lease expired" in
              now ← now_ms;
              '(j, t) ← staging (stage_claim_end j e now) t;
              mret (CommitWith (Some (j, e)), t)
          end
        else mret (AbortWith None, t)
    | None => mret (AbortWith None, t)
    end);
  match reaped with
  | Some (j, e) => finish_claim_end j e cid None
  | None => mret tt
  end.

(** The loop of [reap_expired]: a store error ends it, any other error is of the
    one job. *)
Fixpoint reap_all (due : list DueLease) : Q () :=
  match due with
  | [] => mret tt
  | lease :: due =>
      r ← io_try (reap_job lease);
      match r with
      | Err (Storage e) => io_err (Storage e)
      | _ => reap_all due
      end
  end.

(** [QueueCore::reap_expired]. *)
Definition reap_expired : Q () :=
  now ← now_ms;
  registry ← get lease_registry;
  '(due, registry) ← io_result (take_due now registry);
  upd (set_lease_registry registry) ≫= λ _,
  reap_all due.

(** The claimed records of a scan that decode. *)
Definition interrupted_jobs (l : list kv) : list JobRecord :=
  omap (λ '(k, v), ok (decode_job k v)) l.

(** The requeue of one claimed record found at open. *)
Definition requeue_interrupted (j : JobRecord) : Q () :=
  retry Deferred (λ t,
    let e := unsettled_claim_end j OInterrupted "claim interrupted by process exit" in
    now ← now_ms;
    '(_, t) ← staging (stage_claim_end j e now) t;
    mret (CommitWith tt, t)).

(** [QueueCore::requeue_interrupted_claims]. *)
Definition requeue_interrupted_claims : Q () :=
  l ← db_scan (tag_prefix TClaimed) Unbounded;
  io_for_each requeue_interrupted (interrupted_jobs l).

(** ** The retention sweeps *)

(** [QueueCore::sweep_victim]: whether the record is gone, and the payload
    objects to delete. *)
Definition sweep_victim (key : bytes) (j : JobRecord) (payload_refs : list string)
    : Q (bool * list string) :=
  t ← begin;
  yield ≫= λ _,
  '(raw, t) ← staging (t_get key) t;
  let existed := bool_decide (is_Some raw) in
  '(_, t) ← staging (if existed then stage_remove key j else mret tt) t;
  yield ≫= λ _,
  outcome ← commit t Deferred;
  match outcome with
  | Conflict => mret (false, payload_refs)
  | Committed =>
      mret (true, match existed, payload_ref j with
                  | true, Some r => payload_refs ++ [r]
                  | _, _ => payload_refs
                  end)
  end.

(** The expired records of a retention scan, in order, with the scan they leave.
    [os] is the scan of the done bound; the dead scan has none. *)
Fixpoint expired_records (tag : KeyTag) (now : Z) (retention_for : string → option Duration)
    (l : list kv) (os : option Scan)
    : list (bytes * JobRecord * option Z) * option Scan :=
  match l with
  | [] => ([], os)
  | (k, v) :: l =>
      let at_in_key := parse_key_timestamp k tag in
      let handle (os : option Scan) :=
        match decode_job k v with
        | Err _ => expired_records tag now retention_for l os
        | Ok j =>
            match (if decide (tag = TDone) then completed_at j else failed_at j) with
            | None => expired_records tag now retention_for l os
            | Some terminal_at =>
                let retained := match retention_for (qn_str (queue j)) with
                  | Some retention => (sat_sub64 now (millis_u64 retention) <=? terminal_at)%Z
                  | None => true
                  end in
                if retained then
                  expired_records tag now retention_for l
                    (match os, at_in_key with Some s, Some at' => Some (scan_retain at' s) | _, _ => os end)
                else
                  let '(vs, os) := expired_records tag now retention_for l os in
                  ((k, j, at_in_key) :: vs, os)
            end
        end in
      match os with
      | None => handle os
      | Some s =>
          match at_in_key with
          | None => expired_records tag now retention_for l os
          | Some at' => if scan_due s at' then handle os else ([], Some (scan_retain at' s))
          end
      end
  end.

(** The removal of the victims; a victim left in place is retained. *)
Fixpoint sweep_victims (victims : list (bytes * JobRecord * option Z)) (os : option Scan)
    (payload_refs : list string) : Q (option Scan * list string) :=
  match victims with
  | [] => mret (os, payload_refs)
  | (key, j, at_in_key) :: victims =>
      '(gone, payload_refs) ← sweep_victim key j payload_refs;
      let os := match gone : bool, os, at_in_key with
        | false, Some s, Some at' => Some (scan_retain at' s)
        | _, _, _ => os
        end in
      sweep_victims victims os payload_refs
  end.

(** The part of [QueueCore::sweep_expired] after the scan was opened. *)
Definition sweep_scanned (tag : KeyTag) (now : Z) (retention_for : string → option Duration)
    (start : ScanStart) (os : option Scan) : Q (option Scan) :=
  l ← db_scan (tag_prefix tag) start;
  let '(victims, os) := expired_records tag now retention_for l os in
  yield ≫= λ _,
  '(os, payload_refs) ← sweep_victims victims os [];
  match payload_refs with
  | [] => mret tt
  | _ =>
      d ← get db;
      io_result (lift (db_flush d)) ≫= λ _,
      delete_all payload_refs
  end ≫= λ _,
  mret os.

(** [QueueCore::sweep_expired]. *)
Definition sweep_expired (st : JobStatus) (retention_for : string → option Duration)
    (max_retention : option Duration) : Q () :=
  match (match st with
    | Done => Some (TDone, max_retention) | Dead => Some (TDead, None) | _ => None end) with
  | None => io_err InvalidState
  | Some (tag, min_cutoff) =>
      now ← now_ms;
      match min_cutoff with
      | Some retention =>
          with_scan done_bound set_done_bound now (millis_sat retention) tt (λ s,
            os ← sweep_scanned tag now retention_for (Included (be_bytes 8 (scan_from s))) (Some s);
            mret (tt, scan_complete (default s os)))
      | None => sweep_scanned tag now retention_for Unbounded None ≫= λ _, mret tt
      end
  end.

(** One batch of [QueueCore::sweep_inbox_records]. *)
Fixpoint stage_inbox_batch (batch : list (bytes * Z)) : TxnM () :=
  match batch with
  | [] => mret tt
  | (key, _) :: batch =>
      t_delete key ≫= λ _,
      match parse_inbox_expiry_entry key with
      | Some (q, jid) => t_delete (inbox_record_key q jid)
      | None => mret tt
      end ≫= λ _,
      stage_inbox_batch batch
  end.

Definition sweep_inbox_batch (batch : list (bytes * Z)) (s : Scan) : Q Scan :=
  t ← begin;
  '(_, t) ← staging (stage_inbox_batch batch) t;
  yield ≫= λ _,
  outcome ← commit t Deferred;
  match outcome with
  | Committed => mret s
  | Conflict => mret (foldl (λ s '(_, at'), scan_retain at' s) s batch)
  end.

(** [slice::chunks], on fuel of the length of the list. *)
Fixpoint chunks {A} (fuel n : nat) (l : list A) : list (list A) :=
  match fuel, l with
  | O, _ | _, [] => []
  | S fuel, _ => take n l :: chunks fuel n (drop n l)
  end.

Fixpoint sweep_inbox_batches (batches : list (list (bytes * Z))) (s : Scan) : Q Scan :=
  match batches with
  | [] => mret s
  | batch :: batches => s ← sweep_inbox_batch batch s; sweep_inbox_batches batches s
  end.

(** [QueueCore::sweep_inbox_records], for a process with an inbox. *)
Definition sweep_inbox_records : Q () :=
  now ← now_ms;
  with_scan (λ c, default time_bound_new (inbox_bound c)) (λ b, set_inbox_bound (Some b))
    now (millis_sat inbox_retention) tt (λ s,
    l ← db_scan (tag_prefix TInboxExpiry) (Included (be_bytes 8 (scan_from s)));
    let '(expired, s) := due_keys TInboxExpiry l s in
    yield ≫= λ _,
    s ← sweep_inbox_batches (chunks (length expired) INBOX_SWEEP_BATCH expired) s;
    mret (tt, scan_complete s)).

(** [Reaper::step]: the errors of the sweeps are logged, the error of the reap is
    returned. *)
Definition max_keep_done : option Duration :=
  foldl (λ m c, match cfg_keep_done_jobs c, m with
                | Some d, Some m => Some (Z.max m d)
                | Some d, None => Some d
                | None, _ => m
                end) None (configs_iter configs).

Definition reaper_step : Q () :=
  reaped ← io_try reap_expired;
  match max_keep_done with
  | Some _ =>
      io_try (sweep_expired Done (λ q, cfg_keep_done_jobs (configs_get configs q)) max_keep_done)
        ≫= λ _, mret tt
  | None => mret tt
  end ≫= λ _,
  (if existsb (λ c, bool_decide (is_Some (cfg_dead_retention c))) (configs_iter configs) then
     io_try (sweep_expired Dead (λ q, cfg_dead_retention (configs_get configs q)) None)
       ≫= λ _, mret tt
   else mret tt) ≫= λ _,
  has_inbox ← get (λ c, bool_decide (is_Some (inbox_bound c)));
  (if has_inbox : bool then io_try sweep_inbox_records ≫= λ _, mret tt else mret tt) ≫= λ _,
  io_result reaped.

End sweeps.
