(* ===== verification/InboxEntry.v ===== *)
(** * Inbox entries (taquba/src/inbox/entry.rs, taquba/src/inbox/record.rs,
    taquba/src/inbox/listing.rs)

    The entries another process sends through the object store, the record of an
    applied entry, and the listing of the entry objects in the order of a pass. *)
From Stdlib Require Import Ascii.
From S2P Require Import Prelude Bytes Error Monad Keys Job Store Stats LeaseRegistry.
From S2P Require Import Txn Core Control Effects Settle.

(** ** Entries (taquba/src/inbox/entry.rs) *)

Definition MAX_INBOX_ID_LEN : nat := 64.
Definition MAX_INBOX_ENTRY_SIZE : Z := 16 * 1024 * 1024.

Inductive EntryKind := EnqueueKind | CancelKind | SignalKind | UnknownKindOf (segment : string).

#[global] Instance EntryKind_eq_dec : EqDecision EntryKind.
Proof. solve_decision. Defined.

(** [EntryKind::of_segment], and the display form. *)
Definition of_segment (segment : string) : EntryKind :=
  if decide (segment = "enqueue") then EnqueueKind
  else if decide (segment = "cancel") then CancelKind
  else if decide (segment = "signal") then SignalKind
  else UnknownKindOf segment.
Definition kind_segment (k : EntryKind) : string :=
  match k with
  | EnqueueKind => "enqueue"
  | CancelKind => "cancel"
  | SignalKind => "signal"
  | UnknownKindOf segment => segment
  end.

Record EnqueueEntry := mkEnqueueEntry { ee_payload : bytes; ee_options : EnqueueOptions }.
Record CancelEntry := mkCancelEntry { ce_job_id : string }.
Record SignalEntry := mkSignalEntry { se_job_id : string; se_payload : bytes }.

Inductive InboxEntry :=
| EntryEnqueue (e : EnqueueEntry)
| EntryCancel (e : CancelEntry)
| EntrySignal (e : SignalEntry).

Definition entry_kind (e : InboxEntry) : EntryKind :=
  match e with
  | EntryEnqueue _ => EnqueueKind
  | EntryCancel _ => CancelKind
  | EntrySignal _ => SignalKind
  end.

(** [validate_id]. *)
Definition ENTRY_ID_FORM : Form := form_id MAX_INBOX_ID_LEN.
Definition validate_entry_id (i : string) : Result () :=
  match form_check ENTRY_ID_FORM i with
  | Ok _ => Ok ()
  | Err reason => Err (InvalidId i reason)
  end.

(** ** Records (taquba/src/inbox/record.rs) *)

Inductive Rejection :=
| UnknownKind
| Unordered
| Malformed (detail : string)
| TooLarge (size : Z)
| Unreadable (detail : string)
| QueueNotAccepted
| OtherQueue (job_queue : string)
| RejectedId (reason : FormError)
| RejectedDuplicate
| RejectedSignalWait
| RejectedCountWait
| RejectedCountWaiter
| Failed (message : string).

Inductive InboxOutcome :=
| OutcomeEnqueue (r : EnqueueResult)
| OutcomeCancel (o : CancelOutcome)
| OutcomeSignal (o : SignalOutcome)
| OutcomeRejected (r : Rejection).

Record InboxRecord := mkInboxRecord { applied_at_ms : Z; record_outcome : InboxOutcome }.

(** [Rejection::of_permanent], over the text of an error. *)
Definition of_permanent (to_string : Error → string) (e : Error) : Rejection :=
  match e with
  | InvalidId _ reason => RejectedId reason
  | DuplicateJobId _ => RejectedDuplicate
  | SignalWaitWithoutRunAt => RejectedSignalWait
  | CountWaitWithoutRunAt => RejectedCountWait
  | CountWaiterExists _ _ => RejectedCountWaiter
  | e => Failed (to_string e)
  end.

Record InboxRecordHandle := mkRecordHandle { rh_queue : QueueName; rh_id : string; rh_applied_at_ms : Z }.

Section entries.
  Context {SE : Serde EnqueueEntry} {SCa : Serde CancelEntry} {SSi : Serde SignalEntry}.
  Context {SI : Serde InboxRecord}.

(** [InboxEntry::encode] and [InboxEntry::decode]. The derived encodings round-trip but
    for the time of an enqueue, whose adapter keeps milliseconds from the epoch:
    [stored_entry] is the entry that is read back. *)
Definition stored_entry (e : InboxEntry) : InboxEntry :=
  match e with
  | EntryEnqueue e => EntryEnqueue (mkEnqueueEntry (ee_payload e) (stored_options (ee_options e)))
  | e => e
  end.
Definition entry_encode (e : InboxEntry) : bytes :=
  match stored_entry e with
  | EntryEnqueue e => encode e
  | EntryCancel e => encode e
  | EntrySignal e => encode e
  end.

Definition malformed {A} (r : Result A) : result Rejection A :=
  match r with
  | Ok a => Ok a
  | Err (Deserialization detail) => Err (Malformed detail)
  | Err _ => Err (Malformed "")
  end.

Definition entry_decode (k : EntryKind) (body : bytes) : result Rejection InboxEntry :=
  match k with
  | EnqueueKind => EntryEnqueue <$> malformed (from_slice body)
  | CancelKind => EntryCancel <$> malformed (from_slice body)
  | SignalKind => EntrySignal <$> malformed (from_slice body)
  | UnknownKindOf _ => Err UnknownKind
  end.

(** [InboxRecordHandle::staged] and [StagedRecord::encode]. *)
Definition handle_staged (h : InboxRecordHandle) (outcome : InboxOutcome) : StagedRecord :=
  mkStagedRecord (rh_queue h) (rh_id h) (rh_applied_at_ms h)
    (encode (mkInboxRecord (rh_applied_at_ms h) outcome)).

Lemma entry_decode_encode e : entry_decode (entry_kind e) (entry_encode e) = Ok (stored_entry e).
Proof. by destruct e; cbn; rewrite from_slice_encode. Qed.
End entries.

(** ** The objects of the inbox (taquba/src/inbox/listing.rs)

    What the sources use of the object store besides the payloads: a listing, a
    HEAD, and a read that has the size of the object before its body. *)
Record ObjectMeta := mkObjectMeta {
  location : string;
  om_size : Z;
  last_modified_ms : Z;
  om_tag : string;
}.

#[global] Instance ObjectMeta_eq_dec : EqDecision ObjectMeta.
Proof. solve_decision. Defined.

Class EntryStore `{!ObjectStore} := {
  os_list : string → Objects → result ObjectStoreError (list ObjectMeta);
  os_head : string → Objects → result ObjectStoreError ObjectMeta;
  os_read : string → Objects → result ObjectStoreError (Z * result ObjectStoreError bytes);
}.

(** [str::split] and [str::split_once] at a character. *)
Fixpoint str_split (c : Ascii.ascii) (s : string) : list string :=
  match s with
  | EmptyString => [EmptyString]
  | String a s =>
      if Ascii.eqb a c then EmptyString :: str_split c s
      else match str_split c s with
           | first :: rest => String a first :: rest
           | [] => [String a EmptyString]
           end
  end.

Fixpoint split_once (c : Ascii.ascii) (s : string) : option (string * string) :=
  match s with
  | EmptyString => None
  | String a s =>
      if Ascii.eqb a c then Some (EmptyString, s)
      else '(x, y) ← split_once c s; Some (String a x, y)
  end.

Record PendingEntry := mkPendingEntry {
  pe_queue : QueueName;
  pe_id : string;
  pe_kind : EntryKind;
  pe_size : Z;
  pe_sent_at_ms : Z;
  pe_location : string;
  pe_order : option Z;
}.

Definition oversized (size : Z) : option Rejection :=
  if (MAX_INBOX_ENTRY_SIZE <? size)%Z then Some (TooLarge size) else None.

(** [PendingEntry::listing_rejection]. *)
Definition listing_rejection (e : PendingEntry) : option Rejection :=
  match pe_order e with
  | Some _ => oversized (pe_size e)
  | None => Some Unordered
  end.

(** The lexicographic order of [PendingEntry::pass_order]: the derived orders of
    the tuple, of [Option] and of [EntryKind]. *)
Definition kind_rank (k : EntryKind) : Z :=
  match k with EnqueueKind => 0 | CancelKind => 1 | SignalKind => 2 | UnknownKindOf _ => 3 end.
Definition kind_cmp (a b : EntryKind) : comparison :=
  match a, b with
  | UnknownKindOf s, UnknownKindOf t =>
      if bytes_lt (as_bytes s) (as_bytes t) then Lt
      else if bytes_lt (as_bytes t) (as_bytes s) then Gt else Eq
  | _, _ => (kind_rank a ?= kind_rank b)%Z
  end.
Definition bytes_cmp (a b : bytes) : comparison :=
  if bytes_lt a b then Lt else if bytes_lt b a then Gt else Eq.
Definition order_cmp (a b : option Z) : comparison :=
  match a, b with
  | None, None => Eq
  | None, Some _ => Lt
  | Some _, None => Gt
  | Some x, Some y => (x ?= y)%Z
  end.
Definition then_cmp (a b : comparison) : comparison := match a with Eq => b | c => c end.

Definition pass_cmp (a b : PendingEntry) : comparison :=
  let unordered e := match pe_order e with None => 1%Z | Some _ => 0%Z end in
  then_cmp (unordered a ?= unordered b)%Z
    (then_cmp (order_cmp (pe_order a) (pe_order b))
    (then_cmp (bytes_cmp (as_bytes (pe_id a)) (as_bytes (pe_id b)))
    (then_cmp (bytes_cmp (qn_bytes (pe_queue a)) (qn_bytes (pe_queue b)))
      (kind_cmp (pe_kind a) (pe_kind b))))).

Definition pass_le (a b : PendingEntry) : bool := match pass_cmp a b with Gt => false | _ => true end.

(** [slice::sort_by], which is stable. *)
Fixpoint sort_insert (e : PendingEntry) (l : list PendingEntry) : list PendingEntry :=
  match l with
  | [] => [e]
  | x :: l => if pass_le e x then e :: x :: l else x :: sort_insert e l
  end.
Definition sort_entries (l : list PendingEntry) : list PendingEntry := foldr sort_insert [] l.

Section objects.
  Context {OS : ObjectStore} {IS : EntryStore}.
  (** [Ulid::from_string] and [Ulid::to_string]. *)
  Context (ulid_parse : string → option Z) (ulid_text : Z → string).

(** [version_prefix], [queue_prefix] and [entry_path]. *)
Definition version_prefix (prefix : string) : string := prefix +:+ "/v1".
Definition inbox_queue_prefix (prefix q : string) : string := version_prefix prefix +:+ "/" +:+ q.
Definition entry_path (prefix q : string) (k : EntryKind) (order : Z) (i : string) : string :=
  inbox_queue_prefix prefix q +:+ "/" +:+ kind_segment k +:+ "/" +:+ ulid_text order +:+ "." +:+ i.

(** [PendingEntry::parse]. *)
Definition entry_parse (relative : string) (object : ObjectMeta) : option PendingEntry :=
  match str_split "/"%char relative with
  | q :: k :: name :: rest =>
      let '(order, i) := match split_once "."%char name with
        | Some (order, i) => (ulid_parse order, i)
        | None => (None, name)
        end in
      match rest, k, validate_entry_id i with
      | [], String _ _, Ok _ =>
          q ← ok (QueueName_new q);
          Some (mkPendingEntry q i (of_segment k) (om_size object)
            (Z.max (last_modified_ms object) 0) (location object) order)
      | _, _, _ => None
      end
  | _ => None
  end.

(** [list_entries]. *)
Definition list_entries (prefix : string) (q : option string) (o : Objects)
    : Result (list PendingEntry) :=
  let version := version_prefix prefix in
  let under := match q with Some q => inbox_queue_prefix prefix q | None => version end in
  let version := version +:+ "/" in
  match os_list (path_from under) o with
  | Err e => Err (InboxStore e)
  | Ok objects =>
      Ok (sort_entries (omap (λ object,
        relative ← str_strip_prefix version (location object);
        entry_parse relative object) objects))
  end.

(** [read_object]. *)
Inductive EntryBody :=
| Body (b : bytes)
| BodyMissing
| BodyRejected (r : Rejection)
| BodyFailed (e : ObjectStoreError).

Definition read_object (location : string) (o : Objects) : EntryBody :=
  match os_read location o with
  | Err NotFound => BodyMissing
  | Err e => BodyFailed e
  | Ok (size, body) =>
      match oversized size with
      | Some r => BodyRejected r
      | None => match body with Ok b => Body b | Err e => BodyFailed e end
      end
  end.
End objects.
