(* ===== verification/Inbox.v ===== *)
(** * The inbox (taquba/src/inbox.rs, taquba/src/inbox/apply.rs,
    taquba/src/inbox/sender.rs)

    The application of an entry in one transaction with its record, the pass over
    the listed entries in batches, and the sender. The inbox and the payloads are
    objects of one store, as they are without a store of their own. *)
From S2P Require Import Prelude Bytes Error Monad Keys Job Store Stats LeaseRegistry.
From S2P Require Import TimeBound ClaimCursor Completion Txn Core QueueCore.
From S2P Require Import Control Effects Settle Enqueue Sweeps InboxEntry.

Definition INBOX_BATCH : nat := Z.to_nat 1000.
Definition INBOX_PREFETCH : nat := 16.
Definition INBOX_PREFETCH_BYTES : Z := MAX_INBOX_ENTRY_SIZE.
Definition INBOX_UNREADABLE_AFTER : Duration := from_secs 3600.

(** [InboxState], without its store, its lock and its bound, which is of the process
    state. *)
Record InboxState := mkInboxState {
  inbox_prefix : string;
  inbox_interval : Duration;
  touch_poll_interval : option Duration;
  inbox_queues : gset string;
}.

(** The configuration, the text form of ULIDs and the texts of errors. *)
Class InboxEnv := {
  inbox_state : option InboxState;
  ulid_from_string : string → option Z;
  error_text : Error → string;
  store_error_text : ObjectStoreError → string;
}.

(** [InboxState::accepts] and [InboxState::rejection]. *)
Definition accepts (s : InboxState) (q : string) : bool := bool_decide (q ∈ inbox_queues s).
Definition entry_rejection (s : InboxState) (e : PendingEntry) : option Rejection :=
  if accepts s (qn_str (pe_queue e)) then listing_rejection e else Some QueueNotAccepted.

Definition touch_path (prefix : string) : string := prefix +:+ "/touch".

(** [<[u8; 8]>::try_from] and [u64::from_be_bytes]. *)
Definition read_u64_be (b : bytes) : option Z := if decide (length b = 8) then Some (from_be b) else None.

Section inbox.
  Context {DB : SlateDb} {OS : ObjectStore} {SR : Serde JobRecord} {SA : Serde JobAttempt}.
  Context {SC : Serde CountRecord} {EN : Env} {ST : EntryStore} {IE : InboxEnv}.
  Context {SE : Serde EnqueueEntry} {SCa : Serde CancelEntry} {SSi : Serde SignalEntry}.
  Context {SI : Serde InboxRecord}.

(** ** Application (taquba/src/inbox/apply.rs) *)

(** [QueueCore::commit_rejection]. *)
Definition commit_rejection (record : InboxRecordHandle) (r : Rejection) : Q InboxOutcome :=
  let outcome := OutcomeRejected r in
  retry Deferred (λ t,
    '(_, t) ← staging (stage_inbox_record (handle_staged record outcome)) t;
    mret (CommitWith tt, t)) ≫= λ _,
  mret outcome.

(** [on_another_queue]. *)
Definition on_another_queue (t : Txn) (jid : string) (q : string) : Result (option Rejection) :=
  found ← get_indexed_job (txn t) jid;
  Ok (match found with
    | Some (_, _, j) => if decide (qn_str (queue j) ≠ q) then Some (OtherQueue (qn_str (queue j))) else None
    | None => None
    end).

Definition apply_enqueue (q : string) (e : EnqueueEntry) (record : InboxRecordHandle) : Q InboxOutcome :=
  prepared ← prepare_job_record q (ee_payload e) (ee_options e);
  offloaded ← io_try (offload (prepared_job prepared));
  '(prepared, committed) ← (match offloaded with
    | Ok j =>
        let prepared := mkPrepared j (id_override_used prepared) in
        r ← io_try (retry Deferred (λ t,
          '(written, t) ← staging (stage_job_writes prepared) t;
          let outcome := OutcomeEnqueue (match written with
            | inr i => New i | inl existing => AlreadyEnqueued existing end) in
          '(_, t) ← staging (stage_inbox_record (handle_staged record outcome)) t;
          mret (CommitWith outcome, t)));
        mret (prepared, r)
    | Err e => mret (prepared, Err e)
    end : Q (PreparedJob * Result InboxOutcome));
  finish_job_write prepared
    (match committed with Ok (OutcomeEnqueue (New _)) => true | _ => false end) ≫= λ _,
  io_result committed.

(** The outcome, and the payload ref of the job it removed. *)
Definition apply_cancel (q : string) (e : CancelEntry) (record : InboxRecordHandle)
    : Q (InboxOutcome * list string) :=
  let jid := ce_job_id e in
  '(outcome, staged) ← retry Deferred (λ t,
    other ← io_result (on_another_queue t jid q);
    '(outcome, staged, t) ← (match other with
      | Some r => mret (OutcomeRejected r, None, t)
      | None =>
          '(staged, t) ← staging (stage_cancel jid) t;
          mret (OutcomeCancel (cancel_outcome staged), Some staged, t)
      end : Q (InboxOutcome * option StagedCancel * Txn));
    '(_, t) ← staging (stage_inbox_record (handle_staged record outcome)) t;
    mret (CommitWith (outcome, staged), t));
  removed ← match staged with Some s => finish_cancel s | None => mret None end;
  mret (outcome, match removed with
    | Some j => match payload_ref j with Some r => [r] | None => [] end
    | None => []
    end).

Definition apply_signal (q : string) (e : SignalEntry) (record : InboxRecordHandle) : Q InboxOutcome :=
  let jid := se_job_id e in
  retry Deferred (λ t,
    other ← io_result (on_another_queue t jid q);
    '(outcome, t) ← (match other with
      | Some r => mret (OutcomeRejected r, t)
      | None =>
          '(o, t) ← staging (stage_signal jid (se_payload e)) t;
          mret (OutcomeSignal o, t)
      end : Q (InboxOutcome * Txn));
    '(_, t) ← staging (stage_inbox_record (handle_staged record outcome)) t;
    mret (CommitWith outcome, t)).

(** [QueueCore::apply_entry]. *)
Definition apply_entry (q : string) (record : InboxRecordHandle) (e : InboxEntry)
    : Q (InboxOutcome * list string) :=
  applied ← io_try (match e with
    | EntryEnqueue e => o ← apply_enqueue q e record; mret (o, [])
    | EntryCancel e => apply_cancel q e record
    | EntrySignal e => o ← apply_signal q e record; mret (o, [])
    end : Q (InboxOutcome * list string));
  match applied with
  | Ok r => mret r
  | Err e =>
      if is_permanent e
      then o ← commit_rejection record (of_permanent error_text e); mret (o, [])
      else io_err e
  end.

(** ** The pass (taquba/src/inbox.rs) *)

Definition has_record (e : PendingEntry) : Q bool :=
  d ← get db;
  b ← io_result (lift (db_get d (inbox_record_key (pe_queue e) (pe_id e))));
  mret (bool_decide (is_Some b)).

(** [QueueCore::unreadable]. *)
Definition unreadable (q : QueueName) (i : string) (e : ObjectStoreError) : Q (option Rejection) :=
  let key := inbox_failure_key q i in
  now ← now_ms;
  d ← get db;
  b ← io_result (lift (db_get d key));
  match b ≫= read_u64_be with
  | None =>
      retry Awaited (λ t,
        '(_, t) ← staging (t_put key (be_bytes 8 now)) t;
        mret (CommitWith tt, t)) ≫= λ _,
      mret None
  | Some first =>
      mret (if (millis_sat INBOX_UNREADABLE_AFTER <=? sat_sub64 now first)%Z
            then Some (Unreadable (store_error_text e)) else None)
  end.

(** [QueueCore::prefetch]. *)
Definition prefetch (s : InboxState) (e : PendingEntry) : Q (option EntryBody) :=
  match entry_rejection s e with
  | Some _ => mret None
  | None =>
      applied ← has_record e;
      if applied : bool then mret None
      else body ← get (λ c, read_object (pe_location e) (objects c)); mret (Some body)
  end.

(** [QueueCore::settle_entry]: the payload refs of the jobs it removed. Other tasks
    can run before the entry is applied. *)
Definition settle_entry (s : InboxState) (e : PendingEntry) (prefetched : option EntryBody)
    : Q (list string) :=
  applied ← has_record e;
  if applied : bool then mret []
  else
    now ← now_ms;
    let record := mkRecordHandle (pe_queue e) (pe_id e) now in
    yield ≫= λ _,
    decoded ← (match entry_rejection s e with
      | Some r => mret (Some (Err r))
      | None =>
          body ← match prefetched with
            | Some body => mret body
            | None => get (λ c, read_object (pe_location e) (objects c))
            end;
          match body with
          | Body b => mret (Some (entry_decode (pe_kind e) b))
          | BodyRejected r => mret (Some (Err r))
          | BodyMissing => mret None
          | BodyFailed err =>
              r ← unreadable (pe_queue e) (pe_id e) err;
              match r with
              | Some r => mret (Some (Err r))
              | None => io_err (InboxStore err)
              end
          end
      end : Q (option (result Rejection InboxEntry)));
    match decoded with
    | None => mret []
    | Some (Ok entry) =>
        '(_, refs) ← apply_entry (qn_str (pe_queue e)) record entry;
        mret refs
    | Some (Err r) => commit_rejection record r ≫= λ _, mret []
    end.

(** The reads that [settle_batch] starts ahead of an application: the entries not
    started, the reads in flight and their listed bytes. *)
Fixpoint read_ahead (s : InboxState) (ahead : list PendingEntry)
    (reads : list (Result (option EntryBody))) (reading : Z)
    : Q (list PendingEntry * list (Result (option EntryBody)) * Z) :=
  match ahead with
  | [] => mret ([], reads, reading)
  | e :: rest =>
      let full := (INBOX_PREFETCH <=? length reads)%nat ||
                  (INBOX_PREFETCH_BYTES <? reading + pe_size e)%Z in
      match reads with
      | _ :: _ => if full then mret (ahead, reads, reading)
                  else r ← io_try (prefetch s e); read_ahead s rest (reads ++ [r]) (reading + pe_size e)%Z
      | [] => r ← io_try (prefetch s e); read_ahead s rest (reads ++ [r]) (reading + pe_size e)%Z
      end
  end.

(** [QueueCore::settle_batch], from the state of its reads: the locations of the
    settled entries, the payload refs, and how it ended. *)
Fixpoint settle_batch_from (s : InboxState) (batch ahead : list PendingEntry)
    (reads : list (Result (option EntryBody))) (reading : Z) (settled refs : list string)
    : Q (list string * list string * Result ()) :=
  match batch with
  | [] => mret (settled, refs, Ok tt)
  | e :: batch =>
      '(ahead, reads, reading) ← read_ahead s ahead reads reading;
      match reads with
      | [] => mret (settled, refs, Err Panicked)
      | Err err :: _ => mret (settled, refs, Err err)
      | Ok prefetched :: reads =>
          r ← io_try (settle_entry s e prefetched);
          match r with
          | Err err => mret (settled, refs, Err err)
          | Ok refs' =>
              settle_batch_from s batch ahead reads (reading - pe_size e)%Z
                (settled ++ [pe_location e]) (refs ++ refs')
          end
      end
  end.
Definition settle_batch (s : InboxState) (batch : list PendingEntry)
    : Q (list string * list string * Result ()) :=
  settle_batch_from s batch batch [] 0 [] [].

(** [QueueCore::inbox_batch]. *)
Definition inbox_batch (s : InboxState) (batch : list PendingEntry) : Q () :=
  '(settled, refs, applied) ← settle_batch s batch;
  (match settled with
   | [] => mret tt
   | _ =>
       d ← get db;
       io_result (lift (db_flush d)) ≫= λ _,
       yield ≫= λ _,
       delete_all refs ≫= λ _,
       delete_objects settled ≫= λ _, mret tt
   end : Q ()) ≫= λ _,
  io_result applied.

(** [QueueCore::clear_inbox_failures]. *)
Definition clear_inbox_failures : Q () :=
  l ← db_scan (tag_prefix TInboxFailure) Unbounded;
  match l with
  | [] => mret tt
  | _ =>
      retry Deferred (λ t,
        '(_, t) ← staging (for_each t_delete l.*1) t;
        mret (CommitWith tt, t))
  end.

(** [QueueCore::inbox_pass], under its lock, and [QueueCore::inbox_pass_over]. *)
Definition inbox_pass_over (s : InboxState) : Q () :=
  entries ← get (λ c, list_entries ulid_from_string (inbox_prefix s) None (objects c));
  entries ← io_result entries;
  io_for_each (inbox_batch s) (chunks (length entries) INBOX_BATCH entries) ≫= λ _,
  clear_inbox_failures.

Definition inbox_pass : Q () :=
  match inbox_state with
  | None => mret tt
  | Some s => inbox_pass_over s
  end.

(** ** The pass task

    [InboxState::touch_meta], and [Inbox] with its instants as readings of the
    monotonic clock. *)
Definition touch_meta (s : InboxState) : Q (option ObjectMeta) :=
  r ← get (λ c, os_head (path_from (touch_path (inbox_prefix s))) (objects c));
  match r with
  | Ok meta => mret (Some meta)
  | Err NotFound => mret None
  | Err e => io_err (InboxStore e)
  end.

Record InboxTask := mkInboxTask { touched : option ObjectMeta; last_pass : option Z }.

(** [Inbox::step], at the instant [now]: the task and the result of the step. *)
Definition inbox_step (s : InboxState) (now : Z) (task : InboxTask) : Q (InboxTask * Result ()) :=
  let due := match last_pass task with
    | None => true
    | Some started => (inbox_interval s <=? now - started)%Z
    end in
  '(task, due) ← (match touch_poll_interval s with
    | None => mret (task, due)
    | Some _ =>
        r ← io_try (touch_meta s);
        mret (match r with
          | Ok meta =>
              if decide (meta ≠ touched task) then (mkInboxTask meta (last_pass task), true)
              else (task, due)
          | Err _ => (task, due)
          end)
    end : Q (InboxTask * bool));
  if due : bool then
    passed ← io_try inbox_pass;
    mret (mkInboxTask (touched task) (match passed with Ok _ => Some now | Err _ => None end), passed)
  else mret (task, Ok tt).

End inbox.

(** ** The sender (taquba/src/inbox/sender.rs)

    Another process: it has the object store, and ULIDs that increase. *)
Section sender.
  Context {OS : ObjectStore} {ST : EntryStore} {EN : Env} {IE : InboxEnv}.
  Context {SE : Serde EnqueueEntry} {SCa : Serde CancelEntry} {SSi : Serde SignalEntry}.

Definition TOUCH_ATTEMPTS : nat := 2.

(** [InboxSender::touch], with the bodies of its writes. *)
Fixpoint touch (attempts : nat) (prefix : string) (bodies : nat → bytes) (o : Objects) : Objects :=
  match attempts with
  | O => o
  | S attempts' =>
      match os_put (path_from (touch_path prefix)) (bodies (TOUCH_ATTEMPTS - attempts)) o with
      | (Ok _, o) => o
      | (Err _, o) => touch attempts' prefix bodies o
      end
  end.

(** [InboxSender::send_at]. *)
Definition send_at (prefix q : string) (order : Z) (i : string) (e : InboxEntry)
    (touches : nat → bytes) (o : Objects) : Result () * Objects :=
  match QueueName_new q with
  | Err err => (Err err, o)
  | Ok _ =>
      match validate_entry_id i with
      | Err err => (Err err, o)
      | Ok _ =>
          match os_put (path_from (entry_path ulid_string prefix q (entry_kind e) order i))
                  (entry_encode e) o with
          | (Err err, o) => (Err (InboxStore err), o)
          | (Ok _, o) => (Ok tt, touch TOUCH_ATTEMPTS prefix touches o)
          end
      end
  end.

(** [InboxSender::pending]. *)
Definition pending_entries (prefix q : string) (o : Objects) : Result (list PendingEntry) :=
  QueueName_new q ≫= λ _, list_entries ulid_from_string prefix (Some q) o.

(** [InboxSender::read]. *)
Inductive EntryRead := ReadEntry (e : InboxEntry) | ReadMissing | ReadRejected (r : Rejection).

Definition read_entry (e : PendingEntry) (o : Objects) : Result EntryRead :=
  match listing_rejection e with
  | Some r => Ok (ReadRejected r)
  | None =>
      match read_object (pe_location e) o with
      | Body b => Ok (match entry_decode (pe_kind e) b with
          | Ok entry => ReadEntry entry | Err r => ReadRejected r end)
      | BodyMissing => Ok ReadMissing
      | BodyRejected r => Ok (ReadRejected r)
      | BodyFailed err => Err (InboxStore err)
      end
  end.
End sender.
