(* ===== verification/InboxListing.v ===== *)
(** * The listing of the inbox

    The order of a pass is a total preorder that the sort of the listing follows,
    and the path of a sent entry parses back. *)
From Stdlib Require Import Ascii.
From stdpp Require Import sorting.
From S2P Require Import Prelude Bytes Error Monad Keys Job Store Stats LeaseRegistry.
From S2P Require Import Txn Core Control Effects Settle InboxEntry.

(** ** Comparisons

    The laws of [Ord::cmp], and the comparisons that are composed of others. *)
Class Comparison {A} (cmp : A → A → comparison) : Prop := {
  cmp_opp a b : cmp b a = CompOpp (cmp a b);
  cmp_eq_trans a b c : cmp a b = Eq → cmp a c = cmp b c;
  cmp_lt_trans a b c : cmp a b = Lt → cmp b c = Lt → cmp a c = Lt;
}.

#[global] Instance Z_comparison : Comparison Z.compare.
Proof.
  split.
  - apply Z.compare_antisym.
  - by intros a b c ->%Z.compare_eq.
  - intros a b c. rewrite !Z.compare_lt_iff. lia.
Qed.

#[global] Instance bytes_comparison : Comparison bytes_cmp.
Proof.
  assert (Heq : ∀ a b, bytes_cmp a b = Eq → a = b).
  { intros a b. unfold bytes_cmp. destruct (bytes_lt a b) eqn:E; [done|].
    destruct (bytes_lt b a) eqn:E'; [done|]. intros _. by apply bytes_lt_total. }
  split.
  - intros a b. unfold bytes_cmp. destruct (bytes_lt a b) eqn:E, (bytes_lt b a) eqn:E'; try done.
    apply bytes_lt_asym in E. congruence.
  - by intros a b c ->%Heq.
  - intros a b c. unfold bytes_cmp. destruct (bytes_lt a b) eqn:E; [|by destruct (bytes_lt b a)].
    destruct (bytes_lt b c) eqn:E'; [|by destruct (bytes_lt c b)].
    by rewrite (bytes_lt_trans _ _ _ E E').
Qed.

#[global] Instance order_comparison : Comparison order_cmp.
Proof.
  split.
  - intros [a|] [b|]; try done. apply (cmp_opp (cmp := Z.compare)).
  - intros [a|] [b|] [c|]; try done. apply (cmp_eq_trans (cmp := Z.compare)).
  - intros [a|] [b|] [c|]; try done. apply (cmp_lt_trans (cmp := Z.compare)).
Qed.

(** By a projection, up to equality, and lexicographic. *)
Lemma comparison_on {A B} (f : A → B) cmp : Comparison cmp → Comparison (λ a b, cmp (f a) (f b)).
Proof. intros [Ho He Hl]. split; intros; [apply Ho|by apply He|by eapply Hl]. Qed.

Lemma comparison_ext {A} (c1 c2 : A → A → comparison) :
  (∀ a b, c1 a b = c2 a b) → Comparison c2 → Comparison c1.
Proof.
  intros E [Ho He Hl]. split; intros *; rewrite !E; [apply Ho|apply He|apply Hl].
Qed.

Lemma comparison_then {A} (c1 c2 : A → A → comparison) :
  Comparison c1 → Comparison c2 → Comparison (λ a b, then_cmp (c1 a b) (c2 a b)).
Proof.
  intros H1 H2. split.
  - intros a b. rewrite (cmp_opp (cmp := c1) a b), (cmp_opp (cmp := c2) a b). by destruct (c1 a b).
  - intros a b c. destruct (c1 a b) eqn:E; [|done..]. cbn. intros E2.
    by rewrite (cmp_eq_trans a b c E), (cmp_eq_trans a b c E2).
  - intros a b c. destruct (c1 a b) eqn:E; [| |done]; cbn.
    + rewrite (cmp_eq_trans a b c E). intros E2. destruct (c1 b c) eqn:E'; [|done..]. cbn.
      by apply cmp_lt_trans.
    + intros _. destruct (c1 b c) eqn:E'; [| |done]; intros _.
      * assert (E2 : c1 c b = Eq) by by rewrite (cmp_opp b c), E'.
        assert (E3 : c1 a c = Lt); [|by rewrite E3].
        rewrite (cmp_opp c a), (cmp_eq_trans c b a E2), (cmp_opp a b), E. done.
      * by rewrite (cmp_lt_trans a b c E E').
Qed.

(** A kind as its rank and its segment, if it is unknown. *)
Definition unknown_segment (k : EntryKind) : bytes :=
  match k with UnknownKindOf s => as_bytes s | _ => [] end.

Lemma kind_cmp_eq a b : kind_cmp a b = then_cmp (kind_rank a ?= kind_rank b)%Z
  (bytes_cmp (unknown_segment a) (unknown_segment b)).
Proof. by destruct a, b. Qed.

Lemma kind_comparison : Comparison kind_cmp.
Proof.
  eapply comparison_ext; [apply kind_cmp_eq|].
  apply comparison_then; [apply (comparison_on kind_rank Z.compare)|
    apply (comparison_on unknown_segment bytes_cmp)]; apply _.
Qed.

Lemma pass_comparison : Comparison pass_cmp.
Proof.
  unfold pass_cmp. cbn zeta.
  apply comparison_then;
    [apply (comparison_on (λ e, match pe_order e with None => 1%Z | Some _ => 0%Z end) Z.compare), _|].
  apply comparison_then; [apply (comparison_on pe_order order_cmp), _|].
  apply comparison_then; [apply (comparison_on (λ e, as_bytes (pe_id e)) bytes_cmp), _|].
  apply comparison_then; [apply (comparison_on (λ e, qn_bytes (pe_queue e)) bytes_cmp), _|].
  apply (comparison_on pe_kind kind_cmp), kind_comparison.
Qed.

(** ** The sort *)

Lemma pass_le_total a b : pass_le a b = true ∨ pass_le b a = true.
Proof.
  unfold pass_le. rewrite (cmp_opp (cmp := pass_cmp) (Comparison := pass_comparison) a b).
  destruct (pass_cmp a b); auto.
Qed.

Lemma pass_le_trans a b c : pass_le a b = true → pass_le b c = true → pass_le a c = true.
Proof.
  unfold pass_le. pose proof pass_comparison as H.
  destruct (pass_cmp a b) eqn:E; [| |done]; intros _.
  - by rewrite (cmp_eq_trans a b c E).
  - destruct (pass_cmp b c) eqn:E'; [| |done]; intros _.
    + assert (E2 : pass_cmp c b = Eq) by by rewrite (cmp_opp b c), E'.
      by rewrite (cmp_opp c a), (cmp_eq_trans c b a E2), (cmp_opp a b), E.
    + by rewrite (cmp_lt_trans a b c E E').
Qed.

Abbreviation in_pass_order := (StronglySorted (λ a b, pass_le a b = true)).

Lemma sort_insert_perm e l : sort_insert e l ≡ₚ e :: l.
Proof.
  induction l as [|x l IH]; cbn; [done|]. destruct (pass_le e x); [done|]. rewrite IH. constructor.
Qed.

Lemma sort_entries_perm l : sort_entries l ≡ₚ l.
Proof. induction l as [|e l IH]; cbn; [done|]. by rewrite sort_insert_perm, IH. Qed.

Lemma sort_insert_sorted e l : in_pass_order l → in_pass_order (sort_insert e l).
Proof.
  induction 1 as [|x l Hl IH Hx]; cbn; [repeat constructor|]. rewrite Forall_forall in Hx.
  destruct (pass_le e x) eqn:E.
  - constructor; [constructor; [done|by apply Forall_forall]|]. apply Forall_forall.
    intros y [->|Hy]%elem_of_cons; [done|]. by eapply pass_le_trans; [|apply Hx].
  - constructor; [done|]. apply Forall_forall. intros y Hy.
    rewrite sort_insert_perm in Hy. apply elem_of_cons in Hy as [->|Hy]; [|by apply Hx].
    destruct (pass_le_total e x) as [H|H]; [congruence|done].
Qed.

Lemma sort_entries_sorted l : in_pass_order (sort_entries l).
Proof. induction l as [|e l IH]; cbn; [constructor|by apply sort_insert_sorted]. Qed.

Lemma sorted_lookup l i j a b :
  in_pass_order l → i < j → l !! i = Some a → l !! j = Some b → pass_le a b = true.
Proof.
  intros Hs. revert i j. induction Hs as [|x l _ IH Hx]; intros i j Hij Ha Hb; [done|].
  destruct j as [|j]; [lia|]. cbn in Hb. destruct i as [|i].
  - injection Ha as ->. rewrite Forall_forall in Hx. by eapply Hx, list_elem_of_lookup_2.
  - apply (IH i j); [lia|done..].
Qed.

(** What the order says of the times the entries were sent at. *)
Definition send_order (a b : PendingEntry) : Prop :=
  match pe_order a, pe_order b with
  | Some x, Some y => (x ≤ y)%Z
  | None, Some _ => False
  | _, None => True
  end.

Lemma pass_le_send_order a b : pass_le a b = true → send_order a b.
Proof.
  unfold pass_le, pass_cmp, send_order. destruct (pe_order a) as [x|], (pe_order b) as [y|]; cbn; try done.
  destruct (Z.compare_spec x y); [lia|lia|done].
Qed.

(** ** Paths *)

Definition without (c : ascii) (s : string) : Prop := Forall (λ a, a ≠ c) (String.list_ascii_of_string s).

Lemma string_app_nil s : "" +:+ s = s.
Proof. done. Qed.
Lemma string_app_cons a s t : String a s +:+ t = String a (s +:+ t).
Proof. done. Qed.

Lemma str_split_one c s : without c s → str_split c s = [s].
Proof.
  induction s as [|a s IH]; cbn; [done|]. intros [Ha Hs]%Forall_cons.
  destruct (Ascii.eqb_spec a c) as [->|_]; [done|]. by rewrite IH.
Qed.

Lemma str_split_cons c s rest : without c s → str_split c (s +:+ String c rest) = s :: str_split c rest.
Proof.
  induction s as [|a s IH]; [intros _; rewrite string_app_nil; cbn; by rewrite Ascii.eqb_refl|].
  intros [Ha Hs]%Forall_cons. rewrite string_app_cons. cbn.
  destruct (Ascii.eqb_spec a c) as [->|_]; [done|]. by rewrite IH.
Qed.

Lemma split_once_app c s rest : without c s → split_once c (s +:+ String c rest) = Some (s, rest).
Proof.
  induction s as [|a s IH]; [intros _; rewrite string_app_nil; cbn; by rewrite Ascii.eqb_refl|].
  intros [Ha Hs]%Forall_cons. rewrite string_app_cons. cbn.
  destruct (Ascii.eqb_spec a c) as [->|_]; [done|]. by rewrite IH.
Qed.

Lemma string_app_assoc (s1 s2 s3 : string) : (s1 +:+ s2) +:+ s3 = s1 +:+ s2 +:+ s3.
Proof. induction s1 as [|a s1 IH]; [done|]. by rewrite !string_app_cons, IH. Qed.

Lemma string_app_char s a t : s +:+ String a t = (s +:+ String a "") +:+ t.
Proof. by rewrite string_app_assoc, string_app_cons, string_app_nil. Qed.

Lemma without_app c s t : without c s → without c t → without c (s +:+ t).
Proof.
  induction s as [|a s IH]; [done|]. intros [Ha Hs]%Forall_cons Ht. rewrite string_app_cons.
  constructor; [done|by apply IH].
Qed.

(** The characters of a checked form. *)
Lemma without_form f s c :
  (∀ b, form_characters f b = true → in_range 0 127 b = true) → form_check f s = Ok () →
  form_characters f (byte_of_ascii c) = false → without c s.
Proof.
  intros Ha (_ & _ & Hall & _)%form_check_ascii Hc; [|done].
  unfold as_bytes in Hall. apply Forall_fmap in Hall. eapply Forall_impl; [exact Hall|].
  intros a Hf ->. cbn in Hf. congruence.
Qed.

Lemma entry_id_ascii b : form_characters ENTRY_ID_FORM b = true → in_range 0 127 b = true.
Proof.
  cbn. unfold is_ascii_alphanumeric. rewrite orb_true_iff, bool_decide_eq_true.
  rewrite !elem_of_cons, elem_of_nil. unfold in_range. lia.
Qed.

Lemma validate_entry_id_Ok i : validate_entry_id i = Ok () → form_check ENTRY_ID_FORM i = Ok ().
Proof. unfold validate_entry_id. by destruct (form_check _ _) as [[]|]. Qed.

Lemma queue_name_without q : without "/"%char (qn_str q).
Proof. by eapply without_form; [apply queue_char_ascii|apply qn_valid|]. Qed.

Lemma entry_id_without i : validate_entry_id i = Ok () → without "/"%char i.
Proof. intros H%validate_entry_id_Ok. by eapply without_form; [apply entry_id_ascii|exact H|]. Qed.

Lemma of_segment_kind e : of_segment (kind_segment (entry_kind e)) = entry_kind e.
Proof. by destruct e. Qed.

Section listing.
  Context {OS : ObjectStore} {IS : EntryStore}.
  Context (ulid_parse : string → option Z) (ulid_text : Z → string).

(** The text of a ULID: it parses back and is a part of a path segment. *)
Definition ulid_text_ok (order : Z) : Prop :=
  ulid_parse (ulid_text order) = Some order ∧
  without "/"%char (ulid_text order) ∧ without "."%char (ulid_text order).

(** The path below the version prefix. *)
Lemma entry_path_relative prefix q k order i :
  str_strip_prefix (version_prefix prefix +:+ "/") (entry_path ulid_text prefix q k order i) =
    Some (q +:+ String "/"%char (kind_segment k +:+ String "/"%char (ulid_text order +:+ String "."%char i))).
Proof.
  unfold entry_path, inbox_queue_prefix. rewrite !string_app_assoc, !string_app_cons, !string_app_nil.
  rewrite (string_app_char (version_prefix prefix) "/"%char (q +:+ _)).
  by rewrite str_strip_prefix_app.
Qed.

(** A sent entry parses back from the path of its object. *)
Lemma entry_parse_path q e order i object :
  ulid_text_ok order → validate_entry_id i = Ok () →
  entry_parse ulid_parse (qn_str q +:+ String "/"%char (kind_segment (entry_kind e) +:+
      String "/"%char (ulid_text order +:+ String "."%char i))) object =
    Some (mkPendingEntry q i (entry_kind e) (om_size object) (Z.max (last_modified_ms object) 0)
      (location object) (Some order)).
Proof.
  intros (Hp & Hs & Hd) Hi. unfold entry_parse.
  rewrite str_split_cons by apply queue_name_without.
  rewrite str_split_cons by (destruct e; repeat constructor; done).
  rewrite str_split_one.
  2: { apply without_app; [done|]. constructor; [done|by apply entry_id_without]. }
  rewrite split_once_app by done. rewrite Hp, Hi, QueueName_new_qn_str, of_segment_kind.
  by destruct e.
Qed.

Lemma list_entries_Ok prefix q o l :
  list_entries ulid_parse prefix q o = Ok l →
  ∃ objects, os_list (path_from (match q with
      | Some q => inbox_queue_prefix prefix q | None => version_prefix prefix end)) o = Ok objects ∧
    l ≡ₚ omap (λ object,
      relative ← str_strip_prefix (version_prefix prefix +:+ "/") (location object);
      entry_parse ulid_parse relative object) objects ∧
    in_pass_order l.
Proof.
  unfold list_entries. destruct (os_list _ o) as [objects|e]; [|done]. intros [= <-].
  exists objects. split; [done|]. split; [apply sort_entries_perm|apply sort_entries_sorted].
Qed.
End listing.
