(* ===== verification/Queue.v ===== *)
(** * The public handle (taquba/src/queue.rs, taquba/src/kv.rs, taquba/src/lease.rs,
    taquba/src/expiry.rs, taquba/src/worker.rs, taquba/src/view.rs)

    The calls of the handle above the core: claims, renewals, the completion
    wait, the user key space, the expiry pass and the settlement of the worker
    loop. *)
From S2P Require Import Prelude Bytes Error Monad Keys Job Store Stats LeaseRegistry.
From S2P Require Import TimeBound ClaimCursor Completion Txn Core QueueCore.
From S2P Require Import Control Effects Claim Settle Enqueue.

(** [SETTLEMENT_MARGIN] of taquba/src/lease.rs. *)
Definition SETTLEMENT_MARGIN : Duration := from_secs 5.

(** [Expired] of taquba/src/expiry.rs. *)
Inductive Expired :=
| ExpiredDelete (effects : SettlementEffects)
| ExpiredDeleteIf (key : bytes) (expected : option bytes) (effects : SettlementEffects)
| ExpiredKeep.

Inductive Completion := Settled (outcome : WaitOutcome) | CompletionPending (r : Registration).

(** What a worker returned for a job: its effects, or its error, the message of
    the error and the effects attached to it. [WorkerStopped] is the drop of the
    processing when the store closed. *)
Inductive WorkerOutcome :=
| WorkerOk (effects : SettlementEffects)
| WorkerFailed (permanent : bool) (message : string) (effects : SettlementEffects)
| WorkerStopped.

Section queue.
  Context {DB : SlateDb} {OS : ObjectStore} {SR : Serde JobRecord} {SA : Serde JobAttempt}.
  Context {SC : Serde CountRecord} {EN : Env}.

(** [Queue::claim_batch], [Queue::claim] and [Queue::claim_next]. *)
Definition claim_batch (q : string) (max_jobs : nat) (lease_duration : Duration) : Q (list Claim) :=
  q ← io_result (QueueName_new q);
  if decide (max_jobs = 0) then mret [] else core_claim_batch q max_jobs lease_duration.
Definition claim_one (q : string) (lease_duration : Duration) : Q (option Claim) :=
  cs ← claim_batch q 1 lease_duration; mret (last cs).
Definition claim_next (q : string) : Q (option Claim) :=
  claim_one q (cfg_lease_duration (configs_get configs q)).

(** The short forms: [Queue::enqueue], [Queue::ack], [Queue::nack],
    [Queue::dead_letter] and [Queue::cancel], without options or effects. *)
Definition enqueue (q : string) (pl : bytes) : Q string := enqueue_with q pl options_default.
Definition ack (claim : Claim) : Q () := ack_with claim effects_default ≫= λ _, mret tt.
Definition nack (claim : Claim) (error : string) : Q () := nack_with claim error effects_default ≫= λ _, mret tt.
Definition dead_letter (claim : Claim) (reason : string) : Q () :=
  dead_letter_with claim reason effects_default ≫= λ _, mret tt.
Definition cancel_by_id (jid : string) : Q CancelOutcome := '(outcome, _) ← cancel_with jid effects_default; mret outcome.

(** [Queue::wait_for_jobs_on]: the wait ends by a wakeup or at its time, after other
    tasks ran. A name that is not of a queue has no entry and is never notified. *)
Definition on_wakeup (f : QueueName → ClaimCursor → ClaimCursor) (q : string) : Q () :=
  match QueueName_new q with Ok q => upd_cursor (f q) | Err _ => mret tt end.
Definition wait_for_jobs_on (q : string) : Q () := on_wakeup wakeup_for q ≫= λ _, yield.

(** [Queue::claim_with_wait], with [waits] waits before its deadline. *)
Fixpoint claim_with_wait (waits : nat) (q : string) (lease_duration : Duration) : Q (option Claim) :=
  claim ← claim_one q lease_duration;
  match claim, waits with
  | Some claim, _ => on_wakeup notify_one q ≫= λ _, mret (Some claim)
  | None, O => mret None
  | None, S waits => wait_for_jobs_on q ≫= λ _, claim_with_wait waits q lease_duration
  end.

(** [Queue::renew_lease]. *)
Definition renew_lease (claim : Claim) (extension : Duration) : Q Z :=
  now ← now_ms;
  let new_expiry := wrap64 (now + millis_u64 extension) in
  registry ← get lease_registry;
  '(_, registry) ← io_result (lease_renew (queue (job claim)) (id (job claim)) (claim_id claim)
    (cancel claim) new_expiry Set_ registry);
  upd (set_lease_registry registry) ≫= λ _,
  mret new_expiry.

(** [LeaseHandle::ensure_at_least], of a handle on a claim. *)
Definition ensure_at_least (claim : Claim) (remaining : Duration) : Q () :=
  now ← now_ms;
  let needed := wrap64 (now + millis_u64 remaining + millis_u64 SETTLEMENT_MARGIN) in
  registry ← get lease_registry;
  '(_, registry) ← io_result (lease_renew (queue (job claim)) (id (job claim)) (claim_id claim)
    (cancel claim) needed Extend registry);
  upd (set_lease_registry registry) ≫= λ _,
  mret tt.

(** [LeaseHandle::fence]. *)
Definition lease_fence (claim : Claim) : ClaimFence :=
  mkFence (queue (job claim)) (id (job claim)) (claim_id claim).

(** [LeaseHandle]: a handle on a claim, which [Queue::lease_handle] makes, or a detached
    one. *)
Definition LeaseHandle : Type := option Claim.
Definition lease_handle (claim : Claim) : LeaseHandle := Some claim.
Definition lease_detached : LeaseHandle := None.
Definition handle_fence (h : LeaseHandle) : option ClaimFence := lease_fence <$> h.
Definition handle_ensure_at_least (h : LeaseHandle) (remaining : Duration) : Q () :=
  match h with Some claim => ensure_at_least claim remaining | None => mret tt end.

(** [Queue::lease_expiry]. *)
Definition lease_expiry (q jid : string) (c : Core) : option Z :=
  q ← ok (QueueName_new q);
  fst <$> lease_current q jid (lease_registry c).

(** [QueueView::get_job] of the view of the writer. *)
Definition view_get_job (jid : string) : Q (option JobRecord) :=
  t ← begin;
  found ← io_result (get_indexed_job (txn t) jid);
  match found with
  | None => mret None
  | Some (index_key, _, j) =>
      yield ≫= λ _,
      r ← io_try (materialize j);
      match r with
      | Ok j => mret (Some j)
      | Err (PayloadMissing i) =>
          d ← get db;
          again ← io_result (lift (db_get d index_key));
          match again with
          | None => mret None
          | Some _ => io_err (PayloadMissing i)
          end
      | Err e => io_err e
      end
  end.

(** [Queue::completion]; a registration that is dropped withdraws. *)
Definition completion (jid : string) : Q Completion :=
  r ← io_state (λ w, let '(r, cw) := register jid (completion_waiters (core w)) in
    (r, mkWorld (set_completion_waiters cw (core w)) (others w)));
  yield ≫= λ _,
  let drop_registration : Q () :=
    upd (λ c, set_completion_waiters (withdraw (reg_id r) (reg_key r) (completion_waiters c)) c) in
  found ← io_try (view_get_job jid);
  match found with
  | Err e => drop_registration ≫= λ _, io_err e
  | Ok (Some j) =>
      match status j with
      | Done => drop_registration ≫= λ _, mret (Settled (WaitDone j))
      | Dead => drop_registration ≫= λ _, mret (Settled (WaitDead j))
      | _ => mret (CompletionPending r)
      end
  | Ok None =>
      o ← get (λ c, try_outcome r (completion_waiters c));
      drop_registration ≫= λ _,
      mret (Settled (default WaitNotFound o))
  end.

(** The wait for the outcome on the channel of a registration, over at most [n] points
    where other tasks run; the end of the wait drops the registration. *)
Fixpoint await_within (n : nat) (r : Registration) : Q (option WaitOutcome) :=
  o ← get (λ c, try_outcome r (completion_waiters c));
  let drop_registration : Q () :=
    upd (λ c, set_completion_waiters (withdraw (reg_id r) (reg_key r) (completion_waiters c)) c) in
  match o, n with
  | Some o, _ => drop_registration ≫= λ _, mret (Some o)
  | None, O => drop_registration ≫= λ _, mret None
  | None, S n => yield ≫= λ _, await_within n r
  end.

(** [Queue::wait_for_completion_timeout]: the timeout elapses after [n] such points. *)
Definition wait_for_completion_timeout (jid : string) (n : nat) : Q (option WaitOutcome) :=
  c ← completion jid;
  match c with
  | Settled o => mret (Some o)
  | CompletionPending r => await_within n r
  end.

(** [Queue::wait_for_completion]: without an outcome after the other tasks are done the
    wait does not end. *)
Definition wait_for_completion (jid : string) : Q WaitOutcome :=
  c ← completion jid;
  match c with
  | Settled o => mret o
  | CompletionPending r => λ w,
      (o ← await_within (length (others w)) r;
       match o with Some o => mret o | None => io_err Unfinished end) w
  end.

(** ** The user key space *)

Definition await_durable : Q () :=
  d ← get db; io_result (lift (db_await_durable d)).

(** [Queue::kv_put] and [Queue::kv_delete]. *)
Definition kv_put (key value : bytes) : Q () :=
  io_result (validate_kv_value_size value) ≫= λ _,
  d ← get db;
  d ← io_result (lift (db_put d (user_scoped_key key) value));
  upd (set_db d) ≫= λ _,
  await_durable.
Definition kv_delete (key : bytes) : Q () :=
  d ← get db;
  d ← io_result (lift (db_delete d (user_scoped_key key)));
  upd (set_db d) ≫= λ _,
  await_durable.

(** [Queue::kv_compare_then], [kv_compare_delete] and [kv_compare_put]. *)
Definition kv_compare_then (key : bytes) (expected : option bytes) (write : bytes → TxnM ()) : Q bool :=
  let scoped := user_scoped_key key in
  retry Awaited (λ t,
    '(same, t) ← staging (kv_state_matches scoped expected) t;
    if same : bool then
      '(_, t) ← staging (write scoped) t;
      mret (CommitWith true, t)
    else mret (AbortWith false, t)).
Definition kv_compare_delete (key expected : bytes) : Q bool :=
  kv_compare_then key (Some expected) t_delete.
Definition kv_compare_put (key : bytes) (expected : option bytes) (value : bytes) : Q bool :=
  io_result (validate_kv_value_size value) ≫= λ _,
  kv_compare_then key expected (λ scoped, t_put scoped value).

(** ** The settlement of the worker loop *)

Section worker.
  (** The text of an error. *)
  Context (to_string : Error → string).

(** [process_and_settle], from the outcome of the worker. *)
Definition settle_outcome (claim : Claim) (o : WorkerOutcome) : Q () :=
  match o with
  | WorkerStopped => mret tt
  | WorkerOk effects => ack_with claim effects ≫= λ _, mret tt
  | WorkerFailed true message effects => dead_letter_with claim message effects ≫= λ _, mret tt
  | WorkerFailed false message effects => nack_with claim message effects ≫= λ _, mret tt
  end.

Definition process_and_settle (claim : Claim) (o : WorkerOutcome) : Q () :=
  settlement ← io_try (settle_outcome claim o);
  match settlement with
  | Ok _ => mret tt
  | Err (KvCompareFailed k) =>
      io_try (nack_with claim (to_string (KvCompareFailed k)) effects_default) ≫= λ _, mret tt
  | Err ClaimLost => mret tt
  | Err e =>
      if is_permanent e then
        io_try (dead_letter_with claim (to_string e) effects_default) ≫= λ _, mret tt
      else mret tt
  end.

End worker.

End queue.
