(* ===== verification/WorkerLoop.v ===== *)
(** * The worker loops (taquba/src/worker.rs)

    The polling loops over a queue: one job after the other, and up to a limit of jobs
    concurrently. The spawned tasks end in any order, and the shutdown can be signalled
    at every point where the loop looks for it: a loop is driven by the list of these
    events. The processing of a job is code of the user. *)
From S2P Require Import Prelude Bytes Error Monad Keys Job Store Stats LeaseRegistry.
From S2P Require Import TimeBound ClaimCursor Completion Txn Core QueueCore.
From S2P Require Import Control Effects Claim Settle Enqueue Queue.

(** Where a concurrent loop is: at the top of its loop, waiting for a free slot, about
    to claim, waiting on an empty queue, draining its tasks, or at its end. *)
Inductive LoopPhase :=
| AtTop
| AtCapacity
| Claiming
| Idle
| Draining
| Returned (r : Result ()).

(** The [JoinSet]: the claims of the tasks that run, and the number of the tasks that
    ended and are not joined yet. The tasks of a set are aborted when it is dropped, by
    a return with an error: then [running] are the aborted ones. *)
Record Loop := mkLoop { phase : LoopPhase; running : list Claim; ended : nat }.

Definition loop_new : Loop := mkLoop AtTop [] 0.
(** [JoinSet::len]. *)
Definition set_len (s : Loop) : nat := length (running s) + ended s.

(** What drives a concurrent loop: the end of a task, by its position in the set; a turn
    of the loop itself, with whether the shutdown is signalled at its check; and the
    join of an ended task in a wait that can be ended by the shutdown. *)
Inductive LoopEvent := TaskEnds (i : nat) | Turn (shutdown : bool).

Section loops.
  Context {DB : SlateDb} {OS : ObjectStore} {SR : Serde JobRecord} {SA : Serde JobAttempt}.
  Context {SC : Serde CountRecord} {EN : Env}.
  (** The worker of the user, with [WorkerStopped] for a panic or a store that closed
      during the processing, and the text of an error. *)
  Context (process : Claim → World → WorkerOutcome * World) (to_string : Error → string).
  Context (q : string) (concurrency : nat).

(** One spawned task: [process_and_settle]. *)
Definition worker_task (claim : Claim) : Q () := λ w,
  let '(o, w) := process claim w in process_and_settle to_string claim o w.

(** ** [run_worker]

    A turn of the loop is given whether the shutdown is signalled at its end. The
    result is whether the loop returned. *)
Fixpoint run_worker (turns : list bool) : Q bool :=
  match turns with
  | [] => mret false
  | shutdown :: turns =>
      claim ← claim_next q;
      match claim with
      | Some claim => worker_task claim ≫= λ _, if shutdown : bool then mret true else run_worker turns
      | None => if shutdown : bool then mret true else wait_for_jobs_on q ≫= λ _, run_worker turns
      end
  end.

(** ** [run_worker_concurrent]

    One event from a state of the loop: the state after it, and the claims that it
    spawned and those whose task ended. [None] is an event that cannot occur there. *)
Definition loop_event (e : LoopEvent) (s : Loop) (w : World)
    : option (Loop * World * list Claim * list Claim) :=
  let free := concurrency - set_len s in
  match e, phase s with
  | _, Returned _ => None
  | TaskEnds i, p =>
      claim ← running s !! i;
      Some (mkLoop p (delete i (running s)) (S (ended s)), (worker_task claim w).2, [], [claim])
  | Turn _, AtTop =>
      (* [try_join_next] takes every ended task. *)
      let p := if decide (concurrency <= length (running s)) then AtCapacity else Claiming in
      Some (mkLoop p (running s) 0, w, [], [])
  | Turn true, AtCapacity => Some (mkLoop Draining (running s) (ended s), w, [], [])
  | Turn false, AtCapacity =>
      match ended s with
      | O => None
      | S n => Some (mkLoop AtTop (running s) n, w, [], [])
      end
  | Turn shutdown, Claiming =>
      match claim_batch q free (cfg_lease_duration (configs_get configs q)) w with
      | (Err e, w) => Some (mkLoop (Returned (Err e)) (running s) (ended s), w, [], [])
      | (Ok [], w) => Some (mkLoop Idle (running s) (ended s), w, [], [])
      | (Ok claims, w) =>
          Some (mkLoop (if shutdown then Draining else AtTop) (running s ++ claims) (ended s), w, claims, [])
      end
  | Turn shutdown, Idle =>
      (* The shutdown can end the wait. *)
      Some (mkLoop (if shutdown then Draining else AtTop) (running s) (ended s), (wait_for_jobs_on q w).2, [], [])
  | Turn _, Draining =>
      match ended s, running s with
      | S n, _ => Some (mkLoop Draining (running s) n, w, [], [])
      | O, [] => Some (mkLoop (Returned (Ok tt)) [] 0, w, [], [])
      | O, _ => None
      end
  end.

(** The events of a loop, with every claim it spawned and every one whose task ended. *)
Fixpoint loop_run (es : list LoopEvent) (s : Loop) (w : World)
    : option (Loop * World * list Claim * list Claim) :=
  match es with
  | [] => Some (s, w, [], [])
  | e :: es =>
      '(s, w, spawned, done) ← loop_event e s w;
      '(s, w, spawned', done') ← loop_run es s w;
      Some (s, w, spawned ++ spawned', done ++ done')
  end.

(** The effects of an outcome, and what they enqueue. *)
Definition outcome_carries (o : WorkerOutcome) (e : SettlementEffects) : Prop :=
  o = WorkerOk e ∨ ∃ b m, o = WorkerFailed b m e.
Definition outcome_requests (o : WorkerOutcome) : list EnqueueRequest :=
  match o with WorkerOk e | WorkerFailed _ _ e => enqueues e | WorkerStopped => [] end.

(** The end of a claim by the settlement of an outcome, and its effects. *)
Definition outcome_settlement (claim : Claim) (o : WorkerOutcome)
    : option (SettlementEffects * (JobRecord → Z → ClaimEnd)) :=
  match o with
  | WorkerStopped => None
  | WorkerOk e => Some (e, λ _ _, EndDone (bool_decide (is_Some
      (cfg_keep_done_jobs (configs_get configs (qn_str (queue (job claim))))))))
  | WorkerFailed true m e => Some (e, λ _ _, EndDead m)
  | WorkerFailed false m e => Some (e, nack_end m)
  end.

End loops.

(** ** Facts *)

Section facts.
  Context {DB : SlateDb} {OS : ObjectStore} {SR : Serde JobRecord} {SA : Serde JobAttempt}.
  Context {SC : Serde CountRecord} {EN : Env}.

(** A call returns at most [n] elements. *)
Definition at_most {A} (n : nat) (m : Q (list A)) : Prop :=
  ∀ w l w', m w = (Ok l, w') → length l <= n.

Lemma at_most_bind {A B} n (m : Q A) (f : A → Q (list B)) :
  (∀ a, at_most n (f a)) → at_most n (m ≫= f).
Proof. intros Hf w l w' (a & w1 & _ & H)%IO_bind_Ok. by eapply Hf. Qed.
Lemma at_most_ret {A} n (l : list A) : length l <= n → at_most n (mret l).
Proof. by intros Hl w ? ? [= <- <-]. Qed.
Lemma at_most_err {A} n e : at_most n (io_err e : Q (list A)).
Proof. by intros w l w'. Qed.

Lemma claim_candidates_length l now le t w cs t' w' :
  claim_candidates l now le t w = (Ok (cs, t'), w') → length cs = length l.
Proof.
  revert t w cs t' w'. induction l as [|[k v] l IH]; intros t w cs t' w'; cbn.
  { by intros [= <- _ _]. }
  intros (j & w1 & _ & Hc)%IO_bind_Ok. apply IO_bind_Ok in Hc as ([c t1] & w2 & _ & Hcs).
  apply IO_bind_Ok in Hcs as ([cs1 t2] & w3 & Hl & [= <- <- <-]). cbn. f_equal. by eapply IH.
Qed.

Lemma claim_batch_loop_at_most fuel qn n lease : at_most n (claim_batch_loop fuel qn n lease).
Proof.
  induction fuel as [|fuel IH]; [apply at_most_err|]. cbn [claim_batch_loop].
  apply at_most_bind. intros scan. destruct (start_known_empty scan); [apply at_most_ret; cbn; lia|].
  do 4 (apply at_most_bind; intros ?). destruct (last _) as [last_kv|].
  2: { apply at_most_bind. intros _. apply at_most_ret. cbn. lia. }
  apply at_most_bind. intros now w l w' ([cs t] & w1 & Hc%claim_candidates_length & H)%IO_bind_Ok.
  refine (at_most_bind n _ _ _ _ _ _ H). intros _. apply at_most_bind. intros []; [|apply IH].
  do 2 (apply at_most_bind; intros _). apply at_most_ret. rewrite Hc, length_take. lia.
Qed.

Lemma claim_batch_at_most q n lease : at_most n (claim_batch q n lease).
Proof.
  apply at_most_bind. intros qn. case_decide; [apply at_most_ret; cbn; lia|].
  do 2 (apply at_most_bind; intros ?). apply at_most_bind. intros []; [apply at_most_ret; cbn; lia|].
  intros w l w' (cs & w1 & Hcs & Hm)%IO_bind_Ok.
  assert (Hl : length cs <= n) by by eapply claim_batch_loop_at_most.
  refine (at_most_bind n _ _ _ _ _ _ Hm). intros found. apply at_most_bind. intros js. apply at_most_ret.
  rewrite length_zip_with. lia.
Qed.

Context (process : Claim → World → WorkerOutcome * World) (to_string : Error → string).
Context (q : string) (concurrency : nat).
Abbreviation event := (loop_event process to_string q concurrency).

(** The tasks of a loop are within its limit, and a loop that returned without an error
    has none. *)
Definition loop_bounded (s : Loop) : Prop :=
  set_len s <= concurrency ∧
  match phase s with
  | Claiming => set_len s < concurrency
  | Returned (Ok _) => set_len s = 0
  | _ => True
  end.

Lemma loop_event_bounded e s w s' w' spawned done :
  event e s w = Some (s', w', spawned, done) → loop_bounded s → loop_bounded s'.
Proof.
  destruct s as [p run n]. unfold loop_bounded, set_len. cbn [phase running ended]. intros H [Hle Hp].
  unfold loop_event in H. cbn [phase running ended set_len] in H.
  destruct e as [i|b].
  - destruct p as [| | | | |r]; try discriminate H;
      (apply bind_Some in H as (c & Hc & [= <- <- <- <-]);
       assert (length (delete i run) = length run - 1) as E by (apply length_delete; by eauto);
       apply lookup_lt_Some in Hc; cbn; lia).
  - destruct p as [| | | | |r].
    + destruct b; injection H as <- <- <- <-; case_decide; cbn; lia.
    + destruct b, n; simplify_eq/=; lia.
    + destruct b, (claim_batch _ _ _ _) as [[[|c cs]|err] w1] eqn:E; injection H as <- <- <- <-;
        [cbn; lia| |cbn; lia|cbn; lia| |cbn; lia];
        (apply claim_batch_at_most in E; cbn in E |- *; rewrite length_app; cbn; lia).
    + destruct b; injection H as <- <- <- <-; cbn; lia.
    + destruct b, n, run; simplify_eq/=; lia.
    + by destruct b.
Qed.

Lemma loop_event_conserves e s w s' w' spawned done :
  event e s w = Some (s', w', spawned, done) → spawned ++ running s ≡ₚ done ++ running s'.
Proof.
  destruct s as [p run n]. unfold loop_event. cbn [phase running ended]. intros H.
  destruct e as [i|b].
  - destruct p as [| | | | |r]; try discriminate H;
      (apply bind_Some in H as (c & Hc & [= <- <- <- <-]); cbn; by apply delete_Permutation).
  - destruct p as [| | | | |r].
    + by destruct b; injection H as <- <- <- <-.
    + by destruct b, n; simplify_eq/=.
    + destruct b, (claim_batch _ _ _ _) as [[[|c cs]|err] w1] eqn:E; injection H as <- <- <- <-;
        try done; apply (Permutation_app_comm (c :: cs)).
    + by destruct b; injection H as <- <- <- <-.
    + by destruct b, n, run; simplify_eq/=.
    + by destruct b.
Qed.

Lemma loop_run_facts es s w s' w' spawned done :
  loop_run process to_string q concurrency es s w = Some (s', w', spawned, done) → loop_bounded s →
  loop_bounded s' ∧ spawned ++ running s ≡ₚ done ++ running s'.
Proof.
  revert s w spawned done. induction es as [|e es IH]; intros s w spawned done; cbn.
  { by intros [= <- <- <- <-]. }
  intros H Hs. apply bind_Some in H as ([[[s1 w1] sp1] d1] & H1 & H).
  apply bind_Some in H as ([[[s2 w2] sp2] d2] & H2 & [= <- <- <- <-]).
  pose proof (loop_event_conserves _ _ _ _ _ _ _ H1) as P1.
  apply IH in H2 as [Hb P2]; [|by eapply loop_event_bounded]. split; [done|].
  rewrite (Permutation_app_comm sp1), <- (app_assoc sp2), P1, (app_assoc sp2), (Permutation_app_comm sp2).
  by rewrite <- app_assoc, P2, app_assoc.
Qed.

(** The first events of a loop. *)
Lemma loop_run_app es es' s w s2 w2 spawned done :
  loop_run process to_string q concurrency (es ++ es') s w = Some (s2, w2, spawned, done) →
  ∃ s1 w1 sp1 d1 sp2 d2, loop_run process to_string q concurrency es s w = Some (s1, w1, sp1, d1) ∧
    loop_run process to_string q concurrency es' s1 w1 = Some (s2, w2, sp2, d2) ∧
    spawned = sp1 ++ sp2 ∧ done = d1 ++ d2.
Proof.
  revert s w spawned done. induction es as [|e es IH]; intros s w spawned done; cbn [app loop_run].
  { intros H. by exists s, w, [], [], spawned, done. }
  intros H. apply bind_Some in H as ([[[s1 w1] sp1] d1] & H1 & H).
  apply bind_Some in H as ([[[s3 w3] sp3] d3] & H2 & [= <- <- <- <-]).
  apply IH in H2 as (s4 & w4 & sp4 & d4 & sp5 & d5 & E1 & E2 & -> & ->).
  exists s4, w4, (sp1 ++ sp4), (d1 ++ d4), sp5, d5. rewrite H1. cbn. rewrite E1. cbn. by rewrite <- !app_assoc.
Qed.

(** The end of a task is that of [worker_task]. *)
Lemma task_event i s w s' w' spawned done :
  event (TaskEnds i) s w = Some (s', w', spawned, done) →
  ∃ c, running s !! i = Some c ∧ w' = (worker_task process to_string c w).2 ∧ spawned = [] ∧ done = [c].
Proof.
  destruct s as [p run n]. unfold loop_event. cbn [phase running ended].
  destruct p as [| | | | |r]; try discriminate;
    intros (c & Hc & [= <- <- <- <-])%bind_Some; by exists c.
Qed.

(** The events left until a draining loop returns. *)
Definition drain_left (s : Loop) : nat := 2 * length (running s) + ended s.

Lemma draining_event e s w s' w' spawned done :
  event e s w = Some (s', w', spawned, done) → phase s = Draining →
  spawned = [] ∧ (phase s' = Returned (Ok tt) ∧ running s' = [] ∨ phase s' = Draining ∧ drain_left s' < drain_left s).
Proof.
  destruct s as [p run n]. cbn. intros H ->. unfold loop_event in H. cbn [phase running ended] in H.
  unfold drain_left. destruct e as [i|b].
  - apply bind_Some in H as (c & Hc & [= <- <- <- <-]).
    assert (length (delete i run) = length run - 1) as E by (apply length_delete; by eauto).
    apply lookup_lt_Some in Hc. cbn. split; [done|]. right. split; [done|]. lia.
  - destruct b, n, run; simplify_eq/=; (split; [done|]); first [by left|right; split; [done|lia]].
Qed.

(** A draining loop always has an event, and the turns of any schedule end. *)
Lemma draining_progress s w :
  phase s = Draining → ∃ e s' w' spawned done, event e s w = Some (s', w', spawned, done).
Proof.
  destruct s as [p run n]. cbn. intros ->. destruct n as [|n].
  - destruct run as [|c run].
    + by eexists (Turn false), _, _, _, _.
    + by eexists (TaskEnds 0), _, _, _, _.
  - by eexists (Turn false), _, _, _, _.
Qed.

Lemma draining_run es s w s' w' spawned done :
  loop_run process to_string q concurrency es s w = Some (s', w', spawned, done) → phase s = Draining →
  spawned = [] ∧ length es <= S (drain_left s) ∧
  (phase s' = Draining ∨ phase s' = Returned (Ok tt) ∧ running s' = []).
Proof.
  revert s w spawned done. induction es as [|e es IH]; intros s w spawned done; cbn.
  { intros [= <- <- <- <-]. split; [done|]. split; [lia|by left]. }
  intros H Hs. apply bind_Some in H as ([[[s1 w1] sp1] d1] & H1 & H).
  apply bind_Some in H as ([[[s2 w2] sp2] d2] & H2 & [= <- <- <- <-]).
  destruct (draining_event _ _ _ _ _ _ _ H1 Hs) as [-> [[Hr Hn]|[Hd Hlt]]].
  - destruct es as [|e' es]; cbn in H2.
    { injection H2 as <- <- <- <-. split; [done|]. split; [cbn; lia|]. by right. }
    apply bind_Some in H2 as (? & H2 & _). unfold loop_event in H2. rewrite Hr in H2.
    by destruct e' as [|[]].
  - apply IH in H2 as (-> & Hlen & Hp); [|done]. split; [done|]. split; [unfold drain_left in *; cbn; lia|done].
Qed.
End facts.
