(* ===== verification/CoreInv.v ===== *)
(** * The counters follow the populations (taquba/src/stats.rs, taquba/src/txn.rs)

    The counter of a queue and a state, read as the code reads it, and what the
    counter merges of a commit do to it. *)
From S2P Require Import Prelude Bytes Error Monad Keys Job Store Stats LeaseRegistry.
From S2P Require Import TimeBound ClaimCursor Completion Txn Stage StoreInv Sound Core.
From S2P Require Import QueueCore.

Section counters.
  Context {DB : SlateDb} {OS : ObjectStore} {SR : Serde JobRecord} {SA : Serde JobAttempt}.
  Context {EN : Env} {DL : SlateDbLaws merge_batch} {NI : NewIds}.
  Implicit Types (m : gmap bytes bytes).

Abbreviation run := (apply_writes merge_batch merge_fallback).

(** [QueueView::count_for] of taquba/src/view.rs. *)
Definition count_for m (q : QueueName) (s : JobStatus) : Result Z :=
  match m !! stats_key q (metric_name s) with
  | None => Ok 0%Z
  | Some b => ok_or (ok (read_i64_le b)) InvalidState
  end.

(** Every counter reads, and the counter of a live state is the number of its
    records, as an [i64]. *)
Definition counters_ok m : Prop :=
  ∀ q s, ∃ v, count_for m q s = Ok v ∧ (s ≠ Done → eq64 v (population m q s)).

Lemma count_for_range m q s v : count_for m q s = Ok v → (- 2 ^ 63 ≤ v < 2 ^ 63)%Z.
Proof.
  unfold count_for. destruct (m !! _) as [b|]; [|by intros [= <-]]. unfold read_i64_le.
  case_decide; cbn; [|done]. intros [= <-]. apply wrap_i64_range.
Qed.

Lemma counters_ok_empty : counters_ok ∅.
Proof.
  intros q s. exists 0%Z. unfold count_for. rewrite lookup_empty. split; [done|]. intros _.
  by rewrite population_empty.
Qed.

Definition stats_merge (x : QueueName * JobStatus * Z) : write :=
  WMerge (stats_key x.1.1 (metric_name x.1.2)) (i64_le x.2).

Definition stats_merges (l : list (QueueName * JobStatus * Z)) : list write :=
  stats_merge <$> filter (λ x, x.2 ≠ 0%Z) l.

Lemma write_stats_Ok l t t' :
  write_stats l t = Ok t' →
  base t' = base t ∧ writes t' = writes t ++ stats_merges l ∧
  ∀ k, k ∈ tracked t → tag_of k ≠ Some TStats → k ∈ tracked t'.
Proof.
  revert t. induction l as [|[[q s] d] l IH]; cbn [write_stats]; intros t H.
  - injection H as <-. unfold stats_merges. cbn. by rewrite app_nil_r.
  - apply bind_Ok in H as (t1 & E & H). apply IH in H as (Hb & Hw & Ht).
    unfold stats_merges. rewrite filter_cons. cbn [snd]. case_decide as D.
    + injection E as <-. rewrite decide_False by (intros N; by apply N).
      split; [done|]. by split.
    + rewrite decide_True by done. unfold update_stats in E.
      apply bind_Ok in E as (t2 & E2%lift_Ok%merge_law & E%lift_Ok%unmark_write_law).
      destruct E2 as (Hb2 & Hw2 & Ht2), E as (Hb3 & Hw3 & Ht3).
      split; [congruence|]. split.
      * rewrite Hw, Hw3, Hw2, <- app_assoc. done.
      * intros k Hk Hs. apply Ht; [|done]. rewrite Ht3, Ht2.
        assert (k ≠ stats_key q (metric_name s)) by (by intros ->).
        apply elem_of_difference. split; [set_solver|]. cbn. set_solver.
Qed.

Fixpoint list_delta (l : list (QueueName * JobStatus * Z)) q s : Z :=
  match l with
  | [] => 0
  | (qs, d) :: l => (if decide (qs = (q, s)) then d else 0) + list_delta l q s
  end%Z.

Lemma list_delta_notin l q s : (q, s) ∉ l.*1 → list_delta l q s = 0%Z.
Proof.
  induction l as [|[qs d] l IH]; cbn; [done|]. intros [Hne Hni]%not_elem_of_cons.
  rewrite decide_False by done. by rewrite IH.
Qed.

Lemma list_delta_map (d : gmap (QueueName * JobStatus) Z) q s :
  list_delta (map_to_list d) q s = delta d q s.
Proof.
  unfold delta. pose proof (NoDup_fst_map_to_list d) as Hnd.
  destruct (d !! (q, s)) as [x|] eqn:E; cbn.
  - apply elem_of_map_to_list in E. revert Hnd E. generalize (map_to_list d).
    induction l as [|[qs y] l IH]; cbn; intros Hnd Hin; [by apply elem_of_nil in Hin|].
    apply NoDup_cons in Hnd as [Hni Hnd]. apply elem_of_cons in Hin as [[= <- <-]|Hin].
    + rewrite decide_True by done. rewrite list_delta_notin by done. lia.
    + rewrite decide_False; [by rewrite IH|]. intros ->. apply Hni.
      apply list_elem_of_fmap. by exists (q, s, x).
  - apply list_delta_notin. intros Hin. apply list_elem_of_fmap in Hin as ([qs y] & Heq & Hin).
    cbn in Heq. subst qs. apply elem_of_map_to_list in Hin. congruence.
Qed.

(** The counter merges leave every other key. *)
Lemma run_stats_other l m k : tag_of k ≠ Some TStats → run (stats_merges l) m !! k = m !! k.
Proof.
  intros Hk. unfold stats_merges, apply_writes. revert m.
  induction (filter _ l) as [|x l' IH]; intros m; [done|]. cbn. rewrite IH.
  apply lookup_insert_ne. by intros <-.
Qed.

Lemma count_for_merge m q0 s0 d q s v :
  count_for m q s = Ok v → (∃ v0, count_for m q0 s0 = Ok v0) →
  ∃ v', count_for (run [stats_merge (q0, s0, d)] m) q s = Ok v' ∧
    eq64 v' (v + (if decide ((q0, s0) = (q, s)) then d else 0)).
Proof.
  intros Hv [v0 Hv0]. unfold count_for in *. cbn [apply_writes foldl stats_merge apply_write fst snd].
  case_decide as D.
  - injection D as -> ->. rewrite lookup_insert_eq, merge_batch_stats.
    rewrite (merge_counters_add _ v).
    + rewrite read_i64_le_i64_le. eexists. split; [done|].
      rewrite wrap_i64_eq64. by rewrite wrap_i64_eq64.
    + destruct (m !! _) as [b|]; [|by injection Hv as <-].
      destruct (read_i64_le b); cbn in Hv; [by injection Hv as ->|done].
  - rewrite lookup_insert_ne.
    + exists v. split; [done|]. by rewrite Z.add_0_r.
    + intros [-> E%metric_name_inj]%stats_key_inj. congruence.
Qed.

Lemma run_stats_count l m q s v :
  (∀ q s, ∃ v, count_for m q s = Ok v) → count_for m q s = Ok v →
  ∃ v', count_for (run (stats_merges l) m) q s = Ok v' ∧ eq64 v' (v + list_delta l q s).
Proof.
  revert m v. induction l as [|[[q0 s0] d] l IH]; intros m v Hall Hv.
  - exists v. split; [done|]. cbn. by rewrite Z.add_0_r.
  - unfold stats_merges. rewrite filter_cons. cbn [snd list_delta]. case_decide as D.
    + rewrite fmap_cons. change (stats_merge (q0, s0, d) :: ?l') with ([stats_merge (q0, s0, d)] ++ l').
      rewrite run_app.
      destruct (count_for_merge m q0 s0 d q s v Hv (Hall q0 s0)) as (v1 & Hv1 & E1).
      destruct (IH (run [stats_merge (q0, s0, d)] m) v1) as (v' & Hv' & E').
      * intros q1 s1. destruct (Hall q1 s1) as [w Hw].
        destruct (count_for_merge m q0 s0 d q1 s1 w Hw (Hall q0 s0)) as (w' & ? & _). by exists w'.
      * done.
      * exists v'. split; [done|]. rewrite E', E1, Z.add_assoc. done.
    + assert (d = 0%Z) as -> by (destruct (decide (d = 0%Z)); [done|by destruct D]).
      destruct (IH m v Hall Hv) as (v' & ? & E). exists v'. split; [done|].
      rewrite E. by destruct (decide _).
Qed.

(** A sound transaction and its counter merges take a store whose counters follow
    its populations to another. *)
Lemma counters_ok_commit m m1 (d : gmap (QueueName * JobStatus) Z) :
  counters_ok m → steps_ok m m1 ∅ d →
  counters_ok (run (stats_merges (map_to_list d)) m1).
Proof.
  intros Hm Hs q s.
  assert (Hc : ∀ q s, count_for m1 q s = count_for m q s).
  { intros q1 s1. unfold count_for. by rewrite (steps_stats _ _ _ _ Hs). }
  destruct (Hm q s) as (v & Hv & Hp).
  destruct (run_stats_count (map_to_list d) m1 q s v) as (v' & Hv' & E).
  - intros q1 s1. rewrite Hc. destruct (Hm q1 s1) as (w & ? & _). by exists w.
  - by rewrite Hc.
  - exists v'. split; [done|]. intros Hd. rewrite E, Hp, list_delta_map by done.
    rewrite (population_ext m1 (run (stats_merges (map_to_list d)) m1)).
    + rewrite (steps_population _ _ _ _ Hs) by done.
      assert (delta ∅ q s = 0%Z) as -> by done. by rewrite Z.sub_0_r.
    + intros k. destruct (decide (tag_of k = Some TStats)) as [Et|Et].
      * unfold job_at, decode_job. rewrite Et. by destruct (run _ _ !! k), (m1 !! k).
      * by apply job_at_ext, run_stats_other.
Qed.

End counters.

(** ** Every call preserves the invariant

    A rely-guarantee argument over the process: when each other task preserves an
    invariant, so does every call, wherever the others run inside it. The invariant
    is an interface: consistency, [core_ok], is one, and [Process] has another, that
    also says which ids are not in use. *)

Section invariants.
  Context {DB : SlateDb} {OS : ObjectStore} {SR : Serde JobRecord} {SA : Serde JobAttempt}.
  Context {EN : Env} {DL : SlateDbLaws merge_batch}.

(** The invariant of the process: of the store, of its counters and of the lease
    registry. *)
Record core_ok (c : Core) : Prop := {
  core_store : store_ok (contents (db c));
  core_counters : counters_ok (contents (db c));
  core_registry : registry_wf (lease_registry c);
}.

(** A job of the store has the id. *)
Definition in_use (c : Core) (i : string) : Prop := is_Some (contents (db c) !! job_index_key i).

Definition absent (R : string → Prop) (c : Core) : Prop :=
  ∀ i, R i → contents (db c) !! job_index_key i = None.

(** From [c] to [c'] no id and no ULID is taken back by its generator, and each lease is
    one that the job had, or has a claim id of [U]. *)
Record advances (U : Z → Prop) (c c' : Core) : Prop := {
  adv_job_ids : job_ids c ≤ job_ids c';
  adv_ulids : ulids c ≤ ulids c';
  adv_leases : leases_from U (lease_registry c) (lease_registry c');
}.

Lemma advances_same U c c' :
  lease_registry c' = lease_registry c → job_ids c ≤ job_ids c' → ulids c ≤ ulids c' → advances U c c'.
Proof. intros E. constructor; [done..|]. apply leases_from_same. by rewrite E. Qed.

(** The claim id that the next ULID makes. *)
Definition next_claim_id (c : Core) : Z := wrap64 (ulid_new (ulids c)).

(** An invariant of the process, and what is asked of the other tasks: it has
    consistency; a new claim id is usable; every step that keeps consistency, inserts no
    job and leases with usable claim ids keeps it, and so do the other tasks. *)
Class Invariant := {
  inv : Core → Prop;
  peer : (Core → Core) → Prop;
  usable : Z → Prop;
  inv_ok c : inv c → core_ok c;
  inv_usable c : inv c → usable (next_claim_id c);
  inv_step c c' :
    inv c → core_ok c' → advances usable c c' → (∀ i, in_use c' i → in_use c i) → inv c';
  inv_peer f c : peer f → inv c → inv (f c);
}.

#[export, program] Instance inv_core : Invariant | 100 :=
  { inv := core_ok; peer f := ∀ c, core_ok c → core_ok (f c); usable _ := True }.
Next Obligation. done. Qed.
Next Obligation. done. Qed.
Next Obligation. done. Qed.
Next Obligation. auto. Qed.

End invariants.

Arguments inv {_ _ _ _ _} _ _.
Arguments peer {_ _ _ _ _} _ _.
Arguments usable {_ _ _ _ _} _ _.

(** The invariant a call relies on until it commits. *)
Record Rely `{SlateDb} `{ObjectStore} `{Serde JobRecord} `{Env} `{!SlateDbLaws merge_batch} :=
  mkRely { reliance : Invariant }.
Arguments mkRely {_ _ _ _ _} _.
Abbreviation rely J := (inv (reliance J)).


Section core_inv.
  Context {DB : SlateDb} {OS : ObjectStore} {SR : Serde JobRecord} {SA : Serde JobAttempt}.
  Context {EN : Env} {DL : SlateDbLaws merge_batch} {CI : Invariant}.

Definition world_ok (w : World) : Prop :=
  inv CI (core w) ∧ Forall (peer CI) (others w).

Lemma world_core w : world_ok w → core_ok (core w).
Proof. intros [Hc _]. by apply inv_ok. Qed.

(** A step of the process that keeps consistency, inserts no job and leases with usable
    claim ids. *)
Lemma world_ok_step w c' :
  world_ok w → core_ok c' → advances (usable CI) (core w) c' →
  (∀ i, in_use c' i → in_use (core w) i) → world_ok (mkWorld c' (others w)).
Proof. intros [Hc Ho] H Hn Hi. split; [by eapply inv_step|done]. Qed.

Lemma yield_ok : preserves world_ok yield.
Proof.
  intros [c [|f fs]] [Hc Hf]; cbn; [by split|].
  apply Forall_cons in Hf as [Hf Hfs]. split; [exact (inv_peer f c Hf Hc)|done].
Qed.

Lemma upd_ok f :
  (∀ c, core_ok c → core_ok (f c)) → (∀ c, db (f c) = db c ∧ advances (usable CI) c (f c)) →
  preserves world_ok (upd f).
Proof.
  intros Hf Hd. apply preserves_modify. intros w Hw. destruct (Hd (core w)) as [Ed En].
  apply world_ok_step; [done|by apply Hf, world_core|done|].
  intros i. unfold in_use. by rewrite Ed.
Qed.

(** A change of the process that leaves the store, the registry and the generators. *)
Lemma upd_frame f :
  (∀ c, db (f c) = db c ∧ lease_registry (f c) = lease_registry c ∧ job_ids (f c) = job_ids c ∧ ulids (f c) = ulids c) →
  preserves world_ok (upd f).
Proof.
  intros Hf. apply upd_ok.
  - intros c [Hs Hc Hr]. destruct (Hf c) as (Ed & El & _). constructor; by rewrite ?Ed, ?El.
  - intros c. destruct (Hf c) as (Ed & El & Ej & Eu). split; [done|]. apply advances_same; [done|by rewrite Ej|by rewrite Eu].
Qed.

Lemma now_ms_ok : preserves world_ok now_ms.
Proof. apply preserves_bind; [apply preserves_gets|]. intros n.
  apply preserves_bind; [by apply upd_frame|]. intros. apply preserves_ret. Qed.
Lemma new_ulid_ok : preserves world_ok new_ulid.
Proof.
  intros w Hw. destruct (world_core w Hw) as [Hs Hc Hr].
  apply (world_ok_step w (set_ulids (S (ulids (core w))) (core w)) Hw); [done| |done].
  apply advances_same; cbn; [done|done|lia].
Qed.
Lemma new_token_ok : preserves world_ok new_token.
Proof. apply preserves_bind; [apply preserves_gets|]. intros n.
  apply preserves_bind; [by apply upd_frame|]. intros. apply preserves_ret. Qed.

Lemma upd_registry_ok f : (∀ r, registry_step (usable CI) r (f r)) → preserves world_ok (upd_registry f).
Proof.
  intros Hf. apply upd_ok.
  - intros c [Hs Hc Hr]. constructor; [done|done|]. by apply Hf.
  - intros c. split; [done|]. constructor; [done|done|apply Hf].
Qed.

(** ** Transactions *)

Lemma begin_ok {NI : NewIds} w t w' : world_ok w → begin w = (Ok t, w') → sound t ∧ w' = w.
Proof.
  intros [Hs _ _]%world_core. unfold begin, get, io_gets, mbind, IO_bind, io_result. cbn.
  destruct (db_begin (db (core w))) as [t0|e] eqn:E; cbn; [|done].
  intros [= <- <-]. split; [|done]. by eapply sound_begin.
Qed.

Lemma begin_err w : (begin w).2 = w.
Proof.
  unfold begin, get, io_gets, mbind, IO_bind, io_result. cbn.
  by destruct (lift _).
Qed.

(** The store after a commit of a sound transaction. *)
Lemma core_ok_commit {NI : NewIds} t t' c d' :
  sound t → core_ok c → write_stats (map_to_list (tstats t)) (txn t) = Ok t' →
  txn_commit (db c) t' = Ok d' →
  core_ok (set_db d' c) ∧ ∀ i, in_use (set_db d' c) i → in_use c i ∨ new_id i.
Proof.
  intros [Hb Ht] [Hs Hc Hr] (Eb & Ew & Et)%write_stats_Ok [Hd Ha]%commit_law.
  assert (Hst : steps_ok (contents (db c)) (twrite t (contents (db c))) ∅ (tstats t)).
  { apply Ht; [done|]. intros k Hk Hks. unfold tbase. rewrite <- Eb. apply Ha.
    by apply Et. }
  assert (E : contents d' = apply_writes merge_batch merge_fallback
    (stats_merges (map_to_list (tstats t))) (twrite t (contents (db c)))).
  { rewrite Hd, Ew, run_app. done. }
  split.
  - constructor; cbn.
    + rewrite E. eapply store_ok_ext; [|apply Hst]. intros k Hk. apply run_stats_other.
      intros Hks. unfold foreign in Hk. by rewrite Hks in Hk.
    + rewrite E. by eapply counters_ok_commit.
    + done.
  - intros i. unfold in_use. cbn. rewrite E, run_stats_other by done. apply Hst.
Qed.

(** What the notes of a commit leave. *)
Definition notes_frame (c c' : Core) : Prop :=
  db c' = db c ∧ lease_registry c' = lease_registry c ∧ job_ids c' = job_ids c ∧ ulids c' = ulids c.

Lemma apply_notes_frame n c : notes_frame c (apply_notes n c).
Proof.
  assert (H : ∀ l c0, notes_frame c0 (foldl (λ c '(index, at_ms), expiry_written index at_ms c) c0 l)).
  { induction l as [|[i a] l IH]; intros c0; [done|]. cbn.
    destruct (IH (expiry_written i a c0)) as (E1 & E2 & E3 & E4). unfold notes_frame. rewrite E1, E2, E3, E4. done. }
  unfold apply_notes, notes_frame.
  destruct (note_inbox n), (note_done n), (note_scheduled n); cbn; repeat case_match; cbn;
    rewrite ?(proj1 (H _ _)), ?(proj1 (proj2 (H _ _))), ?(proj1 (proj2 (proj2 (H _ _)))), ?(proj2 (proj2 (proj2 (H _ _)))); done.
Qed.

(** A commit in conflict changes nothing. *)
Lemma commit_conflict t durability w w' : commit t durability w = (Ok Conflict, w') → w' = w.
Proof.
  unfold commit, mbind, IO_bind, io_result. destruct (write_stats _ _) as [t'|e]; [|done].
  unfold commit_txn, get, io_gets, mbind, IO_bind. cbn.
  destruct (txn_commit (db (core w)) t') as [d'|e].
  - destruct durability; cbn; [unfold io_result; destruct (lift _)|]; done.
  - case_decide; cbn; [by intros [= <-]|done].
Qed.

End core_inv.

Section fresh.
  Context {DB : SlateDb} {OS : ObjectStore} {SR : Serde JobRecord} {SA : Serde JobAttempt}.
  Context {EN : Env} {DL : SlateDbLaws merge_batch} {NI : NewIds} {CI : Invariant}.

(** ** The retry loop

    A call that inserts a job relies, until it commits, on more than the invariant:
    that the ids generated for it are not in use. [J] is the invariant with that
    reliance, and [may_insert J] says that an insertion that meets it keeps the
    invariant. *)
Definition world_with (J : Rely) (w : World) : Prop := world_ok w ∧ world_ok (CI := reliance J) w.

Definition may_insert (J : Rely) : Prop :=
  ∀ c c', inv CI c → rely J c → core_ok c' → job_ids c' = job_ids c → ulids c' = ulids c →
    lease_registry c' = lease_registry c → (∀ i, in_use c' i → in_use c i ∨ new_id i) → inv CI c'.

Lemma world_with_self w : world_ok w → world_with (mkRely CI) w.
Proof. by split. Qed.

Lemma preserves_with {A} J (m : Q A) :
  preserves world_ok m → preserves (world_ok (CI := reliance J)) m → preserves (world_with J) m.
Proof. intros H1 H2 w [Hw1 Hw2]. split; [by apply H1|by apply H2]. Qed.

Lemma yield_fresh J : preserves (world_with J) yield.
Proof. apply preserves_with; apply yield_ok. Qed.

(** The commit of a sound transaction. *)
Lemma commit_ok J t durability w :
  may_insert J → sound t → world_with J w → world_ok (commit t durability w).2.
Proof.
  intros HJ Ht [Hw HwJ]. unfold commit, mbind, IO_bind, io_result.
  destruct (write_stats _ _) as [t'|e] eqn:E; [|done].
  unfold commit_txn, get, io_gets, mbind, IO_bind. cbn.
  destruct (txn_commit (db (core w)) t') as [d'|e] eqn:Ec.
  - assert (Hw' : world_ok (mkWorld (set_db d' (core w)) (others w))).
    { destruct (core_ok_commit t t' (core w) d' Ht (world_core w Hw) E Ec) as [Hc Hi].
      split; [|apply Hw]. eapply HJ; [apply Hw|apply HwJ|done|done|done|done|exact Hi]. }
    assert (Hfin : preserves world_ok
      (yield ≫= λ _, upd (apply_notes (notes t)) ≫= λ _, mret Committed : Q Commit)).
    { apply preserves_bind; [apply yield_ok|]. intros _.
      apply preserves_bind; [apply upd_frame, apply_notes_frame|]. intros _. apply preserves_ret. }
    specialize (Hfin _ Hw'). destruct durability; cbn.
    + unfold io_result. destruct (lift _); [|done]. exact Hfin.
    + exact Hfin.
  - case_decide; done.
Qed.

(** A body that keeps the transaction it commits sound and preserves the
    invariant of the process, when the ids [R] are not in use. *)
Definition body_ok {T} (R : string → Prop) (J : Rely) (body : Txn → Q (Attempt T * Txn)) : Prop :=
  ∀ t w, sound t → (∀ i, R i → tview t !! job_index_key i = None) → world_with J w →
    world_with J (body t w).2 ∧
    ∀ v t' w', body t w = (Ok (CommitWith v, t'), w') → sound t'.

Lemma begin_fresh R J w t w' :
  (∀ c, rely J c → absent R c) → world_with J w → begin w = (Ok t, w') →
  sound t ∧ w' = w ∧ ∀ i, R i → tview t !! job_index_key i = None.
Proof.
  intros HR [Hw HwJ] Hb. destruct (begin_ok w t w' Hw Hb) as [Ht ->]. split; [done|]. split; [done|].
  intros i Hi. revert Hb. unfold begin, get, io_gets, mbind, IO_bind, io_result. cbn.
  destruct (db_begin (db (core w))) as [t0|e] eqn:E; cbn; [|done]. intros [= <-].
  apply begin_law in E as (Eb & Ew & _). unfold tview, view. cbn. rewrite Eb, Ew. cbn.
  apply (HR (core w)); [apply HwJ|done].
Qed.

Lemma retry_loop_ok {T} R J fuel durability (body : Txn → Q (Attempt T * Txn)) w :
  (∀ c, rely J c → absent R c) → may_insert J → body_ok R J body → world_with J w →
  world_ok (retry_loop fuel durability body w).2.
Proof.
  intros HR HJ Hb. revert w. induction fuel as [|fuel IH]; intros w Hw; [apply Hw|].
  cbn [retry_loop]. unfold mbind at 1, IO_bind at 1.
  destruct (begin w) as [[t|e] w1] eqn:Eb.
  2: { cbn. pose proof (begin_err w) as E. rewrite Eb in E. cbn in E. subst. apply Hw. }
  destruct (begin_fresh R J w t w1 HR Hw Eb) as (Ht & -> & Hn).
  unfold mbind at 1, IO_bind at 1. cbn [yield io_modify].
  set (w2 := match others w with [] => w | f :: fs => _ end).
  assert (Hw2 : world_with J w2) by apply (yield_fresh J w Hw).
  unfold mbind at 1, IO_bind at 1. destruct (Hb t w2 Ht Hn Hw2) as [Hw3 Hs].
  destruct (body t w2) as [[[att t']|e] w3] eqn:E; cbn in Hw3; [|apply Hw3].
  destruct att as [v|v]; [|apply Hw3].
  specialize (Hs v t' w3 eq_refl).
  unfold mbind at 1, IO_bind at 1. cbn [yield io_modify].
  set (w4 := match others w3 with [] => w3 | f :: fs => _ end).
  assert (Hw4 : world_with J w4) by apply (yield_fresh J w3 Hw3).
  unfold mbind, IO_bind. pose proof (commit_ok J t' durability w4 HJ Hs Hw4) as Hw5.
  destruct (commit t' durability w4) as [[[]|e] w5] eqn:Ec; [done| |done].
  apply commit_conflict in Ec as ->. by apply IH.
Qed.

Lemma retry_ok {T} R J durability (body : Txn → Q (Attempt T * Txn)) w :
  (∀ c, rely J c → absent R c) → may_insert J → body_ok R J body → world_with J w →
  world_ok (retry durability body w).2.
Proof. intros HR HJ Hb Hw. by eapply retry_loop_ok. Qed.

(** A part of a body written as staged steps: it preserves the invariant of the
    process, and its result and transaction satisfy [P]. *)
Definition keeps {A} (J : Rely) (m : Q (A * Txn)) (P : A → Txn → Prop) : Prop :=
  ∀ w, world_with J w →
    world_with J (m w).2 ∧ ∀ a t' w', m w = (Ok (a, t'), w') → P a t'.

Lemma body_ok_keeps {T} R J (body : Txn → Q (Attempt T * Txn)) :
  (∀ t, sound t → (∀ i, R i → tview t !! job_index_key i = None) →
    keeps J (body t) (λ _ t', sound t')) →
  body_ok R J body.
Proof.
  intros H t w Ht Hn Hw. destruct (H t Ht Hn w Hw) as [? Hs]. split; [done|].
  intros v t' w' E. by eapply Hs.
Qed.

Lemma keeps_bind {A B} J (m : Q A) (f : A → Q (B * Txn)) P :
  preserves (world_with J) m → (∀ a, keeps J (f a) P) → keeps J (m ≫= f) P.
Proof.
  intros Hm Hf w Hw. specialize (Hm w Hw). unfold mbind, IO_bind.
  destruct (m w) as [[a|e] w1]; [by apply Hf|]. split; [done|]. by intros.
Qed.

Lemma keeps_seq {A B} J (m : Q (A * Txn)) (f : A * Txn → Q (B * Txn)) P P' :
  keeps J m P' → (∀ a t, P' a t → keeps J (f (a, t)) P) → keeps J (m ≫= f) P.
Proof.
  intros Hm Hf w Hw. destruct (Hm w Hw) as [Hw1 HP]. unfold mbind, IO_bind.
  destruct (m w) as [[[a t]|e] w1]; [|split; [done|by intros]].
  apply Hf; [|done]. by eapply HP.
Qed.

Lemma keeps_staging {A B} J (m : TxnM A) t (f : A * Txn → Q (B * Txn)) P :
  (∀ a t', m t = Ok (a, t') → keeps J (f (a, t')) P) → keeps J (staging m t ≫= f) P.
Proof.
  intros H w Hw. unfold mbind, IO_bind, staging, io_result.
  destruct (m t) as [[a t']|e] eqn:E; [by apply (H a t')|]. split; [done|]. by intros.
Qed.

Lemma keeps_result {A B} J (r : Result A) (f : A → Q (B * Txn)) P :
  (∀ a, r = Ok a → keeps J (f a) P) → keeps J (io_result r ≫= f) P.
Proof.
  intros H w Hw. unfold mbind, IO_bind, io_result. destruct r; [by apply H|]. split; [done|]. by intros.
Qed.

Lemma keeps_ret {A} J (a : A) t (P : A → Txn → Prop) : P a t → keeps J (mret (a, t)) P.
Proof. intros Ht w Hw. split; [done|]. by intros ??? [= <- <- <-]. Qed.

Lemma keeps_err {A} J e P : keeps J (io_err e : Q (A * Txn)) P.
Proof. intros w Hw. split; [done|]. by intros. Qed.

Lemma now_ms_fresh J : preserves (world_with J) now_ms.
Proof. apply preserves_with; apply now_ms_ok. Qed.
Lemma new_ulid_fresh J : preserves (world_with J) new_ulid.
Proof. apply preserves_with; apply new_ulid_ok. Qed.
Lemma new_token_fresh J : preserves (world_with J) new_token.
Proof. apply preserves_with; apply new_token_ok. Qed.
Lemma upd_registry_fresh J f :
  (∀ U r, (∀ z, usable CI z ∧ usable (reliance J) z → U z) → registry_step U r (f r)) →
  preserves (world_with J) (upd_registry f).
Proof. intros Hf. apply preserves_with; apply upd_registry_ok; intros r; apply Hf; tauto. Qed.

End fresh.

(** A call that inserts no job. *)
Definition no_ids : NewIds := λ _, False.

Lemma may_insert_none `{CI : Invariant} : may_insert (NI := no_ids) (mkRely CI).
Proof.
  intros c c' Hc _ Hc' En Eu Er Hi. eapply inv_step; [exact Hc|done|apply advances_same; [done|by rewrite En|by rewrite Eu]|].
  intros i Hu. by destruct (Hi i Hu).
Qed.


#[export] Hint Resolve yield_ok yield_fresh now_ms_ok now_ms_fresh new_ulid_ok new_ulid_fresh
  new_token_ok new_token_fresh preserves_ret preserves_err preserves_gets : preserves.
