(* ===== verification/StagedOps.v ===== *)
(** * The staged operations keep a transaction sound

    Wakes, cancels, count changes, new jobs and settlement effects, each as a
    step of a sound transaction. A new job whose id was generated needs its id to
    be absent from the snapshot: [Absent] follows the ids a transaction has not
    indexed. *)
From S2P Require Import Prelude Bytes Error Monad Keys Job Store Stats LeaseRegistry.
From S2P Require Import TimeBound ClaimCursor Completion Txn Stage StoreInv Sound Core.
From S2P Require Import QueueCore Control Effects CoreInv.

Section staged.
  Context {DB : SlateDb} {OS : ObjectStore} {SR : Serde JobRecord} {SA : Serde JobAttempt}.
  Context {SC : Serde CountRecord} {EN : Env} {DL : SlateDbLaws merge_batch} {NI : NewIds}.
  Implicit Types (t : Txn) (j : JobRecord).

Definition indexed t (i : string) : Prop := is_Some (tview t !! job_index_key i).

(** A step that keeps the transaction sound and indexes no id but those of [N]. *)
Definition step_ok (N : string → Prop) t t' : Prop :=
  sound t' ∧ ∀ i, indexed t' i → indexed t i ∨ N i.

Abbreviation none := (λ _ : string, False).

Lemma step_refl t : sound t → step_ok none t t.
Proof. intros. split; [done|]. auto. Qed.

Lemma step_trans N t1 t2 t3 : step_ok N t1 t2 → (sound t2 → step_ok N t2 t3) → step_ok N t1 t3.
Proof. intros [S1 I1] H. destruct (H S1) as [S2 I2]. split; [done|]. intros i [?|?]%I2; auto. Qed.

Lemma step_mono (N N' : string → Prop) t t' :
  (∀ i, N i → N' i) → step_ok N t t' → step_ok N' t t'.
Proof. intros H [S I]. split; [done|]. intros i [?|?]%I; auto. Qed.

Lemma run_lookup_ne ws m k :
  (∀ w, w ∈ ws → write_key w ≠ k) → apply_writes merge_batch merge_fallback ws m !! k = m !! k.
Proof.
  revert m. induction ws as [|w ws IH]; intros m H; [done|].
  change (apply_writes merge_batch merge_fallback (w :: ws) m) with
    (apply_writes merge_batch merge_fallback ws (apply_write merge_batch merge_fallback m w)).
  rewrite IH by (intros; apply H; by right).
  assert (Hw : write_key w ≠ k) by (apply H; by left).
  destruct w; cbn in *; by rewrite ?lookup_insert_ne, ?lookup_delete_ne.
Qed.

(** Writes to other index keys, or to indexed ids, index nothing new. *)
Lemma step_writes t t' ws :
  sound t' → stages t t' ws →
  (∀ w i, w ∈ ws → write_key w = job_index_key i → indexed t i) → step_ok none t t'.
Proof.
  intros Hs Hst Hw. split; [done|]. intros i Hi. left.
  destruct (tview t !! job_index_key i) eqn:E; [by eexists|].
  unfold indexed in Hi. rewrite (stages_tview _ _ _ Hst), run_lookup_ne, E in Hi; [done|].
  intros w Hin Hk. specialize (Hw w i Hin Hk). unfold indexed in Hw. rewrite E in Hw.
  by destruct Hw.
Qed.

Lemma step_same t t' : sound t → stages t t' [] → tstats t' = tstats t → step_ok none t t'.
Proof.
  intros Ht Hst Hd. eapply step_writes; [by eapply sound_same|done|]. intros w i []%elem_of_nil.
Qed.

Lemma step_put_other t k v r : is_other k = true → sound t → t_put k v t = Ok r → step_ok none t r.2.
Proof.
  intros Hk Ht H. pose proof (sound_put_other _ _ _ _ Hk Ht H). apply t_put_Ok in H as (Hst & _).
  eapply step_writes; [done..|]. intros w i ->%list_elem_of_singleton. cbn. by intros ->.
Qed.

Lemma step_delete_other t k r : is_other k = true → sound t → t_delete k t = Ok r → step_ok none t r.2.
Proof.
  intros Hk Ht H. pose proof (sound_delete_other _ _ _ Hk Ht H). apply t_delete_Ok in H as (Hst & _).
  eapply step_writes; [done..|]. intros w i ->%list_elem_of_singleton. cbn. by intros ->.
Qed.

Lemma step_mark_read t ks r : sound t → t_mark_read ks t = Ok r → step_ok none t r.2.
Proof. intros Ht (Hst & _ & Hd & _)%t_mark_read_Ok. by apply step_same. Qed.

Lemma step_map_notes t f r : sound t → map_notes f t = Ok r → step_ok none t r.2.
Proof. intros Ht (Hst & Hd)%map_notes_Ok. by apply step_same. Qed.

(** A loop of steps. *)
Lemma step_for_each {A} (f : A → TxnM ()) l t r :
  sound t → (∀ a t r, a ∈ l → sound t → f a t = Ok r → step_ok none t r.2) →
  for_each f l t = Ok r → step_ok none t r.2.
Proof.
  intros Ht Hf. revert t Ht. induction l as [|a l IH]; cbn; intros t Ht H.
  - inv_m. by apply step_refl.
  - apply M_bind_Ok in H as (u & t1 & E & H).
    apply (step_trans _ _ t1); [apply (Hf a t (u, t1)); [by left|done|done]|].
    intros H1. apply IH; [|done|done]. intros b tb rb Hb. apply Hf. by right.
Qed.

(** ** Moves and removals *)

Lemma indexed_job t k j : sound t → job_at (tview t) k = Some j → indexed t (id j).
Proof.
  intros Ht Hj. destruct (store_ok_job _ _ _ (sound_view _ Ht) Hj) as (_ & _ & Hi & _).
  by eexists.
Qed.

Lemma put_writes_index key j i w :
  is_Some (record_status key) → w ∈ put_writes key j → write_key w = job_index_key i → i = id j.
Proof.
  intros Hk. unfold put_writes. rewrite !elem_of_cons, elem_of_nil.
  intros [->|[->|[]]]; cbn; [|by intros ?%(inj job_index_key)].
  intros ->. by destruct Hk.
Qed.

Lemma step_move_job t t' from j j1 j2 :
  sound t → move_job from j1 t = Ok (j2, t') → job_at (tview t) from = Some j →
  id j1 = id j → queue j1 = queue j → dedup_key j1 = dedup_key j →
  job_ok (leave_waits j1) → step_ok none t t'.
Proof.
  intros Ht H Hj Hi Hq Hd Hok. pose proof (sound_move_job _ _ _ _ _ _ Ht H Hj Hi Hq Hd Hok).
  apply move_job_Ok in H as (key & -> & Hk & Hst & _).
  destruct (store_ok_job _ _ _ (sound_view _ Ht) Hj) as (Hkj & _).
  apply stored_key_record in Hk, Hkj.
  destruct (leave_waits_fields j1) as (Fi & _). eapply step_writes; [done..|].
  intros w i Hw Hwi. assert (i = id j) as ->; [|by eapply indexed_job].
  unfold move_writes in Hst, Hw. case_decide as D.
  - apply list_elem_of_singleton in Hw as ->. cbn in Hwi. subst. by destruct Hk.
  - apply elem_of_cons in Hw as [->|Hw].
    + cbn in Hwi. subst. by destruct Hkj.
    + apply (put_writes_index _ _ _ _ Hk Hw) in Hwi. congruence.
Qed.

Lemma step_stage_remove t r key j :
  sound t → stage_remove key j t = Ok r → job_at (tview t) key = Some j → step_ok none t r.2.
Proof.
  intros Ht H Hj. pose proof (sound_stage_remove _ _ _ _ _ Ht H Hj eq_refl eq_refl eq_refl).
  apply stage_remove_Ok in H as (s & _ & Hst & _). eapply step_writes; [done..|].
  destruct (store_ok_job _ _ _ (sound_view _ Ht) Hj) as (Hkj & _).
  apply stored_key_record in Hkj.
  intros w i Hw Hwi. assert (i = id j) as ->; [|by eapply indexed_job].
  unfold remove_writes in Hw. rewrite !elem_of_cons in Hw.
  destruct Hw as [->|[->|[->|Hw]]]; cbn in Hwi.
  - subst. by destruct Hkj.
  - by apply (inj job_index_key) in Hwi.
  - done.
  - unfold release_writes in Hw. destruct (dedup_key j); [|by apply elem_of_nil in Hw].
    by apply list_elem_of_singleton in Hw as ->.
Qed.

(** The result of an id lookup, as a record of the view. *)
Lemma found_job_at t jid ik ck j :
  get_indexed_job (txn t) jid = Ok (Some (ik, ck, j)) → job_at (tview t) ck = Some j.
Proof. intros (_ & _ & b & Hb & Hj)%get_indexed_job_Ok. apply job_at_Some. eauto. Qed.

Lemma found_id t jid ik ck j :
  sound t → get_indexed_job (txn t) jid = Ok (Some (ik, ck, j)) → id j = jid.
Proof.
  intros Ht H. pose proof (found_job_at _ _ _ _ _ H) as Hj.
  apply get_indexed_job_Ok in H as (_ & Hi & _).
  destruct (ok_index _ (sound_view _ Ht) _ _ Hi) as (j' & Hj' & <-). congruence.
Qed.

Lemma job_ok_to_pending j :
  job_ok j → status j = Scheduled →
  job_ok (leave_waits (set_run_at None (set_status Pending j))).
Proof.
  unfold job_ok. intros (H & _ & Hd) Hs. rewrite Hs in *. destruct H as (_ & Hc & Hco & Hf).
  unfold leave_waits. cbn. case_decide as D; [done|]. cbn.
  split; [done|]. split; [done|]. by left.
Qed.

Lemma step_stage_wake t jid wake r :
  sound t → stage_wake jid wake t = Ok r → step_ok none t r.2.
Proof.
  intros Ht. unfold stage_wake. intros H.
  apply M_bind_Ok in H as (found & t1 & E & H).
  apply reads_Ok in E as (? & E & [= <- <-]). destruct found as [[[ik ck] j]|].
  2: { inv_m. by apply step_refl. }
  apply found_job_at in E. case_decide as Hs; [|inv_m; by apply step_refl].
  destruct (store_ok_job _ _ _ (sound_view _ Ht) E) as (_ & Hok & _).
  assert (Hw : ∀ j', wake_record wake j = inr j' → status j' = status j ∧ id j' = id j ∧
    queue j' = queue j ∧ dedup_key j' = dedup_key j ∧ job_ok j').
  { intros j'. unfold wake_record. destruct wake; [destruct (signal_wait j)|case_decide|];
      by intros [= <-]. }
  destruct (wake_record wake j) as [why|j'] eqn:Ew; [inv_m; by apply step_refl|].
  destruct (Hw j' eq_refl) as (Es & Ei & Eq & Ed & Hok'). inv_m.
  unfold stage_to_pending in E0. eapply step_move_job; try done.
  apply job_ok_to_pending; [done|congruence].
Qed.

Lemma step_stage_cancel t jid r : sound t → stage_cancel jid t = Ok r → step_ok none t r.2.
Proof.
  intros Ht. unfold stage_cancel. intros H.
  apply M_bind_Ok in H as (found & t1 & E & H).
  apply reads_Ok in E as (? & E & [= <- <-]). destruct found as [[[ik ck] j]|].
  2: { inv_m. by apply step_refl. }
  apply found_job_at in E.
  destruct (store_ok_job _ _ _ (sound_view _ Ht) E) as (_ & Hok & _).
  destruct (status j) eqn:Hs.
  - inv_m. by apply (step_stage_remove _ _ _ _ Ht E0).
  - inv_m. by apply (step_stage_remove _ _ _ _ Ht E0).
  - destruct (cancel_requested j); [inv_m; by apply step_refl|]. inv_m.
    eapply step_move_job; try done. unfold job_ok in *. unfold leave_waits. cbn. rewrite Hs in *.
    case_decide as D; [done|]. cbn. rewrite Hs. destruct Hok as (? & _ & ?). done.
  - inv_m. by apply step_refl.
  - inv_m. by apply step_refl.
Qed.

(** ** Counts *)

Lemma read_record_Ok key t r : read_record key t = Ok r → r.2 = t.
Proof using DL.
  unfold read_record. intros H. apply M_bind_Ok in H as (raw & t1 & E & H).
  apply t_get_Ok in E. simplify_eq/=. destruct (tview _ !! key); by inv_m.
Qed.

Lemma is_other_count name : is_other (count_key name) = true.
Proof. reflexivity. Qed.
Lemma is_other_user k : is_other (user_scoped_key k) = true.
Proof. reflexivity. Qed.

Lemma step_stage_count_change t name d r :
  sound t → stage_count_change name d t = Ok r → step_ok none t r.2.
Proof.
  intros Ht. unfold stage_count_change. case_decide as D0; [intros H; inv_m; by apply step_refl|].
  intros H. apply M_bind_Ok in H as (rec & t1 & E & H). apply read_record_Ok in E. cbn in E. subst t1.
  case_decide.
  - apply (step_put_other _ _ _ _ (is_other_count name) Ht H).
  - apply M_bind_Ok in H as (u & t1 & E & H).
    apply (step_trans _ _ t1); [by apply (step_delete_other _ _ _ (is_other_count name) Ht E)|].
    intros Ht1. destruct (waiter rec) as [w|]; [|inv_m; by apply step_refl].
    inv_m. by apply (step_stage_wake _ _ _ _ Ht1 E0).
Qed.

Lemma stage_count_wait_Ok t j r :
  sound t → job_ok j → stage_count_wait j t = Ok r →
  step_ok none t r.2 ∧ job_ok r.1 ∧ id r.1 = id j ∧ queue r.1 = queue j ∧ dedup_key r.1 = dedup_key j ∧
  ∀ k, is_other k = false → tview r.2 !! k = tview t !! k.
Proof.
  intros Ht Hok. unfold stage_count_wait. destruct (count_wait j) as [name|] eqn:Hcw.
  2: { intros H. inv_m. by split; [apply step_refl|]. }
  assert (Hs : status j = Scheduled).
  { destruct Hok as (_ & Hw & _). destruct (decide (status j = Scheduled)) as [|D]; [done|].
    apply Hw in D as [_ D]. congruence. }
  intros H. apply M_bind_Ok in H as (rec & t1 & E & H). apply read_record_Ok in E. cbn in E. subst t1.
  case_decide.
  - inv_m. split; [by apply step_refl|]. split; [|done].
    unfold job_ok in *. rewrite Hs in Hok. cbn. destruct Hok as ((_ & ? & ? & ?) & _ & Hd).
    split; [done|]. split; [done|]. by left.
  - apply M_bind_Ok in H as (waiting & t1 & E & H).
    assert (t1 = t) as ->. { destruct (waiter rec); inv_m; done. }
    destruct waiting as [w|]; [inv_m|]. inv_m.
    split; [by apply (step_put_other _ _ _ _ (is_other_count name) Ht E0)|].
    split; [done|]. split; [done|]. split; [done|]. split; [done|]. intros k Hk.
    apply t_put_Ok in E0 as (Hst & _). cbn [snd] in *. rewrite (stages_tview _ _ _ Hst). cbn.
    apply lookup_insert_ne. by intros <-.
Qed.

(** ** New jobs *)

(** A prepared job is well formed, its id one the call may add, and, unless its
    id was supplied, not indexed. *)
Definition prepared_ok t (p : PreparedJob) : Prop :=
  job_ok (prepared_job p) ∧ new_id (id (prepared_job p)) ∧
  (id_override_used p = false → ¬ indexed t (id (prepared_job p))).

Lemma step_insert t r j :
  sound t → job_ok j → new_id (id j) → ¬ indexed t (id j) →
  (∀ dk, dedup_key j = Some dk → tview t !! dedup_index_key (queue j) dk = None) →
  (insert_job j ≫= λ _,
    match dedup_index_key (queue j) <$> dedup_key j with
    | Some k => t_put k (as_bytes (id j)) | None => mret tt end) t = Ok r →
  step_ok (λ i, i = id j) t r.2.
Proof.
  intros Ht Hok Hnew Hni Hd H. apply M_bind_Ok in H as ([] & t1 & E & H).
  assert (Hst2 : stages t1 r.2 (match dedup_key j with
      | Some dk => [WPut (dedup_index_key (queue j) dk) (as_bytes (id j))] | None => [] end)
      ∧ tstats r.2 = tstats t1).
  { destruct (dedup_key j); cbn in H.
    - by apply t_put_Ok in H as (? & _ & ? & _).
    - inv_m. split; [apply stages_refl|done]. }
  destruct Hst2 as [Hst2 Hd2].
  assert (Hn : tview t !! job_index_key (id j) = None) by by apply eq_None_not_Some.
  split; [by eapply sound_insert|]. intros i Hi.
  destruct (decide (i = id j)) as [->|Hne]; [by right|]. left.
  apply insert_job_Ok in E as (key & Hk & Hst1 & _). apply stored_key_record in Hk.
  unfold indexed in Hi. rewrite (stages_tview _ _ _ (stages_trans _ _ _ _ _ Hst1 Hst2)) in Hi.
  rewrite run_lookup_ne in Hi; [done|]. intros w [Hw|Hw]%elem_of_app Hwi.
  - by apply (put_writes_index _ _ _ _ Hk Hw) in Hwi.
  - destruct (dedup_key j); [|by apply elem_of_nil in Hw].
    apply list_elem_of_singleton in Hw as ->. done.
Qed.

Lemma step_stage_job_writes t p r :
  sound t → prepared_ok t p → stage_job_writes p t = Ok r →
  step_ok (λ i, i = id (prepared_job p)) t r.2.
Proof.
  intros Ht (Hok & Hnew & Hfresh). unfold stage_job_writes. set (j := prepared_job p) in *.
  set (dkey := dedup_index_key (queue j) <$> dedup_key j).
  intros H. apply M_bind_Ok in H as (existing & t1 & E & H).
  assert (t1 = t ∧ existing = (dkey ≫= λ k, tview t !! k)) as [-> ->].
  { destruct dkey; cbn; [apply t_get_Ok in E; by simplify_eq/=|by inv_m]. }
  destruct (dkey ≫= λ k, tview t !! k) as [b|] eqn:Ed.
  { destruct (from_utf8 b); inv_m. by eapply step_mono, step_refl. }
  assert (Hdk : ∀ dk, dedup_key j = Some dk → tview t !! dedup_index_key (queue j) dk = None).
  { intros dk Hdk. subst dkey. by rewrite Hdk in Ed. }
  apply M_bind_Ok in H as (taken & t1 & E1 & H).
  assert (t1 = t ∧ (taken = None → ¬ indexed t (id j))) as [-> Hni].
  { destruct (id_override_used p).
    - apply t_get_Ok in E1. simplify_eq/=. split; [done|]. intros E2 [? ?]. congruence.
    - inv_m. split; [done|]. intros _. by apply Hfresh. }
  destruct taken; [inv_m|]. specialize (Hni eq_refl).
  assert (Hc : ∃ t0 j', step_ok none t t0 ∧ job_ok j' ∧ id j' = id j ∧ queue j' = queue j ∧
    dedup_key j' = dedup_key j ∧ (∀ k, is_other k = false → tview t0 !! k = tview t !! k) ∧
    ∃ u, (insert_job j' ≫= λ _,
      match dkey with Some k => t_put k (as_bytes (id j)) | None => mret tt end) t0 = Ok (u, r.2)).
  { apply M_bind_Ok in H as (u1 & t1 & Ei & H). apply M_bind_Ok in H as (u2 & t2 & Ep & H).
    destruct (count_wait j) as [name|].
    - apply M_bind_Ok in Ei as (j' & t0 & Ew & Ei).
      destruct (stage_count_wait_Ok _ _ _ Ht Hok Ew) as (? & ? & ? & ? & ? & ?). cbn [fst snd] in *.
      exists t0, j'. split; [done|]. split; [done|]. split; [done|]. split; [done|]. split; [done|].
      split; [done|]. exists u2. apply M_bind_Ok. inv_m. eauto.
    - exists t, j. split; [by apply step_refl|]. split; [done|]. split; [done|]. split; [done|].
      split; [done|]. split; [done|]. exists u2. apply M_bind_Ok. inv_m. eauto. }
  destruct Hc as (t0 & j' & Hs0 & Hok' & Hi & Hq & Hd & Hv & u & Hins).
  eapply step_trans; [by eapply step_mono; [|exact Hs0]|]. intros Ht0.
  apply (step_mono (λ i, i = id j')); [intros i; congruence|].
  apply (step_insert t0 (u, r.2) j' Ht0 Hok').
  - by rewrite Hi.
  - intros [k Hk]. rewrite Hi, Hv in Hk by done. apply Hni. by exists k.
  - intros dk Hdk'. rewrite Hv by done. rewrite Hq. apply Hdk. congruence.
  - rewrite Hd, Hq, Hi. exact Hins.
Qed.

(** ** Effects *)

(** The prepared jobs of a call: well formed, and the generated ids new and
    different from the other ids of the call. *)
Fixpoint batch_ok t (ps : list PreparedJob) : Prop :=
  match ps with
  | [] => True
  | p :: ps =>
      prepared_ok t p ∧
      Forall (λ p', id_override_used p' = false → id (prepared_job p') ≠ id (prepared_job p)) ps ∧
      batch_ok t ps
  end.

Lemma batch_ok_step N t t' ps :
  step_ok N t t' → Forall (λ p, id_override_used p = false → ¬ N (id (prepared_job p))) ps →
  batch_ok t ps → batch_ok t' ps.
Proof.
  intros [_ HN]. induction ps as [|p ps IH]; cbn; [done|].
  intros [HNp HNps]%Forall_cons ((Hok & Hn & Hp) & Hne & Hps). split; [|by auto].
  split; [done|]. split; [done|]. intros Ho Hi. apply HN in Hi as [Hi|Hi]; [by apply (Hp Ho)|by apply (HNp Ho)].
Qed.

Lemma step_stage_enqueues t ps r :
  sound t → batch_ok t ps → stage_enqueues ps t = Ok r →
  step_ok (λ i, i ∈ (λ p, id (prepared_job p)) <$> ps) t r.2.
Proof.
  revert t r. induction ps as [|p ps IH]; cbn; intros t r Ht Hb H.
  - inv_m. by eapply step_mono, step_refl.
  - destruct Hb as (Hp & Hne & Hps). apply M_bind_Ok in H as (r1 & t1 & E & H).
    apply M_bind_Ok in H as (rs & t2 & E' & H). inv_m.
    assert (Hs : step_ok (λ i, i = id (prepared_job p)) t t1)
      by apply (step_stage_job_writes _ _ _ Ht Hp E).
    apply (step_trans _ _ t1).
    + eapply step_mono; [|exact Hs]. intros i ->. by left.
    + intros Ht1. eapply step_mono; [|apply (IH t1 (rs, t2) Ht1); [|done]].
      * intros i Hi. by right.
      * by eapply batch_ok_step.
Qed.

Lemma step_stage_compares t cs r : sound t → stage_compares cs t = Ok r → step_ok none t r.2.
Proof.
  revert t. induction cs as [|c cs IH]; cbn; intros t Ht H; [inv_m; by apply step_refl|].
  apply M_bind_Ok in H as (same & t1 & E & H). unfold kv_state_matches in E.
  apply M_bind_Ok in E as (u & t2 & Em & E). apply M_bind_Ok in E as (cur & t3 & Eg & E).
  apply t_get_Ok in Eg. inv_m. apply (step_trans _ _ t2).
  - apply (step_mark_read _ _ _ Ht Em).
  - intros Ht2. destruct (bool_decide _); [by apply IH|inv_m].
Qed.

Lemma step_read_claim registry q i cid t r :
  sound t → read_claim registry q i cid t = Ok r → step_ok none t r.2.
Proof.
  destruct r as [[k j] t']. intros Ht (_ & _ & _ & Hst & _ & Hd)%read_claim_Ok. by apply step_same.
Qed.

Lemma step_stage_effects registry p t r :
  sound t → batch_ok t (prepared_jobs p) → stage_effects registry p t = Ok r →
  step_ok (λ i, i ∈ (λ p, id (prepared_job p)) <$> prepared_jobs p) t r.2.
Proof.
  intros Ht Hb. unfold stage_effects. intros H.
  apply M_bind_Ok in H as (u1 & t1 & E1 & H). apply M_bind_Ok in H as (u2 & t2 & E2 & H).
  apply M_bind_Ok in H as (u3 & t3 & E3 & H). apply M_bind_Ok in H as (rs & t4 & E4 & H).
  apply M_bind_Ok in H as (u5 & t5 & E5 & H). apply M_bind_Ok in H as (u6 & t6 & E6 & H).
  apply M_bind_Ok in H as (u7 & t7 & E7 & H). inv_m. cbn.
  assert (S1 : step_ok none t t1).
  { destruct (prep_claim_fence p); inv_m; [|by apply step_refl].
    by apply (step_read_claim _ _ _ _ _ _ Ht E). }
  assert (S3 : step_ok none t t3).
  { apply (step_trans _ _ t1 _ S1). intros Ht1. apply (step_trans _ _ t2).
    { by apply (step_stage_compares _ _ _ Ht1 E2). }
    intros Ht2. eapply (step_for_each _ _ _ (u3, t3) Ht2); [|exact E3].
    intros [name d] ta ra _ Hta. by apply step_stage_count_change. }
  apply (step_trans _ _ t3); [by eapply step_mono; [|exact S3]|]. intros Ht3.
  apply (step_trans _ _ t4).
  { apply (step_stage_enqueues _ _ (rs, t4) Ht3); [|exact E4]. eapply batch_ok_step; [exact S3| |done].
    apply Forall_true. by intros p' _ []. }
  intros Ht4. apply (step_mono none); [done|]. apply (step_trans _ _ t5).
  { eapply (step_for_each _ _ _ (u5, t5) Ht4); [|exact E5].
    intros [k v] ta ra _ Hta Ha. apply (step_put_other _ _ _ _ (is_other_user k) Hta Ha). }
  intros Ht5. apply (step_trans _ _ t6).
  { eapply (step_for_each _ _ _ (u6, t6) Ht5); [|exact E6].
    intros k ta ra _ Hta Ha. apply (step_delete_other _ _ _ (is_other_user k) Hta Ha). }
  intros Ht6. eapply (step_for_each _ _ _ (u7, t7) Ht6); [|exact E7].
  intros [i a] ta ra _ Hta Ha. by eapply step_map_notes.
Qed.

(** ** The end of a claim *)

Lemma step_claim_end t t0 t' j e now j' pre :
  sound t → stages t t0 pre → pre = [] ∨ pre = [WDelete (claimed_key (queue j) (id j))] →
  tstats t0 = tstats t → job_at (tview t) (claimed_key (queue j) (id j)) = Some j →
  stage_claim_end j e now t0 = Ok (j', t') → step_ok none t t'.
Proof.
  intros Ht Hpre Hor Hd Hj H.
  pose proof (sound_claim_end _ _ _ _ _ _ _ _ Ht Hpre Hor Hd Hj H) as Hs.
  apply stage_claim_end_Ok in H as (-> & H).
  destruct (claim_end_record_fields e now j) as (Fi & _).
  assert (Hall : ∃ ws, stages t t' (pre ++ ws) ∧
    ∀ w i, w ∈ ws → write_key w = job_index_key i → i = id j).
  { case_decide.
    - destruct H as [Hst _]. eexists. split; [by eapply stages_trans|].
      intros w i. unfold remove_writes. rewrite !elem_of_cons.
      intros [->|[->|[->|Hw]]]; cbn; try done.
      + intros E%(inj job_index_key). congruence.
      + unfold release_writes in Hw. destruct (dedup_key _); [|by apply elem_of_nil in Hw].
        apply list_elem_of_singleton in Hw as ->. done.
    - destruct H as (key & Hk & _ & Hst & _). apply stored_key_record in Hk.
      eexists. split; [by eapply stages_trans|].
      intros w i. rewrite !elem_of_cons. intros [->|[->|Hw]]; cbn; try done.
      intros E. apply (put_writes_index _ _ _ _ Hk Hw) in E. congruence. }
  destruct Hall as (ws & Hst & Hws). eapply step_writes; [done|exact Hst|].
  intros w i [Hw|Hw]%elem_of_app E.
  - destruct Hor as [->| ->]; [by apply elem_of_nil in Hw|].
    apply list_elem_of_singleton in Hw as ->. done.
  - rewrite (Hws _ _ Hw E). by eapply indexed_job.
Qed.

(** A settlement: the claim is taken and ended. *)
Lemma step_take_and_end registry q i cid t t1 t' j e now j' :
  sound t → take_claim registry q i cid t = Ok (j, t1) →
  stage_claim_end j e now t1 = Ok (j', t') → step_ok none t t'.
Proof.
  intros Ht (_ & (b & Hb & Hdec) & Hst & Hd)%take_claim_Ok H.
  assert (Hj : job_at (tview t) (claimed_key q i) = Some j) by (apply job_at_Some; eauto).
  destruct (claimed_record _ _ _ _ (sound_view _ Ht) Hj) as (<- & <- & _).
  eapply step_claim_end; [done|exact Hst|by right|done|done|done].
Qed.

End staged.

(** ** The preparation of new jobs (taquba/src/effects.rs, taquba/src/payload_store.rs)

    The work before a transaction leaves the store and the registry; the records
    it prepares are well formed, and the ids it generates are the next ones of
    the generator. *)

(** The generated ids are all different: the generator returns each ULID above
    the one before, and two ULIDs have different texts. *)
Class UlidLaws `{Env} : Prop := {
  ulid_inj n n' a a' :
    ulid_string (ulid_generate n a) = ulid_string (ulid_generate n' a') → n = n';
}.

Section prepare.
  Context {DB : SlateDb} {OS : ObjectStore} {SR : Serde JobRecord} {SA : Serde JobAttempt}.
  Context {SC : Serde CountRecord} {EN : Env} {DL : SlateDbLaws merge_batch} {NI : NewIds}.

(** ** Calls that leave the store, the registry and the other tasks

    They may read the clock and draw ids. *)

Definition at_state (d : Db) (r : LeaseRegistry) (o : list (Core → Core)) (n u : nat) (w : World) : Prop :=
  db (core w) = d ∧ lease_registry (core w) = r ∧ others w = o ∧ n ≤ job_ids (core w) ∧ u ≤ ulids (core w).

(** The state of [w], in which at least [n] ids are drawn. *)
Definition at_world (w : World) (n : nat) : World → Prop :=
  at_state (db (core w)) (lease_registry (core w)) (others w) n (ulids (core w)).

Definition quiet {A} (m : Q A) : Prop := ∀ d r o n u, preserves (at_state d r o n u) m.

Lemma quiet_at {A} (m : Q A) w :
  quiet m → at_world w (job_ids (core w)) (m w).2.
Proof. intros Hm. by apply Hm. Qed.

Lemma world_ok_at {CI : Invariant} w w' :
  world_ok w → at_world w (job_ids (core w)) w' →
  world_ok w'.
Proof.
  intros Hw (Ed & Er & Eo & En & Eu). pose proof (world_core w Hw) as [Hs Hc Hr].
  destruct w' as [c' o']. cbn in *. subst o'. apply world_ok_step; [done| |by apply advances_same|].
  - constructor; by rewrite ?Ed, ?Er.
  - intros i. unfold in_use. by rewrite Ed.
Qed.

Lemma quiet_ok {CI : Invariant} {A} (m : Q A) : quiet m → preserves world_ok m.
Proof.
  intros Hm w Hw. eapply world_ok_at; [exact Hw|by apply quiet_at].
Qed.

Lemma quiet_fresh {CI : Invariant} {A} J (m : Q A) : quiet m → preserves (world_with J) m.
Proof. intros Hm. by apply preserves_with; apply quiet_ok. Qed.

Lemma quiet_ret {A} (a : A) : quiet (mret a).
Proof. intros d r o n u. apply preserves_ret. Qed.
Lemma quiet_err {A} e : quiet (io_err e : Q A).
Proof. intros d r o n u. apply preserves_err. Qed.
Lemma quiet_get {A} (f : Core → A) : quiet (get f).
Proof. intros d r o n u. apply preserves_gets. Qed.
Lemma quiet_result {A} (x : Result A) : quiet (io_result x).
Proof. intros d r o n u. apply preserves_result. Qed.
Lemma quiet_bind {A B} (m : Q A) (f : A → Q B) : quiet m → (∀ a, quiet (f a)) → quiet (m ≫= f).
Proof. intros Hm Hf d r o n u. apply preserves_bind; [apply Hm|]. intros a. apply Hf. Qed.
Lemma quiet_try {A} (m : Q A) : quiet m → quiet (io_try m).
Proof. intros Hm d r o n u. apply preserves_try, Hm. Qed.
Lemma quiet_for_each {A} (f : A → Q ()) l : (∀ a, quiet (f a)) → quiet (io_for_each f l).
Proof. intros Hf d r o n u. apply preserves_for_each. intros a. apply Hf. Qed.
Lemma quiet_mapM {A B} (f : A → Q B) l : (∀ a, quiet (f a)) → quiet (io_mapM f l).
Proof. intros Hf d r o n u. apply preserves_mapM. intros a. apply Hf. Qed.
Lemma quiet_upd f :
  (∀ c, db (f c) = db c ∧ lease_registry (f c) = lease_registry c ∧ job_ids c ≤ job_ids (f c) ∧ ulids c ≤ ulids (f c)) →
  quiet (upd f).
Proof.
  intros Hf d r o n u. apply preserves_modify. intros w (<- & <- & <- & Hn & Hu). unfold at_state. cbn.
  destruct (Hf (core w)) as (? & ? & ? & ?). split_and!; [done..|lia|lia].
Qed.
Lemma quiet_objects {A} (f : Objects → A * Objects) : quiet (on_objects f).
Proof.
  intros d r o n u w (<- & <- & <- & Hn & Hu). unfold on_objects, io_state. by destruct (f _).
Qed.

Ltac quiet :=
  repeat first
  [ apply quiet_ret | apply quiet_err | apply quiet_get | apply quiet_result
  | apply quiet_objects | apply quiet_try | (apply quiet_upd; done)
  | (apply quiet_for_each; intros) | (apply quiet_mapM; intros)
  | (apply quiet_bind; [|intros ?]) | case_match | case_decide ].

Lemma quiet_now_ms : quiet now_ms.
Proof. unfold now_ms. quiet. Qed.
Lemma quiet_new_ulid : quiet new_ulid.
Proof.
  intros d r o n u w (<- & <- & <- & Hn & Hu). split_and!; [done..|].
  etrans; [exact Hu|]. apply Nat.le_succ_diag_r.
Qed.
Lemma quiet_offload j : quiet (offload j).
Proof. unfold offload, payload_put. case_match; [|quiet]. case_decide; [quiet|].
  apply quiet_bind; [apply quiet_new_ulid|]. intros u. quiet. Qed.
Lemma quiet_delete_for j : quiet (delete_for j).
Proof. unfold delete_for, delete_best_effort, payload_delete. quiet. Qed.
Lemma quiet_materialize j : quiet (materialize j).
Proof. unfold materialize, payload_get. quiet. Qed.
Lemma quiet_offload_all before js : quiet (offload_all_from before js).
Proof.
  revert before. induction js as [|j js IH]; intros before; cbn; [quiet|].
  apply quiet_bind; [apply quiet_try, quiet_offload|]. intros [j'|e]; [apply IH|].
  apply quiet_bind; [apply quiet_for_each, quiet_delete_for|]. intros. quiet.
Qed.

Lemma quiet_next_job_id : quiet next_job_id.
Proof.
  unfold next_job_id. apply quiet_bind; [apply quiet_now_ms|].
  intros at' d r o n u w (<- & <- & <- & Hn & Hu). split_and!; [done..| |exact Hu].
  etransitivity; [exact Hn|]. apply Nat.le_succ_diag_r.
Qed.

Lemma quiet_prepare_job_record q pl opts : quiet (prepare_job_record q pl opts).
Proof.
  unfold prepare_job_record. apply quiet_bind; [quiet|]. intros q'.
  apply quiet_bind. { case_match; [|quiet]. apply quiet_bind; [apply quiet_now_ms|]. intros. quiet. }
  intros run. apply quiet_bind.
  { case_match; [quiet|]. apply quiet_bind; [apply quiet_next_job_id|]. intros. quiet. }
  intros [jid o]. case_match; [quiet|]. case_match; [quiet|].
  apply quiet_bind; [apply quiet_now_ms|]. intros. quiet.
Qed.

Lemma quiet_prepare_effects e : quiet (prepare_effects e).
Proof.
  unfold prepare_effects. apply quiet_bind; [apply quiet_for_each; intros []; quiet|]. intros _.
  case_match; [case_match; quiet|].
  apply quiet_bind; [apply quiet_mapM; intros; apply quiet_prepare_job_record|]. intros js.
  apply quiet_bind; [|intros; quiet]. unfold offload_prepared, offload_all.
  apply quiet_bind; [apply quiet_offload_all|]. intros. quiet.
Qed.

Lemma quiet_finish_effects p rs : quiet (finish_effects p rs).
Proof.
  unfold finish_effects, discard_prepared. case_match.
  - apply quiet_bind; [|intros; quiet]. apply quiet_for_each. intros [p' r'].
    case_match; [quiet|apply quiet_delete_for].
  - apply quiet_bind; [|intros; quiet]. apply quiet_for_each. intros. apply quiet_delete_for.
Qed.

(** ** What is prepared *)

(** The ids the generator returns for its calls [n] to [n + k - 1]. *)
Definition generated (n k : nat) (i : string) : Prop :=
  ∃ m a, n ≤ m < n + k ∧ i = ulid_string (ulid_generate m a).

Definition prepared_from (n n' : nat) (opt : option string) (p : PreparedJob) : Prop :=
  job_ok (prepared_job p) ∧
  match opt with
  | Some i => id_override_used p = true ∧ id (prepared_job p) = i ∧ n' = n
  | None => id_override_used p = false ∧ n' = S n ∧
            ∃ a, id (prepared_job p) = ulid_string (ulid_generate n a)
  end.

Lemma now_ms_Ok w z w' : now_ms w = (Ok z, w') → job_ids (core w') = job_ids (core w).
Proof. by intros [= <- <-]. Qed.

Lemma next_job_id_Ok w i w' :
  next_job_id w = (Ok i, w') →
  job_ids (core w') = S (job_ids (core w)) ∧ ∃ a, i = ulid_string (ulid_generate (job_ids (core w)) a).
Proof. intros [= <- <-]. cbn. eauto. Qed.

Lemma prepare_job_record_Ok q pl opts w p w' :
  prepare_job_record q pl opts w = (Ok p, w') →
  prepared_from (job_ids (core w)) (job_ids (core w')) (opt_id_override opts) p.
Proof.
  unfold prepare_job_record. intros H.
  apply IO_bind_Ok in H as (q' & w1 & E1 & H).
  assert (w1 = w) as -> by by injection E1.
  apply IO_bind_Ok in H as (run & w2 & E2 & H).
  assert (En2 : job_ids (core w2) = job_ids (core w)).
  { destruct (opt_run_at opts) as [when|]; [|by injection E2 as _ <-].
    apply IO_bind_Ok in E2 as (z & w3 & Ez & E2). injection E2 as _ <-. by apply now_ms_Ok in Ez. }
  assert (Hrun : opt_run_at opts = None → run = None).
  { intros E. rewrite E in E2. by injection E2. }
  apply IO_bind_Ok in H as ([jid o] & w3 & E3 & H).
  assert (Hid : match opt_id_override opts with
    | Some i => o = true ∧ jid = i ∧ job_ids (core w3) = job_ids (core w)
    | None => o = false ∧ job_ids (core w3) = S (job_ids (core w)) ∧
        ∃ a, jid = ulid_string (ulid_generate (job_ids (core w)) a) end).
  { destruct (opt_id_override opts) as [i|].
    - apply IO_bind_Ok in E3 as (u & w4 & E4 & E3). injection E4 as _ <-.
      injection E3 as <- <- <-. by rewrite En2.
    - apply IO_bind_Ok in E3 as (u & w4 & E4 & E3). apply next_job_id_Ok in E4 as [En4 [a ->]].
      injection E3 as <- <- <-. rewrite En4, En2. eauto. }
  destruct (opt_signal_wait opts && _); [done|]. destruct (bool_decide (is_Some _) && _); [done|].
  apply IO_bind_Ok in H as (now & w4 & E4 & H). apply now_ms_Ok in E4. injection H as <- <-.
  unfold prepared_from. cbn [prepared_job id_override_used].
  set (j := if decide (is_Some run) then _ else _).
  assert (Hj : id j = jid ∧ completed_at j = None ∧ claimed_at j = None ∧ failed_at j = None ∧
    (run = None ∧ status j = Pending ∨ is_Some run ∧ status j = Scheduled)).
  { subst j. case_decide as D; cbn; [by auto 10|]. apply eq_None_not_Some in D. by auto 10. }
  destruct Hj as (Ei & Ec & Ecl & Ef & Hs). split.
  - unfold job_ok. cbn. destruct Hs as [[-> Es]|[Hr Es]]; rewrite Es, ?Ec, ?Ecl, ?Ef; cbn.
    + rewrite andb_false_r. split; [done|]. split; [done|]. by left.
    + split; [done|]. split; [done|]. by right.
  - cbn. rewrite Ei, E4. destruct (opt_id_override opts); destruct Hid as (-> & ? & ?); done.
Qed.

(** How many ids a call generates for its requests. *)
Definition ids_needed (rs : list EnqueueRequest) : nat :=
  length (filter (λ r, opt_id_override (req_options r) = None) rs).

Lemma prepare_count_wait q pl opts w p w' :
  prepare_job_record q pl opts w = (Ok p, w') → opt_count_wait opts = None →
  count_wait (prepared_job p) = None.
Proof.
  unfold prepare_job_record. intros H Hc.
  apply IO_bind_Ok in H as (q' & w1 & _ & H). apply IO_bind_Ok in H as (run & w2 & _ & H).
  apply IO_bind_Ok in H as ([jid o] & w3 & _ & H).
  destruct (opt_signal_wait opts && _); [done|]. destruct (bool_decide (is_Some _) && _); [done|].
  apply IO_bind_Ok in H as (now & w4 & _ & H). injection H as <- _. cbn. by case_match.
Qed.

(** The prepared jobs of a list of requests, the generated ids in order. *)
Inductive prepared_list : nat → nat → list EnqueueRequest → list PreparedJob → Prop :=
| prepared_nil n : prepared_list n n [] []
| prepared_cons n n1 n2 r rs p ps :
    prepared_from n n1 (opt_id_override (req_options r)) p →
    prepared_list n1 n2 rs ps → prepared_list n n2 (r :: rs) (p :: ps).

Lemma prepare_list_Ok rs w ps w' :
  io_mapM (λ r, prepare_job_record (req_queue r) (req_payload r) (req_options r)) rs w = (Ok ps, w') →
  prepared_list (job_ids (core w)) (job_ids (core w')) rs ps.
Proof.
  revert w ps. induction rs as [|r rs IH]; cbn; intros w ps H.
  - injection H as <- <-. constructor.
  - apply IO_bind_Ok in H as (p & w1 & E & H). apply IO_bind_Ok in H as (ps' & w2 & E' & H).
    injection H as <- <-. econstructor; [by eapply prepare_job_record_Ok|by apply IH].
Qed.

(** An offload changes where the payload of a job is, and nothing else. *)
Definition same_but_payload (j j' : JobRecord) : Prop :=
  id j' = id j ∧ (job_ok j → job_ok j') ∧ count_wait j' = count_wait j ∧
  queue j' = queue j ∧ dedup_key j' = dedup_key j ∧ status j' = status j ∧
  ∃ pl r, j' = set_payload_ref r (set_payload pl j).

Lemma same_but_payload_of pl r j : same_but_payload j (set_payload_ref r (set_payload pl j)).
Proof. unfold same_but_payload. split_and!; [done..|]. by exists pl, r. Qed.
Lemma same_but_payload_refl j : same_but_payload j j.
Proof.
  replace j with (set_payload_ref (payload_ref j) (set_payload (payload j) j)) at 2 by by destruct j.
  apply same_but_payload_of.
Qed.

Lemma offload_Ok j w j' w' :
  offload j w = (Ok j', w') → same_but_payload j j' ∧ job_ids (core w') = job_ids (core w).
Proof.
  unfold offload. destruct (offload_threshold payload_store); [case_decide as D|].
  1,3: injection 1 as <- <-; split; [apply same_but_payload_refl|done].
  intros H. apply IO_bind_Ok in H as (u & w1 & E1 & H). injection E1 as <- <-.
  apply IO_bind_Ok in H as (x & w2 & E2 & H). injection H as <- <-.
  split; [apply same_but_payload_of|]. unfold payload_put, on_objects, io_state, mbind, IO_bind in E2.
  destruct (os_put _ _ _) as [[]]; cbn in E2; by injection E2 as _ <-.
Qed.

Lemma offload_all_Ok before js w js' w' :
  offload_all_from before js w = (Ok js', w') →
  ∃ after, js' = before ++ after ∧ Forall2 same_but_payload js after.
Proof.
  revert before w. induction js as [|j js IH]; cbn; intros before w H.
  - injection H as <- <-. exists []. by rewrite app_nil_r.
  - apply IO_bind_Ok in H as (r & w1 & E & H). unfold io_try in E.
    destruct (offload j w) as [r0 w0] eqn:Eo. injection E as -> ->. destruct r as [j'|e].
    + apply IH in H as (after & -> & Ha). exists (j' :: after). rewrite <- app_assoc.
      split; [done|]. constructor; [|done]. by eapply offload_Ok.
    + by apply IO_bind_Ok in H as (? & ? & _ & ?).
Qed.

(** The well-formedness and the newness of what is prepared, for a transaction
    whose snapshot does not have the generated ids. *)
Lemma prepared_list_le n n' rs ps : prepared_list n n' rs ps → n' = n + ids_needed rs.
Proof.
  induction 1 as [|n n1 n2 r rs p ps Hp _ IH]; [cbn; lia|].
  destruct Hp as [_ Hp]. unfold ids_needed in *. rewrite filter_cons.
  destruct (opt_id_override _); case_decide; try done; cbn; naive_solver lia.
Qed.

(** The ids of the requests of a call whose first generated id is the [n]th. *)
Definition requested (rs : list EnqueueRequest) (n k : nat) (i : string) : Prop :=
  (∃ r, r ∈ rs ∧ opt_id_override (req_options r) = Some i) ∨ generated n k i.

Context {UL : UlidLaws}.

Lemma prepared_ids n n' rs ps js p :
  prepared_list n n' rs ps → Forall2 same_but_payload (prepared_job <$> ps) js →
  p ∈ zip_with (λ p j, mkPrepared j (id_override_used p)) ps js →
  (id_override_used p = false → ∃ m a, n ≤ m < n' ∧ id (prepared_job p) = ulid_string (ulid_generate m a)) ∧
  (id_override_used p = true → ∃ r, r ∈ rs ∧ opt_id_override (req_options r) = Some (id (prepared_job p))).
Proof.
  intros H. revert js. induction H as [n|n n1 n2 r rs p0 ps Hp H IH]; cbn; intros js.
  - inversion 1; subst. by intros ?%elem_of_nil.
  - inversion 1 as [|j0 j' l l' [Hi _] Hl]; subst. cbn. intros [->|Hin]%elem_of_cons.
    + cbn. rewrite Hi. destruct Hp as [_ Hp]. pose proof (prepared_list_le _ _ _ _ H).
      destruct (opt_id_override (req_options r)) as [i|] eqn:E.
      * destruct Hp as (-> & <- & _). split; [done|]. intros _. exists r. split; [by left|done].
      * destruct Hp as (-> & -> & a & ->). split; [|done]. intros _. exists n, a. split; [lia|done].
    + destruct (IH _ Hl Hin) as [H1 H2]. split.
      * intros Ho. destruct (H1 Ho) as (m & a & Hm & ->). exists m, a. split; [|done].
        destruct Hp as [_ Hp]. destruct (opt_id_override _); naive_solver lia.
      * intros Ho. destruct (H2 Ho) as (r' & ? & ?). exists r'. split; [by right|done].
Qed.

Lemma prepared_batch_ok t n n' k rs ps js :
  prepared_list n n' rs ps → Forall2 same_but_payload (prepared_job <$> ps) js →
  n' ≤ n + k →
  (∀ r i, r ∈ rs → opt_id_override (req_options r) = Some i → ¬ generated n k i) →
  (∀ i, generated n k i → tview t !! job_index_key i = None) →
  (∀ i, requested rs n k i → new_id i) →
  batch_ok t (zip_with (λ p j, mkPrepared j (id_override_used p)) ps js).
Proof using UL.
  intros H. revert k js. induction H as [n|n n1 n2 r rs p ps Hp H IH]; cbn; intros k js; [by inversion 1|].
  inversion 1 as [|j0 j l l' [Hi Hok] Hl]; subst. cbn. intros Hle Hsup Hnew Hids.
  pose proof (prepared_list_le _ _ _ _ H) as Hle'. destruct Hp as [Hjok Hp].
  split; [split; [by apply Hok|split]|split].
  - cbn. rewrite Hi. apply Hids. destruct (opt_id_override (req_options r)) as [i|] eqn:Er.
    + left. exists r. destruct Hp as (_ & -> & _). split; [by left|done].
    + right. destruct Hp as (_ & -> & a & ->). exists n, a. split; [lia|done].
  - cbn. intros Ho [b Hb]. destruct (opt_id_override _); [by destruct Hp as [? _]; congruence|].
    destruct Hp as (_ & -> & a & Ha). cbn in Hb. rewrite Hi, Ha, Hnew in Hb; [done|].
    exists n, a. split; [lia|done].
  - apply Forall_forall. intros p' Hin Ho. cbn.
    destruct (prepared_ids _ _ _ _ _ _ H Hl Hin) as [Hg _].
    destruct (Hg Ho) as (m & a & Hm & Ha). rewrite Ha, Hi. intros E.
    destruct (opt_id_override (req_options r)) as [i|] eqn:Er.
    + destruct Hp as (_ & Hpi & ->). apply (Hsup r i); [by left|done|].
      exists m, a. split; [lia|]. congruence.
    + destruct Hp as (_ & -> & a' & Ha'). rewrite Ha' in E. apply ulid_inj in E. lia.
  - destruct (opt_id_override (req_options r)) eqn:Er.
    + destruct Hp as (_ & _ & ->). apply (IH k); [done|done| |done|].
      * intros r' i ?. apply Hsup. by right.
      * intros i [(r' & ? & ?)|?]; apply Hids; [left; exists r'; split; [by right|done]|by right].
    + destruct Hp as (_ & -> & _). apply (IH (k - 1)); [done|lia|..].
      * intros r' i Hr' Ei (m & a & Hm & ->). eapply Hsup; [by right|exact Ei|].
        exists m, a. split; [lia|done].
      * intros i (m & a & Hm & ->). apply Hnew. exists m, a. split; [lia|done].
      * intros i [(r' & ? & ?)|(m & a & ? & ->)]; apply Hids.
        { left. exists r'. split; [by right|done]. }
        { right. exists m, a. split; [lia|done]. }
Qed.

(** The jobs prepared for effects, as prepared and then offloaded. *)
Lemma prepare_effects_list e w p w' :
  prepare_effects e w = (Ok p, w') →
  ∃ n' ps js, prepared_list (job_ids (core w)) n' (enqueues e) ps ∧ n' ≤ job_ids (core w') ∧
    Forall2 same_but_payload (prepared_job <$> ps) js ∧
    prepared_jobs p = zip_with (λ p j, mkPrepared j (id_override_used p)) ps js.
Proof.
  intros H. unfold prepare_effects in H.
  apply IO_bind_Ok in H as (u & w1 & E1 & H).
  assert (w1 = w) as ->.
  { revert E1. generalize (map_to_list (kv_writes e)). intros l.
    induction l as [|[k v] l IH]; cbn; [by intros [= _ <-]|].
    intros (u1 & w2 & E2 & E3)%IO_bind_Ok. injection E2 as _ <-. by apply IH. }
  destruct (list_find _ _) as [[]|]; [done|].
  apply IO_bind_Ok in H as (ps & w2 & E2 & H). apply prepare_list_Ok in E2.
  apply IO_bind_Ok in H as (js & w3 & E3 & H). injection H as <- <-. cbn.
  unfold offload_prepared in E3. apply IO_bind_Ok in E3 as (js' & w4 & E4 & E3).
  injection E3 as <- <-.
  pose proof (quiet_at _ w2 (quiet_offload_all [] (map prepared_job ps))) as Hq.
  unfold offload_all in E4. rewrite E4 in Hq. destruct Hq as (_ & _ & _ & Hq & _).
  apply offload_all_Ok in E4 as (after & -> & Ha).
  exists (job_ids (core w2)), ps, after. split_and!; done.
Qed.

(** The requests of a call whose generated ids are new: none is supplied by the
    call, and none is in the snapshot. *)
Definition requests_fresh (rs : list EnqueueRequest) (n : nat) : Prop :=
  ∀ r i, r ∈ rs → opt_id_override (req_options r) = Some i → ¬ generated n (ids_needed rs) i.

(** The ids are drawn when the requests are prepared. *)
Lemma prepare_effects_ids e w p w' :
  prepare_effects e w = (Ok p, w') → job_ids (core w) + ids_needed (enqueues e) ≤ job_ids (core w').
Proof. intros (n' & ps & js & E & Hn & _)%prepare_effects_list. apply prepared_list_le in E. lia. Qed.

Lemma prepare_write_ids r e w p w1 q w2 :
  prepare_job_record (req_queue r) (req_payload r) (req_options r) w = (Ok p, w1) →
  prepare_effects e w1 = (Ok q, w2) →
  job_ids (core w) + ids_needed (r :: enqueues e) ≤ job_ids (core w2).
Proof.
  intros Hp%prepare_job_record_Ok (n' & ps & js & E & Hn & _)%prepare_effects_list.
  assert (Hl : prepared_list (job_ids (core w)) n' (r :: enqueues e) (p :: ps)) by by econstructor.
  apply prepared_list_le in Hl. lia.
Qed.

(** The effects prepared by a call are a batch for any transaction whose snapshot
    has none of the ids generated for them. *)
Lemma prepare_effects_batch e w p w' t :
  prepare_effects e w = (Ok p, w') → requests_fresh (enqueues e) (job_ids (core w)) →
  (∀ i, generated (job_ids (core w)) (ids_needed (enqueues e)) i → tview t !! job_index_key i = None) →
  (∀ i, requested (enqueues e) (job_ids (core w)) (ids_needed (enqueues e)) i → new_id i) →
  batch_ok t (prepared_jobs p).
Proof using UL.
  intros (n' & ps & js & E & _ & Ha & ->)%prepare_effects_list Hsup Hnew Hids.
  eapply prepared_batch_ok; [exact E|exact Ha|by rewrite (prepared_list_le _ _ _ _ E)|exact Hsup|exact Hnew|exact Hids].
Qed.

(** The same of a job prepared before the effects of its call. *)
Lemma prepare_write_batch r e w p w1 q w2 j t :
  prepare_job_record (req_queue r) (req_payload r) (req_options r) w = (Ok p, w1) →
  prepare_effects e w1 = (Ok q, w2) → same_but_payload (prepared_job p) j →
  requests_fresh (r :: enqueues e) (job_ids (core w)) →
  (∀ i, generated (job_ids (core w)) (ids_needed (r :: enqueues e)) i →
    tview t !! job_index_key i = None) →
  (∀ i, requested (r :: enqueues e) (job_ids (core w)) (ids_needed (r :: enqueues e)) i → new_id i) →
  batch_ok t (mkPrepared j (id_override_used p) :: prepared_jobs q).
Proof using UL.
  intros Hp%prepare_job_record_Ok (n' & ps & js & E & _ & Ha & ->)%prepare_effects_list Hj Hsup Hnew Hids.
  assert (Hl : prepared_list (job_ids (core w)) n' (r :: enqueues e) (p :: ps)) by by econstructor.
  apply (prepared_batch_ok t _ _ (ids_needed (r :: enqueues e)) _ _ (j :: js) Hl);
    [by constructor|by rewrite (prepared_list_le _ _ _ _ Hl)|exact Hsup|exact Hnew|exact Hids].
Qed.

(** A prepared job follows its options: the fields the caller set are the
    caller's, the others are the queue's defaults; it is scheduled, with its waits,
    exactly when its run time is in the future, and otherwise pending without
    waits; and each refusal has its cause. *)
Lemma prepared_job_follows_its_options q pl opts w :
  match (prepare_job_record q pl opts w).1 with
  | Ok p =>
      let j := prepared_job p in
      let cfg := configs_get configs q in
      (qn_str (queue j) = q ∧ payload j = pl ∧ payload_ref j = None ∧ headers j = opt_headers opts ∧
       attempts j = 0%Z ∧ max_attempts j = default (cfg_max_attempts cfg) (opt_max_attempts opts) ∧
       priority j = default (cfg_default_priority cfg) (opt_priority opts) ∧
       dedup_key j = opt_dedup_key opts ∧ cancel_requested j = false) ∧
      id_override_used p = bool_decide (is_Some (opt_id_override opts)) ∧
      (∀ i, opt_id_override opts = Some i → id j = i ∧ validate_id_override i = Ok ()) ∧
      (status j = Scheduled ∧ signal_wait j = opt_signal_wait opts ∧ count_wait j = opt_count_wait opts ∧
         (∃ at', opt_run_at opts = Some at' ∧ run_at j = Some (wrap64 (Z.max at' 0)) ∧
            (clock_now (ticks (core w)) < wrap64 (Z.max at' 0))%Z) ∨
       status j = Pending ∧ signal_wait j = false ∧ count_wait j = None ∧ run_at j = None ∧
         match opt_run_at opts with
         | None => opt_signal_wait opts = false ∧ opt_count_wait opts = None
         | Some at' => (wrap64 (Z.max at' 0) ≤ clock_now (ticks (core w)))%Z
         end)
  | Err (InvalidQueueName q' _) => q' = q
  | Err (InvalidId i _) => opt_id_override opts = Some i ∧ validate_id_override i ≠ Ok ()
  | Err SignalWaitWithoutRunAt => opt_signal_wait opts = true ∧ opt_run_at opts = None
  | Err CountWaitWithoutRunAt => is_Some (opt_count_wait opts) ∧ opt_run_at opts = None
  | Err _ => False
  end.
Proof.
  unfold prepare_job_record. unfold mbind at 1, IO_bind at 1, io_result at 1.
  destruct (QueueName_new q) as [qn|e] eqn:Eq.
  2: { unfold QueueName_new in Eq. revert Eq. generalize (@eq_refl _ (form_check QUEUE_NAME_FORM q)).
       generalize (form_check QUEUE_NAME_FORM q) at 2 3. intros [[]|r] ?; by intros [= <-]. }
  apply QueueName_new_Ok in Eq as <-. unfold mbind at 1, IO_bind at 1.
  match goal with |- context [match ?m w with _ => _ end] => set (mrun := m) end.
  assert (Hrun : ∃ run w1, mrun w = (Ok run, w1) ∧
    match opt_run_at opts with
    | None => run = None
    | Some at' => run = if (clock_now (ticks (core w)) <? wrap64 (Z.max at' 0))%Z
                        then Some (wrap64 (Z.max at' 0)) else None
    end).
  { subst mrun. destruct (opt_run_at opts) as [at'|]; by eexists _, _. }
  destruct Hrun as (run & w1 & -> & Hrun). clear mrun. unfold mbind at 1, IO_bind at 1.
  match goal with |- context [match ?m w1 with _ => _ end] => set (mid := m) end.
  destruct (mid w1) as [[[jid o]|e] w2] eqn:Ei.
  2: { subst mid. destruct (opt_id_override opts) as [i|].
       - unfold mbind, IO_bind, io_result in Ei. unfold validate_id_override in *.
         destruct (form_check ID_OVERRIDE_FORM i) eqn:Ef; [done|]. injection Ei as <- _. cbn.
         split; [done|]. by rewrite Ef.
       - unfold mbind, IO_bind in Ei. by destruct (next_job_id w1) as [[]] eqn:En. }
  assert (Hid : o = bool_decide (is_Some (opt_id_override opts)) ∧
    ∀ i, opt_id_override opts = Some i → jid = i ∧ validate_id_override i = Ok ()).
  { subst mid. destruct (opt_id_override opts) as [i|].
    - unfold mbind, IO_bind, io_result in Ei. destruct (validate_id_override i) as [[]|] eqn:Ev; [|done].
      injection Ei as <- <- _. split; [done|]. intros i' [= <-]. done.
    - unfold mbind, IO_bind in Ei. destruct (next_job_id w1) as [[]] eqn:En; [|done].
      injection Ei as _ <- _. split; [done|]. by intros i [=]. }
  clear mid Ei. destruct Hid as [-> Hid].
  destruct (opt_signal_wait opts && bool_decide (opt_run_at opts = None)) eqn:E1.
  { apply andb_true_iff in E1 as [? ?%bool_decide_eq_true]. done. }
  destruct (bool_decide (is_Some (opt_count_wait opts)) && bool_decide (opt_run_at opts = None)) eqn:E2.
  { apply andb_true_iff in E2 as [?%bool_decide_eq_true ?%bool_decide_eq_true]. done. }
  assert (Hwaits : opt_run_at opts = None → opt_signal_wait opts = false ∧ opt_count_wait opts = None).
  { intros E. rewrite (bool_decide_eq_true_2 _ E), andb_true_r in E1, E2. split; [done|].
    apply bool_decide_eq_false in E2. by apply eq_None_not_Some. }
  unfold mbind at 1, IO_bind at 1. destruct (now_ms w2) as [[now|e] w3] eqn:En; [|done].
  cbn [fst mret IO_ret]. cbn [prepared_job id_override_used]. cbn zeta.
  destruct run as [r|].
  - rewrite decide_True by by eexists. cbn. split; [done|]. split; [done|]. split; [done|].
    left. rewrite andb_true_r. split; [done|]. split; [done|]. split; [done|].
    destruct (opt_run_at opts) as [at'|]; [|done]. exists at'. split; [done|].
    revert Hrun. case Z.ltb_spec; [|done]. by intros ? [= ->].
  - rewrite decide_False by (intros [? [=]]). cbn. split; [done|]. split; [done|]. split; [done|].
    right. rewrite andb_false_r. split; [done|]. split; [done|]. split; [done|]. split; [done|].
    destruct (opt_run_at opts) as [at'|]; [|by apply Hwaits].
    revert Hrun. by case Z.ltb_spec.
Qed.

End prepare.
