(* ===== verification/View.v ===== *)
(** * Paged reads (taquba/src/view.rs)

    A listing that is read in pages, each from a cursor on, as one stream: what the
    stream yields when the listing stays the same, and when it changes between the
    pages. *)
From stdpp Require Import sorting.
From S2P Require Import Prelude Bytes Error Monad Keys Job Store Stats Txn.

(** [pages], consumed to its end. [fetch] has the number of the page, as what a
    read finds changes with time; the stream has no bound on its pages, [fuel] is
    one. *)
Fixpoint pages {T} (fetch : nat → option bytes → Result (list T * option bytes)) (fuel n : nat)
    (cursor : option bytes) : Result (list T) :=
  match fuel with
  | O => Err Unfinished
  | S fuel =>
      '(items, next) ← fetch n cursor;
      match next with
      | None => Ok items
      | Some c => rest ← pages fetch fuel (S n) (Some c); Ok (items ++ rest)
      end
  end.

Section paging.
  Context {T : Type} (R : bytes → bytes → Prop).
  Context {R_dec : RelDecision R} {R_trans : Transitive R} {R_irrefl : Irreflexive R}.
  Implicit Types (l rest : list (bytes * T)) (c : option bytes).
  #[local] Set Default Proof Using "Type R_trans R_irrefl".

Definition sorted_keys l : Prop := StronglySorted (λ a b, R a.1 b.1) l.

(** The page of the first [limit] of the entries that a cursor leaves. *)
Definition page_of (limit : nat) rest : list T * option bytes :=
  ((take limit rest).*2,
   if decide (limit < length rest) then fst <$> last (take limit rest) else None).

Lemma sorted_app_inv l1 x l2 :
  sorted_keys (l1 ++ x :: l2) →
  (∀ e, e ∈ l1 → R e.1 x.1) ∧ (∀ e, e ∈ l2 → R x.1 e.1) ∧ sorted_keys l2.
Proof.
  unfold sorted_keys. induction l1 as [|y l1 IH]; cbn.
  - intros [? Hx]%StronglySorted_inv. rewrite Forall_forall in Hx. split; [by intros e ?%elem_of_nil|done].
  - intros [Hl Hy]%StronglySorted_inv. destruct (IH Hl) as (H1 & H2 & H3). rewrite Forall_forall in Hy.
    split; [|done]. intros e [->|?]%elem_of_cons; [apply Hy, elem_of_app; right; by left|auto].
Qed.

(** The listing of the entries [P]: each once, in order. *)
Definition is_listing (P : bytes → T → Prop) l : Prop :=
  sorted_keys l ∧ ∀ k v, (k, v) ∈ l ↔ P k v.

Lemma sorted_NoDup l : sorted_keys l → NoDup l.
Proof.
  induction 1 as [|x l _ IH Hx]; constructor; [|done]. intros Hin. rewrite Forall_forall in Hx.
  by apply (irreflexivity R x.1), Hx.
Qed.

Lemma is_listing_unique P l l' : is_listing P l → is_listing P l' → l = l'.
Proof.
  intros [Hs Hl] [Hs' Hl'].
  apply (StronglySorted_unique_strong (λ a b, R a.1 b.1)); [|done|done|].
  - intros x y _ _ Hxy Hyx. exfalso. apply (irreflexivity R x.1). by etrans.
  - apply NoDup_Permutation; [by apply sorted_NoDup..|]. intros [k v]. by rewrite Hl, Hl'.
Qed.

(** The entries of [P] that a cursor leaves. *)
Definition after (P : bytes → T → Prop) c (k : bytes) (v : T) : Prop :=
  P k v ∧ ∀ k', c = Some k' → R k' k.

(** After the last entry of a page come the entries after the page. *)
Lemma after_page P c rest limit k :
  is_listing (after P c) rest → fst <$> last (take limit rest) = Some k →
  is_listing (after P (Some k)) (drop limit rest) ∧
  (∀ e, e ∈ take limit rest → e.1 = k ∨ R e.1 k) ∧ ∃ v, after P c k v.
Proof.
  intros [Hs Hm] Hk. apply fmap_Some in Hk as (x & Hx & ->).
  apply last_Some in Hx as [l1 Hl1]. set (l2 := drop limit rest) in *.
  assert (E : rest = l1 ++ x :: l2).
  { rewrite <- (take_drop limit rest), Hl1, <- app_assoc. done. }
  rewrite E in Hs. destruct (sorted_app_inv _ _ _ Hs) as (H1 & H2 & H3).
  assert (Hx : after P c x.1 x.2).
  { apply Hm. rewrite E. destruct x. apply elem_of_app. right. by left. }
  split; [split; [done|]|split; [|by eexists]].
  - intros y v. split.
    + intros Hy. split; [|intros ? [= <-]; by apply (H2 (y, v))].
      apply Hm. rewrite E. apply elem_of_app. right. by right.
    + intros [Hp Hr]. specialize (Hr x.1 eq_refl).
      assert (Hin : (y, v) ∈ rest).
      { apply Hm. split; [done|]. intros k' Hk'. etrans; [by apply Hx|done]. }
      rewrite E in Hin. apply elem_of_app in Hin as [Hin|[Hin|Hin]%elem_of_cons]; [| |done].
      * exfalso. apply (irreflexivity R x.1). etrans; [exact Hr|]. by apply (H1 (y, v)).
      * exfalso. apply (irreflexivity R x.1). rewrite <- Hin in Hr |- *. exact Hr.
  - intros e He. rewrite Hl1 in He. apply elem_of_app in He as [He|He%list_elem_of_singleton]; [|left; by rewrite He].
    right. by apply H1.
Qed.

(** ** The stream

    What the [n]th read finds are the entries [P n]. *)
Context (P : nat → bytes → T → Prop) (limit : nat) (valid : bytes → Prop).
Context (fetch : nat → option bytes → Result (list T * option bytes)).
Context (limit_pos : 0 < limit).
Context (P_valid : ∀ n k v, P n k v → valid k).
Context (fetch_law : ∀ n c r, (∀ k, c = Some k → valid k) → fetch n c = Ok r →
  ∃ rest, is_listing (after (P n) c) rest ∧ r = page_of limit rest).

(** A page and the entries that its cursor leaves for the next one. *)
Lemma fetch_page n c items next :
  (∀ k, c = Some k → valid k) → fetch n c = Ok (items, next) →
  ∃ rest, is_listing (after (P n) c) rest ∧ items = (take limit rest).*2 ∧
    match next with
    | None => drop limit rest = []
    | Some k => valid k ∧ (∀ k', c = Some k' → R k' k) ∧ 0 < length items ∧
        (∀ e, e ∈ take limit rest → e.1 = k ∨ R e.1 k) ∧
        is_listing (after (P n) (Some k)) (drop limit rest)
    end.
Proof using P_valid R_irrefl R_trans fetch_law limit_pos.
  intros Hc E. destruct (fetch_law n c _ Hc E) as (rest & Hl & Hp). exists rest. split; [done|].
  unfold page_of in Hp. injection Hp as -> ->. split; [done|]. case_decide as Hlen.
  2: { apply nil_length_inv. rewrite length_drop. lia. }
  destruct (fst <$> last (take limit rest)) as [k|] eqn:Ex.
  2: { apply fmap_None, last_None, (f_equal length) in Ex. rewrite length_take in Ex. cbn in Ex. lia. }
  destruct (after_page _ _ _ _ _ Hl Ex) as (H1 & H2 & v & Hv & Hk).
  split; [by eapply P_valid|]. split; [done|]. split; [rewrite length_fmap, length_take; lia|done].
Qed.

(** The stream yields no key twice and in order, only what a read found, and every
    key that all reads find. *)
Lemma pages_sound fuel n c r :
  (∀ k, c = Some k → valid k) → pages fetch fuel n c = Ok r →
  ∃ l, r = l.*2 ∧ sorted_keys l ∧
    (∀ e, e ∈ l → (∀ k, c = Some k → R k e.1) ∧ ∃ i, n ≤ i ∧ P i e.1 e.2) ∧
    ∀ k, (∀ k', c = Some k' → R k' k) → (∀ i, n ≤ i → ∃ v, P i k v) → ∃ v, (k, v) ∈ l.
Proof using P_valid R_irrefl R_trans fetch_law limit_pos.
  revert n c r. induction fuel as [|fuel IH]; intros n c r Hc; cbn; [done|].
  intros ([items next] & E & H)%bind_Ok.
  destruct (fetch_page _ _ _ _ Hc E) as (rest & [Hs Hm] & -> & Hn).
  rewrite <- (take_drop limit rest) in Hs, Hm.
  assert (Hpage : ∀ e, e ∈ take limit rest → (∀ k, c = Some k → R k e.1) ∧ ∃ i, n ≤ i ∧ P i e.1 e.2).
  { intros [k v] He. destruct (proj1 (Hm k v)) as [Hp Hk]; [apply elem_of_app; by left|].
    split; [done|]. by exists n. }
  apply StronglySorted_app in Hs as (_ & Hs & _).
  destruct next as [k|].
  - apply bind_Ok in H as (r' & Er & [= <-]). destruct Hn as (Hv & Hck & _ & Hle & [_ Hd]).
    destruct (IH (S n) (Some k) r') as (l' & -> & Hs' & Hl' & Hall); [by intros ? [= <-]|done|].
    exists (take limit rest ++ l'). rewrite fmap_app. split; [done|]. split_and!.
    + apply StronglySorted_app_2; [|done..]. intros a b Ha Hb.
      destruct (Hl' b Hb) as [Hb' _]. specialize (Hb' k eq_refl).
      destruct (Hle a Ha) as [->|?]; [done|by etrans].
    + intros e [He|He]%elem_of_app; [by apply Hpage|]. destruct (Hl' e He) as [Hk (i & Hi & Hp)].
      split; [intros k' Hk'; etrans; [by apply Hck|by apply Hk]|]. exists i. split; [lia|done].
    + intros x Hx Hp. destruct (Hp n) as [v Hxv]; [done|].
      assert (Hin : (x, v) ∈ take limit rest ++ drop limit rest) by by apply Hm.
      apply elem_of_app in Hin as [Hin|[_ Hin]%Hd].
      { exists v. apply elem_of_app. by left. }
      destruct (Hall x) as [v' Hv']; [done|intros i Hi; apply Hp; lia|]. exists v'.
      apply elem_of_app. by right.
  - injection H as <-. exists (take limit rest). split; [done|]. split; [done|]. split; [done|].
    intros x Hx Hp. destruct (Hp n) as [v Hxv]; [done|]. exists v.
    rewrite Hn, app_nil_r in Hm. by apply Hm.
Qed.

(** When the entries stay the same the stream yields their listing. *)
Lemma pages_listing Q fuel n r :
  (∀ i k v, P i k v ↔ Q k v) → (∀ k v v', Q k v → Q k v' → v = v') →
  pages fetch fuel n None = Ok r → ∃ l, r = l.*2 ∧ is_listing Q l.
Proof using P_valid R_irrefl R_trans fetch_law limit_pos.
  intros HQ Hfun H. destruct (pages_sound fuel n None r) as (l & -> & Hs & Hin & Hall); [done..|].
  exists l. split; [done|]. split; [done|]. intros k v. split.
  - intros Hkv. destruct (Hin _ Hkv) as (_ & i & _ & Hp). by apply HQ in Hp.
  - intros Hkv. destruct (Hall k) as [v' Hv']; [done|intros; exists v; by apply HQ|].
    destruct (Hin _ Hv') as (_ & i & _ & Hp%HQ). cbn in Hp. by rewrite (Hfun k v v').
Qed.

(** A stream over a listing that stays the same ends. *)
Lemma pages_end Q fuel n c :
  (∀ i k v, P i k v ↔ Q k v) → (∀ rest, is_listing (after Q c) rest → length rest < fuel) →
  (∀ k, c = Some k → valid k) → (∀ n c, fetch n c ≠ Err Unfinished) → 0 < fuel →
  pages fetch fuel n c ≠ Err Unfinished.
Proof using P_valid R_irrefl R_trans fetch_law limit_pos.
  intros HQ Hl Hc Hf. revert n c Hl Hc. induction fuel as [|fuel IH]; intros n c Hl Hc Hpos; [lia|].
  cbn. destruct (fetch n c) as [[items next]|e] eqn:E; cbn; [|by intros [= ->]; apply (Hf n c)].
  assert (HP : ∀ c k v, after (P n) c k v ↔ after Q c k v) by (intros; unfold after; by rewrite HQ).
  destruct (fetch_page _ _ _ _ Hc E) as (rest & [Hs' Hm] & -> & Hn).
  assert (Hlen : length rest < S fuel).
  { apply Hl. split; [done|]. intros k v. by rewrite Hm, HP. }
  destruct next as [k|]; [|done]. destruct Hn as (Hv & _ & Hitems & _ & [Hs Hd]).
  rewrite length_fmap, length_take in Hitems.
  intros He. apply bind_Err in He as [He|(r & _ & [=])]. revert He.
  apply (IH _ (Some k)); [|by intros ? [= <-]|lia].
  intros rest' Hr. rewrite (is_listing_unique _ rest' (drop limit rest) Hr).
  - rewrite length_drop. lia.
  - split; [done|]. intros k' v. by rewrite Hd, HP.
Qed.
End paging.

(** ** Read-only views (taquba/src/view.rs)

    The queries of a store through the writer's handle or a reader's: counters,
    listings in pages, the user key space. A query sees the store at the moment of
    its reads; two queries can see two stores. *)

(** ** The handles

    [Db] and [DbReader] are SlateDB's: a point read, and a scan of a prefix within
    bounds on the rest of the key, in either order. *)
Abbreviation Bound := ScanStart.

Inductive KvOrder := Ascending | Descending.

Definition scan_end_ok (b : Bound) (suffix : bytes) : bool :=
  match b with
  | Unbounded => true
  | Included k => bytes_le suffix k
  | Excluded k => bytes_lt suffix k
  end.

Definition in_bounds (r : Bound * Bound) (k : bytes) : bool :=
  scan_start_ok r.1 k && scan_end_ok r.2 k.

(** The order of the keys of a scan. *)
Definition follows (o : KvOrder) (a b : bytes) : Prop :=
  match o with Ascending => bytes_lt a b = true | Descending => bytes_lt b a = true end.

Class SlateReads `{!SlateDb} := {
  DbReader : Type;
  db_scan_options : Db → bytes → Bound * Bound → KvOrder → result SlateError (list kv);
  reader_get : DbReader → bytes → result SlateError (option bytes);
  reader_scan_options : DbReader → bytes → Bound * Bound → KvOrder → result SlateError (list kv);
}.

Definition is_range_scan (m : gmap bytes bytes) (prefix : bytes) (r : Bound * Bound) (o : KvOrder)
    (l : list kv) : Prop :=
  StronglySorted (λ a b, follows o a.1 b.1) l ∧
  ∀ k v, (k, v) ∈ l ↔ m !! k = Some v ∧ ∃ suffix, k = prefix ++ suffix ∧ in_bounds r suffix = true.

Class SlateReadsLaws (op : MergeOperator) `{!SlateDb} `{!SlateDbLaws op} `{!SlateReads} := {
  reader_contents : DbReader → gmap bytes bytes;
  db_scan_options_law d p r o l : db_scan_options d p r o = Ok l → is_range_scan (contents d) p r o l;
  reader_get_law d k x : reader_get d k = Ok x → x = reader_contents d !! k;
  reader_scan_options_law d p r o l :
    reader_scan_options d p r o = Ok l → is_range_scan (reader_contents d) p r o l;
}.

(** The pages: [KvPage] of taquba/src/kv.rs, [JobPage] of taquba/src/queue.rs. *)
Record KvPage := mkKvPage { entries : list kv; more : bool }.
Record JobPage := mkJobPage { jobs : list JobRecord; next_cursor : option bytes }.

(** [QueueStats] of taquba/src/stats.rs. *)
Record QueueStats := mkQueueStats {
  stats_queue : string;
  stats_pending : Z;
  stats_claimed : Z;
  stats_done : Z;
  stats_dead : Z;
  stats_scheduled : Z;
}.

(** ** Ranges of the user key space *)

(** [side]: the position of a bound relative to the keys within a prefix. *)
Inductive Side := Before | Within (b : Bound) | After.

Definition side (prefix : bytes) (b : Bound) : Side :=
  let at_key key wrap :=
    match strip_prefix prefix key with
    | Some suffix => Within (wrap suffix)
    | None => if bytes_lt key prefix then Before else After
    end in
  match b with
  | Unbounded => Within Unbounded
  | Included key => at_key key Included
  | Excluded key => at_key key Excluded
  end.

(** [subrange]. *)
Definition subrange (prefix : bytes) (range : Bound * Bound) : option (Bound * Bound) :=
  start ← match side prefix range.1 with
    | Before => Some Unbounded
    | Within b => Some b
    | After => None
    end;
  end' ← match side prefix range.2 with
    | Before => None
    | Within b => Some b
    | After => Some Unbounded
    end;
  let non_empty := match start, end' with
    | Included a, Included b => bytes_le a b
    | Included a, Excluded b | Excluded a, Included b | Excluded a, Excluded b => bytes_lt a b
    | Unbounded, _ | _, Unbounded => true
    end in
  if non_empty then Some (start, end') else None.

Section view.
  Context {DB : SlateDb} {RD : SlateReads} {SR : Serde JobRecord} {SA : Serde JobAttempt}.

Inductive Handle := Writer (d : Db) | Reader (r : DbReader).

Definition handle_get (h : Handle) (key : bytes) : Result (option bytes) :=
  lift (match h with Writer d => db_get d key | Reader r => reader_get r key end).

Definition handle_scan_prefix (h : Handle) (prefix : bytes) (range : Bound * Bound) (o : KvOrder)
    : Result (list kv) :=
  lift (match h with
    | Writer d => db_scan_options d prefix range o
    | Reader r => reader_scan_options r prefix range o
    end).

(** ** Counters *)

Definition view_count_for (h : Handle) (q : QueueName) (s : JobStatus) : Result Z :=
  b ← handle_get h (stats_key q (metric_name s));
  match b with
  | None => Ok 0%Z
  | Some b => ok_or (ok (read_i64_le b)) InvalidState
  end.

Definition stats (h : Handle) (q : string) : Result QueueStats :=
  q ← QueueName_new q;
  pending ← view_count_for h q Pending;
  claimed ← view_count_for h q Claimed;
  done ← view_count_for h q Done;
  dead ← view_count_for h q Dead;
  scheduled ← view_count_for h q Scheduled;
  Ok (mkQueueStats (qn_str q) pending claimed done dead scheduled).

(** The loop of [list_queues], with the queues seen so far in order. *)
Fixpoint collect_queues (l : list kv) (seen : list string) : list string :=
  match l with
  | [] => seen
  | (k, _) :: l =>
      match parse_stats_key k with
      | None => collect_queues l seen
      | Some (q, _) => collect_queues l (if decide (q ∈ seen) then seen else seen ++ [q])
      end
  end.

Definition list_queues (h : Handle) : Result (list string) :=
  l ← handle_scan_prefix h (tag_prefix TStats) (Unbounded, Unbounded) Ascending;
  Ok (collect_queues l []).

(** ** Jobs *)

(** The key space of a listing, and whether it covers every queue. *)
Definition listing_prefix (q : QueueName) (s : JobStatus) : bytes * bool :=
  match s with
  | Pending => (pending_prefix q, false)
  | Dead => (dead_prefix q, false)
  | Claimed => (claimed_prefix q, false)
  | Scheduled => (tag_prefix TScheduled, true)
  | Done => (tag_prefix TDone, true)
  end.

(** The loop of [list_jobs]: the jobs, the last key and whether there is more. *)
Fixpoint list_loop (filter_queue : bool) (q : QueueName) (limit : nat) (l : list kv)
    (jobs : list JobRecord) (last_key : option bytes) : Result (list JobRecord * option bytes * bool) :=
  match l with
  | [] => Ok (jobs, last_key, false)
  | (k, v) :: l =>
      j ← decode_job k v;
      if filter_queue && negb (bool_decide (queue j = q))
      then list_loop filter_queue q limit l jobs last_key
      else if decide (length jobs = limit) then Ok (jobs, last_key, true)
      else list_loop filter_queue q limit l (jobs ++ [j]) (Some k)
  end.

Definition list_jobs (h : Handle) (q : string) (s : JobStatus) (cursor : option bytes) (limit : nat)
    : Result JobPage :=
  q ← QueueName_new q;
  let empty := mkJobPage [] None in
  if decide (limit = 0) then Ok empty
  else
    let '(prefix, filter_queue) := listing_prefix q s in
    match match cursor with
      | None => Some Unbounded
      | Some c => Excluded <$> strip_prefix prefix c
      end with
    | None => Ok empty
    | Some start =>
        l ← handle_scan_prefix h prefix (start, Unbounded) Ascending;
        '(jobs, last_key, more) ← list_loop filter_queue q limit l [] None;
        if more : bool then
          c ← ok_or last_key Panicked;
          Ok (mkJobPage jobs (Some c))
        else Ok (mkJobPage jobs None)
    end.

(** [QueueView::jobs]; the [n]th page is read from [h n]. *)
Definition jobs_page (h : nat → Handle) (q : string) (s : JobStatus) (page_size n : nat)
    (cursor : option bytes) : Result (list JobRecord * option bytes) :=
  page ← list_jobs (h n) q s cursor page_size;
  Ok (jobs page, next_cursor page).
Definition stream_jobs (h : nat → Handle) (q : string) (s : JobStatus) (page_size fuel : nat)
    : Result (list JobRecord) :=
  pages (jobs_page h q s page_size) fuel 0 None.

Definition dead_jobs (h : Handle) (q : string) (after : option string) (limit : nat)
    : Result (list JobRecord) :=
  qn ← QueueName_new q;
  jobs <$> list_jobs h (qn_str qn) Dead (dead_key qn <$> after) limit.

Definition indexed_job (h : Handle) (jid : string) : Result (option (bytes * JobRecord)) :=
  match h with
  | Reader r =>
      let index_key := job_index_key jid in
      current_key ← lift (reader_get r index_key);
      match current_key with
      | None => Ok None
      | Some current_key =>
          b ← lift (reader_get r current_key);
          match b with
          | None => Ok None
          | Some b => j ← decode_job current_key b; Ok (Some (index_key, j))
          end
      end
  | Writer d =>
      t ← lift (db_begin d);
      found ← get_indexed_job t jid;
      Ok (match found with Some (index_key, _, j) => Some (index_key, j) | None => None end)
  end.

Definition job_record (h : Handle) (jid : string) : Result (option JobRecord) :=
  found ← indexed_job h jid; Ok (match found with Some (_, j) => Some j | None => None end).

Definition attempt_history (h : Handle) (jid : string) : Result (list JobAttempt) :=
  b ← handle_get h (attempt_history_key jid);
  match b with None => Ok [] | Some b => decode_history b end.

(** ** The user key space *)

Definition kv_get (h : Handle) (key : bytes) : Result (option bytes) :=
  handle_get h (user_scoped_key key).

(** The loop of [kv_scan]. *)
Fixpoint kv_loop (limit : nat) (l : list kv) (acc : list kv) : KvPage :=
  match l with
  | [] => mkKvPage acc false
  | (k, v) :: l =>
      if decide (length acc = limit) then mkKvPage acc true
      else kv_loop limit l (acc ++ [(drop 1 k, v)])
  end.

Definition kv_scan (h : Handle) (prefix : bytes) (range : Bound * Bound) (o : KvOrder) (limit : nat)
    : Result KvPage :=
  let empty := mkKvPage [] false in
  match subrange prefix range with
  | None => Ok empty
  | Some range =>
      if decide (limit = 0) then Ok empty
      else
        l ← handle_scan_prefix h (user_scoped_key prefix) range o;
        Ok (kv_loop limit l [])
  end.

(** [QueueView::kv_entries]; the [n]th page is read from [h n]. *)
Definition kv_page (h : nat → Handle) (prefix : bytes) (range : Bound * Bound) (o : KvOrder)
    (page_size n : nat) (cursor : option bytes) : Result (list kv * option bytes) :=
  let range := match cursor with
    | None => range
    | Some last =>
        match o with
        | Ascending => (Excluded last, range.2)
        | Descending => (range.1, Excluded last)
        end
    end in
  page ← kv_scan (h n) prefix range o page_size;
  if more page then
    e ← ok_or (last (entries page)) Panicked;
    Ok (entries page, Some e.1)
  else Ok (entries page, None).
Definition kv_entries (h : nat → Handle) (prefix : bytes) (range : Bound * Bound) (o : KvOrder)
    (page_size fuel : nat) : Result (list kv) :=
  pages (kv_page h prefix range o page_size) fuel 0 None.

End view.
