(* ===== verification/Session.v ===== *)
(** * Open and close (taquba/src/queue.rs, taquba/src/options.rs, taquba/src/inbox.rs,
    taquba/src/claim_cursor.rs, taquba/src/liveness.rs, taquba/src/background.rs,
    taquba/src/reader.rs)

    The state of a process that opens a store, the recovery of the open, the claim
    cursor that a clean close persists, the heartbeat of the writer, the periodic tasks,
    the options of an open with their checks, and the open of a reader. *)
From S2P Require Import Prelude Bytes Error Monad Keys Job Store Stats LeaseRegistry.
From S2P Require Import TimeBound ClaimCursor Completion Txn Core QueueCore.
From S2P Require Import Control Effects Settle Enqueue Sweeps InboxEntry.
From S2P Require Import Inbox Queue View.

(** [HeartbeatRecord] and [WriterHeartbeat]. *)
Record HeartbeatRecord := mkHeartbeatRecord {
  hb_counter : Z;
  hb_at_ms : Z;
  hb_interval_ms : Z;
  hb_writer_epoch : Z;
  hb_closed : bool;
}.

Record WriterHeartbeat := mkWriterHeartbeat {
  wh_counter : Z;
  wh_at_ms : Z;
  wh_interval : Duration;
  wh_writer_epoch : Z;
  wh_closed : bool;
}.

(** [HeartbeatRecord::into_public]. *)
Definition into_public (r : HeartbeatRecord) : WriterHeartbeat :=
  mkWriterHeartbeat (hb_counter r) (hb_at_ms r) (from_millis (hb_interval_ms r))
    (hb_writer_epoch r) (hb_closed r).

(** [HeartbeatTask]. *)
Record HeartbeatTask := mkHeartbeatTask {
  ht_interval : Duration;
  next_counter : Z;
  ht_writer_epoch : Z;
}.

(** The manifest of the store, and its close. *)
Class StoreSession `{!SlateDb} := {
  manifest_writer_epoch : Db → Z;
  db_close : Db → result SlateError ();
}.

Section session.
  Context {DB : SlateDb} {OS : ObjectStore} {SR : Serde JobRecord} {SA : Serde JobAttempt}.
  Context {SC : Serde CountRecord} {EN : Env} {ST : EntryStore} {IE : InboxEnv} {SS : StoreSession}.
  Context {SE : Serde EnqueueEntry} {SCa : Serde CancelEntry} {SSi : Serde SignalEntry}.
  Context {SI : Serde InboxRecord} {SCu : Serde CursorState} {SH : Serde HeartbeatRecord}.

(** The queue core of an open on the store and the objects of [c]. The readings of
    the clock and of the random ids continue. *)
Definition core_open (c : Core) : Core :=
  mkCore (db c) (ticks c) (ulids c) (job_ids c) (tokens c) ∅ time_bound_new time_bound_new ∅
    (match inbox_state with Some _ => Some time_bound_new | None => None end)
    registry_new waiters_new (objects c) false.

(** ** The claim cursor across a close *)

(** [DbTransaction::commit]. *)
Definition raw_commit (t : DbTransaction) : Q () :=
  yield ≫= λ _,
  d ← get db;
  d ← io_result (lift (txn_commit d t));
  upd (set_db d).

Definition put_cursor (e : QueueName * CursorState) : TxnM () := t_put (cursor_key e.1) (encode e.2).

(** [persist_cursor_state]. *)
Definition persist_cursor_state : Q () :=
  states ← get (λ c, export (claim_cursor c));
  match states with
  | [] => mret tt
  | _ =>
      t ← begin;
      '(_, t) ← staging (for_each put_cursor states) t;
      raw_commit (txn t)
  end.

(** A scanned cursor record, [None] when it does not name a queue or decode. *)
Definition cursor_record (e : kv) : bytes * option (QueueName * CursorState) :=
  (e.1, q ← parse_cursor_key e.1; st ← ok (from_slice e.2); Some (q, st)).

Fixpoint restore_records (records : list (bytes * option (QueueName * CursorState))) (t : Txn) : Q Txn :=
  match records with
  | [] => mret t
  | (key, record) :: records =>
      match record with
      | Some (q, st) => upd (λ c, set_claim_cursor (restore q st (claim_cursor c)) c)
      | None => mret tt
      end ≫= λ _,
      '(_, t) ← staging (t_delete key) t;
      restore_records records t
  end.

(** [restore_cursor_state]. *)
Definition restore_cursor_state : Q () :=
  t ← begin;
  l ← io_result (lift (txn_scan_prefix (txn t) (tag_prefix TCursor) Unbounded));
  match map cursor_record l with
  | [] => mret tt
  | records =>
      t ← restore_records records t;
      raw_commit (txn t)
  end.

(** ** The heartbeat (taquba/src/liveness.rs) *)

(** [HeartbeatTask::beat]: the task moves on also when the beat fails. *)
Definition beat (closed : bool) (task : HeartbeatTask) : Q (HeartbeatTask * Result ()) :=
  now ← now_ms;
  let record := mkHeartbeatRecord (next_counter task) now (millis_u64 (ht_interval task))
    (ht_writer_epoch task) closed in
  let task := mkHeartbeatTask (ht_interval task) (wrap64 (next_counter task + 1)) (ht_writer_epoch task) in
  r ← io_try (
    d ← get db;
    d ← io_result (lift (db_put d heartbeat_key (encode record)));
    upd (set_db d) ≫= λ _,
    await_durable);
  mret (task, r).

(** [HeartbeatTask::start]. *)
Definition heartbeat_start (interval : Duration) : Q HeartbeatTask :=
  d ← get db;
  b ← io_result (lift (db_get d heartbeat_key));
  counter ← (match b with
    | Some b => r ← io_result (from_slice (A := HeartbeatRecord) b); mret (wrap64 (hb_counter r + 1))
    | None => mret 1%Z
    end : Q Z);
  '(task, r) ← beat false (mkHeartbeatTask interval counter (manifest_writer_epoch d));
  io_result r ≫= λ _,
  mret task.

(** One tick of [HeartbeatTask::run], and [HeartbeatTask::write_closing_beat]: a
    failed beat is logged. *)
Definition heartbeat_tick (task : HeartbeatTask) : Q HeartbeatTask :=
  '(task, _) ← beat false task; mret task.
Definition write_closing_beat (task : HeartbeatTask) : Q () :=
  '(_, _) ← beat true task; mret tt.

(** ** The periodic tasks (taquba/src/background.rs)

    [BackgroundTask::spawn_periodic] over [ticks] ticks until the shutdown: other tasks
    run before each step, and a step that fails is logged. *)
Fixpoint spawn_periodic {T} (step : T → Q (T * Result ())) (ticks : nat) (task : T) : Q T :=
  match ticks with
  | O => mret task
  | S ticks => yield ≫= λ _, '(task, _) ← step task; spawn_periodic step ticks task
  end.

(** ** Open and close *)

(** [seen_touch] and [Inbox::open], at the instant [now]. *)
Definition seen_touch (s : InboxState) : Q (option ObjectMeta) :=
  r ← io_try (touch_meta s);
  mret (match r with Ok meta => meta | Err _ => None end).

Definition inbox_open (now : Z) : Q (option InboxTask) :=
  match inbox_state with
  | None => mret None
  | Some s =>
      seen ← match touch_poll_interval s with Some _ => seen_touch s | None => mret None end;
      inbox_pass ≫= λ _,
      mret (Some (mkInboxTask seen (Some now)))
  end.

(** The recovery of an open: the claims of the process before are lost. *)
Definition recover : Q () :=
  restore_cursor_state ≫= λ _,
  requeue_interrupted_claims.

(** [Queue::open_with_options], from [core_open]. *)
Definition open_queue (now : Z) (heartbeat : option Duration) : Q (option InboxTask * option HeartbeatTask) :=
  recover ≫= λ _,
  inbox ← inbox_open now;
  task ← match heartbeat with
    | Some interval => t ← heartbeat_start interval; mret (Some t)
    | None => mret None
    end;
  mret (inbox, task).

(** The background tasks that it spawns, over their ticks. *)
Definition reaper_task (inbox_retention : Duration) (ticks : nat) : Q () :=
  spawn_periodic (λ _, r ← io_try (reaper_step inbox_retention); mret (tt, r)) ticks tt.
Definition scheduler_task (ticks : nat) : Q () :=
  spawn_periodic (λ _, r ← io_try promote_due_jobs; mret (tt, r)) ticks tt.
(** [HeartbeatTask::run]. *)
Definition heartbeat_run (ticks : nat) (task : HeartbeatTask) : Q HeartbeatTask :=
  spawn_periodic (beat false) ticks task.

(** [Queue::close], after the background tasks have stopped. *)
Definition close_queue (heartbeat : option HeartbeatTask) : Q () :=
  match heartbeat with Some task => write_closing_beat task | None => mret tt end ≫= λ _,
  io_try persist_cursor_state ≫= λ _,
  d ← get db;
  io_result (lift (db_close d)).

(** ** Views (taquba/src/view.rs) *)

Context {RD : SlateReads}.

(** [QueueView::inbox_record] and [QueueView::writer_heartbeat]. *)
Definition view_inbox_record (h : Handle) (q i : string) : Result (option InboxRecord) :=
  q ← QueueName_new q;
  b ← handle_get h (inbox_record_key q i);
  match b with
  | Some b => r ← from_slice b; Ok (Some r)
  | None => Ok None
  end.

Definition writer_heartbeat (h : Handle) : Result (option WriterHeartbeat) :=
  b ← handle_get h heartbeat_key;
  match b with
  | Some b => r ← from_slice b; Ok (Some (into_public r))
  | None => Ok None
  end.
End session.

(** ** The options of an open (taquba/src/options.rs, taquba/src/inbox.rs)

    The object stores of a process, by identity; the path of the object store crate, and
    the settings and the builder of SlateDB. The order in which the names of a map are
    checked is not specified. *)
Class SlateBuilder `{!SlateDb} := {
  Store : Type;
  path_prefix_matches : string → string → bool;
  Settings : Type;
  settings_default : Settings;
  set_flush_interval : Duration → Settings → Settings;
  without_compactor : Settings → Settings;
  without_garbage_collector : Settings → Settings;
  db_build : string → Store → Settings → option Store → result SlateError Db;
}.

Definition DEFAULT_INBOX_INTERVAL : Duration := from_secs 60.
Definition DEFAULT_INBOX_TOUCH_POLL_INTERVAL : Duration := from_secs 2.
Definition DEFAULT_INBOX_RECORD_RETENTION : Duration := from_secs (7 * 24 * 3600).
Definition DEFAULT_PAYLOAD_OFFLOAD_THRESHOLD : nat := 256 * 1024.
Definition default_inbox_path (path : string) : string := path +:+ "-inbox".
Definition default_payload_path (path : string) : string := path +:+ "-payloads".

Section open.
  Context {DB : SlateDb} {SB : SlateBuilder}.

Record InboxOptions := mkInboxOptions {
  io_interval : Duration;
  io_touch_poll_interval : option Duration;
  io_object_store : option Store;
  io_path : option string;
  io_queues : list string;
  io_record_retention : Duration;
}.
Definition inbox_options_new (queues : list string) : InboxOptions :=
  mkInboxOptions DEFAULT_INBOX_INTERVAL (Some DEFAULT_INBOX_TOUCH_POLL_INTERVAL) None None queues
    DEFAULT_INBOX_RECORD_RETENTION.

(** The setters of [InboxOptions]. *)
Definition inbox_options_interval (v : Duration) (o : InboxOptions) : InboxOptions :=
  mkInboxOptions v (io_touch_poll_interval o) (io_object_store o) (io_path o) (io_queues o)
    (io_record_retention o).
Definition inbox_options_touch_poll_interval (v : option Duration) (o : InboxOptions) : InboxOptions :=
  mkInboxOptions (io_interval o) v (io_object_store o) (io_path o) (io_queues o) (io_record_retention o).
Definition inbox_options_object_store (v : option Store) (o : InboxOptions) : InboxOptions :=
  mkInboxOptions (io_interval o) (io_touch_poll_interval o) v (io_path o) (io_queues o)
    (io_record_retention o).
Definition inbox_options_path (v : option string) (o : InboxOptions) : InboxOptions :=
  mkInboxOptions (io_interval o) (io_touch_poll_interval o) (io_object_store o) v (io_queues o)
    (io_record_retention o).
Definition inbox_options_record_retention (v : Duration) (o : InboxOptions) : InboxOptions :=
  mkInboxOptions (io_interval o) (io_touch_poll_interval o) (io_object_store o) (io_path o) (io_queues o) v.

(** The clock, and the interval of the metrics, are parameters of the model. *)
Record OpenOptions := mkOpenOptions {
  oo_reaper_interval : Duration;
  oo_scheduler_interval : Duration;
  oo_default_queue_config : QueueConfig;
  oo_queue_configs : gmap string QueueConfig;
  oo_flush_interval : option Duration;
  oo_liveness_heartbeat : option Duration;
  oo_payload_offload_threshold : option nat;
  oo_payload_store : option Store;
  oo_payload_path : option string;
  oo_wal_object_store : option Store;
  oo_in_process_compactor : bool;
  oo_inbox : option InboxOptions;
  oo_in_process_garbage_collector : bool;
}.
Definition open_options_default : OpenOptions :=
  mkOpenOptions (from_secs 5) (from_secs 1) config_default ∅ None None (Some DEFAULT_PAYLOAD_OFFLOAD_THRESHOLD)
    None None None true None true.

Fixpoint check_queue_names (l : list string) : Result () :=
  match l with
  | [] => Ok tt
  | q :: l => _ ← QueueName_new q; check_queue_names l
  end.

(** [InboxState::new]: the inbox with its object store and its record retention. *)
Definition inbox_state_new (o : InboxOptions) (store : Store) (path : string)
    : Result (InboxState * Store * Duration) :=
  _ ← check_queue_names (io_queues o);
  let built := Ok (mkInboxState (default (default_inbox_path path) (io_path o)) (io_interval o)
    (io_touch_poll_interval o) (list_to_set (io_queues o)), default store (io_object_store o), io_record_retention o) in
  match io_object_store o, io_path o with
  | None, Some custom =>
      if path_prefix_matches custom path then Err (InboxPathWithinQueue custom path) else built
  | _, _ => built
  end.

(** The configuration of [Queue::open_with_options] and its database. *)
Definition open_settings (o : OpenOptions) : Settings :=
  let s := match oo_flush_interval o with
    | Some d => set_flush_interval d settings_default
    | None => settings_default
    end in
  let s := if oo_in_process_compactor o then s else without_compactor s in
  if oo_in_process_garbage_collector o then s else without_garbage_collector s.

Record OpenConfig := mkOpenConfig {
  oc_db : Db;
  oc_payload_objects : Store;
  oc_payload_store : PayloadStore;
  oc_configs : QueueConfigs;
  oc_inbox : option (InboxState * Store * Duration);
}.
Definition open_config (store : Store) (path : string) (o : OpenOptions) : Result OpenConfig :=
  _ ← check_queue_names (map_to_list (oo_queue_configs o)).*1;
  inbox ← match oo_inbox o with
    | Some i => r ← inbox_state_new i store path; Ok (Some r)
    | None => Ok None
    end;
  d ← lift (db_build path store (open_settings o) (oo_wal_object_store o));
  Ok (mkOpenConfig d (default store (oo_payload_store o))
    (mkPayloadStore (default (default_payload_path path) (oo_payload_path o)) (oo_payload_offload_threshold o))
    (mkConfigs (oo_default_queue_config o) (oo_queue_configs o)) inbox).

(** The process over the configuration, with the clock, the generators and the texts of
    another one. *)
Definition open_env (c : OpenConfig) (e : Env) : Env := {|
  clock_now := @clock_now e; ulid_new := @ulid_new e; ulid_generate := @ulid_generate e;
  ulid_string := @ulid_string e; configs := oc_configs c; payload_store := oc_payload_store c;
|}.
Definition open_inbox_env (c : OpenConfig) (e : InboxEnv) : InboxEnv := {|
  inbox_state := (λ i : InboxState * Store * Duration, i.1.1) <$> oc_inbox c;
  ulid_from_string := @ulid_from_string e; error_text := @error_text e; store_error_text := @store_error_text e;
|}.

(** [Queue::open_with_options]. *)
Definition open_with_options {OS : ObjectStore} {SR : Serde JobRecord} {SA : Serde JobAttempt}
    {SC : Serde CountRecord} {ST : EntryStore} {SS : StoreSession} {SE : Serde EnqueueEntry}
    {SCa : Serde CancelEntry} {SSi : Serde SignalEntry} {SI : Serde InboxRecord} {SCu : Serde CursorState}
    {SH : Serde HeartbeatRecord} (en : Env) (ie : InboxEnv)
    (store : Store) (path : string) (o : OpenOptions) (now : Z)
    : Q (option InboxTask * option HeartbeatTask) := λ w,
  match open_config store path o with
  | Err e => (Err e, w)
  | Ok c =>
      let en := open_env c en in
      let ie := open_inbox_env c ie in
      open_queue (EN := en) (IE := ie) now (oo_liveness_heartbeat o)
        (mkWorld (core_open (IE := ie) (set_db (oc_db c) (core w))) (others w))
  end.

(** ** The open of a reader (taquba/src/reader.rs)

    The builder of a SlateDB reader, and the listing of a path of an object store, of
    which an entry can be an error. *)
Inductive ReaderMode := ManagedCheckpoint | FollowLatest.
Record ReaderOptions := mkReaderOptions {
  rdo_mode : ReaderMode;
  rdo_manifest_poll_interval : Duration;
  rdo_checkpoint_lifetime : Duration;
  rdo_payload_store : option Store;
  rdo_payload_path : option string;
  rdo_wal_object_store : option Store;
  rdo_skip_wal_replay : bool;
}.
Definition reader_options_default : ReaderOptions :=
  mkReaderOptions ManagedCheckpoint (from_secs 10) (from_secs (10 * 60)) None None None false.

(** The setters of [ReaderOptions]. *)
Definition reader_mode (v : ReaderMode) (o : ReaderOptions) : ReaderOptions :=
  mkReaderOptions v (rdo_manifest_poll_interval o) (rdo_checkpoint_lifetime o) (rdo_payload_store o)
    (rdo_payload_path o) (rdo_wal_object_store o) (rdo_skip_wal_replay o).
Definition reader_manifest_poll_interval (v : Duration) (o : ReaderOptions) : ReaderOptions :=
  mkReaderOptions (rdo_mode o) v (rdo_checkpoint_lifetime o) (rdo_payload_store o) (rdo_payload_path o)
    (rdo_wal_object_store o) (rdo_skip_wal_replay o).
Definition reader_checkpoint_lifetime (v : Duration) (o : ReaderOptions) : ReaderOptions :=
  mkReaderOptions (rdo_mode o) (rdo_manifest_poll_interval o) v (rdo_payload_store o) (rdo_payload_path o)
    (rdo_wal_object_store o) (rdo_skip_wal_replay o).
Definition reader_payload_store (v : option Store) (o : ReaderOptions) : ReaderOptions :=
  mkReaderOptions (rdo_mode o) (rdo_manifest_poll_interval o) (rdo_checkpoint_lifetime o) v
    (rdo_payload_path o) (rdo_wal_object_store o) (rdo_skip_wal_replay o).
Definition reader_payload_path (v : option string) (o : ReaderOptions) : ReaderOptions :=
  mkReaderOptions (rdo_mode o) (rdo_manifest_poll_interval o) (rdo_checkpoint_lifetime o)
    (rdo_payload_store o) v (rdo_wal_object_store o) (rdo_skip_wal_replay o).
Definition reader_wal_object_store (v : option Store) (o : ReaderOptions) : ReaderOptions :=
  mkReaderOptions (rdo_mode o) (rdo_manifest_poll_interval o) (rdo_checkpoint_lifetime o)
    (rdo_payload_store o) (rdo_payload_path o) v (rdo_skip_wal_replay o).
Definition reader_skip_wal_replay (v : bool) (o : ReaderOptions) : ReaderOptions :=
  mkReaderOptions (rdo_mode o) (rdo_manifest_poll_interval o) (rdo_checkpoint_lifetime o)
    (rdo_payload_store o) (rdo_payload_path o) (rdo_wal_object_store o) v.

Section reader.
  Context {RD : SlateReads}.
  Context (reader_build : string → Store → ReaderOptions → result SlateError DbReader).
  Context (store_list : Store → string → list (result ObjectStoreError ObjectMeta)).

(** [store_path_is_empty]. *)
Definition store_path_is_empty (store : Store) (path : string) : bool :=
  match store_list store path with [] => true | _ => false end.

(** [QueueReader]: its view, with the store of its payloads. *)
Record QueueReader := mkQueueReader {
  qr_handle : Handle;
  qr_payload_objects : Store;
  qr_payload_store : PayloadStore;
}.
(** [QueueReader::open_with_options] and [QueueReader::open]. *)
Definition reader_open_with_options (store : Store) (path : string) (o : ReaderOptions) : Result QueueReader :=
  match reader_build path store o with
  | Ok r => Ok (mkQueueReader (Reader r) (default store (rdo_payload_store o))
      (mkPayloadStore (default (default_payload_path path) (rdo_payload_path o)) None))
  | Err e =>
      if bool_decide (slate_kind e = DataKind) && store_path_is_empty store path then Err (StoreNotInitialized path)
      else Err (Storage e)
  end.
Definition reader_open (store : Store) (path : string) : Result QueueReader :=
  reader_open_with_options store path reader_options_default.
End reader.

(** ** Facts *)

Lemma check_queue_names_Ok l :
  check_queue_names l = Ok tt ↔ ∀ q, q ∈ l → ∃ n, QueueName_new q = Ok n.
Proof using Type.
  induction l as [|q l IH]; cbn; [split; [by intros _ q ?%elem_of_nil|done]|].
  destruct (QueueName_new q) as [n|e] eqn:E; cbn.
  - rewrite IH. split; intros H q' Hq; [|by apply H; right].
    apply elem_of_cons in Hq as [->|Hq]; [by exists n|by apply H].
  - split; [done|]. intros H. destruct (H q ltac:(by left)) as [n Hn]. congruence.
Qed.

(** An open that succeeds has valid queue names, in its configurations and in its inbox,
    and an inbox outside the path of its database. *)
Lemma open_config_Ok store path o c :
  open_config store path o = Ok c →
  db_build path store (open_settings o) (oo_wal_object_store o) = Ok (oc_db c) ∧
  (∀ q, is_Some (oo_queue_configs o !! q) → ∃ n, QueueName_new q = Ok n) ∧
  ∀ i, oo_inbox o = Some i →
    ∃ s objects, oc_inbox c = Some (s, objects, io_record_retention i) ∧
      (∀ q, accepts s q = true ↔ q ∈ io_queues i) ∧ (∀ q, accepts s q = true → ∃ n, QueueName_new q = Ok n) ∧
      (objects = store → io_object_store i = None → ∀ p, io_path i = Some p → path_prefix_matches p path = false).
Proof using Type.
  unfold open_config. destruct (check_queue_names (map_to_list _).*1) as [[]|] eqn:Eq; [|done]. cbn.
  assert (Hq : ∀ q, is_Some (oo_queue_configs o !! q) → ∃ n, QueueName_new q = Ok n).
  { intros q [cfg Hc]. apply (proj1 (check_queue_names_Ok _) Eq). apply list_elem_of_fmap.
    exists (q, cfg). split; [done|]. by apply elem_of_map_to_list. }
  destruct (oo_inbox o) as [i|]; cbn.
  - unfold inbox_state_new. destruct (check_queue_names (io_queues i)) as [[]|] eqn:Ei; [|done]. cbn.
    set (s := mkInboxState _ _ _ _).
    assert (Hs : ∀ q, accepts s q = true ↔ q ∈ io_queues i).
    { intros q. unfold accepts. rewrite bool_decide_eq_true. cbn. apply elem_of_list_to_set. }
    destruct (match io_object_store i with Some _ => _ | None => _ end) as [r|] eqn:Er; [|done]. cbn.
    destruct (db_build _ _ _ _) as [d|] eqn:Ed; [|done]. intros [= <-]. cbn. split; [done|]. split; [done|].
    intros i' [= <-].
    assert (Hn : ∀ q, accepts s q = true → ∃ n, QueueName_new q = Ok n)
      by (intros q Ha; apply (proj1 (check_queue_names_Ok _) Ei), Hs, Ha).
    destruct (io_object_store i) as [st|]; [|destruct (io_path i) as [p|]; [destruct (path_prefix_matches p path) eqn:Ep|]];
      simplify_eq; (eexists s, _; split; [reflexivity|]); (split; [done|]); (split; [done|]); intros _ ? p' ?; by simplify_eq.
  - destruct (db_build _ _ _ _) as [d|] eqn:Ed; [|done]. by intros [= <-].
Qed.
End open.
