(* ===== verification/Listing.v ===== *)
(** * What a view lists (taquba/src/view.rs)

    The pages of jobs and of the user key space as pages of the listing of the
    store's contents, and the arithmetic of prefixes and ranges behind them. *)
From stdpp Require Import sorting.
From S2P Require Import Prelude Bytes Error Keys Job Store Stats Txn StoreInv View.

#[global] Instance follows_dec o : RelDecision (follows o).
Proof. intros a b. unfold follows. destruct o; apply _. Defined.
#[global] Instance follows_trans o : Transitive (follows o).
Proof. intros a b c. destruct o; cbn; intros; by eapply bytes_lt_trans. Qed.
#[global] Instance follows_irrefl o : Irreflexive (follows o).
Proof. intros a. unfold complement, follows. destruct o; by rewrite bytes_lt_irrefl. Qed.

Lemma follows_app o p a b : follows o (p ++ a) (p ++ b) ↔ follows o a b.
Proof. destruct o; cbn; by rewrite bytes_lt_app_l. Qed.

(** ** Ranges within a prefix *)

Lemma strip_prefix_None_lt p k s :
  strip_prefix p k = None → bytes_lt k p = true → bytes_lt k (p ++ s) = true.
Proof.
  revert k. induction p as [|x p IH]; intros [|y k]; cbn; try done.
  destruct (decide (x = y)) as [->|Hne].
  - rewrite Z.ltb_irrefl, Z.eqb_refl. apply IH.
  - intros _. destruct (Z.ltb_spec y x); [done|]. by rewrite (proj2 (Z.eqb_neq y x)) by done.
Qed.

Lemma strip_prefix_None_ge p k s :
  strip_prefix p k = None → bytes_lt k p = false → bytes_lt (p ++ s) k = true.
Proof.
  revert k. induction p as [|x p IH]; intros [|y k]; cbn; try done.
  destruct (decide (x = y)) as [->|Hne].
  - rewrite Z.ltb_irrefl, Z.eqb_refl. apply IH.
  - intros _. destruct (Z.ltb_spec y x); [done|]. rewrite (proj2 (Z.eqb_neq y x)) by done.
    intros _. by rewrite (proj2 (Z.ltb_lt x y)) by lia.
Qed.

Lemma bytes_le_app_l p a b : bytes_le (p ++ a) (p ++ b) = bytes_le a b.
Proof. unfold bytes_le. by rewrite bytes_lt_app_l. Qed.

(** The bounds on the whole key, as bounds on the part after the prefix. *)
Lemma side_start p b s :
  scan_start_ok b (p ++ s) = match side p b with
    | Before => true | Within b' => scan_start_ok b' s | After => false end.
Proof.
  destruct b as [|k|k]; cbn; [done|..]; destruct (strip_prefix p k) as [k'|] eqn:E.
  - apply strip_prefix_Some in E as ->. apply bytes_le_app_l.
  - destruct (bytes_lt k p) eqn:El.
    + by apply bytes_lt_le, strip_prefix_None_lt.
    + unfold bytes_le. by rewrite strip_prefix_None_ge.
  - apply strip_prefix_Some in E as ->. apply bytes_lt_app_l.
  - destruct (bytes_lt k p) eqn:El; [by apply strip_prefix_None_lt|].
    by apply bytes_lt_asym, strip_prefix_None_ge.
Qed.

Lemma side_end p b s :
  scan_end_ok b (p ++ s) = match side p b with
    | Before => false | Within b' => scan_end_ok b' s | After => true end.
Proof.
  destruct b as [|k|k]; cbn; [done|..]; destruct (strip_prefix p k) as [k'|] eqn:E.
  - apply strip_prefix_Some in E as ->. apply bytes_le_app_l.
  - destruct (bytes_lt k p) eqn:El.
    + unfold bytes_le. by rewrite strip_prefix_None_lt.
    + by apply bytes_lt_le, strip_prefix_None_ge.
  - apply strip_prefix_Some in E as ->. apply bytes_lt_app_l.
  - destruct (bytes_lt k p) eqn:El; [|by apply strip_prefix_None_ge].
    by apply bytes_lt_asym, strip_prefix_None_lt.
Qed.

(** A bound pair that the store's test calls empty has no key. *)
Lemma empty_bounds start end' s :
  match start, end' with
  | Included a, Included b => bytes_le a b
  | Included a, Excluded b | Excluded a, Included b | Excluded a, Excluded b => bytes_lt a b
  | Unbounded, _ | _, Unbounded => true
  end = false → in_bounds (start, end') s = false.
Proof.
  intros H. apply not_true_iff_false. unfold in_bounds. cbn. intros [H1 H2]%andb_true_iff.
  apply not_true_iff_false in H. apply H.
  destruct start as [|a|a], end' as [|b|b]; cbn in *; try done.
  - by eapply bytes_le_trans.
  - by eapply bytes_le_lt_trans.
  - by eapply bytes_lt_le_trans.
  - by eapply bytes_lt_trans.
Qed.

(** [subrange] selects among the keys within the prefix those of the range. *)
Lemma subrange_spec p range s :
  in_bounds range (p ++ s) = match subrange p range with
    | None => false | Some r => in_bounds r s end.
Proof.
  unfold subrange, in_bounds at 1. rewrite side_start, side_end.
  destruct (side p range.1) as [|b1|]; cbn [mbind option_bind]; [| |done].
  - destruct (side p range.2) as [|b2|]; cbn [mbind option_bind andb]; done.
  - destruct (side p range.2) as [|b2|]; cbn [mbind option_bind]; [by rewrite andb_false_r| |].
    + destruct (match b1 with Unbounded => true | Included a => _ | Excluded a => _ end) eqn:E.
      * done.
      * exact (empty_bounds b1 b2 s E).
    + destruct b1; done.
Qed.

Section listing.
  Context {DB : SlateDb} {DL : SlateDbLaws merge_batch} {RD : SlateReads}.
  Context {RL : SlateReadsLaws merge_batch} {SR : Serde JobRecord} {SA : Serde JobAttempt}.
  #[local] Set Default Proof Using "Type DL RL".
  Implicit Types (m : gmap bytes bytes) (h : Handle).

(** What a handle reads. *)
Definition handle_contents h : gmap bytes bytes :=
  match h with Writer d => contents d | Reader r => reader_contents r end.

Lemma handle_get_Ok h k x : handle_get h k = Ok x → x = handle_contents h !! k.
Proof. destruct h; cbn; intros H%lift_Ok; [by apply db_get_law|by apply reader_get_law]. Qed.

Lemma handle_scan_Ok h p r o l :
  handle_scan_prefix h p r o = Ok l → is_range_scan (handle_contents h) p r o l.
Proof. destruct h; cbn; intros H%lift_Ok; [by apply db_scan_options_law|by apply reader_scan_options_law]. Qed.

(** ** Pages of the user key space *)

(** The entries of the user key space within a prefix and a range. *)
Definition kv_entry m (p : bytes) (range : Bound * Bound) (k : bytes) (e : kv) : Prop :=
  e.1 = k ∧ m !! user_scoped_key k = Some e.2 ∧ (∃ s, k = p ++ s) ∧ in_bounds range k = true.

Lemma kv_loop_spec limit l acc :
  length acc ≤ limit →
  kv_loop limit l acc =
    mkKvPage (acc ++ ((λ e : kv, (drop 1 e.1, e.2)) <$> take (limit - length acc) l))
      (bool_decide (limit - length acc < length l)).
Proof.
  revert acc. induction l as [|[k v] l IH]; intros acc Hacc; cbn [kv_loop].
  - rewrite take_nil, bool_decide_eq_false_2 by (cbn; lia). cbn. by rewrite app_nil_r.
  - case_decide as Hlen.
    + rewrite Hlen, Nat.sub_diag, bool_decide_eq_true_2 by (cbn; lia). cbn. by rewrite app_nil_r.
    + rewrite IH by (rewrite length_app; cbn; lia). rewrite length_app. cbn [length].
      destruct (limit - length acc) as [|n] eqn:En; [lia|].
      replace (limit - (length acc + 1)) with n by lia. cbn [take]. rewrite fmap_cons, <- app_assoc.
      f_equal. apply bool_decide_ext. cbn. lia.
Qed.

(** A page of a scan is a page of the listing of the range. *)
Lemma kv_scan_listing h p range o limit page :
  0 < limit → kv_scan h p range o limit = Ok page →
  ∃ l, is_listing (follows o) (kv_entry (handle_contents h) p range) l ∧
    page = mkKvPage (take limit l).*2 (bool_decide (limit < length l)).
Proof.
  intros Hlim. unfold kv_scan. pose proof (subrange_spec p range) as Hsub.
  destruct (subrange p range) as [r|].
  2: { intros [= <-]. exists []. rewrite take_nil. split; [|done].
       split; [constructor|]. intros k e. split; [by intros ?%elem_of_nil|].
       intros (_ & _ & [s ->] & Hb). by rewrite Hsub in Hb. }
  rewrite decide_False by lia. intros (raw & Hs%handle_scan_Ok & [= <-])%bind_Ok.
  rewrite kv_loop_spec by (cbn; lia). cbn [length app]. rewrite Nat.sub_0_r.
  exists ((λ e : kv, (drop 1 e.1, (drop 1 e.1, e.2))) <$> raw). destruct Hs as [Hsort Hm].
  assert (Hraw : ∀ k v, (k, v) ∈ raw → ∃ s, k = user_scoped_key (p ++ s)).
  { intros k v (_ & s & -> & _)%Hm. exists s. done. }
  split; [split|].
  - unfold sorted_keys. clear Hm. induction Hsort as [|[k v] raw _ IH Hx]; cbn; [constructor|].
    constructor; [apply IH; intros k' v' Hin; apply (Hraw k' v'); by right|].
    apply Forall_fmap, Forall_forall. intros [k' v'] Hin. rewrite Forall_forall in Hx.
    specialize (Hx _ Hin). cbn in *. destruct (Hraw k v) as [s ->]; [by left|].
    destruct (Hraw k' v') as [s' ->]; [by right|]. by apply (follows_app o [tag_id TUser]) in Hx.
  - intros k e. rewrite list_elem_of_fmap. split.
    + intros ([k0 v0] & [= -> ->] & Hin). pose proof Hin as (Hv & s & -> & Hb)%Hm. cbn.
      split; [done|]. split; [done|]. split; [by exists s|]. change (in_bounds range (p ++ s) = true). by rewrite Hsub.
    + intros (<- & Hv & [s Hk] & Hb). exists (user_scoped_key e.1, e.2). cbn.
      split; [by destruct e|]. apply Hm. split; [done|]. exists s. rewrite Hk in *.
      split; [done|]. by rewrite <- Hsub.
  - rewrite length_fmap, <- fmap_take, <- list_fmap_compose. done.
Qed.

(** A page of the stream of entries is what its cursor leaves. *)
Lemma kv_page_law (hs : nat → Handle) p range o limit n c r :
  0 < limit → (∀ k, c = Some k → in_bounds range k = true) →
  kv_page hs p range o limit n c = Ok r →
  ∃ rest, is_listing (follows o) (after (follows o) (kv_entry (handle_contents (hs n)) p range) c) rest ∧
    r = page_of limit rest.
Proof.
  intros Hlim Hc H. unfold kv_page in H. apply bind_Ok in H as (page & Hp & H).
  apply kv_scan_listing in Hp as (l & [Hs Hm] & ->); [|done]. cbn [more entries] in H.
  exists l. split.
  - split; [done|]. intros k e. rewrite Hm. unfold kv_entry, after. clear H Hm.
    destruct c as [last|]; [|by split; [intros; split|intros [? _]]]. specialize (Hc last eq_refl).
    unfold in_bounds in *. apply andb_true_iff in Hc as [Hc1 Hc2]. rewrite !andb_true_iff.
    assert (H : ∀ k', k' = last ∨ follows o last k' →
      match o with Ascending => scan_start_ok range.1 k' = true | Descending => scan_end_ok range.2 k' = true end).
    { intros k' [->|Hf]; [by destruct o|]. destruct o; cbn in Hf.
      - destruct (range.1) as [|a|a]; cbn in *; [done|..].
        + by eapply bytes_le_trans, bytes_lt_le.
        + by eapply bytes_lt_trans.
      - destruct (range.2) as [|a|a]; cbn in *; [done|..].
        + eapply bytes_le_trans; [by apply bytes_lt_le|done].
        + by eapply bytes_lt_trans. }
    destruct o; cbn; (split; [intros (? & ? & ? & [? ?])|intros [(? & ? & ? & [? ?]) Hf]]).
    + split; [|by intros ? [= <-]]. split_and!; try done. apply (H k). by right.
    + split_and!; try done. by apply Hf.
    + split; [|by intros ? [= <-]]. split_and!; try done. apply (H k). by right.
    + split_and!; try done. by apply Hf.
  - unfold page_of. case_decide as Hlen.
    + rewrite bool_decide_eq_true_2 in H by done. rewrite fmap_last in H.
      destruct (last (take limit l)) as [[k e]|] eqn:El; [|done]. cbn in H. injection H as <-.
      f_equal. cbn. apply last_Some_elem_of in El.
      assert (Hin : (k, e) ∈ l) by (eapply elem_of_sublist; [done|apply sublist_take]).
      by apply Hm in Hin as [<- _].
    + rewrite bool_decide_eq_false_2 in H by done. by injection H as <-.
Qed.

(** The stream of entries is in order and within the prefix and the range, has only
    what a page found, and has every key that all pages find. *)
Lemma kv_entries_sound (hs : nat → Handle) p range o page_size fuel l :
  0 < page_size → kv_entries hs p range o page_size fuel = Ok l →
  StronglySorted (λ a b, follows o a.1 b.1) l ∧
  (∀ k v, (k, v) ∈ l → (∃ i, handle_contents (hs i) !! user_scoped_key k = Some v) ∧
     (∃ suffix, k = p ++ suffix) ∧ in_bounds range k = true) ∧
  (∀ k, (∃ suffix, k = p ++ suffix) → in_bounds range k = true →
     (∀ i, is_Some (handle_contents (hs i) !! user_scoped_key k)) → ∃ v, (k, v) ∈ l).
Proof.
  intros Hlim. unfold kv_entries.
  set (P i := kv_entry (handle_contents (hs i)) p range).
  set (valid k := in_bounds range k = true).
  assert (HP : ∀ n k v, P n k v → valid k) by by intros n k v (_ & _ & _ & ?).
  assert (Hlaw := λ n c r Hc, kv_page_law hs p range o page_size n c r Hlim Hc).
  intros H. destruct (pages_sound (follows o) P page_size valid _ Hlim HP Hlaw fuel 0 None l)
    as (rows & -> & Hs & Hin & Hall); [done..|].
  assert (Hrow : ∀ e, e ∈ rows → e.2.1 = e.1).
  { intros e He. destruct (Hin e He) as (_ & i & _ & Hk & _). exact Hk. }
  split; [|split].
  + clear -Hs Hrow. induction Hs as [|x rows _ IH Hx]; cbn; [constructor|].
    constructor; [apply IH; intros; apply Hrow; by right|].
    apply Forall_fmap, Forall_forall. intros y Hy. rewrite Forall_forall in Hx.
    specialize (Hx y Hy). assert (Ex := Hrow x ltac:(by left)). assert (Ey := Hrow y ltac:(by right)).
    destruct x as [k [k' v]], y as [k2 [k2' v2]]. cbn in *. by subst.
  + intros k v ([k' e] & E & He)%list_elem_of_fmap_1. cbn in E. subst e.
    destruct (Hin _ He) as (_ & i & _ & Hk & Hv & Hp & Hb). cbn [fst snd] in *. subst k'.
    split; [by exists i|done].
  + intros k Hp Hb Hex. destruct (Hall k) as [[k' v] He].
    { done. }
    { intros i _. destruct (Hex i) as [v Hv]. by exists (k, v). }
    exists v. apply list_elem_of_fmap. exists (k, (k', v)). split; [|done].
    specialize (Hrow _ He). cbn in Hrow. by subst.
Qed.

(** ** Pages of jobs *)

(** The records of a queue in a state. *)
Definition job_entry m (q : QueueName) (s : JobStatus) (k : bytes) (j : JobRecord) : Prop :=
  job_at m k = Some j ∧ status j = s ∧ queue j = q.

(** The rows of a scan that [list_loop] keeps. *)
Definition row (filter_queue : bool) (q : QueueName) (e : kv) : option (bytes * JobRecord) :=
  j ← ok (decode_job e.1 e.2);
  if filter_queue && negb (bool_decide (queue j = q)) then None else Some (e.1, j).

Lemma list_loop_Ok f q limit l jobs last_key r :
  length jobs ≤ limit → list_loop f q limit l jobs last_key = Ok r →
  let rows := omap (row f q) l in
  r = (jobs ++ (take (limit - length jobs) rows).*2,
       match last (take (limit - length jobs) rows) with Some x => Some x.1 | None => last_key end,
       bool_decide (limit - length jobs < length rows)).
Proof.
  cbn zeta. revert jobs last_key. induction l as [|[k v] l IH]; intros jobs last_key Hlen; cbn [list_loop].
  - intros [= <-]. cbn. rewrite take_nil. cbn. by rewrite app_nil_r, bool_decide_eq_false_2 by lia.
  - intros (j & Hj & H)%bind_Ok.
    assert (Hrow : omap (row f q) (@cons kv (k, v) l) =
      if f && negb (bool_decide (queue j = q)) then omap (row f q) l else (k, j) :: omap (row f q) l).
    { cbn [omap list_omap]. unfold row at 1. cbn [fst snd]. rewrite Hj. cbn. by destruct (f && _). }
    rewrite Hrow. clear Hrow. destruct (f && _) eqn:Ef; [by apply IH|].
    case_decide as Hfull.
    + injection H as <-. rewrite Hfull, Nat.sub_diag. cbn. by rewrite app_nil_r.
    + apply IH in H as ->; [|rewrite length_app; cbn; lia].
      rewrite length_app. cbn [length]. destruct (limit - length jobs) as [|n] eqn:En; [lia|].
      replace (limit - (length jobs + 1)) with n by lia. cbn [take]. rewrite fmap_cons, <- app_assoc.
      f_equal; [f_equal|].
      * rewrite last_cons. by destruct (last (take n _)).
      * apply bool_decide_ext. cbn. lia.
Qed.

(** The records of a state lie under the prefix of its listing, and those under a
    queue's prefix are of the queue. *)
Lemma listing_prefix_spec m q s k j :
  store_ok m → job_at m k = Some j →
  (∃ suffix, k = (listing_prefix q s).1 ++ suffix) ∧ ((listing_prefix q s).2 = true → queue j = q) ↔
  status j = s ∧ queue j = q.
Proof.
  intros Hok Hj. apply job_at_Some in Hj as (b & Hb & Hd). pose proof (decode_job_status _ _ _ Hd) as Hst.
  destruct (ok_record _ Hok k b Hb) as (j' & Hd' & Hk & _); [by rewrite Hst|].
  rewrite Hd in Hd'. injection Hd' as <-. split.
  - intros [[x ->] Hf].
    assert (Hs : status j = s).
    { destruct s; cbn [listing_prefix fst] in Hst; unfold record_status in Hst;
        revert Hst; unfold pending_prefix, claimed_prefix, dead_prefix, queue_prefix, tag_prefix;
        rewrite <- ?app_assoc, tag_of_header; cbn; by intros [= <-]. }
    split; [done|]. destruct s; cbn [listing_prefix fst snd] in *; [|auto..].
    all: unfold stored_key in Hk; rewrite Hs in Hk; apply Ok_inj in Hk;
      unfold pending_key, claimed_key, dead_key, queue_first_key, pending_prefix, claimed_prefix,
        dead_prefix, queue_prefix in Hk; rewrite <- !app_assoc in Hk;
      apply header_app_inj in Hk as [_ Hk]; by apply push_queue_app_inj in Hk as [<- _].
  - intros [<- <-]. split; [|done]. unfold stored_key in Hk. destruct (status j); cbn.
    all: try (apply bind_Ok in Hk as (? & _ & Hk)); apply Ok_inj in Hk as <-;
      eexists; unfold pending_key, claimed_key, dead_key, scheduled_key, done_key, time_first_key,
        queue_first_key, pending_prefix, claimed_prefix, dead_prefix, queue_prefix, tag_prefix;
      rewrite <- ?app_assoc; done.
Qed.

(** The rows of a scan, in the order of their keys. *)
Lemma rows_listing m q s start l :
  store_ok m →
  is_range_scan m (listing_prefix q s).1 (start, Unbounded) Ascending l →
  is_listing (follows Ascending)
    (λ k j, job_entry m q s k j ∧
       ∃ suffix, k = (listing_prefix q s).1 ++ suffix ∧ scan_start_ok start suffix = true)
    (omap (row (listing_prefix q s).2 q) l).
Proof.
  intros Hok [Hs Hm].
  assert (Hrow : ∀ f e k j, row f q e = Some (k, j) ↔
    e.1 = k ∧ decode_job k e.2 = Ok j ∧ (f = true → queue j = q)).
  { intros f [k' v] k j. unfold row. cbn. destruct (decode_job k' v) as [j'|] eqn:Ed; cbn.
    2: { split; [done|]. intros (<- & E & _). by rewrite Ed in E. }
    destruct f; cbn; [case_bool_decide as Hq; cbn|]; split.
    - intros [= <- <-]. done.
    - intros (<- & E & _). rewrite Ed in E. by injection E as <-.
    - done.
    - intros (<- & E & Hf). rewrite Ed in E. injection E as <-. by destruct Hq; apply Hf.
    - intros [= <- <-]. done.
    - intros (<- & E & _). rewrite Ed in E. by injection E as <-. }
  split.
  - clear Hm. induction Hs as [|e l _ IH Hx]; cbn; [constructor|]. unfold sorted_keys in *.
    destruct (row _ q e) as [[k j]|] eqn:Er; [|done]. constructor; [done|].
    apply Forall_forall. intros [k' j'] (e' & Hin & Er')%list_elem_of_omap. cbn.
    apply Hrow in Er as [<- _]. apply Hrow in Er' as [<- _]. rewrite Forall_forall in Hx. by apply Hx.
  - intros k j. rewrite list_elem_of_omap. unfold job_entry, in_bounds in *. cbn in Hm. split.
    + intros ([k' v] & (Hv & Hk)%Hm & (E & Hd & Hf)%Hrow). cbn [fst snd] in E, Hd. subst k'.
      destruct Hk as (suffix & Hk & Hb). rewrite andb_true_r in Hb. assert (Hj : job_at m k = Some j) by (apply job_at_Some; by exists v).
      split; [|by exists suffix]. split; [done|].
      apply (listing_prefix_spec m q s k j Hok Hj). split; [by exists suffix|done].
    + intros ((Hj & Hsq) & suffix & Hk & Hb). pose proof Hj as (v & Hv & Hd)%job_at_Some.
      apply (listing_prefix_spec m q s k j Hok Hj) in Hsq as [_ Hf].
      exists (k, v). split; [|by apply Hrow]. apply Hm. split; [done|]. exists suffix.
      split; [done|]. by rewrite andb_true_r.
Qed.

Lemma list_jobs_listing h q s c limit page :
  store_ok (handle_contents h) → 0 < limit →
  (∀ k, c = Some k → ∃ suffix, k = (listing_prefix q s).1 ++ suffix) →
  list_jobs h (qn_str q) s c limit = Ok page →
  ∃ rest, is_listing (follows Ascending) (after (follows Ascending) (job_entry (handle_contents h) q s) c) rest ∧
    (jobs page, next_cursor page) = page_of limit rest.
Proof.
  intros Hok Hlim Hc. unfold list_jobs. rewrite QueueName_new_qn_str. cbn [mbind result_bind].
  rewrite decide_False by lia. pose proof (listing_prefix_spec (handle_contents h) q s) as Hspec.
  pose proof (rows_listing (handle_contents h) q s) as Hrows.
  destruct (listing_prefix q s) as [prefix f]. cbn [fst snd] in *.
  assert (Hstart : ∃ start, match c with
      | None => Some Unbounded | Some c => Excluded <$> strip_prefix prefix c end = Some start ∧
    ∀ k j, job_entry (handle_contents h) q s k j →
      (∃ suffix, k = prefix ++ suffix ∧ scan_start_ok start suffix = true) ↔
      ∀ k', c = Some k' → follows Ascending k' k).
  { assert (Hp : ∀ k j, job_entry (handle_contents h) q s k j → ∃ suffix, k = prefix ++ suffix).
    { intros k j [Hj Hsq]. by apply (Hspec k j Hok Hj) in Hsq as [? _]. }
    destruct c as [k0|].
    - destruct (Hc k0 eq_refl) as [x ->]. rewrite strip_prefix_app. eexists. split; [done|].
      intros k j [suffix ->]%Hp. split.
      + intros (y & E & Hb) k' [= <-]. apply app_inv_head in E as <-. cbn. by rewrite bytes_lt_app_l.
      + intros H. exists suffix. split; [done|]. specialize (H _ eq_refl). cbn in H.
        by rewrite bytes_lt_app_l in H.
    - exists Unbounded. split; [done|]. intros k j [suffix ->]%Hp. split; [done|]. by exists suffix. }
  destruct Hstart as (start & -> & Hstart).
  intros (l & Hl%handle_scan_Ok & H)%bind_Ok.
  specialize (Hrows start l Hok Hl). apply bind_Ok in H as ([[js lk] mo] & Hloop & H).
  apply list_loop_Ok in Hloop; [|cbn; lia]. cbn [length app] in Hloop. rewrite Nat.sub_0_r in Hloop.
  injection Hloop as -> -> ->. exists (omap (row f q) l). split.
  - destruct Hrows as [Hs Hm]. split; [done|]. intros k j. rewrite Hm. unfold after.
    split; intros [Hj Hb]; (split; [done|]); by apply (Hstart k j Hj).
  - unfold page_of. case_decide as Hlen.
    + rewrite bool_decide_eq_true_2 in H by done.
      destruct (last (take limit (omap (row f q) l))) as [x|]; [|done]. by injection H as <-.
    + rewrite bool_decide_eq_false_2 in H by done. by injection H as <-.
Qed.

(** A page of the stream of jobs is what its cursor leaves. *)
Lemma jobs_page_law (hs : nat → Handle) q s limit n c r :
  (∀ i, store_ok (handle_contents (hs i))) → 0 < limit →
  (∀ k, c = Some k → ∃ suffix, k = (listing_prefix q s).1 ++ suffix) →
  jobs_page hs (qn_str q) s limit n c = Ok r →
  ∃ rest, is_listing (follows Ascending) (after (follows Ascending) (job_entry (handle_contents (hs n)) q s) c) rest ∧
    r = page_of limit rest.
Proof.
  intros Hok Hlim Hc (page & Hp & [= <-])%bind_Ok. by eapply list_jobs_listing.
Qed.

Lemma job_entry_prefix m q s k j :
  store_ok m → job_entry m q s k j → ∃ suffix, k = (listing_prefix q s).1 ++ suffix.
Proof. intros Hok [Hj Hsq]. by apply (listing_prefix_spec m q s k j Hok Hj) in Hsq as [? _]. Qed.

(** ** The size of a listing *)

Lemma listing_size {T} m o (P : bytes → T → Prop) (f : bytes → bytes) l :
  Inj (=) (=) f → (∀ k v, P k v → is_Some (m !! f k)) → is_listing (follows o) P l → length l ≤ size m.
Proof.
  intros Hf HP [Hs Hm]. rewrite <- size_dom, <- (length_fmap (f ∘ fst)).
  assert (Hnd : NoDup ((f ∘ fst) <$> l)).
  { rewrite list_fmap_compose. apply (NoDup_fmap_2 f).
    clear Hm. induction Hs as [|x l _ IH Hx]; cbn; constructor; [|done].
    intros (y & E & Hin)%list_elem_of_fmap. rewrite Forall_forall in Hx. specialize (Hx y Hin). cbn in Hx.
    rewrite E in Hx. by apply (irreflexivity (follows o) y.1). }
  rewrite <- (size_list_to_set (C := gset bytes)) by done. apply subseteq_size.
  intros k. rewrite elem_of_list_to_set, elem_of_dom.
  intros ([k' v] & -> & Hin)%list_elem_of_fmap. eapply HP. by apply Hm.
Qed.
End listing.
