(* ===== verification/OpsOk.v ===== *)
(** * The calls of the queue preserve the invariant

    One theorem per call: from any process that satisfies the invariant, with any
    other tasks that preserve it running in between, the call ends in one, with
    its outcome or with any error. *)
From S2P Require Import Prelude Bytes Error Monad Keys Job Store Stats LeaseRegistry.
From S2P Require Import TimeBound ClaimCursor Completion Txn Stage StoreInv Sound Core.
From S2P Require Import QueueCore Control Effects Claim Settle Enqueue.
From S2P Require Import Sweeps CoreInv StagedOps.

Section ops.
  Context {DB : SlateDb} {OS : ObjectStore} {SR : Serde JobRecord} {SA : Serde JobAttempt}.
  Context {SC : Serde CountRecord} {EN : Env} {DL : SlateDbLaws merge_batch} {CI : Invariant}.
  #[local] Existing Instance no_ids.
  Implicit Types (t : Txn) (j : JobRecord).

Abbreviation nobody := (λ _ : string, False).

(** A step of staged writes inside a body. *)
Lemma keeps_step {A B} R N (m : TxnM A) t (f : A * Txn → Q (B * Txn)) P :
  sound t → (∀ r, m t = Ok r → step_ok N t r.2) →
  (∀ a t', m t = Ok (a, t') → step_ok N t t' → sound t' → keeps R (f (a, t')) P) →
  keeps R (staging m t ≫= f) P.
Proof.
  intros Ht Hm Hf. apply keeps_staging. intros a t' E. specialize (Hm _ E).
  apply Hf; [done|done|apply Hm].
Qed.

Lemma retry_nobody {T} durability (body : Txn → Q (Attempt T * Txn)) :
  (∀ t, sound t → keeps (mkRely CI) (body t) (λ _ t', sound t')) →
  preserves world_ok (retry durability body).
Proof.
  intros H w Hw. apply (retry_ok nobody (mkRely CI)); [by intros c _ i| | |by apply world_with_self].
  - apply may_insert_none.
  - apply body_ok_keeps. intros t Ht _. by apply H.
Qed.

(** ** Claims *)

Lemma fire_wf tok r : registry_wf r → registry_wf (fire tok r).
Proof. done. Qed.

Lemma job_ok_claim_record now j :
  job_ok j → status j = Pending ∨ status j = Scheduled → job_ok (leave_waits (claim_record now j)).
Proof.
  unfold job_ok, leave_waits. intros (H & _) Hs. cbn. case_decide as D; [done|]. cbn.
  split; [|split; [done|by intros []]].
  destruct Hs as [Hs|Hs]; rewrite Hs in H; destruct H as (_ & _ & ? & ?); by eauto.
Qed.

Definition pending_same t t' (from : bytes) : Prop :=
  ∀ k, record_status k = Some Pending → k ≠ from → tview t' !! k = tview t !! k.

(** A claim id that is drawn is usable to the call and under its reliance. *)
Lemma keeps_new_claim_id {A} R (f : Z → Q (A * Txn)) P :
  (∀ cid, usable CI cid ∧ usable (reliance R) cid → keeps R (f cid) P) → keeps R (new_claim_id ≫= f) P.
Proof.
  intros Hf w Hw. apply (Hf (next_claim_id (core w))).
  - split; apply inv_usable; apply Hw.
  - by apply (new_ulid_fresh R w).
Qed.

Lemma keeps_claim_job R t from j now le :
  sound t → job_at (tview t) from = Some j → status j = Pending ∨ status j = Scheduled →
  keeps R (claim_job from j now le t) (λ _ t', sound t' ∧ pending_same t t' from).
Proof.
  intros Ht Hj Hs. unfold claim_job.
  destruct (store_ok_job _ _ _ (sound_view _ Ht) Hj) as (Hkj & Hjok & _).
  apply keeps_new_claim_id. intros cid Hcid. apply keeps_staging. intros j1 t1 Hm.
  apply keeps_bind; [apply new_token_fresh|]. intros tok.
  apply keeps_bind; [destruct (cancel_requested j1);
    [apply upd_registry_fresh; intros; apply fire_step|apply preserves_ret]|]. intros _.
  apply keeps_bind; [apply upd_registry_fresh; intros U r HU; by apply lease_insert_step, HU|]. intros _.
  apply keeps_staging. intros [] t2 Hr. apply keeps_ret.
  apply move_job_Ok in Hm as (key & -> & Hk & Hst1 & Hd1).
  destruct (leave_waits_fields (claim_record now j)) as (Fi & Fq & Fs & Fd).
  apply release_Ok in Hr as [Hst2 Hd2]. cbn [snd] in *.
  rewrite Fq in Hst2. change (queue (claim_record now j)) with (queue j) in Hst2.
  split.
  - eapply (sound_move t t2 from key j (leave_waits (claim_record now j)) (dedup_key j)); try done.
    + by eapply stages_trans.
    + by apply job_ok_claim_record.
    + right. by rewrite Fd.
    + rewrite Hd2. exact Hd1.
  - intros k Hkp Hne. rewrite (stages_tview _ _ _ (stages_trans _ _ _ _ _ Hst1 Hst2)).
    apply run_lookup_ne. intros w [Hw|Hw]%elem_of_app Hwk.
    + pose proof (record_status_stored _ _ Hk) as Hrk. rewrite Fs in Hrk. cbn in Hrk.
      unfold move_writes in Hw. case_decide as D.
      * apply list_elem_of_singleton in Hw as ->. cbn in Hwk. congruence.
      * unfold put_writes in Hw. rewrite !elem_of_cons, elem_of_nil in Hw.
        destruct Hw as [->|[->|[->|[]]]]; cbn in Hwk; try congruence. subst k. done.
    + destruct (dedup_key j); [|by apply elem_of_nil in Hw].
      apply list_elem_of_singleton in Hw as ->. cbn in Hwk. by subst k.
Qed.

(** The candidates of a scan that are still in the view, each once. *)
Definition candidates_ok t (l : list kv) : Prop :=
  NoDup l.*1 ∧ ∀ k v, (k, v) ∈ l → tview t !! k = Some v ∧ record_status k = Some Pending.

Lemma keeps_claim_candidates R l t now le :
  sound t → candidates_ok t l → keeps R (claim_candidates l now le t) (λ _ t', sound t').
Proof.
  revert t. induction l as [|[k v] l IH]; cbn; intros t Ht [Hnd Hl]; [by apply keeps_ret|].
  apply NoDup_cons in Hnd as [Hni Hnd].
  destruct (Hl k v) as [Hv Hk]; [by left|].
  apply keeps_result. intros j Hj.
  assert (Hat : job_at (tview t) k = Some j) by (apply job_at_Some; eauto).
  eapply keeps_seq.
  { apply keeps_claim_job; [done|done|]. left. apply decode_job_status in Hj. congruence. }
  intros c t1 [Ht1 Hsame]. eapply keeps_seq.
  { apply IH; [done|]. split; [done|]. intros k' v' Hin. destruct (Hl k' v') as [Hv' Hk']; [by right|].
    split; [|done]. rewrite Hsame; [done|done|]. intros ->. apply Hni.
    apply list_elem_of_fmap. by exists (k, v'). }
  intros cs t2 Ht2. by apply keeps_ret.
Qed.

Lemma key_lt_NoDup (l : list kv) : StronglySorted key_lt l → NoDup l.*1.
Proof.
  induction 1 as [|a l Hs IH Hf]; cbn; [constructor|]. apply NoDup_cons. split; [|done].
  intros Hin. apply list_elem_of_fmap in Hin as (b & E & Hb).
  rewrite Forall_forall in Hf. apply Hf in Hb. unfold key_lt in Hb. rewrite E, bytes_lt_irrefl in Hb.
  done.
Qed.

Lemma pending_prefix_status q s : record_status (pending_prefix q ++ s) = Some Pending.
Proof. done. Qed.

Lemma scan_candidates_ok t q start l n :
  txn_scan_prefix (txn t) (pending_prefix q) start = Ok l → candidates_ok t (take n l).
Proof.
  intros H. apply scan_law in H as [Hs Hl]. split.
  - apply key_lt_NoDup in Hs. rewrite fmap_take.
    apply (sublist_NoDup _ (l.*1)); [done|apply sublist_take].
  - intros k v Hin. apply elem_of_take in Hin as (i & Hin & _).
    apply list_elem_of_lookup_2, Hl in Hin as (Hk & suffix & -> & _). split; [exact Hk|].
    apply pending_prefix_status.
Qed.

Lemma upd_cursor_ok f : preserves world_ok (upd_cursor f).
Proof. by apply upd_frame. Qed.

Lemma preserves_begin {A} (f : Txn → Q A) :
  (∀ t, sound t → preserves world_ok (f t)) → preserves world_ok (begin ≫= f).
Proof.
  intros Hf w Hw. unfold mbind, IO_bind. destruct (begin w) as [[t|e] w1] eqn:Eb.
  - destruct (begin_ok w t w1 Hw Eb) as [Ht ->]. by apply Hf.
  - cbn. pose proof (begin_err w) as E. rewrite Eb in E. cbn in E. by subst.
Qed.

Lemma preserves_result_bind {A B} (r : Result A) (f : A → Q B) :
  (∀ a, r = Ok a → preserves world_ok (f a)) → preserves world_ok (io_result r ≫= f).
Proof. intros Hf w Hw. unfold mbind, IO_bind, io_result. destruct r; [by apply Hf|done]. Qed.

Lemma preserves_keeps {A B} (m : Q (A * Txn)) (f : A * Txn → Q B) P :
  keeps (mkRely CI) m P → (∀ a t, P a t → preserves world_ok (f (a, t))) → preserves world_ok (m ≫= f).
Proof.
  intros Hm Hf w Hw. destruct (Hm w (world_with_self w Hw)) as [Hw1 HP].
  unfold mbind, IO_bind. destruct (m w) as [[[a t]|e] w1]; [|apply Hw1].
  apply Hf; [by eapply HP|apply Hw1].
Qed.

Lemma preserves_commit {A} t d (f : Commit → Q A) :
  sound t → (∀ o, preserves world_ok (f o)) → preserves world_ok (commit t d ≫= f).
Proof.
  intros Ht Hf. apply preserves_bind; [|done]. intros w Hw.
  apply (commit_ok (mkRely CI)); [apply may_insert_none|done|by apply world_with_self].
Qed.

Lemma claim_batch_locked_ok q n lease : preserves world_ok (claim_batch_locked q n lease).
Proof.
  intros w. unfold claim_batch_locked. generalize (S (length (others w))) as fuel. intros fuel. revert w.
  induction fuel as [|fuel IH]; [apply preserves_err|]. cbn [claim_batch_loop].
  apply preserves_bind; [apply preserves_gets|]. intros scan.
  destruct (start_known_empty scan); [apply preserves_ret|].
  apply preserves_bind; [apply yield_ok|]. intros _. apply preserves_begin. intros t Ht.
  apply preserves_bind; [apply yield_ok|]. intros _.
  apply preserves_result_bind. intros l Hl%lift_Ok%(scan_candidates_ok _ _ _ _ n).
  cbn zeta. destruct (last (take n l)) as [last_kv|].
  - apply preserves_bind; [apply now_ms_ok|]. intros now.
    eapply preserves_keeps; [by apply keeps_claim_candidates|]. intros cs t1 Ht1.
    apply preserves_bind; [apply yield_ok|]. intros _.
    apply preserves_commit; [done|]. intros []; [|exact IH].
    apply preserves_bind; [apply upd_cursor_ok|]. intros _.
    apply preserves_bind; [|intros; apply preserves_ret].
    destruct (bool_decide _); [apply upd_cursor_ok|apply preserves_ret].
  - apply preserves_bind; [apply upd_cursor_ok|]. intros _. apply preserves_ret.
Qed.

Lemma materialize_payloads_ok cs : preserves world_ok (materialize_payloads cs).
Proof.
  apply quiet_ok. unfold materialize_payloads. apply quiet_bind.
  - apply quiet_mapM. intros c. apply quiet_try, quiet_materialize.
  - intros r. apply quiet_bind; [apply quiet_result|]. intros. apply quiet_ret.
Qed.

Lemma core_claim_batch_ok q n lease : preserves world_ok (core_claim_batch q n lease).
Proof.
  unfold core_claim_batch. apply preserves_bind; [apply preserves_gets|]. intros b.
  apply preserves_bind.
  { destruct b; [|apply preserves_ret]. apply preserves_bind; [apply preserves_gets|]. intros d.
    apply preserves_bind; [apply preserves_result|]. intros. apply preserves_ret. }
  intros _. apply preserves_bind; [apply preserves_gets|]. intros [].
  - apply preserves_ret.
  - apply preserves_bind; [apply claim_batch_locked_ok|]. intros. apply materialize_payloads_ok.
Qed.

(** A transition of the job of an id. *)
Lemma transition_ok {T} jid d (missing : Result T) (tr : Txn → bytes → JobRecord → Q (Attempt T * Txn)) :
  (∀ t k j, sound t → job_at (tview t) k = Some j → id j = jid →
    keeps (mkRely CI) (tr t k j) (λ _ t', sound t')) →
  preserves world_ok (transition_by_id jid d missing tr).
Proof.
  intros H. apply retry_nobody. intros t Ht. apply keeps_result.
  intros [[[ik k] j]|] Hf.
  - apply H; [done|by eapply found_job_at|by eapply found_id].
  - apply keeps_result. intros v _. by apply keeps_ret.
Qed.

Lemma claim_by_id_ok jid lease : preserves world_ok (claim_by_id jid lease).
Proof.
  apply preserves_bind.
  - apply transition_ok. intros t k j Ht Hj _.
    destruct (_ || _) eqn:Hs; [|by apply keeps_ret].
    apply keeps_bind; [apply now_ms_fresh|]. intros now. eapply keeps_seq.
    + apply keeps_claim_job; [done|done|].
      apply orb_true_iff in Hs as [Hs%bool_decide_eq_true|Hs%bool_decide_eq_true]; auto.
    + intros c t1 [Ht1 _]. by apply keeps_ret.
  - intros [c|o]; [|apply preserves_ret].
    apply preserves_bind; [apply materialize_payloads_ok|]. intros [|c' cs];
      [apply preserves_err|apply preserves_ret].
Qed.

(** ** The end of a claim *)

Lemma finish_claim_end_ok j e cid claim : preserves world_ok (finish_claim_end j e cid claim).
Proof.
  unfold finish_claim_end. apply preserves_bind; [apply yield_ok|]. intros _.
  apply preserves_bind; [apply upd_registry_ok; intros; apply lease_remove_step|]. intros _.
  apply preserves_bind; [case_decide; [apply quiet_ok, quiet_delete_for|apply preserves_ret]|].
  intros _. apply preserves_bind; [apply preserves_gets|]. intros b.
  destruct (_ || _); [apply preserves_ret|]. apply preserves_bind.
  - destruct (payload_ref j), claim; try apply preserves_ret.
    apply preserves_bind; [apply preserves_try, quiet_ok, quiet_materialize|]. intros. apply preserves_ret.
  - intros d. by apply upd_frame.
Qed.

Lemma finish_effects_ok p rs : preserves world_ok (finish_effects p rs).
Proof. apply quiet_ok, quiet_finish_effects. Qed.

(** ** Revival, cancel, wake and signal *)

Lemma job_ok_revive j :
  job_ok j → status j = Dead →
  job_ok (leave_waits (set_run_at None (set_status Pending (revive_record j)))).
Proof.
  unfold job_ok, leave_waits. intros (H & _ & Hd) Hs. cbn. case_decide as D; [done|]. cbn.
  rewrite Hs in *. destruct H as (_ & ? & _ & _). split; [done|]. split; [done|]. by left.
Qed.

Lemma requeue_dead_job_ok jid : preserves world_ok (requeue_dead_job jid).
Proof.
  apply preserves_bind; [|intros; apply preserves_ret]. apply transition_ok.
  intros t k j Ht Hj _. case_decide as Hs; [|apply keeps_err].
  destruct (store_ok_job _ _ _ (sound_view _ Ht) Hj) as (Hkj & Hjok & _).
  apply keeps_staging. intros j1 t1 H1. unfold stage_to_pending in H1.
  assert (Ht1 : sound t1).
  { eapply sound_move_job; try done. by apply job_ok_revive. }
  apply move_job_Ok in H1 as (key & -> & Hk & Hst & _).
  apply keeps_bind; [apply now_ms_fresh|]. intros now. apply keeps_staging. intros [] t2 H2.
  apply keeps_ret.
  set (j1 := leave_waits (set_run_at None (set_status Pending (revive_record j)))) in *.
  destruct (leave_waits_fields (set_run_at None (set_status Pending (revive_record j))))
    as (Fi & Fq & Fs & Fd). fold j1 in Fi, Fq, Fs, Fd.
  assert (Hne : k ≠ key).
  { intros ->. destruct (stored_key_inj _ _ _ Hkj Hk) as (_ & _ & E). rewrite Fs, Hs in E. done. }
  unfold move_writes in Hst. rewrite decide_False in Hst by done.
  apply (sound_append t1 (id j1) (mkAttempt 0 None now ORequeued None) (tt, t2)); [done| | |done].
  - apply (stages_tracked _ _ _ Hst (WPut (job_index_key (id j1)) key)). unfold put_writes. set_solver.
  - rewrite (stages_tview _ _ _ Hst). cbn. rewrite lookup_insert_eq. by eexists.
Qed.

Lemma wake_scheduled_ok jid : preserves world_ok (wake_scheduled jid).
Proof.
  apply preserves_bind; [|intros; apply preserves_ret]. apply retry_nobody. intros t Ht.
  apply keeps_staging. intros a t1 H. apply keeps_ret. by apply (step_stage_wake _ _ _ (a, t1) Ht H).
Qed.

Lemma signal_job_ok jid pl : preserves world_ok (signal_job jid pl).
Proof.
  apply retry_nobody. intros t Ht. apply keeps_staging. intros a t1 H. apply keeps_ret.
  unfold stage_signal in H. apply M_bind_Ok in H as (r & t2 & H & Hr).
  injection Hr as <- <-. by apply (step_stage_wake _ _ _ (r, t2) Ht H).
Qed.

Lemma finish_cancel_ok s : preserves world_ok (finish_cancel s).
Proof.
  destruct s; cbn; repeat (apply preserves_bind; intros);
    first [apply preserves_ret | apply upd_registry_ok; intros; apply lease_cancel_step
          | by apply upd_frame].
Qed.

(** ** The sweeps *)

Lemma with_scan_ok {A} bound set_bound now ret (idle : A) body :
  (∀ b c, db (set_bound b c) = db c ∧ lease_registry (set_bound b c) = lease_registry c ∧
    job_ids (set_bound b c) = job_ids c ∧ ulids (set_bound b c) = ulids c) →
  (∀ s, preserves world_ok (body s)) → preserves world_ok (with_scan bound set_bound now ret idle body).
Proof.
  intros Hs Hb. apply preserves_bind; [apply preserves_gets|]. intros b.
  destruct (tb_begin now ret b) as [[s|] b'].
  - apply preserves_bind; [by apply upd_frame|]. intros _.
    apply preserves_bind; [apply preserves_try, Hb|]. intros [[a s']|e];
      (apply preserves_bind; [by apply upd_frame|]; intros); [apply preserves_ret|apply preserves_err].
  - apply preserves_bind; [by apply upd_frame|]. intros _. apply preserves_ret.
Qed.

(** A scan of the store reads entries of a store that satisfies the invariant. *)
Lemma db_scan_bind {A} prefix start (f : list kv → Q A) :
  (∀ m l, store_ok m → is_scan m prefix start l → preserves world_ok (f l)) →
  preserves world_ok (db_scan prefix start ≫= f).
Proof.
  intros Hf w Hw. unfold db_scan, get, io_gets, mbind, IO_bind, io_result. cbn.
  destruct (db_scan_prefix _ _ _) as [l|e] eqn:E; cbn; [|done].
  eapply Hf; [apply (core_store _ (world_core w Hw))|by eapply db_scan_law|done].
Qed.

Lemma promote_job_ok k : record_status k = Some Scheduled → preserves world_ok (promote_job k).
Proof.
  intros Hk. apply preserves_bind; [|intros; apply preserves_ret]. apply retry_nobody. intros t Ht.
  apply keeps_staging. intros raw t1 H1. apply t_get_Ok in H1. injection H1 as -> ->.
  destruct (tview t !! k) as [b|] eqn:Hb; [|by apply keeps_ret].
  apply keeps_result. intros j Hj. apply keeps_staging. intros j' t2 H2. apply keeps_ret.
  assert (Hat : job_at (tview t) k = Some j) by (apply job_at_Some; eauto).
  destruct (store_ok_job _ _ _ (sound_view _ Ht) Hat) as (_ & Hjok & _).
  apply decode_job_status in Hj. unfold stage_to_pending in H2.
  eapply sound_move_job; try done. apply job_ok_to_pending; [done|congruence].
Qed.

Lemma due_keys_in tag l s k at' : (k, at') ∈ (due_keys tag l s).1 → k ∈ l.*1.
Proof.
  revert s. induction l as [|[k0 v0] l IH]; intros s; [by intros ?%elem_of_nil|].
  cbn [due_keys]. rewrite fmap_cons.
  destruct (parse_key_timestamp k0 tag); [|intros ?%IH; by right].
  destruct (scan_due s _); [|by intros ?%elem_of_nil].
  specialize (IH s). destruct (due_keys tag l s). cbn in *.
  intros [[= -> ->]|?]%elem_of_cons; [by left|right; by apply IH].
Qed.

Lemma preserves_for_each_in {A} (f : A → Q ()) l :
  (∀ a, a ∈ l → preserves world_ok (f a)) → preserves world_ok (io_for_each f l).
Proof.
  induction l as [|a l IH]; cbn; intros H; [apply preserves_ret|].
  apply preserves_bind; [apply H; by left|]. intros _. apply IH. intros b ?. apply H. by right.
Qed.

Lemma scan_prefix_in m p start l k : is_scan m p start l → k ∈ l.*1 → ∃ suffix, k = p ++ suffix.
Proof.
  intros [_ Hl] Hin. apply list_elem_of_fmap in Hin as ([k' v] & -> & Hin).
  apply Hl in Hin as (_ & suffix & -> & _). by exists suffix.
Qed.

Lemma promote_due_jobs_ok : preserves world_ok promote_due_jobs.
Proof.
  apply preserves_bind; [apply now_ms_ok|]. intros now. apply with_scan_ok; [done|]. intros s.
  apply db_scan_bind. intros m l _ Hl.
  destruct (due_keys TScheduled l s) as [due s'] eqn:Ed.
  apply preserves_bind; [apply yield_ok|]. intros _.
  apply preserves_bind; [|intros; apply preserves_ret].
  apply preserves_for_each_in. intros [k at'] Hin. apply promote_job_ok.
  assert (Hk : k ∈ l.*1) by (eapply due_keys_in; by rewrite Ed).
  eapply scan_prefix_in in Hk as [suffix ->]; [|done]. done.
Qed.

Lemma reap_job_ok lease : preserves world_ok (reap_job lease).
Proof.
  unfold reap_job. set (q := due_queue lease). set (jid := due_id lease). apply preserves_bind.
  - apply retry_nobody. intros t Ht. apply keeps_bind; [apply preserves_gets|]. intros reg.
    destruct (lease_current q jid reg) as [[e c]|]; [|by apply keeps_ret].
    case_decide; [|by apply keeps_ret].
    apply keeps_staging. intros raw t1 H1. apply t_get_Ok in H1. injection H1 as -> ->.
    destruct (tview t !! claimed_key q jid) as [b|] eqn:Hb.
    + apply keeps_result. intros j Hj. apply keeps_bind; [apply now_ms_fresh|]. intros now.
      apply keeps_staging. intros j' t2 H2. apply keeps_ret.
      assert (Hat : job_at (tview t) (claimed_key q jid) = Some j) by (apply job_at_Some; eauto).
      destruct (claimed_record _ _ _ _ (sound_view _ Ht) Hat) as (<- & <- & _).
      eapply step_claim_end; [done|apply stages_refl|by left|done|done|done].
    + apply keeps_bind; [apply upd_registry_fresh; intros; apply lease_remove_step|]. intros _.
      by apply keeps_ret.
  - intros [[j e]|]; [apply finish_claim_end_ok|apply preserves_ret].
Qed.

Lemma reap_all_ok due : preserves world_ok (reap_all due).
Proof.
  induction due as [|lease due IH]; [apply preserves_ret|]. cbn [reap_all].
  apply preserves_bind; [apply preserves_try, reap_job_ok|].
  intros [u|[]]; try exact IH. apply preserves_err.
Qed.

(** A record found by a retention scan, and what its removal needs of the record
    then stored at its key. *)
Definition victim_ok (k : bytes) j : Prop :=
  stored_key j = Ok k ∧ dedup_key j = None ∧ (status j = Done ∨ status j = Dead).

Lemma sweep_victim_ok k j refs : victim_ok k j → preserves world_ok (sweep_victim k j refs).
Proof.
  intros (Hk & Hd & Hs). apply preserves_begin. intros t Ht.
  apply preserves_bind; [apply yield_ok|]. intros _.
  apply preserves_result_bind. intros [raw t1] Hg. apply t_get_Ok in Hg. injection Hg as -> ->.
  apply preserves_result_bind. intros [[] t2] Hr.
  assert (Ht2 : sound t2).
  { case_bool_decide as Hex; [|by inv_m]. destruct Hex as [b Hb].
    destruct (store_ok_job_at _ k b (sound_view _ Ht) Hb) as [j0 Hj0].
    { by eapply stored_key_record. }
    destruct (store_ok_job _ _ _ (sound_view _ Ht) Hj0) as (Hk0 & (_ & _ & Hd0) & _).
    destruct (stored_key_inj _ _ _ Hk Hk0) as (Hi & Hq & Es).
    apply (sound_stage_remove _ _ _ _ _ Ht Hr Hj0 Hi Hq). rewrite Hd.
    destruct (dedup_key j0); [|done]. rewrite <- Es in Hd0.
    destruct Hd0 as [E|E]; [by eexists|destruct Hs; congruence..]. }
  apply preserves_bind; [apply yield_ok|]. intros _.
  apply preserves_commit; [done|]. intros []; apply preserves_ret.
Qed.

Lemma expired_records_in tag now rf l os k j a :
  (k, j, a) ∈ (expired_records tag now rf l os).1 → ∃ v, (k, v) ∈ l ∧ decode_job k v = Ok j.
Proof.
  revert os. induction l as [|[k0 v0] l IH]; intros os; [by intros ?%elem_of_nil|].
  assert (IH' : ∀ os, (k, j, a) ∈ (expired_records tag now rf l os).1 →
    ∃ v, (k, v) ∈ (k0, v0) :: l ∧ decode_job k v = Ok j).
  { intros os' (v & ? & ?)%IH. exists v. split; [by right|done]. }
  cbn [expired_records]. destruct (decode_job k0 v0) as [j0|] eqn:E.
  - assert (Hc : ∀ ks os o, expired_records tag now rf l os = (ks, o) →
      (k, j, a) ∈ (k0, j0, parse_key_timestamp k0 tag) :: ks →
      ∃ v, (k, v) ∈ (k0, v0) :: l ∧ decode_job k v = Ok j).
    { intros ks os' o Eo [[= -> -> _]|?]%elem_of_cons; [exists v0; split; [by left|done]|].
      apply (IH' os'). by rewrite Eo. }
    assert (Hn : (k, j, a) ∈ @nil (bytes * JobRecord * option Z) →
      ∃ v, (k, v) ∈ (k0, v0) :: l ∧ decode_job k v = Ok j) by (by intros ?%elem_of_nil).
    destruct os, (parse_key_timestamp k0 tag); repeat case_match; simplify_eq/=; eauto 7.
  - destruct os, (parse_key_timestamp k0 tag); [destruct (scan_due _ _)|..]; try apply IH'.
    by intros ?%elem_of_nil.
Qed.

Lemma scanned_victim_ok m tag start l k v j st :
  store_ok m → is_scan m (tag_prefix tag) start l → tag_job_status tag = Some st →
  st = Done ∨ st = Dead → (k, v) ∈ l → decode_job k v = Ok j → victim_ok k j.
Proof.
  intros Hm [_ Hl] Htag Hst Hin Hj. apply Hl in Hin as (Hk & suffix & E & _).
  assert (Hat : job_at m k = Some j) by (apply job_at_Some; eauto).
  destruct (store_ok_job _ _ _ Hm Hat) as (Hkj & (_ & _ & Hd) & _).
  assert (Es : status j = st).
  { apply decode_job_status in Hj. rewrite E in Hj. unfold record_status, tag_prefix in Hj.
    rewrite tag_of_header in Hj. cbn in Hj. congruence. }
  split; [done|]. split; [|by rewrite Es]. destruct (dedup_key j); [|done]. rewrite Es in Hd.
  destruct Hd as [?|?]; [by eexists|destruct Hst; congruence..].
Qed.

Lemma sweep_victims_ok vs os refs :
  (∀ k j a, (k, j, a) ∈ vs → victim_ok k j) → preserves world_ok (sweep_victims vs os refs).
Proof.
  revert os refs. induction vs as [|[[k j] a] vs IH]; intros os refs Hv; [apply preserves_ret|].
  cbn [sweep_victims]. apply preserves_bind; [apply sweep_victim_ok, (Hv k j a); by left|].
  intros [gone refs']. apply IH. intros k' j' a' ?. eapply Hv. by right.
Qed.

Lemma delete_all_quiet refs : quiet (delete_all refs).
Proof.
  apply quiet_bind; [|intros; apply quiet_ret]. apply quiet_bind; [apply quiet_objects|].
  intros. apply quiet_ret.
Qed.

Lemma sweep_scanned_ok tag st now rf start os :
  tag_job_status tag = Some st → st = Done ∨ st = Dead →
  preserves world_ok (sweep_scanned tag now rf start os).
Proof.
  intros Htag Hst. apply db_scan_bind. intros m l Hm Hl.
  destruct (expired_records tag now rf l os) as [vs os'] eqn:Ee.
  apply preserves_bind; [apply yield_ok|]. intros _. apply preserves_bind.
  - apply sweep_victims_ok. intros k j a Hin.
    destruct (expired_records_in tag now rf l os k j a) as (v & Hv & Hd); [by rewrite Ee|].
    by eapply scanned_victim_ok.
  - intros [os2 refs]. apply preserves_bind; [|intros; apply preserves_ret].
    destruct refs; [apply preserves_ret|]. apply preserves_bind; [apply preserves_gets|]. intros d.
    apply preserves_bind; [apply preserves_result|]. intros _. apply quiet_ok, delete_all_quiet.
Qed.

Lemma sweep_expired_ok st rf mr : preserves world_ok (sweep_expired st rf mr).
Proof.
  unfold sweep_expired. destruct st; try apply preserves_err.
  - apply preserves_bind; [apply now_ms_ok|]. intros now. destruct mr as [r|].
    + apply with_scan_ok; [done|]. intros s. apply preserves_bind; [|intros; apply preserves_ret].
      eapply sweep_scanned_ok; [done|by left].
    + apply preserves_bind; [eapply sweep_scanned_ok; [done|by left]|]. intros. apply preserves_ret.
  - apply preserves_bind; [apply now_ms_ok|]. intros now.
    apply preserves_bind; [eapply sweep_scanned_ok; [done|by right]|]. intros. apply preserves_ret.
Qed.

End ops.

Section inserting.
  Context {DB : SlateDb} {OS : ObjectStore} {SR : Serde JobRecord} {SA : Serde JobAttempt}.
  Context {SC : Serde CountRecord} {EN : Env} {DL : SlateDbLaws merge_batch} {CI : Invariant}.
  Context {UL : UlidLaws}.
  Implicit Types (t : Txn) (j : JobRecord).

(** The reliance [J] of a call on the ids it generates for the requests [rs]: once
    they are drawn, none is in use until the call inserts its jobs, whatever the
    other tasks do. *)
Definition fresh_under (rs : list EnqueueRequest) (w : World) : Prop :=
  let n := job_ids (core w) in
  let k := ids_needed rs in
  requests_fresh rs n ∧ world_ok w ∧
  ∃ J : Rely,
    (∀ c, rely J c → absent (generated n k) c) ∧ may_insert (NI := requested rs n k) J ∧
    ∀ w', at_world w (n + k) w' →
      world_ok (CI := reliance J) w'.

Lemma fresh_under_ok rs w : fresh_under rs w → world_ok w.
Proof. by intros (_ & ? & _). Qed.

(** Requests that supply their ids rely on nothing. *)
Lemma fresh_under_self rs w :
  ids_needed rs = 0 → may_insert (NI := requested rs (job_ids (core w)) 0) (mkRely CI) → world_ok w →
  fresh_under rs w.
Proof.
  intros E HJ Hw. unfold fresh_under, requests_fresh. rewrite E.
  assert (Hn : ∀ i, ¬ generated (job_ids (core w)) 0 i) by (intros i (m & a & ? & _); lia).
  split; [intros r i _ _; apply Hn|]. split; [done|]. exists (mkRely CI).
  split; [by intros c _ i ?%Hn|]. split; [done|]. intros w' (? & ? & ? & Hle & ?). cbn.
  apply (world_ok_at w); [done|]. split_and!; [done..|lia|done].
Qed.

Lemma fresh_under_nil w : world_ok w → fresh_under [] w.
Proof.
  intros Hw. apply fresh_under_self; [done| |done]. intros c c' Hc _ Hc' En Eu Er Hi.
  eapply inv_step; [exact Hc|done|apply advances_same; [done|by rewrite En|by rewrite Eu]|]. intros i Hu.
  destruct (Hi i Hu) as [?|[(r & []%elem_of_nil & _)|(m & a & ? & _)]]; [done|lia].
Qed.

(** A call that prepares its effects, and then runs a body that stages them. *)
Lemma preserves_prepared {A} e w (f : PreparedEffects → Q A) :
  fresh_under (enqueues e) w →
  (∀ (NI : NewIds) J R p w', (∀ c, rely J c → absent R c) → may_insert J →
    (∀ t, (∀ i, R i → tview t !! job_index_key i = None) → batch_ok t (prepared_jobs p)) →
    world_with J w' → world_ok (f p w').2) →
  world_ok ((prepare_effects e ≫= f) w).2.
Proof using UL.
  intros (Hsup & Hw & J & HR & HJ & Hw') Hf. unfold mbind, IO_bind.
  pose proof (quiet_ok _ (quiet_prepare_effects e) w Hw) as Hw1.
  destruct (quiet_at _ w (quiet_prepare_effects e)) as (Ed & Er & Eo & _ & Eu).
  destruct (prepare_effects e w) as [[p|err] w1] eqn:E; [|apply Hw1]. cbn [snd] in *.
  eapply (Hf _ J _ p w1 HR HJ).
  - intros t Hn. by eapply (prepare_effects_batch (NI := requested _ _ _)).
  - split; [done|]. apply Hw'. split_and!; [done..| |done]. by eapply prepare_effects_ids.
Qed.

Lemma world_ok_bind {A B} (m : Q A) (f : A → Q B) w :
  world_ok (m w).2 → (∀ a, preserves world_ok (f a)) → world_ok ((m ≫= f) w).2.
Proof.
  intros Hm Hf. unfold mbind, IO_bind. destruct (m w) as [[a|e] w1]; [by apply Hf|done].
Qed.

Lemma world_ok_try {A} (m : Q A) w : world_ok (m w).2 → world_ok (io_try m w).2.
Proof. unfold io_try. by destruct (m w). Qed.

Lemma settle_claim_ok claim e end_for w :
  fresh_under (enqueues e) w → world_ok (settle_claim claim e end_for w).2.
Proof using UL.
  intros Hw. apply preserves_prepared; [done|]. intros NI J R p w1 HR HJ Hb Hw1.
  apply world_ok_bind.
  - apply world_ok_try, (retry_ok R J); [done..| |done]. apply body_ok_keeps. intros t Ht Hn.
    apply keeps_bind; [apply preserves_gets|]. intros reg.
    apply keeps_staging. intros j t1 H1. apply keeps_bind; [apply now_ms_fresh|]. intros now.
    apply keeps_staging. intros j' t2 H2.
    pose proof (step_take_and_end _ _ _ _ _ _ _ _ _ _ _ Ht H1 H2) as Hs.
    assert (Ht2 : sound t2) by apply Hs.
    destruct (is_terminal _); [|by apply keeps_ret].
    apply keeps_bind; [apply preserves_gets|]. intros reg'.
    apply keeps_staging. intros rs t3 H3. apply keeps_ret.
    apply (step_stage_effects reg' p t2 (rs, t3)); [done| |done].
    eapply batch_ok_step; [exact Hs| |by apply Hb]. apply Forall_true. by intros p' _ [].
  - intros settled. apply preserves_bind; [apply finish_effects_ok|]. intros results.
    apply preserves_bind; [apply preserves_result|]. intros [[j e'] s].
    apply preserves_bind; [apply finish_claim_end_ok|]. intros. apply preserves_ret.
Qed.

End inserting.

(** *** Consistency alone

    A call that generates ids keeps consistency when they are new: no record has
    one, and no other task enqueues one. *)
Section fresh_for.
  Context {DB : SlateDb} {OS : ObjectStore} {SR : Serde JobRecord} {SA : Serde JobAttempt}.
  Context {SC : Serde CountRecord} {EN : Env} {DL : SlateDbLaws merge_batch}.

Record world_fresh (R : string → Prop) (w : World) : Prop := {
  fresh_ok : world_ok w;
  fresh_absent : absent R (core w);
  fresh_others : Forall (λ f, ∀ c, core_ok c → absent R c → absent R (f c)) (others w);
}.

(** The reliance of a call on the ids it generates for the requests [rs]. *)
Definition fresh_for (rs : list EnqueueRequest) (w : World) : Prop :=
  requests_fresh rs (job_ids (core w)) ∧
  world_fresh (generated (job_ids (core w)) (ids_needed rs)) w.

Program Definition inv_absent (R : string → Prop) : Invariant :=
  {| inv c := core_ok c ∧ absent R c;
     peer f := ∀ c, core_ok c ∧ absent R c → core_ok (f c) ∧ absent R (f c); usable _ := True |}.
Next Obligation. by intros R c []. Qed.
Next Obligation. done. Qed.
Next Obligation.
  intros R c c' [_ Ha] Hc' _ Hi. split; [done|]. intros i HR. apply eq_None_not_Some.
  intros [b Hb]%Hi. by rewrite Ha in Hb.
Qed.
Next Obligation. intros R f c Hf Hc. exact (Hf c Hc). Qed.

Lemma fresh_for_under rs w : fresh_for rs w → fresh_under rs w.
Proof.
  intros [Hsup [Hw Ha Ho]]. split; [done|]. split; [done|].
  exists (mkRely (inv_absent (generated (job_ids (core w)) (ids_needed rs)))).
  split; [by intros c []|]. split; [by intros c c' _ _ ?|]. intros w' (Ed & Er & Eo & En & Eu).
  assert (Hw' : world_ok w') by (eapply world_ok_at; [exact Hw|]; split_and!; [done..|lia|done]).
  split; [split; [apply Hw'|]|].
  - intros i Hi. rewrite Ed. by apply Ha.
  - rewrite Eo. destruct Hw as [_ Hw]. rewrite Forall_forall in Hw, Ho. apply Forall_forall.
    intros f Hf c [Hc HR]. split; [by apply Hw|by apply Ho].
Qed.

(** Requests that supply their ids rely on nothing. *)
Lemma fresh_for_supplied rs w : ids_needed rs = 0 → world_ok w → fresh_for rs w.
Proof.
  intros E Hw. unfold fresh_for, requests_fresh. rewrite E.
  assert (Hn : ∀ i, ¬ generated (job_ids (core w)) 0 i) by (intros i (m & a & ? & _); lia).
  split; [intros r i _ _; apply Hn|]. constructor; [done|by intros i ?%Hn|].
  apply Forall_true. intros f c _ _. by intros i ?%Hn.
Qed.

End fresh_for.
