(* ===== verification/CallsOk.v ===== *)
(** * The calls of the handle preserve the invariant

    The settlements, cancels, enqueues, sweeps, renewals and user key calls,
    from the lemmas of [OpsOk]. *)
From S2P Require Import Prelude Bytes Error Monad Keys Job Store Stats LeaseRegistry.
From S2P Require Import TimeBound ClaimCursor Completion Txn Stage StoreInv Sound Core.
From S2P Require Import QueueCore Control Effects Claim Settle Enqueue.
From S2P Require Import Sweeps Queue CoreInv StagedOps OpsOk.

Section calls.
  Context {DB : SlateDb} {OS : ObjectStore} {SR : Serde JobRecord} {SA : Serde JobAttempt}.
  Context {SC : Serde CountRecord} {EN : Env} {DL : SlateDbLaws merge_batch} {CI : Invariant}.
  Implicit Types (t : Txn) (j : JobRecord).

(** ** Settlements and cancels *)

Context {UL : UlidLaws}.

Lemma ack_with_ok claim e w : fresh_under (enqueues e) w → world_ok (ack_with claim e w).2.
Proof using DL UL.
  intros Hw. apply world_ok_bind; [by apply settle_claim_ok|]. intros []. apply preserves_ret.
Qed.

Lemma nack_with_ok claim msg e w : fresh_under (enqueues e) w → world_ok (nack_with claim msg e w).2.
Proof using DL UL.
  intros Hw. apply world_ok_bind; [by apply settle_claim_ok|]. intros []. apply preserves_ret.
Qed.

Lemma dead_letter_with_ok claim reason e w :
  fresh_under (enqueues e) w → world_ok (dead_letter_with claim reason e w).2.
Proof using DL UL.
  intros Hw. apply world_ok_bind; [by apply settle_claim_ok|]. intros []. apply preserves_ret.
Qed.

Lemma cancel_with_ok jid e w : fresh_under (enqueues e) w → world_ok (cancel_with jid e w).2.
Proof using DL UL.
  intros Hw. apply preserves_prepared; [done|]. intros NI J R p w1 HR HJ Hb Hw1.
  apply world_ok_bind.
  - apply world_ok_try, (retry_ok R J); [done..| |done]. apply body_ok_keeps. intros t Ht Hn.
    apply keeps_staging. intros s t1 H1. pose proof (step_stage_cancel _ _ _ Ht H1) as Hs.
    cbn in Hs. assert (Ht1 : sound t1) by apply Hs.
    destruct s; try by apply keeps_ret.
    apply keeps_bind; [apply preserves_gets|]. intros reg.
    apply keeps_staging. intros rs t2 H2. apply keeps_ret.
    apply (step_stage_effects reg p t1 (rs, t2)); [done| |done].
    eapply batch_ok_step; [exact Hs| |by apply Hb]. apply Forall_true. by intros p' _ [].
  - intros settled. apply preserves_bind; [apply finish_effects_ok|]. intros results.
    apply preserves_bind; [apply preserves_result|]. intros [s rs].
    apply preserves_bind; [apply finish_cancel_ok|]. intros removed.
    apply preserves_bind; [|intros; apply preserves_ret].
    destruct removed; [apply quiet_ok, quiet_delete_for|apply preserves_ret].
Qed.

Lemma commit_effects_ok e w : fresh_under (enqueues e) w → world_ok (commit_effects e w).2.
Proof using DL UL.
  intros Hw. apply preserves_prepared; [done|]. intros NI J R p w1 HR HJ Hb Hw1.
  apply world_ok_bind.
  - apply world_ok_try, (retry_ok R J); [done..| |done]. apply body_ok_keeps. intros t Ht Hn.
    apply keeps_bind; [apply preserves_gets|]. intros reg.
    apply keeps_staging. intros rs t2 H2. apply keeps_ret.
    apply (step_stage_effects reg p t (rs, t2)); [done|by apply Hb|done].
  - intros c. apply preserves_bind; [apply finish_effects_ok|]. intros results.
    apply preserves_bind; [apply preserves_result|]. intros. apply preserves_ret.
Qed.

(** ** Enqueues *)

Lemma write_job_txn_ok {NI : NewIds} R J p q w :
  (∀ c, rely J c → absent R c) → may_insert J →
  (∀ t, (∀ i, R i → tview t !! job_index_key i = None) → batch_ok t (p :: prepared_jobs q)) →
  world_with J w → world_ok (write_job_txn p q w).2.
Proof.
  intros HR HJ Hb Hw. apply (retry_ok R J); [done..| |done]. apply body_ok_keeps. intros t Ht Hn.
  destruct (Hb t Hn) as (Hp & Hne & Hq).
  apply keeps_staging. intros r t1 H1. pose proof (step_stage_job_writes _ _ _ Ht Hp H1) as Hs.
  cbn in Hs. assert (Ht1 : sound t1) by apply Hs.
  destruct r as [existing|i]; [by apply keeps_ret|].
  apply keeps_bind; [apply preserves_gets|]. intros reg.
  apply keeps_staging. intros rs t2 H2. apply keeps_ret.
  apply (step_stage_effects reg q t1 (rs, t2)); [done| |done].
  by eapply batch_ok_step.
Qed.

Lemma write_job_ok {NI : NewIds} R J p q w :
  (∀ c, rely J c → absent R c) → may_insert J →
  (∀ j t, same_but_payload (prepared_job p) j →
    (∀ i, R i → tview t !! job_index_key i = None) →
    batch_ok t (mkPrepared j (id_override_used p) :: prepared_jobs q)) →
  world_with J w → world_ok (write_job p q w).2.
Proof.
  intros HR HJ Hb Hw. unfold write_job. unfold mbind at 1, IO_bind at 1, io_try at 1.
  pose proof (quiet_fresh J _ (quiet_offload (prepared_job p)) w Hw) as Hw1.
  destruct (offload (prepared_job p) w) as [[j|e] w1] eqn:Eo; cbn [snd] in Hw1.
  - apply offload_Ok in Eo as [Hj _]. apply world_ok_bind.
    + apply world_ok_bind; [|intros; apply preserves_ret].
      apply world_ok_try, (write_job_txn_ok R J); [done..| |done]. intros t. by apply Hb.
    + intros [p' wr]. destruct wr as [[ex|[i st]]|err];
        (apply preserves_bind; [|intros; apply preserves_bind; [apply finish_effects_ok|];
          intros; apply preserves_bind; [apply preserves_result|intros; apply preserves_ret]]);
        unfold finish_job_write; case_bool_decide;
        first [apply preserves_ret|apply quiet_ok, quiet_delete_for].
  - apply world_ok_bind; [apply Hw1|]. intros [p' wr].
    destruct wr as [[ex|[i st]]|err];
      (apply preserves_bind; [|intros; apply preserves_bind; [apply finish_effects_ok|];
        intros; apply preserves_bind; [apply preserves_result|intros; apply preserves_ret]]);
      unfold finish_job_write; case_bool_decide;
      first [apply preserves_ret|apply quiet_ok, quiet_delete_for].
Qed.

(** What a call relies on after it prepared the request [r] and its effects. *)
Lemma prepared_with r e w p w1 q w2 (P : Prop) :
  prepare_job_record (req_queue r) (req_payload r) (req_options r) w = (Ok p, w1) →
  prepare_effects e w1 = (Ok q, w2) → fresh_under (r :: enqueues e) w →
  (∀ (NI : NewIds) J R, (∀ c, rely J c → absent R c) → may_insert J → world_with J w2 →
    (∀ j t, same_but_payload (prepared_job p) j →
      (∀ i, R i → tview t !! job_index_key i = None) →
      batch_ok t (mkPrepared j (id_override_used p) :: prepared_jobs q)) → P) → P.
Proof using UL.
  intros E1 E2 (Hsup & Hw & J & HR & HJ & Hw') HP.
  pose proof (quiet_ok _ (quiet_prepare_job_record (req_queue r) (req_payload r) (req_options r)) w Hw) as H1.
  pose proof (quiet_at _ w (quiet_prepare_job_record (req_queue r) (req_payload r) (req_options r)))
    as (Ed1 & Er1 & Eo1 & _ & Eu1).
  rewrite E1 in *. cbn [snd] in *.
  pose proof (quiet_ok _ (quiet_prepare_effects e) w1 H1) as H2.
  pose proof (quiet_at _ w1 (quiet_prepare_effects e)) as (Ed2 & Er2 & Eo2 & _ & Eu2).
  rewrite E2 in *. cbn [snd] in *. eapply (HP _ J _ HR HJ).
  - split; [done|]. apply Hw'. split_and!; [congruence..| |by etrans]. by eapply prepare_write_ids.
  - intros j t Hj Hn. by eapply (prepare_write_batch (NI := requested _ _ _) r).
Qed.

Lemma enqueue_with_effects_ok q pl opts e w :
  fresh_under (mkRequest q pl opts :: enqueues e) w → world_ok (enqueue_with_effects q pl opts e w).2.
Proof using DL UL.
  intros Hf. pose proof (fresh_under_ok _ _ Hf) as Hw. unfold enqueue_with_effects, mbind, IO_bind.
  pose proof (quiet_ok _ (quiet_prepare_job_record q pl opts) w Hw) as Hw1.
  destruct (prepare_job_record q pl opts w) as [[p|err] w1] eqn:E; [|apply Hw1]. cbn [snd] in Hw1.
  pose proof (quiet_ok _ (quiet_prepare_effects e) w1 Hw1) as Hw2.
  destruct (prepare_effects e w1) as [[eff|err] w2] eqn:E2; [|apply Hw2]. cbn [snd] in Hw2.
  eapply (prepared_with (mkRequest q pl opts)); [exact E|exact E2|exact Hf|].
  intros NI J R HR HJ Hw2' Hb. by eapply (write_job_ok R J).
Qed.

Lemma enqueue_with_ok q pl opts w :
  fresh_under [mkRequest q pl opts] w → world_ok (enqueue_with q pl opts w).2.
Proof using DL UL.
  intros Hf. pose proof (fresh_under_ok _ _ Hf) as Hw. unfold enqueue_with, mbind, IO_bind.
  pose proof (quiet_ok _ (quiet_prepare_job_record q pl opts) w Hw) as Hw1.
  destruct (prepare_job_record q pl opts w) as [[p|err] w1] eqn:E; [|apply Hw1]. cbn [snd] in Hw1.
  apply (world_ok_bind (write_job p prepared_default)); [|intros []; apply preserves_ret].
  eapply (prepared_with (mkRequest q pl opts) effects_default); [exact E|done|exact Hf|].
  intros NI J R HR HJ Hw1' Hb. by eapply (write_job_ok R J).
Qed.

Lemma enqueue_batch_ok q pls w :
  fresh_under (map (λ p, mkRequest q p options_default) pls) w →
  world_ok (enqueue_batch q pls w).2.
Proof using DL UL.
  intros Hw. unfold enqueue_batch. destruct pls; [by eapply fresh_under_ok|].
  apply world_ok_bind; [by apply commit_effects_ok|]. intros. apply preserves_ret.
Qed.

(** ** The settlement of the worker loop *)

Lemma settle_outcome_ok claim o w :
  (∀ e, o = WorkerOk e ∨ (∃ b m, o = WorkerFailed b m e) → fresh_under (enqueues e) w) →
  world_ok w → world_ok (settle_outcome claim o w).2.
Proof using DL UL.
  intros Hf Hw. destruct o as [e|[] m e|]; [| | |done];
    (apply world_ok_bind; [|intros; apply preserves_ret]).
  - apply ack_with_ok, Hf. by left.
  - apply dead_letter_with_ok, Hf. right. eauto.
  - apply nack_with_ok, Hf. right. eauto.
Qed.

Lemma process_and_settle_ok ts claim o w :
  (∀ e, o = WorkerOk e ∨ (∃ b m, o = WorkerFailed b m e) → fresh_under (enqueues e) w) →
  world_ok w → world_ok (process_and_settle ts claim o w).2.
Proof using DL UL.
  intros Hf Hw. apply world_ok_bind; [by apply world_ok_try, settle_outcome_ok|].
  assert (H1 : ∀ m, preserves world_ok (io_try (nack_with claim m effects_default) ≫= λ _, mret tt)).
  { intros m. apply preserves_bind; [|intros; apply preserves_ret]. apply preserves_try.
    intros w' Hw'. by apply nack_with_ok, fresh_under_nil. }
  assert (H2 : ∀ m, preserves world_ok (io_try (dead_letter_with claim m effects_default) ≫= λ _, mret tt)).
  { intros m. apply preserves_bind; [|intros; apply preserves_ret]. apply preserves_try.
    intros w' Hw'. by apply dead_letter_with_ok, fresh_under_nil. }
  intros [u|[]]; try (destruct (is_permanent _)); first [apply H1|apply H2|apply preserves_ret].
Qed.

End calls.

Section sweep_calls.
  Context {DB : SlateDb} {OS : ObjectStore} {SR : Serde JobRecord} {SA : Serde JobAttempt}.
  Context {SC : Serde CountRecord} {EN : Env} {DL : SlateDbLaws merge_batch} {CI : Invariant}.
  #[local] Existing Instance no_ids.
  Implicit Types (t : Txn) (j : JobRecord).

Abbreviation none := (λ _ : string, False).

(** ** The reaper *)

(** A read of the registry followed by the write of what a step makes of it. *)
Lemma registry_step_ok {A B} (f : LeaseRegistry → Result (A * LeaseRegistry)) (k : A → Q B) :
  (∀ r a r', registry_wf r → f r = Ok (a, r') → registry_step (usable CI) r r') → (∀ a, preserves world_ok (k a)) →
  preserves world_ok (get lease_registry ≫= λ r, io_result (f r) ≫= λ '(a, r'),
    upd (set_lease_registry r') ≫= λ _, k a).
Proof.
  intros Hf Hk w Hw. unfold mbind, IO_bind, get, io_gets, io_result.
  destruct (f (lease_registry (core w))) as [[a r']|e] eqn:E; [|done]. apply Hk.
  destruct (world_core w Hw) as [Hs Hc Hr]. destruct (Hf _ _ _ Hr E). apply world_ok_step; [done| | |done].
  - constructor; [done|done|auto].
  - by constructor.
Qed.

Lemma reap_expired_ok : preserves world_ok reap_expired.
Proof.
  apply preserves_bind; [apply now_ms_ok|]. intros now.
  apply (registry_step_ok (take_due now)); [|intros; apply reap_all_ok].
  intros r due r' Hr E. by eapply take_due_step.
Qed.

Lemma is_other_inbox k suffix : k = tag_prefix TInboxExpiry ++ suffix → is_other k = true.
Proof. by intros ->. Qed.

Lemma stage_inbox_batch_ok batch t r :
  sound t → (∀ k a, (k, a) ∈ batch → is_other k = true) →
  stage_inbox_batch batch t = Ok r → step_ok none t r.2.
Proof.
  revert t r. induction batch as [|[k a] batch IH]; intros t r Ht Hk H.
  - injection H as <-. by apply step_refl.
  - cbn [stage_inbox_batch] in H.
    apply M_bind_Ok in H as (u & t1 & E & H). apply M_bind_Ok in H as (u2 & t2 & E2 & H).
    apply (step_trans _ _ t1).
    { apply (step_delete_other t k (u, t1)); [by eapply Hk; left|done|done]. }
    intros Ht1. apply (step_trans _ _ t2).
    { destruct (parse_inbox_expiry_entry k) as [[q i]|].
      - by apply (step_delete_other t1 (inbox_record_key q i) (u2, t2)).
      - injection E2 as <- <-. by apply step_refl. }
    intros Ht2. apply (IH t2 r); [done| |done]. intros k' a' ?. eapply Hk. by right.
Qed.

Lemma sweep_inbox_batch_ok batch s :
  (∀ k a, (k, a) ∈ batch → is_other k = true) → preserves world_ok (sweep_inbox_batch batch s).
Proof.
  intros Hk. apply preserves_begin. intros t Ht. apply preserves_result_bind. intros [u t1] E.
  apply preserves_bind; [apply yield_ok|]. intros _. apply preserves_commit.
  - by eapply (stage_inbox_batch_ok batch t (u, t1)).
  - intros []; apply preserves_ret.
Qed.

Lemma chunks_in {A} fuel n (l : list A) b a : b ∈ chunks fuel n l → a ∈ b → a ∈ l.
Proof.
  revert l. induction fuel as [|fuel IH]; intros l; [by intros ?%elem_of_nil|].
  destruct l as [|x l]; [by intros ?%elem_of_nil|]. cbn [chunks].
  intros [->|Hb]%elem_of_cons Ha.
  - rewrite <- (take_drop n (x :: l)). apply elem_of_app. by left.
  - rewrite <- (take_drop n (x :: l)). apply elem_of_app. right. by eapply IH.
Qed.

Lemma sweep_inbox_batches_ok batches s :
  (∀ b k a, b ∈ batches → (k, a) ∈ b → is_other k = true) →
  preserves world_ok (sweep_inbox_batches batches s).
Proof.
  revert s. induction batches as [|b batches IH]; intros s Hk; [apply preserves_ret|].
  cbn [sweep_inbox_batches]. apply preserves_bind.
  - apply sweep_inbox_batch_ok. intros k a. apply Hk. by left.
  - intros s'. apply IH. intros b' k a ?. apply Hk. by right.
Qed.

Lemma sweep_inbox_records_ok ret : preserves world_ok (sweep_inbox_records ret).
Proof.
  apply preserves_bind; [apply now_ms_ok|]. intros now. apply with_scan_ok; [done|]. intros s.
  apply db_scan_bind. intros m l _ Hl.
  destruct (due_keys TInboxExpiry l s) as [due s'] eqn:Ed.
  apply preserves_bind; [apply yield_ok|]. intros _.
  apply preserves_bind; [|intros; apply preserves_ret].
  apply sweep_inbox_batches_ok. intros b k a Hb Hin.
  assert (Hk : k ∈ l.*1).
  { eapply due_keys_in. rewrite Ed. eapply chunks_in; [exact Hb|exact Hin]. }
  eapply scan_prefix_in in Hk as [suffix E]; [|done]. by eapply is_other_inbox.
Qed.

Lemma reaper_step_ok ret : preserves world_ok (reaper_step ret).
Proof.
  apply preserves_bind; [apply preserves_try, reap_expired_ok|]. intros reaped.
  apply preserves_bind.
  { destruct max_keep_done; [|apply preserves_ret].
    apply preserves_bind; [apply preserves_try, sweep_expired_ok|]. intros. apply preserves_ret. }
  intros _. apply preserves_bind.
  { destruct (existsb _ _); [|apply preserves_ret].
    apply preserves_bind; [apply preserves_try, sweep_expired_ok|]. intros. apply preserves_ret. }
  intros _. apply preserves_bind; [apply preserves_gets|]. intros [].
  - apply preserves_bind; [|intros; apply preserves_result].
    apply preserves_bind; [apply preserves_try, sweep_inbox_records_ok|]. intros. apply preserves_ret.
  - apply preserves_bind; [apply preserves_ret|]. intros. apply preserves_result.
Qed.

Lemma watch_store_close_ok : preserves world_ok watch_store_close.
Proof.
  apply preserves_bind; [by apply upd_frame|]. intros _.
  apply preserves_bind; [apply yield_ok|]. intros _. apply upd_registry_ok. intros. apply lease_close_step.
Qed.

(** ** Leases and claims of the handle *)

Lemma renew_lease_ok claim ext : preserves world_ok (renew_lease claim ext).
Proof.
  apply preserves_bind; [apply now_ms_ok|]. intros now.
  apply (registry_step_ok (lease_renew (queue (job claim)) (id (job claim)) (claim_id claim)
    (cancel claim) _ Set_)); [intros; by eapply lease_renew_step|intros; apply preserves_ret].
Qed.

Lemma ensure_at_least_ok claim r : preserves world_ok (ensure_at_least claim r).
Proof.
  apply preserves_bind; [apply now_ms_ok|]. intros now.
  apply (registry_step_ok (lease_renew (queue (job claim)) (id (job claim)) (claim_id claim)
    (cancel claim) _ Extend)); [intros; by eapply lease_renew_step|intros; apply preserves_ret].
Qed.

Lemma claim_batch_ok q n lease : preserves world_ok (claim_batch q n lease).
Proof.
  apply preserves_bind; [apply preserves_result|]. intros q'. case_decide; [apply preserves_ret|].
  apply core_claim_batch_ok.
Qed.

Lemma claim_one_ok q lease : preserves world_ok (claim_one q lease).
Proof. apply preserves_bind; [apply claim_batch_ok|]. intros. apply preserves_ret. Qed.

Lemma on_wakeup_ok f q : preserves world_ok (on_wakeup f q).
Proof. unfold on_wakeup. destruct (QueueName_new q); [apply upd_cursor_ok|apply preserves_ret]. Qed.
Lemma wait_for_jobs_on_ok q : preserves world_ok (wait_for_jobs_on q).
Proof. apply preserves_bind; [apply on_wakeup_ok|intros _; apply yield_ok]. Qed.

Lemma claim_with_wait_ok waits q lease : preserves world_ok (claim_with_wait waits q lease).
Proof.
  induction waits as [|waits IH]; cbn [claim_with_wait];
    (apply preserves_bind; [apply claim_one_ok|]; intros [claim|];
      [by apply preserves_bind; [apply on_wakeup_ok|intros _; apply preserves_ret]|]).
  - apply preserves_ret.
  - by apply preserves_bind; [apply wait_for_jobs_on_ok|intros _].
Qed.

(** ** Reads *)

Lemma view_get_job_ok jid : preserves world_ok (view_get_job jid).
Proof.
  apply preserves_begin. intros t _. apply preserves_bind; [apply preserves_result|].
  intros [[[ik k] j]|]; [|apply preserves_ret].
  apply preserves_bind; [apply yield_ok|]. intros _.
  apply preserves_bind; [apply preserves_try, quiet_ok, quiet_materialize|].
  intros [j'|[]]; try first [apply preserves_ret|apply preserves_err].
  apply preserves_bind; [apply preserves_gets|]. intros d.
  apply preserves_bind; [apply preserves_result|]. intros []; [apply preserves_err|apply preserves_ret].
Qed.

Lemma completion_ok jid : preserves world_ok (completion jid).
Proof.
  apply preserves_bind.
  { intros w Hw. destruct (world_core w Hw) as [Hs Hc Hr]. unfold io_state.
    destruct (register jid _) as [r cw]. apply world_ok_step; [done|done|by apply advances_same|done]. }
  intros r. apply preserves_bind; [apply yield_ok|]. intros _. cbn zeta.
  assert (Hd : ∀ A (k : Q A), preserves world_ok k → preserves world_ok
    (upd (λ c, set_completion_waiters (withdraw (reg_id r) (reg_key r) (completion_waiters c)) c) ≫= λ _, k)).
  { intros A k Hk. by apply preserves_bind; [apply upd_frame|]. }
  apply preserves_bind; [apply preserves_try, view_get_job_ok|].
  intros [[j|]|e].
  - destruct (status j); first [apply Hd, preserves_ret|apply preserves_ret].
  - apply preserves_bind; [apply preserves_gets|]. intros o. apply Hd, preserves_ret.
  - apply Hd, preserves_err.
Qed.

(** ** The user key space *)

Lemma core_ok_user c d' k :
  core_ok c → (∀ k', k' ≠ user_scoped_key k → contents d' !! k' = contents (db c) !! k') →
  core_ok (set_db d' c).
Proof.
  intros [Hs Hc Hr] E.
  assert (Ef : ∀ k', foreign k' = false → contents d' !! k' = contents (db c) !! k').
  { intros k' Hk. apply E. by intros ->. }
  constructor; cbn; [by eapply store_ok_ext| |done].
  intros q s. destruct (Hc q s) as (v & Hv & Hp). exists v. split.
  - unfold count_for in *. rewrite E; [done|]. by intros [=].
  - intros Hd. rewrite (population_ext (contents (db c)) (contents d')); [by apply Hp|].
    intros k'. unfold job_at. destruct (decide (k' = user_scoped_key k)) as [->|]; [|by rewrite E].
    unfold decode_job. fold (record_status (user_scoped_key k)).
    change (record_status (user_scoped_key k)) with (@None JobStatus). by destruct (contents d' !! _), (contents (db c) !! _).
Qed.

Lemma user_write_ok {A} k (f : Db → Result Db) (m : Q A) :
  (∀ d d', f d = Ok d' → ∀ k', k' ≠ user_scoped_key k → contents d' !! k' = contents d !! k') →
  preserves world_ok m →
  preserves world_ok (get db ≫= λ d, io_result (f d) ≫= λ d', upd (set_db d') ≫= λ _, m).
Proof.
  intros Hf Hm w Hw. unfold mbind, IO_bind, get, io_gets, io_result.
  destruct (f (db (core w))) as [d'|e] eqn:E; [|done]. apply Hm.
  apply world_ok_step; [done| |by apply advances_same|].
  - eapply core_ok_user; [by apply world_core|]. by apply Hf.
  - intros i. unfold in_use. cbn. by rewrite (Hf _ _ E).
Qed.

Lemma await_durable_ok : preserves world_ok await_durable.
Proof. apply preserves_bind; [apply preserves_gets|]. intros. apply preserves_result. Qed.

Lemma kv_put_ok k v : preserves world_ok (kv_put k v).
Proof.
  apply preserves_bind; [apply preserves_result|]. intros _.
  apply (user_write_ok k (λ d, lift (db_put d (user_scoped_key k) v))); [|apply await_durable_ok].
  intros d d' E%lift_Ok%db_put_law k' Hk. by rewrite E, lookup_insert_ne.
Qed.

Lemma kv_delete_ok k : preserves world_ok (kv_delete k).
Proof.
  apply (user_write_ok k (λ d, lift (db_delete d (user_scoped_key k)))); [|apply await_durable_ok].
  intros d d' E%lift_Ok%db_delete_law k' Hk. by rewrite E, lookup_delete_ne.
Qed.

Lemma kv_state_matches_step t k expected r :
  sound t → kv_state_matches k expected t = Ok r → step_ok none t r.2.
Proof.
  intros Ht H. unfold kv_state_matches in H.
  apply M_bind_Ok in H as (u & t1 & E & H). apply M_bind_Ok in H as (cur & t2 & Eg & H).
  apply t_get_Ok in Eg. injection H as <-. injection Eg as -> ->.
  by apply (step_mark_read t [k] (u, t1)).
Qed.

Lemma kv_compare_then_ok k expected (write : bytes → TxnM ()) :
  (∀ t r, sound t → write (user_scoped_key k) t = Ok r → step_ok none t r.2) →
  preserves world_ok (kv_compare_then k expected write).
Proof.
  intros Hw. apply retry_nobody. intros t Ht. apply keeps_staging. intros same t1 H1.
  apply kv_state_matches_step in H1 as [Ht1 _]; [|done]. destruct same; [|by apply keeps_ret].
  apply keeps_staging. intros u t2 H2. apply keeps_ret. by apply (Hw t1 (u, t2)).
Qed.

Lemma kv_compare_delete_ok k expected : preserves world_ok (kv_compare_delete k expected).
Proof.
  apply kv_compare_then_ok. intros t r Ht H. by eapply step_delete_other, H; [apply is_other_user|].
Qed.

Lemma kv_compare_put_ok k expected v : preserves world_ok (kv_compare_put k expected v).
Proof.
  apply preserves_bind; [apply preserves_result|]. intros _.
  apply kv_compare_then_ok. intros t r Ht H. by eapply step_put_other, H; [apply is_other_user|].
Qed.

End sweep_calls.
