(* ===== verification/Finishes.v ===== *)
(** * Every call finishes

    The retries of the calls are recursions on fuel; this file shows that the fuel
    is enough. A commit conflicts only when another task changed the store after
    the transaction began, so each retry takes at least one of the interleavings
    the call runs in; it holds for a store whose operations fail at any time. *)
From S2P Require Import Prelude Bytes Error Monad Keys Job Store Stats LeaseRegistry.
From S2P Require Import TimeBound ClaimCursor Completion Txn Stage Core QueueCore.
From S2P Require Import Control Effects Claim Settle Enqueue Sweeps Queue.

Section finishes.
  Context {DB : SlateDb} {OS : ObjectStore} {SR : Serde JobRecord} {SA : Serde JobAttempt}.
  Context {SC : Serde CountRecord} {EN : Env} {DL : SlateDbLaws merge_batch}.
  Implicit Types (t : Txn) (j : JobRecord).

(** ** Results that are not out of fuel *)

Definition done_result {A} (r : Result A) : Prop := r ≠ Err Unfinished.

Lemma done_bind {A B} (r : Result A) (f : A → Result B) :
  done_result r → (∀ a, done_result (f a)) → done_result (r ≫= f).
Proof. intros Hr Hf. destruct r as [a|e]; [apply Hf|]. by intros [= ->]. Qed.
Lemma done_Ok {A} (a : A) : done_result (Ok a).
Proof. done. Qed.
Lemma done_ok_or {A} (o : option A) e : e ≠ Unfinished → done_result (ok_or o e).
Proof. intros He. destruct o; [done|]. by intros [= ->]. Qed.
Lemma done_lift {A} (r : result SlateError A) : done_result (lift r).
Proof. by destruct r. Qed.
Lemma done_from_slice {A} `{!Serde A} b : done_result (from_slice b : Result A).
Proof. unfold from_slice. destruct (de b) as [[]|]; done. Qed.
Lemma done_decode k b : done_result (decode_job k b).
Proof.
  apply done_bind; [by apply done_ok_or|]. intros s.
  apply done_bind; [apply done_from_slice|]. intros; apply done_Ok.
Qed.
Lemma done_stored_key j : done_result (stored_key j).
Proof.
  unfold stored_key. destruct (status j); try done;
    (apply done_bind; [by apply done_ok_or|]; intros; apply done_Ok).
Qed.
Lemma done_key_status k : done_result (key_status k).
Proof. by apply done_ok_or. Qed.
Lemma done_indexed_job (t : DbTransaction) i : done_result (get_indexed_job t i).
Proof.
  apply done_bind; [apply done_lift|]. intros [k|]; [|done].
  apply done_bind; [apply done_lift|]. intros [b|]; [|done].
  apply done_bind; [apply done_decode|]. intros; apply done_Ok.
Qed.
Lemma done_queue_name n : done_result (QueueName_new n).
Proof.
  unfold QueueName_new. generalize (eq_refl (form_check QUEUE_NAME_FORM n)).
  generalize (form_check QUEUE_NAME_FORM n) at 2 3. by intros [[]|].
Qed.
Lemma done_id_override i : done_result (validate_id_override i).
Proof. unfold validate_id_override. by destruct (form_check _ _). Qed.
Lemma done_kv_value v : done_result (validate_kv_value_size v).
Proof. unfold validate_kv_value_size. by case_decide. Qed.
Lemma done_renew q i c tok at' m r : done_result (lease_renew q i c tok at' m r).
Proof.
  unfold lease_renew. destruct (closed r), (is_cancelled r tok); try done.
  destruct (by_job r !! (q, i)); [|done]. destruct (_ && _); [|done]. by destruct (_ || _).
Qed.
Lemma done_mark_due ks m : done_result (mark_due ks m).
Proof.
  revert m. induction ks as [|[a k] ks IH]; intros m; [done|]. cbn [mark_due].
  apply done_bind; [by apply done_ok_or|]. intros e.
  apply done_bind; [apply IH|]. intros []. apply done_Ok.
Qed.
Lemma done_take_due now r : done_result (take_due now r).
Proof.
  unfold take_due. apply done_bind; [apply done_mark_due|]. intros []. apply done_Ok.
Qed.
Lemma done_write_stats l (t : DbTransaction) : done_result (write_stats l t).
Proof.
  revert t. induction l as [|[[q s] d] l IH]; intros t; [done|]. cbn [write_stats].
  apply done_bind; [|done]. case_decide; [done|].
  apply done_bind; [apply done_lift|]. intros; apply done_lift.
Qed.

(** ** Steps of a transaction

    A clean step does not run out of fuel, and stages writes on its snapshot. *)
Definition clean {A} (m : TxnM A) : Prop :=
  ∀ t, match m t with
       | Ok (_, t') => ∃ ws, stages t t' ws
       | Err e => e ≠ Unfinished
       end.

Lemma clean_ret {A} (a : A) : clean (mret a).
Proof. intros t. exists []. apply stages_refl. Qed.
Lemma clean_raise {A} e : e ≠ Unfinished → clean (raise e : TxnM A).
Proof. by intros He t. Qed.
Lemma clean_bind {A B} (m : TxnM A) (f : A → TxnM B) :
  clean m → (∀ a, clean (f a)) → clean (m ≫= f).
Proof.
  intros Hm Hf t. unfold mbind, M_bind. specialize (Hm t). destruct (m t) as [[a t1]|e]; [|done].
  specialize (Hf a t1). destruct (f a t1) as [[b t2]|e]; [|done].
  destruct Hm as [ws1 H1], Hf as [ws2 H2]. exists (ws1 ++ ws2). by eapply stages_trans.
Qed.
Lemma clean_reads {A} (f : Txn → Result A) : (∀ t, done_result (f t)) → clean (reads f).
Proof.
  intros Hf t. unfold reads. specialize (Hf t). destruct (f t); cbn; [|congruence].
  exists []. apply stages_refl.
Qed.
Lemma clean_of_result {A} (r : Result A) : done_result r → clean (of_result r : TxnM A).
Proof.
  intros Hr t. unfold of_result. destruct r; cbn; [|congruence]. exists []. apply stages_refl.
Qed.
Lemma clean_get k : clean (t_get k).
Proof. apply clean_reads. intros; apply done_lift. Qed.
Lemma done_upd f t : done_result (t_upd f t).
Proof. unfold t_upd. by destruct (f (txn t)). Qed.
(** A store operation: what it stages, and that it fails with an error of the
    store. *)
Lemma clean_op {A} (m : TxnM A) :
  (∀ t, done_result (m t)) → (∀ t r, m t = Ok r → ∃ ws, stages t r.2 ws) → clean m.
Proof.
  intros Hd Hm t. specialize (Hd t). specialize (Hm t). destruct (m t) as [[a t']|e]; [by apply (Hm (a, t'))|].
  congruence.
Qed.
Lemma clean_put k v : clean (t_put k v).
Proof. apply clean_op; [intros; apply done_upd|]. intros t r (H & _)%t_put_Ok. by eexists. Qed.
Lemma clean_delete k : clean (t_delete k).
Proof. apply clean_op; [intros; apply done_upd|]. intros t r (H & _)%t_delete_Ok. by eexists. Qed.
Lemma clean_mark_read ks : clean (t_mark_read ks).
Proof. apply clean_op; [intros; apply done_upd|]. intros t r (H & _)%t_mark_read_Ok. by eexists. Qed.
Lemma clean_append i a : clean (t_append_attempt i a).
Proof.
  apply clean_op; [|intros t r (H & _)%t_append_attempt_Ok; by eexists].
  intros t. unfold t_append_attempt, append_attempt. by destruct (txn_merge _ _ _).
Qed.
Lemma clean_notes f : clean (map_notes f).
Proof. intros t. exists []. by apply stages_same_txn. Qed.
Lemma clean_count_move q a b : clean (count_move q a b).
Proof. intros t. exists []. by apply stages_same_txn. Qed.
Lemma clean_for_each {A} (f : A → TxnM ()) l : (∀ a, clean (f a)) → clean (for_each f l).
Proof. intros Hf. induction l; [apply clean_ret|by apply clean_bind]. Qed.

Ltac clean :=
  repeat first
    [ apply clean_ret | (apply clean_raise; done) | apply clean_get | apply clean_put
    | apply clean_delete | apply clean_mark_read | apply clean_append | apply clean_notes
    | apply clean_count_move | (apply clean_of_result; first
        [apply done_stored_key | apply done_key_status | apply done_decode | apply done_from_slice])
    | (apply clean_reads; intros; apply done_indexed_job)
    | (apply clean_bind; [|intros]) | (apply clean_for_each; intros) | case_match ].

Lemma clean_put_job k j : clean (put_job k j).
Proof. unfold put_job, note_written. clean. Qed.
Lemma clean_insert_job j : clean (insert_job j).
Proof. unfold insert_job. clean; apply clean_put_job. Qed.
Lemma clean_move_job k j : clean (move_job k j).
Proof. unfold move_job, note_written. clean; apply clean_put_job. Qed.
Lemma clean_stage_remove k j : clean (stage_remove k j).
Proof. unfold stage_remove. clean. Qed.
Lemma clean_to_pending k j : clean (stage_to_pending k j).
Proof. apply clean_move_job. Qed.
Lemma clean_stage_wake i w : clean (stage_wake i w).
Proof. unfold stage_wake. clean; apply clean_to_pending. Qed.
Lemma clean_stage_signal i pl : clean (stage_signal i pl).
Proof. unfold stage_signal. clean; apply clean_stage_wake. Qed.
Lemma clean_stage_cancel i : clean (stage_cancel i).
Proof. unfold stage_cancel. clean; first [apply clean_stage_remove|apply clean_move_job]. Qed.
Lemma clean_read_claim r q i c : clean (read_claim r q i c).
Proof. unfold read_claim. clean. Qed.
Lemma clean_take_claim r q i c : clean (take_claim r q i c).
Proof. unfold take_claim. clean; apply clean_read_claim. Qed.
Lemma clean_claim_end j e now : clean (stage_claim_end j e now).
Proof.
  unfold stage_claim_end, stage_dead_letter.
  clean; first [apply clean_stage_remove|apply clean_move_job|apply clean_to_pending].
Qed.
Lemma clean_release q dk : clean (release_dedup q dk).
Proof. unfold release_dedup. clean. Qed.
Lemma clean_read_record k : clean (read_record k).
Proof. unfold read_record. clean. Qed.
Lemma clean_count_change n d : clean (stage_count_change n d).
Proof. unfold stage_count_change. clean; first [apply clean_read_record|apply clean_stage_wake]. Qed.
Lemma clean_count_wait j : clean (stage_count_wait j).
Proof. unfold stage_count_wait. clean; apply clean_read_record. Qed.
Lemma clean_job_writes p : clean (stage_job_writes p).
Proof. unfold stage_job_writes. clean; first [apply clean_count_wait|apply clean_insert_job]. Qed.
Lemma clean_kv_state k e : clean (kv_state_matches k e).
Proof. unfold kv_state_matches. clean. Qed.
Lemma clean_compares cs : clean (stage_compares cs).
Proof. induction cs; cbn [stage_compares]; clean; first [apply clean_kv_state|done]. Qed.
Lemma clean_enqueues ps : clean (stage_enqueues ps).
Proof.
  induction ps; [apply clean_ret|]. apply clean_bind; [apply clean_job_writes|]. intros.
  apply clean_bind; [done|]. intros. apply clean_ret.
Qed.
Lemma clean_effects r p : clean (stage_effects r p).
Proof.
  unfold stage_effects, note_expiry_entry.
  clean; first [apply clean_read_claim|apply clean_compares|apply clean_count_change|apply clean_enqueues].
Qed.
Lemma clean_inbox_batch b : clean (stage_inbox_batch b).
Proof. induction b as [|[]]; cbn [stage_inbox_batch]; clean; done. Qed.

(** ** Calls that leave the store

    A part of a call that does not run out of fuel, does not change the store and
    does not let other tasks run. *)
Definition same_store w w' : Prop :=
  db (core w') = db (core w) ∧ others w' = others w ∧
  (registry_wf (lease_registry (core w)) → registry_wf (lease_registry (core w'))) ∧
  job_ids (core w) ≤ job_ids (core w') ∧ ulids (core w) ≤ ulids (core w').

#[global] Instance same_store_preorder : PreOrder same_store.
Proof.
  split; [done|]. intros w1 w2 w3 (E1 & E2 & E3 & E4 & E5) (F1 & F2 & F3 & F4 & F5).
  split; [by rewrite F1|]. split; [by rewrite F2|]. split; [auto|]. split; lia.
Qed.

Definition still {A} (m : Q A) : Prop := ∀ w, done_result (m w).1 ∧ same_store w (m w).2.

Lemma still_ret {A} (a : A) : still (mret a).
Proof. by intros w. Qed.
Lemma still_err {A} e : e ≠ Unfinished → still (io_err e : Q A).
Proof. intros He w. split; [|done]. intros [= E]. done. Qed.
Lemma still_get {A} (f : Core → A) : still (get f).
Proof. by intros w. Qed.
Lemma still_result {A} (r : Result A) : done_result r → still (io_result r).
Proof. by intros Hr w. Qed.
Lemma still_bind {A B} (m : Q A) (f : A → Q B) : still m → (∀ a, still (f a)) → still (m ≫= f).
Proof.
  intros Hm Hf w. unfold mbind, IO_bind. destruct (Hm w) as [Hr Hd].
  destruct (m w) as [[a|e] w1]; cbn in *.
  - destruct (Hf a w1) as [? E]. split; [done|]. by etrans.
  - split; [|done]. intros [= ->]. by apply Hr.
Qed.
Lemma still_try {A} (m : Q A) : still m → still (io_try m).
Proof. intros Hm w. unfold io_try. destruct (Hm w) as [_ ?]. by destruct (m w). Qed.
Lemma still_for_each {A} (f : A → Q ()) l : (∀ a, still (f a)) → still (io_for_each f l).
Proof. intros Hf. induction l; [apply still_ret|by apply still_bind]. Qed.
Lemma still_mapM {A B} (f : A → Q B) l : (∀ a, still (f a)) → still (io_mapM f l).
Proof.
  intros Hf. induction l; [apply still_ret|]. apply still_bind; [done|]. intros.
  apply still_bind; [done|]. intros. apply still_ret.
Qed.
Lemma still_upd f :
  (∀ c, db (f c) = db c ∧ (registry_wf (lease_registry c) → registry_wf (lease_registry (f c))) ∧
    job_ids c ≤ job_ids (f c) ∧ ulids c ≤ ulids (f c)) →
  still (upd f).
Proof. intros Hf w. split; [done|]. destruct (Hf (core w)). by split. Qed.
Lemma still_registry f : (∀ r, registry_wf r → registry_wf (f r)) → still (upd_registry f).
Proof. intros Hf. apply still_upd. intros c. split; [done|]. split; [apply Hf|done]. Qed.
Lemma still_objects {A} (f : Objects → A * Objects) : still (on_objects f).
Proof. intros w. unfold on_objects, io_state. by destruct (f _). Qed.
Lemma still_now_ms : still now_ms.
Proof. apply still_bind; [apply still_get|]. intros. apply still_bind; [by apply still_upd|]. intros. apply still_ret. Qed.
Lemma still_new_ulid : still new_ulid.
Proof. intros w. split; [done|]. do 4 (split; [done|]). apply Nat.le_succ_diag_r. Qed.
Lemma still_new_token : still new_token.
Proof. apply still_bind; [apply still_get|]. intros. apply still_bind; [by apply still_upd|]. intros. apply still_ret. Qed.

Lemma still_next_job_id : still next_job_id.
Proof.
  apply still_bind; [apply still_now_ms|]. intros at' w. split; [done|]. do 3 (split; [done|]).
  split; [apply Nat.le_succ_diag_r|done].
Qed.

Ltac still :=
  repeat first
    [ apply still_ret | (apply still_err; done) | apply still_get | apply still_now_ms
    | apply still_new_ulid | apply still_next_job_id | apply still_new_token | apply still_objects
    | (apply still_registry; intros; first
        [ by apply lease_remove_wf | by apply lease_insert_wf | by apply lease_cancel_wf | done ])
    | (apply still_upd; done)
    | (apply still_result; first [apply done_lift|apply done_queue_name|apply done_id_override
        |apply done_kv_value|apply done_decode|apply done_Ok|apply done_renew|apply done_take_due])
    | apply still_try | (apply still_bind; [|intros]) | (apply still_for_each; intros)
    | (apply still_mapM; intros) | case_match ].

#[local] Set Default Proof Using "Type DL".

(** ** Bodies of the retry loop *)

(** A part of a body that starts from the transaction [t]. *)
Definition steady {A} t (m : Q (A * Txn)) : Prop :=
  still m ∧ ∀ w a t' w', m w = (Ok (a, t'), w') → base (txn t') = base (txn t).

Lemma steady_ret {A} t (a : A) : steady t (mret (a, t)).
Proof. split; [apply still_ret|]. by intros ???? [= <- <- <-]. Qed.
Lemma steady_err {A} t e : e ≠ Unfinished → steady t (io_err e : Q (A * Txn)).
Proof. split; [by apply still_err|]. by intros. Qed.
Lemma steady_bind {A B} t (m : Q A) (f : A → Q (B * Txn)) :
  still m → (∀ a, steady t (f a)) → steady t (m ≫= f).
Proof.
  intros Hm Hf. split; [apply still_bind; [done|]; intros; apply Hf|].
  intros w b t' w' (a & w1 & _ & H)%IO_bind_Ok. by eapply Hf.
Qed.
Lemma steady_seq {A B} t (m : Q (A * Txn)) (f : A * Txn → Q (B * Txn)) :
  steady t m → (∀ a t', steady t' (f (a, t'))) → steady t (m ≫= f).
Proof.
  intros [Hm Hb] Hf. split; [apply still_bind; [done|]; intros []; apply Hf|].
  intros w b t' w' ([a t1] & w1 & E & H)%IO_bind_Ok.
  rewrite <- (Hb _ _ _ _ E). by eapply Hf.
Qed.
Lemma steady_staging {A} t (m : TxnM A) : clean m → steady t (staging m t).
Proof.
  intros Hm. specialize (Hm t). unfold staging, io_result. split.
  - apply still_result. destruct (m t) as [[]|e]; [done|]. by intros [= ->].
  - intros w a t' w' [= E <-]. rewrite E in Hm. by destruct Hm as [ws [? _ _ _]].
Qed.

Definition body_steady {T} (body : Txn → Q (Attempt T * Txn)) : Prop := ∀ t, steady t (body t).

Lemma write_stats_base l (t t' : DbTransaction) : write_stats l t = Ok t' → base t' = base t.
Proof.
  revert t. induction l as [|[[q s] d] l IH]; intros t; [by intros [= ->]|]. cbn [write_stats].
  intros (t1 & E & ->%IH)%bind_Ok. revert E. case_decide; [by intros [= ->]|].
  intros (t2 & E2%lift_Ok & E3%lift_Ok)%bind_Ok.
  apply merge_law in E2 as [E2 _]. apply unmark_write_law in E3 as [E3 _]. congruence.
Qed.

(** Each conflict of the retry loop used up an interleaving. *)
Lemma commit_done t d w : done_result (commit t d w).1.
Proof.
  unfold commit, mbind, IO_bind, io_result. pose proof (done_write_stats (map_to_list (tstats t)) (txn t)) as Hs.
  destruct (write_stats _ _) as [t'|e]; [|intros [= ->]; by apply Hs].
  unfold commit_txn, get, io_gets, mbind, IO_bind. cbn.
  destruct (txn_commit _ _) as [d'|e].
  - destruct d; cbn; [unfold io_result; destruct (lift _) as [|e] eqn:E|done]; [done|].
    intros [= ->]. by apply (done_lift (db_await_durable d')).
  - by case_decide.
Qed.

Lemma commit_conflict_base t d w w' :
  commit t d w = (Ok Conflict, w') → w' = w ∧ db (core w) ≠ base (txn t).
Proof.
  unfold commit, mbind, IO_bind, io_result.
  destruct (write_stats _ _) as [t'|e] eqn:Es; [|done].
  apply write_stats_base in Es.
  unfold commit_txn, get, io_gets, mbind, IO_bind. cbn.
  destruct (txn_commit _ _) as [d'|e] eqn:E.
  - destruct d; cbn; [unfold io_result; destruct (lift _)|]; done.
  - case_decide as D; cbn; [|done]. intros [= <-]. split; [done|]. rewrite <- Es. intros Hb.
    rewrite Hb in E. by apply commit_no_conflict_law in E.
Qed.

Lemma begin_base w : match begin w with
  | (Ok t, w') => w' = w ∧ base (txn t) = db (core w) | (Err e, _) => e ≠ Unfinished end.
Proof.
  unfold begin, get, io_gets, mbind, IO_bind, io_result. cbn.
  destruct (db_begin (db (core w))) as [t|e] eqn:E; cbn; [|done].
  split; [done|]. by apply begin_law in E as [? _].
Qed.

(** What the other tasks run in a step leaves fewer of them, or the store as it
    was. *)
Lemma yield_others w :
  (yield w).1 = Ok tt ∧ (others w = [] ∧ (yield w).2 = w ∨
    length (others w) = S (length (others (yield w).2))).
Proof. unfold yield, io_modify. cbn. destruct w as [c [|f fs]]; auto. Qed.

Lemma retry_loop_done {T} fuel d (body : Txn → Q (Attempt T * Txn)) w :
  body_steady body → length (others w) < fuel → done_result (retry_loop fuel d body w).1.
Proof.
  intros Hb. revert w. induction fuel as [|fuel IH]; intros w Hf; [lia|].
  cbn [retry_loop]. unfold mbind at 1, IO_bind at 1.
  pose proof (begin_base w) as Hbeg. destruct (begin w) as [[t|e] w0]; [|by intros [= ->]].
  destruct Hbeg as [-> Hbase].
  unfold mbind at 1, IO_bind at 1. destruct (yield_others w) as [E1 Hy1].
  destruct (yield w) as [r w1]. cbn in E1, Hy1. subst r.
  destruct (Hb t) as [Hst Hbt]. destruct (Hst w1) as (Hd & Hdb & Ho & _). specialize (Hbt w1).
  unfold mbind at 1, IO_bind at 1.
  destruct (body t w1) as [[[att t']|e] w2]; [|by intros [= ->]; apply Hd].
  specialize (Hbt att t' w2 eq_refl). cbn in Hdb, Ho. destruct att as [v|v]; [|done].
  unfold mbind at 1, IO_bind at 1. destruct (yield_others w2) as [E2 Hy2].
  destruct (yield w2) as [r w3]. cbn in E2, Hy2. subst r.
  unfold mbind, IO_bind. pose proof (commit_done t' d w3) as Hc.
  destruct (commit t' d w3) as [[[]|e] w4] eqn:Ec; [done| |by intros [= ->]].
  apply commit_conflict_base in Ec as [-> Hne]. apply IH.
  destruct Hy1 as [[Hn ->]|Hl]; [|destruct Hy2 as [[? ->]|?]; rewrite Ho in *; lia].
  destruct Hy2 as [[_ ->]|Hl2]; [|rewrite Ho, Hn in Hl2; done].
  destruct Hne. rewrite Hdb, <- Hbase. by rewrite Hbt.
Qed.

Definition finishes {A} (m : Q A) : Prop := ∀ w, done_result (m w).1.

Lemma retry_finishes {T} d (body : Txn → Q (Attempt T * Txn)) : body_steady body → finishes (retry d body).
Proof. intros Hb w. apply retry_loop_done; [done|lia]. Qed.

Lemma transition_finishes {T} i d (missing : Result T) tr :
  done_result missing → (∀ t k j, steady t (tr t k j)) → finishes (transition_by_id i d missing tr).
Proof.
  intros Hm Ht. apply retry_finishes. intros t.
  apply steady_bind; [apply still_result, done_indexed_job|].
  intros [[[ik k] j]|]; [apply Ht|]. apply steady_bind; [by apply still_result|]. intros. apply steady_ret.
Qed.

Lemma finishes_still {A} (m : Q A) : still m → finishes m.
Proof. intros Hm w. apply Hm. Qed.
Lemma finishes_ret {A} (a : A) : finishes (mret a).
Proof. done. Qed.
Lemma finishes_err {A} e : e ≠ Unfinished → finishes (io_err e : Q A).
Proof. intros He w [= E]. done. Qed.
Lemma finishes_upd f : finishes (upd f).
Proof. done. Qed.
Lemma finishes_yield : finishes yield.
Proof. done. Qed.
Lemma finishes_result {A} (r : Result A) : done_result r → finishes (io_result r).
Proof. by intros Hr w. Qed.
Lemma finishes_bind {A B} (m : Q A) (f : A → Q B) :
  finishes m → (∀ a, finishes (f a)) → finishes (m ≫= f).
Proof.
  intros Hm Hf w. unfold mbind, IO_bind. specialize (Hm w).
  destruct (m w) as [[a|e] w1]; [apply Hf|]. by intros [= ->].
Qed.
(** The outcome of a call that finishes, passed on. *)
Lemma finishes_try_bind {A B} (m : Q A) (f : Result A → Q B) :
  finishes m → (∀ r, done_result r → finishes (f r)) → finishes (io_try m ≫= f).
Proof.
  intros Hm Hf w. unfold mbind, IO_bind, io_try. specialize (Hm w).
  destruct (m w) as [r w1]. by apply Hf.
Qed.
Lemma finishes_try {A} (m : Q A) : finishes (io_try m).
Proof. intros w. unfold io_try. by destruct (m w). Qed.
Lemma finishes_for_each {A} (f : A → Q ()) l : (∀ a, finishes (f a)) → finishes (io_for_each f l).
Proof. intros Hf. induction l; [apply finishes_ret|by apply finishes_bind]. Qed.

(** ** The calls *)

Ltac steady :=
  repeat first
    [ apply steady_ret | (apply steady_err; done)
    | (apply steady_seq; [apply steady_staging|intros])
    | (apply steady_bind; [solve [still]|intros]) | case_match ].

Lemma still_offload j : still (offload j).
Proof. unfold offload, payload_put. still. Qed.
Lemma still_delete_for j : still (delete_for j).
Proof. unfold delete_for, delete_best_effort, payload_delete. still. Qed.
Lemma still_materialize j : still (materialize j).
Proof. unfold materialize, payload_get. still. Qed.
Lemma still_offload_all before js : still (offload_all_from before js).
Proof.
  revert before. induction js as [|j js IH]; intros before; cbn [offload_all_from]; [apply still_ret|].
  intros w. pose proof (still_offload j w) as [Hd Hsame].
  unfold mbind at 1 3, IO_bind at 1 3, io_try.
  destruct (offload j w) as [[j'|e] w1]; cbn in Hsame.
  - destruct (IH (before ++ [j']) w1) as [? ?]. split; [done|]. by etrans.
  - assert (He : e ≠ Unfinished) by (intros ->; by apply Hd).
    match goal with |- done_result (?m w1).1 ∧ _ => assert (Hs : still m) end.
    { apply still_bind; [apply still_for_each; intros; apply still_delete_for|].
      intros. by apply still_err. }
    destruct (Hs w1) as [? ?]. split; [done|]. by etrans.
Qed.

Lemma still_prepare_job q pl opts : still (prepare_job_record q pl opts).
Proof. unfold prepare_job_record. still. Qed.
Lemma still_prepare_effects e : still (prepare_effects e).
Proof.
  unfold prepare_effects, offload_prepared, offload_all. still;
    first [apply still_prepare_job|apply still_offload_all].
Qed.
Lemma still_finish_effects p rs : still (finish_effects p rs).
Proof. unfold finish_effects, discard_prepared. still; apply still_delete_for. Qed.

(** The completion of a claim end after its yield. *)
Lemma finish_claim_still j e c (claim : option Claim) : still (
  upd_registry (lease_remove (queue j) (id j) c) ≫= λ _,
  (if decide (e = EndDone false) then delete_for j else mret tt) ≫= λ _,
  waiting ← core_has_waiters (id j);
  if negb (is_terminal e) || negb waiting then mret tt
  else
    delivered ← (match payload_ref j, claim with
      | Some _, Some cl => mret (set_payload (payload (job cl)) j)
      | Some _, None =>
          r ← io_try (materialize j);
          mret (match r with Ok j => j | Err _ => j end)
      | None, _ => mret j
      end : Q JobRecord);
    settle_waiters (id j)
      (if decide (status j = Dead) then WaitDead delivered else WaitDone delivered)).
Proof.
  unfold core_has_waiters, settle_waiters.
  still; first [apply still_delete_for|apply still_materialize].
Qed.

Lemma still_finish_claim j e c cl : finishes (finish_claim_end j e c cl).
Proof.
  unfold finish_claim_end. apply finishes_bind; [apply finishes_yield|]. intros _.
  apply finishes_still, finish_claim_still.
Qed.

(** A call that prepares, commits in the retry loop and completes. *)
Lemma finishes_prepared {A B} (prep : Q A) d (body : A → Txn → Q (Attempt B * Txn)) {C}
    (k : A → Result B → Q C) :
  still prep → (∀ a, body_steady (body a)) → (∀ a r, done_result r → finishes (k a r)) →
  finishes (prep ≫= λ a, io_try (retry d (body a)) ≫= k a).
Proof.
  intros Hp Hb Hk. apply finishes_bind; [by apply finishes_still|]. intros a.
  apply finishes_try_bind; [by apply retry_finishes|]. apply Hk.
Qed.

Lemma settle_claim_finishes claim e ef : finishes (settle_claim claim e ef).
Proof.
  unfold settle_claim, settle_txn. apply finishes_prepared; [apply still_prepare_effects| |].
  - intros p t. apply steady_bind; [apply still_get|]. intros reg.
    apply steady_seq; [apply steady_staging, clean_take_claim|]. intros j t1.
    apply steady_bind; [apply still_now_ms|]. intros now.
    apply steady_seq; [apply steady_staging, clean_claim_end|]. intros j' t2.
    destruct (is_terminal _); [|apply steady_ret].
    apply steady_bind; [apply still_get|]. intros reg'.
    apply steady_seq; [apply steady_staging, clean_effects|]. intros rs t3. apply steady_ret.
  - intros p r Hr. apply finishes_bind; [apply finishes_still, still_finish_effects|]. intros rs.
    apply finishes_bind; [by apply finishes_result|]. intros [[j e'] s].
    apply finishes_bind; [apply still_finish_claim|]. intros. apply finishes_ret.
Qed.

Lemma ack_finishes claim e : finishes (ack_with claim e).
Proof. apply finishes_bind; [apply settle_claim_finishes|]. intros []. apply finishes_ret. Qed.
Lemma nack_finishes claim m e : finishes (nack_with claim m e).
Proof. apply finishes_bind; [apply settle_claim_finishes|]. intros []. apply finishes_ret. Qed.
Lemma dead_letter_finishes claim m e : finishes (dead_letter_with claim m e).
Proof. apply finishes_bind; [apply settle_claim_finishes|]. intros []. apply finishes_ret. Qed.

Lemma process_finishes ts claim o : finishes (process_and_settle ts claim o).
Proof.
  unfold process_and_settle. apply finishes_bind; [apply finishes_try|].
  intros [u|[]]; try (destruct (is_permanent _)); try apply finishes_ret;
    (apply finishes_bind; [apply finishes_try|intros; apply finishes_ret]).
Qed.

Lemma finish_cancel_still s : still (finish_cancel s).
Proof. unfold finish_cancel, settle_waiters. still. Qed.

Lemma cancel_finishes i e : finishes (cancel_with i e).
Proof.
  unfold cancel_with. apply finishes_prepared; [apply still_prepare_effects| |].
  - intros p t. apply steady_seq; [apply steady_staging, clean_stage_cancel|]. intros s t1.
    destruct s; try apply steady_ret. apply steady_bind; [apply still_get|]. intros reg.
    apply steady_seq; [apply steady_staging, clean_effects|]. intros. apply steady_ret.
  - intros p r Hr. apply finishes_bind; [apply finishes_still, still_finish_effects|]. intros rs.
    apply finishes_bind; [by apply finishes_result|]. intros [s st].
    apply finishes_bind.
    { apply finishes_still, finish_cancel_still. }
    intros removed. apply finishes_still. still; apply still_delete_for.
Qed.

Lemma commit_effects_finishes e : finishes (commit_effects e).
Proof.
  unfold commit_effects. apply finishes_prepared; [apply still_prepare_effects| |].
  - intros p t. apply steady_bind; [apply still_get|]. intros reg.
    apply steady_seq; [apply steady_staging, clean_effects|]. intros. apply steady_ret.
  - intros p r Hr. apply finishes_bind; [apply finishes_still, still_finish_effects|]. intros rs.
    apply finishes_bind; [by apply finishes_result|]. intros. apply finishes_ret.
Qed.

Lemma write_job_txn_finishes p e : finishes (write_job_txn p e).
Proof.
  apply retry_finishes. intros t. apply steady_seq; [apply steady_staging, clean_job_writes|].
  intros [ex|i] t1; [apply steady_ret|]. apply steady_bind; [apply still_get|]. intros reg.
  apply steady_seq; [apply steady_staging, clean_effects|]. intros. apply steady_ret.
Qed.

Lemma write_job_finishes p e : finishes (write_job p e).
Proof.
  assert (Hk : ∀ (pw : PreparedJob * Result (string + string * list EnqueueResult)),
    done_result pw.2 →
    finishes (let '(prepared, written) := pw in
      let '(outcome, staged) := match written with
        | Ok (inr (jid, staged)) => (Ok (New jid), Some staged)
        | Ok (inl existing) => (Ok (AlreadyEnqueued existing), None)
        | Err e => (Err e, None)
        end in
      finish_job_write prepared (bool_decide (is_Some staged)) ≫= λ _,
      results ← finish_effects e staged; outcome ← io_result outcome;
      mret (outcome, default [] results))).
  { intros [p' wr] Hr. cbn in Hr.
    set (os := match wr with Ok (inr (jid, st)) => _ | Ok (inl ex) => _ | Err e => _ end).
    assert (Ho : done_result os.1).
    { subst os. destruct wr as [[ex|[i st]]|err]; cbn; [done|done|]. by intros [= ->]. }
    destruct os as [outcome staged]. cbn in Ho. apply finishes_bind.
    - apply finishes_still. unfold finish_job_write. still; apply still_delete_for.
    - intros _. apply finishes_bind; [apply finishes_still, still_finish_effects|]. intros rs.
      apply finishes_bind; [by apply finishes_result|]. intros. apply finishes_ret. }
  unfold write_job. apply finishes_try_bind; [apply finishes_still, still_offload|].
  intros [j|err] Hr.
  - intros w. unfold mbind at 1, IO_bind at 1. unfold mbind at 1, IO_bind at 1, io_try.
    pose proof (write_job_txn_finishes (mkPrepared j (id_override_used p)) e w) as Hw.
    destruct (write_job_txn _ e w) as [r w1].
    exact (Hk (mkPrepared j (id_override_used p), r) Hw w1).
  - assert (He : done_result (Err err : Result (string + string * list EnqueueResult)))
      by (intros [= ->]; by apply Hr).
    exact (Hk (p, Err err) He).
Qed.

Lemma enqueue_with_finishes q pl opts : finishes (enqueue_with q pl opts).
Proof.
  apply finishes_bind; [apply finishes_still, still_prepare_job|]. intros p.
  apply finishes_bind; [apply write_job_finishes|]. intros []. apply finishes_ret.
Qed.
Lemma enqueue_effects_finishes q pl opts e : finishes (enqueue_with_effects q pl opts e).
Proof.
  apply finishes_bind; [apply finishes_still, still_prepare_job|]. intros p.
  apply finishes_bind; [apply finishes_still, still_prepare_effects|]. intros. apply write_job_finishes.
Qed.
Lemma enqueue_batch_finishes q pls : finishes (enqueue_batch q pls).
Proof.
  unfold enqueue_batch. destruct pls; [apply finishes_ret|].
  apply finishes_bind; [apply commit_effects_finishes|]. intros. apply finishes_ret.
Qed.

(** *** Claims *)

Lemma steady_claim_job k j now le t : steady t (claim_job k j now le t).
Proof.
  unfold claim_job, new_claim_id.
  apply steady_bind; [solve [still]|]. intros cid.
  apply steady_seq; [apply steady_staging, clean_move_job|]. intros j1 t1.
  apply steady_bind; [apply still_new_token|]. intros tok.
  apply steady_bind; [solve [still]|]. intros _. apply steady_bind; [solve [still]|]. intros _.
  apply steady_seq; [apply steady_staging, clean_release|]. intros. apply steady_ret.
Qed.

Lemma steady_claim_candidates l now le t : steady t (claim_candidates l now le t).
Proof.
  revert t. induction l as [|[k v] l IH]; intros t; [apply steady_ret|]. cbn [claim_candidates].
  apply steady_bind; [apply still_result, done_decode|]. intros j.
  apply steady_seq; [apply steady_claim_job|]. intros c t1.
  apply steady_seq; [apply IH|]. intros. apply steady_ret.
Qed.

Lemma collect_done {A} (l : list (Result A)) : Forall done_result l → done_result (collect_results (λ r, r) l).
Proof.
  induction 1 as [|r l Hr Hl IH]; [done|]. cbn [collect_results].
  apply done_bind; [done|]. intros a. apply done_bind; [done|]. intros. apply done_Ok.
Qed.

Lemma mapM_try {A B} (f : A → Q B) l w r w' :
  (∀ a, still (f a)) → io_mapM (λ a, io_try (f a)) l w = (Ok r, w') → Forall done_result r.
Proof.
  intros Hf. revert w r. induction l as [|a l IH]; intros w r; cbn [io_mapM].
  - intros [= <- <-]. constructor.
  - intros (x & w1 & E & (xs & w2 & E2 & H)%IO_bind_Ok)%IO_bind_Ok. injection H as <- <-.
    constructor; [|by eapply IH]. unfold io_try in E. destruct (Hf a w) as (Hd & _).
    destruct (f a w). by injection E as <- <-.
Qed.

Lemma materialize_finishes cs : finishes (materialize_payloads cs).
Proof.
  intros w. unfold materialize_payloads.
  assert (Hs : still (io_mapM (λ c, io_try (materialize (job c))) cs)).
  { apply still_mapM. intros c. apply still_try, still_materialize. }
  destruct (Hs w) as (Hd & _). unfold mbind at 1, IO_bind at 1.
  destruct (io_mapM _ cs w) as [[r|e] w1] eqn:E; [|by intros [= ->]; apply Hd].
  assert (Hc : finishes (js ← io_result (collect_results (λ r, r) r);
    mret (zip_with (λ c j, mkClaim j (claim_id c) (cancel c)) cs js))); [|apply Hc].
  apply finishes_bind; [|intros; apply finishes_ret]. apply finishes_result, collect_done.
  eapply (mapM_try (λ c, materialize (job c))); [intros; apply still_materialize|done].
Qed.

Lemma claim_loop_done fuel q n lease w :
  length (others w) < fuel → done_result (claim_batch_loop fuel q n lease w).1.
Proof.
  revert w. induction fuel as [|fuel IH]; intros w Hf; [lia|]. cbn [claim_batch_loop].
  unfold mbind at 1, IO_bind at 1. cbn [get io_gets].
  set (scan := begin_claim q _). destruct (start_known_empty scan); [done|].
  unfold mbind at 1, IO_bind at 1. destruct (yield_others w) as [E1 Hy1].
  destruct (yield w) as [r w1]. cbn in E1, Hy1. subst r.
  unfold mbind at 1, IO_bind at 1.
  pose proof (begin_base w1) as Hbeg. destruct (begin w1) as [[t|e] w0]; [|by intros [= ->]].
  destruct Hbeg as [-> Hbase].
  unfold mbind at 1, IO_bind at 1. destruct (yield_others w1) as [E2 Hy2].
  destruct (yield w1) as [r w2]. cbn in E2, Hy2. subst r.
  unfold mbind at 1, IO_bind at 1, io_result at 1.
  destruct (lift _) as [l|e] eqn:El; [|intros [= ->]; by apply (done_lift (txn_scan_prefix (txn t)
    (pending_prefix q) (scan_start q scan)))].
  cbn zeta. destruct (last _) as [last_kv|].
  2: { apply finishes_bind; [apply finishes_upd|intros; apply finishes_ret]. }
  unfold mbind at 1, IO_bind at 1. destruct (still_now_ms w2) as (Hd3 & Hdb3 & Ho3 & _).
  destruct (now_ms w2) as [[now|e] w3]; [|by intros [= ->]; apply Hd3]. cbn in Hdb3, Ho3.
  set (le := wrap64 _). destruct (steady_claim_candidates (take n l) now le t) as [Hst Hbt].
  destruct (Hst w3) as (Hd4 & Hdb4 & Ho4 & _). specialize (Hbt w3).
  unfold mbind at 1, IO_bind at 1.
  destruct (claim_candidates _ _ _ _ w3) as [[[cs t']|e] w4]; [|by intros [= ->]; apply Hd4].
  cbn in Hdb4, Ho4. specialize (Hbt cs t' w4 eq_refl).
  unfold mbind at 1, IO_bind at 1. destruct (yield_others w4) as [E5 Hy5].
  destruct (yield w4) as [r w5]. cbn in E5, Hy5. subst r.
  unfold mbind at 1, IO_bind at 1. pose proof (commit_done t' Deferred w5) as Hc.
  destruct (commit t' Deferred w5) as [[[]|e] w6] eqn:Ec; [| |by intros [= ->]].
  - apply finishes_bind; [apply finishes_upd|]. intros _.
    apply finishes_bind; [|intros; apply finishes_ret]. by destruct (bool_decide _).
  - apply commit_conflict_base in Ec as [-> Hne]. apply IH.
    assert (Hl : length (others w2) = length (others w4)) by congruence.
    destruct Hy1 as [[Hn1 ->]|Hl1]; [|destruct Hy2 as [[? ->]|?]; destruct Hy5 as [[? ->]|?]; lia].
    destruct Hy2 as [[Hn2 ->]|Hl2]; [|destruct Hy5 as [[? ->]|?]; lia].
    destruct Hy5 as [[Hn5 ->]|Hl5]; [|rewrite Hn1 in *; cbn in *; lia].
    destruct Hne. congruence.
Qed.

Lemma core_claim_batch_finishes q n lease : finishes (core_claim_batch q n lease).
Proof.
  apply finishes_bind; [done|]. intros b. apply finishes_bind.
  { apply finishes_still. still. }
  intros _. apply finishes_bind; [done|]. intros []; [apply finishes_ret|].
  apply finishes_bind; [|intros; apply materialize_finishes].
  intros w. apply claim_loop_done. lia.
Qed.

Lemma claim_batch_finishes q n lease : finishes (claim_batch q n lease).
Proof.
  apply finishes_bind; [apply finishes_result, done_queue_name|]. intros q'.
  case_decide; [apply finishes_ret|apply core_claim_batch_finishes].
Qed.

Lemma claim_with_wait_finishes waits q lease : finishes (claim_with_wait waits q lease).
Proof.
  assert (H1 : finishes (claim_one q lease)).
  { apply finishes_bind; [apply claim_batch_finishes|intros; apply finishes_ret]. }
  assert (H2 : ∀ f, finishes (on_wakeup f q)).
  { intros f. unfold on_wakeup. destruct (QueueName_new q); [apply finishes_upd|apply finishes_ret]. }
  induction waits as [|waits IH]; cbn [claim_with_wait];
    (apply finishes_bind; [done|]; intros [claim|];
      [by apply finishes_bind; [|intros _; apply finishes_ret]|]).
  - apply finishes_ret.
  - apply finishes_bind; [|by intros _]. by apply finishes_bind; [|intros _; apply finishes_yield].
Qed.

Lemma claim_by_id_finishes i lease : finishes (claim_by_id i lease).
Proof.
  apply finishes_bind.
  - apply transition_finishes; [done|]. intros t k j. destruct (_ || _); [|apply steady_ret].
    apply steady_bind; [apply still_now_ms|]. intros now.
    apply steady_seq; [apply steady_claim_job|]. intros. apply steady_ret.
  - intros [c|o]; [|apply finishes_ret]. apply finishes_bind; [apply materialize_finishes|].
    intros [|]; [by apply finishes_err|apply finishes_ret].
Qed.

(** *** Transitions by id, reads and leases *)

Lemma wake_finishes i : finishes (wake_scheduled i).
Proof.
  apply finishes_bind; [|intros; apply finishes_ret]. apply retry_finishes. intros t.
  apply steady_seq; [apply steady_staging, clean_stage_wake|]. intros. apply steady_ret.
Qed.
Lemma signal_finishes i pl : finishes (signal_job i pl).
Proof.
  apply retry_finishes. intros t.
  apply steady_seq; [apply steady_staging, clean_stage_signal|]. intros. apply steady_ret.
Qed.
Lemma requeue_dead_finishes i : finishes (requeue_dead_job i).
Proof.
  apply finishes_bind; [|intros; apply finishes_ret]. apply transition_finishes; [done|].
  intros t k j. case_decide; [|by apply steady_err].
  apply steady_seq; [apply steady_staging, clean_to_pending|]. intros j' t1.
  apply steady_bind; [apply still_now_ms|]. intros now.
  apply steady_seq; [apply steady_staging, clean_append|]. intros. apply steady_ret.
Qed.

Lemma finishes_begin {A} (f : Txn → Q A) : (∀ t, finishes (f t)) → finishes (begin ≫= f).
Proof.
  intros Hf. apply finishes_bind; [|done]. intros w. pose proof (begin_base w) as Hb.
  destruct (begin w) as [[t|e] w']; [done|]. by intros [= ->].
Qed.

Lemma get_job_finishes i : finishes (view_get_job i).
Proof.
  apply finishes_begin. intros t.
  apply finishes_bind; [apply finishes_result, done_indexed_job|]. intros [[[ik k] j]|]; [|done].
  apply finishes_bind; [apply finishes_yield|]. intros _.
  apply finishes_try_bind; [apply finishes_still, still_materialize|]. intros [j'|e] Hr; [done|].
  assert (He : e ≠ Unfinished) by (intros ->; by apply Hr).
  destruct e; try by apply finishes_err.
  apply finishes_bind; [done|]. intros d. apply finishes_bind; [apply finishes_result, done_lift|].
  intros []; [by apply finishes_err|done].
Qed.

Lemma completion_finishes i : finishes (completion i).
Proof.
  apply finishes_bind.
  { intros w. unfold io_state. by destruct (register i _). }
  intros r. apply finishes_bind; [apply finishes_yield|]. intros _. cbn zeta.
  apply finishes_try_bind; [apply get_job_finishes|]. intros [[j|]|e] Hr.
  - by destruct (status j).
  - done.
  - apply finishes_bind; [done|]. intros _. apply finishes_err. intros ->. by apply Hr.
Qed.

Lemma renew_finishes claim ext : finishes (renew_lease claim ext).
Proof.
  apply finishes_bind; [apply finishes_still, still_now_ms|]. intros now. apply finishes_bind; [done|].
  intros reg. apply finishes_bind; [apply finishes_result, done_renew|]. by intros [].
Qed.
Lemma ensure_finishes claim r : finishes (ensure_at_least claim r).
Proof.
  apply finishes_bind; [apply finishes_still, still_now_ms|]. intros now. apply finishes_bind; [done|].
  intros reg. apply finishes_bind; [apply finishes_result, done_renew|]. by intros [].
Qed.

(** *** The user key space *)

Lemma await_finishes : finishes await_durable.
Proof. apply finishes_still. unfold await_durable. still. Qed.
Lemma kv_put_finishes k v : finishes (kv_put k v).
Proof.
  apply finishes_bind; [apply finishes_result, done_kv_value|]. intros _.
  apply finishes_bind; [done|]. intros d. apply finishes_bind; [apply finishes_result, done_lift|].
  intros d'. apply finishes_bind; [done|]. intros. apply await_finishes.
Qed.
Lemma kv_delete_finishes k : finishes (kv_delete k).
Proof.
  apply finishes_bind; [done|]. intros d. apply finishes_bind; [apply finishes_result, done_lift|].
  intros d'. apply finishes_bind; [done|]. intros. apply await_finishes.
Qed.
Lemma kv_compare_finishes k e f : (∀ s, clean (f s)) → finishes (kv_compare_then k e f).
Proof.
  intros Hf. apply retry_finishes. intros t.
  apply steady_seq; [apply steady_staging, clean_kv_state|]. intros [] t1; [|apply steady_ret].
  apply steady_seq; [apply steady_staging, Hf|]. intros. apply steady_ret.
Qed.
Lemma kv_compare_delete_finishes k e : finishes (kv_compare_delete k e).
Proof. apply kv_compare_finishes. intros. apply clean_delete. Qed.
Lemma kv_compare_put_finishes k e v : finishes (kv_compare_put k e v).
Proof.
  apply finishes_bind; [apply finishes_result, done_kv_value|]. intros _.
  apply kv_compare_finishes. intros. apply clean_put.
Qed.

(** *** The sweeps *)

Lemma finishes_commit {A} t d (f : Commit → Q A) : (∀ c, finishes (f c)) → finishes (commit t d ≫= f).
Proof. intros Hf. apply finishes_bind; [|done]. intros w. apply commit_done. Qed.

Lemma finishes_staging {A B} (m : TxnM A) t (f : A * Txn → Q B) :
  clean m → (∀ r, finishes (f r)) → finishes (staging m t ≫= f).
Proof.
  intros Hm Hf. apply finishes_bind; [|done]. apply finishes_still, (steady_staging t m Hm).
Qed.

Lemma with_scan_finishes {A} bound set_bound now ret (idle : A) body :
  (∀ s, finishes (body s)) → finishes (with_scan bound set_bound now ret idle body).
Proof.
  intros Hb. apply finishes_bind; [done|]. intros b. destruct (tb_begin now ret b) as [[s|] b']; [|done].
  apply finishes_bind; [done|]. intros _. apply finishes_try_bind; [done|].
  intros [[a s']|e] Hr; (apply finishes_bind; [done|]; intros _); [done|].
  apply finishes_err. intros ->. by apply Hr.
Qed.

Lemma scan_finishes p s : finishes (db_scan p s).
Proof. apply finishes_still. unfold db_scan. still. Qed.

Lemma promote_job_finishes k : finishes (promote_job k).
Proof.
  apply finishes_bind; [|done]. apply retry_finishes. intros t.
  apply steady_seq; [apply steady_staging, clean_get|]. intros [b|] t1; [|apply steady_ret].
  apply steady_bind; [apply still_result, done_decode|]. intros j.
  apply steady_seq; [apply steady_staging, clean_to_pending|]. intros. apply steady_ret.
Qed.

Lemma promote_finishes : finishes promote_due_jobs.
Proof.
  apply finishes_bind; [apply finishes_still, still_now_ms|]. intros now.
  apply with_scan_finishes. intros s. apply finishes_bind; [apply scan_finishes|]. intros l.
  destruct (due_keys TScheduled l s) as [due s']. apply finishes_bind; [apply finishes_yield|]. intros _.
  apply finishes_bind; [|done]. apply finishes_for_each. intros []. apply promote_job_finishes.
Qed.

Lemma reap_job_finishes l : finishes (reap_job l).
Proof.
  apply finishes_bind.
  - apply retry_finishes. intros t. apply steady_bind; [apply still_get|]. intros reg.
    destruct (lease_current _ _ reg) as [[e c]|]; [|apply steady_ret].
    case_decide; [|apply steady_ret].
    apply steady_seq; [apply steady_staging, clean_get|]. intros [b|] t1.
    + apply steady_bind; [apply still_result, done_decode|]. intros j.
      apply steady_bind; [apply still_now_ms|]. intros now.
      apply steady_seq; [apply steady_staging, clean_claim_end|]. intros. apply steady_ret.
    + apply steady_bind; [solve [still]|]. intros _. apply steady_ret.
  - intros [[j e]|]; [apply still_finish_claim|done].
Qed.

Lemma reap_all_finishes due : finishes (reap_all due).
Proof.
  induction due as [|l due IH]; [done|]. cbn [reap_all].
  apply finishes_try_bind; [apply reap_job_finishes|]. intros [u|[]] Hr; try exact IH.
  by apply finishes_err.
Qed.

Lemma reap_expired_finishes : finishes reap_expired.
Proof.
  apply finishes_bind; [apply finishes_still, still_now_ms|]. intros now.
  apply finishes_bind; [done|]. intros reg. apply finishes_bind; [apply finishes_result, done_take_due|].
  intros [due reg']. apply finishes_bind; [done|]. intros _. apply reap_all_finishes.
Qed.

Lemma sweep_victim_finishes k j refs : finishes (sweep_victim k j refs).
Proof.
  apply finishes_begin. intros t. apply finishes_bind; [apply finishes_yield|]. intros _.
  apply finishes_staging; [apply clean_get|]. intros [raw t1].
  apply finishes_staging; [destruct (bool_decide _); [apply clean_stage_remove|apply clean_ret]|].
  intros [u t2]. apply finishes_bind; [apply finishes_yield|]. intros _.
  by apply finishes_commit; intros [].
Qed.

Lemma sweep_victims_finishes vs os refs : finishes (sweep_victims vs os refs).
Proof.
  revert os refs. induction vs as [|[[k j] a] vs IH]; intros os refs; [done|]. cbn [sweep_victims].
  apply finishes_bind; [apply sweep_victim_finishes|]. intros []. apply IH.
Qed.

Lemma sweep_scanned_finishes tag now rf start os : finishes (sweep_scanned tag now rf start os).
Proof.
  apply finishes_bind; [apply scan_finishes|]. intros l.
  destruct (expired_records tag now rf l os) as [vs os'].
  apply finishes_bind; [apply finishes_yield|]. intros _.
  apply finishes_bind; [apply sweep_victims_finishes|]. intros [os2 refs].
  apply finishes_bind; [|done]. apply finishes_still. unfold delete_all, delete_objects. still.
Qed.

Lemma sweep_expired_finishes st rf mr : finishes (sweep_expired st rf mr).
Proof.
  unfold sweep_expired. destruct st; try (by apply finishes_err).
  - apply finishes_bind; [apply finishes_still, still_now_ms|]. intros now. destruct mr.
    + apply with_scan_finishes. intros s. apply finishes_bind; [apply sweep_scanned_finishes|done].
    + apply finishes_bind; [apply sweep_scanned_finishes|done].
  - apply finishes_bind; [apply finishes_still, still_now_ms|]. intros now.
    apply finishes_bind; [apply sweep_scanned_finishes|done].
Qed.

Lemma sweep_inbox_finishes ret : finishes (sweep_inbox_records ret).
Proof.
  apply finishes_bind; [apply finishes_still, still_now_ms|]. intros now.
  apply with_scan_finishes. intros s. apply finishes_bind; [apply scan_finishes|]. intros l.
  destruct (due_keys TInboxExpiry l s) as [due s'].
  apply finishes_bind; [apply finishes_yield|]. intros _. apply finishes_bind; [|done].
  generalize (chunks (length due) INBOX_SWEEP_BATCH due), s'. clear -DL.
  intros bs. induction bs as [|b bs IH]; intros s; [done|]. cbn [sweep_inbox_batches].
  apply finishes_bind; [|done]. apply finishes_begin. intros t.
  apply finishes_staging; [apply clean_inbox_batch|]. intros [u t1].
  apply finishes_bind; [apply finishes_yield|]. intros _. by apply finishes_commit; intros [].
Qed.

Lemma reaper_finishes ret : finishes (reaper_step ret).
Proof.
  unfold reaper_step. apply finishes_try_bind; [apply reap_expired_finishes|]. intros r Hr.
  assert (Ht : ∀ A (m : Q A), finishes (io_try m ≫= λ _, mret tt)).
  { intros A m. apply finishes_bind; [apply finishes_try|done]. }
  apply finishes_bind; [destruct max_keep_done; [apply Ht|done]|]. intros _.
  apply finishes_bind; [destruct (existsb _ _); [apply Ht|done]|]. intros _.
  apply finishes_bind; [done|]. intros b.
  apply finishes_bind; [destruct b; [apply Ht|done]|]. intros _. by apply finishes_result.
Qed.

Lemma store_closed_finishes : finishes watch_store_close.
Proof. done. Qed.

End finishes.
