(* ===== verification/InboxOk.v ===== *)
(** * The inbox preserves the invariant, and its passes end

    The application of an entry, the commit of a rejection and the other calls of a
    pass, from the lemmas of [OpsOk] and [Finishes]. *)
From S2P Require Import Prelude Bytes Error Monad Keys Job Store Stats LeaseRegistry.
From S2P Require Import TimeBound ClaimCursor Completion Txn Stage StoreInv Sound Core.
From S2P Require Import QueueCore Control Effects Claim Settle Enqueue.
From S2P Require Import Sweeps InboxEntry Inbox Queue CoreInv StagedOps OpsOk CallsOk.
From S2P Require Import Finishes.

Section inbox_ok.
  Context {DB : SlateDb} {OS : ObjectStore} {SR : Serde JobRecord} {SA : Serde JobAttempt}.
  Context {SC : Serde CountRecord} {EN : Env} {ST : EntryStore} {IE : InboxEnv}.
  Context {SE : Serde EnqueueEntry} {SCa : Serde CancelEntry} {SSi : Serde SignalEntry}.
  Context {SI : Serde InboxRecord} {DL : SlateDbLaws merge_batch} {CI : Invariant}.
  Implicit Types (t : Txn) (j : JobRecord).

(** ** Records and rejections *)

Abbreviation none := (λ _ : string, False).

Lemma is_other_record q i : is_other (inbox_record_key q i) = true.
Proof. reflexivity. Qed.
Lemma is_other_expiry at' q i : is_other (inbox_expiry_key at' q i) = true.
Proof. reflexivity. Qed.
Lemma is_other_failure q i : is_other (inbox_failure_key q i) = true.
Proof. reflexivity. Qed.

Lemma step_stage_inbox_record {NI : NewIds} t sr r :
  sound t → stage_inbox_record sr t = Ok r → step_ok none t r.2.
Proof.
  intros Ht H. unfold stage_inbox_record in H.
  apply M_bind_Ok in H as (u1 & t1 & E1 & H). apply M_bind_Ok in H as (u2 & t2 & E2 & H).
  apply (step_trans _ _ t1); [by apply (step_put_other _ _ _ _ (is_other_record _ _) Ht E1)|]. intros Ht1.
  apply (step_trans _ _ t2); [by apply (step_put_other _ _ _ _ (is_other_expiry _ _ _) Ht1 E2)|]. intros Ht2.
  by eapply step_map_notes.
Qed.

(** The last step of the body of an application. *)
Lemma keeps_record {NI : NewIds} {A} J t sr (a : A) :
  sound t → keeps J (staging (stage_inbox_record sr) t ≫= λ '(_, t), mret (a, t)) (λ _ t', sound t').
Proof.
  intros Ht. apply keeps_staging. intros u t1 H. apply keeps_ret.
  by apply (step_stage_inbox_record _ _ _ Ht H).
Qed.

#[local] Existing Instance no_ids.

Lemma commit_rejection_ok h r : preserves world_ok (commit_rejection h r).
Proof.
  apply preserves_bind; [|intros; apply preserves_ret]. apply retry_nobody. intros t Ht.
  by apply keeps_record.
Qed.

(** ** The kinds of entries *)

Lemma apply_cancel_ok q e h : preserves world_ok (apply_cancel q e h).
Proof.
  apply preserves_bind.
  - apply retry_nobody. intros t Ht. apply keeps_result. intros other _.
    apply (keeps_seq _ _ _ _ (λ _ t', sound t')).
    + destruct other; [by apply keeps_ret|]. apply keeps_staging. intros s t1 H. apply keeps_ret.
      by apply (step_stage_cancel _ _ _ Ht H).
    + intros [o s] t1 Ht1. by apply keeps_record.
  - intros [o [s|]].
    + apply preserves_bind; [apply finish_cancel_ok|intros; apply preserves_ret].
    + apply preserves_bind; [apply preserves_ret|intros; apply preserves_ret].
Qed.

Lemma apply_signal_ok q e h : preserves world_ok (apply_signal q e h).
Proof.
  apply retry_nobody. intros t Ht. apply keeps_result. intros other _.
  apply (keeps_seq _ _ _ _ (λ _ t', sound t')).
  - destruct other; [by apply keeps_ret|]. apply keeps_staging. intros s t1 H. apply keeps_ret.
    unfold stage_signal in H. apply M_bind_Ok in H as (r & t2 & H & Hr). injection Hr as <- <-.
    by apply (step_stage_wake _ _ _ _ Ht H).
  - intros o t1 Ht1. by apply keeps_record.
Qed.

Context {UL : UlidLaws}.

Lemma apply_enqueue_ok q e h w :
  fresh_under [mkRequest q (ee_payload e) (ee_options e)] w → world_ok (apply_enqueue q e h w).2.
Proof using DL UL.
  intros Hf. pose proof (fresh_under_ok _ _ Hf) as Hw. unfold apply_enqueue. unfold mbind at 1, IO_bind at 1.
  pose proof (quiet_ok _ (quiet_prepare_job_record q (ee_payload e) (ee_options e)) w Hw) as Hw1.
  destruct (prepare_job_record _ _ _ w) as [[p|err] w1] eqn:E; [|apply Hw1]. cbn [snd] in Hw1.
  eapply (prepared_with (mkRequest q (ee_payload e) (ee_options e)) effects_default);
    [exact E|done|exact Hf|].
  intros NI J R HR HJ HwJ Hb. unfold mbind at 1, IO_bind at 1, io_try at 1.
  pose proof (quiet_fresh J _ (quiet_offload (prepared_job p)) w1 HwJ) as Hw2.
  destruct (offload (prepared_job p) w1) as [o w2] eqn:Eo. cbn [snd] in Hw2.
  apply world_ok_bind.
  - destruct o as [j|err]; [|apply Hw2]. apply offload_Ok in Eo as [Hj _].
    apply world_ok_bind; [|intros; apply preserves_ret].
    apply world_ok_try, (retry_ok (NI := NI) R J); [done..| |exact Hw2].
    apply body_ok_keeps. intros t Ht Hn. destruct (Hb j t Hj Hn) as [Hp _].
    apply keeps_staging. intros written t1 H. apply keeps_record.
    by apply (step_stage_job_writes _ _ _ Ht Hp H).
  - intros [p' r]. apply preserves_bind; [|intros; apply preserves_result].
    unfold finish_job_write.
    repeat case_match; first [apply preserves_ret|apply quiet_ok, quiet_delete_for].
Qed.

(** The requests of the job that an entry enqueues. *)
Definition entry_requests (q : string) (e : InboxEntry) : list EnqueueRequest :=
  match e with EntryEnqueue e => [mkRequest q (ee_payload e) (ee_options e)] | _ => [] end.

Lemma apply_entry_ok q h e w : fresh_under (entry_requests q e) w → world_ok (apply_entry q h e w).2.
Proof using DL UL.
  intros Hf. apply world_ok_bind.
  - apply world_ok_try. destruct e as [e|e|e]; cbn [entry_requests] in Hf.
    + apply world_ok_bind; [by apply apply_enqueue_ok|intros; apply preserves_ret].
    + by eapply apply_cancel_ok, fresh_under_ok.
    + apply world_ok_bind; [by eapply apply_signal_ok, fresh_under_ok|intros; apply preserves_ret].
  - intros [r|err]; [apply preserves_ret|]. case_match; [|apply preserves_err].
    apply preserves_bind; [apply commit_rejection_ok|intros; apply preserves_ret].
Qed.

(** ** The failures of reads *)

Lemma unreadable_ok q i e : preserves world_ok (unreadable q i e).
Proof.
  apply preserves_bind; [apply now_ms_ok|]. intros now. apply preserves_bind; [apply preserves_gets|].
  intros d. apply preserves_bind; [apply preserves_result|]. intros b. case_match; [apply preserves_ret|].
  apply preserves_bind; [|intros; apply preserves_ret]. apply retry_nobody. intros t Ht.
  apply keeps_staging. intros u t1 Hput. apply keeps_ret.
  by apply (sound_put_other _ _ _ _ (is_other_failure _ _) Ht Hput).
Qed.

Lemma clear_inbox_failures_ok : preserves world_ok clear_inbox_failures.
Proof.
  apply db_scan_bind. intros m l _ Hl. destruct l as [|x l']; [apply preserves_ret|].
  set (l := x :: l') in *. apply retry_nobody. intros t Ht. apply keeps_staging. intros u t1 H.
  apply keeps_ret. assert (Hk : ∀ k, k ∈ l.*1 → is_other k = true).
  { intros k Hk. destruct (scan_prefix_in _ _ _ _ _ Hl Hk) as [suffix ->]. reflexivity. }
  apply (step_for_each t_delete l.*1 t (u, t1) Ht) in H; [apply H|].
  intros k t0 r Hin Ht0 Hd. apply (step_delete_other t0 k); [by apply Hk|done|done].
Qed.
(** ** The passes end *)

#[local] Set Default Proof Using "Type DL".

Lemma done_Err {A B} e : done_result (Err e : Result A) → done_result (Err e : Result B).
Proof. by intros H [= ->]. Qed.

Lemma clean_inbox_record sr : clean (stage_inbox_record sr).
Proof.
  apply clean_bind; [apply clean_put|]. intros _. apply clean_bind; [apply clean_put|]. intros _.
  apply clean_notes.
Qed.

(** The bodies of the applications. *)
Lemma steady_record {A} t sr (a : A) : steady t (staging (stage_inbox_record sr) t ≫= λ '(_, t), mret (a, t)).
Proof. apply steady_seq; [apply steady_staging, clean_inbox_record|intros; apply steady_ret]. Qed.

Lemma still_on_another_queue t i q : still (io_result (on_another_queue t i q)).
Proof.
  apply still_result. unfold on_another_queue. apply done_bind; [apply done_indexed_job|].
  intros [[[]]|]; done.
Qed.

Lemma rejection_body_steady h r : body_steady (λ t,
  '(_, t) ← staging (stage_inbox_record (handle_staged h (OutcomeRejected r))) t; mret (CommitWith tt, t)).
Proof. intros t. apply steady_record. Qed.

Lemma cancel_body_steady q i h : body_steady (λ t,
  other ← io_result (on_another_queue t i q);
  '(outcome, staged, t) ← (match other with
    | Some r => mret (OutcomeRejected r, None, t)
    | None =>
        '(staged, t) ← staging (stage_cancel i) t;
        mret (OutcomeCancel (cancel_outcome staged), Some staged, t)
    end : Q (InboxOutcome * option StagedCancel * Txn));
  '(_, t) ← staging (stage_inbox_record (handle_staged h outcome)) t;
  mret (CommitWith (outcome, staged), t)).
Proof.
  intros t. apply steady_bind; [apply still_on_another_queue|]. intros other. apply steady_seq.
  - destruct other; [apply steady_ret|].
    apply steady_seq; [apply steady_staging, clean_stage_cancel|intros; apply steady_ret].
  - intros [o s] t1. apply steady_record.
Qed.

Lemma signal_body_steady q i pl h : body_steady (λ t,
  other ← io_result (on_another_queue t i q);
  '(outcome, t) ← (match other with
    | Some r => mret (OutcomeRejected r, t)
    | None =>
        '(o, t) ← staging (stage_signal i pl) t;
        mret (OutcomeSignal o, t)
    end : Q (InboxOutcome * Txn));
  '(_, t) ← staging (stage_inbox_record (handle_staged h outcome)) t;
  mret (CommitWith outcome, t)).
Proof.
  intros t. apply steady_bind; [apply still_on_another_queue|]. intros other. apply steady_seq.
  - destruct other; [apply steady_ret|].
    apply steady_seq; [apply steady_staging, clean_stage_signal|intros; apply steady_ret].
  - intros o t1. apply steady_record.
Qed.

Lemma enqueue_body_steady p h : body_steady (λ t,
  '(written, t) ← staging (stage_job_writes p) t;
  let outcome := OutcomeEnqueue (match written with
    | inr i => New i | inl existing => AlreadyEnqueued existing end) in
  '(_, t) ← staging (stage_inbox_record (handle_staged h outcome)) t;
  mret (CommitWith outcome, t)).
Proof.
  intros t. apply steady_seq; [apply steady_staging, clean_job_writes|].
  intros written t1. apply steady_record.
Qed.

Lemma still_finish_write p (b : bool) : still (finish_job_write p b).
Proof. unfold finish_job_write. repeat case_match; first [apply still_ret|apply still_delete_for]. Qed.

Lemma commit_rejection_finishes h r : finishes (commit_rejection h r).
Proof. apply finishes_bind; [apply retry_finishes, rejection_body_steady|intros; apply finishes_ret]. Qed.

Lemma apply_enqueue_finishes q e h : finishes (apply_enqueue q e h).
Proof.
  unfold apply_enqueue. apply finishes_bind; [apply finishes_still, still_prepare_job|]. intros p.
  apply finishes_try_bind; [apply finishes_still, still_offload|]. intros o Ho.
  assert (Hr : ∀ p' (r : Result InboxOutcome) (b : bool), done_result r →
    finishes (finish_job_write p' b ≫= λ _, io_result r)).
  { intros p' r b Hr. apply finishes_bind; [apply finishes_still, still_finish_write|].
    intros. by apply finishes_result. }
  destruct o as [j|err].
  - intros w. unfold mbind at 1, IO_bind at 1, mbind at 1, IO_bind at 1, io_try.
    pose proof (retry_finishes Deferred _ (enqueue_body_steady (mkPrepared j (id_override_used p)) h) w) as Hd.
    destruct (retry _ _ w) as [r w1]. cbn in Hd |- *. by apply Hr.
  - intros w. by apply (Hr p (Err err) false), (done_Err err Ho).
Qed.

Lemma apply_entry_finishes q h e : finishes (apply_entry q h e).
Proof.
  apply finishes_try_bind.
  - destruct e as [e|e|e].
    + apply finishes_bind; [apply apply_enqueue_finishes|intros; apply finishes_ret].
    + apply finishes_bind; [apply retry_finishes, cancel_body_steady|]. intros [o s].
      apply finishes_bind; [|intros; apply finishes_ret].
      destruct s; [apply finishes_still, finish_cancel_still|apply finishes_ret].
    + apply finishes_bind; [apply retry_finishes, signal_body_steady|intros; apply finishes_ret].
  - intros [r|err] Hr; [apply finishes_ret|]. destruct (is_permanent err).
    + apply finishes_bind; [apply commit_rejection_finishes|intros; apply finishes_ret].
    + by apply finishes_result.
Qed.

Lemma has_record_still e : still (has_record e).
Proof.
  apply still_bind; [apply still_get|]. intros d. apply still_bind; [apply still_result, done_lift|].
  intros. apply still_ret.
Qed.

Lemma unreadable_finishes q i e : finishes (unreadable q i e).
Proof.
  apply finishes_bind; [apply finishes_still, still_now_ms|]. intros now.
  apply finishes_bind; [apply finishes_still, still_get|]. intros d.
  apply finishes_bind; [apply finishes_result, done_lift|]. intros b. case_match; [apply finishes_ret|].
  apply finishes_bind; [|intros; apply finishes_ret]. apply retry_finishes. intros t.
  apply steady_seq; [apply steady_staging, clean_put|intros; apply steady_ret].
Qed.

Lemma settle_entry_finishes s e body : finishes (settle_entry s e body).
Proof.
  apply finishes_bind; [apply finishes_still, has_record_still|]. intros []; [apply finishes_ret|].
  apply finishes_bind; [apply finishes_still, still_now_ms|]. intros now.
  apply finishes_bind; [apply finishes_yield|]. intros _. apply finishes_bind.
  - destruct (entry_rejection s e); [apply finishes_ret|].
    apply finishes_bind; [destruct body; [apply finishes_ret|apply finishes_still, still_get]|].
    intros []; try apply finishes_ret.
    apply finishes_bind; [apply unreadable_finishes|]. intros []; [apply finishes_ret|by apply finishes_err].
  - intros [[entry|r]|]; [| |apply finishes_ret].
    + apply finishes_bind; [apply apply_entry_finishes|]. intros []. apply finishes_ret.
    + apply finishes_bind; [apply commit_rejection_finishes|intros; apply finishes_ret].
Qed.

(** The end of a batch that was settled as far as [settled]. *)
Lemma prefetch_still s e : still (prefetch s e).
Proof.
  unfold prefetch. destruct (entry_rejection s e); [apply still_ret|].
  apply still_bind; [apply has_record_still|]. intros []; [apply still_ret|].
  apply still_bind; [apply still_get|intros; apply still_ret].
Qed.
(** What a call returns, when it is not an error; the error is not of the fuel. *)
Definition returns {A} (P : A → Prop) (m : Q A) : Prop :=
  ∀ w, match (m w).1 with Ok a => P a | Err e => e ≠ Unfinished end.

Lemma returns_ret {A} (P : A → Prop) a : P a → returns P (mret a).
Proof. by intros ? w. Qed.
Lemma returns_bind {A B} (P : A → Prop) (P' : B → Prop) (m : Q A) (f : A → Q B) :
  returns P m → (∀ a, P a → returns P' (f a)) → returns P' (m ≫= f).
Proof.
  intros Hm Hf w. unfold mbind, IO_bind. specialize (Hm w). destruct (m w) as [[a|e] w1]; [|done].
  by apply Hf.
Qed.
Lemma returns_try {A} (m : Q A) : finishes m → returns done_result (io_try m).
Proof. intros Hm w. unfold io_try. specialize (Hm w). by destruct (m w). Qed.
Lemma returns_finishes {A} (P : A → Prop) (m : Q A) : returns P m → finishes m.
Proof. intros Hm w Hu. specialize (Hm w). by rewrite Hu in Hm. Qed.

Lemma read_ahead_returns s ahead reads reading :
  Forall done_result reads →
  returns (λ r, Forall done_result r.1.2) (read_ahead s ahead reads reading).
Proof.
  revert reads reading. induction ahead as [|e ahead IH]; intros reads reading Hr; cbn [read_ahead].
  { by apply returns_ret. }
  assert (Hn : returns (λ r, Forall done_result r.1.2)
    (r ← io_try (prefetch s e); read_ahead s ahead (reads ++ [r]) (reading + pe_size e)%Z)).
  { eapply returns_bind; [apply returns_try, finishes_still, prefetch_still|]. intros r Hd.
    apply IH, Forall_app_2; [done|]. by constructor. }
  destruct reads; [done|]. destruct (_ || _); [by apply returns_ret|done].
Qed.

Lemma settle_batch_returns s batch ahead reads reading settled refs :
  Forall done_result reads →
  returns (λ r, done_result r.2) (settle_batch_from s batch ahead reads reading settled refs).
Proof.
  revert ahead reads reading settled refs. induction batch as [|e batch IH];
    intros ahead reads reading settled refs Hr; cbn [settle_batch_from]; [by apply returns_ret|].
  eapply returns_bind; [by apply read_ahead_returns|]. intros [[ahead' reads'] reading'] Hr'. cbn in Hr'.
  destruct Hr' as [|r reads' Hd Hr']; [by apply returns_ret|].
  destruct r as [prefetched|err]; [|by eapply returns_ret, done_Err].
  eapply returns_bind; [apply returns_try, settle_entry_finishes|]. intros [refs'|err] Hd'.
  - by apply IH.
  - by eapply returns_ret, done_Err.
Qed.

Lemma inbox_batch_finishes s batch : finishes (inbox_batch s batch).
Proof.
  eapply returns_finishes, (returns_bind _ (λ _, True)); [by apply settle_batch_returns|].
  intros [[settled refs] r] Hr. cbn in Hr.
  assert (Hf : finishes (A := ()) (match settled with
    | [] => mret tt
    | _ => d ← get db; io_result (lift (db_flush d)) ≫= λ _, yield ≫= λ _,
        delete_all refs ≫= λ _, delete_objects settled ≫= λ _, mret tt
    end)).
  { destruct settled; [apply finishes_ret|]. apply finishes_bind; [done|]. intros d.
    apply finishes_bind; [apply finishes_result, done_lift|]. intros _.
    apply finishes_bind; [done|]. intros _. apply finishes_still.
    unfold delete_all, delete_objects.
    repeat first [apply still_ret|apply still_objects|(apply still_bind; [|intros])]. }
  intros w. specialize (Hf w). unfold mbind at 1, IO_bind at 1.
  match goal with |- context [match ?m w with _ => _ end] => destruct (m w) as [[u|e] w1] end.
  - cbn. destruct r; [done|]. intros ->. by apply Hr.
  - cbn. intros ->. by apply Hf.
Qed.

Lemma clear_inbox_failures_finishes : finishes clear_inbox_failures.
Proof.
  apply finishes_bind; [apply finishes_still; unfold db_scan; apply still_bind; [apply still_get|];
    intros; apply still_result, done_lift|].
  intros [|x l]; [apply finishes_ret|]. apply retry_finishes. intros t.
  apply steady_seq; [|intros; apply steady_ret]. apply steady_staging, clean_for_each. apply clean_delete.
Qed.

(** A pass over the inbox returns. *)
Lemma inbox_pass_finishes : finishes inbox_pass.
Proof.
  unfold inbox_pass. destruct inbox_state as [s|]; [|apply finishes_ret].
  intros w. unfold inbox_pass_over, mbind at 1, IO_bind at 1. cbn [get io_gets].
  apply finishes_bind.
  - apply finishes_result. unfold list_entries. by destruct (os_list _ _).
  - intros entries. apply finishes_bind; [apply finishes_for_each, inbox_batch_finishes|].
    intros _. apply clear_inbox_failures_finishes.
Qed.

End inbox_ok.
