(* ===== verification/Linear.v ===== *)
(** * Where a call takes effect

    A call runs with other tasks in between; its transition takes effect at one
    point, the commit of its last attempt. This file locates that point: the
    store before it has, at every key the transaction read for update or wrote,
    what the transaction saw, and the store after it has what the transaction
    wrote, all of it at once. *)
From S2P Require Import Prelude Bytes Error Monad Keys Job Store Stats LeaseRegistry.
From S2P Require Import TimeBound ClaimCursor Completion Txn Stage StoreInv Sound Core.
From S2P Require Import QueueCore CoreInv Finishes.

Section linear.
  Context {DB : SlateDb} {OS : ObjectStore} {SR : Serde JobRecord} {SA : Serde JobAttempt}.
  Context {EN : Env} {DL : SlateDbLaws merge_batch}.
  Implicit Types (t : Txn) (w : World).

Abbreviation run := (apply_writes merge_batch merge_fallback).

(** [passes w w']: between [w] and [w'] only other tasks changed the store. *)
Inductive passes : World → World → Prop :=
| passes_refl w : passes w w
| passes_still w w1 w2 : passes w w1 → same_store w1 w2 → passes w w2
| passes_yield w w1 : passes w w1 → passes w (yield w1).2.

#[global] Instance passes_preorder : PreOrder passes.
Proof.
  split; [exact passes_refl|]. intros w1 w2 w3 H. induction 1 as [|w w2 w3 _ IH|w w2 _ IH]; [done|..].
  - eapply passes_still; [by apply IH|done].
  - by apply passes_yield, IH.
Qed.

(** Without other tasks nothing changes the store. *)
Lemma passes_alone w w' :
  passes w w' → others w = [] → db (core w') = db (core w) ∧ others w' = [].
Proof.
  induction 1 as [|w w1 w2 _ IH (E1 & E2 & _)|w w1 _ IH]; intros H; [done|..]; specialize (IH H) as [Ed Eo].
  - by rewrite E1, E2.
  - unfold yield, io_modify. cbn. by rewrite Eo.
Qed.

Lemma still_passes {A} (m : Q A) w r w' : still m → m w = (r, w') → passes w w'.
Proof.
  intros Hm E. destruct (Hm w) as [_ Hs]. rewrite E in Hs. by eapply passes_still; [apply passes_refl|].
Qed.

(** An invariant of the process that allows every claim id holds all along. *)
Lemma passes_keeps (CI : Invariant) w w' :
  (∀ z, usable CI z) → passes w w' → world_ok w → world_ok w'.
Proof.
  intros HU. induction 1 as [|w w1 w2 _ IH (E1 & E2 & E3 & E4 & E5)|w w1 _ IH]; intros Hw; [done|..].
  - specialize (IH Hw). destruct (world_core w1 IH) as [Hs Hc Hr]. destruct w2 as [c2 o2]. cbn in *. subst o2.
    apply world_ok_step; [done| | |].
    + constructor; [by rewrite E1..|by apply E3].
    + constructor; [done|done|]. intros k e' _. left. apply HU.
    + intros i. unfold in_use. by rewrite E1.
  - apply yield_ok, IH, Hw.
Qed.
Lemma passes_ok w w' : passes w w' → world_ok w → world_ok w'.
Proof. by apply passes_keeps. Qed.

Lemma notes_same n w : same_store w (upd (apply_notes n) w).2.
Proof.
  destruct (apply_notes_frame n (core w)) as (E1 & E2 & E3 & E4). split; [exact E1|]. split; [done|].
  split; [cbn; by rewrite E2|]. split; cbn; [by rewrite E3|by rewrite E4].
Qed.

(** The commit of [t] takes the store of [w] to [d']. *)
Record commits t w (d' : Db) : Prop := {
  commits_contents : contents d' =
    run (stats_merges (map_to_list (tstats t))) (twrite t (contents (db (core w))));
  commits_base k : k ∈ ttracked t → tag_of k ≠ Some TStats →
    contents (db (core w)) !! k = tbase t !! k;
}.

Lemma commit_commits t d w w' :
  commit t d w = (Ok Committed, w') →
  ∃ d', commits t w d' ∧ w' = (upd (apply_notes (notes t)) (yield (mkWorld (set_db d' (core w)) (others w))).2).2.
Proof.
  unfold commit, mbind, IO_bind, io_result.
  destruct (write_stats _ _) as [t'|e] eqn:Es; [|done].
  apply write_stats_Ok in Es as (Eb & Ew & Et).
  unfold commit_txn, get, io_gets, mbind, IO_bind. cbn.
  destruct (txn_commit _ _) as [d'|e] eqn:E; [|by case_decide].
  apply commit_law in E as [Hd Ha]. intros H. exists d'. split.
  - split.
    + by rewrite Hd, Ew, run_app.
    + intros k Hk Hs. unfold tbase. rewrite <- Eb. apply Ha. by apply Et.
  - destruct d; cbn in H; [unfold io_result in H; destruct (lift _); cbn in H; [|done]|];
      by injection H as <-.
Qed.

(** What the store holds before and after the commit, at a tracked key. *)
Lemma commits_after t w d' k :
  commits t w d' → k ∈ ttracked t → tag_of k ≠ Some TStats → contents d' !! k = tview t !! k.
Proof.
  intros [Hc Hb] Hk Hs. rewrite Hc, run_stats_other, tview_eq by done.
  by apply run_lookup_ext, Hb.
Qed.

(** At a key the transaction did not write, the commit changes nothing. *)
Lemma commits_unwritten t w d' k :
  commits t w d' → tag_of k ≠ Some TStats → (∀ x, x ∈ writes (txn t) → write_key x ≠ k) →
  contents d' !! k = contents (db (core w)) !! k.
Proof.
  intros [Hc _] Hs Hw. rewrite Hc, run_stats_other by done. unfold twrite.
  generalize (contents (db (core w))). revert Hw.
  induction (writes (txn t)) as [|x ws IH]; intros Hw m; [done|].
  change (run ws (apply_write merge_batch merge_fallback m x) !! k = m !! k).
  rewrite IH by (intros; apply Hw; by right).
  assert (Hx : write_key x ≠ k) by (apply Hw; by left).
  destruct x; cbn in *; by rewrite ?lookup_insert_ne, ?lookup_delete_ne.
Qed.

(** The retry loop: the attempt that returns began on a store [w0] of the call
    and, when it commits, does so at [w3]. *)
Definition linearizes {T} (body : Txn → Q (Attempt T * Txn)) w v w' : Prop :=
  ∃ w0 t w1 att t' w2,
    passes w w0 ∧ begin w0 = (Ok t, w0) ∧ passes w0 w1 ∧ body t w1 = (Ok (att, t'), w2) ∧
    (att = AbortWith v ∧ w' = w2 ∨
     att = CommitWith v ∧ ∃ w3 d', passes w2 w3 ∧ commits t' w3 d' ∧
       w' = (upd (apply_notes (notes t')) (yield (mkWorld (set_db d' (core w3)) (others w3))).2).2).

Lemma begin_same w t w' : begin w = (Ok t, w') → w' = w.
Proof.
  unfold begin, get, io_gets, mbind, IO_bind, io_result. cbn.
  destruct (db_begin _); cbn; [|done]. by intros [= _ <-].
Qed.

Lemma retry_linearizes {T} d (body : Txn → Q (Attempt T * Txn)) w v w' :
  body_steady body → retry d body w = (Ok v, w') → linearizes body w v w'.
Proof.
  intros Hb. unfold retry. generalize (S (length (others w))) as fuel. intros fuel.
  revert w. induction fuel as [|fuel IH]; intros w; [done|]. cbn [retry_loop].
  intros (t & w0 & Eb & (u & w1 & Ey & ([att t'] & w2 & E & H)%IO_bind_Ok)%IO_bind_Ok)%IO_bind_Ok.
  pose proof (begin_same _ _ _ Eb) as ->.
  assert (Hp1 : passes w w1).
  { pose proof (passes_yield w w (passes_refl w)) as Hp. by rewrite Ey in Hp. }
  assert (Hp2 : passes w1 w2) by (eapply still_passes; [apply (Hb t)|done]).
  destruct att as [v'|v'].
  - apply IO_bind_Ok in H as (u2 & w3 & Ey2 & (o & w4 & Ec & H)%IO_bind_Ok).
    assert (Hp3 : passes w2 w3).
    { pose proof (passes_yield w2 w2 (passes_refl w2)) as Hp. by rewrite Ey2 in Hp. }
    destruct o.
    + injection H as <- <-. apply commit_commits in Ec as (d' & Hc & ->).
      exists w, t, w1, (CommitWith v'), t', w2. split_and!; [done|done|done|done|].
      right. split; [done|]. by exists w3, d'.
    + assert (w4 = w3) as ->.
      { revert Ec. unfold commit, mbind, IO_bind, io_result. destruct (write_stats _ _); [|done].
        unfold commit_txn, get, io_gets, mbind, IO_bind. cbn.
        destruct (txn_commit _ _); [|by case_decide; intros [= <-]].
        destruct d; cbn; [unfold io_result; destruct (lift _)|]; done. }
      destruct (IH _ H) as (a & b & c & d1 & e & f & Hp & Hrest).
      exists a, b, c, d1, e, f. split; [|done]. by rewrite Hp1, Hp2, Hp3.
  - injection H as <- <-. exists w, t, w1, (AbortWith v'), t', w2. split_and!; [done|done|done|done|].
    by left.
Qed.

(** ** Effects

    [effect w w' R]: the call from [w] to [w'] changes the store once, from
    contents [m] to contents [m'] with [R m m'], between the steps of other tasks.
    [no_effect w w' P]: it does not change the store, and the store it read
    satisfied [P]. *)
Definition put_db (d : Db) w : World := mkWorld (set_db d (core w)) (others w).

Definition effect w w' (R : gmap bytes bytes → gmap bytes bytes → Prop) : Prop :=
  ∃ w1 d', passes w w1 ∧ R (contents (db (core w1))) (contents d') ∧ passes (put_db d' w1) w'.

Definition no_effect w w' (P : gmap bytes bytes → Prop) : Prop :=
  ∃ w1, passes w w1 ∧ P (contents (db (core w1))) ∧ passes w1 w'.

Lemma effect_mono w w' (R R' : gmap bytes bytes → gmap bytes bytes → Prop) :
  (∀ m m', R m m' → R' m m') → effect w w' R → effect w w' R'.
Proof. intros HR (w1 & d' & ? & ? & ?). exists w1, d'. auto. Qed.

(** The contents before the effect satisfy the invariant. *)
Lemma effect_mono_ok w w' (R R' : gmap bytes bytes → gmap bytes bytes → Prop) :
  world_ok w → (∀ m m', store_ok m → R m m' → R' m m') → effect w w' R → effect w w' R'.
Proof.
  intros Hw HR (w1 & d' & Hp & Hm & ?). exists w1, d'. split; [done|]. split; [|done].
  apply HR; [|done]. apply (passes_ok _ _ Hp Hw).
Qed.

(** Around a call that has an effect, steps of other tasks. *)
Lemma effect_around w0 w w' w1 R : passes w0 w → passes w' w1 → effect w w' R → effect w0 w1 R.
Proof.
  intros Hl Hr (w2 & d' & ? & ? & ?). exists w2, d'. split; [by etrans|]. split; [done|by etrans].
Qed.
Lemma no_effect_around w0 w w' w1 P :
  passes w0 w → passes w' w1 → no_effect w w' P → no_effect w0 w1 P.
Proof. intros Hl Hr (w2 & ? & ? & ?). exists w2. split; [by etrans|]. split; [done|by etrans]. Qed.

(** Without other tasks, the change is the one between the two ends of the call. *)
Lemma effect_alone w w' R :
  effect w w' R → others w = [] → R (contents (db (core w))) (contents (db (core w'))).
Proof.
  intros (w1 & d' & Hp & HR & Hp') Ho. destruct (passes_alone _ _ Hp Ho) as [E1 E2].
  rewrite <- E1. destruct (passes_alone _ _ Hp' E2) as [-> _]. done.
Qed.
Lemma no_effect_alone w w' P :
  no_effect w w' P → others w = [] → P (contents (db (core w))) ∧ db (core w') = db (core w).
Proof.
  intros (w1 & Hp & HP & Hp') Ho. destruct (passes_alone _ _ Hp Ho) as [E1 E2].
  rewrite <- E1. destruct (passes_alone _ _ Hp' E2) as [-> _]. done.
Qed.

(** A transaction on its snapshot. *)
Definition fresh_txn t : Prop := writes (txn t) = [] ∧ ttracked t = ∅ ∧ tstats t = ∅.

Lemma fresh_view t : fresh_txn t → tview t = tbase t.
Proof. intros (Hw & _). rewrite tview_eq. unfold twrite. by rewrite Hw. Qed.

Lemma begin_fresh_txn w t w' :
  begin w = (Ok t, w') → fresh_txn t ∧ tbase t = contents (db (core w)).
Proof.
  unfold begin, get, io_gets, mbind, IO_bind, io_result. cbn.
  destruct (db_begin _) as [t0|] eqn:E; cbn; [|done]. intros [= <- _].
  apply begin_law in E as (Eb & Ew & Et). unfold fresh_txn, tbase, ttracked. cbn. by rewrite Eb.
Qed.

(** What the commit of [t] makes of the contents [m]. *)
Definition committed t (m m' : gmap bytes bytes) : Prop :=
  m' = run (stats_merges (map_to_list (tstats t))) (twrite t m) ∧
  ∀ k, k ∈ ttracked t → tag_of k ≠ Some TStats → m !! k = tbase t !! k.

(** [effect_from]: the same with the contents [m0] of the store that the transaction
    of the change began on. *)
Definition effect_from w w' (R : gmap bytes bytes → gmap bytes bytes → gmap bytes bytes → Prop) : Prop :=
  ∃ w0, passes w w0 ∧ effect w0 w' (R (contents (db (core w0)))).

Lemma effect_from_mono w w' (R R' : gmap bytes bytes → gmap bytes bytes → gmap bytes bytes → Prop) :
  (∀ m0 m m', R m0 m m' → R' m0 m m') → effect_from w w' R → effect_from w w' R'.
Proof. intros HR (w0 & ? & He). exists w0. split; [done|]. by eapply effect_mono; [|exact He]; auto. Qed.

Lemma effect_from_around w0 w w' w1 R :
  passes w0 w → passes w' w1 → effect_from w w' R → effect_from w0 w1 R.
Proof.
  intros Hl Hr (w2 & ? & He). exists w2. split; [by etrans|]. by eapply effect_around; [| |exact He].
Qed.

Lemma effect_from_effect w w' (R : gmap bytes bytes → gmap bytes bytes → Prop) :
  effect_from w w' (λ _, R) → effect w w' R.
Proof. intros (w0 & ? & He). by eapply effect_around; [| |exact He]. Qed.

Lemma effect_from_alone w w' R :
  effect_from w w' R → others w = [] →
  R (contents (db (core w))) (contents (db (core w))) (contents (db (core w'))) ∧ others w' = [].
Proof.
  intros (w0 & Hp & He) Ho. destruct (passes_alone _ _ Hp Ho) as [E1 E2].
  rewrite E1 in He. assert (Ho' : others w' = []).
  { destruct He as (w1 & d' & Hp1 & _ & Hp2). apply (passes_alone _ _ Hp2). cbn. by apply (passes_alone _ _ Hp1). }
  apply effect_alone in He; [|done]. by rewrite E1 in He.
Qed.

(** A call in the retry loop has the effect of the body that returns, or none. *)
Lemma retry_effect_from {T} d (body : Txn → Q (Attempt T * Txn)) w v w' :
  body_steady body → retry d body w = (Ok v, w') →
  ∃ t w1 t' w2, fresh_txn t ∧ (world_ok w → store_ok (tbase t)) ∧
    (body t w1 = (Ok (CommitWith v, t'), w2) ∧ tbase t' = tbase t ∧
       effect_from w w' (λ m0 m m', m0 = tbase t ∧ committed t' m m') ∨
     body t w1 = (Ok (AbortWith v, t'), w2) ∧ no_effect w w' (λ m, m = tbase t)).
Proof.
  intros Hb (w0 & t & w1 & att & t' & w2 & Hp0 & Eb & Hp1 & E & H)%(retry_linearizes d); [|done].
  pose proof (begin_fresh_txn _ _ _ Eb) as [Hf Ht].
  exists t, w1, t', w2. split; [done|].
  split; [intros Hw; rewrite Ht; apply (passes_ok _ _ Hp0 Hw)|].
  assert (Hp2 : passes w1 w2) by (eapply still_passes; [apply (Hb t)|done]).
  destruct H as [[-> ->]|[-> (w3 & d' & Hp3 & [Hc Ha] & ->)]].
  - right. split; [done|]. exists w0. split; [done|]. split; [by rewrite Ht|]. by etrans.
  - left. split; [done|]. split.
    { unfold tbase. f_equal. by apply (Hb t) in E. }
    exists w0. split; [done|]. exists w3, d'. split; [by rewrite Hp1, Hp2|]. split; [done|].
    eapply passes_still; [apply passes_yield, passes_refl|apply notes_same].
Qed.

Lemma retry_effect {T} d (body : Txn → Q (Attempt T * Txn)) w v w' :
  body_steady body → retry d body w = (Ok v, w') →
  ∃ t w1 t' w2, fresh_txn t ∧ (world_ok w → store_ok (tbase t)) ∧
    (body t w1 = (Ok (CommitWith v, t'), w2) ∧ tbase t' = tbase t ∧ effect w w' (committed t') ∨
     body t w1 = (Ok (AbortWith v, t'), w2) ∧ no_effect w w' (λ m, m = tbase t)).
Proof.
  intros Hb (t & w1 & t' & w2 & Hf & Hok & H)%retry_effect_from; [|done].
  exists t, w1, t', w2. split; [done|]. split; [done|].
  destruct H as [(E & Ht & He)|H]; [left|by right]. split; [done|]. split; [done|].
  apply effect_from_effect. eapply effect_from_mono; [|exact He]. by intros m0 m m' [_ ?].
Qed.

(** The same from the world [w1] in which the body that commits ran. *)
Lemma retry_effect_at {T} d (body : Txn → Q (Attempt T * Txn)) w v w' :
  body_steady body → retry d body w = (Ok v, w') →
  ∃ t w1 t' w2, fresh_txn t ∧ (∀ CI : Invariant, (∀ z, usable CI z) → world_ok w → store_ok (tbase t)) ∧ passes w w1 ∧
    (body t w1 = (Ok (CommitWith v, t'), w2) ∧ tbase t' = tbase t ∧ effect w1 w' (committed t') ∨
     body t w1 = (Ok (AbortWith v, t'), w2)).
Proof.
  intros Hb (w0 & t & w1 & att & t' & w2 & Hp0 & Eb & Hp1 & E & H)%(retry_linearizes d); [|done].
  pose proof (begin_fresh_txn _ _ _ Eb) as [Hf Ht].
  exists t, w1, t', w2. split; [done|].
  split; [intros CI HU Hw; rewrite Ht; apply (core_store _ (world_core _ (passes_keeps CI _ _ HU Hp0 Hw)))|]. split; [by etrans|].
  assert (Hp2 : passes w1 w2) by (eapply still_passes; [apply (Hb t)|done]).
  destruct H as [[-> ->]|[-> (w3 & d' & Hp3 & [Hc Ha] & ->)]]; [by right|left].
  split; [done|]. split.
  { unfold tbase. f_equal. by apply (Hb t) in E. }
  exists w3, d'. split; [by rewrite Hp2|]. split; [done|].
  eapply passes_still; [apply passes_yield, passes_refl|apply notes_same].
Qed.

(** The keys a commit is decided by, and those it leaves. *)
Lemma committed_before t m m' k :
  committed t m m' → k ∈ ttracked t → tag_of k ≠ Some TStats → m !! k = tbase t !! k.
Proof. intros [_ H]. apply H. Qed.
Lemma committed_after t m m' k :
  committed t m m' → k ∈ ttracked t → tag_of k ≠ Some TStats → m' !! k = tview t !! k.
Proof.
  intros [-> Hb] Hk Hs. rewrite run_stats_other, tview_eq by done. by apply run_lookup_ext, Hb.
Qed.
Lemma committed_stages t t' ws m m' :
  fresh_txn t → stages t t' ws → tstats t' = ∅ → committed t' m m' → m' = run ws m.
Proof.
  intros (Hw & _) Hst Hs [-> _]. rewrite Hs. unfold stats_merges. rewrite map_to_list_empty. cbn.
  rewrite (stages_twrite _ _ _ _ Hst). unfold twrite. by rewrite Hw.
Qed.

(** ** Errors *)

(** An error of the code, and not one of the store, which can be indeterminate. *)
Definition not_storage (e : Error) : Prop := ∀ s, e ≠ Storage s.

Lemma lift_storage {A} (r : result SlateError A) e : lift r = Err e → ¬ not_storage e.
Proof. destruct r; [done|]. intros [= <-] Hn. by eapply Hn. Qed.

Lemma commit_error t d w e w' : commit t d w = (Err e, w') → ¬ not_storage e.
Proof.
  assert (Hs : ∀ l (x : DbTransaction) e, write_stats l x = Err e → ¬ not_storage e).
  { induction l as [|[[q s] n] l IH]; intros x e' H; [done|]. cbn [write_stats] in H.
    case_decide; [by eapply IH|]. unfold update_stats in H.
    destruct (lift (txn_merge _ _ _)) as [y|e1] eqn:E1; cbn in H;
      [|injection H as <-; by eapply lift_storage].
    destruct (lift (txn_unmark_write _ _)) as [z|e1] eqn:E2; cbn in H;
      [by eapply IH|injection H as <-; by eapply lift_storage]. }
  unfold commit, mbind, IO_bind, io_result.
  destruct (write_stats _ _) as [t'|e1] eqn:Es; [|intros [= <- _]; by eapply Hs].
  unfold commit_txn, get, io_gets, mbind, IO_bind. cbn.
  destruct (txn_commit _ _) as [d'|e1] eqn:E.
  - destruct d; cbn; [unfold io_result; destruct (lift _) as [|e2] eqn:El; cbn|]; try done.
    intros [= <- _]. by eapply lift_storage.
  - case_decide; [done|]. intros [= <- _] Hn. by eapply Hn.
Qed.

(** A retried transaction that fails changed nothing. *)
Lemma retry_error {T} d (body : Txn → Q (Attempt T * Txn)) w e w' :
  body_steady body → retry d body w = (Err e, w') → e ≠ Unfinished → not_storage e → passes w w'.
Proof.
  intros Hb H He Hn. revert H. unfold retry. generalize (S (length (others w))) as fuel. intros fuel.
  revert w. induction fuel as [|fuel IH]; intros w; [by intros [= <- _]|]. cbn [retry_loop].
  unfold mbind at 1, IO_bind at 1. destruct (begin w) as [[t|e1] w0] eqn:Eb.
  2: { revert Eb. unfold begin, get, io_gets, mbind, IO_bind, io_result. cbn.
       destruct (lift (db_begin _)) eqn:El; cbn; [done|]. intros [= -> ->] [= -> ->].
       by eapply lift_storage in El. }
  pose proof (begin_same _ _ _ Eb) as ->. unfold mbind at 1, IO_bind at 1.
  pose proof (passes_yield w w (passes_refl w)) as Hp1. destruct (yield w) as [r1 w1] eqn:Ey.
  cbn in Hp1. destruct r1; [|by unfold yield, io_modify in Ey].
  unfold mbind at 1, IO_bind at 1. destruct (body t w1) as [[[att t']|e1] w2] eqn:E;
    (assert (Hp2 : passes w1 w2) by (eapply still_passes; [apply (Hb t)|done]));
    [|intros [= -> ->]; by etrans].
  destruct att as [v|v]; [|done].
  unfold mbind at 1, IO_bind at 1.
  pose proof (passes_yield w2 w2 (passes_refl w2)) as Hp3. destruct (yield w2) as [r3 w3] eqn:Ey3.
  cbn in Hp3. destruct r3; [|by unfold yield, io_modify in Ey3].
  unfold mbind, IO_bind. destruct (commit t' d w3) as [[[]|e1] w4] eqn:Ec; [done| |].
  - apply commit_conflict in Ec as ->. intros Hl. rewrite Hp1, Hp2, Hp3. by apply IH.
  - intros [= -> ->]. by apply commit_error in Ec.
Qed.

Lemma retry_failed {T} d (body : Txn → Q (Attempt T * Txn)) w e w' :
  body_steady body → retry d body w = (Err e, w') → not_storage e → passes w w'.
Proof.
  intros Hb H Hn. eapply retry_error; [done|done| |done]. intros ->.
  apply (retry_finishes d body Hb w). by rewrite H.
Qed.

(** A commit that fails left the store, or the store reported the failure after it. *)
Lemma commit_failed t d w e w' :
  commit t d w = (Err e, w') → w' = w ∨ ∃ d', commits t w d' ∧ w' = put_db d' w.
Proof.
  unfold commit, mbind, IO_bind, io_result.
  destruct (write_stats _ _) as [t'|e1] eqn:Es; [|by intros [= _ <-]; left].
  apply write_stats_Ok in Es as (Eb & Ew & Et).
  unfold commit_txn, get, io_gets, mbind, IO_bind. cbn.
  destruct (txn_commit _ _) as [d'|e1] eqn:E; [|case_decide; [done|by intros [= _ <-]; left]].
  apply commit_law in E as [Hd Ha]. intros H. right. exists d'. split.
  - split; [by rewrite Hd, Ew, run_app|]. intros k Hk Hs. unfold tbase. rewrite <- Eb. apply Ha. by apply Et.
  - destruct d; cbn in H; [unfold io_result in H; destruct (lift _); cbn in H; [done|]|done].
    by injection H as _ <-.
Qed.

(** A retried transaction that fails changed nothing, or what its body staged for the
    value it would have returned. *)
Lemma retry_failed_effect {T} d (body : Txn → Q (Attempt T * Txn)) w e w' :
  body_steady body → retry d body w = (Err e, w') →
  passes w w' ∨ ∃ t w1 t' w2 v, fresh_txn t ∧ body t w1 = (Ok (CommitWith v, t'), w2) ∧
    tbase t' = tbase t ∧ effect w w' (committed t').
Proof.
  intros Hb. unfold retry. generalize (S (length (others w))) as fuel. intros fuel.
  revert w. induction fuel as [|fuel IH]; intros w; [by intros [= _ <-]; left|]. cbn [retry_loop].
  unfold mbind at 1, IO_bind at 1. destruct (begin w) as [[t|e1] w0] eqn:Eb.
  2: { revert Eb. unfold begin, get, io_gets, mbind, IO_bind, io_result. cbn.
       destruct (lift (db_begin _)) eqn:El; cbn; [done|]. intros [= -> <-] [= -> <-]. by left. }
  pose proof (begin_same _ _ _ Eb) as ->. apply begin_fresh_txn in Eb as [Hf _].
  unfold mbind at 1, IO_bind at 1.
  pose proof (passes_yield w w (passes_refl w)) as Hp1. destruct (yield w) as [r1 w1] eqn:Ey.
  cbn in Hp1. destruct r1; [|by unfold yield, io_modify in Ey].
  unfold mbind at 1, IO_bind at 1. destruct (body t w1) as [[[att t']|e1] w2] eqn:E;
    (assert (Hp2 : passes w1 w2) by (eapply still_passes; [apply (Hb t)|done]));
    [|intros [= -> <-]; left; by etrans].
  destruct att as [v|v]; [|done].
  unfold mbind at 1, IO_bind at 1.
  pose proof (passes_yield w2 w2 (passes_refl w2)) as Hp3. destruct (yield w2) as [r3 w3] eqn:Ey3.
  cbn in Hp3. destruct r3; [|by unfold yield, io_modify in Ey3].
  assert (Hp : passes w w3) by (by rewrite Hp1, Hp2).
  unfold mbind, IO_bind. destruct (commit t' d w3) as [[[]|e1] w4] eqn:Ec; [done| |].
  - apply commit_conflict in Ec as ->.
    intros [Hl|(t2 & w5 & t3 & w6 & v' & Hf2 & E2 & Ht2 & He)]%IH; [left; by etrans|right].
    exists t2, w5, t3, w6, v'. split; [done|]. split; [done|]. split; [done|]. by eapply effect_around.
  - intros [= -> <-]. apply commit_failed in Ec as [->|(d' & [Hc Ha] & ->)]; [by left|right].
    exists t, w1, t', w2, v. split; [done|]. split; [done|]. split; [unfold tbase; f_equal; by apply (Hb t) in E|].
    exists w3, d'. split; [done|]. by split.
Qed.

Lemma yield_passes w u w' : yield w = (Ok u, w') → passes w w'.
Proof. intros E. pose proof (passes_yield w w (passes_refl w)) as Hp. by rewrite E in Hp. Qed.

End linear.
