(* ===== verification/Outcomes.v ===== *)
(** * What the calls do

    The effect of each call on the store, at the point where it takes effect, for
    each outcome it returns. *)
From S2P Require Import Prelude Bytes Error Monad Keys Job Store Stats LeaseRegistry.
From S2P Require Import TimeBound ClaimCursor Completion Txn Stage StoreInv Sound Core.
From S2P Require Import QueueCore Control Effects Claim Settle Enqueue.
From S2P Require Import Sweeps Queue CoreInv StagedOps Finishes Linear.

Section outcomes.
  Context {DB : SlateDb} {OS : ObjectStore} {SR : Serde JobRecord} {SA : Serde JobAttempt}.
  Context {SC : Serde CountRecord} {EN : Env} {DL : SlateDbLaws merge_batch}.
  Implicit Types (t : Txn) (j : JobRecord) (m : gmap bytes bytes).

Abbreviation run := (apply_writes merge_batch merge_fallback).

Lemma staging_Ok {A} (m : TxnM A) t w a t' w' :
  staging m t w = (Ok (a, t'), w') ↔ m t = Ok (a, t') ∧ w' = w.
Proof. unfold staging, io_result. split; [by intros [= -> ->]|]. by intros [-> ->]. Qed.

Lemma still_run {A} (m : Q A) w r w' : still m → m w = (r, w') → passes w w'.
Proof. apply still_passes. Qed.

#[local] Set Default Proof Using "Type DL SR SA EN".

(** ** The user key space *)

Lemma kv_state_Ok k e t b t' :
  kv_state_matches k e t = Ok (b, t') →
  b = bool_decide (tview t !! k = e) ∧ stages t t' [] ∧ tstats t' = tstats t ∧ k ∈ ttracked t'.
Proof.
  unfold kv_state_matches. intros (u & t1 & Em & H)%M_bind_Ok.
  apply M_bind_Ok in H as (cur & t2 & Eg & H). injection H as <- <-.
  apply t_get_Ok in Eg. injection Eg as -> ->.
  apply t_mark_read_Ok in Em as (Hst & _ & Hs & Ht). cbn in *.
  rewrite (stages_tview _ _ _ Hst). cbn. split; [done|]. split; [done|]. split; [done|].
  rewrite Ht. set_solver.
Qed.

(** A compare that held commits its write on a store where the key has the
    expected value; one that did not hold changes nothing. *)
Lemma kv_compare_effect k e (f : bytes → TxnM ()) x w b w' :
  (∀ s, clean (f s)) →
  (∀ t t', f (user_scoped_key k) t = Ok (tt, t') → stages t t' [x] ∧ tstats t' = tstats t) →
  kv_compare_then k e f w = (Ok b, w') →
  if b then effect w w' (λ m m', m !! user_scoped_key k = e ∧ m' = run [x] m)
  else no_effect w w' (λ m, m !! user_scoped_key k ≠ e).
Proof.
  intros Hcl Hf. unfold kv_compare_then. set (sk := user_scoped_key k) in *.
  intros (t & w1 & t' & w2 & Hfr & _ & Hor)%retry_effect.
  2: { intros t. apply steady_seq; [apply steady_staging, clean_kv_state|].
       intros [] t1; [|apply steady_ret].
       apply steady_seq; [apply steady_staging, Hcl|]. intros. apply steady_ret. }
  destruct Hor as [(E & Eb & He)|(E & He)];
    apply IO_bind_Ok in E as ([same t1] & w3 & [E1 ->]%staging_Ok & E);
    apply kv_state_Ok in E1 as (Hs & Hst & Hts & Htr); rewrite (fresh_view t Hfr) in Hs;
    destruct same.
  - apply IO_bind_Ok in E as ([[] t2] & w4 & [E2 ->]%staging_Ok & E). injection E as <- <- <-.
    apply Hf in E2 as [Hst2 Hts2]. pose proof (stages_trans _ _ _ _ _ Hst Hst2) as Hst'.
    assert (Hts' : tstats t2 = ∅) by (destruct Hfr as (_ & _ & <-); congruence).
    eapply effect_mono; [|exact He]. intros m m' Hc. split.
    + rewrite (committed_before _ _ _ sk Hc), Eb; [|by apply (stages_mono _ _ _ Hst2)|done].
      by apply symmetry, bool_decide_eq_true in Hs.
    + by apply (committed_stages t t2 [x] m m').
  - discriminate E.
  - apply IO_bind_Ok in E as ([[] t2] & w4 & [E2 ->]%staging_Ok & E). discriminate E.
  - injection E as <- <- <-. destruct He as (w0 & Hp & Hm & Hp'). exists w0. split; [done|].
    split; [|done]. rewrite Hm. by apply symmetry, bool_decide_eq_false in Hs.
Qed.

Lemma kv_compare_put_effect k e v w b w' :
  kv_compare_put k e v w = (Ok b, w') →
  if b then effect w w' (λ m m', m !! user_scoped_key k = e ∧ m' = <[user_scoped_key k := v]> m)
  else no_effect w w' (λ m, m !! user_scoped_key k ≠ e).
Proof.
  unfold kv_compare_put. intros (u & w1 & E & H)%IO_bind_Ok. injection E as _ <-.
  apply (kv_compare_effect k e _ (WPut (user_scoped_key k) v)) in H; [done|..].
  - intros. apply clean_put.
  - intros t t' Hp. apply t_put_Ok in Hp as (? & _ & ? & _). done.
Qed.

Lemma kv_compare_delete_effect k e w b w' :
  kv_compare_delete k e w = (Ok b, w') →
  if b then effect w w' (λ m m', m !! user_scoped_key k = Some e ∧ m' = delete (user_scoped_key k) m)
  else no_effect w w' (λ m, m !! user_scoped_key k ≠ Some e).
Proof.
  intros H. apply (kv_compare_effect k (Some e) _ (WDelete (user_scoped_key k))) in H; [done|..].
  - intros. apply clean_delete.
  - intros t t' Hp. apply t_delete_Ok in Hp as (? & _ & ? & _). done.
Qed.

(** ** Settlements *)

Lemma prepare_default : prepare_effects effects_default = mret prepared_default.
Proof. reflexivity. Qed.

Lemma stage_default r t : stage_effects r prepared_default t = Ok ([], t).
Proof. reflexivity. Qed.

Lemma finish_claim_passes j e c cl w r w' : finish_claim_end j e c cl w = (r, w') → passes w w'.
Proof.
  unfold finish_claim_end, mbind at 1, IO_bind at 1.
  change (yield w) with (@Ok Error _ tt, (yield w).2). intros H.
  etrans; [apply passes_yield, passes_refl|]. eapply still_passes, H. apply finish_claim_still.
Qed.

Lemma delete_for_ok j w : (delete_for j w).1 = Ok tt.
Proof.
  unfold delete_for, delete_best_effort. destruct (payload_ref j); [|done].
  unfold mbind, IO_bind, io_try. by destruct (payload_delete _ w).
Qed.

(** The completion of a claim end does not fail. *)
Lemma finish_claim_ok j e c cl w err w' : finish_claim_end j e c cl w ≠ (Err err, w').
Proof.
  unfold finish_claim_end, mbind, IO_bind, upd_registry, upd, io_modify. cbn.
  set (w1 := mkWorld _ _).
  assert (Hx : ∀ b : bool, ∃ w2, (if b then delete_for j else mret tt) w1 = (Ok tt, w2)).
  { intros []; [|by eexists]. pose proof (delete_for_ok j w1) as Hdel. destruct (delete_for j w1) as [r w2].
    cbn in Hdel. subst. by eexists. }
  destruct (Hx (bool_decide (e = EndDone false))) as [w2 E].
  replace (if decide (e = EndDone false) then delete_for j else mret tt)
    with (if bool_decide (e = EndDone false) then delete_for j else mret tt : Q ())
    by (by case_bool_decide; case_decide). rewrite E.
  unfold core_has_waiters, get, io_gets. destruct (_ || _); [done|].
  destruct (payload_ref j), cl; try done. unfold io_try. by destruct (materialize j w2).
Qed.

(** The part of a settlement before its retry loop and the part after it. *)
Lemma settle_claim_inv claim e ef w j rs w' :
  settle_claim claim e ef w = (Ok (j, rs), w') →
  ∃ p w1 e' st w2, prepare_effects e w = (Ok p, w1) ∧
    retry Awaited (λ t,
      registry ← get lease_registry;
      '(j, t) ← staging (take_claim registry (queue (job claim)) (id (job claim)) (claim_id claim)) t;
      now ← now_ms;
      let e := ef j now in
      '(j, t) ← staging (stage_claim_end j e now) t;
      if is_terminal e then
        registry ← get lease_registry;
        '(results, t) ← staging (stage_effects registry p) t;
        mret (CommitWith (j, e, Some results), t)
      else mret (CommitWith (j, e, None), t)) w1 = (Ok (j, e', st), w2) ∧
    rs = st ∧ passes w w1 ∧ passes w2 w'.
Proof.
  unfold settle_claim, settle_txn. intros (p & w1 & Ep & H)%IO_bind_Ok.
  apply IO_bind_Ok in H as (r & w2 & Er & H). unfold io_try in Er.
  destruct (retry _ _ w1) as [r' w2'] eqn:E. injection Er as <- <-.
  apply IO_bind_Ok in H as (rs' & w3 & Ef & H). apply IO_bind_Ok in H as ([[j0 e0] s0] & w4 & Es & H).
  injection Es as -> <-. apply IO_bind_Ok in H as (u & w5 & Ec & H). injection H as <- <- <-.
  exists p, w1, e0, s0, w2'. split; [done|]. split; [done|].
  assert (rs' = s0) as ->.
  { unfold finish_effects in Ef. destruct s0; apply IO_bind_Ok in Ef as (? & ? & _ & Ef);
      by injection Ef as <- _. }
  split; [done|]. split; [eapply still_passes; [apply still_prepare_effects|done]|].
  etrans; [eapply still_passes; [apply still_finish_effects|done]|by eapply finish_claim_passes].
Qed.

Lemma settle_body_steady claim p ef : body_steady (λ t,
  registry ← get lease_registry;
  '(j, t) ← staging (take_claim registry (queue (job claim)) (id (job claim)) (claim_id claim)) t;
  now ← now_ms;
  let e := ef j now in
  '(j, t) ← staging (stage_claim_end j e now) t;
  if is_terminal e then
    registry ← get lease_registry;
    '(results, t) ← staging (stage_effects registry p) t;
    mret (CommitWith (j, e, Some results), t)
  else mret (CommitWith (j, e, None), t)).
Proof.
  intros t. apply steady_bind; [apply still_get|]. intros reg.
  apply steady_seq; [apply steady_staging, clean_take_claim|]. intros j t1.
  apply steady_bind; [apply still_now_ms|]. intros now.
  apply steady_seq; [apply steady_staging, clean_claim_end|]. intros j' t2.
  destruct (is_terminal _); [|apply steady_ret].
  apply steady_bind; [apply still_get|]. intros reg'.
  apply steady_seq; [apply steady_staging, clean_effects|]. intros rs t3. apply steady_ret.
Qed.

(** What a claim end does to the records of the store, from [m] to [m']: the
    claimed record [j] leaves, and what is left of it is at its new key, with the
    attempt in its history. Its index entry follows it, unless one of the results [rs]
    of the effects is a new job with its id. *)
Definition claim_ended (claim : Claim) (rs : list EnqueueResult) (e : ClaimEnd) (now : Z) j m m' : Prop :=
  let ck := claimed_key (queue (job claim)) (id (job claim)) in
  let j' := claim_end_record e now j in
  job_at m ck = Some j ∧ m' !! ck = None ∧
  if decide (e = EndDone false) then
    m' !! attempt_history_key (id j) = None ∧ (New (id j) ∉ rs → m' !! job_index_key (id j) = None)
  else ∃ key, stored_key j' = Ok key ∧ m' !! key = Some (stored_bytes j') ∧
    m' !! attempt_history_key (id j) =
      Some (default [] (m !! attempt_history_key (id j)) ++ encode (claim_end_attempt e now j)) ∧
    (New (id j) ∉ rs → m' !! job_index_key (id j) = Some key).

(** The commit of writes staged on a snapshot: a key they write holds what they
    leave there, from what it held when they committed. *)
Lemma committed_run t t' ws m m' k :
  fresh_txn t → stages t t' ws → committed t' m m' → k ∈ write_key <$> ws →
  tag_of k ≠ Some TStats → m' !! k = run ws m !! k ∧ m !! k = tbase t !! k.
Proof.
  intros Hf Hst Hc (x & -> & Hx)%list_elem_of_fmap Hs.
  pose proof (stages_tracked _ _ _ Hst _ Hx) as Ht.
  rewrite (committed_after _ _ _ _ Hc Ht Hs). rewrite (committed_before _ _ _ _ Hc Ht Hs).
  rewrite (stages_tbase _ _ _ Hst). split; [|done].
  rewrite (stages_tview _ _ _ Hst), (fresh_view _ Hf). apply run_lookup_ext.
  by rewrite (committed_before _ _ _ _ Hc Ht Hs), (stages_tbase _ _ _ Hst).
Qed.

(** The keys of a claim end: those of the job, with that of its new record. *)
Definition end_key (claim : Claim) (e : ClaimEnd) (now : Z) j (k : bytes) : Prop :=
  k = claimed_key (queue (job claim)) (id (job claim)) ∨ k = attempt_history_key (id j) ∨
  e ≠ EndDone false ∧ stored_key (claim_end_record e now j) = Ok k.

(** A claim is taken and ended on the snapshot of a transaction. *)
Lemma claim_end_staged claim reg e now t j t1 j' t2 :
  fresh_txn t → store_ok (tbase t) →
  take_claim reg (queue (job claim)) (id (job claim)) (claim_id claim) t = Ok (j, t1) →
  stage_claim_end j e now t1 = Ok (j', t2) →
  j' = claim_end_record e now j ∧ claim_ended claim [] e now j (tbase t) (tview t2) ∧
  (∀ k, end_key claim e now j k ∨ k = job_index_key (id j) → k ∈ ttracked t2) ∧ ∃ ws, stages t t2 ws.
Proof.
  intros Hfr Hm (_ & Hj & Hst1 & _)%take_claim_Ok [-> E2]%stage_claim_end_Ok.
  rewrite (fresh_view t Hfr) in Hj. split; [done|].
  set (ck := claimed_key (queue (job claim)) (id (job claim))) in *.
  assert (Hat : job_at (tbase t) ck = Some j) by by apply job_at_Some.
  destruct (claim_end_record_fields e now j) as (Fi & Fq & _).
  unfold claim_ended, end_key. fold ck. case_decide as De.
  - destruct E2 as [Hst2 _]. pose proof (stages_trans _ _ _ _ _ Hst1 Hst2) as Hst.
    pose proof (stages_tview _ _ _ Hst) as Hv. rewrite (fresh_view t Hfr) in Hv.
    split; [split; [done|]; split; [|split; [|intros _]]|split; [|by eexists]].
    1,2,3: rewrite Hv, <- ?Fi; unfold remove_writes, release_writes;
      destruct (dedup_key _); cbn; rewrite !lookup_delete_None; tauto.
    intros k Hk. rewrite <- Fi in Hk. pose proof (stages_tracked _ _ _ Hst) as Ht.
    destruct Hk as [[->|[->|[? _]]]| ->]; [|..|done|].
    + apply (Ht (WDelete ck)). set_solver.
    + apply (Ht (WDelete (attempt_history_key (id (claim_end_record e now j))))). set_solver.
    + apply (Ht (WDelete (job_index_key (id (claim_end_record e now j))))). set_solver.
  - destruct E2 as (key & Hk & Hne & Hst2 & _). pose proof (stages_trans _ _ _ _ _ Hst1 Hst2) as Hst.
    destruct (claimed_record _ _ _ _ Hm Hat) as (Eq & Ei & _).
    assert (Eck : claimed_key (queue j) (id j) = ck) by by rewrite Eq, Ei.
    rewrite Eck in Hne, Hst, Hst2.
    pose proof (stages_tview _ _ _ Hst) as Hv. rewrite (fresh_view t Hfr) in Hv.
    pose proof (stored_key_record _ _ Hk) as Hrec.
    assert (Hki : key ≠ job_index_key (id j)) by (intros ->; by destruct Hrec).
    assert (Hkh : key ≠ attempt_history_key (id j)) by (intros ->; by destruct Hrec).
    unfold put_writes in *. rewrite Fi in *. unfold apply_writes in Hv. cbn [foldl app apply_write] in Hv.
    split; [split; [done|]; split; [|exists key; split; [done|split; [|split; [|intros _]]]]|split; [|by eexists]].
    + rewrite Hv, lookup_insert_ne, lookup_insert_ne by done. by rewrite lookup_delete_eq.
    + rewrite Hv, lookup_insert_ne by done. by rewrite lookup_insert_eq.
    + rewrite Hv, lookup_insert_ne, lookup_insert_ne by done.
      rewrite lookup_delete_ne by done. rewrite lookup_insert_eq.
      rewrite merge_batch_history. unfold merge_append. cbn. rewrite app_nil_r.
      by rewrite lookup_delete_ne.
    + by rewrite Hv, lookup_insert_eq.
    + intros k Hk'. pose proof (stages_tracked _ _ _ Hst) as Ht.
      destruct Hk' as [[->|[->|[_ Hk']]]| ->].
      * apply (Ht (WDelete ck)). set_solver.
      * apply (Ht (WMerge (attempt_history_key (id j)) (encode (claim_end_attempt e now j)))). set_solver.
      * rewrite Hk in Hk'. injection Hk' as <-.
        apply (Ht (WPut key (stored_bytes (claim_end_record e now j)))). set_solver.
      * apply (Ht (WPut (job_index_key (id j)) key)). set_solver.
Qed.

(** The contents before and after agree with the snapshot and the view. *)
Lemma claim_ended_ext claim rs e now j v0 v m m' :
  claim_ended claim [] e now j v0 v →
  (∀ k, end_key claim e now j k → m' !! k = v !! k) →
  (∀ k, end_key claim e now j k → m !! k = v0 !! k) →
  (New (id j) ∉ rs → m' !! job_index_key (id j) = v !! job_index_key (id j)) →
  claim_ended claim rs e now j m m'.
Proof.
  intros (Hj & Hck & H) Hm' Hm Hi. unfold claim_ended.
  assert (Hk : end_key claim e now j (claimed_key (queue (job claim)) (id (job claim)))) by by left.
  assert (Hh : end_key claim e now j (attempt_history_key (id j))) by (right; by left).
  split; [unfold job_at in *; by rewrite Hm|]. split; [by rewrite Hm'|]. case_decide as De.
  - destruct H as [H1 H2]. split; [by rewrite Hm'|]. intros Hn. rewrite Hi by done. apply H2, not_elem_of_nil.
  - destruct H as (key & Hkey & H1 & H2 & H3). exists key. split; [done|].
    split; [rewrite Hm'; [done|by right; right]|]. split; [by rewrite Hm', Hm|].
    intros Hn. rewrite Hi by done. apply H3, not_elem_of_nil.
Qed.

(** What follows the end of prepared effects does not fail. *)
Lemma finish_effects_never p st w err w' : finish_effects p st w ≠ (Err err, w').
Proof.
  intros Ef. unfold finish_effects, discard_prepared in Ef.
  assert (Hno : ∀ A B (f : A → Q ()) l (k : B) w, (∀ a w, (f a w).1 = Ok tt) →
    (io_for_each f l ≫= λ _, mret k) w = (Err err, w') → False).
  { intros A B f l k. induction l as [|a l IH]; intros w0 Hf; [done|]. cbn [io_for_each].
    intros H. apply (IH (f a w0).2 Hf). revert H. unfold mbind, IO_bind.
    specialize (Hf a w0). destruct (f a w0) as [x w9]. cbn in Hf. by subst. }
  destruct st; (eapply Hno; [|exact Ef]); [intros [? []] ?; [done|]|intros]; apply delete_for_ok.
Qed.

(** A settlement that fails with an error of the code changed nothing: neither
    the job nor what its effects would have written. *)
Lemma settle_claim_error claim e ef w err w' :
  settle_claim claim e ef w = (Err err, w') → not_storage err → passes w w'.
Proof.
  intros H Hn. assert (Hu : err ≠ Unfinished).
  { intros ->. apply (settle_claim_finishes claim e ef w). by rewrite H. }
  revert H. unfold settle_claim, settle_txn, mbind at 1, IO_bind at 1.
  destruct (prepare_effects e w) as [[p|e0] w1] eqn:Ep;
    (assert (Hp1 : passes w w1) by (eapply still_passes; [apply still_prepare_effects|done]));
    [|by intros [= _ <-]].
  unfold mbind at 1, IO_bind at 1, io_try.
  destruct (retry _ _ w1) as [r w2] eqn:Er.
  unfold mbind at 1, IO_bind at 1. cbn zeta.
  set (st := match r with Ok (_, _, s) => s | Err _ => None end).
  destruct (finish_effects p st w2) as [rf w3] eqn:Ef.
  assert (Hp3 : passes w2 w3) by (eapply still_passes; [apply still_finish_effects|done]).
  destruct rf as [rs|ef'].
  2: { destruct (finish_effects_never p st w2 ef' w3 Ef). }
  unfold mbind at 1, IO_bind at 1, io_result. destruct r as [[[j e1] s]|er].
  - unfold mbind, IO_bind. destruct (finish_claim_end _ _ _ _ w3) as [[[]|e2] w4] eqn:Ec; [done|].
    intros [= -> ->]. exfalso. by eapply finish_claim_ok.
  - intros [= -> <-]. etrans; [done|]. etrans; [|done].
    eapply retry_error; [apply settle_body_steady|done|done|done].
Qed.

(** ** Transitions by id *)

(** The record of an id a transaction found, and that its keys tell what the store
    holds. *)
Lemma found_lookup t i ik k j :
  get_indexed_job (txn t) i = Ok (Some (ik, k, j)) → lookup_job (tview t) i = Some (k, j).
Proof.
  intros (_ & Hi & b & Hb & Hj)%get_indexed_job_Ok. unfold lookup_job. rewrite Hi. cbn.
  by rewrite (proj2 (job_at_Some (tview t) k j)) by eauto.
Qed.
Lemma absent_lookup t i : get_indexed_job (txn t) i = Ok None → lookup_job (tview t) i = None.
Proof.
  intros H%get_indexed_job_Ok. unfold lookup_job. destruct H as [->|(k & -> & H)]; [done|]. cbn.
  unfold job_at. by rewrite H.
Qed.
Lemma lookup_ext m m' i k j :
  lookup_job m i = Some (k, j) → m' !! job_index_key i = m !! job_index_key i → m' !! k = m !! k →
  lookup_job m' i = Some (k, j).
Proof.
  unfold lookup_job. intros H -> E. destruct (m !! job_index_key i) as [k'|]; [|done]. cbn in *.
  unfold job_at in *. destruct (m !! k' ≫= _) as [j'|] eqn:Ej; [|done]. cbn in H.
  injection H as -> ->. by rewrite E, Ej.
Qed.
Lemma lookup_id m i k j :
  store_ok m → lookup_job m i = Some (k, j) → id j = i ∧ stored_key j = Ok k ∧ job_at m k = Some j.
Proof.
  intros Hm H. unfold lookup_job in H. destruct (m !! job_index_key i) as [k'|] eqn:Ei; [|done].
  cbn in H. destruct (job_at m k') as [j'|] eqn:Ej; [|done]. injection H as -> ->.
  destruct (ok_index _ Hm _ _ Ei) as (j' & Hj' & Hi).
  rewrite Ej in Hj'. injection Hj' as <-. destruct (store_ok_job _ _ _ Hm Ej) as (? & _). done.
Qed.

(** A record that moves from [k] to [k'], from contents [m] to contents [m']. *)
Definition moved (i : string) (k : bytes) j (k' : bytes) j' m m' : Prop :=
  lookup_job m i = Some (k, j) ∧ m' !! k = None ∧
  stored_key j' = Ok k' ∧ m' !! k' = Some (stored_bytes j') ∧ m' !! job_index_key i = Some k'.

Lemma moved_commit t t' i k j k' j' rest m m' :
  fresh_txn t → store_ok (tbase t) → lookup_job (tbase t) i = Some (k, j) → k ≠ k' →
  stored_key j' = Ok k' → id j' = i →
  stages t t' ((WDelete k :: put_writes k' j') ++ rest) →
  (∀ x, x ∈ rest → write_key x ≠ k ∧ write_key x ≠ k' ∧ write_key x ≠ job_index_key i) →
  committed t' m m' → moved i k j k' j' m m'.
Proof.
  intros Hf Hok Hl Hne Hk' Hi Hst Hrest Hc. unfold put_writes in Hst. rewrite Hi in Hst.
  destruct (lookup_id _ _ _ _ Hok Hl) as (_ & Hk%stored_key_record & _).
  pose proof (stored_key_record _ _ Hk') as Hrec.
  assert (Hki : k ≠ job_index_key i) by (intros ->; by destruct Hk).
  assert (Hki' : k' ≠ job_index_key i) by (intros ->; by destruct Hrec).
  assert (Hout : ∀ x m0, (∀ w, w ∈ rest → write_key w ≠ x) → run rest m0 !! x = m0 !! x).
  { intros x m0 Hx. by apply run_lookup_ne. }
  destruct (committed_run t t' _ m m' k Hf Hst Hc) as [E1 B1]; [set_solver|by apply record_not_stats|].
  destruct (committed_run t t' _ m m' k' Hf Hst Hc) as [E2 _]; [set_solver|by apply record_not_stats|].
  destruct (committed_run t t' _ m m' (job_index_key i) Hf Hst Hc) as [E3 B3]; [set_solver|done|].
  rewrite run_app, Hout in E1, E2, E3 by (intros w Hw; by apply Hrest).
  unfold apply_writes in E1, E2, E3. cbn [foldl apply_write] in E1, E2, E3.
  unfold moved. split_and!.
  - by eapply lookup_ext; [exact Hl|..].
  - rewrite E1, lookup_insert_ne, lookup_insert_ne by done. by rewrite lookup_delete_eq.
  - done.
  - rewrite E2, lookup_insert_ne by done. by rewrite lookup_insert_eq.
  - by rewrite E3, lookup_insert_eq.
Qed.

(** *** A claim by id *)

(** The conversion of the inversions unfolds the call first. *)
#[local] Strategy expand [claim_job].

Lemma claim_job_parts k j now le t w c t' w' :
  claim_job k j now le t w = (Ok (c, t'), w') →
  ∃ t1, move_job k (claim_record now j) t = Ok (job c, t1) ∧
    release_dedup (queue (job c)) (dedup_key j) t1 = Ok (tt, t').
Proof.
  intros H. unfold claim_job in H.
  apply IO_bind_Ok in H as (cid & w1 & _ & H).
  apply IO_bind_Ok in H as ([j1 t1] & w2 & [E1 ->]%staging_Ok & H).
  apply IO_bind_Ok in H as (tok & w3 & _ & H). apply IO_bind_Ok in H as (u1 & w4 & _ & H).
  apply IO_bind_Ok in H as (u2 & w5 & _ & H).
  apply IO_bind_Ok in H as ([[] t2] & w6 & [E2 ->]%staging_Ok & H). injection H as <- <- _.
  by exists t1.
Qed.

Lemma claim_job_inv k j now le t w c t' w' :
  claim_job k j now le t w = (Ok (c, t'), w') → status j ≠ Claimed → record_status k = Some (status j) →
  job c = leave_waits (claim_record now j) ∧ ∃ ck, stored_key (job c) = Ok ck ∧ k ≠ ck ∧
    stages t t' ((WDelete k :: put_writes ck (job c)) ++ release_writes (queue j) (dedup_key j)).
Proof.
  intros (t1 & E1 & E2)%claim_job_parts Hs Ek.
  apply move_job_Ok in E1 as (ck & Ej & Hk & Hst & _).
  destruct (leave_waits_fields (claim_record now j)) as (_ & Fq & Fs & _).
  change (queue (claim_record now j)) with (queue j) in Fq.
  change (status (claim_record now j)) with Claimed in Fs.
  rewrite <- Ej in Fq, Fs. split; [done|]. exists ck. split; [done|].
  assert (Hne : k ≠ ck).
  { intros ->. rewrite (record_status_stored _ _ Hk), Fs in Ek. by injection Ek. }
  split; [done|]. unfold move_writes in Hst. rewrite decide_False in Hst by done.
  unfold release_dedup in E2. apply release_Ok in E2 as [Hst2 _]. cbn [snd] in Hst2.
  rewrite Fq in Hst2. by eapply stages_trans.
Qed.

(** A transition by id that returns: what it found, and its effect or none. *)
Lemma transition_effect {T} i d (missing : Result T) tr w v w' :
  world_ok w → done_result missing → (∀ t k j, steady t (tr t k j)) →
  transition_by_id i d missing tr w = (Ok v, w') →
  missing = Ok v ∧ no_effect w w' (λ m, lookup_job m i = None) ∨
  ∃ t w1 t' w2 k j, fresh_txn t ∧ store_ok (tbase t) ∧ lookup_job (tbase t) i = Some (k, j) ∧
    (tr t k j w1 = (Ok (CommitWith v, t'), w2) ∧ effect w w' (committed t') ∨
     tr t k j w1 = (Ok (AbortWith v, t'), w2) ∧
       no_effect w w' (λ m, lookup_job m i = Some (k, j))).
Proof.
  intros Hw Hm Htr (t & w1 & t' & w2 & Hf & Hok & Hor)%retry_effect.
  2: { intros t. apply steady_bind; [apply still_result, done_indexed_job|].
       intros [[[ik k] j]|]; [apply Htr|].
       apply steady_bind; [by apply still_result|]. intros. apply steady_ret. }
  specialize (Hok Hw).
  assert (Hl : ∀ x, get_indexed_job (txn t) i = Ok x →
    lookup_job (tbase t) i = match x with Some (_, k, j) => Some (k, j) | None => None end).
  { intros x Hx. rewrite <- (fresh_view t Hf). destruct x as [[[ik k] j]|];
      [by eapply found_lookup|by apply absent_lookup]. }
  destruct Hor as [(E & Hb & He)|(E & w3 & Hp & Hm3 & Hp')];
    apply IO_bind_Ok in E as (found & w4 & E1 & E); injection E1 as E1 <-;
    specialize (Hl _ E1); destruct found as [[[ik k] j]|].
  - right. exists t, w1, t', w2, k, j. auto 10.
  - by apply IO_bind_Ok in E as (x & w5 & _ & E).
  - right. exists t, w1, t', w2, k, j. do 3 (split; [done|]). right. split; [done|].
    exists w3. split; [done|]. split; [by rewrite Hm3|done].
  - apply IO_bind_Ok in E as (x & w5 & Ex & E). injection Ex as -> <-. injection E as <- _ _.
    left. split; [done|]. exists w3. split; [done|]. split; [by rewrite Hm3|done].
Qed.

Lemma materialize_one c w cs w' :
  materialize_payloads [c] w = (Ok cs, w') →
  ∃ c', cs = [c'] ∧ claim_id c' = claim_id c ∧ cancel c' = cancel c ∧
    job c' = set_payload (payload (job c')) (job c) ∧ passes w w'.
Proof.
  unfold materialize_payloads. intros (fetched & w1 & E & H)%IO_bind_Ok.
  assert (Hp : passes w w1).
  { eapply still_passes, E. apply still_mapM. intros. apply still_try, still_materialize. }
  cbn [io_mapM] in E. apply IO_bind_Ok in E as (r & w2 & E1 & E).
  apply IO_bind_Ok in E as (rs & w3 & E2 & E). injection E2 as <- <-. injection E as <- <-.
  apply IO_bind_Ok in H as (js & w4 & E & H). injection E as E <-. injection H as <- <-.
  cbn [collect_results] in E. destruct r as [j|]; [|done]. cbn in E. injection E as <-.
  exists (mkClaim j (claim_id c) (cancel c)). split_and!; [done|done|done| |done]. cbn.
  unfold io_try in E1. destruct (materialize (job c) w) as [r0 w5] eqn:Em. injection E1 as -> _.
  unfold materialize in Em. destruct (payload_ref (job c)) as [pr|].
  - apply IO_bind_Ok in Em as (b & w6 & _ & Em). by injection Em as <- _.
  - injection Em as <- _. by destruct (job c).
Qed.

(** A claim by id takes a pending or a scheduled job, alone: its record moves to
    the claimed space with the claim counted, and its dedup entry is gone. *)
Lemma claim_by_id_effect i lease w o w' :
  world_ok w → claim_by_id i lease w = (Ok o, w') →
  match o with
  | ClaimedOutcome c => ∃ j now k, (status j = Pending ∨ status j = Scheduled) ∧
      job c = set_payload (payload (job c)) (leave_waits (claim_record now j)) ∧
      effect w w' (λ m m',
        moved i k j (claimed_key (queue j) i) (leave_waits (claim_record now j)) m m' ∧
        ∀ dk, dedup_key j = Some dk → m' !! dedup_index_key (queue j) dk = None)
  | NotClaimable => no_effect w w' (λ m, ∃ k j, lookup_job m i = Some (k, j) ∧
      status j ≠ Pending ∧ status j ≠ Scheduled)
  | ClaimNotFound => no_effect w w' (λ m, lookup_job m i = None)
  end.
Proof.
  intros Hw. unfold claim_by_id. intros (r & w1 & E & H)%IO_bind_Ok.
  apply transition_effect in E; [|done|done|].
  2: { intros t k j. destruct (_ || _); [|apply steady_ret].
       apply steady_bind; [apply still_now_ms|]. intros now.
       apply steady_seq; [apply steady_claim_job|]. intros. apply steady_ret. }
  destruct E as [[[= <-] He]|(t & wa & t' & wb & k & j & Hf & Hok & Hl & Hor)].
  { by injection H as <- <-. }
  destruct (lookup_id _ _ _ _ Hok Hl) as (Hi & Hk & Hat).
  destruct Hor as [(E & He)|(E & He)]; destruct (_ || _) eqn:Hs.
  - apply IO_bind_Ok in E as (now & w3 & _ & E).
    apply IO_bind_Ok in E as ([c t1] & w4 & Ec & E). injection E as <- <- <-.
    apply IO_bind_Ok in H as (cs & w5 & Em & H).
    apply materialize_one in Em as (c' & -> & _ & _ & Hj & Hp). injection H as <- <-.
    apply orb_true_iff in Hs. rewrite !bool_decide_eq_true in Hs.
    apply claim_job_inv in Ec as (Ejob & ck & Hck & Hne & Hst);
      [|by destruct Hs as [-> | ->]|by apply record_status_stored].
    exists j, now, k. split; [done|]. split; [by rewrite <- Ejob|].
    eapply (effect_around w w w1); [done|done|]. eapply effect_mono; [|exact He].
    intros m m' Hc. destruct (leave_waits_fields (claim_record now j)) as (Fi & Fq & Fs & _).
    rewrite <- Ejob in *.
    assert (Eck : ck = claimed_key (queue j) i).
    { unfold stored_key in Hck. rewrite Fs, Fq, Fi in Hck. cbn in Hck. rewrite Hi in Hck.
      by injection Hck. }
    subst ck. split.
    + eapply moved_commit; try done; [by rewrite Fi|].
      intros x Hx. unfold release_writes in Hx. destruct (dedup_key j); [|by apply elem_of_nil in Hx].
      apply list_elem_of_singleton in Hx as ->. cbn. split_and!; [|done|done].
      intros <-. by apply stored_key_record in Hk as [].
    + intros dk Hdk. rewrite Hdk in Hst. cbn [release_writes] in Hst.
      destruct (committed_run t t1 _ m m' (dedup_index_key (queue j) dk) Hf Hst Hc) as [-> _];
        [set_solver|done|]. rewrite run_app. unfold apply_writes at 1. cbn [foldl apply_write].
      by rewrite lookup_delete_eq.
  - discriminate E.
  - apply IO_bind_Ok in E as (now & w3 & _ & E). by apply IO_bind_Ok in E as ([c t1] & w4 & _ & E).
  - injection E as <- <- <-. injection H as <- <-.
    apply orb_false_iff in Hs. rewrite !bool_decide_eq_false in Hs.
    destruct He as (w2 & Hp & Hm & Hp'). exists w2. split; [done|]. split; [|done]. by exists k, j.
Qed.

(** *** Cancel, wake and signal *)

(** What a staged wake found in the view of its transaction. *)
Definition wake_found (i : string) (wake : Wake) t (r : NotWoken + QueueName) t' : Prop :=
  match r with
  | inl why => t' = t ∧ match why with
      | Missing => lookup_job (tview t) i = None
      | Unscheduled => ∃ k j, lookup_job (tview t) i = Some (k, j) ∧ status j ≠ Scheduled
      | NoWait => ∃ k j, lookup_job (tview t) i = Some (k, j) ∧ status j = Scheduled ∧
          wake_record wake j = inl NoWait
      end
  | inr q => ∃ k j j1 k', lookup_job (tview t) i = Some (k, j) ∧ status j = Scheduled ∧
      wake_record wake j = inr j1 ∧ q = queue j ∧
      let j2 := leave_waits (set_run_at None (set_status Pending j1)) in
      stored_key j2 = Ok k' ∧ id j2 = i ∧ k ≠ k' ∧ stages t t' (WDelete k :: put_writes k' j2)
  end.

Lemma stage_wake_found i wake t r t' :
  store_ok (tview t) → stage_wake i wake t = Ok (r, t') → wake_found i wake t r t'.
Proof.
  intros Hok H. unfold stage_wake in H. apply M_bind_Ok in H as (found & t1 & E & H).
  apply reads_Ok in E as (x & E & [= -> ->]). destruct x as [[[ik k] j]|].
  2: { injection H as <- <-. split; [done|]. by apply absent_lookup. }
  apply found_lookup in E. destruct (lookup_id _ _ _ _ Hok E) as (Hi & Hk & _).
  case_decide as Hs; [|injection H as <- <-; split; [done|]; by exists k, j].
  assert (Hw : ∀ j1, wake_record wake j = inr j1 → id j1 = id j ∧ queue j1 = queue j).
  { intros j1. unfold wake_record. destruct wake as [pl|n|]; [destruct (signal_wait j)|case_decide|];
      try done; by intros [= <-]. }
  destruct (wake_record wake j) as [why|j1] eqn:Ew.
  - injection H as <- <-. split; [done|].
    assert (why = NoWait) as ->.
    { revert Ew. unfold wake_record. destruct wake; [destruct (signal_wait j)|case_decide|];
        try done; by intros [= <-]. }
    by exists k, j.
  - apply M_bind_Ok in H as (j2 & t2 & H & Hr). injection Hr as <- <-.
    unfold stage_to_pending in H. apply move_job_Ok in H as (k' & -> & Hk' & Hst & _).
    destruct (Hw j1 eq_refl) as [Hi1 Hq1].
    destruct (leave_waits_fields (set_run_at None (set_status Pending j1))) as (Fi & Fq & Fs & _).
    assert (Hne : k ≠ k').
    { intros ->. destruct (stored_key_inj _ _ _ Hk Hk') as (_ & _ & E'). rewrite Fs, Hs in E'. done. }
    exists k, j, j1, k'. do 3 (split; [done|]). cbn zeta. rewrite Fq, Fi. cbn [queue id set_run_at set_status].
    split; [congruence|]. split; [done|]. split; [congruence|]. split; [done|].
    unfold move_writes in Hst. by rewrite decide_False in Hst.
Qed.

(** The same on the snapshot of a transaction. *)
Lemma stage_wake_inv i wake t r t' :
  fresh_txn t → store_ok (tbase t) → stage_wake i wake t = Ok (r, t') →
  match r with
  | inl why => t' = t ∧ match why with
      | Missing => lookup_job (tbase t) i = None
      | Unscheduled => ∃ k j, lookup_job (tbase t) i = Some (k, j) ∧ status j ≠ Scheduled
      | NoWait => ∃ k j, lookup_job (tbase t) i = Some (k, j) ∧ status j = Scheduled ∧
          wake_record wake j = inl NoWait
      end
  | inr q => ∃ k j j1 k', lookup_job (tbase t) i = Some (k, j) ∧ status j = Scheduled ∧
      wake_record wake j = inr j1 ∧ q = queue j ∧
      let j2 := leave_waits (set_run_at None (set_status Pending j1)) in
      stored_key j2 = Ok k' ∧ id j2 = i ∧ k ≠ k' ∧ stages t t' (WDelete k :: put_writes k' j2)
  end.
Proof.
  intros Hf Hok H. rewrite <- (fresh_view t Hf) in *. by apply stage_wake_found in H.
Qed.

(** A wake moves a scheduled job to the pending space, without its waits. *)
Lemma wake_scheduled_effect i w o w' :
  world_ok w → wake_scheduled i w = (Ok o, w') →
  match o with
  | Woken => ∃ k j k', status j = Scheduled ∧
      effect w w' (moved i k j k' (leave_waits (set_run_at None (set_status Pending j))))
  | NotScheduled => no_effect w w' (λ m, ∃ k j, lookup_job m i = Some (k, j) ∧ status j ≠ Scheduled)
  | WakeNotFound => no_effect w w' (λ m, lookup_job m i = None)
  end.
Proof.
  intros Hw. unfold wake_scheduled. intros (r & w1 & E & H)%IO_bind_Ok.
  apply retry_effect in E as (t & wa & t' & wb & Hf & Hok & Hor).
  2: { intros t. apply steady_seq; [apply steady_staging, clean_stage_wake|]. intros. apply steady_ret. }
  specialize (Hok Hw).
  destruct Hor as [(E & _ & He)|(E & w3 & Hp & Hm & Hp')];
    apply IO_bind_Ok in E as ([s t1] & w4 & [E1 ->]%staging_Ok & E);
    apply (stage_wake_inv _ _ _ _ _ Hf Hok) in E1.
  - destruct s as [[]|q]; try discriminate E. injection E as <- <- <-. injection H as <- <-.
    destruct E1 as (k & j & j1 & k' & Hl & Hs & [= <-] & _ & Hk & Hi & Hne & Hst).
    exists k, j, k'. split; [done|]. eapply effect_mono; [|exact He]. intros m m' Hc.
    eapply (moved_commit t t1 i k j k' _ []); rewrite ?app_nil_r; try done. by intros x ?%elem_of_nil.
  - destruct s as [why|q]; [|discriminate E].
    assert (r = inl match why with Missing => WakeNotFound | _ => NotScheduled end) as ->
      by (destruct why; by injection E).
    injection H as <- <-. destruct E1 as [_ Hl].
    destruct why; (exists w3; split; [done|]; split; [|done]); rewrite Hm; try done.
    destruct Hl as (k & j & _ & _ & Hn). done.
Qed.

(** A signal that is delivered: the job that waits for it is pending, with the
    payload. *)
Lemma signal_job_effect i pl w w' :
  world_ok w → signal_job i pl w = (Ok Delivered, w') →
  ∃ k j k', status j = Scheduled ∧ signal_wait j = true ∧
    effect w w' (moved i k j k'
      (leave_waits (set_run_at None (set_status Pending (set_signal (Some pl) j))))).
Proof.
  intros Hw (t & wa & t' & wb & Hf & Hok & Hor)%retry_effect.
  2: { intros t. apply steady_seq; [apply steady_staging, clean_stage_signal|]. intros. apply steady_ret. }
  specialize (Hok Hw).
  destruct Hor as [(E & _ & He)|(E & _)];
    apply IO_bind_Ok in E as ([s t1] & w4 & [E1 ->]%staging_Ok & E); [|discriminate E].
  injection E as -> <- <-. unfold stage_signal in E1. apply M_bind_Ok in E1 as (r & t2 & E1 & Er).
  injection Er as Er <-. apply (stage_wake_inv _ _ _ _ _ Hf Hok) in E1.
  destruct r as [why|q]; [done|].
  destruct E1 as (k & j & j1 & k' & Hl & Hs & Hwr & _ & Hk & Hi & Hne & Hst).
  cbn in Hwr. destruct (signal_wait j) eqn:Hsw; [|done]. injection Hwr as <-.
  exists k, j, k'. split; [done|]. split; [done|]. eapply effect_mono; [|exact He]. intros m m' Hc.
  eapply (moved_commit t t2 i k j k' _ []); rewrite ?app_nil_r; try done. by intros x ?%elem_of_nil.
Qed.

(** The removal of a record: its key, its index entry, its history and its dedup
    entry. *)
Definition removed (i : string) (k : bytes) j m m' : Prop :=
  lookup_job m i = Some (k, j) ∧ m' !! k = None ∧ m' !! job_index_key i = None ∧
  m' !! attempt_history_key i = None ∧
  ∀ dk, dedup_key j = Some dk → m' !! dedup_index_key (queue j) dk = None.

Lemma run_deletes ws k m :
  (∀ x, x ∈ ws → ∃ k, x = WDelete k) → WDelete k ∈ ws → run ws m !! k = None.
Proof.
  revert m. induction ws as [|x ws IH]; intros m Hd Hin; [by apply elem_of_nil in Hin|].
  change (run ws (apply_write merge_batch merge_fallback m x) !! k = None).
  destruct (decide (WDelete k ∈ ws)) as [Hk|Hk].
  { apply IH; [|done]. intros y ?. apply Hd. by right. }
  apply elem_of_cons in Hin as [<-|]; [|done].
  rewrite run_lookup_ne; [by cbn; rewrite lookup_delete_eq|].
  intros y Hy <-. destruct (Hd y) as [k' ->]; [by right|]. done.
Qed.

Lemma removed_commit t t' i k j m m' :
  fresh_txn t → store_ok (tbase t) → lookup_job (tbase t) i = Some (k, j) →
  stages t t' (remove_writes k j) → committed t' m m' → removed i k j m m'.
Proof.
  intros Hf Hok Hl Hst Hc. destruct (lookup_id _ _ _ _ Hok Hl) as (Hi & Hk%stored_key_record & _).
  assert (Hdel : ∀ x, x ∈ remove_writes k j → ∃ k, x = WDelete k).
  { intros x Hx. unfold remove_writes, release_writes in Hx.
    destruct (dedup_key j); repeat (apply elem_of_cons in Hx as [->|Hx]; [by eexists|]);
      by apply elem_of_nil in Hx. }
  assert (Hgone : ∀ x, WDelete x ∈ remove_writes k j → tag_of x ≠ Some TStats →
    m' !! x = None ∧ m !! x = tbase t !! x).
  { intros x Hx Hs. destruct (committed_run t t' _ m m' x Hf Hst Hc) as [-> Hb].
    - apply list_elem_of_fmap. by exists (WDelete x).
    - done.
    - split; [by apply run_deletes|done]. }
  assert (Hidx : WDelete (job_index_key i) ∈ remove_writes k j).
  { rewrite <- Hi. unfold remove_writes. set_solver. }
  destruct (Hgone k) as [Gk Bk]; [by left|by apply record_not_stats|].
  destruct (Hgone (job_index_key i)) as [Gi Bi]; [done|done|].
  unfold removed. split_and!; [|done|done|..].
  - by eapply lookup_ext; [exact Hl|..].
  - apply Hgone; [|done]. rewrite <- Hi. unfold remove_writes. set_solver.
  - intros dk Hdk. apply Hgone; [|done]. unfold remove_writes, release_writes. rewrite Hdk. set_solver.
Qed.

Lemma stage_cancel_inv i t s t' :
  fresh_txn t → store_ok (tbase t) → stage_cancel i t = Ok (s, t') →
  match s with
  | Removed j => ∃ k, lookup_job (tbase t) i = Some (k, j) ∧
      (status j = Pending ∨ status j = Scheduled) ∧ stages t t' (remove_writes k j)
  | Requested j' => ∃ k j, lookup_job (tbase t) i = Some (k, j) ∧ status j = Claimed ∧
      cancel_requested j = false ∧ j' = leave_waits (set_cancel_requested true j) ∧
      stages t t' [WPut k (stored_bytes j')] ∧ tstats t' = tstats t
  | AlreadyRequested j => t' = t ∧ ∃ k, lookup_job (tbase t) i = Some (k, j) ∧
      status j = Claimed ∧ cancel_requested j = true
  | CancelMissing => t' = t ∧ (lookup_job (tbase t) i = None ∨
      ∃ k j, lookup_job (tbase t) i = Some (k, j) ∧ (status j = Done ∨ status j = Dead))
  end.
Proof.
  intros Hf Hok H. unfold stage_cancel in H. apply M_bind_Ok in H as (found & t1 & E & H).
  apply reads_Ok in E as (x & E & [= -> ->]). destruct x as [[[ik k] j]|].
  2: { injection H as <- <-. split; [done|]. left. rewrite <- (fresh_view t Hf). by apply absent_lookup. }
  apply found_lookup in E. rewrite (fresh_view t Hf) in E.
  destruct (lookup_id _ _ _ _ Hok E) as (Hi & Hk & _).
  assert (Hrm : (status j = Pending ∨ status j = Scheduled) →
    (stage_remove k j ≫= λ _, mret (Removed j)) t = Ok (s, t') →
    s = Removed j ∧ stages t t' (remove_writes k j)).
  { intros _ H'. apply M_bind_Ok in H' as (u & t2 & E' & H'). injection H' as <- <-.
    apply stage_remove_Ok in E' as (x & _ & Hst & _). done. }
  destruct (status j) eqn:Es.
  - apply Hrm in H as [-> Hst]; [|by left]. exists k. rewrite Es. auto.
  - apply Hrm in H as [-> Hst]; [|by right]. exists k. rewrite Es. auto.
  - destruct (cancel_requested j) eqn:Ec; [injection H as <- <-; split; [done|]; by exists k|].
    apply M_bind_Ok in H as (j' & t2 & E' & H). injection H as <- <-.
    apply move_job_Ok in E' as (key & -> & Hk' & Hst & Hs).
    assert (key = k) as ->.
    { unfold stored_key in Hk, Hk'. rewrite Es in Hk.
      destruct (leave_waits_fields (set_cancel_requested true j)) as (Fi & Fq & Fs & _).
      rewrite Fs, Fi, Fq in Hk'. cbn [status set_cancel_requested id queue] in Hk'. rewrite Es in Hk'.
      congruence. }
    exists k, j. do 4 (split; [done|]). unfold move_writes in Hst. rewrite decide_True in Hst by done.
    split; [done|]. by destruct Hs as [[_ ?]|[? _]].
  - injection H as <- <-. split; [done|]. right. exists k, j. auto.
  - injection H as <- <-. split; [done|]. right. exists k, j. auto.
Qed.

(** A cancel removes a job that waits, and marks a claimed one. *)
Lemma cancel_default_effect i w o rs w' :
  world_ok w → cancel_with i effects_default w = (Ok (o, rs), w') → rs = [] ∧
  match o with
  | CancelRemoved => ∃ k j, (status j = Pending ∨ status j = Scheduled) ∧
      effect w w' (removed i k j)
  | CancelRequestedOutcome => ∃ k j, status j = Claimed ∧
      if cancel_requested j then no_effect w w' (λ m, lookup_job m i = Some (k, j))
      else effect w w' (λ m m', job_at m k = Some j ∧
        m' = <[k := stored_bytes (leave_waits (set_cancel_requested true j))]> m)
  | CancelNotFound => no_effect w w' (λ m, lookup_job m i = None ∨
      ∃ k j, lookup_job m i = Some (k, j) ∧ (status j = Done ∨ status j = Dead))
  end.
Proof.
  intros Hw. unfold cancel_with. rewrite prepare_default.
  intros (p & w1 & E & H)%IO_bind_Ok. injection E as <- <-.
  apply IO_bind_Ok in H as (r & w2 & Er & H). unfold io_try in Er.
  destruct (retry _ _ w) as [r' w2'] eqn:E. injection Er as <- <-.
  apply IO_bind_Ok in H as (rs' & w3 & Ef & H). apply IO_bind_Ok in H as ([s st] & w4 & Es & H).
  injection Es as -> <-. apply IO_bind_Ok in H as (rm & w5 & Ec & H).
  apply IO_bind_Ok in H as (u & w6 & Ed & H). injection H as <- <- <-.
  assert (Hp : passes w2' w6).
  { etrans; [eapply still_passes; [apply still_finish_effects|done]|].
    etrans; [eapply still_passes, Ec; apply finish_cancel_still|].
    eapply still_passes, Ed. destruct rm; [apply still_delete_for|apply still_ret]. }
  assert (rs' = st) as ->.
  { unfold finish_effects in Ef. destruct st; apply IO_bind_Ok in Ef as (? & ? & _ & Ef);
      by injection Ef as <- _. }
  apply retry_effect in E as (t & wa & t' & wb & Hf & Hok & Hor).
  2: { intros t. apply steady_seq; [apply steady_staging, clean_stage_cancel|]. intros s0 t1.
       destruct s0; apply steady_ret. }
  specialize (Hok Hw).
  destruct Hor as [(E & _ & He)|(E & w7 & Hp7 & Hm7 & Hp7')];
    apply IO_bind_Ok in E as ([s0 t1] & w8 & [E1 ->]%staging_Ok & E);
    apply (stage_cancel_inv _ _ _ _ Hf Hok) in E1; destruct s0 as [j|j|j|].
  - apply IO_bind_Ok in E as (reg & w9 & _ & E).
    apply IO_bind_Ok in E as ([rs2 t2] & w10 & [E2 ->]%staging_Ok & E).
    rewrite stage_default in E2. injection E2 as <- <-. injection E as <- <- <- <-.
    split; [done|]. destruct E1 as (k & Hl & Hs & Hst). exists k, j. split; [done|].
    eapply effect_around; [done|exact Hp|]. eapply effect_mono; [|exact He].
    intros m m'. by apply (removed_commit t).
  - injection E as <- <- <- <-. split; [done|].
    destruct E1 as (k & j0 & Hl & Hs & Hcr & -> & Hst & Hts). exists k, j0. split; [done|].
    rewrite Hcr. eapply effect_around; [done|exact Hp|]. eapply effect_mono; [|exact He].
    intros m m' Hc. destruct (lookup_id _ _ _ _ Hok Hl) as (_ & Hk%stored_key_record & Hat).
    destruct (committed_run t t1 _ m m' k Hf Hst Hc) as [_ Hb]; [by left|by apply record_not_stats|].
    split.
    + unfold job_at in *. by rewrite Hb.
    + apply (committed_stages t t1 _ m m' Hf Hst); [|done]. rewrite Hts. apply Hf.
  - discriminate E.
  - discriminate E.
  - apply IO_bind_Ok in E as (reg & w9 & _ & E).
    by apply IO_bind_Ok in E as ([rs2 t2] & w10 & _ & E).
  - discriminate E.
  - injection E as <- <- <- <-. split; [done|]. destruct E1 as (_ & k & Hl & Hs & Hcr).
    exists k, j. split; [done|]. rewrite Hcr. exists w7. split; [done|].
    split; [by rewrite Hm7|by etrans].
  - injection E as <- <- <- <-. split; [done|]. destruct E1 as (_ & Hl).
    exists w7. split; [done|]. split; [by rewrite Hm7|by etrans].
Qed.

(** ** Enqueues *)

Lemma stage_job_writes_inv p t r t' :
  fresh_txn t → stage_job_writes p t = Ok (r, t') →
  let j := prepared_job p in
  match r with
  | inl i => t' = t ∧ ∃ dk b, dedup_key j = Some dk ∧
      tbase t !! dedup_index_key (queue j) dk = Some b ∧ from_utf8 b = Some i
  | inr i => i = id j ∧
      (∀ dk, dedup_key j = Some dk → tbase t !! dedup_index_key (queue j) dk = None) ∧
      (id_override_used p = true → tbase t !! job_index_key i = None) ∧
      (count_wait j = None → ∃ key, stored_key j = Ok key ∧
        stages t t' (put_writes key j ++ match dedup_key j with
          | Some dk => [WPut (dedup_index_key (queue j) dk) (as_bytes i)] | None => [] end))
  end.
Proof.
  intros Hf H. unfold stage_job_writes in H. set (j := prepared_job p) in *. cbn zeta.
  set (dkey := dedup_index_key (queue j) <$> dedup_key j) in *.
  apply M_bind_Ok in H as (existing & t1 & E & H).
  assert (t1 = t ∧ existing = (dkey ≫= λ k, tbase t !! k)) as [-> ->].
  { rewrite <- (fresh_view t Hf). destruct dkey; cbn; [apply t_get_Ok in E; by simplify_eq/=|by inv_m]. }
  destruct (dkey ≫= λ k, tbase t !! k) as [b|] eqn:Ed.
  { destruct (from_utf8 b) as [i|] eqn:Eu; [|by inv_m]. injection H as <- <-. split; [done|].
    subst dkey. destruct (dedup_key j) as [dk|]; [|done]. by exists dk, b. }
  apply M_bind_Ok in H as (taken & t1 & E1 & H).
  assert (t1 = t ∧ (id_override_used p = true → taken = tbase t !! job_index_key (id j))) as [-> Ht].
  { rewrite <- (fresh_view t Hf).
    destruct (id_override_used p); [apply t_get_Ok in E1; by simplify_eq/=|by inv_m]. }
  destruct taken; [by inv_m|]. apply M_bind_Ok in H as ([] & t1 & Ei & H).
  apply M_bind_Ok in H as ([] & t2 & Ep & H). injection H as <- <-.
  split; [done|]. split.
  { intros dk Hdk. subst dkey. by rewrite Hdk in Ed. }
  split; [intros Ho; by rewrite <- Ht|]. intros Hcw. rewrite Hcw in Ei.
  apply insert_job_Ok in Ei as (key & Hk & Hst & _). exists key. split; [done|].
  eapply stages_trans; [exact Hst|]. subst dkey. cbn [snd]. destruct (dedup_key j) as [dk|]; cbn in Ep.
  - apply t_put_Ok in Ep as (? & _). done.
  - injection Ep as <-. apply stages_refl.
Qed.

(** What the write of a new job does: its record, its index entry and its dedup
    entry, which were not there. *)
Definition inserted j (key : bytes) (overridden : bool) m m' : Prop :=
  (overridden = true → m !! job_index_key (id j) = None) ∧
  (∀ dk, dedup_key j = Some dk →
     m !! dedup_index_key (queue j) dk = None ∧
     m' !! dedup_index_key (queue j) dk = Some (as_bytes (id j))) ∧
  m' !! key = Some (stored_bytes j) ∧ m' !! job_index_key (id j) = Some key.

Definition new_job_writes (key : bytes) j : list write :=
  put_writes key j ++ match dedup_key j with
    | Some dk => [WPut (dedup_index_key (queue j) dk) (as_bytes (id j))] | None => [] end.

(** What the writes of a new job leave at their keys, which held what [base] did. *)
Lemma inserted_run (p : PreparedJob) (base : gmap bytes bytes) key m m' :
  let j := prepared_job p in
  stored_key j = Ok key →
  (∀ dk, dedup_key j = Some dk → base !! dedup_index_key (queue j) dk = None) →
  (id_override_used p = true → base !! job_index_key (id j) = None) →
  (∀ x, x ∈ write_key <$> new_job_writes key j → tag_of x ≠ Some TStats →
     m' !! x = run (new_job_writes key j) m !! x ∧ m !! x = base !! x) →
  inserted j key (id_override_used p) m m'.
Proof.
  cbn zeta. set (j := prepared_job p). intros Hk Hdk Ho Hst.
  pose proof (stored_key_record _ _ Hk) as Hrec.
  assert (Hki : key ≠ job_index_key (id j)) by (intros ->; by destruct Hrec).
  unfold new_job_writes, put_writes in Hst.
  destruct (Hst (job_index_key (id j))) as [Ei Bi]; [set_solver|done|].
  destruct (Hst key) as [Ek _]; [set_solver|by apply record_not_stats|].
  unfold apply_writes in Ei, Ek. unfold inserted. split_and!.
  - intros Hov. rewrite Bi. by apply Ho.
  - intros dk Hd. rewrite Hd in Hst.
    destruct (Hst (dedup_index_key (queue j) dk)) as [Ed Bd];
      [set_solver|done|]. rewrite Ed, Bd. split; [by apply Hdk|].
    unfold apply_writes. cbn [foldl app apply_write]. by rewrite lookup_insert_eq.
  - rewrite Ek. assert (Hkd : ∀ dk, dedup_index_key (queue j) dk ≠ key).
    { intros dk <-. by destruct Hrec. }
    destruct (dedup_key j); cbn [foldl app apply_write];
      rewrite ?(lookup_insert_ne _ (dedup_index_key _ _)), ?(lookup_insert_ne _ (job_index_key _)) by done;
      by rewrite lookup_insert_eq.
  - rewrite Ei. destruct (dedup_key j); cbn [foldl app apply_write];
      rewrite ?(lookup_insert_ne _ (dedup_index_key _ _)) by done; by rewrite lookup_insert_eq.
Qed.

(** The commit of the writes of a new job. *)
Lemma inserted_commit p t t' key m m' :
  let j := prepared_job p in
  fresh_txn t → stored_key j = Ok key →
  (∀ dk, dedup_key j = Some dk → tbase t !! dedup_index_key (queue j) dk = None) →
  (id_override_used p = true → tbase t !! job_index_key (id j) = None) →
  stages t t' (new_job_writes key j) →
  committed t' m m' → inserted j key (id_override_used p) m m'.
Proof.
  cbn zeta. intros Hf Hk Hdk Ho Hst Hc. apply (inserted_run p (tbase t)); try done.
  intros x Hx Hs. by eapply committed_run.
Qed.

(** A write of a job: it is new, or its dedup key has a job already and nothing
    changes. *)
Lemma write_job_txn_effect p w r w' :
  write_job_txn p prepared_default w = (Ok r, w') → count_wait (prepared_job p) = None →
  let j := prepared_job p in
  match r with
  | inl i => no_effect w w' (λ m, ∃ dk b, dedup_key j = Some dk ∧
      m !! dedup_index_key (queue j) dk = Some b ∧ from_utf8 b = Some i)
  | inr (i, rs) => i = id j ∧ rs = [] ∧ ∃ key, stored_key j = Ok key ∧
      effect w w' (inserted j key (id_override_used p))
  end.
Proof.
  intros H Hcw. apply retry_effect in H as (t & wa & t' & wb & Hf & _ & Hor).
  2: { intros t. apply steady_seq; [apply steady_staging, clean_job_writes|].
       intros [ex|i] t1; apply steady_ret. }
  cbn zeta.
  destruct Hor as [(E & _ & He)|(E & w3 & Hp & Hm & Hp')];
    apply IO_bind_Ok in E as ([wr t1] & w4 & [E1 ->]%staging_Ok & E);
    apply (stage_job_writes_inv _ _ _ _ Hf) in E1; destruct wr as [ex|i].
  - discriminate E.
  - apply IO_bind_Ok in E as (reg & w5 & _ & E).
    apply IO_bind_Ok in E as ([rs2 t2] & w6 & [E2 ->]%staging_Ok & E).
    rewrite stage_default in E2. injection E2 as <- <-. injection E as <- <- <-.
    destruct E1 as (-> & Hdk & Ho & Hst). specialize (Hst Hcw) as (key & Hk & Hst).
    split; [done|]. split; [done|]. exists key. split; [done|].
    eapply effect_mono; [|exact He]. intros m m' Hc. by eapply (inserted_commit p t t1).
  - injection E as <- <- <-. destruct E1 as (_ & Hex). exists w3. split; [done|].
    split; [by rewrite Hm|done].
  - apply IO_bind_Ok in E as (reg & w5 & _ & E). by apply IO_bind_Ok in E as ([rs2 t2] & w6 & _ & E).
Qed.

(** An enqueue: the job prepared from its options, with its payload offloaded or
    not, is written, or the id of the job of its dedup key is returned. *)
Lemma enqueue_with_effect q pl opts w i w' :
  enqueue_with q pl opts w = (Ok i, w') → opt_count_wait opts = None →
  ∃ p w1 j, prepare_job_record q pl opts w = (Ok p, w1) ∧ same_but_payload (prepared_job p) j ∧
    (i = id j ∧ (∃ key, stored_key j = Ok key ∧ effect w w' (inserted j key (id_override_used p))) ∨
     no_effect w w' (λ m, ∃ dk b, dedup_key j = Some dk ∧
       m !! dedup_index_key (queue j) dk = Some b ∧ from_utf8 b = Some i)).
Proof.
  intros H Hcw. unfold enqueue_with in H. apply IO_bind_Ok in H as (p & w1 & Ep & H).
  assert (Hp1 : passes w w1) by (eapply still_passes; [apply still_prepare_job|done]).
  assert (Hpc : count_wait (prepared_job p) = None) by by eapply prepare_count_wait.
  apply IO_bind_Ok in H as ([res rs] & w2 & E & H). injection H as <- <-.
  unfold write_job in E. apply IO_bind_Ok in E as (off & w3 & Eo & E).
  unfold io_try in Eo. destruct (offload (prepared_job p) w1) as [o w3'] eqn:Eo'.
  injection Eo as <- <-.
  assert (Hp2 : passes w1 w3') by (eapply still_passes; [apply still_offload|done]).
  destruct o as [j|e].
  2: { apply IO_bind_Ok in E as ([p' wr] & w4 & E1 & E). injection E1 as <- <- <-.
       apply IO_bind_Ok in E as (u & w5 & _ & E). apply IO_bind_Ok in E as (rs' & w6 & _ & E).
       by apply IO_bind_Ok in E as (x & w7 & Ex & E). }
  apply offload_Ok in Eo' as [Hj _].
  apply IO_bind_Ok in E as ([p' wr] & w4 & E1 & E). apply IO_bind_Ok in E1 as (r & w5 & Er & E1).
  injection E1 as <- <- <-. unfold io_try in Er.
  destruct (write_job_txn (mkPrepared j (id_override_used p)) prepared_default w3') as [r' w5'] eqn:Ew.
  injection Er as <- <-.
  assert (Hpost : ∀ (b : bool) st (o : Result EnqueueResult) pp,
    (finish_job_write pp b ≫= λ _, results ← finish_effects prepared_default st;
     outcome ← io_result o; mret (outcome, default [] results)) w5' = (Ok (res, rs), w2) →
    o = Ok res ∧ passes w5' w2).
  { intros b st o pp H. apply IO_bind_Ok in H as (u & w6 & E1 & H).
    apply IO_bind_Ok in H as (rs' & w7 & E2 & H). apply IO_bind_Ok in H as (x & w8 & E3 & H).
    injection E3 as -> <-. injection H as <- <- <-. split; [done|].
    etrans; [eapply still_passes, E1|eapply still_passes, E2; apply still_finish_effects].
    unfold finish_job_write. destruct b; [apply still_ret|apply still_delete_for]. }
  assert (Hjc : count_wait j = None) by (destruct Hj as (_ & _ & -> & _); done).
  exists p, w1, j. split; [done|]. split; [done|].
  destruct r' as [[ex|[i st]]|e]; apply Hpost in E as [E Hp3]; [| |done]; injection E as <-;
    apply write_job_txn_effect in Ew; try exact Hjc; cbn [prepared_job id_override_used] in Ew.
  - right. by eapply no_effect_around; [by etrans|done|].
  - left. destruct Ew as (-> & -> & key & Hk & He). split; [done|]. exists key. split; [done|].
    by eapply effect_around; [by etrans|done|].
Qed.

End outcomes.
