(* ===== verification/Frame.v ===== *)
(** * What a call does to the user key space

    The writes of a transaction to user keys are those of its effects: no
    transition of a job touches the user key space. A settlement, an enqueue, a
    cancel and a commit change each user key in the way their effects say, in the
    same change as the job. *)
From S2P Require Import Prelude Bytes Error Monad Keys Job Store Stats LeaseRegistry.
From S2P Require Import TimeBound ClaimCursor Completion Txn Stage StoreInv Sound Core.
From S2P Require Import QueueCore Control Effects Claim Settle Enqueue.
From S2P Require Import Sweeps Queue CoreInv StagedOps Finishes Linear Outcomes.

Section frame.
  Context {DB : SlateDb} {OS : ObjectStore} {SR : Serde JobRecord} {SA : Serde JobAttempt}.
  Context {SC : Serde CountRecord} {EN : Env} {DL : SlateDbLaws merge_batch}.
  Implicit Types (t : Txn) (j : JobRecord) (m : gmap bytes bytes).

Abbreviation run := (apply_writes merge_batch merge_fallback).

#[local] Set Default Proof Using "Type DL SR SA EN".

(** ** The user key space of the contents *)

Definition user_kv m (k : bytes) : option bytes := m !! user_scoped_key k.

(** The user key space after the effects [e]: a key that they write and delete is
    deleted. *)
Definition kv_after (e : SettlementEffects) (u : bytes → option bytes) (k : bytes) : option bytes :=
  if decide (k ∈ kv_deletes e) then None
  else match kv_writes e !! k with Some v => Some v | None => u k end.

(** ** The user writes of a transaction *)

Definition user_writes (ws : list write) : list write :=
  filter (λ x, tag_of (write_key x) = Some TUser) ws.

(** A step that stages the user writes [us]. *)
Definition framed {A} (us : list write) (f : TxnM A) : Prop :=
  ∀ t a t', f t = Ok (a, t') → ∃ ws, stages t t' ws ∧ user_writes ws = us.

Lemma framed_bind {A B} us vs (f : TxnM A) (g : A → TxnM B) :
  framed us f → (∀ a, framed vs (g a)) → framed (us ++ vs) (f ≫= g).
Proof.
  intros Hf Hg t b t' (a & t1 & (w1 & S1 & E1)%Hf & (w2 & S2 & E2)%Hg)%M_bind_Ok.
  exists (w1 ++ w2). split; [by eapply stages_trans|]. unfold user_writes in *.
  by rewrite filter_app, E1, E2.
Qed.
Lemma framed_seq {A B} (f : TxnM A) (g : A → TxnM B) :
  framed [] f → (∀ a, framed [] (g a)) → framed [] (f ≫= g).
Proof. exact (framed_bind [] [] f g). Qed.

(** A step whose writes are known. *)
Lemma framed_stages {A} us (f : TxnM A) :
  (∀ t a t', f t = Ok (a, t') → ∃ ws, stages t t' ws ∧ user_writes ws = us) → framed us f.
Proof. done. Qed.
Lemma framed_same {A} (f : TxnM A) :
  (∀ t a t', f t = Ok (a, t') → txn t' = txn t) → framed [] f.
Proof. intros H t a t' E%H. exists []. by split; [apply stages_same_txn|]. Qed.

Lemma framed_ret {A} (a : A) : framed [] (mret a).
Proof. apply framed_same. by intros t b t' [= _ <-]. Qed.
Lemma framed_raise {A} e us : framed us (raise e : TxnM A).
Proof. by intros t a t'. Qed.
Lemma framed_reads {A} (f : Txn → Result A) : framed [] (reads f).
Proof. apply framed_same. unfold reads. intros t a t' H. destruct (f t); by simplify_eq/=. Qed.
Lemma framed_of_result {A} (r : Result A) : framed [] (of_result r : TxnM A).
Proof. apply framed_same. unfold of_result. intros t a t' H. by destruct r; simplify_eq/=. Qed.
Lemma framed_notes f : framed [] (map_notes f).
Proof. apply framed_same. by intros t a t' [= _ <-]. Qed.
Lemma framed_get k : framed [] (t_get k).
Proof. apply framed_reads. Qed.
Lemma framed_mark_read ks : framed [] (t_mark_read ks).
Proof. intros t a t' (H & _)%t_mark_read_Ok. by exists []. Qed.
Lemma framed_put k v : framed (user_writes [WPut k v]) (t_put k v).
Proof. intros t a t' (H & _)%t_put_Ok. by eexists. Qed.
Lemma framed_delete k : framed (user_writes [WDelete k]) (t_delete k).
Proof. intros t a t' (H & _)%t_delete_Ok. by eexists. Qed.
Lemma framed_put_other k v : tag_of k ≠ Some TUser → framed [] (t_put k v).
Proof. intros Hk. pose proof (framed_put k v) as H. unfold user_writes in H. by rewrite filter_cons_False in H. Qed.
Lemma framed_delete_other k : tag_of k ≠ Some TUser → framed [] (t_delete k).
Proof. intros Hk. pose proof (framed_delete k) as H. unfold user_writes in H. by rewrite filter_cons_False in H. Qed.
Lemma framed_for_each {A} (us : A → list write) (f : A → TxnM ()) l :
  (∀ a, framed (us a) (f a)) → framed (l ≫= us) (for_each f l).
Proof. intros Hf. induction l; [apply framed_ret|by apply framed_bind]. Qed.
Lemma framed_for_each_none {A} (f : A → TxnM ()) l : (∀ a, framed [] (f a)) → framed [] (for_each f l).
Proof. intros Hf. induction l; [apply framed_ret|by apply framed_seq]. Qed.

Lemma framed_append i a : framed [] (t_append_attempt i a).
Proof. intros t u t' (H & _)%t_append_attempt_Ok. by eexists. Qed.

Ltac framed :=
  repeat first
    [ apply framed_ret | apply framed_raise | apply framed_get | apply framed_mark_read
    | apply framed_append | apply framed_notes | apply framed_of_result | apply framed_reads
    | (apply framed_put_other; first [done|by autorewrite with key_tags])
    | (apply framed_delete_other; first [done|by autorewrite with key_tags])
    | match goal with
      | |- framed [] (mbind _ _) => apply framed_seq; [|intros]
      | |- framed [] (for_each _ _) => apply framed_for_each_none; intros
      | |- framed [] (match _ with _ => _ end) => case_match
      end ].

(** ** The job operations *)

Lemma record_not_user k : is_Some (record_status k) → tag_of k ≠ Some TUser.
Proof. intros [s H] E. unfold record_status in H. by rewrite E in H. Qed.
Lemma status_not_user k s : key_status k = Ok s → tag_of k ≠ Some TUser.
Proof. unfold key_status. intros H E. by rewrite E in H. Qed.
Lemma stored_not_user j k : stored_key j = Ok k → tag_of k ≠ Some TUser.
Proof. intros H%stored_key_record. by apply record_not_user. Qed.

Lemma put_writes_user k j : tag_of k ≠ Some TUser → user_writes (put_writes k j) = [].
Proof. intros Hk. unfold user_writes, put_writes. by rewrite !filter_cons_False. Qed.

Lemma framed_insert_job j : framed [] (insert_job j).
Proof.
  intros t a t' (k & Hk & Hst & _)%insert_job_Ok. eexists. split; [done|].
  by eapply put_writes_user, stored_not_user.
Qed.

Lemma framed_move_job from j : framed [] (move_job from j).
Proof.
  intros t j' t' (k & _ & Hk & Hst & H)%move_job_Ok. eexists. split; [done|].
  pose proof (stored_not_user _ _ Hk) as Hu. unfold move_writes. case_decide.
  - unfold user_writes. by rewrite filter_cons_False.
  - destruct H as [[? _]|(_ & s & Hs & _)]; [done|]. unfold user_writes.
    rewrite filter_cons_False by (cbn; by eapply status_not_user). by apply put_writes_user.
Qed.

Lemma framed_stage_remove k j : framed [] (stage_remove k j).
Proof.
  intros t a t' (s & Hs%status_not_user & Hst & _)%stage_remove_Ok. eexists. split; [done|].
  unfold remove_writes, release_writes, user_writes. rewrite !filter_cons_False by done.
  by destruct (dedup_key j).
Qed.

Lemma framed_to_pending k j : framed [] (stage_to_pending k j).
Proof. apply framed_move_job. Qed.
Lemma framed_stage_wake i w : framed [] (stage_wake i w).
Proof. unfold stage_wake. framed; apply framed_to_pending. Qed.
Lemma framed_stage_cancel i : framed [] (stage_cancel i).
Proof. unfold stage_cancel. framed; first [apply framed_stage_remove|apply framed_move_job]. Qed.
Lemma framed_read_claim r q i c : framed [] (read_claim r q i c).
Proof. unfold read_claim. framed. Qed.
Lemma framed_take_claim r q i c : framed [] (take_claim r q i c).
Proof.
  intros t a t' (_ & _ & Hst & _)%take_claim_Ok. eexists. split; [done|].
  unfold user_writes. by rewrite filter_cons_False.
Qed.
Lemma framed_claim_end j e now : framed [] (stage_claim_end j e now).
Proof.
  unfold stage_claim_end, stage_dead_letter.
  framed; first [apply framed_stage_remove|apply framed_move_job|apply framed_to_pending].
Qed.
Lemma framed_count_change n d : framed [] (stage_count_change n d).
Proof. unfold stage_count_change, read_record. framed; apply framed_stage_wake. Qed.
Lemma framed_count_wait j : framed [] (stage_count_wait j).
Proof. unfold stage_count_wait, read_record. framed. Qed.
Lemma framed_job_writes p : framed [] (stage_job_writes p).
Proof.
  unfold stage_job_writes. destruct (dedup_key (prepared_job p)); cbn [fmap option_fmap option_map];
    framed; first [apply framed_count_wait|apply framed_insert_job].
Qed.
Lemma framed_compares cs : framed [] (stage_compares cs).
Proof. induction cs; cbn [stage_compares]; unfold kv_state_matches; framed; done. Qed.
Lemma framed_enqueues ps : framed [] (stage_enqueues ps).
Proof. induction ps; cbn [stage_enqueues]; framed; first [apply framed_job_writes|done]. Qed.

(** ** Effects *)

Definition put_write (x : bytes * bytes) : write := WPut (user_scoped_key x.1) x.2.
Definition delete_write (k : bytes) : write := WDelete (user_scoped_key k).

(** The user writes of prepared effects. *)
Definition effect_writes (p : PreparedEffects) : list write :=
  map put_write (map_to_list (prep_kv_writes p)) ++ map delete_write (prep_kv_deletes p).

Lemma framed_puts l : framed (map put_write l) (for_each (λ '(k, v), t_put (user_scoped_key k) v) l).
Proof.
  induction l as [|[k v] l IH]; [apply framed_ret|].
  by apply (framed_bind [put_write (k, v)]); [apply (framed_put (user_scoped_key k) v)|].
Qed.
Lemma framed_deletes l : framed (map delete_write l) (for_each (λ k, t_delete (user_scoped_key k)) l).
Proof.
  induction l as [|k l IH]; [apply framed_ret|].
  by apply (framed_bind [delete_write k]); [apply (framed_delete (user_scoped_key k))|].
Qed.

Lemma framed_nil_l {A B} vs (f : TxnM A) (g : A → TxnM B) :
  framed [] f → (∀ a, framed vs (g a)) → framed vs (f ≫= g).
Proof. exact (framed_bind [] vs f g). Qed.

(** The changes of effects, after their guards. *)
Lemma framed_changes p : framed (effect_writes p)
  (for_each (λ '(name, d), stage_count_change name d) (map_to_list (prep_count_changes p)) ≫= λ _,
   results ← stage_enqueues (prepared_jobs p);
   for_each (λ '(k, v), t_put (user_scoped_key k) v) (map_to_list (prep_kv_writes p)) ≫= λ _,
   for_each (λ k, t_delete (user_scoped_key k)) (prep_kv_deletes p) ≫= λ _,
   for_each (λ '(index, at_ms), note_expiry_entry index at_ms) (prep_expiry_entries p) ≫= λ _,
   mret results).
Proof.
  apply framed_nil_l; [framed; apply framed_count_change|]. intros _.
  apply framed_nil_l; [apply framed_enqueues|]. intros rs.
  apply framed_bind; [apply framed_puts|]. intros _.
  rewrite <- (app_nil_r (map delete_write _)). apply framed_bind; [apply framed_deletes|]. intros _.
  unfold note_expiry_entry. framed.
Qed.

Lemma framed_effects r p : framed (effect_writes p) (stage_effects r p).
Proof.
  unfold stage_effects. apply framed_nil_l; [framed; apply framed_read_claim|]. intros _.
  apply framed_nil_l; [apply framed_compares|]. intros _. apply framed_changes.
Qed.

(** ** Claims and ended jobs

    The effects of a call write new jobs, woken jobs, counts and user keys: the claims,
    the ended jobs and the attempt histories are left. *)

Definition apart (k : bytes) : Prop :=
  tag_of k = Some TClaimed ∨ tag_of k = Some TDone ∨ tag_of k = Some TDead ∨ tag_of k = Some TAttemptHistory.

(** A step whose writes satisfy [P]. *)
Definition within {A} (P : write → Prop) (f : TxnM A) : Prop :=
  ∀ t a t', f t = Ok (a, t') → ∃ ws, stages t t' ws ∧ Forall P ws.

Section within.
  Context (P : write → Prop).

Lemma within_bind {A B} (f : TxnM A) (g : A → TxnM B) :
  within P f → (∀ a, within P (g a)) → within P (f ≫= g).
Proof.
  intros Hf Hg t b t' (a & t1 & (w1 & S1 & E1)%Hf & (w2 & S2 & E2)%Hg)%M_bind_Ok.
  exists (w1 ++ w2). split; [by eapply stages_trans|by apply Forall_app].
Qed.
Lemma within_framed {A} (f : TxnM A) : (∀ t a t', f t = Ok (a, t') → stages t t' []) → within P f.
Proof. intros H t a t' E%H. by exists []. Qed.
Lemma within_ret {A} (a : A) : within P (mret a).
Proof. apply within_framed. intros t b t' [= _ <-]. apply stages_refl. Qed.
Lemma within_raise {A} e : within P (raise e : TxnM A).
Proof. by intros t a t'. Qed.
Lemma within_reads {A} (f : Txn → Result A) : within P (reads f).
Proof.
  apply within_framed. unfold reads. intros t a t' H. destruct (f t); simplify_eq/=. apply stages_refl.
Qed.
Lemma within_of_result {A} (r : Result A) : within P (of_result r : TxnM A).
Proof. apply within_framed. unfold of_result. intros t a t' H. destruct r; simplify_eq/=. apply stages_refl. Qed.
Lemma within_notes f : within P (map_notes f).
Proof. apply within_framed. intros t a t' [= _ <-]. by apply stages_same_txn. Qed.
Lemma within_mark_read ks : within P (t_mark_read ks).
Proof. intros t a t' (H & _)%t_mark_read_Ok. by exists []. Qed.
Lemma within_put k v : P (WPut k v) → within P (t_put k v).
Proof. intros HP t a t' (H & _)%t_put_Ok. exists [WPut k v]. split; [done|by constructor]. Qed.
Lemma within_delete k : P (WDelete k) → within P (t_delete k).
Proof. intros HP t a t' (H & _)%t_delete_Ok. exists [WDelete k]. split; [done|by constructor]. Qed.
Lemma within_for_each {A} (f : A → TxnM ()) l : (∀ a, within P (f a)) → within P (for_each f l).
Proof. intros Hf. induction l; [apply within_ret|by apply within_bind]. Qed.
End within.

Ltac within :=
  repeat first
    [ apply within_ret | apply within_raise | apply within_mark_read | apply within_notes
    | apply within_of_result | apply within_reads
    | match goal with
      | |- within _ (mbind _ _) => apply within_bind; [|intros]
      | |- within _ (for_each _ _) => apply within_for_each; intros
      | |- within _ (match _ with _ => _ end) => case_match
      end ].

(** The writes of effects to jobs: of a job that is to run, and its index. *)
Definition to_run (x : write) : Prop := ¬ apart (write_key x).

Lemma to_run_user k v : to_run (WPut (user_scoped_key k) v).
Proof. by intros [H|[H|[H|H]]]. Qed.
Lemma to_run_user_delete k : to_run (WDelete (user_scoped_key k)).
Proof. by intros [H|[H|[H|H]]]. Qed.
Lemma to_run_count k v : to_run (WPut (count_key k) v).
Proof. by intros [H|[H|[H|H]]]. Qed.
Lemma to_run_count_delete k : to_run (WDelete (count_key k)).
Proof. by intros [H|[H|[H|H]]]. Qed.

Lemma to_run_put j key :
  stored_key j = Ok key → status j = Pending ∨ status j = Scheduled → Forall to_run (put_writes key j).
Proof.
  intros Hk Hs. unfold put_writes. repeat constructor; intros Ha; cbn in Ha; [|by destruct Ha as [|[|[]]]].
  apply tag_of_stored_key in Hk. destruct Ha as [E|[E|[E|E]]]; rewrite E in Hk;
    destruct Hs as [Hs|Hs]; rewrite Hs in Hk; by inversion Hk.
Qed.

Lemma within_wake i w : within to_run (stage_wake i w).
Proof.
  unfold stage_wake. intros t a t' (found & t1 & E & H)%M_bind_Ok.
  apply reads_Ok in E as (? & E & [= <- <-]). destruct found as [[[ik ck] j]|].
  2: { injection H as _ <-. exists []. split; [apply stages_refl|done]. }
  case_decide as Hs; [|injection H as _ <-; exists []; split; [apply stages_refl|done]].
  destruct (wake_record w j) as [why|j'] eqn:Ew.
  { injection H as _ <-. exists []. split; [apply stages_refl|done]. }
  apply M_bind_Ok in H as (j2 & t2 & (key & -> & Hk & Hst & _)%move_job_Ok & H). injection H as _ <-.
  exists (move_writes ck key (leave_waits (set_run_at None (set_status Pending j')))). split; [done|].
  apply get_indexed_job_Ok in E as (_ & _ & b & _ & Hd%decode_job_status). rewrite Hs in Hd.
  assert (Hp : Forall to_run (put_writes key (leave_waits (set_run_at None (set_status Pending j'))))).
  { apply to_run_put; [done|]. left. unfold leave_waits. by case_decide. }
  unfold move_writes. case_decide; [by inversion Hp; constructor|]. constructor; [|done].
  intros Ha. cbn in Ha. unfold record_status in Hd. destruct Ha as [E|[E|[E|E]]]; by rewrite E in Hd.
Qed.

Lemma within_count_change n d : within to_run (stage_count_change n d).
Proof.
  unfold stage_count_change, read_record. within.
  all: first [apply within_wake|apply within_put, to_run_count|apply within_delete, to_run_count_delete|idtac].
Qed.

(** A job is prepared to run. *)
Definition to_start (p : PreparedJob) : Prop :=
  status (prepared_job p) = Pending ∨ status (prepared_job p) = Scheduled.

Lemma stage_count_wait_within (P : write → Prop) j t j' t' :
  (∀ n v, P (WPut (count_key n) v)) → stage_count_wait j t = Ok (j', t') →
  (∃ ws, stages t t' ws ∧ Forall P ws) ∧ id j' = id j ∧ (status j' = status j ∨ status j' = Pending).
Proof.
  intros HP. unfold stage_count_wait. destruct (count_wait j) as [name|].
  2: { intros [= <- <-]. split; [|auto]. exists []. split; [apply stages_refl|done]. }
  intros (rec & t1 & E & H)%M_bind_Ok. apply read_record_Ok in E. cbn in E. subst t1. case_decide.
  { injection H as <- <-. split; [|auto]. exists []. split; [apply stages_refl|done]. }
  apply M_bind_Ok in H as (waiting & t1 & E & H).
  assert (t1 = t) as ->. { destruct (waiter rec); inv_m; done. }
  destruct waiting as [w|]; [done|]. apply M_bind_Ok in H as (u & t1 & (Hst & _)%t_put_Ok & [= <- <-]).
  split; [|auto]. eexists. split; [exact Hst|]. by constructor.
Qed.

Lemma within_job_writes p : to_start p → within to_run (stage_job_writes p).
Proof.
  intros Hs. assert (Hi : ∀ j, status j = Pending ∨ status j = Scheduled → within to_run (insert_job j)).
  { intros j Hj t a t' (key & Hk & Hst & _)%insert_job_Ok. exists (put_writes key j). split; [done|by apply to_run_put]. }
  assert (Hw : within to_run (match count_wait (prepared_job p) with
    | Some _ => j ← stage_count_wait (prepared_job p); insert_job j | None => insert_job (prepared_job p) end)).
  { destruct (count_wait (prepared_job p)); [|by apply Hi].
    intros t a t' (j & t1 & ((ws & Hst & Hws) & _ & Hj)%(stage_count_wait_within to_run _ _ _ _ (λ n v, to_run_count n v)) & H)%M_bind_Ok.
    apply Hi in H as (vs & Hvs & HP); [|unfold to_start in Hs; destruct Hj as [->| ->]; auto].
    exists (ws ++ vs). split; [by eapply stages_trans|by apply Forall_app]. }
  unfold stage_job_writes. set (ins := match count_wait (prepared_job p) with Some _ => _ | None => _ end) in *.
  clearbody ins. destruct (dedup_key (prepared_job p)) as [dk|]; cbn [fmap option_fmap option_map];
    unfold t_get; within; try done; by apply within_put; intros [?|[?|[?|?]]].
Qed.

Lemma within_enqueues ps : Forall to_start ps → within to_run (stage_enqueues ps).
Proof.
  induction 1 as [|p ps Hp _ IH]; cbn [stage_enqueues]; [apply within_ret|].
  apply within_bind; [by apply within_job_writes|intros r]. apply within_bind; [done|intros rs]. apply within_ret.
Qed.
Lemma within_compares cs : within to_run (stage_compares cs).
Proof. induction cs; cbn [stage_compares]; unfold kv_state_matches, t_get; within; done. Qed.

Lemma within_effects reg p : Forall to_start (prepared_jobs p) → within to_run (stage_effects reg p).
Proof.
  intros Hp. unfold stage_effects, note_expiry_entry. within;
    first [apply within_compares|apply within_count_change|by apply within_enqueues
      |apply within_put, to_run_user|apply within_delete, to_run_user_delete|idtac].
  unfold read_claim, t_get. within.
Qed.

(** *** The index of an ended job

    The wakes of count changes are of scheduled jobs, and a new job has its own id: the
    index entry of an id that no scheduled job has is left, unless a job is new with it. *)

Definition idle t (i : string) : Prop :=
  ∀ k, tview t !! job_index_key i = Some k → record_status k ≠ Some Scheduled.

(** A step leaves the index entry of [i]. *)
Definition leaves_index (i : string) {A} (f : TxnM A) : Prop :=
  ∀ t a t', sound (NI := no_ids) t → idle t i → f t = Ok (a, t') →
    sound (NI := no_ids) t' ∧ tview t' !! job_index_key i = tview t !! job_index_key i.

Lemma leaves_bind i {A B} (f : TxnM A) (g : A → TxnM B) :
  leaves_index i f → (∀ a, leaves_index i (g a)) → leaves_index i (f ≫= g).
Proof.
  intros Hf Hg t b t' Ht Hi (a & t1 & H1 & H2)%M_bind_Ok. destruct (Hf _ _ _ Ht Hi H1) as [Ht1 E1].
  destruct (Hg a t1 b t' Ht1) as [Ht2 E2]; [by intros k; rewrite E1; apply Hi|done|]. by rewrite E2, E1.
Qed.
Lemma leaves_ret i {A} (a : A) : leaves_index i (mret a).
Proof. by intros t b t' Ht Hi [= _ <-]. Qed.
Lemma leaves_for_each i {A} (f : A → TxnM ()) l : (∀ a, leaves_index i (f a)) → leaves_index i (for_each f l).
Proof. intros Hf. induction l; [apply leaves_ret|by apply leaves_bind]. Qed.
Lemma leaves_within i {A} (f : TxnM A) :
  within (λ x, write_key x ≠ job_index_key i) f → (∀ t r, sound (NI := no_ids) t → f t = Ok r → step_ok (NI := no_ids) (λ _, False) t r.2) →
  leaves_index i f.
Proof.
  intros Hf Hs t a t' Ht Hi E. split; [by apply (Hs t (a, t'))|]. destruct (Hf _ _ _ E) as (ws & Hst & Hws).
  rewrite (stages_tview _ _ _ Hst). apply run_lookup_ne. by apply Forall_forall.
Qed.

Lemma leaves_wake i w wake : leaves_index i (stage_wake w wake).
Proof.
  intros t r t' Ht Hi E. split; [by apply (step_stage_wake (NI := no_ids) t w wake (r, t') Ht E)|].
  unfold stage_wake in E. apply M_bind_Ok in E as (found & t1 & Ef & E).
  apply reads_Ok in Ef as (? & Ef & [= <- <-]). destruct found as [[[ik ck] j]|]; [|by injection E as _ <-].
  pose proof (found_id (NI := no_ids) _ _ _ _ _ Ht Ef) as Hid.
  case_decide as Hs; [|by injection E as _ <-]. destruct (wake_record wake j) as [why|j'] eqn:Ew; [by injection E as _ <-|].
  apply M_bind_Ok in E as (j2 & t2 & (key & -> & Hk & Hst & _)%move_job_Ok & E). injection E as _ <-.
  apply get_indexed_job_Ok in Ef as (_ & Hw & b & _ & Hd%decode_job_status). rewrite Hs in Hd.
  rewrite (stages_tview _ _ _ Hst). apply run_lookup_ne. intros y Hy Hyi.
  assert (Hwi : w ≠ i) by (intros ->; by destruct (Hi _ Hw)).
  assert (Hj' : id j' = w).
  { revert Ew. unfold wake_record. destruct wake; [destruct (signal_wait j)|case_decide|]; by intros [= <-]. }
  unfold move_writes in Hy. apply stored_key_record in Hk. case_decide.
  - apply list_elem_of_singleton in Hy as ->. cbn in Hyi. subst. by destruct Hk.
  - apply elem_of_cons in Hy as [->|Hy]; [cbn in Hyi; subst; done|].
    apply (put_writes_index _ _ _ _ Hk Hy) in Hyi.
    destruct (leave_waits_fields (set_run_at None (set_status Pending j'))) as (Fi & _).
    rewrite Fi in Hyi. cbn in Hyi. congruence.
Qed.

Lemma leaves_count_change i n d : leaves_index i (stage_count_change n d).
Proof.
  intros t r t' Ht Hi E. split; [by apply (step_stage_count_change (NI := no_ids) t n d (r, t') Ht E)|].
  unfold stage_count_change in E. case_decide; [by injection E as _ <-|].
  apply M_bind_Ok in E as (rc & t1 & E1 & E). apply read_record_Ok in E1. cbn in E1. subst t1. case_decide.
  - apply t_put_Ok in E as (Hst & _). cbn [snd] in Hst. rewrite (stages_tview _ _ _ Hst). by apply lookup_insert_ne.
  - apply M_bind_Ok in E as (u & t1 & E1 & E).
    pose proof (step_delete_other (NI := no_ids) _ _ (u, t1) (is_other_count n) Ht E1) as [Ht1 _].
    apply t_delete_Ok in E1 as (Hst & _). cbn [snd] in *.
    assert (Ev : tview t1 !! job_index_key i = tview t !! job_index_key i)
      by (rewrite (stages_tview _ _ _ Hst); by apply lookup_delete_ne).
    destruct (waiter rc) as [w|]; [|injection E as _ <-; done].
    apply M_bind_Ok in E as (x & t2 & E & [= _ <-]). rewrite <- Ev. eapply (leaves_wake i); [done| |exact E].
    intros k. rewrite Ev. apply Hi.
Qed.

Lemma stage_count_wait_index j t j' t' i :
  stage_count_wait j t = Ok (j', t') → tview t' !! job_index_key i = tview t !! job_index_key i.
Proof.
  intros ((ws & Hst & Hws) & _)%(stage_count_wait_within (λ x, write_key x ≠ job_index_key i)); [|done].
  rewrite (stages_tview _ _ _ Hst). apply run_lookup_ne. by apply Forall_forall.
Qed.

(** A new job, or the job that holds its dedup key. *)
Lemma job_writes_index p t r t' i :
  stage_job_writes p t = Ok (r, t') → r ≠ inr i → tview t' !! job_index_key i = tview t !! job_index_key i.
Proof.
  intros H Hr. unfold stage_job_writes in H. set (j := prepared_job p) in *. 
  apply M_bind_Ok in H as (existing & t1 & E & H).
  assert (t1 = t) as ->.
  { destruct (dedup_key j); cbn in E; [apply t_get_Ok in E; by injection E|by injection E]. }
  destruct existing as [b|]; [destruct (from_utf8 b); [by injection H as _ <-|done]|].
  apply M_bind_Ok in H as (taken & t1 & E1 & H).
  assert (t1 = t) as ->. { destruct (id_override_used p); [apply t_get_Ok in E1; by injection E1|by injection E1]. }
  destruct taken; [done|]. apply M_bind_Ok in H as (u1 & t1 & Ei & H). apply M_bind_Ok in H as (u2 & t2 & Ep & H).
  injection H as <- <-. assert (Hi : id j ≠ i) by congruence.
  assert (Ht2 : tview t2 !! job_index_key i = tview t1 !! job_index_key i).
  { destruct (dedup_key j); cbn in Ep; [|by injection Ep as _ <-].
    apply t_put_Ok in Ep as (Hst & _). cbn [snd] in Hst. rewrite (stages_tview _ _ _ Hst). by apply lookup_insert_ne. }
  assert (Hins : ∀ j0 ta tb, id j0 = id j → insert_job j0 ta = Ok (u1, tb) →
    tview tb !! job_index_key i = tview ta !! job_index_key i).
  { intros j0 ta tb E0 (key & Hk & Hst & _)%insert_job_Ok. cbn [snd] in Hst. rewrite (stages_tview _ _ _ Hst).
    apply run_lookup_ne. intros x Hx Hxi. apply stored_key_record in Hk.
    apply (put_writes_index _ _ _ _ Hk Hx) in Hxi. congruence. }
  rewrite Ht2. destruct (count_wait j); [|by apply (Hins j)].
  apply M_bind_Ok in Ei as (j0 & t0 & Ew & Ei). rewrite (Hins j0 _ _ ltac:(by apply (stage_count_wait_within (λ _, True)) in Ew as (_ & ? & _)) Ei).
  by apply (stage_count_wait_index _ _ _ _ i) in Ew.
Qed.

Lemma enqueues_index ps t rs t' i :
  stage_enqueues ps t = Ok (rs, t') → New i ∉ rs → tview t' !! job_index_key i = tview t !! job_index_key i.
Proof.
  revert t rs. induction ps as [|p ps IH]; cbn [stage_enqueues]; intros t rs.
  { by intros [= <- <-]. }
  intros (r & t1 & E & H)%M_bind_Ok Hn. apply M_bind_Ok in H as (rs' & t2 & E2 & [= <- <-]).
  apply not_elem_of_cons in Hn as [Hn1 Hn2]. rewrite (IH _ _ E2 Hn2).
  eapply job_writes_index; [exact E|]. intros ->. done.
Qed.

Lemma effects_index reg p t rs t' i :
  sound (NI := no_ids) t → idle t i → stage_effects reg p t = Ok (rs, t') → New i ∉ rs →
  tview t' !! job_index_key i = tview t !! job_index_key i.
Proof.
  intros Ht Hi H Hn. unfold stage_effects in H.
  apply M_bind_Ok in H as (u1 & t1 & E1 & H). apply M_bind_Ok in H as (u2 & t2 & E2 & H).
  apply M_bind_Ok in H as (u3 & t3 & E3 & H). apply M_bind_Ok in H as (rs' & t4 & E4 & H).
  assert (L3 : tview t3 !! job_index_key i = tview t !! job_index_key i).
  { assert (Hl : leaves_index i (match prep_claim_fence p with
      | Some f => read_claim reg (fence_queue f) (fence_id f) (fence_claim_id f) ≫= λ _, mret tt
      | None => mret tt end ≫= λ _, stage_compares (prep_kv_compares p) ≫= λ _,
      for_each (λ '(name, d), stage_count_change name d) (map_to_list (prep_count_changes p)))).
    { apply leaves_bind; [|intros _; apply leaves_bind; [|intros _; apply leaves_for_each; intros []; apply leaves_count_change]].
      - destruct (prep_claim_fence p); [|apply leaves_ret]. apply leaves_bind; [|intros; apply leaves_ret].
        apply leaves_within; [|intros; by eapply step_read_claim].
        unfold read_claim, t_get. within.
      - apply leaves_within; [|intros; by eapply step_stage_compares].
        generalize (prep_kv_compares p). intros cs.
        induction cs; cbn [stage_compares]; unfold kv_state_matches, t_get; within; done. }
    apply (Hl t u3 t3 Ht Hi). apply M_bind_Ok. exists u1, t1. split; [done|]. apply M_bind_Ok. by exists u2, t2. }
  rewrite <- L3. assert (rs' = rs) as ->.
  { do 3 (apply M_bind_Ok in H as (? & ? & _ & H)). by injection H. }
  rewrite <- (enqueues_index _ _ _ _ _ E4 Hn).
  assert (Hw : within (λ x, write_key x ≠ job_index_key i) (
    for_each (λ '(k, v), t_put (user_scoped_key k) v) (map_to_list (prep_kv_writes p)) ≫= λ _,
    for_each (λ k, t_delete (user_scoped_key k)) (prep_kv_deletes p) ≫= λ _,
    for_each (λ '(index, at_ms), note_expiry_entry index at_ms) (prep_expiry_entries p) ≫= λ _, mret rs)).
  { unfold note_expiry_entry. within; by first [apply within_put|apply within_delete]. }
  apply Hw in H as (ws & Hst & Hws). rewrite (stages_tview _ _ _ Hst). apply run_lookup_ne. by apply Forall_forall.
Qed.

(** What effects are prepared from starts. *)
Lemma prepared_to_start q pl opts w p w' : prepare_job_record q pl opts w = (Ok p, w') → to_start p.
Proof.
  intros E. pose proof (prepared_job_follows_its_options q pl opts w) as H. rewrite E in H. cbn [fst] in H.
  destruct H as (_ & _ & _ & [[Hs _]|[Hs _]]); unfold to_start; rewrite Hs; auto.
Qed.

Lemma prepare_effects_to_start e w p w' : prepare_effects e w = (Ok p, w') → Forall to_start (prepared_jobs p).
Proof.
  unfold prepare_effects. intros (u & w1 & _ & H)%IO_bind_Ok. destruct (list_find _ _) as [[]|]; [done|].
  apply IO_bind_Ok in H as (ps & w2 & E2 & H). apply IO_bind_Ok in H as (js & w3 & E3 & H).
  injection H as <- <-. cbn. assert (Hps : Forall to_start ps).
  { clear E3. revert w1 ps w2 E2. induction (enqueues e) as [|r rs IH]; cbn; intros w1 ps w2.
    - intros [= <- _]. constructor.
    - intros (p & w5 & Ep%prepared_to_start & H)%IO_bind_Ok. apply IO_bind_Ok in H as (ps' & w6 & Eps & [= <- _]).
      constructor; [done|by eapply IH]. }
  unfold offload_prepared in E3. apply IO_bind_Ok in E3 as (js' & w4 & (after & -> & Ha)%offload_all_Ok & [= <- _]).
  cbn [app]. clear E2. revert after Ha. induction Hps as [|p ps Hp _ IH]; cbn; intros after Ha.
  - inversion Ha. constructor.
  - inversion Ha as [|? j ? l (_ & _ & _ & _ & _ & Hs & _) Hl]; subst. constructor; [|by apply IH].
    unfold to_start in *. cbn. by rewrite Hs.
Qed.

(** ** The commit of effects *)

(** Only the user writes matter to a user key. *)
Lemma run_user ws m k : run ws m !! user_scoped_key k = run (user_writes ws) m !! user_scoped_key k.
Proof.
  revert m. induction ws as [|x ws IH]; intros m; [done|]. unfold user_writes.
  change (run (x :: ws) m) with (run ws (apply_write merge_batch merge_fallback m x)).
  destruct (decide (tag_of (write_key x) = Some TUser)) as [D|D].
  - rewrite filter_cons_True by done. apply IH.
  - rewrite filter_cons_False by done. rewrite IH. apply run_lookup_ext.
    assert (user_scoped_key k ≠ write_key x) by (intros E; by rewrite <- E in D).
    destruct x; cbn in *; by rewrite ?lookup_insert_ne, ?lookup_delete_ne by done.
Qed.

Lemma run_puts l m k :
  NoDup l.*1 → run (map put_write l) m !! user_scoped_key k =
    match (list_to_map l : gmap bytes bytes) !! k with Some v => Some v | None => user_kv m k end.
Proof.
  revert m. induction l as [|[k' v] l IH]; intros m Hnd; [done|]. apply NoDup_cons in Hnd as [Hk Hnd].
  change (run (map put_write ((k', v) :: l)) m) with
    (run (map put_write l) (<[user_scoped_key k' := v]> m)).
  rewrite IH by done. cbn [list_to_map fst]. unfold user_kv. destruct (decide (k' = k)) as [->|Hne].
  - change ((list_to_map ((k, v) :: l) : gmap bytes bytes)) with (<[k := v]> (list_to_map l : gmap bytes bytes)).
    rewrite lookup_insert_eq, lookup_insert_eq.
    by rewrite (proj1 (not_elem_of_list_to_map l k)).
  - change ((list_to_map ((k', v) :: l) : gmap bytes bytes)) with (<[k' := v]> (list_to_map l : gmap bytes bytes)).
    rewrite (lookup_insert_ne (list_to_map l)) by done.
    by rewrite lookup_insert_ne by (intros ?%(inj user_scoped_key); done).
Qed.

Lemma run_kv_deletes l m k :
  run (map delete_write l) m !! user_scoped_key k = if decide (k ∈ l) then None else user_kv m k.
Proof.
  revert m. induction l as [|k' l IH]; intros m; [by rewrite decide_False by apply not_elem_of_nil|].
  change (run (map delete_write (k' :: l)) m) with
    (run (map delete_write l) (delete (user_scoped_key k') m)).
  rewrite IH. unfold user_kv. destruct (decide (k' = k)) as [->|Hne].
  - rewrite lookup_delete_eq. rewrite (decide_True (P := k ∈ k :: l)) by by left. by case_decide.
  - rewrite lookup_delete_ne by by intros ?%(inj user_scoped_key).
    apply decide_ext. set_solver.
Qed.

(** The effects a prepared form came from. *)
Record prepared_of (e : SettlementEffects) (p : PreparedEffects) : Prop := {
  prepared_all : length (prepared_jobs p) = length (enqueues e);
  prepared_writes : prep_kv_writes p = kv_writes e;
  prepared_deletes : prep_kv_deletes p = kv_deletes e;
  prepared_compares : prep_kv_compares p = kv_compares e;
  prepared_fence : prep_claim_fence p = claim_fence e;
}.

Lemma prepare_effects_of e w p w' : prepare_effects e w = (Ok p, w') → prepared_of e p.
Proof.
  intros H. pose proof (prepare_effects_list _ _ _ _ H) as (n' & ps & js & Hps & _ & Hjs & Ep).
  assert (Hl : length (prepared_jobs p) = length (enqueues e)).
  { apply Forall2_length in Hjs. rewrite length_fmap in Hjs. rewrite Ep, length_zip_with, <- Hjs, Nat.min_id.
    clear -Hps. induction Hps; cbn; congruence. }
  revert H Hl. clear. unfold prepare_effects. intros (u & w1 & _ & H)%IO_bind_Ok.
  destruct (list_find _ _) as [[]|]; [done|].
  apply IO_bind_Ok in H as (ps & w2 & _ & H). apply IO_bind_Ok in H as (js & w3 & _ & H).
  by injection H as <- <-.
Qed.

Lemma run_effect_writes e p m k :
  prepared_of e p → run (effect_writes p) m !! user_scoped_key k = kv_after e (user_kv m) k.
Proof.
  intros [_ Ew Ed _ _]. unfold effect_writes. rewrite Ew, Ed, run_app, run_kv_deletes.
  unfold kv_after. case_decide; [done|]. unfold user_kv at 1. rewrite run_puts by apply NoDup_fst_map_to_list.
  by rewrite list_to_map_to_list.
Qed.

(** The commit of a transaction with user writes [us]. *)
Lemma user_committed t t' ws m m' k :
  fresh_txn t → stages t t' ws → committed t' m m' →
  user_kv m' k = run (user_writes ws) m !! user_scoped_key k.
Proof.
  intros (Hw & _) Hst [-> _]. unfold user_kv. rewrite run_stats_other by done.
  rewrite (stages_twrite _ _ _ _ Hst). unfold twrite. rewrite Hw. cbn. apply run_user.
Qed.

(** The compares of effects hold of [m]. *)
Definition compares_hold (e : SettlementEffects) m : Prop :=
  Forall (λ c, user_kv m (compare_key c) = compare_expected c) (kv_compares e).

(** What effects do to the user key space, from contents [m] to contents [m']. *)
Definition kv_applied (e : SettlementEffects) m m' : Prop :=
  compares_hold e m ∧ ∀ k, user_kv m' k = kv_after e (user_kv m) k.
Definition kv_kept m m' : Prop := ∀ k, user_kv m' k = user_kv m k.

Lemma stage_compares_Ok cs t u t' :
  stage_compares cs t = Ok (u, t') → stages t t' [] ∧
  Forall (λ c, tview t !! user_scoped_key (compare_key c) = compare_expected c ∧
    user_scoped_key (compare_key c) ∈ ttracked t') cs.
Proof.
  revert t. induction cs as [|c cs IH]; intros t; cbn [stage_compares].
  { intros [= _ <-]. split; [apply stages_refl|done]. }
  intros (same & t1 & (Hs & Hst & _ & Ht)%kv_state_Ok & H)%M_bind_Ok.
  destruct same; [|done]. apply symmetry, bool_decide_eq_true in Hs.
  apply IH in H as [Hst' Hall]. split; [by eapply (stages_trans _ _ _ [] [])|]. constructor.
  - split; [done|]. by apply (stages_mono _ _ _ Hst').
  - eapply Forall_impl; [exact Hall|]. intros c' [E Hc]. split; [|done].
    rewrite <- E. by rewrite (stages_tview _ _ _ Hst).
Qed.

(** Effects are staged on a transaction that saw their compares hold, and the claim
    of their fence. *)
Lemma stage_effects_guards reg p t rs t' :
  stage_effects reg p t = Ok (rs, t') →
  Forall (λ c, tview t !! user_scoped_key (compare_key c) = compare_expected c ∧
    user_scoped_key (compare_key c) ∈ ttracked t') (prep_kv_compares p) ∧
  ∀ f, prep_claim_fence p = Some f → let k := claimed_key (fence_queue f) (fence_id f) in
    is_Some (tview t !! k) ∧ k ∈ ttracked t'.
Proof.
  unfold stage_effects. intros (u1 & t1 & H1 & H)%M_bind_Ok.
  assert (Hst1 : stages t t1 [] ∧ ∀ f, prep_claim_fence p = Some f →
    let k := claimed_key (fence_queue f) (fence_id f) in is_Some (tview t !! k) ∧ k ∈ ttracked t1).
  { destruct (prep_claim_fence p) as [f|].
    - apply M_bind_Ok in H1 as ([k j] & t3 & (-> & _ & (b & Hb & _) & Hs & Hk & _)%read_claim_Ok & H1).
      injection H1 as _ <-. split; [done|]. intros f' [= <-]. split; [by exists b|done].
    - injection H1 as _ <-. split; [apply stages_refl|done]. }
  destruct Hst1 as [Hst1 Hfence].
  apply M_bind_Ok in H as (u2 & t2 & [Hst2 Hall]%stage_compares_Ok & H).
  assert (Hfr : framed (effect_writes p) (for_each (λ '(name, d), stage_count_change name d)
      (map_to_list (prep_count_changes p)) ≫= λ _, results ← stage_enqueues (prepared_jobs p);
      for_each (λ '(k, v), t_put (user_scoped_key k) v) (map_to_list (prep_kv_writes p)) ≫= λ _,
      for_each (λ k, t_delete (user_scoped_key k)) (prep_kv_deletes p) ≫= λ _,
      for_each (λ '(index, at_ms), note_expiry_entry index at_ms) (prep_expiry_entries p) ≫= λ _,
      mret results)) by apply framed_changes.
  apply Hfr in H as (vs & Hvs & _). pose proof (stages_mono _ _ _ Hvs) as Hmono. split.
  - eapply Forall_impl; [exact Hall|]. intros c [E Hc]. split; [|by apply Hmono].
    by rewrite <- E, (stages_tview _ _ _ Hst1).
  - intros f Hf. destruct (Hfence f Hf) as [? Hk]. split; [done|].
    by apply Hmono, (stages_mono _ _ _ Hst2).
Qed.

(** A key that the part before the effects did not write, in the contents the commit
    found. *)
Lemma guard_committed t0 t ws us t' m m' k :
  fresh_txn t0 → stages t0 t ws → stages t t' us → committed t' m m' →
  (∀ x, x ∈ ws → write_key x ≠ k) → tag_of k ≠ Some TStats → k ∈ ttracked t' → m !! k = tview t !! k.
Proof.
  intros Hf Hst Hus Hc Hk Hs Ht.
  rewrite (committed_before _ _ _ k Hc Ht Hs), (stages_tbase _ _ _ Hus), (stages_tbase _ _ _ Hst).
  by rewrite (stages_tview _ _ _ Hst), run_lookup_ne, (fresh_view t0).
Qed.

Lemma user_writes_ne ws k x : user_writes ws = [] → x ∈ ws → write_key x ≠ user_scoped_key k.
Proof.
  intros Hu Hin Ek. assert (Hx : x ∈ user_writes ws) by (apply list_elem_of_filter; by rewrite Ek).
  rewrite Hu in Hx. by apply not_elem_of_nil in Hx.
Qed.

(** The commit of effects staged after a part that leaves the user key space. *)
Lemma effects_committed reg e p t0 t ws rs t' m m' :
  prepared_of e p → fresh_txn t0 → stages t0 t ws → user_writes ws = [] →
  stage_effects reg p t = Ok (rs, t') → committed t' m m' → kv_applied e m m'.
Proof.
  intros Hp Hf Hst Hu H Hc. pose proof (stage_effects_guards _ _ _ _ _ H) as [Hcs _].
  apply framed_effects in H as (us & Hus & Eus). split.
  - unfold compares_hold. rewrite <- (prepared_compares _ _ Hp).
    eapply Forall_impl; [exact Hcs|]. intros c [E Ht]. rewrite <- E.
    apply (guard_committed t0 t ws us t' m m'); try done. intros x. by apply user_writes_ne.
  - intros k. rewrite (user_committed _ _ _ _ _ k Hf (stages_trans _ _ _ _ _ Hst Hus) Hc).
    unfold user_writes in *. rewrite filter_app, Hu, Eus. by apply run_effect_writes.
Qed.

Lemma kept_committed t t' ws m m' :
  fresh_txn t → stages t t' ws → user_writes ws = [] → committed t' m m' → kv_kept m m'.
Proof. intros Hf Hst Hu Hc k. by rewrite (user_committed _ _ _ _ _ k Hf Hst Hc), Hu. Qed.

(** ** The calls *)

Lemma finish_effects_Ok p st w rs w' :
  finish_effects p st w = (Ok rs, w') → rs = st ∧ passes w w'.
Proof.
  intros H. split.
  - unfold finish_effects in H. destruct st; apply IO_bind_Ok in H as (? & ? & _ & H); by injection H as <- _.
  - eapply still_passes, H. apply still_finish_effects.
Qed.

(** The end of a claim leaves nothing at the claimed key. *)
Lemma claim_end_gone j e now t1 j' t2 reg q i cid t :
  take_claim reg q i cid t = Ok (j, t1) → stage_claim_end j e now t1 = Ok (j', t2) →
  tview t2 !! claimed_key q i = None.
Proof.
  intros (_ & _ & Hst1 & _)%take_claim_Ok [-> E2]%stage_claim_end_Ok.
  assert (Hv1 : tview t1 !! claimed_key q i = None) by (rewrite (stages_tview _ _ _ Hst1); apply lookup_delete_eq).
  assert (Hws : ∃ ws, stages t1 t2 ws ∧ ∀ x, x ∈ ws → write_key x = claimed_key q i → ∃ k, x = WDelete k).
  { case_decide.
    - destruct E2 as [Hst _]. eexists. split; [exact Hst|]. intros x Hx _. unfold remove_writes, release_writes in Hx.
      destruct (dedup_key _); set_solver.
    - destruct E2 as (key & Hk & _ & Hst & _). eexists. split; [exact Hst|]. intros x Hx Hxk.
      rewrite !elem_of_cons in Hx. destruct Hx as [->|[->|Hx]]; [done|eauto|]. exfalso. revert Hx.
      unfold put_writes. rewrite !elem_of_cons, elem_of_nil. intros [->|[->|[]]]; [|done].
      cbn in Hxk. subst key. apply tag_of_stored_key in Hk. cbn in Hk. injection Hk as Hk.
      destruct (claim_end_record_fields e now j) as (_ & _ & _ & _ & Hn). by rewrite <- Hk in Hn. }
  destruct Hws as (ws & Hst & Hws). rewrite (stages_tview _ _ _ Hst). clear -Hv1 Hws. revert Hv1. generalize (tview t1).
  induction ws as [|x ws IH]; intros m Hm; [done|].
  change (run (x :: ws) m) with (run ws (apply_write merge_batch merge_fallback m x)).
  apply IH; [intros y Hy; apply Hws; by right|].
  destruct (decide (write_key x = claimed_key q i)) as [Hx|Hx].
  - destruct (Hws x ltac:(by left) Hx) as [k ->]. cbn in Hx. subst k. apply lookup_delete_eq.
  - destruct x; cbn in *; by rewrite ?lookup_insert_ne, ?lookup_delete_ne.
Qed.

Lemma fresh_sound t : fresh_txn t → store_ok (tbase t) → sound (NI := no_ids) t.
Proof.
  intros (Hw & Ht & Hs) Hok. split; [done|]. intros m Hm _. unfold twrite. rewrite Hw, Hs. by apply steps_ok_refl.
Qed.

Lemma end_key_not_stats claim e now j k : end_key claim e now j k → tag_of k ≠ Some TStats.
Proof.
  intros [->|[->|[_ Hk]]]; [done..|]. by eapply record_not_stats, stored_key_record.
Qed.

(** The effects leave what the end of the claim left. *)
Lemma ended_then_effects claim e now j reg p t t2 ws rs t' :
  store_ok (tbase t) → stages t t2 ws → sound (NI := no_ids) t2 → Forall to_start (prepared_jobs p) →
  is_terminal e = true → claim_ended claim [] e now j (tbase t) (tview t2) →
  stage_effects reg p t2 = Ok (rs, t') →
  (∀ k, end_key claim e now j k → tview t' !! k = tview t2 !! k) ∧
  (New (id j) ∉ rs → tview t' !! job_index_key (id j) = tview t2 !! job_index_key (id j)).
Proof.
  intros Hm Hst Hs Hp Ht (_ & _ & He) H.
  pose proof (within_effects reg p Hp _ _ _ H) as (us & Hus & HP). split.
  - intros k Hk. rewrite (stages_tview _ _ _ Hus). apply run_lookup_ne. intros x Hx Hxk.
    rewrite Forall_forall in HP. apply (HP x Hx). unfold apart. rewrite Hxk.
    destruct Hk as [->|[->|[Hne Hk]]]; [by left|by right; right; right|right].
    apply tag_of_stored_key in Hk. destruct e as [[]| |]; try discriminate Ht; try done;
      cbn in Hk; destruct (tag_of k) as [[]|]; try discriminate Hk; auto.
  - intros Hn. eapply effects_index; [exact Hs| |exact H|done]. intros k Hk. case_decide as De.
    + destruct He as [_ He]. rewrite He in Hk by apply not_elem_of_nil. done.
    + destruct He as (key & Hkey & _ & _ & He). rewrite He in Hk by apply not_elem_of_nil. injection Hk as <-.
      apply tag_of_stored_key in Hkey. unfold record_status. rewrite Hkey.
      destruct e as [[]| |]; try discriminate Ht; done.
Qed.

(** What a settlement staged in the transaction that committed: the claim was taken
    under the registry of that moment and ended, and the effects of a terminal end
    were staged after it. *)
Definition settlement_staged (claim : Claim) (p : PreparedEffects) (ef : JobRecord → Z → ClaimEnd)
    (w1 : World) (j' : JobRecord) (rs : option (list EnqueueResult)) j now t t1 t2 t' : Prop :=
  take_claim (lease_registry (core w1)) (queue (job claim)) (id (job claim)) (claim_id claim) t = Ok (j, t1) ∧
  stage_claim_end j (ef j now) now t1 = Ok (j', t2) ∧
  if is_terminal (ef j now) then ∃ reg rs', rs = Some rs' ∧ stage_effects reg p t2 = Ok (rs', t')
  else rs = None ∧ t' = t2.

Lemma settle_claim_staged claim e ef w j' rs w' :
  settle_claim claim e ef w = (Ok (j', rs), w') →
  ∃ p w1 j now t t1 t2 t', prepared_of e p ∧ Forall to_start (prepared_jobs p) ∧ passes w w1 ∧
    fresh_txn t ∧ (∀ CI : Invariant, (∀ z, usable CI z) → world_ok w → store_ok (tbase t)) ∧
    settlement_staged claim p ef w1 j' rs j now t t1 t2 t' ∧ effect w1 w' (committed t').
Proof.
  intros (p & w1 & e' & st & w2 & Ep & Er & -> & Hp1 & Hp2)%settle_claim_inv.
  pose proof (prepare_effects_of _ _ _ _ Ep) as Hp. pose proof (prepare_effects_to_start _ _ _ _ Ep) as Hts.
  apply retry_effect_at in Er as (t & wa & t' & wb & Hfr & Hok & Hpa & Hor); [|apply settle_body_steady].
  destruct Hor as [(E & _ & He)|E];
    apply IO_bind_Ok in E as (reg & w3 & E1 & E); injection E1 as <- <-;
    apply IO_bind_Ok in E as ([j t1] & w4 & [E1 ->]%staging_Ok & E);
    apply IO_bind_Ok in E as (now & w5 & _ & E); cbn zeta in E;
    apply IO_bind_Ok in E as ([j2 t2] & w6 & [E2 ->]%staging_Ok & E);
    destruct (is_terminal (ef j now)) eqn:Et;
    try (apply IO_bind_Ok in E as (reg' & w7 & _ & E);
         apply IO_bind_Ok in E as ([rs t3] & w8 & [E3 ->]%staging_Ok & E)); try discriminate E.
  all: injection E as <- <- <- <- <-; exists p, wa, j, now, t, t1, t2; eexists.
  all: split; [exact Hp|split; [exact Hts|split; [by etrans|split; [exact Hfr|split; [by intros CI HU Hw; apply (Hok CI HU), (passes_keeps CI _ _ HU Hp1)|]]]]].
  all: split; [split; [exact E1|split; [exact E2|]]|by eapply effect_around; [..|exact He]]; rewrite Et.
  - by eexists _, _.
  - done.
Qed.

(** The new jobs of effects are indexed. *)
Lemma enqueues_put ps t rs t' k :
  stage_enqueues ps t = Ok (rs, t') → is_Some (tview t !! k) → is_Some (tview t' !! k).
Proof.
  intros E. assert (Hw : within (λ x, ∃ k v, x = WPut k v) (stage_enqueues ps)).
  { clear E. assert (Hi : ∀ j, within (λ x, ∃ k v, x = WPut k v) (insert_job j)).
    { intros j t0 a t1 (key & Hk & Hst & _)%insert_job_Ok. eexists. split; [exact Hst|]. unfold put_writes. repeat constructor; eauto. }
    induction ps as [|p ps IH]; cbn [stage_enqueues]; [apply within_ret|].
    apply within_bind; [|intros r; apply within_bind; [done|intros ?; apply within_ret]].
    unfold stage_job_writes. destruct (dedup_key (prepared_job p)) as [dk|]; cbn [fmap option_fmap option_map];
      unfold t_get; within; try apply Hi; try (apply within_put; eauto);
      intros t0 a' t1 ((ws & Hst & Hws) & _)%(stage_count_wait_within (λ x, ∃ k v, x = WPut k v)); eauto. }
  destruct (Hw _ _ _ E) as (ws & Hst & Hws). rewrite (stages_tview _ _ _ Hst). clear -Hws.
  generalize (tview t). induction Hws as [|x ws (k' & v & ->) _ IH]; intros m Hm; [done|].
  change (run (WPut k' v :: ws) m) with (run ws (<[k' := v]> m)). apply IH.
  destruct (decide (k' = k)) as [->|Hne]; [by rewrite lookup_insert_eq|by rewrite lookup_insert_ne].
Qed.

Lemma enqueues_new ps t rs t' i :
  stage_enqueues ps t = Ok (rs, t') → New i ∈ rs →
  is_Some (tview t' !! job_index_key i) ∧ job_index_key i ∈ ttracked t'.
Proof.
  revert t rs. induction ps as [|p ps IH]; cbn [stage_enqueues]; intros t rs.
  { intros [= <- <-]. by intros ?%not_elem_of_nil. }
  intros (r & t1 & E & H)%M_bind_Ok Hin. apply M_bind_Ok in H as (rs' & t2 & E2 & [= <- <-]).
  apply elem_of_cons in Hin as [Hr|Hin]; [|by eapply IH].
  destruct r as [?|i0]; [done|]. injection Hr as ->. rename i0 into i.
  assert (H : is_Some (tview t1 !! job_index_key i) ∧ job_index_key i ∈ ttracked t1).
  { unfold stage_job_writes in E. set (j := prepared_job p) in *.
    apply M_bind_Ok in E as (ex & ta & _ & E). destruct ex as [b|]; [by destruct (from_utf8 b)|].
    apply M_bind_Ok in E as (tk & tb & _ & E). destruct tk; [done|].
    apply M_bind_Ok in E as (u1 & tc & Ei & E). apply M_bind_Ok in E as (u2 & td & Ep & [= <- <-]).
    assert (Hi : ∃ j0 t0, id j0 = id j ∧ insert_job j0 t0 = Ok (u1, tc)).
    { destruct (count_wait j); [|by exists j, tb].
      apply M_bind_Ok in Ei as (j0 & t0 & Ew & Ei). exists j0, t0. split; [|done].
      by apply (stage_count_wait_within (λ _, True)) in Ew as (_ & ? & _). }
    destruct Hi as (j0 & t0 & <- & (key & _ & Hst & _)%insert_job_Ok). cbn [snd] in Hst.
    assert (Hd : ∃ ws, stages tc td ws ∧ ∀ x, x ∈ ws → write_key x ≠ job_index_key (id j0)).
    { destruct (dedup_key j); cbn in Ep.
      - apply t_put_Ok in Ep as (Hs & _). eexists. split; [exact Hs|]. by intros x ->%list_elem_of_singleton.
      - injection Ep as _ <-. exists []. split; [apply stages_refl|]. by intros x ?%not_elem_of_nil. }
    destruct Hd as (ws & Hs & Hws). split.
    - rewrite (stages_tview _ _ _ Hs), run_lookup_ne, (stages_tview _ _ _ Hst) by done.
      unfold put_writes. cbn. by rewrite lookup_insert_eq.
    - apply (stages_mono _ _ _ Hs), (stages_tracked _ _ _ Hst (WPut (job_index_key (id j0)) key)). unfold put_writes. set_solver. }
  destruct H as [H1 H2]. split; [by eapply enqueues_put|].
  destruct (framed_enqueues ps _ _ _ E2) as (ws & Hst & _). by apply (stages_mono _ _ _ Hst).
Qed.

Lemma effects_length reg p t rs t' : stage_effects reg p t = Ok (rs, t') → length rs = length (prepared_jobs p).
Proof.
  unfold stage_effects. intros H. do 2 (apply M_bind_Ok in H as (? & ? & _ & H)).
  apply M_bind_Ok in H as (u & t3 & _ & H). apply M_bind_Ok in H as (rs' & t4 & E4 & H).
  do 3 (apply M_bind_Ok in H as (? & ? & _ & H)). injection H as <- _. clear -E4. revert t3 rs' t4 E4. induction (prepared_jobs p) as [|p0 ps IH]; cbn [stage_enqueues]; intros t rs t'.
  - by intros [= <- _].
  - intros (r & t1 & _ & H)%M_bind_Ok. apply M_bind_Ok in H as (rs' & t2 & E & [= <- _]). cbn. by rewrite (IH _ _ _ E).
Qed.

Lemma effects_new reg p t rs t' i :
  stage_effects reg p t = Ok (rs, t') → New i ∈ rs →
  is_Some (tview t' !! job_index_key i) ∧ job_index_key i ∈ ttracked t'.
Proof.
  unfold stage_effects. intros H Hn. do 3 (apply M_bind_Ok in H as (? & ? & _ & H)).
  apply M_bind_Ok in H as (rs' & t4 & E4 & H).
  assert (Hw : within (λ x, write_key x ≠ job_index_key i ∧ rs' = rs) (
    for_each (λ '(k, v), t_put (user_scoped_key k) v) (map_to_list (prep_kv_writes p)) ≫= λ _,
    for_each (λ k, t_delete (user_scoped_key k)) (prep_kv_deletes p) ≫= λ _,
    for_each (λ '(index, at_ms), note_expiry_entry index at_ms) (prep_expiry_entries p) ≫= λ _, mret rs')).
  { assert (rs' = rs) as -> by (do 3 (apply M_bind_Ok in H as (? & ? & _ & H)); by injection H).
    unfold note_expiry_entry. within; by first [apply within_put|apply within_delete]. }
  assert (rs' = rs) as -> by (do 3 (apply M_bind_Ok in H as (? & ? & _ & H)); by injection H).
  apply Hw in H as (ws & Hst & Hws). destruct (enqueues_new _ _ _ _ _ E4 Hn) as [H1 H2]. split.
  - rewrite (stages_tview _ _ _ Hst), run_lookup_ne; [done|]. rewrite Forall_forall in Hws. intros y Hy. by apply Hws.
  - by apply (stages_mono _ _ _ Hst).
Qed.

(** What the commit of a settlement does to the claimed key, to the user key space and
    to the index of its new jobs. *)
Definition effects_applied (claim : Claim) (e : SettlementEffects) (rs : option (list EnqueueResult)) m m' : Prop :=
  is_Some (m !! claimed_key (queue (job claim)) (id (job claim))) ∧
  m' !! claimed_key (queue (job claim)) (id (job claim)) = None ∧
  match rs with
  | Some rs => kv_applied e m m' ∧ length rs = length (enqueues e) ∧ ∀ i, New i ∈ rs → is_Some (m' !! job_index_key i)
  | None => kv_kept m m'
  end.

Lemma settlement_applied claim e p ef w1 j' rs j now t t1 t2 t' m m' :
  prepared_of e p → Forall to_start (prepared_jobs p) → fresh_txn t →
  settlement_staged claim p ef w1 j' rs j now t t1 t2 t' → committed t' m m' →
  effects_applied claim e rs m m' ∧ bool_decide (is_Some rs) = is_terminal (ef j now) ∧
  job_at m (claimed_key (queue (job claim)) (id (job claim))) = Some j.
Proof.
  intros Hp Hts Hf (E1 & E2 & E3) Hc. set (ck := claimed_key (queue (job claim)) (id (job claim))).
  pose proof (framed_take_claim _ _ _ _ _ _ _ E1) as (ws1 & Hs1 & Hu1).
  pose proof (framed_claim_end _ _ _ _ _ _ E2) as (ws2 & Hs2 & Hu2).
  pose proof (stages_trans _ _ _ _ _ Hs1 Hs2) as Hs.
  assert (Hu : user_writes (ws1 ++ ws2) = []) by (unfold user_writes in *; by rewrite filter_app, Hu1, Hu2).
  pose proof (take_claim_Ok _ _ _ _ _ _ _ E1) as (_ & (b & Hb & Hd) & Hst1 & _). rewrite (fresh_view t Hf) in Hb.
  fold ck in Hb, Hd, Hst1. pose proof (stages_mono _ _ _ Hs2) as Hm2.
  assert (Hck : ck ∈ ttracked t2) by (apply Hm2, (stages_tracked _ _ _ Hst1 (WDelete ck)); by left).
  assert (Hv2 : tview t2 !! ck = None) by (by eapply claim_end_gone).
  assert (H : ck ∈ ttracked t' ∧ tview t' !! ck = None ∧ tbase t' = tbase t ∧
    bool_decide (is_Some rs) = is_terminal (ef j now) ∧
    match rs with
    | Some rs => kv_applied e m m' ∧ length rs = length (enqueues e) ∧ ∀ i, New i ∈ rs → is_Some (m' !! job_index_key i)
    | None => kv_kept m m' end).
  { pose proof (stages_tbase _ _ _ Hs) as Hb2. destruct (is_terminal (ef j now)).
    - destruct E3 as (reg & rs' & -> & E3). destruct (within_effects reg p Hts _ _ _ E3) as (us & Hus & HP).
      split; [by apply (stages_mono _ _ _ Hus)|]. split; [|split; [by rewrite (stages_tbase _ _ _ Hus)|split; [done|split; [|split]]]].
      + rewrite (stages_tview _ _ _ Hus), run_lookup_ne; [done|]. intros x Hx Ex.
        rewrite Forall_forall in HP. apply (HP x Hx). rewrite Ex. by left.
      + by apply (effects_committed reg e p t t2 (ws1 ++ ws2) rs' t').
      + by rewrite (effects_length _ _ _ _ _ E3), (prepared_all _ _ Hp).
      + intros i Hi. destruct (effects_new _ _ _ _ _ _ E3 Hi) as [? ?]. by rewrite (committed_after _ _ _ _ Hc).
    - destruct E3 as [-> ->]. split_and!; [done..|]. by apply (kept_committed t t2 (ws1 ++ ws2)). }
  destruct H as (Htr & Hv & Hb' & Hflag & Hkv).
  assert (Hm : m !! ck = Some b) by by rewrite (committed_before _ _ _ ck Hc), Hb'.
  split; [|split; [done|by apply job_at_Some; exists b]].
  unfold effects_applied. fold ck. split; [by exists b|]. split; [|done]. by rewrite (committed_after _ _ _ ck Hc).
Qed.

(** A settlement applies its effects when it ends the job, and none when the job is
    retried, in the change in which the claimed record leaves. *)
Lemma settle_claim_kv claim e ef w j' rs w' :
  settle_claim claim e ef w = (Ok (j', rs), w') →
  ∃ j now, bool_decide (is_Some rs) = is_terminal (ef j now) ∧ effect w w' (λ m m',
    job_at m (claimed_key (queue (job claim)) (id (job claim))) = Some j ∧ effects_applied claim e rs m m').
Proof.
  intros (p & w1 & j & now & t & t1 & t2 & t' & Hp & Hts & Hpa & Hf & _ & Hs & w3 & d' & Hp3 & Hc & Hp4)%settle_claim_staged.
  destruct (settlement_applied _ _ _ _ _ _ _ _ _ _ _ _ _ _ _ Hp Hts Hf Hs Hc) as (Ha & Hflag & Hj).
  exists j, now. split; [done|]. exists w3, d'. split; [by etrans|done].
Qed.

(** A settlement: at a moment at which the lease of its claim is current, and in one
    change after it, the claimed record is ended, and its effects are applied when that
    ends the job. *)
Lemma settle_claim_effect claim e ef w j' rs w' :
  world_ok w → settle_claim claim e ef w = (Ok (j', rs), w') →
  ∃ j now w1, passes w w1 ∧
    snd <$> lease_current (queue (job claim)) (id (job claim)) (lease_registry (core w1)) = Some (claim_id claim) ∧
    j' = claim_end_record (ef j now) now j ∧ bool_decide (is_Some rs) = is_terminal (ef j now) ∧
    effect w1 w' (λ m m', claim_ended claim (default [] rs) (ef j now) now j m m' ∧ effects_applied claim e rs m m').
Proof.
  intros Hw (p & w1 & j & now & t & t1 & t2 & t' & Hp & Hts & Hpa & Hf & Hok & Hs & w3 & d' & Hp3 & Hc & Hp4)%settle_claim_staged.
  specialize (Hok inv_core (λ _, I) Hw).
  destruct (settlement_applied _ _ _ _ _ _ _ _ _ _ _ _ _ _ _ Hp Hts Hf Hs Hc) as (Ha & Hflag & _).
  destruct Hs as (E1 & E2 & E3). exists j, now, w1. split; [done|].
  pose proof (take_claim_Ok _ _ _ _ _ _ _ E1) as ([le Hle] & _). split; [by rewrite Hle|].
  assert (Hst : sound (NI := no_ids) t2) by
    (apply (step_take_and_end (NI := no_ids) _ _ _ _ _ _ _ _ _ _ _ (fresh_sound t Hf Hok) E1 E2)).
  destruct (claim_end_staged _ _ _ _ _ _ _ _ _ Hf Hok E1 E2) as (-> & Hend & Htr & ws & Hws).
  split; [done|]. split; [done|]. exists w3, d'. split; [done|]. split; [split; [|done]|done].
  assert (H : (∀ k, k ∈ ttracked t2 → k ∈ ttracked t') ∧ tbase t' = tbase t2 ∧
    (∀ k, end_key claim (ef j now) now j k → tview t' !! k = tview t2 !! k) ∧
    (New (id j) ∉ default [] rs → tview t' !! job_index_key (id j) = tview t2 !! job_index_key (id j))).
  { destruct (is_terminal (ef j now)) eqn:Et; [|by destruct E3 as [_ ->]].
    destruct E3 as (reg & rs' & -> & E3).
    destruct (ended_then_effects _ _ _ _ _ _ _ _ _ _ _ Hok Hws Hst Hts Et Hend E3) as [Hk Hi].
    destruct (framed_effects _ _ _ _ _ E3) as (us & Hus & _).
    split; [apply (stages_mono _ _ _ Hus)|]. split; [apply (stages_tbase _ _ _ Hus)|done]. }
  destruct H as (Hmono & Hb & Hk & Hi). eapply claim_ended_ext; [exact Hend|..].
  - intros k Hek. rewrite <- (Hk k Hek). apply (committed_after _ _ _ _ Hc); [by apply Hmono, Htr; left|by eapply end_key_not_stats].
  - intros k Hek. rewrite (committed_before _ _ _ k Hc); [|by apply Hmono, Htr; left|by eapply end_key_not_stats].
    by rewrite Hb, (stages_tbase _ _ _ Hws).
  - intros Hn. rewrite <- (Hi Hn). apply (committed_after _ _ _ _ Hc); [by apply Hmono, Htr; right|done].
Qed.

(** The lease of a settled claim has ended when its settlement returns. *)
Lemma finish_claim_end_releases j e cid cl w r w' :
  finish_claim_end j e cid cl w = (r, w') →
  snd <$> lease_current (queue j) (id j) (lease_registry (core w')) ≠ Some cid.
Proof.
  unfold finish_claim_end, mbind at 1, IO_bind at 1.
  change (yield w) with (@Ok Error _ tt, (yield w).2). unfold mbind at 1, IO_bind at 1.
  set (w1 := (yield w).2). unfold upd_registry, upd, io_modify at 1. cbv iota beta.
  set (w2 := mkWorld _ (others w1)). match goal with |- ?m w2 = _ → _ => set (rest := m) end.
  assert (Hq : quiet rest).
  { subst rest. apply quiet_bind; [case_decide; [apply quiet_delete_for|apply quiet_ret]|]. intros _.
    apply quiet_bind; [apply quiet_get|]. intros waiting. destruct (_ || _); [apply quiet_ret|].
    apply quiet_bind; [|intros d; by apply quiet_upd].
    destruct (payload_ref j), cl; try apply quiet_ret.
    apply quiet_bind; [apply quiet_try, quiet_materialize|intros; apply quiet_ret]. }
  intros H. pose proof (quiet_at rest w2 Hq) as (_ & Hr & _). rewrite H in Hr. cbn [snd] in Hr. rewrite Hr.
  apply lease_removed.
Qed.

Lemma settle_claim_releases {CI : Invariant} claim e ef w v w' :
  (∀ z, usable CI z) → world_ok w → settle_claim claim e ef w = (Ok v, w') →
  snd <$> lease_current (queue (job claim)) (id (job claim)) (lease_registry (core w')) ≠ Some (claim_id claim).
Proof.
  intros HU Hw H. destruct v as [j' rs]. pose proof (settle_claim_staged _ _ _ _ _ _ _ H) as
    (p & w1 & j & now & t & t1 & t2 & t' & _ & _ & _ & Hf & Hok & (E1 & E2 & _) & _).
  apply stage_claim_end_Ok in E2 as [-> _].
  specialize (Hok _ HU Hw). apply take_claim_Ok in E1 as (_ & Hj & _). rewrite (fresh_view t Hf) in Hj.
  destruct (claimed_record _ _ _ j Hok (proj2 (job_at_Some _ _ _) Hj)) as (Eq & Ei & _).
  destruct (claim_end_record_fields (ef j now) now j) as (Fi & Fq & _).
  unfold settle_claim in H. apply IO_bind_Ok in H as (? & wa & _ & H). apply IO_bind_Ok in H as (st & wb & _ & H).
  apply IO_bind_Ok in H as (? & wc & _ & H). apply IO_bind_Ok in H as ([[j0 e0] ?] & wd & _ & H).
  apply IO_bind_Ok in H as (? & we & Hend & [= -> _ ->]).
  apply finish_claim_end_releases in Hend. by rewrite Fq, Fi, Eq, Ei in Hend.
Qed.

(** Effects committed on their own. *)
Lemma commit_effects_kv e w rs w' :
  commit_effects e w = (Ok rs, w') → effect w w' (kv_applied e).
Proof.
  unfold commit_effects. intros (p & w1 & Ep & H)%IO_bind_Ok.
  pose proof (prepare_effects_of _ _ _ _ Ep) as Hp.
  apply IO_bind_Ok in H as (r & w2 & Er & H). unfold io_try in Er.
  destruct (retry _ _ w1) as [r' w2'] eqn:E. injection Er as <- <-.
  apply IO_bind_Ok in H as (rs' & w3 & [_ Hp3]%finish_effects_Ok & H).
  apply IO_bind_Ok in H as (x & w4 & Ex & H). injection Ex as -> <-. injection H as _ <-.
  apply retry_effect in E as (t & wa & t' & wb & Hfr & _ & Hor).
  2: { intros t. apply steady_bind; [apply still_get|]. intros reg.
       apply steady_seq; [apply steady_staging, clean_effects|]. intros. apply steady_ret. }
  assert (Hp1 : passes w w1) by (eapply still_passes; [apply still_prepare_effects|done]).
  destruct Hor as [(E & _ & He)|(E & He)];
    apply IO_bind_Ok in E as (reg & w4 & _ & E);
    apply IO_bind_Ok in E as ([rs1 t1] & w5 & [E1 ->]%staging_Ok & E); [|discriminate E].
  injection E as _ <- _. eapply effect_around; [done|done|]. eapply effect_mono; [|exact He].
  intros m m' Hc. by eapply (effects_committed reg e p t t []); [..|apply stages_refl| | |].
Qed.

(** A cancel that removes the job does so in the change that applies its effects;
    another outcome leaves the user key space. *)
Lemma cancel_with_kv i e w o rs w' :
  world_ok w → cancel_with i e w = (Ok (o, rs), w') →
  match o with
  | CancelRemoved => ∃ k j, (status j = Pending ∨ status j = Scheduled) ∧
      effect w w' (λ m m', lookup_job m i = Some (k, j) ∧ kv_applied e m m')
  | CancelRequestedOutcome => effect w w' kv_kept ∨ passes w w'
  | CancelNotFound => passes w w'
  end.
Proof.
  intros Hw. unfold cancel_with.
  intros (p & w1 & Ep & H)%IO_bind_Ok. pose proof (prepare_effects_of _ _ _ _ Ep) as Hp.
  assert (Hp1 : passes w w1) by (eapply still_passes; [apply still_prepare_effects|done]).
  apply IO_bind_Ok in H as (r & w2 & Er & H). unfold io_try in Er.
  destruct (retry _ _ w1) as [r' w2'] eqn:E. injection Er as <- <-.
  apply IO_bind_Ok in H as (rs' & w3 & [-> Hp3]%finish_effects_Ok & H).
  apply IO_bind_Ok in H as ([s st] & w4 & Es & H). injection Es as -> <-.
  apply IO_bind_Ok in H as (rm & w5 & Ec & H). apply IO_bind_Ok in H as (u & w6 & Ed & H).
  injection H as <- _ <-.
  assert (Hp2 : passes w2' w6).
  { etrans; [exact Hp3|]. etrans; [eapply still_passes, Ec; apply finish_cancel_still|].
    eapply still_passes, Ed. destruct rm; [apply still_delete_for|apply still_ret]. }
  apply retry_effect in E as (t & wa & t' & wb & Hf & Hok & Hor).
  2: { intros t. apply steady_seq; [apply steady_staging, clean_stage_cancel|]. intros s0 t1.
       destruct s0; try apply steady_ret. apply steady_bind; [apply still_get|]. intros reg.
       apply steady_seq; [apply steady_staging, clean_effects|]. intros. apply steady_ret. }
  specialize (Hok (passes_ok _ _ Hp1 Hw)).
  destruct Hor as [(E & _ & He)|(E & w7 & Hp7 & Hm7 & Hp7')];
    apply IO_bind_Ok in E as ([s0 t1] & w8 & [E1 ->]%staging_Ok & E);
    pose proof (framed_stage_cancel _ _ _ _ E1) as (ws & Hws & Hu);
    apply (stage_cancel_inv _ _ _ _ Hf Hok) in E1; destruct s0 as [j|j|j|].
  - apply IO_bind_Ok in E as (reg & w9 & _ & E).
    apply IO_bind_Ok in E as ([rs2 t2] & w10 & [E2 ->]%staging_Ok & E). injection E as <- _ <- _.
    destruct E1 as (k & Hl & Hs & Hst). exists k, j. split; [done|].
    eapply effect_around; [exact Hp1|exact Hp2|]. eapply effect_mono; [|exact He]. intros m m' Hc.
    split; [|by eapply effects_committed]. pose proof (framed_effects _ _ _ _ _ E2) as (us & Hus & _).
    destruct (lookup_id _ _ _ _ Hok Hl) as (Hi & Hk & _).
    assert (Hat : ∀ x, x ∈ remove_writes k j → tag_of (write_key x) ≠ Some TStats →
      m !! write_key x = tbase t !! write_key x).
    { intros x Hx Hxs. rewrite (committed_before _ _ _ _ Hc); [|apply (stages_mono _ _ _ Hus), (stages_tracked _ _ _ Hst x Hx)|done].
      by rewrite (stages_tbase _ _ _ Hus), (stages_tbase _ _ _ Hst). }
    eapply lookup_ext; [exact Hl|..].
    + rewrite <- Hi. apply (Hat (WDelete (job_index_key (id j)))); [right; by left|done].
    + apply (Hat (WDelete k)); [by left|]. cbn. eapply record_not_stats, stored_key_record, Hk.
  - injection E as <- _ <- _. left. eapply effect_around; [exact Hp1|exact Hp2|].
    eapply effect_mono; [|exact He]. intros m m'. by eapply kept_committed.
  - discriminate E.
  - discriminate E.
  - apply IO_bind_Ok in E as (reg & w9 & _ & E). by apply IO_bind_Ok in E as ([rs2 t2] & w10 & _ & E).
  - discriminate E.
  - injection E as <- _ _ _. right. by rewrite Hp1, Hp7, Hp7'.
  - injection E as <- _ _ _. cbn [cancel_outcome]. by rewrite Hp1, Hp7, Hp7'.
Qed.

(** ** Enqueues *)

(** The claim of the fence of the effects, when they have one, is in [m]. *)
Definition fence_holds (e : SettlementEffects) m : Prop :=
  ∀ f, claim_fence e = Some f → is_Some (m !! claimed_key (fence_queue f) (fence_id f)).

(** The writes of a new job leave the claims. *)
Lemma job_writes_not_claimed j key i rest x :
  stored_key j = Ok key → status j ≠ Claimed →
  x ∈ put_writes key j ++ match dedup_key j with
    | Some dk => [WPut (dedup_index_key (queue j) dk) rest] | None => [] end →
  write_key x ≠ i ∨ tag_of i ≠ Some TClaimed.
Proof.
  intros Hk Hs Hx. destruct (decide (tag_of i = Some TClaimed)) as [Hi|]; [left|by right].
  intros <-. apply elem_of_app in Hx as [Hx|Hx].
  - unfold put_writes in Hx. apply elem_of_cons in Hx as [->|Hx].
    + cbn in Hi. apply tag_of_stored_key in Hk. rewrite Hi in Hk. destruct (status j); by inversion Hk.
    + apply list_elem_of_singleton in Hx as ->. done.
  - destruct (dedup_key j); [apply list_elem_of_singleton in Hx as ->; done|by apply not_elem_of_nil in Hx].
Qed.

(** The write of a new job with effects, in its transaction. *)
Lemma write_job_txn_kv p e pe w r w' :
  prepared_of e pe → count_wait (prepared_job p) = None → status (prepared_job p) ≠ Claimed →
  write_job_txn p pe w = (Ok r, w') →
  let j := prepared_job p in
  match r with
  | inl i => no_effect w w' (λ m, ∃ dk b, dedup_key j = Some dk ∧
      m !! dedup_index_key (queue j) dk = Some b ∧ from_utf8 b = Some i)
  | inr (i, rs) => i = id j ∧ effect w w' (λ m m',
      (∀ dk, dedup_key j = Some dk → m !! dedup_index_key (queue j) dk = None) ∧
      fence_holds e m ∧ kv_applied e m m')
  end.
Proof.
  intros Hp Hcw Hns H. apply retry_effect in H as (t & wa & t' & wb & Hf & _ & Hor).
  2: { intros t. apply steady_seq; [apply steady_staging, clean_job_writes|].
       intros [ex|i] t1; [apply steady_ret|]. apply steady_bind; [apply still_get|]. intros reg.
       apply steady_seq; [apply steady_staging, clean_effects|]. intros. apply steady_ret. }
  cbn zeta.
  destruct Hor as [(E & _ & He)|(E & w3 & Hp3 & Hm & Hp3')];
    apply IO_bind_Ok in E as ([wr t1] & w4 & [E1 ->]%staging_Ok & E);
    pose proof (framed_job_writes _ _ _ _ E1) as (vs & Hvs & Hu);
    apply (stage_job_writes_inv _ _ _ _ Hf) in E1; destruct wr as [ex|i].
  - discriminate E.
  - apply IO_bind_Ok in E as (reg & w5 & _ & E).
    apply IO_bind_Ok in E as ([rs2 t2] & w6 & [E2 ->]%staging_Ok & E). injection E as <- <- _.
    destruct E1 as (-> & Hdk & _ & Hst). destruct (Hst Hcw) as (key & Hk & Hst').
    split; [done|]. eapply effect_mono; [|exact He]. intros m m' Hc.
    pose proof (framed_effects _ _ _ _ _ E2) as (us & Hus & _).
    pose proof (stage_effects_guards _ _ _ _ _ E2) as [_ Hfence]. split_and!.
    + intros dk Hd. rewrite <- (Hdk dk Hd). rewrite (committed_before _ _ _ _ Hc); [| |done].
      * by rewrite (stages_tbase _ _ _ Hus), (stages_tbase _ _ _ Hst').
      * apply (stages_mono _ _ _ Hus).
        apply (stages_tracked _ _ _ Hst' (WPut (dedup_index_key (queue (prepared_job p)) dk) (as_bytes (id (prepared_job p))))).
        rewrite Hd. apply elem_of_app. right. by left.
    + intros f Ef. rewrite <- (prepared_fence _ _ Hp) in Ef. destruct (Hfence f Ef) as [Hs Ht].
      rewrite (guard_committed t t1 _ us t2 m m' _ Hf Hst' Hus Hc); [done| |done|done].
      intros x Hx. by destruct (job_writes_not_claimed _ key (claimed_key (fence_queue f) (fence_id f)) _ _ Hk Hns Hx).
    + by apply (effects_committed reg e pe t t1 vs rs2 t2).
  - injection E as <- _ _. destruct E1 as (_ & Hex). exists w3. split; [done|]. split; [by rewrite Hm|done].
  - apply IO_bind_Ok in E as (reg & w5 & _ & E). by apply IO_bind_Ok in E as ([rs2 t2] & w6 & _ & E).
Qed.

(** What a call of [write_job] returns and where it takes effect: in the transaction
    of its job. *)
Lemma write_job_inv p pe w r rs w' :
  write_job p pe w = (Ok (r, rs), w') → ∃ j w1 x w2,
    same_but_payload (prepared_job p) j ∧ passes w w1 ∧
    write_job_txn (mkPrepared j (id_override_used p)) pe w1 = (Ok x, w2) ∧ passes w2 w' ∧
    r = match x with inl i => AlreadyEnqueued i | inr (i, _) => New i end.
Proof.
  unfold write_job. intros (off & w3 & Eo & E)%IO_bind_Ok.
  unfold io_try in Eo. destruct (offload (prepared_job p) w) as [o w3'] eqn:Eo'. injection Eo as <- <-.
  assert (Hp2 : passes w w3') by (eapply still_passes; [apply still_offload|done]).
  destruct o as [j|e].
  2: { apply IO_bind_Ok in E as ([p' wr] & w4 & E1 & E). injection E1 as <- <- <-.
       apply IO_bind_Ok in E as (u & w5 & _ & E). apply IO_bind_Ok in E as (rs' & w6 & _ & E).
       by apply IO_bind_Ok in E as (x & w7 & Ex & E). }
  apply offload_Ok in Eo' as [Hj _].
  apply IO_bind_Ok in E as ([p' wr] & w4 & E1 & E). apply IO_bind_Ok in E1 as (r' & w5 & Er & E1).
  injection E1 as <- <- <-. unfold io_try in Er.
  destruct (write_job_txn _ pe w3') as [x w5'] eqn:Ew. injection Er as <- <-.
  exists j, w3'.
  assert (Hpost : ∀ (b : bool) st (o : Result EnqueueResult) pp,
    (finish_job_write pp b ≫= λ _, results ← finish_effects pe st;
     outcome ← io_result o; mret (outcome, default [] results)) w5' = (Ok (r, rs), w') →
    o = Ok r ∧ passes w5' w').
  { intros b st o pp H. apply IO_bind_Ok in H as (u & w6 & E1 & H).
    apply IO_bind_Ok in H as (rs' & w7 & [_ E2]%finish_effects_Ok & H).
    apply IO_bind_Ok in H as (y & w8 & E3 & H).
    injection E3 as -> <-. injection H as <- _ <-. split; [done|].
    etrans; [eapply still_passes, E1|exact E2].
    unfold finish_job_write. destruct b; [apply still_ret|apply still_delete_for]. }
  destruct x as [[ex|[i st]]|e]; apply Hpost in E as [E Hp3]; [| |done];
    injection E as <-; (eexists _, w5'; split_and!; [exact Hj|exact Hp2|exact Ew|exact Hp3|done]).
Qed.

(** An enqueue with effects: the job is new and its dedup key was free in the change
    that applies the effects, or a job holds its dedup key and nothing changes. *)
Lemma enqueue_with_effects_kv q pl opts e w r rs w' :
  enqueue_with_effects q pl opts e w = (Ok (r, rs), w') → opt_count_wait opts = None →
  ∃ qn, qn_str qn = q ∧ match r with
  | New i => (∀ i', opt_id_override opts = Some i' → i = i') ∧ effect w w' (λ m m',
      (∀ dk, opt_dedup_key opts = Some dk → m !! dedup_index_key qn dk = None) ∧
      fence_holds e m ∧ kv_applied e m m')
  | AlreadyEnqueued i => no_effect w w' (λ m, ∃ dk b, opt_dedup_key opts = Some dk ∧
      m !! dedup_index_key qn dk = Some b ∧ from_utf8 b = Some i)
  end.
Proof.
  intros H Hcw. unfold enqueue_with_effects in H. apply IO_bind_Ok in H as (p & w1 & Ep & H).
  apply IO_bind_Ok in H as (pe & w2 & Epe & H).
  assert (Hp1 : passes w w1) by (eapply still_passes; [apply still_prepare_job|done]).
  assert (Hp2 : passes w1 w2) by (eapply still_passes; [apply still_prepare_effects|done]).
  pose proof (prepare_count_wait _ _ _ _ _ _ Ep Hcw) as Hpc.
  pose proof (prepared_job_follows_its_options q pl opts w) as Hf. rewrite Ep in Hf. cbn [fst] in Hf.
  destruct Hf as ((Hq & _ & _ & _ & _ & _ & _ & Hdk & _) & _ & Hid & Hs).
  assert (Hns : status (prepared_job p) ≠ Claimed) by (destruct Hs as [[-> _]|[-> _]]; done).
  apply write_job_inv in H as (j & w3 & x & w4 & Hj & Hp3 & Ew & Hp4 & ->).
  destruct Hj as (Ei & _ & Ec & Eq & Ed & Es & _).
  apply (write_job_txn_kv _ e) in Ew; cbn [prepared_job] in *;
    [|by eapply prepare_effects_of|by rewrite Ec|by rewrite Es].
  exists (queue (prepared_job p)). split; [done|]. rewrite Ed, Eq, Hdk in Ew. destruct x as [i|[i st]].
  - eapply no_effect_around; [by do 2 (etrans; [done|])|done|done].
  - destruct Ew as [-> He]. split; [intros i' Hi'; rewrite Ei; by apply Hid|].
    eapply effect_around; [by do 2 (etrans; [done|])|done|done].
Qed.
End frame.
