(* ===== verification/Recovery.v ===== *)
(** * The recovery of an open

    What the open of a store does with the claims of the process before, which are
    lost with it: each of them ends as interrupted, and every other job stays as it
    was. The open runs before any other task of its process. *)
From S2P Require Import Prelude Bytes Error Monad Keys Job Store Stats LeaseRegistry.
From S2P Require Import TimeBound ClaimCursor Completion Txn Stage StoreInv Sound Core.
From S2P Require Import QueueCore Control Effects Claim Settle Enqueue.
From S2P Require Import Sweeps InboxEntry Inbox Queue CoreInv StagedOps View Session.
From S2P Require Import OpsOk Finishes Linear Outcomes.

Section recovery.
  Context {DB : SlateDb} {OS : ObjectStore} {SR : Serde JobRecord} {SA : Serde JobAttempt}.
  Context {SC : Serde CountRecord} {EN : Env} {SCu : Serde CursorState}.
  Context {DL : SlateDbLaws merge_batch}.
  #[local] Existing Instance no_ids.
  Implicit Types (t : Txn) (j : JobRecord) (m : gmap bytes bytes).

Abbreviation run := (apply_writes merge_batch merge_fallback).

#[local] Set Default Proof Using "Type DL SA SR EN".

(** ** The invariant after the commit of a sound transaction *)

Lemma commits_ok t w d' : sound t → core_ok (core w) → commits t w d' → core_ok (set_db d' (core w)).
Proof.
  intros [_ Ht] [Hs Hc Hr] [Hd Hb].
  assert (Hst : steps_ok (contents (db (core w))) (twrite t (contents (db (core w)))) ∅ (tstats t))
    by by apply Ht.
  constructor; cbn; [..|done]; rewrite Hd.
  - eapply store_ok_ext; [|apply Hst]. intros k Hk. apply run_stats_other.
    intros Hks. unfold foreign in Hk. by rewrite Hks in Hk.
  - by eapply counters_ok_commit.
Qed.

(** A retried transaction whose committing attempt is sound preserves the
    invariant: what is asked of the body may rely on what the store of its attempt
    holds. *)
Lemma linearizes_ok {T} (body : Txn → Q (Attempt T * Txn)) w v w' :
  world_ok w → body_steady body → linearizes body w v w' →
  (∀ w0 t w1 t' w2, passes w w0 → sound t → fresh_txn t → tbase t = contents (db (core w0)) →
     body t w1 = (Ok (CommitWith v, t'), w2) → sound t') →
  world_ok w'.
Proof.
  intros Hw Hb (w0 & t & w1 & att & t' & w2 & Hp0 & Eb & Hp1 & E & H) Hs.
  pose proof (passes_ok _ _ Hp0 Hw) as Hw0. pose proof (begin_fresh_txn _ _ _ Eb) as [Hf Ht].
  destruct (begin_ok _ _ _ Hw0 Eb) as [Hst _].
  assert (Hw2 : world_ok w2).
  { eapply passes_ok, passes_ok, Hw0; [|done]. eapply still_passes, E. apply Hb. }
  destruct H as [[_ ->]|[-> (w3 & d' & Hp3 & Hc & ->)]]; [done|].
  pose proof (passes_ok _ _ Hp3 Hw2) as [Hc3 Ho3].
  apply (upd_frame _ (apply_notes_frame (notes t'))), yield_ok. split; [|done].
  cbn. eapply commits_ok; [by eapply (Hs w0 t w1)|by apply (inv_ok (Invariant := inv_core))|done].
Qed.

(** ** The cursor records *)

Definition cursor_write (x : write) : Prop := tag_of (write_key x) = Some TCursor.

Lemma run_cursor_writes ws m k :
  Forall cursor_write ws → tag_of k ≠ Some TCursor → run ws m !! k = m !! k.
Proof.
  intros Hw Hk. apply run_lookup_ne. intros x Hx. rewrite Forall_forall in Hw.
  intros <-. by apply Hk, Hw.
Qed.

Lemma restore_records_Ok records t w t' w' :
  restore_records records t w = (Ok t', w') → sound t → tstats t = ∅ →
  Forall (λ r, tag_of r.1 = Some TCursor) records →
  sound t' ∧ tstats t' = ∅ ∧ same_store w w' ∧ ∃ ws, stages t t' ws ∧ Forall cursor_write ws.
Proof.
  revert t w. induction records as [|[key record] records IH]; intros t w H Ht Hd Hr; cbn [restore_records] in H.
  - injection H as <- <-. split_and!; [done|done|done|]. exists []. split; [apply stages_refl|done].
  - apply Forall_cons in Hr as [Hk Hr]. cbn in Hk.
    apply IO_bind_Ok in H as (u & w1 & E1 & H).
    assert (Hs1 : same_store w w1).
    { destruct record as [[q st]|]; injection E1 as _ <-; [|done]. by split. }
    apply IO_bind_Ok in H as ([[] t1] & w2 & [E2 ->]%staging_Ok & H).
    pose proof (sound_delete_other t key (tt, t1)) as Ht1. cbn in Ht1.
    apply IH in H as (Ht' & Hd' & Hs2 & ws & Hst & Hws); [..|done].
    + split; [done|]. split; [done|]. split; [by etrans|].
      exists (WDelete key :: ws). apply t_delete_Ok in E2 as (Hst1 & _).
      split; [by apply (stages_trans _ _ _ [_] ws Hst1)|]. by constructor.
    + apply Ht1; [|done|done]. unfold is_other, foreign. by rewrite Hk.
    + apply t_delete_Ok in E2 as (_ & _ & E & _). cbn in E. congruence.
Qed.

Lemma raw_commit_Ok t w u w' :
  raw_commit (txn t) w = (Ok u, w') → others w = [] → tstats t = ∅ →
  commits t w (db (core w')) ∧ others w' = [] ∧ core w' = set_db (db (core w')) (core w).
Proof.
  unfold raw_commit. intros H Ho Hd. apply IO_bind_Ok in H as ([] & w1 & E1 & H).
  assert (w1 = w) as ->.
  { unfold yield, io_modify in E1. rewrite Ho in E1. by injection E1 as <-. }
  apply IO_bind_Ok in H as (d & w1 & E2 & H). injection E2 as <- <-.
  apply IO_bind_Ok in H as (d' & w1 & E3 & H). injection E3 as E3%lift_Ok <-.
  injection H as _ <-. apply commit_law in E3 as [Hc Ht]. split; [|done]. split; cbn.
  - rewrite Hd, Hc. unfold stats_merges. by rewrite map_to_list_empty.
  - intros k Hk _. by apply Ht.
Qed.

(** The restore of the cursor takes the cursor records out of the store and leaves
    the rest of it. *)
Lemma restore_cursor_state_Ok w u w' :
  world_ok w → others w = [] → restore_cursor_state w = (Ok u, w') →
  world_ok w' ∧ others w' = [] ∧
  ∀ k, tag_of k ≠ Some TCursor → contents (db (core w')) !! k = contents (db (core w)) !! k.
Proof.
  intros Hw Ho. unfold restore_cursor_state. intros (t & w0 & Eb & H)%IO_bind_Ok.
  pose proof (begin_fresh_txn _ _ _ Eb) as [Hf Hbase]. destruct (begin_ok _ _ _ Hw Eb) as [Ht ->].
  apply IO_bind_Ok in H as (l & w1 & E & H). injection E as E%lift_Ok%scan_law <-.
  assert (Hl : Forall (λ r, tag_of r.1 = Some TCursor) (map cursor_record l)).
  { apply Forall_forall. intros [key r] ([k v] & [= -> ->] & Hin)%list_elem_of_fmap.
    apply (proj2 E) in Hin as (_ & s & -> & _). done. }
  destruct (map cursor_record l) as [|r records]; [by injection H as _ <-|].
  apply IO_bind_Ok in H as (t' & w1 & Er & H). destruct Hf as (Hwr & Htr & Hst).
  apply restore_records_Ok in Er as (Ht' & Hd' & (Ed & Eo & Er) & ws & Hsg & Hws); [|done..].
  rewrite Ho in Eo. apply raw_commit_Ok in H as (Hc & Ho' & Ew); [|done..].
  destruct Hw as [Hc0 _]. assert (Hc1 : core_ok (core w1)).
  { destruct Hc0, Er as [Er _]. constructor; rewrite ?Ed; auto. }
  split; [|split; [done|]].
  - split; [|by rewrite Ho']. rewrite Ew. by apply (commits_ok t').
  - intros k Hk. rewrite (commits_contents _ _ _ Hc), Hd'. unfold stats_merges.
    rewrite map_to_list_empty. cbn. rewrite (stages_twrite _ _ _ _ Hsg), run_cursor_writes by done.
    unfold twrite. by rewrite Hwr, Ed.
Qed.

(** ** An interrupted claim *)

(** How the open ends the claim of the process before. *)
Definition interrupted_end j : ClaimEnd :=
  unsettled_claim_end j OInterrupted "claim interrupted by process exit".

Lemma interrupted_not_removed j : interrupted_end j ≠ EndDone false.
Proof. unfold interrupted_end, unsettled_claim_end. by destruct (is_last_attempt j). Qed.

(** The contents [m] with the claimed record [j] moved to the key [key] of what its
    interruption leaves, and with the attempt in its history. *)
Definition interrupt (now : Z) j (key : bytes) m : gmap bytes bytes :=
  move_map (claimed_key (queue j) (id j)) key (claim_end_record (interrupted_end j) now j)
    (<[attempt_history_key (id j) := default [] (m !! attempt_history_key (id j)) ++
         encode (claim_end_attempt (interrupted_end j) now j)]> m).

Lemma requeue_steady j : body_steady (λ t,
  now ← now_ms;
  '(_, t) ← staging (stage_claim_end j (interrupted_end j) now) t;
  mret (CommitWith tt, t) : Q (Attempt () * Txn)).
Proof.
  intros t. apply steady_bind; [apply still_now_ms|]. intros now.
  apply steady_seq; [apply steady_staging, clean_claim_end|]. intros. apply steady_ret.
Qed.

(** What its transaction staged. *)
Lemma requeue_staged j t w a t' w' :
  (now ← now_ms;
   '(_, t) ← staging (stage_claim_end j (interrupted_end j) now) t;
   mret (CommitWith tt, t) : Q (Attempt () * Txn)) w = (Ok (a, t'), w') →
  ∃ now j', stage_claim_end j (interrupted_end j) now t = Ok (j', t').
Proof.
  intros (now & w1 & _ & H)%IO_bind_Ok.
  apply IO_bind_Ok in H as ([j' t1] & w2 & [E ->]%staging_Ok & H). injection H as _ <- _. by exists now, j'.
Qed.

Lemma run_interrupt now j key m :
  run (WMerge (attempt_history_key (id j)) (encode (claim_end_attempt (interrupted_end j) now j))
    :: WDelete (claimed_key (queue j) (id j))
    :: put_writes key (claim_end_record (interrupted_end j) now j)) m = interrupt now j key m.
Proof.
  unfold interrupt, apply_writes, put_writes. cbn [foldl apply_write].
  rewrite merge_batch_history. unfold merge_append. cbn. by rewrite app_nil_r.
Qed.

(** The requeue of one claimed record in a process that runs no other task. *)
Lemma requeue_one j w u w' :
  world_ok w → others w = [] →
  job_at (contents (db (core w))) (claimed_key (queue j) (id j)) = Some j →
  requeue_interrupted j w = (Ok u, w') →
  world_ok w' ∧ others w' = [] ∧ ∃ now key,
    stored_key (claim_end_record (interrupted_end j) now j) = Ok key ∧
    same_jobs (interrupt now j key (contents (db (core w)))) (contents (db (core w'))).
Proof.
  intros Hw Ho Hj H. unfold requeue_interrupted in H. fold (interrupted_end j) in H. split.
  { eapply linearizes_ok; [exact Hw|apply requeue_steady|by eapply retry_linearizes, H; apply requeue_steady|].
    intros w0 t w1 t' w2 Hp Ht Hf Hb (now & j' & Es)%requeue_staged.
    destruct (passes_alone _ _ Hp Ho) as [Ed _].
    eapply (sound_claim_end t t t' j _ now j' []); [done|apply stages_refl|by left|done| |done].
    by rewrite (fresh_view _ Hf), Hb, Ed. }
  destruct u. apply retry_effect_from in H as (t & w1 & t' & w2 & Hf & _ & Hor); [|apply requeue_steady].
  destruct Hor as [((now & j' & Es)%requeue_staged & _ & He)|[E _]].
  2: { apply IO_bind_Ok in E as (now & w3 & _ & E). by apply IO_bind_Ok in E as ([j' t1] & w4 & _ & E). }
  apply effect_from_alone in He as [[_ [Hm _]] Ho']; [|done]. split; [done|].
  apply stage_claim_end_Ok in Es as [-> Es]. rewrite decide_False in Es by apply interrupted_not_removed.
  destruct Es as (key & Hk & _ & Hst & _). exists now, key. split; [done|].
  intros k Hk'. rewrite Hm, run_stats_other; [|intros E; unfold foreign in Hk'; by rewrite E in Hk'].
  rewrite (stages_twrite _ _ _ _ Hst), run_interrupt. unfold twrite. by destruct Hf as [-> _].
Qed.

(** What the store holds of the jobs after one claim was interrupted. *)
Lemma interrupt_lookup now j key m m' :
  store_ok m → job_at m (claimed_key (queue j) (id j)) = Some j →
  stored_key (claim_end_record (interrupted_end j) now j) = Ok key →
  same_jobs (interrupt now j key m) m' →
  lookup_job m' (id j) = Some (key, stored_clone (claim_end_record (interrupted_end j) now j)) ∧
  m' !! attempt_history_key (id j) = Some (default [] (m !! attempt_history_key (id j)) ++
    encode (claim_end_attempt (interrupted_end j) now j)) ∧
  ∀ i, i ≠ id j → lookup_job m' i = lookup_job m i ∧
    m' !! attempt_history_key i = m !! attempt_history_key i.
Proof.
  intros Hm Hj Hk Hs. set (j' := claim_end_record _ _ _) in *.
  set (h := attempt_history_key (id j)). set (from := claimed_key (queue j) (id j)) in *.
  set (b := _ ++ encode _). set (m1 := <[h := b]> m).
  destruct (claim_end_record_fields (interrupted_end j) now j) as (Fi & _).
  destruct (store_ok_job _ _ _ Hm Hj) as (_ & _ & Hix & _).
  assert (Hm1 : store_ok m1) by (apply store_ok_history; [by eexists|done]).
  assert (Hj1 : job_at m1 from = Some j) by by (unfold m1, h; rewrite job_at_history).
  change (interrupt now j key m) with (release_map (queue j) None (move_map from key j' m1)) in Hs.
  pose proof (move_index m1 from key j j' None Hm1 Hj1 Fi Hk) as Hmi.
  assert (Hh : ∀ i, m' !! attempt_history_key i = m1 !! attempt_history_key i).
  { intros i. rewrite Hs by done. cbn [release_map]. unfold move_map.
    pose proof (stored_key_record _ _ Hk) as Hrk. rewrite put_map_ne; [|by intros <-; destruct Hrk|key_ne].
    rewrite lookup_delete_ne by key_ne. done. }
  split_and!.
  - rewrite (same_jobs_lookup _ _ _ Hs). apply lookup_job_Some.
    rewrite Hmi, decide_True by done. split; [done|]. rewrite (move_job_at m1 from key j j' None Hk).
    by rewrite decide_True.
  - unfold h at 1. rewrite Hh. apply lookup_insert_eq.
  - intros i Hi. split.
    2: { rewrite Hh. unfold m1, h. apply lookup_insert_ne. intros E%(inj attempt_history_key). congruence. }
    rewrite (same_jobs_lookup _ _ _ Hs). unfold lookup_job. rewrite Hmi, decide_False by done.
    assert (m1 !! job_index_key i = m !! job_index_key i) as -> by (unfold m1; by rewrite lookup_insert_ne).
    destruct (m !! job_index_key i) as [k|] eqn:Ei; [|done]. cbn [mbind option_bind].
    destruct (ok_index _ Hm _ _ Ei) as (j1 & Hj2 & Hi1). rewrite Hj2.
    rewrite (move_job_at_other m1 from key j j' None Hm1 Hj1 Fi Hk k j1); [done| |congruence].
    unfold m1, h. by rewrite job_at_history.
Qed.

(** ** The requeue of every claim *)

(** The job [j] of contents [m0], in contents [m], with its claim interrupted. *)
Definition interrupted m0 j m : Prop := ∃ now key,
  let j' := claim_end_record (interrupted_end j) now j in
  stored_key j' = Ok key ∧ lookup_job m (id j) = Some (key, stored_clone j') ∧
  m !! attempt_history_key (id j) = Some (default [] (m0 !! attempt_history_key (id j)) ++
    encode (claim_end_attempt (interrupted_end j) now j)).

(** The contents [m], from the contents [m0], when the claims of [l] are left. *)
Definition recovering m0 (l : list JobRecord) m : Prop := ∀ i,
  match lookup_job m0 i with
  | Some (k, j) =>
      (status j = Claimed → j ∉ l → interrupted m0 j m) ∧
      (status j ≠ Claimed ∨ j ∈ l →
         lookup_job m i = Some (k, j) ∧ m !! attempt_history_key i = m0 !! attempt_history_key i)
  | None => lookup_job m i = None
  end.

(** The claims that are left are claims of [m0]. *)
Definition claims_of m0 (l : list JobRecord) : Prop :=
  ∀ j, j ∈ l → status j = Claimed ∧ lookup_job m0 (id j) = Some (claimed_key (queue j) (id j), j).

Lemma recovering_left m0 l m j :
  claims_of m0 l → recovering m0 l m → j ∈ l →
  job_at m (claimed_key (queue j) (id j)) = Some j ∧
  m !! attempt_history_key (id j) = m0 !! attempt_history_key (id j).
Proof.
  intros Hl Hm Hj. destruct (Hl j Hj) as [_ E]. specialize (Hm (id j)). rewrite E in Hm.
  destruct Hm as [_ Hm]. destruct Hm as [[_ ?]%lookup_job_Some ?]; [by right|]. done.
Qed.

(** One step of the loop. *)
Lemma requeue_step m0 j l w u w' :
  world_ok w → others w = [] → store_ok m0 → claims_of m0 (j :: l) → j ∉ l →
  recovering m0 (j :: l) (contents (db (core w))) → requeue_interrupted j w = (Ok u, w') →
  world_ok w' ∧ others w' = [] ∧ recovering m0 l (contents (db (core w'))).
Proof.
  intros Hw Ho H0 Hl Hjl Hm E. destruct (Hl j) as [Hcl Hj0]; [by left|].
  destruct (recovering_left _ _ _ j Hl Hm) as [Hj Hh]; [by left|].
  apply requeue_one in E as (Hw1 & Ho1 & now & key & Hk & Hs); [|done..].
  split; [done|]. split; [done|].
  assert (Hok : store_ok (contents (db (core w)))) by apply Hw.
  destruct (interrupt_lookup now j key _ _ Hok Hj Hk Hs) as (L1 & L2 & L3).
  intros i. specialize (Hm i). destruct (decide (i = id j)) as [->|Hne].
  - rewrite Hj0. split; [|by intros [?|?]]. intros _ _. exists now, key. split; [done|].
    split; [done|]. by rewrite L2, Hh.
  - destruct (L3 i Hne) as [E1 E2]. destruct (lookup_job m0 i) as [[k j1]|] eqn:E0; [|by rewrite E1].
    destruct (lookup_id _ _ _ _ H0 E0) as (Hi1 & _). destruct Hm as [Hm1 Hm2]. rewrite E1, E2. split.
    + intros Hs1 Hn. destruct Hm1 as (n1 & k1 & ?); [done| |].
      { apply not_elem_of_cons. split; [|done]. intros ->. done. }
      exists n1, k1. rewrite Hi1, E1, E2 in *. done.
    + intros Hor. apply Hm2. destruct Hor; [by left|]. right. by right.
Qed.

Lemma claims_of_tail m0 j l : claims_of m0 (j :: l) → claims_of m0 l.
Proof. intros Hl j1 ?. apply Hl. by right. Qed.

Lemma requeue_all m0 l w u w' :
  world_ok w → others w = [] → store_ok m0 → claims_of m0 l → NoDup l →
  recovering m0 l (contents (db (core w))) → io_for_each requeue_interrupted l w = (Ok u, w') →
  world_ok w' ∧ others w' = [] ∧ recovering m0 [] (contents (db (core w'))).
Proof.
  intros Hw Ho H0. revert w Hw Ho. induction l as [|j l IH]; intros w Hw Ho Hl Hnd Hm H.
  { injection H as _ <-. done. }
  cbn [io_for_each] in H. apply IO_bind_Ok in H as (u1 & w1 & E & H).
  apply NoDup_cons in Hnd as [Hjl Hnd].
  apply (requeue_step m0 j l) in E as (Hw1 & Ho1 & Hm1); [|done..].
  by apply (IH w1 Hw1 Ho1 (claims_of_tail _ _ _ Hl)).
Qed.

(** The claimed records that a scan finds are all of them, each once. *)
Lemma interrupted_jobs_found m l :
  store_ok m → is_scan m (tag_prefix TClaimed) Unbounded l →
  NoDup (interrupted_jobs l) ∧ ∀ j, j ∈ interrupted_jobs l ↔
    status j = Claimed ∧ lookup_job m (id j) = Some (claimed_key (queue j) (id j), j).
Proof.
  intros Hm [Hs Hl].
  assert (Hat : ∀ k v j, (k, v) ∈ l → decode_job k v = Ok j →
    job_at m k = Some j ∧ status j = Claimed ∧ k = claimed_key (queue j) (id j)).
  { intros k v j (Hv & x & -> & _)%Hl Hj.
    assert (Hj' : job_at m (tag_prefix TClaimed ++ x) = Some j) by (apply job_at_Some; by exists v).
    split; [done|]. apply decode_job_status in Hj. injection Hj as Hj. split; [done|].
    destruct (store_ok_job _ _ _ Hm Hj') as (Hk & _). unfold stored_key in Hk. rewrite <- Hj in Hk.
    by apply Ok_inj in Hk. }
  split.
  - apply key_lt_NoDup in Hs. clear Hl. induction l as [|[k v] l IH]; [constructor|]. cbn in Hs |- *.
    apply NoDup_cons in Hs as [Hk Hs]. unfold interrupted_jobs in *. cbn [omap list_omap] in *.
    assert (IH' : NoDup (omap (λ '(k, v), ok (decode_job k v)) l)).
    { apply IH; [done|]. intros k1 v1 j Hin. apply (Hat k1 v1 j). by right. }
    destruct (decode_job k v) as [j|] eqn:E; [|exact IH']. apply NoDup_cons. split; [|done].
    intros ([k1 v1] & Hin & E1)%list_elem_of_omap. destruct (decode_job k1 v1) as [j1|] eqn:E2; [|done].
    injection E1 as ->. destruct (Hat k v j) as (_ & _ & ->); [by left|done|].
    destruct (Hat k1 v1 j) as (_ & _ & ->); [by right|done|].
    apply Hk, list_elem_of_fmap. by eexists (_, v1).
  - intros j. unfold interrupted_jobs. rewrite list_elem_of_omap. split.
    + intros ([k v] & Hin & E). destruct (decode_job k v) as [j'|] eqn:Ej; [|done]. injection E as ->.
      destruct (Hat k v j Hin Ej) as (Hj & Hc & ->). split; [done|].
      apply lookup_job_Some. split; [|done]. by destruct (store_ok_job _ _ _ Hm Hj) as (_ & _ & ? & _).
    + intros (_ & [_ (b & Hb & Hd)%job_at_Some]%lookup_job_Some).
      exists (claimed_key (queue j) (id j), b). split; [|by rewrite Hd]. apply Hl. split; [done|].
      eexists. split; [reflexivity|done].
Qed.

(** The scan of an open and its loop. *)
Lemma recovering_scanned m0 m l :
  store_ok m0 → store_ok m → same_jobs m0 m → is_scan m (tag_prefix TClaimed) Unbounded l →
  NoDup (interrupted_jobs l) ∧ claims_of m0 (interrupted_jobs l) ∧ recovering m0 (interrupted_jobs l) m.
Proof.
  intros H0 Hm Hs E. destruct (interrupted_jobs_found _ _ Hm E) as [Hnd Hj]. split; [done|]. split.
  - intros j. rewrite <- (same_jobs_lookup _ _ _ Hs). apply Hj.
  - intros i. rewrite <- (same_jobs_lookup _ _ i Hs).
    destruct (lookup_job m i) as [[k j]|] eqn:Ei; [|done].
    destruct (lookup_id _ _ _ _ Hm Ei) as (Hi & Hk' & _). split.
    + intros Hc Hn. exfalso. apply Hn, Hj. split; [done|]. rewrite Hi, Ei.
      unfold stored_key in Hk'. rewrite Hc in Hk'. injection Hk' as <-. by rewrite Hi.
    + intros _. split; [done|]. by apply Hs.
Qed.

Lemma restored_same m m' : (∀ k, tag_of k ≠ Some TCursor → m' !! k = m !! k) → same_jobs m m'.
Proof. intros H k Hf. apply H. intros Ht. unfold foreign in Hf. by rewrite Ht in Hf. Qed.

(** The recovery of an open: the invariant holds, no claim is left, each claim of
    the process before ended as interrupted, and no other job changed. *)
Lemma recover_Ok w u w' :
  world_ok w → others w = [] → recover w = (Ok u, w') →
  world_ok w' ∧ others w' = [] ∧
  recovering (contents (db (core w))) [] (contents (db (core w'))).
Proof.
  intros Hw Ho (u0 & w1 & E & H)%IO_bind_Ok.
  apply restore_cursor_state_Ok in E as (Hw1 & Ho1 & Hs%restored_same); [|done..].
  assert (H0 : store_ok (contents (db (core w)))) by apply Hw.
  assert (Hm : store_ok (contents (db (core w1)))) by apply Hw1.
  apply IO_bind_Ok in H as (l & w2 & E & H). apply IO_bind_Ok in E as (d & w3 & E0 & E).
  injection E0 as <- <-. injection E as E%lift_Ok%db_scan_law <-.
  destruct (recovering_scanned _ _ _ H0 Hm Hs E) as (Hnd & Hl & Hr).
  by apply (requeue_all (contents (db (core w)))) in H.
Qed.

(** No record is claimed after it. *)
Lemma recovering_unclaimed m0 m i k j :
  store_ok m0 → recovering m0 [] m → lookup_job m i = Some (k, j) → status j ≠ Claimed.
Proof.
  intros H0 Hm Hj. specialize (Hm i). destruct (lookup_job m0 i) as [[k0 j0]|] eqn:E; [|congruence].
  destruct Hm as [Hc Hn]. destruct (decide (status j0 = Claimed)) as [Hs|Hs].
  - destruct Hc as (now & key & Hk & Hl & _); [done|by apply not_elem_of_nil|].
    destruct (lookup_id _ _ _ _ H0 E) as (Hi & _). rewrite Hi, Hj in Hl. injection Hl as -> ->.
    cbn. apply claim_end_record_fields.
  - destruct Hn as [Hl _]; [by left|]. congruence.
Qed.

(** It takes no id into use, and draws none. *)
Lemma recovering_in_use m0 m i :
  store_ok m → recovering m0 [] m →
  is_Some (m !! job_index_key i) → is_Some (m0 !! job_index_key i).
Proof.
  intros Hm Hr [k Hk]. destruct (ok_index _ Hm _ _ Hk) as (j & Hj & _).
  assert (El : lookup_job m i = Some (k, j)) by by apply lookup_job_Some.
  specialize (Hr i). destruct (lookup_job m0 i) as [[k0 j0]|] eqn:E; [|congruence].
  apply lookup_job_Some in E as [? _]. by eexists.
Qed.

Definition drawn (n : nat) (w : World) : Prop := others w = [] ∧ n ≤ job_ids (core w).

Lemma drawn_yield n : preserves (drawn n) yield.
Proof. intros w [Ho Hn]. unfold yield, io_modify. cbn. by rewrite Ho. Qed.
Lemma drawn_upd n f : (∀ c, job_ids (f c) = job_ids c) → preserves (drawn n) (upd f).
Proof. intros Hf. apply preserves_modify. intros w [Ho Hn]. split; [done|]. cbn. by rewrite Hf. Qed.
Lemma drawn_begin n : preserves (drawn n) begin.
Proof. intros w Hw. by rewrite begin_err. Qed.

Lemma drawn_commit_txn n (t : DbTransaction) d : preserves (drawn n) (commit_txn t d).
Proof.
  apply preserves_bind; [apply preserves_gets|]. intros db'. destruct (txn_commit db' t) as [d'|e].
  - apply preserves_bind; [by apply drawn_upd|]. intros _. destruct d; [|apply preserves_ret].
    apply preserves_bind; [apply preserves_result|intros; apply preserves_ret].
  - case_decide; [apply preserves_ret|apply preserves_err].
Qed.

Lemma drawn_commit n t d : preserves (drawn n) (commit t d).
Proof.
  apply preserves_bind; [apply preserves_result|]. intros t'.
  apply preserves_bind; [apply drawn_commit_txn|]. intros []; [|apply preserves_ret].
  apply preserves_bind; [apply drawn_yield|]. intros _.
  apply preserves_bind; [apply drawn_upd; intros; apply apply_notes_frame|]. intros _. apply preserves_ret.
Qed.

Lemma drawn_retry {T} n d (body : Txn → Q (Attempt T * Txn)) :
  (∀ t, preserves (drawn n) (body t)) → preserves (drawn n) (retry d body).
Proof.
  intros Hb w. unfold retry. generalize (S (length (others w))) as fuel. intros fuel. revert w.
  induction fuel as [|fuel IH]; [apply preserves_err|]. cbn [retry_loop].
  apply preserves_bind; [apply drawn_begin|]. intros t.
  apply preserves_bind; [apply drawn_yield|]. intros _.
  apply preserves_bind; [apply Hb|]. intros [[v|v] t']; [|apply preserves_ret].
  apply preserves_bind; [apply drawn_yield|]. intros _.
  apply preserves_bind; [apply drawn_commit|]. intros []; [apply preserves_ret|exact IH].
Qed.

Lemma drawn_restore n : preserves (drawn n) restore_cursor_state.
Proof.
  assert (Hr : ∀ records t, preserves (drawn n) (restore_records records t)).
  { induction records as [|[key record] records IH]; intros t; [apply preserves_ret|].
    cbn [restore_records]. apply preserves_bind.
    { destruct record as [[q st]|]; [by apply drawn_upd|apply preserves_ret]. }
    intros _. apply preserves_bind; [apply preserves_result|]. intros [_ t']. apply IH. }
  apply preserves_bind; [apply drawn_begin|]. intros t.
  apply preserves_bind; [apply preserves_result|]. intros l.
  destruct (map cursor_record l); [apply preserves_ret|].
  apply preserves_bind; [apply Hr|]. intros t'.
  apply preserves_bind; [apply drawn_yield|]. intros _. apply preserves_bind; [apply preserves_gets|].
  intros d. apply preserves_bind; [apply preserves_result|]. intros d'. by apply drawn_upd.
Qed.

Lemma recover_drawn c r w : recover (mkWorld c []) = (r, w) → job_ids c ≤ job_ids (core w).
Proof.
  assert (H : preserves (drawn (job_ids c)) recover).
  { apply preserves_bind; [apply drawn_restore|]. intros _.
    apply preserves_bind.
    { apply preserves_bind; [apply preserves_gets|]. intros d. apply preserves_result. }
    intros l. apply preserves_for_each. intros j. apply drawn_retry. intros t. cbv zeta.
    apply preserves_bind.
    { apply preserves_bind; [apply preserves_gets|]. intros k.
      apply preserves_bind; [by apply drawn_upd|intros; apply preserves_ret]. }
    intros now. apply preserves_bind; [apply preserves_result|]. intros [_ t']. apply preserves_ret. }
  intros E. specialize (H (mkWorld c []) (conj eq_refl (le_n _))). rewrite E in H. apply H.
Qed.

End recovery.

(** ** The claim cursor across a close and an open

    A clean close persists the claim state of the queues, and the next open restores
    it and deletes the records. *)

Section persist.
  Context {DB : SlateDb} {OS : ObjectStore} {SR : Serde JobRecord} {SA : Serde JobAttempt}.
  Context {SC : Serde CountRecord} {EN : Env} {SCu : Serde CursorState}.
  Context {DL : SlateDbLaws merge_batch}.
  Implicit Types (t : Txn) (m : gmap bytes bytes) (l : list (QueueName * CursorState)).

Abbreviation run := (apply_writes merge_batch merge_fallback).

#[local] Set Default Proof Using "Type DL SR SA EN".

(** ** The records of a close *)

Lemma NoDup_export (c : ClaimCursor) : NoDup (export c).*1.
Proof.
  unfold export. pose proof (NoDup_fst_map_to_list c) as Hn. revert Hn.
  generalize (map_to_list c). intros l. induction l as [|[q s] l IH]; intros Hn; [constructor|].
  cbn in Hn |- *. apply NoDup_cons in Hn as [Hq Hn].
  assert (IH' := IH Hn). destruct (export_state s) as [st|]; [|exact IH']. cbn. apply NoDup_cons.
  split; [|exact IH']. intros ([q' st'] & E & Hin)%list_elem_of_fmap. cbn in E. subst q'.
  apply list_elem_of_omap in Hin as ([q1 s1] & Hin & E). cbn in E.
  destruct (export_state s1); [|done]. injection E as -> _. apply Hq, list_elem_of_fmap. by eexists (_, s1).
Qed.

Lemma elem_of_export q st (c : ClaimCursor) :
  (q, st) ∈ export c ↔ ∃ s, c !! q = Some s ∧ export_state s = Some st.
Proof.
  unfold export. rewrite list_elem_of_omap. split.
  - intros ([q' s] & Hin%elem_of_map_to_list & E). cbn in E.
    destruct (export_state s) as [st'|] eqn:Es; [|done]. injection E as -> ->. by exists s.
  - intros (s & Hs & E). exists (q, s). rewrite elem_of_map_to_list. cbn. by rewrite E.
Qed.

Definition put_record (e : QueueName * CursorState) : write := WPut (cursor_key e.1) (encode e.2).

Lemma put_cursors_Ok l t u t' :
  for_each put_cursor l t = Ok (u, t') → stages t t' (put_record <$> l) ∧ tstats t' = tstats t.
Proof.
  revert t. induction l as [|e l IH]; intros t H.
  - injection H as _ <-. split; [apply stages_refl|done].
  - cbn [for_each] in H. apply M_bind_Ok in H as (u1 & t1 & (H1 & _ & S1 & _)%t_put_Ok & [H2 S2]%IH).
    cbn [snd] in *. split; [|congruence]. by eapply (stages_trans _ _ _ [_]).
Qed.

Lemma run_records l m q st :
  NoDup l.*1 → (q, st) ∈ l → run (put_record <$> l) m !! cursor_key q = Some (encode st).
Proof.
  revert m. induction l as [|[q' st'] l IH]; intros m Hn Hin; [by apply elem_of_nil in Hin|].
  apply NoDup_cons in Hn as [Hq Hn]. rewrite fmap_cons.
  change (run (put_record <$> l) (<[cursor_key q' := encode st']> m) !! cursor_key q = Some (encode st)).
  apply elem_of_cons in Hin as [[= -> ->]|Hin]; [|by apply IH].
  rewrite run_lookup_ne; [apply lookup_insert_eq|].
  intros w ([q1 st1] & -> & Hin)%list_elem_of_fmap E. apply Hq, list_elem_of_fmap.
  exists (q1, st1). split; [|done]. cbn. by apply (inj cursor_key) in E.
Qed.

(** The store has the cursor records [l], and no other key in their space. *)
Definition has_records l m : Prop :=
  ∀ s v, m !! (tag_prefix TCursor ++ s) = Some v ↔
    ∃ q st, (q, st) ∈ l ∧ s = qn_bytes q ∧ v = encode st.

Lemma persist_Ok w u w' :
  others w = [] → has_records [] (contents (db (core w))) → persist_cursor_state w = (Ok u, w') →
  has_records (export (claim_cursor (core w))) (contents (db (core w'))) ∧
  ∀ k, tag_of k ≠ Some TCursor → contents (db (core w')) !! k = contents (db (core w)) !! k.
Proof.
  intros Ho H0. unfold persist_cursor_state. intros (states & w0 & E & H)%IO_bind_Ok.
  injection E as Es <-. pose proof (NoDup_export (claim_cursor (core w))) as Hn. rewrite Es in *.
  destruct states as [|e l]; [by injection H as _ <-|]. set (l' := e :: l) in *.
  apply IO_bind_Ok in H as (t & w0 & Eb & H). pose proof (begin_same _ _ _ Eb) as ->.
  pose proof (begin_fresh_txn _ _ _ Eb) as [(Hw & _ & Hs) _].
  apply IO_bind_Ok in H as ([u1 t'] & w1 & [Ep ->]%staging_Ok & H).
  apply put_cursors_Ok in Ep as [Hst Hs'].
  apply raw_commit_Ok in H as ([Hc _] & _ & _); [|done|congruence].
  assert (Hc' : contents (db (core w')) = run (put_record <$> l') (contents (db (core w)))).
  { rewrite Hc, Hs', Hs. unfold stats_merges. rewrite map_to_list_empty. cbn [app apply_writes foldl filter list_filter].
    cbn. rewrite (stages_twrite _ _ _ _ Hst). unfold twrite. by rewrite Hw. }
  rewrite Hc'. split.
  - intros s v. destruct (decide (s ∈ (λ e, qn_bytes e.1) <$> l')) as [([q st] & -> & Hin)%list_elem_of_fmap|Hout].
    + change (tag_prefix TCursor ++ qn_bytes (q, st).1) with (cursor_key q).
      rewrite (run_records _ _ q st) by done. split; [intros [= <-]; by exists q, st|].
      intros (q1 & st1 & Hin1 & <-%(inj qn_bytes) & ->). f_equal. f_equal.
      apply list_elem_of_lookup in Hin as [i Hi], Hin1 as [i1 Hi1].
      assert (i = i1) as ->.
      { apply (NoDup_lookup _ i i1 q Hn); by rewrite list_lookup_fmap, ?Hi, ?Hi1. }
      congruence.
    + rewrite run_lookup_ne.
      * etrans; [apply H0|]. split; [by intros (? & ? & ?%elem_of_nil & _)|].
        intros (q & st & Hin & -> & _). exfalso. apply Hout, list_elem_of_fmap. by exists (q, st).
      * intros x (e1 & -> & Hin)%list_elem_of_fmap E. injection E as E. apply Hout.
        apply list_elem_of_fmap. by exists e1.
  - intros k Hk. apply run_lookup_ne. intros x (e1 & -> & _)%list_elem_of_fmap <-. by apply Hk.
Qed.

(** ** The restore *)

(** The claim state that the records restore. *)
Definition restored l : ClaimCursor := foldl (λ c e, restore e.1 e.2 c) ∅ l.

Lemma foldl_restore_ne l c q : q ∉ l.*1 → foldl (λ c e, restore e.1 e.2 c) c l !! q = c !! q.
Proof.
  revert c. induction l as [|[q1 st1] l IH]; intros c Hq; [done|]. cbn in Hq |- *.
  apply not_elem_of_cons in Hq as [Hne Hq]. rewrite IH by done. unfold restore. by rewrite lookup_insert_ne.
Qed.

Lemma restored_lookup l q st :
  NoDup l.*1 → (q, st) ∈ l → restored l !! q = Some (restore_state st claim_state_default).
Proof.
  unfold restored. assert (H0 : (∅ : ClaimCursor) !! q = None) by done. revert H0.
  generalize (∅ : ClaimCursor). induction l as [|[q1 st1] l IH]; intros c Hc Hn Hin; [by apply elem_of_nil in Hin|].
  apply NoDup_cons in Hn as [Hq Hn]. cbn. apply elem_of_cons in Hin as [[= -> ->]|Hin].
  - rewrite foldl_restore_ne by done. unfold restore, entry_or_default. rewrite lookup_insert_eq, Hc. done.
  - apply IH; [|done|done]. unfold restore. rewrite lookup_insert_ne; [done|].
    intros ->. apply Hq, list_elem_of_fmap. by exists (q, st).
Qed.

(** The records of a scan are those of [l], in another order. *)
Definition stored_record (e : QueueName * CursorState) : kv := (cursor_key e.1, encode e.2).

Lemma cursor_record_stored e : cursor_record (stored_record e) = (cursor_key e.1, Some e).
Proof.
  unfold cursor_record, stored_record. cbn [fst snd]. rewrite parse_cursor_key_roundtrip.
  cbn [mbind option_bind]. rewrite from_slice_encode. by destruct e.
Qed.

Lemma scanned_records l m s :
  has_records l m → is_scan m (tag_prefix TCursor) Unbounded s →
  ∃ l', s = stored_record <$> l' ∧ NoDup l'.*1 ∧ ∀ e, e ∈ l' ↔ e ∈ l.
Proof.
  intros Hl [Hs Hm].
  assert (Hin : ∀ x, x ∈ s ↔ ∃ e, e ∈ l ∧ x = stored_record e).
  { intros [k v]. rewrite Hm. split.
    - intros (Hv & x & -> & _). apply Hl in Hv as (q & st & ? & -> & ->). by exists (q, st).
    - intros ([q st] & Hin & [= -> ->]). split; [|by exists (qn_bytes q)].
      apply (Hl (qn_bytes q)). by exists q, st. }
  assert (Hl' : ∃ l', s = stored_record <$> l').
  { assert (Hx : ∀ x, x ∈ s → ∃ e, x = stored_record e).
    { intros x (e & _ & ->)%Hin. by exists e. }
    clear -Hx. induction s as [|x s IH]; [by exists []|]. destruct (Hx x) as [e ->]; [by left|].
    destruct IH as [l' ->]; [intros; apply Hx; by right|]. by exists (e :: l'). }
  destruct Hl' as [l' ->]. exists l'. split; [done|]. split.
  - apply key_lt_NoDup in Hs. assert (E : (stored_record <$> l').*1 = cursor_key <$> l'.*1)
      by by rewrite <- !list_fmap_compose.
    rewrite E in Hs. by apply NoDup_fmap_1 in Hs.
  - assert (Hinj : Inj (=) (=) stored_record).
    { intros [q st] [q' st'] [= E Est]. apply (inj qn_bytes) in E as ->.
      apply (f_equal from_slice) in Est. rewrite !from_slice_encode in Est. by injection Est as ->. }
    intros e. specialize (Hin (stored_record e)). rewrite list_elem_of_fmap in Hin. split.
    + intros He. destruct (proj1 Hin) as (e' & ? & ->%(inj stored_record)); [by exists e|done].
    + intros He. destruct (proj2 Hin) as (e' & ->%(inj stored_record) & ?); [by exists e|done].
Qed.

Lemma restore_records_cursor l t w t' w' :
  restore_records ((λ e, (cursor_key e.1, Some e)) <$> l) t w = (Ok t', w') →
  claim_cursor (core w') = foldl (λ c e, restore e.1 e.2 c) (claim_cursor (core w)) l ∧
  stages t t' ((λ e, WDelete (cursor_key e.1)) <$> l) ∧ tstats t' = tstats t ∧ others w' = others w ∧
  db (core w') = db (core w).
Proof.
  revert t w. induction l as [|[q st] l IH]; intros t w H.
  - injection H as <- <-. split_and!; try done. apply stages_refl.
  - cbn [fmap list_fmap restore_records fst] in H. apply IO_bind_Ok in H as (u & w1 & E1 & H).
    injection E1 as _ <-. apply IO_bind_Ok in H as (r & w2 & E2 & H).
    destruct r as [u2 t1]. apply staging_Ok in E2 as [(H1 & _ & S1 & _)%t_delete_Ok ->].
    apply IH in H as (Hc & H2 & S2 & Ho & Hd). cbn [snd] in *. split; [done|].
    split; [by apply (stages_trans _ _ _ [_] _ H1)|]. split; [congruence|]. done.
Qed.

(** What the restore leaves: the claim state, and a store without records. *)
Lemma restore_Ok l w u w' :
  others w = [] → claim_cursor (core w) = ∅ → has_records l (contents (db (core w))) →
  restore_cursor_state w = (Ok u, w') →
  (∀ q st, (q, st) ∈ l → claim_cursor (core w') !! q = Some (restore_state st claim_state_default)) ∧
  (∀ q, q ∉ l.*1 → claim_cursor (core w') !! q = None) ∧
  has_records [] (contents (db (core w'))).
Proof.
  intros Ho Hcur Hl. unfold restore_cursor_state. intros (t & w0 & Eb & H)%IO_bind_Ok.
  pose proof (begin_fresh_txn _ _ _ Eb) as [Hf Hbase]. pose proof (begin_same _ _ _ Eb) as ->.
  apply IO_bind_Ok in H as (s & w1 & E & H). injection E as E%lift_Ok%scan_law <-.
  change (apply_writes _ _ _ _) with (tview t) in E. rewrite (fresh_view t Hf), Hbase in E.
  destruct (scanned_records _ _ _ Hl E) as (l' & -> & Hn & Hin).
  assert (El : map cursor_record (stored_record <$> l') = (λ e, (cursor_key e.1, Some e)) <$> l').
  { change (map cursor_record (stored_record <$> l')) with (cursor_record <$> (stored_record <$> l')).
    rewrite <- list_fmap_compose. apply list_fmap_ext. intros. apply cursor_record_stored. }
  rewrite El in H.
  assert (Hc : claim_cursor (core w') = restored l' ∧
    contents (db (core w')) = run ((λ e, WDelete (cursor_key e.1)) <$> l') (contents (db (core w)))).
  { destruct l' as [|e l']; [injection H as _ <-; by rewrite Hcur|]. set (l1 := e :: l') in *.
    change (match (λ e, (cursor_key e.1, Some e)) <$> l1 with [] => mret tt | _ => _ end)
      with (t ← restore_records ((λ e, (cursor_key e.1, Some e)) <$> l1) t; raw_commit (txn t)) in H.
    apply IO_bind_Ok in H as (t' & w1 & Er & H).
    apply restore_records_cursor in Er as (Hc & Hst & Hs & Ho1 & Hd). destruct Hf as (Hw & _ & Hs0).
    apply raw_commit_Ok in H as ([Hc' _] & _ & ->); [|congruence..]. cbn. split; [by rewrite Hc, Hcur|].
    rewrite Hc', Hs, Hs0. unfold stats_merges. rewrite map_to_list_empty. cbn [list_filter filter fmap list_fmap].
    cbn. rewrite (stages_twrite _ _ _ _ Hst). unfold twrite. by rewrite Hw, Hd. }
  destruct Hc as [-> ->]. split; [|split].
  - intros q st Hq%Hin. by apply restored_lookup.
  - intros q Hq. apply foldl_restore_ne. intros ([q1 st] & -> & Hq1%Hin)%list_elem_of_fmap.
    apply Hq, list_elem_of_fmap. by exists (q1, st).
  - intros s v. split; [|by intros (? & ? & ?%elem_of_nil & _)]. intros Hv. exfalso.
    destruct (decide (s ∈ (λ e, qn_bytes e.1) <$> l')) as [([q st] & -> & He)%list_elem_of_fmap|Hout].
    + revert Hv. rewrite run_deletes; [done|by intros x (e & -> & _)%list_elem_of_fmap; eexists|].
      apply list_elem_of_fmap. by exists (q, st).
    + rewrite run_lookup_ne in Hv.
      * apply Hl in Hv as (q & st & He%Hin & -> & _). apply Hout, list_elem_of_fmap. by exists (q, st).
      * intros x (e & -> & He)%list_elem_of_fmap Ek. injection Ek as Ek. apply Hout, list_elem_of_fmap.
        by exists e.
Qed.

End persist.
