(* ===== verification/Healthy.v ===== *)
(** * Calls on a store whose operations do not fail

    The other theorems hold for a store whose operations fail at any time, and so
    say what a call that returns a result did. On a healthy store, in a process
    that runs no other task, the calls of this file return a result. *)
From S2P Require Import Prelude Bytes Error Monad Keys Job Store Stats LeaseRegistry.
From S2P Require Import TimeBound ClaimCursor Completion Txn Stage StoreInv Sound Core.
From S2P Require Import QueueCore Control Effects Claim Settle Enqueue.
From S2P Require Import Sweeps InboxEntry Inbox Queue CoreInv StagedOps View Session.
From S2P Require Import OpsOk Finishes Linear Outcomes Recovery.

Section healthy.
  Context {DB : SlateDb} {OS : ObjectStore} {SR : Serde JobRecord} {SA : Serde JobAttempt}.
  Context {SC : Serde CountRecord} {EN : Env} {SCu : Serde CursorState}.
  Context {DL : SlateDbLaws merge_batch} {HL : SlateDbHealthy}.
  #[local] Existing Instance no_ids.
  Implicit Types (t : Txn) (j : JobRecord) (w : World).

#[local] Set Default Proof Using "Type DL HL".

(** ** Steps of a transaction that succeed *)

Definition works {A} (m : TxnM A) : Prop := ∀ t, ∃ a t', m t = Ok (a, t').

Lemma healthy_Ok {A} (r : result SlateError A) : is_Some (ok r) → ∃ a, r = Ok a.
Proof. destruct r as [a|e]; [by exists a|]. by intros []. Qed.

Lemma works_ret {A} (a : A) : works (mret a).
Proof. intros t. by exists a, t. Qed.
Lemma works_bind {A B} (m : TxnM A) (f : A → TxnM B) : works m → (∀ a, works (f a)) → works (m ≫= f).
Proof.
  intros Hm Hf t. destruct (Hm t) as (a & t1 & E). unfold mbind, M_bind. rewrite E. apply Hf.
Qed.
Lemma works_of_result {A} (r : Result A) : is_Some (ok r) → works (of_result r).
Proof. intros [a E] t. destruct r; [|done]. by eexists _, t. Qed.
Lemma works_notes f : works (map_notes f).
Proof. intros t. by eexists _, _. Qed.
Lemma works_count_move q a b : works (count_move q a b).
Proof. intros t. by eexists _, _. Qed.
Lemma works_upd f : (∀ x, is_Some (ok (f x))) → works (t_upd f).
Proof.
  intros Hf t. unfold t_upd. destruct (healthy_Ok _ (Hf (txn t))) as [x ->]. cbn. by eexists _, _.
Qed.
Lemma works_put k v : works (t_put k v).
Proof. apply works_upd. intros. apply put_healthy. Qed.
Lemma works_delete k : works (t_delete k).
Proof. apply works_upd. intros. apply delete_healthy. Qed.
Lemma works_mark_read ks : works (t_mark_read ks).
Proof. apply works_upd. intros. apply mark_read_healthy. Qed.
Lemma works_append i a : works (t_append_attempt i a).
Proof.
  intros t. unfold t_append_attempt, append_attempt.
  destruct (healthy_Ok _ (merge_healthy (txn t) (attempt_history_key i) (encode a))) as [x ->].
  cbn. by eexists _, _.
Qed.
(** A read returns what the transaction sees. *)
Lemma works_get k t : t_get k t = Ok (tview t !! k, t).
Proof.
  unfold t_get, reads. destruct (healthy_Ok _ (get_healthy (txn t) k)) as [o E]. rewrite E. cbn.
  by apply get_law in E as ->.
Qed.

Ltac works :=
  repeat first
    [ apply works_ret | apply works_put | apply works_delete | apply works_append
    | apply works_notes | apply works_count_move | (apply works_of_result; done)
    | (apply works_bind; [|intros]) | case_match ].

Lemma works_put_job k j : works (put_job k j).
Proof. unfold put_job, note_written. works. Qed.
Lemma works_stage_remove k j : is_Some (ok (key_status k)) → works (stage_remove k j).
Proof. intros Hk. unfold stage_remove. works. Qed.
Lemma works_move_job k j :
  is_Some (ok (stored_key (leave_waits j))) → is_Some (ok (key_status k)) → works (move_job k j).
Proof. intros Hj Hk. unfold move_job, note_written. works. Qed.

Lemma works_claim_end j e now : job_ok j → status j = Claimed → works (stage_claim_end j e now).
Proof.
  intros Hj Hs. assert (Hk : is_Some (ok (key_status (claimed_key (queue j) (id j))))) by by eexists.
  pose proof (job_ok_stored_key _ (job_ok_claim_end e now j Hj Hs)) as Hst.
  unfold stage_claim_end, stage_dead_letter, stage_to_pending.
  destruct e as [[]|[at'|] o [err|]|err]; unfold claim_end_record in Hst;
    repeat first [ (apply works_move_job; done) | (apply works_stage_remove; done)
                 | apply works_append | apply works_ret | (apply works_bind; [|intros]) ].
Qed.

(** ** The retry loop *)

Lemma works_write_stats l (t : DbTransaction) : ∃ (t' : DbTransaction), write_stats l t = Ok t'.
Proof.
  revert t. induction l as [|[[q s] d] l IH]; intros t; [by exists t|]. cbn [write_stats].
  case_decide; [apply IH|]. unfold update_stats. generalize (stats_key q (metric_name s)). intros key.
  destruct (healthy_Ok _ (merge_healthy t key (i64_le d))) as [t1 ->]. cbn.
  destruct (healthy_Ok _ (unmark_write_healthy t1 [key])) as [t2 ->]. apply IH.
Qed.

(** A begin, and a commit in the store its transaction began on. *)
Lemma begin_works w : ∃ t, begin w = (Ok t, w) ∧ base (txn t) = db (core w).
Proof.
  unfold begin, get, io_gets, mbind, IO_bind, io_result. cbn.
  destruct (healthy_Ok _ (begin_healthy (db (core w)))) as [t E]. rewrite E. eexists. split; [done|].
  by apply begin_law in E as [? _].
Qed.

Lemma db_commit_works (t : DbTransaction) : ∃ d, txn_commit (base t) t = Ok d.
Proof.
  destruct (txn_commit (base t) t) as [d|e] eqn:E; [by exists d|]. exfalso.
  pose proof (commit_healthy _ _ _ E). by apply commit_no_conflict_law in E.
Qed.

Lemma commit_works t d w :
  base (txn t) = db (core w) → ∃ w', commit t d w = (Ok Committed, w').
Proof.
  intros Hb. unfold commit, mbind, IO_bind, io_result.
  destruct (works_write_stats (map_to_list (tstats t)) (txn t)) as [t' E]. rewrite E.
  apply write_stats_base in E. unfold commit_txn, get, io_gets, mbind, IO_bind. cbn.
  rewrite <- Hb, <- E. destruct (db_commit_works t') as [d' ->].
  destruct d; cbn; [|by eexists]. unfold io_result.
  destruct (healthy_Ok _ (await_healthy d')) as [[] ->]. by eexists.
Qed.

Lemma yield_alone w : others w = [] → yield w = (Ok tt, w).
Proof. intros Ho. unfold yield, io_modify. by rewrite Ho. Qed.

(** A retried transaction whose body commits on the snapshot it began on. *)
Lemma retry_works {T} d (body : Txn → Q (Attempt T * Txn)) w :
  world_ok w → others w = [] → body_steady body →
  (∀ t, sound t → fresh_txn t → tbase t = contents (db (core w)) →
     ∃ v t' w', body t w = (Ok (CommitWith v, t'), w')) →
  ∃ v w', retry d body w = (Ok v, w').
Proof.
  intros Hw Ho Hb H. unfold retry. cbn [retry_loop]. unfold mbind at 1, IO_bind at 1.
  destruct (begin_works w) as (t & Eb & Hbase). rewrite Eb.
  destruct (begin_ok _ _ _ Hw Eb) as [Hs _]. pose proof (begin_fresh_txn _ _ _ Eb) as [Hf Ht].
  unfold mbind at 1, IO_bind at 1. rewrite yield_alone by done.
  destruct (H t Hs Hf Ht) as (v & t' & w1 & E). unfold mbind at 1, IO_bind at 1. rewrite E.
  destruct (Hb t) as [Hst Hbs]. pose proof (Hbs _ _ _ _ E) as Hb'.
  destruct (Hst w) as [_ (Ed & Eo & _)]. rewrite E in Ed, Eo. cbn in Ed, Eo.
  unfold mbind at 1, IO_bind at 1. rewrite yield_alone by congruence.
  destruct (commit_works t' d w1) as [w2 Ec]; [congruence|].
  unfold mbind, IO_bind. rewrite Ec. by eexists _, _.
Qed.

(** ** A settlement *)

Lemma take_claim_works registry q i cid e j t :
  lease_current q i registry = Some (e, cid) → job_at (tview t) (claimed_key q i) = Some j →
  ∃ t', take_claim registry q i cid t = Ok (j, t').
Proof.
  intros Hl (b & Hb & Hj)%job_at_Some. unfold take_claim, read_claim.
  rewrite Hl, decide_True by done. cbv zeta. revert Hb Hj. generalize (claimed_key q i). intros key Hb Hj.
  destruct (works_mark_read [key] t) as ([] & t1 & E).
  unfold mbind, M_bind. rewrite E, works_get.
  apply t_mark_read_Ok in E as (Hst & _). cbn [snd] in Hst.
  rewrite (stages_tview _ _ _ Hst). cbn [apply_writes foldl]. rewrite Hb. unfold of_result. rewrite Hj. cbn.
  destruct (works_delete key t1) as ([] & t2 & ->). by eexists.
Qed.

Lemma settle_txn_works claim ef e j w :
  world_ok w → others w = [] →
  lease_current (queue (job claim)) (id (job claim)) (lease_registry (core w)) = Some (e, claim_id claim) →
  job_at (contents (db (core w))) (claimed_key (queue (job claim)) (id (job claim))) = Some j →
  ∃ v w', settle_txn claim prepared_default ef w = (Ok v, w').
Proof.
  intros Hw Ho Hl Hj. assert (Hm : store_ok (contents (db (core w)))) by apply Hw.
  destruct (store_ok_job _ _ _ Hm Hj) as (_ & Hok & _).
  destruct (claimed_record _ _ _ _ Hm Hj) as (_ & _ & Hc).
  unfold settle_txn. apply retry_works; [done|done|apply settle_body_steady|]. intros t _ Hf Hb.
  destruct (take_claim_works _ _ _ _ _ j t Hl) as [t1 E1]; [by rewrite (fresh_view _ Hf), Hb|].
  unfold mbind, IO_bind, get, io_gets, staging, io_result. rewrite E1.
  destruct (now_ms w) as [[now|err] w1] eqn:En; [|by unfold now_ms in En].
  destruct (works_claim_end j (ef j now) now Hok Hc t1) as (j' & t2 & E2). rewrite E2.
  destruct (is_terminal _); [rewrite stage_default|]; by eexists _, _, _.
Qed.

(** The holder of a live claim settles it. *)
Lemma settle_works claim ef e j w :
  world_ok w → others w = [] →
  lease_current (queue (job claim)) (id (job claim)) (lease_registry (core w)) = Some (e, claim_id claim) →
  job_at (contents (db (core w))) (claimed_key (queue (job claim)) (id (job claim))) = Some j →
  ∃ v w', settle_claim claim effects_default ef w = (Ok v, w').
Proof.
  intros Hw Ho Hl Hj. unfold settle_claim. rewrite prepare_default. unfold mbind at 1, IO_bind at 1.
  cbn [mret IO_ret]. destruct (settle_txn_works claim ef e j w Hw Ho Hl Hj) as ([[j' e'] st] & w1 & E).
  unfold mbind at 1, IO_bind at 1, io_try. rewrite E. cbn zeta.
  unfold mbind at 1, IO_bind at 1. destruct (finish_effects prepared_default st w1) as [[rs|err] w2] eqn:Ef.
  2: { destruct st as [[|r rs]|]; discriminate Ef. }
  unfold mbind at 1, IO_bind at 1, io_result. unfold mbind, IO_bind.
  destruct (finish_claim_end _ _ _ _ w2) as [[[]|err] w3] eqn:Ec; [by eexists _, _|].
  exfalso. by eapply finish_claim_ok.
Qed.

(** ** The recovery of an open *)

Lemma restore_records_works records t w :
  ∃ t' w', restore_records records t w = (Ok t', w') ∧ base (txn t') = base (txn t) ∧
    db (core w') = db (core w) ∧ others w' = others w.
Proof.
  revert t w. induction records as [|[key record] records IH]; intros t w; [by exists t, w|].
  cbn [restore_records]. set (m := match record with Some _ => _ | None => _ end).
  assert (Hm : ∃ w1, m w = (Ok tt, w1) ∧ db (core w1) = db (core w) ∧ others w1 = others w).
  { subst m. destruct record as [[q st]|]; by eexists. }
  destruct Hm as (w1 & E1 & Ed & Eo). unfold mbind at 1, IO_bind at 1. rewrite E1.
  destruct (works_delete key t) as (u & t1 & E2). unfold mbind at 1, IO_bind at 1, staging, io_result.
  rewrite E2. pose proof (t_delete_Ok _ _ _ E2) as (Hst & _). cbn [snd] in Hst.
  destruct (IH t1 w1) as (t' & w' & E & Hb & Hd & Ho). exists t', w'. split; [done|].
  split; [|split; congruence]. rewrite Hb. apply (stages_base _ _ _ Hst).
Qed.

Lemma restore_cursor_works w : others w = [] → ∃ w', restore_cursor_state w = (Ok tt, w').
Proof.
  intros Ho. unfold restore_cursor_state, mbind at 1, IO_bind at 1.
  destruct (begin_works w) as (t & -> & Hbase). unfold mbind at 1, IO_bind at 1, io_result.
  destruct (healthy_Ok _ (scan_healthy (txn t) (tag_prefix TCursor) Unbounded)) as [l ->]. cbn [lift].
  destruct (map cursor_record l) as [|r records]; [by exists w|].
  destruct (restore_records_works (r :: records) t w) as (t' & w1 & E & Hb & Hd & Ho1).
  unfold mbind at 1, IO_bind at 1. rewrite E. unfold raw_commit, mbind at 1, IO_bind at 1.
  rewrite yield_alone by congruence. unfold mbind, IO_bind, get, io_gets, io_result.
  rewrite Hd, <- Hbase, <- Hb. destruct (db_commit_works (txn t')) as [d ->]. by eexists.
Qed.

Lemma requeue_one_works j w :
  world_ok w → others w = [] →
  job_at (contents (db (core w))) (claimed_key (queue j) (id j)) = Some j →
  ∃ u w', requeue_interrupted j w = (Ok u, w').
Proof.
  intros Hw Ho Hj. assert (Hm : store_ok (contents (db (core w)))) by apply Hw.
  destruct (store_ok_job _ _ _ Hm Hj) as (_ & Hok & _).
  destruct (claimed_record _ _ _ _ Hm Hj) as (_ & _ & Hc).
  apply retry_works; [done|done|apply requeue_steady|]. intros t _ _ _.
  fold (interrupted_end j). unfold mbind, IO_bind.
  destruct (now_ms w) as [[now|e] w1] eqn:En; [|by unfold now_ms in En].
  destruct (works_claim_end j (interrupted_end j) now Hok Hc t) as (j' & t' & E).
  unfold staging, io_result. rewrite E. by eexists _, _, _.
Qed.

Lemma requeue_all_works m0 l w :
  world_ok w → others w = [] → store_ok m0 → claims_of m0 l → NoDup l →
  recovering m0 l (contents (db (core w))) → ∃ w', io_for_each requeue_interrupted l w = (Ok tt, w').
Proof.
  intros Hw Ho H0. revert w Hw Ho. induction l as [|j l IH]; intros w Hw Ho Hl Hnd Hm; [by exists w|].
  apply NoDup_cons in Hnd as [Hjl Hnd]. destruct (recovering_left _ _ _ j Hl Hm) as [Hj _]; [by left|].
  destruct (requeue_one_works j w Hw Ho Hj) as (u & w1 & E).
  cbn [io_for_each]. unfold mbind, IO_bind. rewrite E.
  apply (requeue_step m0 j l) in E as (Hw1 & Ho1 & Hm1); [|done..].
  by apply (IH w1 Hw1 Ho1 (claims_of_tail _ _ _ Hl)).
Qed.

(** On a healthy store the recovery of an open returns. *)
Lemma recover_works w : world_ok w → others w = [] → ∃ w', recover w = (Ok tt, w').
Proof.
  intros Hw Ho. destruct (restore_cursor_works w Ho) as [w1 E].
  unfold recover, mbind at 1, IO_bind at 1. rewrite E.
  apply restore_cursor_state_Ok in E as (Hw1 & Ho1 & Hs%restored_same); [|done..].
  unfold requeue_interrupted_claims, db_scan, get, io_gets, io_result, mbind, IO_bind.
  destruct (healthy_Ok _ (db_scan_healthy (db (core w1)) (tag_prefix TClaimed) Unbounded)) as [l El].
  rewrite El. cbn [lift]. apply db_scan_law in El.
  assert (H0 : store_ok (contents (db (core w)))) by apply Hw.
  assert (Hm : store_ok (contents (db (core w1)))) by apply Hw1.
  destruct (recovering_scanned _ _ _ H0 Hm Hs El) as (Hnd & Hl & Hr).
  by apply (requeue_all_works (contents (db (core w)))).
Qed.

End healthy.
