(* ===== verification/Applied.v ===== *)
(** * What the application of an inbox entry does

    The contract of an entry, as a relation of the contents before and after, and
    that [apply_entry] implements it: in one change the effect of the entry's
    operation and the record of its outcome. *)
From S2P Require Import Prelude Bytes Error Monad Keys Job Store Stats LeaseRegistry.
From S2P Require Import TimeBound ClaimCursor Completion Txn Stage StoreInv Sound Core.
From S2P Require Import QueueCore Control Effects Claim Settle Enqueue.
From S2P Require Import Sweeps InboxEntry Inbox Queue CoreInv StagedOps Finishes.
From S2P Require Import InboxOk Linear Outcomes.

Section applied.
  Context {DB : SlateDb} {OS : ObjectStore} {SR : Serde JobRecord} {SA : Serde JobAttempt}.
  Context {SC : Serde CountRecord} {EN : Env} {ST : EntryStore} {IE : InboxEnv}.
  Context {SE : Serde EnqueueEntry} {SCa : Serde CancelEntry} {SSi : Serde SignalEntry}.
  Context {SI : Serde InboxRecord} {DL : SlateDbLaws merge_batch}.
  Implicit Types (t : Txn) (j : JobRecord) (m : gmap bytes bytes).

Abbreviation run := (apply_writes merge_batch merge_fallback).

(** ** The record of an outcome *)

Definition insert_record (sr : StagedRecord) m : gmap bytes bytes :=
  <[inbox_expiry_key (staged_applied_at_ms sr) (staged_queue sr) (staged_id sr) := []]>
    (<[inbox_record_key (staged_queue sr) (staged_id sr) := staged_bytes sr]> m).

Definition with_record (h : InboxRecordHandle) (o : InboxOutcome) : gmap bytes bytes → gmap bytes bytes :=
  insert_record (handle_staged h o).

Lemma insert_record_other sr m k :
  k ≠ inbox_record_key (staged_queue sr) (staged_id sr) →
  k ≠ inbox_expiry_key (staged_applied_at_ms sr) (staged_queue sr) (staged_id sr) →
  insert_record sr m !! k = m !! k.
Proof. intros H1 H2. unfold insert_record. by rewrite !lookup_insert_ne. Qed.

Lemma with_record_lookup h o m :
  with_record h o m !! inbox_record_key (rh_queue h) (rh_id h) =
    Some (encode (mkInboxRecord (rh_applied_at_ms h) o)).
Proof. unfold with_record, insert_record. rewrite lookup_insert_ne by key_ne. by rewrite lookup_insert_eq. Qed.

#[local] Set Default Proof Using "Type DL SA SR EN".

Lemma stage_inbox_record_Ok sr t u t' :
  stage_inbox_record sr t = Ok (u, t') →
  stages t t' [WPut (inbox_record_key (staged_queue sr) (staged_id sr)) (staged_bytes sr);
    WPut (inbox_expiry_key (staged_applied_at_ms sr) (staged_queue sr) (staged_id sr)) []] ∧
  tstats t' = tstats t.
Proof.
  unfold stage_inbox_record. intros (u1 & t1 & (H1 & _ & S1 & _)%t_put_Ok & H)%M_bind_Ok.
  apply M_bind_Ok in H as (u2 & t2 & (H2 & _ & S2 & _)%t_put_Ok & H).
  apply map_notes_Ok in H as [H3 S3]. cbn [snd] in *. split; [|congruence].
  eapply stages_eq; [exact (stages_trans _ _ _ _ _ (stages_trans _ _ _ _ _ H1 H2) H3)|done].
Qed.

(** The commit of a transaction that staged a record last is the commit without
    the record, with the record. *)
Lemma record_committed sr t u t' m m' :
  stage_inbox_record sr t = Ok (u, t') → committed t' m m' →
  ∃ m1, committed t m m1 ∧ m' = insert_record sr m1.
Proof.
  intros [Hst Hs]%stage_inbox_record_Ok [-> Hb]. rewrite Hs, (stages_twrite _ _ _ _ Hst).
  set (S := stats_merges _). exists (run S (twrite t m)). split.
  - split; [done|]. intros k Hk Ht. rewrite <- (stages_tbase _ _ _ Hst). apply Hb; [|done].
    by apply (stages_mono _ _ _ Hst).
  - unfold apply_writes at 2. cbn [foldl apply_write]. fold (insert_record sr (twrite t m)).
    apply map_eq. intros k.
    set (kr := inbox_record_key (staged_queue sr) (staged_id sr)).
    set (ke := inbox_expiry_key (staged_applied_at_ms sr) (staged_queue sr) (staged_id sr)).
    destruct (decide (k = ke)) as [->|He].
    { unfold S. rewrite run_stats_other by done. unfold insert_record. by rewrite !lookup_insert_eq. }
    destruct (decide (k = kr)) as [->|Hr].
    { unfold S. rewrite run_stats_other by done. unfold insert_record.
      fold kr ke. rewrite !(lookup_insert_ne _ ke) by done. by rewrite !lookup_insert_eq. }
    rewrite insert_record_other by done. apply run_lookup_ext. by apply insert_record_other.
Qed.

(** ** The contract of an entry

    What the entry [e] for the queue [q] does with the outcome [o] to the contents
    [m], with the payload refs [refs] of the job it removed: the contents [m'],
    before its record. [m0] are the contents its transaction began on, and [w] the
    process whose clock and ids the job is prepared from. *)
Definition waits_for_signal j : Prop := status j = Scheduled ∧ signal_wait j = true.

Definition enqueue_applied (w : World) (q : string) (e : EnqueueEntry) (r : EnqueueResult) m0 m m' : Prop :=
  ∃ p w1 j, prepare_job_record q (ee_payload e) (ee_options e) w = (Ok p, w1) ∧
    same_but_payload (prepared_job p) j ∧
    match r with
    | New i => i = id j ∧ (opt_count_wait (ee_options e) = None →
        ∃ key, stored_key j = Ok key ∧ inserted j key (id_override_used p) m m')
    | AlreadyEnqueued i => m' = m ∧ ∃ dk b, dedup_key j = Some dk ∧
        m0 !! dedup_index_key (queue j) dk = Some b ∧ from_utf8 b = Some i
    end.

Definition cancel_applied (q i : string) (o : CancelOutcome) (refs : list string) m0 m m' : Prop :=
  match o with
  | CancelRemoved => ∃ k j, qn_str (queue j) = q ∧ (status j = Pending ∨ status j = Scheduled) ∧
      removed i k j m m' ∧ refs = match payload_ref j with Some r => [r] | None => [] end
  | CancelRequestedOutcome => refs = [] ∧ ∃ k j, lookup_job m0 i = Some (k, j) ∧
      qn_str (queue j) = q ∧ status j = Claimed ∧
      if cancel_requested j then m' = m
      else job_at m k = Some j ∧
        m' = <[k := stored_bytes (leave_waits (set_cancel_requested true j))]> m
  | CancelNotFound => refs = [] ∧ m' = m ∧ ∀ k j, lookup_job m0 i = Some (k, j) →
      qn_str (queue j) = q ∧ (status j = Done ∨ status j = Dead)
  end.

Definition signal_applied (q i : string) (pl : bytes) (o : SignalOutcome) m0 m m' : Prop :=
  match o with
  | Delivered => ∃ k j k', qn_str (queue j) = q ∧ waits_for_signal j ∧
      moved i k j k' (leave_waits (set_run_at None (set_status Pending (set_signal (Some pl) j)))) m m'
  | NotWaiting => m' = m ∧ ∀ k j, lookup_job m0 i = Some (k, j) →
      qn_str (queue j) = q ∧ ¬ waits_for_signal j
  end.

(** A rejection leaves the store; one that names another queue does so because the
    job is on that queue. *)
Definition rejection_applied (q : string) (e : InboxEntry) (r : Rejection) m0 m m' : Prop :=
  m' = m ∧ ∀ jq, r = OtherQueue jq → jq ≠ q ∧ ∃ i k j,
    match e with EntryEnqueue _ => False | EntryCancel e => i = ce_job_id e | EntrySignal e => i = se_job_id e end ∧
    lookup_job m0 i = Some (k, j) ∧ qn_str (queue j) = jq.

Definition entry_applied (w : World) (q : string) (e : InboxEntry) (o : InboxOutcome)
    (refs : list string) m0 m m' : Prop :=
  match e, o with
  | EntryEnqueue e, OutcomeEnqueue r => refs = [] ∧ enqueue_applied w q e r m0 m m'
  | EntryCancel e, OutcomeCancel o => cancel_applied q (ce_job_id e) o refs m0 m m'
  | EntrySignal e, OutcomeSignal o => refs = [] ∧ signal_applied q (se_job_id e) (se_payload e) o m0 m m'
  | e, OutcomeRejected r => refs = [] ∧ rejection_applied q e r m0 m m'
  | _, _ => False
  end.

(** The change of an application: the contract, and the record of the outcome. *)
Definition applied_with_record (h : InboxRecordHandle) (o : InboxOutcome)
    (R : gmap bytes bytes → gmap bytes bytes → gmap bytes bytes → Prop) m0 m m' : Prop :=
  ∃ m1, R m0 m m1 ∧ m' = with_record h o m1.

(** ** The kinds *)

(** A commit with a record last: from the body to the effect. *)
Lemma record_effect h o t t1 u t' w w' R :
  stage_inbox_record (handle_staged h o) t1 = Ok (u, t') →
  effect_from w w' (λ m0 m m', m0 = tbase t ∧ committed t' m m') →
  (∀ m m1, committed t1 m m1 → R (tbase t) m m1) →
  effect_from w w' (applied_with_record h o R).
Proof.
  intros Hs He HR. eapply effect_from_mono; [|exact He]. intros m0 m m' [-> Hc].
  destruct (record_committed _ _ _ _ _ _ Hs Hc) as (m1 & Hc1 & ->). exists m1. split; [by apply HR|done].
Qed.

(** Nothing staged, nothing changed. *)
Lemma committed_fresh t m m' : fresh_txn t → committed t m m' → m' = m.
Proof. intros Hf Hc. by eapply (committed_stages t t []) in Hc; [|done|apply stages_refl|apply Hf]. Qed.

Lemma on_another_queue_Ok t i q other :
  fresh_txn t → on_another_queue t i q = Ok other →
  match other with
  | Some r => ∃ k j, lookup_job (tbase t) i = Some (k, j) ∧ r = OtherQueue (qn_str (queue j)) ∧
      qn_str (queue j) ≠ q
  | None => ∀ k j, lookup_job (tbase t) i = Some (k, j) → qn_str (queue j) = q
  end.
Proof.
  intros Hf H. unfold on_another_queue in H. apply bind_Ok in H as (found & E & [= <-]).
  rewrite <- (fresh_view t Hf). destruct found as [[[ik k] j]|].
  - apply found_lookup in E. case_decide as D; [by exists k, j|].
    rewrite E. intros k' j' [= <- <-]. by destruct (decide (qn_str (queue j) = q)).
  - apply absent_lookup in E. by rewrite E.
Qed.
Lemma commit_rejection_effect h r w o w' :
  commit_rejection h r w = (Ok o, w') →
  o = OutcomeRejected r ∧ effect_from w w' (applied_with_record h o (λ _ m m', m' = m)).
Proof.
  intros ([] & w1 & H & Ho)%IO_bind_Ok. injection Ho as <- <-. split; [done|].
  apply retry_effect_from in H as (t & wa & t' & wb & Hf & _ & Hor); [|apply rejection_body_steady].
  destruct Hor as [(E & _ & He)|(E & _)];
    apply IO_bind_Ok in E as ([u t1] & w2 & [E1 ->]%staging_Ok & E); [|discriminate E].
  injection E as <- <-. eapply record_effect; [done|done|]. intros m m1. by apply committed_fresh.
Qed.

Lemma apply_cancel_effect q e h w o refs w' :
  world_ok w → apply_cancel q e h w = (Ok (o, refs), w') →
  effect_from w w' (applied_with_record h o (entry_applied w q (EntryCancel e) o refs)).
Proof.
  intros Hw H. unfold apply_cancel in H. apply IO_bind_Ok in H as ([o' s] & w1 & H & Hr).
  apply IO_bind_Ok in Hr as (rm & w2 & Hfin & Hr). injection Hr as <- <- <-.
  assert (Hp : passes w1 w2).
  { destruct s; [eapply still_passes, Hfin; apply finish_cancel_still|by injection Hfin as _ <-]. }
  apply (effect_from_around w w w1 w2); [done|done|].
  apply retry_effect_from in H as (t & wa & t' & wb & Hf & Hok & Hor); [|apply cancel_body_steady].
  specialize (Hok Hw).
  destruct Hor as [(E & _ & He)|(E & _)];
    apply IO_bind_Ok in E as (other & w3 & Eq & E); injection Eq as Eq <-;
    apply IO_bind_Ok in E as ([[o1 s1] t1] & w4 & Es & E);
    apply IO_bind_Ok in E as ([u t2] & w5 & [Er ->]%staging_Ok & E); [|discriminate E].
  injection E as -> -> <- <-. apply (on_another_queue_Ok _ _ _ _ Hf) in Eq.
  eapply record_effect; [exact Er|exact He|]. intros m m1 Hc. destruct other as [r|].
  { injection Es as <- <- <- _. cbn in Hfin. injection Hfin as <- _. cbn.
    destruct Eq as (k & j & Hl & -> & Hne). split; [done|]. split; [by apply (committed_fresh t)|].
    intros jq [= <-]. split; [done|]. by exists (ce_job_id e), k, j. }
  apply IO_bind_Ok in Es as ([s2 t3] & w6 & [Es ->]%staging_Ok & E). injection E as <- <- <- _.
  apply (stage_cancel_inv _ _ _ _ Hf Hok) in Es. destruct s2 as [j|j|j|]; cbn [cancel_outcome].
  - destruct Es as (k & Hl & Hs & Hst). exists k, j. split; [by eapply Eq|]. split; [done|].
    split; [by apply (removed_commit t t3)|].
    apply IO_bind_Ok in Hfin as (? & ? & _ & Hfin). apply IO_bind_Ok in Hfin as (? & ? & _ & Hfin).
    by injection Hfin as <- _.
  - destruct Es as (k & j0 & Hl & Hs & Hcr & -> & Hst & Hts).
    apply IO_bind_Ok in Hfin as (? & ? & _ & Hfin). injection Hfin as <- _. split; [done|].
    exists k, j0. rewrite Hcr. do 2 (split; [by eauto|]). split; [done|].
    destruct (lookup_id _ _ _ _ Hok Hl) as (_ & Hk%stored_key_record & Hat).
    destruct (committed_run t t3 _ m m1 k Hf Hst Hc) as [_ Hb]; [by left|by apply record_not_stats|].
    split; [unfold job_at in *; by rewrite Hb|].
    apply (committed_stages t t3 _ m m1 Hf Hst); [|done]. rewrite Hts. apply Hf.
  - destruct Es as (-> & k & Hl & Hs & Hcr).
    apply IO_bind_Ok in Hfin as (? & ? & _ & Hfin). injection Hfin as <- _. split; [done|].
    exists k, j. rewrite Hcr. do 2 (split; [by eauto|]). split; [done|]. by apply (committed_fresh t).
  - destruct Es as (-> & Hl). injection Hfin as <- _. split; [done|].
    split; [by apply (committed_fresh t)|]. intros k j Hkj. split; [by eapply Eq|].
    destruct Hl as [Hn|(k' & j' & Hl & Hs)]; [congruence|]. rewrite Hl in Hkj. by injection Hkj as <- <-.
Qed.

Lemma apply_signal_effect q e h w o w' :
  world_ok w → apply_signal q e h w = (Ok o, w') →
  effect_from w w' (applied_with_record h o (entry_applied w q (EntrySignal e) o [])).
Proof.
  intros Hw H. apply retry_effect_from in H as (t & wa & t' & wb & Hf & Hok & Hor);
    [|apply signal_body_steady].
  specialize (Hok Hw).
  destruct Hor as [(E & _ & He)|(E & _)];
    apply IO_bind_Ok in E as (other & w3 & Eq & E); injection Eq as Eq <-;
    apply IO_bind_Ok in E as ([o1 t1] & w4 & Es & E);
    apply IO_bind_Ok in E as ([u t2] & w5 & [Er ->]%staging_Ok & E); [|discriminate E].
  injection E as -> <- <-. apply (on_another_queue_Ok _ _ _ _ Hf) in Eq.
  eapply record_effect; [exact Er|exact He|]. intros m m1 Hc. destruct other as [r|].
  { injection Es as <- <- _. cbn. destruct Eq as (k & j & Hl & -> & Hne). split; [done|].
    split; [by apply (committed_fresh t)|]. intros jq [= <-]. split; [done|]. by exists (se_job_id e), k, j. }
  apply IO_bind_Ok in Es as ([s t3] & w6 & [Es ->]%staging_Ok & E). injection E as <- <- _.
  unfold stage_signal in Es. apply M_bind_Ok in Es as (r & t4 & Es & E). injection E as <- <-.
  apply (stage_wake_inv _ _ _ _ _ Hf Hok) in Es. cbn. split; [done|]. destruct r as [why|q'].
  - destruct Es as [-> Hl]. split; [by apply (committed_fresh t)|]. intros k j Hkj. split; [by eapply Eq|].
    intros [Hs Hsw]. rewrite Hkj in Hl. destruct why; [done|..].
    + by destruct Hl as (? & ? & [= <- <-] & ?).
    + destruct Hl as (? & ? & [= <- <-] & _ & Hn). cbn in Hn. by rewrite Hsw in Hn.
  - destruct Es as (k & j & j1 & k' & Hl & Hs & Hwr & _ & Hk & Hi & Hne & Hst).
    cbn in Hwr. destruct (signal_wait j) eqn:Hsw; [|done]. injection Hwr as <-.
    exists k, j, k'. split; [by eapply Eq|]. split; [done|].
    eapply (moved_commit t t4 (se_job_id e) k j k' _ []); rewrite ?app_nil_r; try done.
    by intros x ?%elem_of_nil.
Qed.

Lemma apply_enqueue_effect q e h w o w' :
  apply_enqueue q e h w = (Ok o, w') →
  effect_from w w' (applied_with_record h o (entry_applied w q (EntryEnqueue e) o [])).
Proof.
  intros H. unfold apply_enqueue in H. apply IO_bind_Ok in H as (p & w1 & Ep & H).
  assert (Hp1 : passes w w1) by (eapply still_passes; [apply still_prepare_job|done]).
  apply IO_bind_Ok in H as (off & w2 & Eo & H). unfold io_try in Eo.
  destruct (offload (prepared_job p) w1) as [stored w2'] eqn:Eo'. injection Eo as <- <-.
  assert (Hp2 : passes w1 w2') by (eapply still_passes; [apply still_offload|done]).
  apply IO_bind_Ok in H as ([p' r] & w3 & E & H). apply IO_bind_Ok in H as (u & w4 & Ef & H).
  injection H as -> <-.
  assert (Hp4 : passes w3 w4) by (eapply still_passes, Ef; apply still_finish_write).
  destruct stored as [j|err]; [|by injection E]. apply offload_Ok in Eo' as [Hj _].
  apply IO_bind_Ok in E as (r & w5 & Er & E). unfold io_try in Er.
  destruct (retry _ _ w2') as [r' w5'] eqn:Et. injection Er as <- <-. injection E as <- -> <-.
  apply (effect_from_around w w2' w5' w4); [by etrans|done|].
  set (pj := mkPrepared j (id_override_used p)) in *.
  apply retry_effect_from in Et as (t & wa & t' & wb & Hf & _ & Hor); [|apply enqueue_body_steady].
  destruct Hor as [(E & _ & He)|(E & _)];
    apply IO_bind_Ok in E as ([written t1] & w6 & [Ew ->]%staging_Ok & E);
    apply IO_bind_Ok in E as ([u2 t2] & w7 & [Er ->]%staging_Ok & E); [|discriminate E].
  injection E as <- <- <-. apply (stage_job_writes_inv _ _ _ _ Hf) in Ew.
  eapply record_effect; [exact Er|exact He|]. intros m m1 Hc. split; [done|].
  exists p, w1, j. split; [done|]. split; [done|].
  destruct written as [ex|i].
  - destruct Ew as [-> Hd]. split; [by apply (committed_fresh t)|done].
  - destruct Ew as (-> & Hdk & Ho & Hst). split; [done|]. intros Hcw.
    destruct Hst as (key & Hk & Hst).
    { cbn. destruct Hj as (_ & _ & -> & _). by eapply prepare_count_wait. }
    exists key. split; [done|]. by eapply (inserted_commit pj t t1).
Qed.

(** ** The application of an entry *)

Lemma apply_cancel_failed q e h w err w' :
  apply_cancel q e h w = (Err err, w') → not_storage err → passes w w'.
Proof.
  unfold apply_cancel. unfold mbind at 1, IO_bind at 1. destruct (retry _ _ w) as [[[o s]|e1] w1] eqn:E.
  - unfold mbind, IO_bind. destruct s as [s|]; [|done]. intros H. exfalso.
    destruct s; cbn in H; discriminate H.
  - intros [= -> ->] Hn. by eapply retry_failed; [apply cancel_body_steady|exact E|].
Qed.

Lemma apply_signal_failed q e h w err w' :
  apply_signal q e h w = (Err err, w') → not_storage err → passes w w'.
Proof. intros H. by eapply retry_failed; [apply signal_body_steady|exact H]. Qed.

(** What follows the write of a job: the result stays. *)
Lemma finish_write_end {A} p (b : bool) (r : Result A) w r' w' :
  (finish_job_write p b ≫= λ _, io_result r) w = (r', w') → r' = r ∧ passes w w'.
Proof.
  unfold mbind, IO_bind. destruct (finish_job_write p b w) as [[u|e] w1] eqn:E.
  - intros [= <- <-]. split; [done|]. eapply still_passes, E. apply still_finish_write.
  - exfalso. revert E. unfold finish_job_write. destruct b; [done|]. intros E.
    pose proof (delete_for_ok (prepared_job p) w) as H. by rewrite E in H.
Qed.

Lemma apply_enqueue_failed q e h w err w' :
  apply_enqueue q e h w = (Err err, w') → not_storage err → passes w w'.
Proof.
  intros H Hn. revert H. unfold apply_enqueue. unfold mbind at 1, IO_bind at 1.
  destruct (prepare_job_record _ _ _ w) as [[p|e1] w1] eqn:Ep;
    (assert (Hp1 : passes w w1) by (eapply still_passes; [apply still_prepare_job|done]));
    [|by intros [= _ <-]].
  unfold mbind at 1, IO_bind at 1, io_try at 1.
  destruct (offload (prepared_job p) w1) as [stored w2] eqn:Eo.
  assert (Hp2 : passes w1 w2) by (eapply still_passes; [apply still_offload|done]).
  destruct stored as [j|e1].
  - unfold mbind at 1, IO_bind at 1, mbind at 1, IO_bind at 1, io_try.
    destruct (retry _ _ w2) as [r w3] eqn:Er. intros [<- Hp3]%finish_write_end.
    etrans; [exact Hp1|]. etrans; [exact Hp2|]. etrans; [|exact Hp3].
    by eapply retry_failed; [apply enqueue_body_steady|exact Er|].
  - intros [_ Hp3]%finish_write_end. by do 2 (etrans; [done|]).
Qed.

(** The operation of an entry, before a permanent error becomes a rejection. *)
Definition entry_call (q : string) (h : InboxRecordHandle) (e : InboxEntry) : Q (InboxOutcome * list string) :=
  match e with
  | EntryEnqueue e => o ← apply_enqueue q e h; mret (o, [])
  | EntryCancel e => apply_cancel q e h
  | EntrySignal e => o ← apply_signal q e h; mret (o, [])
  end.

Lemma permanent_not_storage e : is_permanent e = true → not_storage e.
Proof. intros H s ->. discriminate H. Qed.

Lemma entry_call_failed q h e w err w' :
  entry_call q h e w = (Err err, w') → not_storage err → passes w w'.
Proof.
  assert (Hmap : ∀ (m : Q InboxOutcome), (o ← m; mret (o, @nil string)) w = (Err err, w') → m w = (Err err, w')).
  { intros m. unfold mbind, IO_bind. destruct (m w) as [[o|e1] w1]; [|by intros [= -> ->]].
    intros H. discriminate H. }
  destruct e as [e|e|e]; cbn [entry_call].
  - intros H%Hmap. by eapply apply_enqueue_failed.
  - apply apply_cancel_failed.
  - intros H%Hmap. by eapply apply_signal_failed.
Qed.

Lemma entry_call_effect q h e w o refs w' :
  world_ok w → entry_call q h e w = (Ok (o, refs), w') →
  effect_from w w' (applied_with_record h o (entry_applied w q e o refs)).
Proof.
  intros Hw. destruct e as [e|e|e]; cbn [entry_call].
  - intros (o1 & w2 & H & Er)%IO_bind_Ok. injection Er as <- <- <-. by apply apply_enqueue_effect.
  - by apply apply_cancel_effect.
  - intros (o1 & w2 & H & Er)%IO_bind_Ok. injection Er as <- <- <-. by apply apply_signal_effect.
Qed.

(** An application has its contract and its record in one change. *)
Lemma apply_entry_effect q h e w o refs w' :
  world_ok w → apply_entry q h e w = (Ok (o, refs), w') →
  effect_from w w' (applied_with_record h o (entry_applied w q e o refs)).
Proof.
  intros Hw H. unfold apply_entry in H. fold (entry_call q h e) in H.
  apply IO_bind_Ok in H as (r & w1 & E & H).
  unfold io_try in E. destruct (entry_call q h e w) as [r' w1'] eqn:Ec. injection E as -> ->.
  destruct r as [[o' refs']|err]; [injection H as -> -> <-; by apply entry_call_effect|].
  destruct (is_permanent err) eqn:Hperm; [|discriminate H].
  apply entry_call_failed in Ec; [|by apply permanent_not_storage].
  apply IO_bind_Ok in H as (o1 & w2 & H & Er). injection Er as -> <- <-.
  apply commit_rejection_effect in H as [-> He].
  apply (effect_from_around w w1 w2 w2); [done|done|]. eapply effect_from_mono; [|exact He].
  intros m0 m m' (m1 & Hm & ->). exists m1. split; [|done].
  assert (Hr : rejection_applied q e (of_permanent error_text err) m0 m m1).
  { split; [done|]. intros jq Ho. by destruct err. }
  by destruct e.
Qed.

(** An application that fails with an error of the code changed nothing. *)
Lemma apply_entry_failed q h e w err w' :
  apply_entry q h e w = (Err err, w') → not_storage err → passes w w'.
Proof.
  intros H Hn. unfold apply_entry in H. fold (entry_call q h e) in H.
  unfold mbind at 1, IO_bind at 1, io_try in H.
  destruct (entry_call q h e w) as [[[o refs]|e1] w1] eqn:Ec; [discriminate H|].
  destruct (is_permanent e1) eqn:Hperm; [|injection H as -> ->; by eapply entry_call_failed].
  apply entry_call_failed in Ec; [|by apply permanent_not_storage]. etrans; [exact Ec|].
  unfold mbind at 1, IO_bind at 1 in H.
  destruct (commit_rejection h _ w1) as [[o|e2] w2] eqn:Er; [discriminate H|]. injection H as -> ->.
  unfold commit_rejection, mbind at 1, IO_bind at 1 in Er.
  destruct (retry _ _ w1) as [[u|e3] w3] eqn:Et; [discriminate Er|]. injection Er as -> ->.
  by eapply retry_failed; [apply rejection_body_steady|exact Et|].
Qed.

(** ** The settlement of an entry *)

Definition record_key (e : PendingEntry) : bytes := inbox_record_key (pe_queue e) (pe_id e).

Lemma has_record_Ok e w b w' :
  has_record e w = (Ok b, w') →
  passes w w' ∧ (b : bool) = bool_decide (is_Some (contents (db (core w)) !! record_key e)).
Proof.
  intros H. split; [eapply still_passes, H; apply has_record_still|].
  apply IO_bind_Ok in H as (d & w2 & Ed & H). injection Ed as <- <-.
  apply IO_bind_Ok in H as (o & w3 & Eo & H). injection Eo as Eo _. injection H as <- _.
  by apply lift_Ok, db_get_law in Eo as ->.
Qed.

Lemma unreadable_Some q i e w r w' : unreadable q i e w = (Ok (Some r), w') → passes w w'.
Proof.
  unfold unreadable. intros (now & w1 & E1 & H)%IO_bind_Ok.
  assert (Hp : passes w w1) by (eapply still_passes, E1; apply still_now_ms).
  apply IO_bind_Ok in H as (d & w2 & E2 & H). injection E2 as _ <-.
  apply IO_bind_Ok in H as (b & w3 & E3 & H). injection E3 as _ <-.
  destruct (b ≫= read_u64_be); [by injection H as _ <-|].
  apply IO_bind_Ok in H as (u & w4 & _ & H). discriminate H.
Qed.

(** What an entry is settled with: its decoded body or its rejection, or nothing
    for an object that is gone. *)
Definition entry_decoded (s : InboxState) (e : PendingEntry) (prefetched : option EntryBody)
    : Q (option (result Rejection InboxEntry)) :=
  match entry_rejection s e with
  | Some r => mret (Some (Err r))
  | None =>
      body ← match prefetched with
        | Some body => mret body
        | None => get (λ c, read_object (pe_location e) (objects c))
        end;
      match body with
      | Body b => mret (Some (entry_decode (pe_kind e) b))
      | BodyRejected r => mret (Some (Err r))
      | BodyMissing => mret None
      | BodyFailed err =>
          r ← unreadable (pe_queue e) (pe_id e) err;
          match r with
          | Some r => mret (Some (Err r))
          | None => io_err (InboxStore err)
          end
      end
  end.

Lemma entry_decoded_Ok s e body w d w' : entry_decoded s e body w = (Ok d, w') → passes w w'.
Proof.
  unfold entry_decoded. destruct (entry_rejection s e); [by intros [= _ <-]|].
  intros (b & w1 & Eb & H)%IO_bind_Ok.
  assert (Hp : passes w w1) by (destruct body; by injection Eb as _ <-).
  destruct b; try by injection H as _ <-.
  apply IO_bind_Ok in H as (r & w2 & Er & H). destruct r as [r|]; [|discriminate H].
  injection H as _ <-. etrans; [done|]. by eapply unreadable_Some.
Qed.

(** A settled entry has its record, from before or by the one change of its
    settlement, unless its object was gone. *)
Lemma settle_entry_effect s e body w refs w' :
  world_ok w → settle_entry s e body w = (Ok refs, w') →
  is_Some (contents (db (core w)) !! record_key e) ∧ refs = [] ∧ passes w w' ∨
  contents (db (core w)) !! record_key e = None ∧
    ((∃ w1 w2, passes w w1 ∧ entry_decoded s e body w1 = (Ok None, w2)) ∧ refs = [] ∧ passes w w' ∨
     ∃ now o, effect_from w w' (applied_with_record (mkRecordHandle (pe_queue e) (pe_id e) now) o (λ _ _ _, True))).
Proof.
  intros Hw H. unfold settle_entry in H. apply IO_bind_Ok in H as (applied & w1 & Ea & H).
  apply has_record_Ok in Ea as [Hp1 Ha]. destruct applied.
  { symmetry in Ha. apply bool_decide_eq_true in Ha. injection H as <- <-. by left. }
  symmetry in Ha. apply bool_decide_eq_false, eq_None_not_Some in Ha. right. split; [done|].
  apply IO_bind_Ok in H as (now & w2 & En & H). apply IO_bind_Ok in H as ([] & w3 & Ey & H).
  assert (Hp3 : passes w w3).
  { etrans; [exact Hp1|]. etrans; [eapply still_passes, En; apply still_now_ms|]. by eapply yield_passes. }
  apply IO_bind_Ok in H as (d & w4 & Ed & H). fold (entry_decoded s e body) in Ed.
  assert (Hp4 : passes w w4) by (etrans; [exact Hp3|]; by eapply entry_decoded_Ok).
  destruct d as [[entry|r]|].
  - right. exists now. apply IO_bind_Ok in H as ([o refs'] & w5 & H & Er). injection Er as -> <-.
    apply apply_entry_effect in H; [|by eapply passes_ok]. exists o.
    apply (effect_from_around w w4 w5 w5); [done|done|]. eapply effect_from_mono; [|exact H].
    intros m0 m m' (m1 & _ & ->). by exists m1.
  - right. exists now. apply IO_bind_Ok in H as (o & w5 & H & Er). injection Er as <- <-.
    apply commit_rejection_effect in H as [-> He]. eexists.
    apply (effect_from_around w w4 w5 w5); [done|done|]. eapply effect_from_mono; [|exact He].
    intros m0 m m' (m1 & _ & ->). by exists m1.
  - left. injection H as <- <-. split; [by exists w3, w4|done].
Qed.

(** An entry that has its record is settled without an effect. *)
Lemma settle_entry_again s e body w r w' :
  is_Some (contents (db (core w)) !! record_key e) → settle_entry s e body w = (r, w') →
  passes w w' ∧ (not_storage (match r with Err err => err | Ok _ => InvalidState end) → r = Ok []).
Proof.
  intros Hr H. unfold settle_entry in H. unfold mbind at 1, IO_bind at 1 in H.
  destruct (has_record e w) as [[b|err] w1] eqn:Ea.
  - apply has_record_Ok in Ea as [Hp Hb]. rewrite bool_decide_eq_true_2 in Hb by done. subst b.
    by injection H as <- <-.
  - injection H as <- <-. split; [eapply still_passes, Ea; apply has_record_still|].
    intros Hn. exfalso. unfold has_record, mbind, IO_bind, get, io_gets, io_result in Ea. cbn in Ea.
    destruct (lift _) eqn:El; [discriminate Ea|]. injection Ea as -> _. by apply lift_storage in El.
Qed.

End applied.
