(* ===== verification/SessionOk.v ===== *)
(** * The open and the close finish, and the background tasks are consistent

    The open, with the recovery, the first pass over the inbox and the first beat,
    and the close return with a result or an error of the code. *)
From S2P Require Import Prelude Bytes Error Monad Keys Job Store Stats LeaseRegistry.
From S2P Require Import TimeBound ClaimCursor Completion Txn Stage Core QueueCore.
From S2P Require Import Control Effects Claim Settle Enqueue Sweeps.
From S2P Require Import InboxEntry Inbox Queue CoreInv StagedOps View Session OpsOk CallsOk Finishes.
From S2P Require Import InboxOk Recovery.

Section session_ok.
  Context {DB : SlateDb} {OS : ObjectStore} {SR : Serde JobRecord} {SA : Serde JobAttempt}.
  Context {SC : Serde CountRecord} {EN : Env} {ST : EntryStore} {IE : InboxEnv} {SS : StoreSession}.
  Context {SE : Serde EnqueueEntry} {SCa : Serde CancelEntry} {SSi : Serde SignalEntry}.
  Context {SI : Serde InboxRecord} {SCu : Serde CursorState} {SH : Serde HeartbeatRecord}.
  Context {DL : SlateDbLaws merge_batch}.

#[local] Set Default Proof Using "Type DL".

(** *** The cursor *)

Lemma raw_commit_finishes t : finishes (raw_commit t).
Proof.
  apply finishes_bind; [apply finishes_yield|]. intros _. apply finishes_bind; [done|]. intros d.
  by apply finishes_bind; [apply finishes_result, done_lift|].
Qed.

Lemma clean_put_cursor e : clean (put_cursor e).
Proof. apply clean_put. Qed.

Lemma persist_finishes : finishes persist_cursor_state.
Proof.
  unfold persist_cursor_state. apply finishes_bind; [done|]. intros [|e l]; [apply finishes_ret|].
  apply finishes_begin. intros t. apply finishes_staging; [apply clean_for_each, clean_put_cursor|].
  intros [u t']. apply raw_commit_finishes.
Qed.

Lemma restore_records_finishes records t : finishes (restore_records records t).
Proof.
  revert t. induction records as [|[key record] records IH]; intros t; [apply finishes_ret|].
  cbn [restore_records]. apply finishes_bind; [by destruct record as [[]|]|]. intros _.
  apply finishes_staging; [apply clean_delete|]. intros [u t']. apply IH.
Qed.

Lemma restore_cursor_finishes : finishes restore_cursor_state.
Proof.
  unfold restore_cursor_state. apply finishes_begin. intros t.
  apply finishes_bind; [apply finishes_result, done_lift|]. intros l.
  destruct (map cursor_record l); [apply finishes_ret|].
  apply finishes_bind; [apply restore_records_finishes|]. intros t'. apply raw_commit_finishes.
Qed.

Lemma recover_finishes : finishes recover.
Proof using DL.
  apply finishes_bind; [apply restore_cursor_finishes|]. intros _.
  apply finishes_bind; [apply scan_finishes|]. intros l. apply finishes_for_each. intros j.
  apply retry_finishes, requeue_steady.
Qed.

(** *** The heartbeat *)

(** The write of a beat, and a beat: its result is one of the code. *)
Lemma beat_write_finishes record : finishes (
  d ← get db; d ← io_result (lift (db_put d heartbeat_key record));
  upd (set_db d) ≫= λ _, await_durable).
Proof.
  apply finishes_bind; [done|]. intros d. apply finishes_bind; [apply finishes_result, done_lift|].
  intros d'. apply finishes_bind; [done|]. intros. apply await_finishes.
Qed.

Lemma finishes_beat {A} closed task (f : HeartbeatTask * Result () → Q A) :
  (∀ task r, done_result r → finishes (f (task, r))) → finishes (beat closed task ≫= f).
Proof.
  intros Hf w. unfold beat, mbind at 1, IO_bind at 1, mbind at 1, IO_bind at 1.
  destruct (still_now_ms w) as [Hn _]. destruct (now_ms w) as [[now|e] w1]; [|cbn in *; congruence].
  cbv zeta. set (record := encode _). pose proof (beat_write_finishes record w1) as Hr. revert Hr.
  set (m := get db ≫= _). intros Hr. unfold mbind at 1, IO_bind at 1, io_try.
  destruct (m w1) as [r w2]. by apply Hf.
Qed.

Lemma heartbeat_start_finishes interval : finishes (heartbeat_start interval).
Proof.
  unfold heartbeat_start. apply finishes_bind; [done|]. intros d.
  apply finishes_bind; [apply finishes_result, done_lift|]. intros b. apply finishes_bind.
  - destruct b as [b|]; [|apply finishes_ret].
    apply finishes_bind; [apply finishes_result, done_from_slice|]. intros. apply finishes_ret.
  - intros counter. apply finishes_beat. intros task r Hr.
    apply finishes_bind; [by apply finishes_result|]. intros. apply finishes_ret.
Qed.

Lemma open_finishes now heartbeat : finishes (open_queue now heartbeat).
Proof.
  apply finishes_bind; [apply recover_finishes|]. intros _. apply finishes_bind.
  - unfold inbox_open. destruct inbox_state as [s|]; [|apply finishes_ret].
    apply finishes_bind.
    + destruct (touch_poll_interval s); [|apply finishes_ret]. unfold seen_touch.
      apply finishes_bind; [apply finishes_try|]. intros. apply finishes_ret.
    + intros seen. apply finishes_bind; [apply inbox_pass_finishes|]. intros. apply finishes_ret.
  - intros inbox. apply finishes_bind; [|intros; apply finishes_ret].
    destruct heartbeat; [|apply finishes_ret].
    apply finishes_bind; [apply heartbeat_start_finishes|]. intros. apply finishes_ret.
Qed.

Lemma close_finishes heartbeat : finishes (close_queue heartbeat).
Proof.
  apply finishes_bind.
  - destruct heartbeat as [task|]; [|apply finishes_ret].
    apply finishes_beat. intros. apply finishes_ret.
  - intros _. apply finishes_bind; [apply finishes_try|]. intros r.
    apply finishes_bind; [done|]. intros d. apply finishes_result, done_lift.
Qed.
(** *** The background tasks *)

Lemma spawn_periodic_ok {T} (step : T → Q (T * Result ())) ticks task :
  (∀ task, preserves world_ok (step task)) → preserves world_ok (spawn_periodic step ticks task).
Proof.
  intros Hs. revert task. induction ticks as [|n IH]; intros task; [apply preserves_ret|].
  cbn [spawn_periodic]. apply preserves_bind; [apply yield_ok|]. intros _.
  apply preserves_bind; [apply Hs|]. intros [task' r]. apply IH.
Qed.

Lemma reaper_task_ok ret ticks : preserves world_ok (reaper_task ret ticks).
Proof.
  apply spawn_periodic_ok. intros _. apply preserves_bind; [apply preserves_try, reaper_step_ok|].
  intros r. apply preserves_ret.
Qed.

Lemma scheduler_task_ok ticks : preserves world_ok (scheduler_task ticks).
Proof.
  apply spawn_periodic_ok. intros _. apply preserves_bind; [apply preserves_try, promote_due_jobs_ok|].
  intros r. apply preserves_ret.
Qed.
End session_ok.
