(* ===== verification/Process.v ===== *)
(** * The process: any calls, interleaved

    The calls of the handle and of the background tasks as one type, the process
    in which a call runs with other calls in between, and the invariant of every
    process state that is reached. *)
From S2P Require Import Prelude Bytes Error Monad Keys Job Store Stats LeaseRegistry.
From S2P Require Import TimeBound ClaimCursor Completion Txn Stage StoreInv Sound Core.
From S2P Require Import QueueCore Control Effects Claim Settle Enqueue.
From S2P Require Import Sweeps InboxEntry Inbox Queue CoreInv StagedOps View Session.
From S2P Require Import OpsOk CallsOk Finishes InboxOk Linear Outcomes Recovery.

(** The calls of the handle, of the worker loop and of the background tasks. The
    pass over the inbox is its steps: the application or the rejection of an entry,
    the note of a failed read, and the removal of the notes. *)
Inductive Call :=
| CEnqueue (q : string) (pl : bytes) (opts : EnqueueOptions)
| CEnqueueEffects (q : string) (pl : bytes) (opts : EnqueueOptions) (e : SettlementEffects)
| CEnqueueBatch (q : string) (pls : list bytes)
| CCommitEffects (e : SettlementEffects)
| CClaimBatch (q : string) (n : nat) (lease : Duration)
| CClaimWait (waits : nat) (q : string) (lease : Duration)
| CClaimById (jid : string) (lease : Duration)
| CAck (claim : Claim) (e : SettlementEffects)
| CNack (claim : Claim) (error : string) (e : SettlementEffects)
| CDeadLetter (claim : Claim) (reason : string) (e : SettlementEffects)
| CProcess (to_string : Error → string) (claim : Claim) (o : WorkerOutcome)
| CRenew (claim : Claim) (extension : Duration)
| CEnsure (claim : Claim) (remaining : Duration)
| CCancel (jid : string) (e : SettlementEffects)
| CWake (jid : string)
| CSignal (jid : string) (pl : bytes)
| CRequeueDead (jid : string)
| CGetJob (jid : string)
| CCompletion (jid : string)
| CKvPut (k v : bytes)
| CKvDelete (k : bytes)
| CKvCompareDelete (k expected : bytes)
| CKvComparePut (k : bytes) (expected : option bytes) (v : bytes)
| CPromote
| CReap (inbox_retention : Duration)
| CApplyEntry (q : string) (record : InboxRecordHandle) (e : InboxEntry)
| CRejectEntry (record : InboxRecordHandle) (r : Rejection)
| CUnreadable (q : QueueName) (i : string) (e : ObjectStoreError)
| CClearFailures
| CStoreClosed.

(** The requests a call prepares, in the order of their generated ids. *)
Definition call_requests (c : Call) : list EnqueueRequest :=
  match c with
  | CEnqueue q pl opts => [mkRequest q pl opts]
  | CEnqueueEffects q pl opts e => mkRequest q pl opts :: enqueues e
  | CEnqueueBatch q pls => map (λ p, mkRequest q p options_default) pls
  | CCommitEffects e | CAck _ e | CNack _ _ e | CDeadLetter _ _ e | CCancel _ e => enqueues e
  | CApplyEntry q _ e => entry_requests q e
  | CProcess _ _ (WorkerOk e) | CProcess _ _ (WorkerFailed _ _ e) => enqueues e
  | _ => []
  end.

Section process.
  Context {DB : SlateDb} {OS : ObjectStore} {SR : Serde JobRecord} {SA : Serde JobAttempt}.
  Context {SC : Serde CountRecord} {EN : Env} {IE : InboxEnv} {SI : Serde InboxRecord}.

Definition void {A} (m : Q A) : Q () := m ≫= λ _, mret tt.

Definition run_call (c : Call) : Q () :=
  match c with
  | CEnqueue q pl opts => void (enqueue_with q pl opts)
  | CEnqueueEffects q pl opts e => void (enqueue_with_effects q pl opts e)
  | CEnqueueBatch q pls => void (enqueue_batch q pls)
  | CCommitEffects e => void (commit_effects e)
  | CClaimBatch q n lease => void (claim_batch q n lease)
  | CClaimWait waits q lease => void (claim_with_wait waits q lease)
  | CClaimById jid lease => void (claim_by_id jid lease)
  | CAck claim e => void (ack_with claim e)
  | CNack claim error e => void (nack_with claim error e)
  | CDeadLetter claim reason e => void (dead_letter_with claim reason e)
  | CProcess ts claim o => process_and_settle ts claim o
  | CRenew claim ext => void (renew_lease claim ext)
  | CEnsure claim remaining => ensure_at_least claim remaining
  | CCancel jid e => void (cancel_with jid e)
  | CWake jid => void (wake_scheduled jid)
  | CSignal jid pl => void (signal_job jid pl)
  | CRequeueDead jid => requeue_dead_job jid
  | CGetJob jid => void (view_get_job jid)
  | CCompletion jid => void (completion jid)
  | CKvPut k v => kv_put k v
  | CKvDelete k => kv_delete k
  | CKvCompareDelete k expected => void (kv_compare_delete k expected)
  | CKvComparePut k expected v => void (kv_compare_put k expected v)
  | CPromote => promote_due_jobs
  | CReap retention => reaper_step retention
  | CApplyEntry q record e => void (apply_entry q record e)
  | CRejectEntry record r => void (commit_rejection record r)
  | CUnreadable q i e => void (unreadable q i e)
  | CClearFailures => clear_inbox_failures
  | CStoreClosed => watch_store_close
  end.

(** A call with the calls that other tasks run at its yields, each with the calls
    that run inside of it. *)
Inductive Run := mkRun (call : Call) (during : list Run).

Fixpoint exec (r : Run) (c : Core) : Core :=
  match r with mkRun call during => core (run_call call (mkWorld c (map exec during))).2 end.

(** The calls of a run that generate no id, and the ids that its calls supply. *)
Fixpoint supplied (r : Run) : Prop :=
  match r with
  | mkRun call during =>
      ids_needed (call_requests call) = 0 ∧ foldr (λ r P, supplied r ∧ P) True during
  end.

Fixpoint supplies (r : Run) (i : string) : Prop :=
  match r with
  | mkRun call during =>
      (∃ r, r ∈ call_requests call ∧ opt_id_override (req_options r) = Some i) ∨
      foldr (λ r P, supplies r i ∨ P) False during
  end.

(** An id that the generator does not return after its first [n] draws. *)
Definition issued (n : nat) (i : string) : Prop :=
  ∀ m a, i = ulid_string (ulid_generate m a) → m < n.

Context {DL : SlateDbLaws merge_batch} {UL : UlidLaws}.

Section calls_ok.
Context {CI : Invariant}.

Lemma world_ok_void {A} (m : Q A) w : world_ok (m w).2 → world_ok (void m w).2.
Proof using DL. intros H. apply world_ok_bind; [done|]. intros. apply preserves_ret. Qed.

(** Every call, from a process that satisfies the invariant, with other tasks
    that preserve it: the ids it generates have to be new. *)
Lemma run_call_ok call w :
  world_ok w → fresh_under (call_requests call) w → world_ok (run_call call w).2.
Proof using DL UL.
  intros Hw Hf. destruct call; cbn [run_call call_requests] in *;
    lazymatch goal with |- world_ok (void _ _).2 => apply world_ok_void | _ => idtac end.
  - by apply enqueue_with_ok.
  - by apply enqueue_with_effects_ok.
  - by apply enqueue_batch_ok.
  - by apply commit_effects_ok.
  - by apply claim_batch_ok.
  - by apply claim_with_wait_ok.
  - by apply claim_by_id_ok.
  - by apply ack_with_ok.
  - by apply nack_with_ok.
  - by apply dead_letter_with_ok.
  - apply process_and_settle_ok; [|done]. intros e [->|(b & m & ->)]; done.
  - by apply renew_lease_ok.
  - by apply ensure_at_least_ok.
  - by apply cancel_with_ok.
  - by apply wake_scheduled_ok.
  - by apply signal_job_ok.
  - by apply requeue_dead_job_ok.
  - by apply view_get_job_ok.
  - by apply completion_ok.
  - by apply kv_put_ok.
  - by apply kv_delete_ok.
  - by apply kv_compare_delete_ok.
  - by apply kv_compare_put_ok.
  - by apply promote_due_jobs_ok.
  - by apply reaper_step_ok.
  - by apply apply_entry_ok.
  - by apply commit_rejection_ok.
  - by apply unreadable_ok.
  - by apply clear_inbox_failures_ok.
  - by apply watch_store_close_ok.
Qed.

End calls_ok.

(** Every call returns, with its result or with an error of the code: the fuel of
    its retries is enough, whatever the other tasks do. *)
Lemma run_call_finishes call : finishes (run_call call).
Proof using DL.
  assert (Hv : ∀ A (m : Q A), finishes m → finishes (void m)).
  { intros A m Hm. apply finishes_bind; [done|intros; apply finishes_ret]. }
  destruct call; cbn [run_call];
    lazymatch goal with |- finishes (void _) => apply Hv | _ => idtac end.
  - apply enqueue_with_finishes.
  - apply enqueue_effects_finishes.
  - apply enqueue_batch_finishes.
  - apply commit_effects_finishes.
  - apply claim_batch_finishes.
  - apply claim_with_wait_finishes.
  - apply claim_by_id_finishes.
  - apply ack_finishes.
  - apply nack_finishes.
  - apply dead_letter_finishes.
  - apply process_finishes.
  - apply renew_finishes.
  - apply ensure_finishes.
  - apply cancel_finishes.
  - apply wake_finishes.
  - apply signal_finishes.
  - apply requeue_dead_finishes.
  - apply get_job_finishes.
  - apply completion_finishes.
  - apply kv_put_finishes.
  - apply kv_delete_finishes.
  - apply kv_compare_delete_finishes.
  - apply kv_compare_put_finishes.
  - apply promote_finishes.
  - apply reaper_finishes.
  - apply apply_entry_finishes.
  - apply commit_rejection_finishes.
  - apply unreadable_finishes.
  - apply clear_inbox_failures_finishes.
  - apply store_closed_finishes.
Qed.

(** *** The ids in use

    An id that the generator is yet to return is not in use, and no call takes an
    id into use but those it supplies and those the generator returns to it. *)
Definition ids_issued (c : Core) : Prop := ∀ i, in_use c i → issued (job_ids c) i.

Lemma issued_le n n' i : n ≤ n' → issued n i → issued n' i.
Proof. intros Hn Hi m a E. specialize (Hi m a E). lia. Qed.

Lemma generated_issued n k i : generated n k i → issued (n + k) i.
Proof using UL. intros (m & a & Hm & ->) m' a' E%ulid_inj. lia. Qed.

Lemma issued_generated n n' k i : issued n i → n ≤ n' → ¬ generated n' k i.
Proof. intros Hi Hn (m & a & Hm & ->). specialize (Hi m a eq_refl). lia. Qed.

(** A claim id that the generator does not make after its first [n] ULIDs. *)
Definition claim_issued (n : nat) (z : Z) : Prop := ∀ m, z = wrap64 (ulid_new m) → m < n.

Lemma claim_issued_le n n' z : n ≤ n' → claim_issued n z → claim_issued n' z.
Proof. intros Hn Hz m E. specialize (Hz m E). lia. Qed.

(** What other tasks are asked to leave: ids that are not in use, of the [drawn] first
    ones, and claims that do not hold the lease of a job, of the [claims] first ULIDs. *)
Record scope := mkScope {
  unused : string → Prop;
  drawn : nat;
  retired : JobKey → Z → Prop;
  claims : nat;
}.

(** The ids that are supplied and those of the scope were drawn, and are different. *)
Record scope_ok (S : string → Prop) (sc : scope) : Prop := {
  scope_unused i : unused sc i → issued (drawn sc) i ∧ ¬ S i;
  scope_supplied i : S i → issued (drawn sc) i;
  scope_retired k z : retired sc k z → claim_issued (claims sc) z;
}.

(** Consistency, within a scope. *)
Record framed (sc : scope) (c : Core) : Prop := {
  framed_ok : core_ok c;
  framed_ids : ids_issued c;
  framed_absent : absent (unused sc) c;
  framed_drawn : drawn sc ≤ job_ids c;
  framed_leases k e : by_job (lease_registry c) !! k = Some e → ¬ retired sc k (entry_claim_id e);
  framed_claims : claims sc ≤ ulids c;
}.

Lemma framed_step sc c c' :
  framed sc c → core_ok c' → advances (λ z, ∀ k, ¬ retired sc k z) c c' →
  (∀ i, in_use c' i → in_use c i ∨ issued (job_ids c') i ∧ ¬ unused sc i) → framed sc c'.
Proof.
  intros [Hc Hids Ha Hd Hl Hu] Hc' [Hn Hun Hle] Hi. constructor; [done|..|lia| |lia].
  - intros i [Hu'|[Hu' _]]%Hi; [|done]. by eapply issued_le, Hids.
  - intros i HX. apply eq_None_not_Some. intros [[b Hb]|[_ Hu']]%Hi; [|done]. by rewrite Ha in Hb.
  - intros k e' [HU|(e & He & <-)]%Hle; [apply HU|by eapply Hl].
Qed.

(** A function that takes no id into use but those of [S] and those that the
    generator returns to it, and leases with no claim id but those it makes. *)
Definition frames (S : string → Prop) (f : Core → Core) : Prop :=
  ∀ sc, scope_ok S sc → ∀ c, framed sc c → framed sc (f c).

Lemma frames_mono (S S' : string → Prop) f : (∀ i, S i → S' i) → frames S f → frames S' f.
Proof.
  intros HS Hf sc [H1 H2 H3] c Hc. apply Hf; [|done]. constructor; [|auto|done].
  intros i [? HnS]%H1. split; [done|]. auto.
Qed.

(** That as an invariant among such functions. *)
Record frame (S : string → Prop) := mkFrame { frame_scope : scope; frame_ok : scope_ok S frame_scope }.
Arguments mkFrame {_} _ _.
Arguments frame_scope {_} _.
Arguments frame_ok {_} _.

Program Definition inv_framed {S} (F : frame S) : Invariant :=
  {| inv := framed (frame_scope F); peer := frames S; usable z := ∀ k, ¬ retired (frame_scope F) k z |}.
Next Obligation. by intros S F c []. Qed.
Next Obligation.
  intros S F c Hc k Hr. pose proof (scope_retired _ _ (frame_ok F) _ _ Hr (ulids c) eq_refl).
  pose proof (framed_claims _ _ Hc). lia.
Qed.
Next Obligation. intros S F c c' Hc Hc' Ha Hi. eapply framed_step; [done..|]. intros i Hu. left. by apply Hi. Qed.
Next Obligation. intros S F f c Hf. apply Hf, frame_ok. Qed.

(** The ids that a call draws join those that are not in use until it commits. *)
Definition generated_scope (sc : scope) (n k : nat) : scope :=
  mkScope (λ i, unused sc i ∨ generated n k i) (n + k) (retired sc) (claims sc).

Program Definition frame_generated {S} (F : frame S) (n k : nat) (Hn : drawn (frame_scope F) ≤ n) : frame S :=
  mkFrame (generated_scope (frame_scope F) n k) _.
Next Obligation.
  intros S [sc [H1 H2 H3]] n k Hn. cbn in Hn. constructor; cbn; [| |exact H3].
  - intros i [[Hi ?]%H1|Hg].
    + split; [|done]. eapply issued_le; [|done]. lia.
    + split; [by apply generated_issued|]. intros Hi%H2. by eapply issued_generated, Hg.
  - intros i Hi%H2. eapply issued_le; [|done]. lia.
Qed.

(** The reliance of a call among such functions. *)
Lemma fresh_under_framed {S} (F : frame S) rs w :
  (∀ r i, r ∈ rs → opt_id_override (req_options r) = Some i → S i) →
  world_ok (CI := inv_framed F) w → fresh_under (CI := inv_framed F) rs w.
Proof using UL.
  intros Hsup Hw. set (n0 := job_ids (core w)). set (k := ids_needed rs).
  destruct Hw as [Hc Ho]. pose proof (framed_drawn _ _ Hc) as Hn. fold n0 in Hn.
  destruct (frame_ok F) as [HX HS Hret].
  assert (Hr : ∀ r i, r ∈ rs → opt_id_override (req_options r) = Some i → ¬ generated n0 k i).
  { intros r i Hin E. eapply issued_generated; [|exact Hn]. by eapply HS, Hsup. }
  split; [exact Hr|]. split; [done|].
  exists (mkRely (inv_framed (frame_generated F n0 k Hn))). split_and!.
  - intros c Hc' i Hi. apply (framed_absent _ _ Hc'). by right.
  - intros c c' Hc1 HcJ Hc' En Eu Er Hi. cbn in *.
    pose proof (framed_drawn _ _ HcJ) as HnJ. pose proof (framed_drawn _ _ Hc1) as Hn1. cbn in HnJ.
    eapply framed_step; [exact Hc1|done|apply advances_same; [done|by rewrite En|by rewrite Eu]|].
    intros i [Hu|[(r & Hin & E)|Hg]]%Hi; [by left|right..].
    + pose proof (Hsup r i Hin E) as HSi. split; [|by intros [_ HnS]%HX].
      eapply issued_le; [|by apply HS]. lia.
    + split; [eapply issued_le; [|by eapply generated_issued]; lia|].
      intros [Hx _]%HX. by eapply issued_generated, Hg.
  - intros w' (Ed & Er & Eo & En & Eu). split; [|by rewrite Eo].
    destruct Hc as [[Hs Hct Hrg] Hids Ha Hd Hl Hcl]. constructor.
    + constructor; by rewrite ?Ed, ?Er.
    + intros i Hu. unfold in_use in Hu. rewrite Ed in Hu. eapply issued_le, Hids, Hu. fold n0. lia.
    + intros i [Hi|Hg]; rewrite Ed; [by apply Ha|]. apply eq_None_not_Some. intros Hu.
      by eapply (issued_generated n0), Hg; [apply Hids|].
    + done.
    + intros k' e. rewrite Er. apply Hl.
    + cbn. lia.
Qed.

(** *** A process in which tasks run

    The others take no id into use but those of [S] and those they generate. *)
Record framed_world (S : string → Prop) (w : World) : Prop := {
  framed_world_core : core_ok (core w);
  framed_world_ids : ids_issued (core w);
  framed_world_supplied i : S i → issued (job_ids (core w)) i;
  framed_world_others : Forall (frames S) (others w);
}.

(** The scope of the claims [R] that hold no lease of the process. *)
Definition scope_of (R : JobKey → Z → Prop) (n m : nat) : scope := mkScope (λ _, False) n R m.

Program Definition frame_of {S} (R : JobKey → Z → Prop) w (Hw : framed_world S w)
    (HR : ∀ k z, R k z → claim_issued (ulids (core w)) z) : frame S :=
  mkFrame (scope_of R (job_ids (core w)) (ulids (core w))) _.
Next Obligation.
  intros S R w [] HR. constructor; cbn.
  - done.
  - done.
  - exact HR.
Qed.

Lemma framed_world_ok {S} R w (Hw : framed_world S w) HR :
  (∀ k e, by_job (lease_registry (core w)) !! k = Some e → ¬ R k (entry_claim_id e)) →
  world_ok (CI := inv_framed (frame_of R w Hw HR)) w.
Proof. intros Hl. split; [|apply Hw]. constructor; [apply Hw|apply Hw|by intros i|done|exact Hl|done]. Qed.

(** Whatever keeps every invariant keeps that, and takes back no ULID. *)
Lemma framed_world_advances {S A} rs (m : Q A) w :
  (∀ CI : Invariant, world_ok w → fresh_under rs w → world_ok (m w).2) →
  (∀ r i, r ∈ rs → opt_id_override (req_options r) = Some i → S i) →
  framed_world S w → framed_world S (m w).2 ∧ ulids (core w) ≤ ulids (core (m w).2).
Proof using UL.
  intros Hm Hsup Hw. pose proof (framed_world_ok (λ _ _, False) w Hw ltac:(done) ltac:(auto)) as Hf.
  destruct (Hm _ Hf) as [[Hc Hids _ Hn _ Hu] Ho]; [by apply fresh_under_framed|].
  split; [|exact Hu]. constructor; [done|done| |done]. intros i Hi. eapply issued_le; [exact Hn|].
  by apply (framed_world_supplied _ _ Hw).
Qed.

Lemma framed_world_keeps {S A} rs (m : Q A) w :
  (∀ CI : Invariant, world_ok w → fresh_under rs w → world_ok (m w).2) →
  (∀ r i, r ∈ rs → opt_id_override (req_options r) = Some i → S i) →
  framed_world S w → framed_world S (m w).2.
Proof using UL. intros Hm Hsup Hw. by eapply framed_world_advances. Qed.

(** A run takes no other id into use than those its calls supply. *)
Lemma exec_frames r : frames (supplies r) (exec r).
Proof using DL UL.
  revert r. fix IH 1. intros [call during] sc Hsc c Hc. cbn [exec].
  assert (Ho : Forall (frames (supplies (mkRun call during))) (map exec during)).
  { clear -IH. cbn [supplies].
    set (P (i : string) := ∃ r : EnqueueRequest, r ∈ call_requests call ∧ opt_id_override (req_options r) = Some i).
    clearbody P.
    induction during as [|r rs IHr]; cbn; [constructor|]. constructor.
    - eapply frames_mono, IH. auto.
    - eapply Forall_impl; [exact IHr|]. intros f. apply frames_mono. intros i [?|?]; auto. }
  set (F := mkFrame sc Hsc).
  assert (Hw : world_ok (CI := inv_framed F) (mkWorld c (map exec during))) by by split.
  apply (run_call_ok (CI := inv_framed F) call _ Hw), fresh_under_framed; [|done].
  intros r i Hr E. cbn. left. by exists r.
Qed.

(** A settlement of a claim whose lease no state of the process has is refused. *)
Lemma settle_claim_lost {CI : Invariant} claim e ef w :
  world_ok w →
  (∀ c, inv CI c → snd <$> lease_current (queue (job claim)) (id (job claim)) (lease_registry c) ≠ Some (claim_id claim)) →
  ∃ err w', settle_claim claim e ef w = (Err err, w').
Proof using DL.
  intros Hw Hl. unfold settle_claim, mbind at 1, IO_bind at 1.
  pose proof (quiet_ok _ (quiet_prepare_effects e) w Hw) as Hw1.
  destruct (prepare_effects e w) as [[p|err] w1]; [|by eexists _, _]. cbn [snd] in Hw1.
  assert (Ht : ∃ err w2, settle_txn claim p ef w1 = (Err err, w2)).
  { destruct (settle_txn claim p ef w1) as [[v|err] w2] eqn:E; [exfalso|by eexists _, _].
    unfold settle_txn, retry in E. cbn [retry_loop] in E. apply IO_bind_Ok in E as (t & w3 & Eb & E).
    pose proof (begin_same _ _ _ Eb) as ->. apply IO_bind_Ok in E as (u & w3 & Ey & E).
    pose proof (yield_ok w1 Hw1) as Hw3. rewrite Ey in Hw3. cbn [snd] in Hw3.
    apply IO_bind_Ok in E as ([att t'] & w4 & E & _). apply IO_bind_Ok in E as (reg & w5 & Er & E).
    injection Er as <- <-. apply IO_bind_Ok in E as ([j t1] & w6 & [E1 _]%staging_Ok & _).
    apply take_claim_Ok in E1 as ([le Hle] & _). apply (Hl (core w3)); [apply Hw3|by rewrite Hle]. }
  destruct Ht as (err & w2 & Ht). unfold mbind at 1, IO_bind at 1, io_try. rewrite Ht.
  unfold mbind at 1, IO_bind at 1. destruct (finish_effects p None w2) as [[rs|err'] w3] eqn:Ef; by eexists _, _.
Qed.

(** A run of calls that generate no id keeps consistency, whatever ids they supply. *)
Lemma exec_ok r : supplied r → ∀ c, core_ok c → core_ok (exec r c).
Proof using DL UL.
  revert r. fix IH 1. intros [call during] [Hids Hd] c Hc. cbn [exec].
  assert (Ho : Forall (λ f, ∀ c, core_ok c → core_ok (f c)) (map exec during)).
  { revert Hd. clear -IH. induction during as [|r rs IHr]; cbn; intros Hd; [constructor|].
    destruct Hd as [Hr Hrs]. constructor; [by apply IH|by apply IHr]. }
  assert (Hw : world_ok (mkWorld c (map exec during))) by by split.
  apply (run_call_ok call _ Hw). by apply fresh_for_under, fresh_for_supplied.
Qed.

(** The states a process reaches from an empty store, and the processes after it that
    open its store. A run of calls, with other calls at the yields of each, generates
    ids as it likes; the ids it supplies are none that the generator returns later.
    What an open finds is what an earlier state left, whether its process closed the
    store or ended; the generator of the process that opens does not repeat an id;
    and the open is its recovery, before any other call. *)
Context {SCu : Serde CursorState}.

Inductive reachable : Core → Prop :=
| reachable_new c :
    contents (db c) = ∅ → lease_registry c = registry_new → reachable c
| reachable_run r c :
    reachable c → (∀ i, supplies r i → issued (job_ids c) i) → reachable (exec r c)
| reachable_open c c' w :
    reachable c → contents (db c') = contents (db c) → lease_registry c' = registry_new →
    job_ids c ≤ job_ids c' → recover (mkWorld c' []) = (Ok tt, w) → reachable (core w).

Lemma core_ok_new c : contents (db c) = ∅ → lease_registry c = registry_new → core_ok c.
Proof using DL.
  intros Ed Er. constructor; rewrite ?Ed, ?Er.
  - apply store_ok_empty.
  - apply counters_ok_empty.
  - apply registry_new_wf.
Qed.

Lemma reachable_framed c : reachable c → core_ok c ∧ ids_issued c.
Proof using DL UL.
  induction 1 as [c Ed Er|r c _ [Hc Hi] Hs|c c' w _ [Hc Hids] Ed Er Hn H].
  - split; [by apply core_ok_new|]. intros i [b Hb]. by rewrite Ed, lookup_empty in Hb.
  - set (sc := scope_of (λ _ _, False) (job_ids c) (ulids c)).
    assert (Hf : framed sc c) by (constructor; [done|done|by intros j|done|by intros k e _ []|done]).
    assert (Hsc : scope_ok (supplies r) sc) by (constructor; [done|exact Hs|done]).
    by destruct (exec_frames r sc Hsc c Hf) as [? ? _ _ _ _].
  - destruct Hc as [Hs Hc _]. assert (Hw : world_ok (mkWorld c' [])).
    { split; [|constructor]. constructor; cbn; rewrite ?Ed, ?Er; [done|done|apply registry_new_wf]. }
    destruct (recover_Ok _ _ _ Hw eq_refl H) as ([Hc' _] & _ & Hr). split; [done|].
    intros i Hu. eapply issued_le; [|apply Hids].
    + etrans; [exact Hn|]. by eapply recover_drawn.
    + unfold in_use in *. rewrite <- Ed. cbn in Hr. eapply recovering_in_use; [apply Hc'|exact Hr|exact Hu].
Qed.

Lemma reachable_ok c : reachable c → core_ok c.
Proof using DL UL. by intros [? _]%reachable_framed. Qed.

End process.
