(* ===== verification/MemStore.v ===== *)
(** * Instances of the interfaces

    A store in memory with snapshot transactions, an encoding of the records, an
    object store and a clock: instances of what the development takes as a
    parameter, which satisfy the laws it assumes and which the examples run on. *)
From S2P Require Import Prelude Bytes Error Monad Keys Job Store Stats.
From S2P Require Import LeaseRegistry TimeBound ClaimCursor Completion Txn Stage StoreInv Sound.
From S2P Require Import Core QueueCore Control Effects Claim Settle Enqueue Sweeps.
From S2P Require Import InboxEntry Inbox Queue CoreInv StagedOps View Session OpsOk.
From S2P Require Import CallsOk Finishes Linear Outcomes Process.
From stdpp Require Import sorting pretty.
From Stdlib Require Import Ascii.

(** ** Encodings

    A value is encoded as the digits of its code, ended by a marker byte. *)
Abbreviation enc := countable.encode.

Fixpoint pos_bytes (p : positive) : bytes :=
  match p with xH => [2%Z] | xO p => 0%Z :: pos_bytes p | xI p => 1%Z :: pos_bytes p end.

Fixpoint pos_of_bytes (b : bytes) : option (positive * bytes) :=
  match b with
  | [] => None
  | x :: b =>
      if (x =? 2)%Z then Some (xH, b)
      else '(p, rest) ← pos_of_bytes b;
           if (x =? 0)%Z then Some (xO p, rest) else if (x =? 1)%Z then Some (xI p, rest) else None
  end.

Lemma pos_of_bytes_app p rest : pos_of_bytes (pos_bytes p ++ rest) = Some (p, rest).
Proof. induction p as [p IH|p IH|]; cbn; by rewrite ?IH. Qed.

Definition code_ser {A} (code : A → list positive) (a : A) : bytes := pos_bytes (enc (code a)).

Definition code_de {A} (uncode : list positive → option A) (b : bytes) : option (A * bytes) :=
  '(p, rest) ← pos_of_bytes b; l ← decode p; a ← uncode l; Some (a, rest).

Definition serde_of_code {A} (code : A → list positive) (uncode : list positive → option A)
    (uncode_code : ∀ a, uncode (code a) = Some a) : Serde A.
Proof.
  refine {| ser := code_ser code; de := code_de uncode |}.
  - intros a rest. unfold code_de, code_ser. rewrite pos_of_bytes_app. cbn.
    by rewrite decode_encode; cbn; rewrite uncode_code.
  - intros a. unfold code_ser. by destruct (enc (code a)).
Defined.

Definition job_code (j : JobRecord) : list positive :=
  [enc (id j); enc (queue j); enc (payload j); enc (payload_ref j); enc (headers j);
   enc (status j); enc (attempts j); enc (max_attempts j); enc (enqueued_at j);
   enc (claimed_at j); enc (run_at j); enc (signal j); enc (signal_wait j);
   enc (count_wait j); enc (priority j); enc (last_error j); enc (dedup_key j);
   enc (completed_at j); enc (failed_at j); enc (cancel_requested j)].

Definition job_uncode (l : list positive) : option JobRecord :=
  match l with
  | [a; b; c; d; e; f; g; h; i; j; k; l; m; n; o; p; q; r; s; t] =>
      a ← decode a; b ← decode b; c ← decode c; d ← decode d; e ← decode e; f ← decode f;
      g ← decode g; h ← decode h; i ← decode i; j ← decode j; k ← decode k; l ← decode l;
      m ← decode m; n ← decode n; o ← decode o; p ← decode p; q ← decode q; r ← decode r;
      s ← decode s; t ← decode t;
      Some (mkJob a b c d e f g h i j k l m n o p q r s t)
  | _ => None
  end.

Lemma job_uncode_code j : job_uncode (job_code j) = Some j.
Proof.
  unfold job_code, job_uncode. rewrite decode_encode. cbn [mbind option_bind].
  do 19 (rewrite decode_encode; cbn [mbind option_bind]). by destruct j.
Qed.

#[global] Instance job_serde : Serde JobRecord := serde_of_code job_code job_uncode job_uncode_code.

#[global] Instance AttemptOutcome_eq_dec : EqDecision AttemptOutcome.
Proof. solve_decision. Defined.
#[global] Instance AttemptOutcome_countable : Countable AttemptOutcome.
Proof.
  apply (inj_countable'
    (λ o, match o with OCompleted => 0 | ORetried => 1 | ODeadLettered => 2 | OLeaseExpired => 3
                     | OInterrupted => 4 | ORequeued => 5 end)
    (λ n, match n with 0 => OCompleted | 1 => ORetried | 2 => ODeadLettered | 3 => OLeaseExpired
                     | 4 => OInterrupted | _ => ORequeued end)).
  by intros [].
Defined.

Definition attempt_code (a : JobAttempt) : list positive :=
  [enc (attempt a); enc (attempt_claimed_at a); enc (recorded_at a); enc (outcome a);
   enc (attempt_error a)].
Definition attempt_uncode (l : list positive) : option JobAttempt :=
  match l with
  | [a; b; c; d; e] =>
      a ← decode a; b ← decode b; c ← decode c; d ← decode d; e ← decode e; Some (mkAttempt a b c d e)
  | _ => None
  end.
Lemma attempt_uncode_code a : attempt_uncode (attempt_code a) = Some a.
Proof.
  unfold attempt_code, attempt_uncode. rewrite decode_encode. cbn [mbind option_bind].
  do 4 (rewrite decode_encode; cbn [mbind option_bind]). by destruct a.
Qed.
#[global] Instance attempt_serde : Serde JobAttempt :=
  serde_of_code attempt_code attempt_uncode attempt_uncode_code.

Definition count_code (c : CountRecord) : list positive := [enc (active c); enc (waiter c)].
Definition count_uncode (l : list positive) : option CountRecord :=
  match l with [a; b] => a ← decode a; b ← decode b; Some (mkCount a b) | _ => None end.
Lemma count_uncode_code c : count_uncode (count_code c) = Some c.
Proof.
  unfold count_code, count_uncode. rewrite decode_encode. cbn [mbind option_bind].
  rewrite decode_encode. by destruct c.
Qed.
#[global] Instance count_serde : Serde CountRecord :=
  serde_of_code count_code count_uncode count_uncode_code.

#[global] Instance ScanFrom_countable : Countable ScanFrom.
Proof.
  apply (inj_countable' (λ s, (sf_key s, inclusive s)) (λ x, mkScanFrom x.1 x.2)). by intros [].
Defined.
Definition cursor_code (c : CursorState) : list positive :=
  [enc (cursor_scan_from c); enc (cursor_known_empty c)].
Definition cursor_uncode (l : list positive) : option CursorState :=
  match l with [a; b] => a ← decode a; b ← decode b; Some (mkCursorState a b) | _ => None end.
Lemma cursor_uncode_code c : cursor_uncode (cursor_code c) = Some c.
Proof.
  unfold cursor_code, cursor_uncode. rewrite decode_encode. cbn [mbind option_bind].
  rewrite decode_encode. by destruct c.
Qed.
#[global] Instance cursor_serde : Serde CursorState :=
  serde_of_code cursor_code cursor_uncode cursor_uncode_code.

(** ** A store in memory

    The contents, the number of commits, and the commit that last wrote each key.
    A commit is in conflict when a tracked key was written, or differs, since the
    transaction began. *)
Record MemDb := mkMemDb { mem : gmap bytes bytes; commits : nat; written_at : gmap bytes nat }.
Record MemTxn := mkMemTxn { mt_base : MemDb; mt_writes : list write; mt_tracked : gset bytes }.

Definition mem_empty : MemDb := mkMemDb ∅ 0 ∅.

#[local] Definition merge_left (k : bytes) (e : option bytes) (v : bytes) : bytes := default v e.
Definition mem_run : list write → gmap bytes bytes → gmap bytes bytes :=
  apply_writes merge_batch merge_left.

Definition mem_view (t : MemTxn) : gmap bytes bytes := mem_run (mt_writes t) (mem (mt_base t)).

Definition mem_write (ws : list write) (d : MemDb) : MemDb :=
  mkMemDb (mem_run ws (mem d)) (S (commits d))
    (foldl (λ m w, <[write_key w := S (commits d)]> m) (written_at d) ws).

Definition kv_le (a b : kv) : Prop := bytes_le a.1 b.1 = true.
#[local] Instance kv_le_dec a b : Decision (kv_le a b).
Proof. unfold kv_le. apply _. Defined.

Fixpoint strip (p k : bytes) : option bytes :=
  match p, k with
  | [], _ => Some k
  | x :: p, y :: k => if (x =? y)%Z then strip p k else None
  | _, [] => None
  end.

Definition in_scan (p : bytes) (s : ScanStart) (e : kv) : bool :=
  match strip p e.1 with Some suffix => scan_start_ok s suffix | None => false end.

Definition mem_scan (m : gmap bytes bytes) (p : bytes) (s : ScanStart) : list kv :=
  merge_sort kv_le (filter (λ e, in_scan p s e = true) (map_to_list m)).

Definition mem_stale (d : MemDb) (t : MemTxn) (k : bytes) : bool :=
  negb (bool_decide (written_at d !! k = written_at (mt_base t) !! k ∧
                     mem d !! k = mem (mt_base t) !! k)).

Definition mem_commit (d : MemDb) (t : MemTxn) : result SlateError MemDb :=
  if existsb (mem_stale d t) (elements (mt_tracked t))
  then Err (mkSlateError TransactionKind "conflict") else Ok (mem_write (mt_writes t) d).

#[local] Definition mem_stage (w : write) (t : MemTxn) : MemTxn :=
  mkMemTxn (mt_base t) (mt_writes t ++ [w]) ({[write_key w]} ∪ mt_tracked t).

#[global] Instance mem_store : SlateDb := {|
  Db := MemDb;
  DbTransaction := MemTxn;
  db_begin d := Ok (mkMemTxn d [] ∅);
  db_scan_prefix d p s := Ok (mem_scan (mem d) p s);
  db_get d k := Ok (mem d !! k);
  db_put d k v := Ok (mem_write [WPut k v] d);
  db_delete d k := Ok (mem_write [WDelete k] d);
  db_await_durable d := Ok tt;
  db_flush d := Ok tt;
  txn_get t k := Ok (mem_view t !! k);
  txn_scan_prefix t p s := Ok (mem_scan (mem_view t) p s);
  txn_put t k v := Ok (mem_stage (WPut k v) t);
  txn_delete t k := Ok (mem_stage (WDelete k) t);
  txn_merge t k v := Ok (mem_stage (WMerge k v) t);
  txn_mark_read t ks := Ok (mkMemTxn (mt_base t) (mt_writes t) (list_to_set ks ∪ mt_tracked t));
  txn_unmark_write t ks := Ok (mkMemTxn (mt_base t) (mt_writes t) (mt_tracked t ∖ list_to_set ks));
  txn_commit := mem_commit;
|}.

Lemma strip_Some p k s : strip p k = Some s ↔ k = p ++ s.
Proof.
  revert k. induction p as [|x p IH]; intros k; cbn; [naive_solver|].
  destruct k as [|y k]; [done|]. destruct (Z.eqb_spec x y) as [->|Hne].
  - rewrite IH. split; [by intros ->|]. by intros [= ->].
  - split; [done|]. by intros [= -> ->].
Qed.

#[local] Instance kv_le_total : Total kv_le.
Proof.
  intros a b. unfold kv_le. destruct (bytes_lt a.1 b.1) eqn:E; [left; by apply bytes_lt_le|right].
  by apply bytes_nlt_le.
Qed.
#[local] Instance kv_le_trans : Transitive kv_le.
Proof. intros a b c. apply bytes_le_trans. Qed.

Lemma kv_le_strict l : StronglySorted kv_le l → NoDup l.*1 → StronglySorted key_lt l.
Proof.
  induction 1 as [|x l Hl IH Hx]; [constructor|]. rewrite fmap_cons. intros [Hni Hnd]%NoDup_cons.
  constructor; [by apply IH|]. apply Forall_forall. intros y Hy. rewrite Forall_forall in Hx.
  destruct (bytes_le_lt_or_eq _ _ (Hx y Hy)) as [?|E]; [done|]. destruct Hni. rewrite E.
  apply list_elem_of_fmap. by exists y.
Qed.

Lemma mem_scan_ok m p s : is_scan m p s (mem_scan m p s).
Proof.
  unfold mem_scan. set (l := filter _ _). split.
  - apply kv_le_strict; [apply (StronglySorted_merge_sort kv_le)|].
    rewrite merge_sort_Permutation. eapply sublist_NoDup; [apply (NoDup_fst_map_to_list m)|].
    apply fmap_sublist, sublist_filter.
  - intros k v. rewrite merge_sort_Permutation. subst l.
    rewrite list_elem_of_filter, elem_of_map_to_list. unfold in_scan. cbn.
    split.
    + intros [H ?]. destruct (strip p k) as [x|] eqn:E; [|done]. apply strip_Some in E. eauto.
    + intros (? & x & ->%strip_Some & ?). done.
Qed.

#[global] Instance mem_laws : SlateDbLaws merge_batch.
Proof.
  refine {| contents := mem; base := mt_base; writes := mt_writes; tracked := mt_tracked;
            merge_fallback := merge_left |}; cbn.
  - by intros d t [= <-].
  - intros d p s l [= <-]. apply mem_scan_ok.
  - by intros d k o [= <-].
  - by intros d k v d' [= <-].
  - by intros d k d' [= <-].
  - by intros t k o [= <-].
  - intros t p s l [= <-]. apply mem_scan_ok.
  - by intros t k v t' [= <-].
  - by intros t k t' [= <-].
  - by intros t k v t' [= <-].
  - by intros t ks t' [= <-].
  - by intros t ks t' [= <-].
  - intros d t d'. unfold mem_commit. destruct (existsb _ _) eqn:E; [done|]. intros [= <-].
    split; [done|]. intros k Hk%elem_of_elements. apply not_true_iff_false in E.
    destruct (mem_stale d t k) eqn:Es.
    { destruct E. apply existsb_exists. exists k. split; [by apply list_elem_of_In|done]. }
    unfold mem_stale in Es. apply negb_false_iff, bool_decide_eq_true in Es. apply Es.
  - intros t e. unfold mem_commit. destruct (existsb _ _) eqn:E; [|done].
    apply existsb_exists in E as (k & _ & Hk). unfold mem_stale in Hk.
    apply negb_true_iff, bool_decide_eq_false in Hk. by destruct Hk.
Defined.

#[global] Instance mem_healthy : SlateDbHealthy.
Proof.
  split; try by eexists. cbn. intros d t e. unfold mem_commit. destruct (existsb _ _); [|done].
  by intros [= <-].
Qed.

(** The scans of a view. *)
Definition mem_range_scan (m : gmap bytes bytes) (p : bytes) (r : Bound * Bound) (o : KvOrder) : list kv :=
  let l := filter (λ e : kv, in_bounds r (drop (length p) e.1) = true) (mem_scan m p Unbounded) in
  match o with Ascending => l | Descending => reverse l end.

#[global] Instance mem_reads : SlateReads := {|
  DbReader := MemDb;
  db_scan_options d p r o := Ok (mem_range_scan (mem d) p r o);
  reader_get d k := Ok (mem d !! k);
  reader_scan_options d p r o := Ok (mem_range_scan (mem d) p r o);
|}.

Lemma StronglySorted_reverse {A} (R : A → A → Prop) l :
  StronglySorted R l → StronglySorted (λ a b, R b a) (reverse l).
Proof.
  induction 1 as [|x l _ IH Hx]; [constructor|]. rewrite reverse_cons.
  apply StronglySorted_app_2; [|done|repeat constructor].
  intros a b Ha ->%list_elem_of_singleton. rewrite Forall_forall in Hx. apply Hx.
  by apply elem_of_reverse.
Qed.

Lemma mem_range_scan_ok m p r o : is_range_scan m p r o (mem_range_scan m p r o).
Proof.
  destruct (mem_scan_ok m p Unbounded) as [Hs Hm]. unfold mem_range_scan. set (l := filter _ _).
  assert (Hl : StronglySorted key_lt l).
  { subst l. clear Hm. induction Hs as [|x l _ IH Hx]; [constructor|]. rewrite filter_cons.
    case_decide; [|done]. constructor; [done|]. apply Forall_forall. rewrite Forall_forall in Hx.
    intros y [_ ?]%list_elem_of_filter. by apply Hx. }
  assert (Hin : ∀ k v, (k, v) ∈ l ↔ m !! k = Some v ∧ ∃ suffix, k = p ++ suffix ∧ in_bounds r suffix = true).
  { intros k v. subst l. rewrite list_elem_of_filter, Hm. cbn. split.
    - intros (Hb & Hv & s & -> & _). split; [done|]. exists s. by rewrite drop_app_length in Hb.
    - intros (Hv & s & -> & Hb). rewrite drop_app_length. split; [done|]. split; [done|]. by exists s. }
  destruct o; [by split|]. split; [by apply StronglySorted_reverse in Hl|].
  intros k v. by rewrite elem_of_reverse.
Qed.

#[global] Instance mem_reads_laws : SlateReadsLaws merge_batch.
Proof.
  refine {| reader_contents := mem |}; cbn.
  - intros d p r o l [= <-]. apply mem_range_scan_ok.
  - by intros d k x [= <-].
  - intros d p r o l [= <-]. apply mem_range_scan_ok.
Defined.

(** ** Objects, clock and ids *)
#[global] Instance mem_objects : ObjectStore := {|
  Objects := gmap string bytes;
  path_from p := p;
  os_put p b o := (Ok tt, <[p := b]> o);
  os_get p o := match o !! p with Some b => Ok b | None => Err NotFound end;
  os_delete p o := (match o !! p with Some _ => Ok tt | None => Err NotFound end, delete p o);
  os_delete_stream ps o :=
    (map (λ p, match o !! p with Some _ => Ok tt | None => Err NotFound end) ps,
     foldr delete o ps);
|}.

(** A clock that advances a second with each reading. Two queues differ from the
    default configuration: [kept] keeps its done jobs for a minute, and [now]
    retries without a backoff. *)
Definition config_kept : QueueConfig :=
  mkConfig 1 DEFAULT_LEASE_DURATION PRIORITY_NORMAL 0 0 (Some (from_secs 60)) (Some (from_secs 60)).
Definition config_now : QueueConfig :=
  mkConfig 2 DEFAULT_LEASE_DURATION PRIORITY_NORMAL 0 0 None None.

#[global] Instance mem_env : Env := {|
  clock_now n := (1000000 + 1000 * Z.of_nat n)%Z;
  ulid_new n := Z.min (Z.of_nat n) 18446744073709551615;
  ulid_generate n at' := Z.of_nat n;
  ulid_string u := pretty u;
  configs := mkConfigs config_default {["kept" := config_kept; "now" := config_now]};
  payload_store := mkPayloadStore "payloads" None;
|}.

#[global] Instance mem_ulids : UlidLaws.
Proof. split. cbn. intros n n' a a' H%(inj pretty). lia. Qed.

(** A process on an empty store. *)
Definition core_new : Core :=
  mkCore mem_empty 0 0 0 0 ∅ time_bound_new time_bound_new ∅ None registry_new
    waiters_new ∅ false.

(** ** Instances of the interfaces of the inbox

    Encodings of the entries and the records, entry objects in the store of
    [MemStore], and ULIDs as decimal numbers. *)

(** ** Encodings *)

Definition form_error_code (e : FormError) : list positive :=
  match e with
  | Error.Empty => [1%positive]
  | TooLong n => [2%positive; enc n]
  | InvalidStart c => [3%positive; enc c]
  | InvalidCharacter c => [4%positive; enc c]
  end.
Definition form_error_uncode (l : list positive) : option FormError :=
  match l with
  | [1%positive] => Some Error.Empty
  | [2%positive; n] => TooLong <$> decode n
  | [3%positive; c] => InvalidStart <$> decode c
  | [4%positive; c] => InvalidCharacter <$> decode c
  | _ => None
  end.

Definition rejection_code (r : Rejection) : list positive :=
  match r with
  | UnknownKind => [1%positive]
  | Unordered => [2%positive]
  | Malformed d => [3%positive; enc d]
  | TooLarge n => [4%positive; enc n]
  | Unreadable d => [5%positive; enc d]
  | QueueNotAccepted => [6%positive]
  | OtherQueue q => [7%positive; enc q]
  | RejectedId e => 8%positive :: form_error_code e
  | RejectedDuplicate => [9%positive]
  | RejectedSignalWait => [10%positive]
  | RejectedCountWait => [11%positive]
  | RejectedCountWaiter => [12%positive]
  | Failed m => [13%positive; enc m]
  end.
Definition rejection_uncode (l : list positive) : option Rejection :=
  match l with
  | [1%positive] => Some UnknownKind
  | [2%positive] => Some Unordered
  | [3%positive; d] => Malformed <$> decode d
  | [4%positive; n] => TooLarge <$> decode n
  | [5%positive; d] => Unreadable <$> decode d
  | [6%positive] => Some QueueNotAccepted
  | [7%positive; q] => OtherQueue <$> decode q
  | 8%positive :: e => RejectedId <$> form_error_uncode e
  | [9%positive] => Some RejectedDuplicate
  | [10%positive] => Some RejectedSignalWait
  | [11%positive] => Some RejectedCountWait
  | [12%positive] => Some RejectedCountWaiter
  | [13%positive; m] => Failed <$> decode m
  | _ => None
  end.
Lemma rejection_uncode_code r : rejection_uncode (rejection_code r) = Some r.
Proof. destruct r as [| | | | | | |[]| | | | |]; cbn; by rewrite ?decode_encode. Qed.

Definition inbox_outcome_code (o : InboxOutcome) : list positive :=
  match o with
  | OutcomeEnqueue (New i) => [1%positive; enc i]
  | OutcomeEnqueue (AlreadyEnqueued i) => [2%positive; enc i]
  | OutcomeCancel CancelRemoved => [3%positive]
  | OutcomeCancel CancelRequestedOutcome => [4%positive]
  | OutcomeCancel CancelNotFound => [5%positive]
  | OutcomeSignal Delivered => [6%positive]
  | OutcomeSignal NotWaiting => [7%positive]
  | OutcomeRejected r => 8%positive :: rejection_code r
  end.
Definition inbox_outcome_uncode (l : list positive) : option InboxOutcome :=
  match l with
  | [1%positive; i] => (λ i, OutcomeEnqueue (New i)) <$> decode i
  | [2%positive; i] => (λ i, OutcomeEnqueue (AlreadyEnqueued i)) <$> decode i
  | [3%positive] => Some (OutcomeCancel CancelRemoved)
  | [4%positive] => Some (OutcomeCancel CancelRequestedOutcome)
  | [5%positive] => Some (OutcomeCancel CancelNotFound)
  | [6%positive] => Some (OutcomeSignal Delivered)
  | [7%positive] => Some (OutcomeSignal NotWaiting)
  | 8%positive :: r => OutcomeRejected <$> rejection_uncode r
  | _ => None
  end.
Lemma inbox_outcome_uncode_code o : inbox_outcome_uncode (inbox_outcome_code o) = Some o.
Proof.
  destruct o as [[]|[]|[]|r]; cbn [inbox_outcome_code inbox_outcome_uncode];
    by rewrite ?decode_encode, ?rejection_uncode_code.
Qed.

Definition record_code (r : InboxRecord) : list positive :=
  enc (applied_at_ms r) :: inbox_outcome_code (record_outcome r).
Definition record_uncode (l : list positive) : option InboxRecord :=
  match l with
  | a :: o => a ← decode a; o ← inbox_outcome_uncode o; Some (mkInboxRecord a o)
  | [] => None
  end.
Lemma record_uncode_code r : record_uncode (record_code r) = Some r.
Proof.
  unfold record_uncode, record_code. rewrite decode_encode. cbn [mbind option_bind].
  rewrite inbox_outcome_uncode_code. by destruct r.
Qed.
#[global] Instance record_serde : Serde InboxRecord :=
  serde_of_code record_code record_uncode record_uncode_code.

Definition enqueue_code (e : EnqueueEntry) : list positive :=
  let o := ee_options e in
  [enc (ee_payload e); enc (opt_max_attempts o); enc (opt_priority o); enc (opt_run_at o);
   enc (opt_dedup_key o); enc (opt_headers o); enc (opt_id_override o); enc (opt_signal_wait o);
   enc (opt_count_wait o)].
Definition enqueue_uncode (l : list positive) : option EnqueueEntry :=
  match l with
  | [p; a; b; c; d; e; f; g; h] =>
      p ← decode p; a ← decode a; b ← decode b; c ← decode c; d ← decode d; e ← decode e;
      f ← decode f; g ← decode g; h ← decode h;
      Some (mkEnqueueEntry p (mkOptions a b c d e f g h))
  | _ => None
  end.
Lemma enqueue_uncode_code e : enqueue_uncode (enqueue_code e) = Some e.
Proof.
  unfold enqueue_code, enqueue_uncode. rewrite decode_encode. cbn [mbind option_bind].
  do 8 (rewrite decode_encode; cbn [mbind option_bind]). by destruct e as [? []].
Qed.
#[global] Instance enqueue_serde : Serde EnqueueEntry :=
  serde_of_code enqueue_code enqueue_uncode enqueue_uncode_code.

Definition cancel_uncode (l : list positive) : option CancelEntry :=
  match l with [i] => mkCancelEntry <$> decode i | _ => None end.
Lemma cancel_uncode_code e : cancel_uncode [enc (ce_job_id e)] = Some e.
Proof. unfold cancel_uncode. rewrite decode_encode. by destruct e. Qed.
#[global] Instance cancel_serde : Serde CancelEntry :=
  serde_of_code (λ e, [enc (ce_job_id e)]) cancel_uncode cancel_uncode_code.

Definition signal_uncode (l : list positive) : option SignalEntry :=
  match l with [i; p] => i ← decode i; p ← decode p; Some (mkSignalEntry i p) | _ => None end.
Lemma signal_uncode_code e : signal_uncode [enc (se_job_id e); enc (se_payload e)] = Some e.
Proof.
  unfold signal_uncode. rewrite decode_encode. cbn [mbind option_bind].
  rewrite decode_encode. by destruct e.
Qed.
#[global] Instance signal_serde : Serde SignalEntry :=
  serde_of_code (λ e, [enc (se_job_id e); enc (se_payload e)]) signal_uncode signal_uncode_code.

(** ** Objects *)

Definition object_meta (p : string) (b : bytes) : ObjectMeta :=
  mkObjectMeta p (Z.of_nat (length b)) 0 "".

#[global] Instance mem_entries : EntryStore := {|
  os_list p o := Ok (omap (λ e : string * bytes,
    (λ _, object_meta e.1 e.2) <$> str_strip_prefix p e.1) (map_to_list o));
  os_head p o := match o !! p with Some b => Ok (object_meta p b) | None => Err NotFound end;
  os_read p o :=
    match o !! p with Some b => Ok (Z.of_nat (length b), Ok b) | None => Err NotFound end;
|}.

(** The inbox of the queues [kept] and [now]. *)
Definition mem_inbox_state : InboxState :=
  mkInboxState "inbox" (from_secs 60) (Some (from_secs 2)) {["kept"; "now"]}.

(** A number of decimal digits. *)
Fixpoint digits (acc : Z) (s : string) : option Z :=
  match s with
  | EmptyString => Some acc
  | String a s =>
      let d := (Z.of_nat (nat_of_ascii a) - 48)%Z in
      if (0 <=? d)%Z && (d <? 10)%Z then digits (10 * acc + d) s else None
  end.

#[global] Instance mem_inbox : InboxEnv := {|
  inbox_state := Some mem_inbox_state;
  ulid_from_string s := match s with EmptyString => None | _ => digits 0 s end;
  error_text _ := "error";
  store_error_text _ := "store error";
|}.

(** ** The session of the store *)

Definition heartbeat_code (h : HeartbeatRecord) : list positive :=
  [enc (hb_counter h); enc (hb_at_ms h); enc (hb_interval_ms h); enc (hb_writer_epoch h); enc (hb_closed h)].
Definition heartbeat_uncode (l : list positive) : option HeartbeatRecord :=
  match l with
  | [a; b; c; d; e] =>
      a ← decode a; b ← decode b; c ← decode c; d ← decode d; e ← decode e;
      Some (mkHeartbeatRecord a b c d e)
  | _ => None
  end.
Lemma heartbeat_uncode_code h : heartbeat_uncode (heartbeat_code h) = Some h.
Proof.
  unfold heartbeat_code, heartbeat_uncode. rewrite decode_encode. cbn [mbind option_bind].
  do 4 (rewrite decode_encode; cbn [mbind option_bind]). by destruct h.
Qed.
#[global] Instance heartbeat_serde : Serde HeartbeatRecord :=
  serde_of_code heartbeat_code heartbeat_uncode heartbeat_uncode_code.

#[global] Instance mem_session : StoreSession := {|
  manifest_writer_epoch _ := 1%Z;
  db_close _ := Ok ();
|}.

(** ** Example processes

    Processes over these instances, which the witnesses of the theorems run. *)
Open Scope string_scope.

(** Enqueue options with a supplied id, and variants. *)
Definition opts_id (i : string) : EnqueueOptions := mkOptions None None None None ∅ (Some i) false None.
Definition opts_dedup (i dk : string) : EnqueueOptions :=
  mkOptions None None None (Some dk) ∅ (Some i) false None.
Definition opts_at (i : string) (at' : Z) (wait : bool) : EnqueueOptions :=
  mkOptions None None (Some at') None ∅ (Some i) wait None.

Definition run_enqueue (q i : string) : Run := mkRun (CEnqueue q [1%Z] (opts_id i)) [].
Definition run_dedup (q i dk : string) : Run := mkRun (CEnqueue q [1%Z] (opts_dedup i dk)) [].
Definition run_at (q i : string) (at' : Z) (wait : bool) : Run :=
  mkRun (CEnqueue q [1%Z] (opts_at i at' wait)) [].
Definition run_claim (i : string) : Run := mkRun (CClaimById i (from_secs 30)) [].

(** The state after some runs. *)
Definition after (rs : list Run) : Core := foldl (λ c r, exec r c) core_new rs.

Lemma after_ok rs : Forall supplied rs → core_ok (after rs).
Proof.
  unfold after. assert (H : core_ok core_new) by by apply core_ok_new.
  revert H. generalize core_new as c. induction rs as [|r rs IH]; intros c Hc Hrs; [done|].
  apply Forall_cons in Hrs as [Hr Hrs]. apply IH; [|done]. by apply exec_ok.
Qed.

(** The same of runs that generate their ids and supply none. *)
Lemma after_reachable rs : (∀ r i, r ∈ rs → ¬ supplies r i) → reachable (after rs).
Proof.
  unfold after. assert (H : reachable core_new) by by apply reachable_new.
  revert H. generalize core_new as c. induction rs as [|r rs IH]; intros c Hc Hrs; [done|].
  apply IH.
  - apply reachable_run; [done|]. intros i Hi. destruct (Hrs r i); [by left|done].
  - intros r' i ?. apply Hrs. by right.
Qed.

(** A process in which the given runs happen at the yields of the call. *)
Definition alone (c : Core) : World := mkWorld c [].
Definition with_runs (c : Core) (rs : list Run) : World := mkWorld c (map exec rs).

Lemma alone_ok rs : Forall supplied rs → world_ok (alone (after rs)).
Proof. intros H. split; [by apply after_ok|constructor]. Qed.

Lemma with_runs_ok rs during :
  Forall supplied rs → Forall supplied during → world_ok (with_runs (after rs) during).
Proof.
  intros H Hd. split; [by apply after_ok|].
  unfold with_runs. cbn. apply Forall_map. eapply Forall_impl; [exact Hd|].
  intros r Hr c. by apply exec_ok.
Qed.

(** The claim a claim by id returns. *)
Definition claimed (i : string) (w : World) : option (Claim * World) :=
  match claim_by_id i (from_secs 30) w with
  | (Ok (ClaimedOutcome c), w') => Some (c, w')
  | _ => None
  end.

Definition no_claim : Claim := mkClaim (new_pending "" (mkQueueName "q" eq_refl) [] 0 0 0) 0 0.
Definition the_claim (i : string) (c : Core) : Claim :=
  from_option fst no_claim (claimed i (alone c)).
Definition the_core (i : string) (c : Core) : Core :=
  from_option (λ x : Claim * World, core x.2) c (claimed i (alone c)).

(** The result of a call, by a test that is evaluated. *)
Lemma run_case {A} (p : Result A → bool) (m : Q A) w :
  p (m w).1 = true → ∃ r w', m w = (r, w') ∧ p r = true.
Proof. destruct (m w) as [r w']. intros H. by exists r, w'. Qed.


Definition is_ok {A} (r : Result A) : bool := match r with Ok _ => true | Err _ => false end.
Definition is_claimed (r : Result ClaimOutcome) : bool :=
  match r with Ok (ClaimedOutcome _) => true | _ => false end.

Lemma the_core_ok i c : core_ok c → core_ok (the_core i c).
Proof.
  intros Hc. assert (Hw : world_ok (claim_by_id i (from_secs 30) (alone c)).2).
  { apply claim_by_id_ok. split; [done|constructor]. }
  unfold the_core, claimed. destruct (claim_by_id _ _ _) as [[[cl| |]|] w']; [apply Hw|done..].
Qed.
