(* ===== verification/ProcessTheorems.v ===== *)
(** * Theorems of the process

    The invariant of every reachable state, and what it says of the records, of
    the index, of the dedup entries and of the counters. *)
From S2P Require Import Prelude Bytes Error Monad Keys Job Store Stats LeaseRegistry.
From S2P Require Import TimeBound ClaimCursor Completion Txn Stage StoreInv Sound Core.
From S2P Require Import QueueCore Control Effects Claim Settle Enqueue.
From S2P Require Import Sweeps InboxEntry Inbox Queue CoreInv StagedOps View Session.
From S2P Require Import OpsOk CallsOk Finishes InboxOk Linear Outcomes SessionOk.
From S2P Require Import Process MemStore.

Section process_theorems.
  Context {DB : SlateDb} {OS : ObjectStore} {SR : Serde JobRecord} {SA : Serde JobAttempt}.
  Context {SC : Serde CountRecord} {EN : Env} {ST : EntryStore} {IE : InboxEnv}.
  Context {SE : Serde EnqueueEntry} {SCa : Serde CancelEntry} {SSi : Serde SignalEntry}.
  Context {SI : Serde InboxRecord} {SCu : Serde CursorState}.
  Context {SS : StoreSession} {SH : Serde HeartbeatRecord}.
  Context {DL : SlateDbLaws merge_batch} {UL : UlidLaws}.

#[local] Set Default Proof Using "Type DL UL".


(** C2: a call preserves that consistency also when it generates ids: from a
    consistent process, with other tasks that preserve consistency, it ends in a
    consistent process with any outcome or error, when the ids it generates are
    new. *)
Theorem call_preserves_consistency call w :
  world_ok w → fresh_for (call_requests call) w → world_ok (run_call call w).2.
Proof. intros Hw Hf. by apply run_call_ok, fresh_for_under. Qed.

(** C3: every call finishes, and every pass over the inbox, every open and every
    close: whatever the stores answer and whatever other tasks commit at its yields,
    its retries end with a result or with an error of the code, never with the fuel
    of the model exhausted. *)
Theorem every_call_finishes call now heartbeat task w :
  (run_call call w).1 ≠ Err Unfinished ∧ (inbox_pass w).1 ≠ Err Unfinished ∧
  (open_queue now heartbeat w).1 ≠ Err Unfinished ∧ (close_queue task w).1 ≠ Err Unfinished.
Proof using DL.
  split_and!; [apply run_call_finishes|apply inbox_pass_finishes|apply open_finishes|apply close_finishes].
Qed.

(** The counter of a queue and a live state reads as the number of its
    records, as long as that number fits the counter. *)
Theorem counters_count c q s :
  reachable c → s ≠ Done → (population (contents (db c)) q s < 2 ^ 63)%Z →
  count_for (contents (db c)) q s = Ok (population (contents (db c)) q s).
Proof.
  intros Hc Hs Hlt. destruct (core_counters _ (reachable_ok _ Hc) q s) as (v & Hv & He).
  specialize (He Hs). rewrite Hv. f_equal.
  assert (Hp : (0 ≤ population (contents (db c)) q s)%Z) by (unfold population, pop; lia).
  pose proof (count_for_range _ _ _ _ Hv). unfold eq64 in He.
  rewrite !wrap_i64_small in He; [done|unfold is_i64; lia..].
Qed.

(** An id has at most one record, and of the jobs of a queue at most one that
    waits has a given dedup key: two records with the same id are at the same key,
    and two records of a queue with the same dedup key are the same record. *)
Theorem records_unique c k k' j j' :
  reachable c → job_at (contents (db c)) k = Some j → job_at (contents (db c)) k' = Some j' →
  id j = id j' ∨ (queue j = queue j' ∧ dedup_key j = dedup_key j' ∧ is_Some (dedup_key j)) → k = k'.
Proof.
  intros Hc Hj Hj'. pose proof (core_store _ (reachable_ok _ Hc)) as Hs.
  destruct (store_ok_job _ _ _ Hs Hj) as (_ & _ & Hi & Hd).
  destruct (store_ok_job _ _ _ Hs Hj') as (_ & _ & Hi' & Hd').
  assert (Hid : id j = id j' → k = k') by (intros E; rewrite E in Hi; congruence).
  intros [E|(Eq & Ed & dk & Hdk)]; [by apply Hid|]. apply Hid.
  specialize (Hd dk Hdk). rewrite Ed in Hdk. specialize (Hd' dk Hdk). rewrite Eq, Hd' in Hd.
  injection Hd as Hd. by apply as_bytes_inj.
Qed.

End process_theorems.

(** ** Examples *)

(** Enqueues with generated ids, one of them at a yield of a claim, and a batch at a
    yield of an enqueue with a dedup key. *)
Definition opts_key (dk : string) : EnqueueOptions := mkOptions None None None (Some dk) ∅ None false None.
Definition run_new (q : string) (opts : EnqueueOptions) (during : list Run) : Run :=
  mkRun (CEnqueue q [1%Z] opts) during.

Definition busy_runs : list Run :=
  [run_new "now" options_default [];
   mkRun (CClaimBatch "now" 1 (from_secs 30)) [run_new "now" options_default []];
   run_new "now" (opts_key "k") [mkRun (CEnqueueBatch "now" [[2%Z]; [3%Z]]) []]].

Lemma busy_reachable : reachable (after busy_runs).
Proof.
  apply after_reachable. intros r i. unfold busy_runs. rewrite !elem_of_cons, elem_of_nil.
  intros [->|[->|[->|[]]]]; cbn [run_new supplies foldr]; unfold call_requests, map;
    intros H; repeat (destruct H as [H|H]); try done;
    destruct H as (r & Hr & E); revert Hr E; rewrite ?elem_of_cons, ?elem_of_nil;
    intros H; repeat (destruct H as [H|H]); try done; by subst.
Qed.


Lemma call_preserves_consistency_witness :
  let w := alone (after [run_enqueue "now" "a"]) in
  world_ok w ∧ fresh_for (call_requests (CEnqueue "now" [2%Z] options_default)) w ∧
  world_ok (run_call (CEnqueue "now" [2%Z] options_default) w).2.
Proof.
  cbn zeta.
  assert (H1 : world_ok (alone (after [run_enqueue "now" "a"]))) by (apply alone_ok; repeat constructor).
  assert (H2 : fresh_for (call_requests (CEnqueue "now" [2%Z] options_default))
    (alone (after [run_enqueue "now" "a"]))).
  { split.
    - intros r i ->%list_elem_of_singleton [=].
    - constructor; [done| |constructor]. intros i (m & a & Hm & ->).
      assert (m = 0) as -> by (vm_compute in Hm; lia). by vm_compute. }
  split; [done|]. split; [done|]. by apply call_preserves_consistency.
Defined.

Lemma every_call_finishes_witness :
  (run_call (CCancel "a" effects_default) (with_runs (after busy_runs) [run_claim "a"])).1
    ≠ Err Unfinished.
Proof.
  exact (proj1 (every_call_finishes (CCancel "a" effects_default) 0%Z None None
    (with_runs (after busy_runs) [run_claim "a"]))).
Defined.

Definition queue_now : QueueName := mkQueueName "now" eq_refl.

Lemma counters_count_witness :
  let m := contents (db (after busy_runs)) in
  population m queue_now Pending = 4%Z ∧ count_for m queue_now Pending = Ok 4%Z.
Proof.
  cbn zeta. assert (Hp : population (contents (db (after busy_runs))) queue_now Pending = 4%Z)
    by by vm_compute.
  assert (H : reachable (after busy_runs)) by exact busy_reachable.
  apply (counters_count _ queue_now Pending) in H; [|done|by rewrite Hp].
  split; [exact Hp|]. by rewrite Hp in H.
Defined.

Lemma records_unique_witness :
  let m := contents (db (after busy_runs)) in
  ∃ k j, job_at m k = Some j ∧ id j = "2" ∧ dedup_key j = Some "k" ∧
    ∀ k' j', job_at m k' = Some j' → queue j' = queue j → dedup_key j' = Some "k" → k = k'.
Proof.
  cbn zeta. destruct (lookup_job (contents (db (after busy_runs))) "2") as [[k j]|] eqn:E;
    [|by vm_compute in E].
  assert (Hj : id j = "2" ∧ dedup_key j = Some "k").
  { vm_compute in E. injection E as <- <-. by vm_compute. }
  assert (Hat : job_at (contents (db (after busy_runs))) k = Some j).
  { eapply lookup_id; [|exact E]. apply core_store, reachable_ok, busy_reachable. }
  exists k, j. split; [done|]. destruct Hj as [? Hd]. split; [done|]. split; [done|].
  intros k' j' Hj' Eq Ed. eapply (records_unique (after busy_runs) k k' j j'); [|done|done|].
  - apply busy_reachable.
  - right. rewrite Hd, Ed. split; [done|]. split; [done|]. by eexists.
Defined.
