(* ===== verification/CallTheorems.v ===== *)
(** * Theorems of the calls

    What a settlement, a claim by id, an enqueue, a cancel, a wake, a signal and
    a compare-and-set of the user key space do to the store, while any other calls
    of the process run at their yields. *)
From S2P Require Import Prelude Bytes Error Monad Keys Job Store Stats LeaseRegistry.
From S2P Require Import TimeBound ClaimCursor Completion Txn Stage StoreInv Sound Core.
From S2P Require Import QueueCore Control Effects Claim Settle Enqueue.
From S2P Require Import Sweeps Queue CoreInv StagedOps OpsOk CallsOk Finishes Linear.
From S2P Require Import Outcomes Frame Process MemStore.

Section call_theorems.
  Context {DB : SlateDb} {OS : ObjectStore} {SR : Serde JobRecord} {SA : Serde JobAttempt}.
  Context {SC : Serde CountRecord} {EN : Env} {DL : SlateDbLaws merge_batch} {UL : UlidLaws}.

#[local] Set Default Proof Using "Type DL SA SC EN SR".

(** C27: a settlement that returns took effect once, in one atomic change after a moment
    at which the lease of its claim was current: the claimed record left its key, and the
    job is at the key of its new state with one more history entry and its index entry,
    or, for a job done and not kept, gone with its index entry and its history; a new job
    that its effects enqueue with the same id has the index entry then. The change
    applies its effects to the user key space when the end is terminal, and leaves it
    when the job is retried. *)
Theorem settlement_takes_effect claim e ef w j' rs w' :
  world_ok w → settle_claim claim e ef w = (Ok (j', rs), w') →
  ∃ j now w1, passes w w1 ∧
    snd <$> lease_current (queue (job claim)) (id (job claim)) (lease_registry (core w1)) = Some (claim_id claim) ∧
    j' = claim_end_record (ef j now) now j ∧ bool_decide (is_Some rs) = is_terminal (ef j now) ∧
    effect w1 w' (λ m m', claim_ended claim (default [] rs) (ef j now) now j m m' ∧ effects_applied claim e rs m m').
Proof. apply settle_claim_effect. Qed.

(** C28: a settlement that fails with an error of the code changes nothing,
    whatever its effects are and however often it retried: neither the job nor
    what the effects would have written. *)
Theorem failed_settlement_changes_nothing claim e ef w err w' :
  settle_claim claim e ef w = (Err err, w') → not_storage err → passes w w'.
Proof. apply settle_claim_error. Qed.

(** C29: a claim is settled once. After a settlement returned, with any effects and
    while any tasks ran, and after any calls since, which may have claimed its job again,
    every settlement of the same claim fails, while any tasks run, and an error of the
    code changed nothing: the claim id is one that the generator does not make again, and
    the ids [S] that calls supply are none that it returns later. *)
Theorem claim_settled_once S claim e ef w v w1 (rs during : list Run) e2 ef2 :
  framed_world S w → claim_issued (ulids (core w)) (claim_id claim) →
  (∀ r i, r ∈ enqueues e → opt_id_override (req_options r) = Some i → S i) →
  settle_claim claim e ef w = (Ok v, w1) →
  (∀ r i, r ∈ (rs ++ during)%list → supplies r i → S i) →
  let w2 := mkWorld (foldl (λ c r, exec r c) (core w1) rs) (map exec during) in
  ∃ err w3, settle_claim claim e2 ef2 w2 = (Err err, w3) ∧ (not_storage err → passes w2 w3).
Proof using DL UL.
  intros Hw Hc Hsup H1 Hrs w2.
  assert (Hr : snd <$> lease_current (queue (job claim)) (id (job claim)) (lease_registry (core w1)) ≠ Some (claim_id claim)).
  { refine (settle_claim_releases (CI := inv_framed (frame_of (λ _ _, False) w Hw ltac:(done))) claim e ef w v w1 _ _ H1).
    - intros z k [].
    - apply framed_world_ok. auto. }
  destruct (framed_world_advances (enqueues e) (settle_claim claim e ef) w
    ltac:(intros; by apply settle_claim_ok) Hsup Hw) as [Hw1 Hu]. rewrite H1 in Hw1, Hu. cbn [snd] in Hw1, Hu.
  set (R (k : JobKey) z := k = (queue (job claim), id (job claim)) ∧ z = claim_id claim).
  set (sc := scope_of R (job_ids (core w1)) (ulids (core w1))).
  assert (Hsc : scope_ok S sc).
  { constructor; [done|apply Hw1|]. intros k z [_ ->]. by eapply claim_issued_le. }
  assert (Hex : ∀ r, r ∈ (rs ++ during)%list → frames S (exec r)).
  { intros r Hr'. eapply frames_mono, exec_frames. intros i. by apply Hrs. }
  assert (Hf : framed sc (core w2)).
  { assert (H0 : framed sc (core w1)).
    { destruct Hw1. constructor; [done|done|by intros i|done| |done]. intros k en He [-> Hz]. apply Hr.
      unfold lease_current. rewrite He. cbn. by f_equal. }
    clear -H0 Hex Hsc. subst w2. cbn [core].
    assert (Hrs : ∀ r, r ∈ rs → frames S (exec r)) by (intros; apply Hex, elem_of_app; by left).
    clear Hex. revert H0. generalize (core w1) as c. induction rs as [|r rs IH]; intros c Hf; [done|].
    apply IH; [by intros r' ?; apply Hrs; right|]. apply (Hrs r); [by left|done..]. }
  assert (Hw2 : world_ok (CI := inv_framed (mkFrame S sc Hsc)) w2).
  { split; [exact Hf|]. apply Forall_forall. intros f (r & -> & Hin)%list_elem_of_fmap. apply Hex, elem_of_app. by right. }
  destruct (settle_claim_lost (CI := inv_framed (mkFrame S sc Hsc)) claim e2 ef2 w2 Hw2) as (err & w3 & H2).
  { intros c Hcf Hl. unfold lease_current in Hl.
    destruct (by_job (lease_registry c) !! _) as [en|] eqn:Ee; [|done]. injection Hl as Hl.
    by apply (framed_leases _ _ Hcf _ _ Ee). }
  exists err, w3. split; [exact H2|]. intros Hn. by eapply settle_claim_error.
Qed.

(** A claim by id takes a pending or a scheduled job for itself: in one change
    the record moves from its key to the claimed key, with the attempt counted and
    the waits and the dedup entry gone. A job in another state and an unknown id
    change nothing, and that is the state the answer reports. *)
Theorem claim_by_id_takes_the_job i lease w o w' :
  world_ok w → claim_by_id i lease w = (Ok o, w') →
  match o with
  | ClaimedOutcome c => ∃ j now k, (status j = Pending ∨ status j = Scheduled) ∧
      job c = set_payload (payload (job c)) (leave_waits (claim_record now j)) ∧
      effect w w' (λ m m',
        moved i k j (claimed_key (queue j) i) (leave_waits (claim_record now j)) m m' ∧
        ∀ dk, dedup_key j = Some dk → m' !! dedup_index_key (queue j) dk = None)
  | NotClaimable => no_effect w w' (λ m, ∃ k j, lookup_job m i = Some (k, j) ∧
      status j ≠ Pending ∧ status j ≠ Scheduled)
  | ClaimNotFound => no_effect w w' (λ m, lookup_job m i = None)
  end.
Proof. apply claim_by_id_effect. Qed.


(** A cancel removes a job that waits, with its index entry, its history and
    its dedup entry; marks a claimed job, once; and leaves a finished or unknown
    one. *)
Theorem cancel_takes_effect i w o rs w' :
  world_ok w → cancel_with i effects_default w = (Ok (o, rs), w') → rs = [] ∧
  match o with
  | CancelRemoved => ∃ k j, (status j = Pending ∨ status j = Scheduled) ∧
      effect w w' (removed i k j)
  | CancelRequestedOutcome => ∃ k j, status j = Claimed ∧
      if cancel_requested j then no_effect w w' (λ m, lookup_job m i = Some (k, j))
      else effect w w' (λ m m', job_at m k = Some j ∧
        m' = <[k := stored_bytes (leave_waits (set_cancel_requested true j))]> m)
  | CancelNotFound => no_effect w w' (λ m, lookup_job m i = None ∨
      ∃ k j, lookup_job m i = Some (k, j) ∧ (status j = Done ∨ status j = Dead))
  end.
Proof. apply cancel_default_effect. Qed.

(** A wake moves a scheduled job to the pending space without its run time and
    its waits; it leaves a job in another state and an unknown one, and answers
    which it found. *)
Theorem wake_takes_effect i w o w' :
  world_ok w → wake_scheduled i w = (Ok o, w') →
  match o with
  | Woken => ∃ k j k', status j = Scheduled ∧
      effect w w' (moved i k j k' (leave_waits (set_run_at None (set_status Pending j))))
  | NotScheduled => no_effect w w' (λ m, ∃ k j, lookup_job m i = Some (k, j) ∧ status j ≠ Scheduled)
  | WakeNotFound => no_effect w w' (λ m, lookup_job m i = None)
  end.
Proof. apply wake_scheduled_effect. Qed.

(** A signal is delivered only to a job that waits for one, and then the job
    is pending with the payload of the signal, all in one change. *)
Theorem signal_is_delivered i pl w w' :
  world_ok w → signal_job i pl w = (Ok Delivered, w') →
  ∃ k j k', status j = Scheduled ∧ signal_wait j = true ∧
    effect w w' (moved i k j k'
      (leave_waits (set_run_at None (set_status Pending (set_signal (Some pl) j))))).
Proof. apply signal_job_effect. Qed.

(** [kv_compare_put] is an atomic compare-and-set, also under concurrent
    calls: it answers true exactly by one write on a store in which the key has the
    expected value, and false with no write and another value. *)
Theorem kv_compare_put_is_atomic k e v w b w' :
  kv_compare_put k e v w = (Ok b, w') →
  if b then effect w w' (λ m m', m !! user_scoped_key k = e ∧ m' = <[user_scoped_key k := v]> m)
  else no_effect w w' (λ m, m !! user_scoped_key k ≠ e).
Proof. apply kv_compare_put_effect. Qed.

(** [kv_compare_delete] is the atomic compare-and-delete. *)
Theorem kv_compare_delete_is_atomic k e w b w' :
  kv_compare_delete k e w = (Ok b, w') →
  if b then effect w w' (λ m m', m !! user_scoped_key k = Some e ∧ m' = delete (user_scoped_key k) m)
  else no_effect w w' (λ m, m !! user_scoped_key k ≠ Some e).
Proof. apply kv_compare_delete_effect. Qed.

End call_theorems.

(** ** Examples *)

(** A process in which the job "a" is claimed by [the_claim]; in the busy one
    another task enqueues. *)
Definition enqueued : Core := after [run_enqueue "now" "a"].
Definition busy_world : World := mkWorld (the_core "a" enqueued) [exec (run_enqueue "now" "b")].
Definition calm_world : World := mkWorld (the_core "a" enqueued) [].

Lemma claimed_ok : core_ok (the_core "a" enqueued).
Proof. apply the_core_ok, after_ok. repeat constructor. Qed.

Lemma calm_ok : world_ok calm_world.
Proof. split; [exact claimed_ok|constructor]. Qed.
Lemma busy_ok : world_ok busy_world.
Proof.
  split; [exact claimed_ok|]. constructor; [|constructor]. intros c. apply exec_ok. by repeat constructor.
Qed.

Definition ack_end : JobRecord → Z → ClaimEnd := λ _ _, EndDone false.

(** A settlement that ends the job and enqueues another. *)
Definition then_enqueue : SettlementEffects := eff_enqueue (mkRequest "now" [2%Z] options_default) effects_default.

Lemma settlement_takes_effect_witness :
  let claim := the_claim "a" enqueued in
  ∃ j' rs w', settle_claim claim then_enqueue ack_end busy_world = (Ok (j', Some rs), w') ∧
    ∃ j now w1, passes busy_world w1 ∧ effect w1 w' (λ m m', claim_ended claim rs (EndDone false) now j m m' ∧
      effects_applied claim then_enqueue (Some rs) m m').
Proof.
  destruct (run_case is_ok (settle_claim (the_claim "a" enqueued) then_enqueue ack_end) busy_world)
    as ([[j' rs]|e] & w' & E & H); [by vm_compute|..]; try discriminate H.
  destruct (settlement_takes_effect _ _ _ _ _ _ _ busy_ok E) as (j & now & w1 & Hp & _ & _ & Hrs & He).
  destruct rs as [rs|]; [|discriminate Hrs]. exists j', rs, w'. split; [exact E|]. exists j, now, w1. by split.
Defined.

Definition is_lost {A} (r : Result A) : bool := match r with Err ClaimLost => true | _ => false end.

Lemma failed_settlement_changes_nothing_witness :
  let e := eff_kv_put [7%Z] [8%Z] effects_default in
  ∃ w', settle_claim no_claim e ack_end busy_world = (Err ClaimLost, w') ∧ passes busy_world w'.
Proof.
  destruct (run_case is_lost (settle_claim no_claim (eff_kv_put [7%Z] [8%Z] effects_default) ack_end)
    busy_world) as ([?|[]] & w' & E & H); [by vm_compute|..]; try discriminate H.
  exists w'. split; [exact E|]. by apply failed_settlement_changes_nothing in E.
Defined.

(** A claimed job with a generated id, and another task that enqueues; after the
    settlement the job is enqueued and claimed again. *)
Definition new_enqueue : Run := mkRun (CEnqueue "now" [1%Z] options_default) [].
Definition claimed_new : Core := after [new_enqueue; run_claim "0"].
Definition claim_new : Claim := the_claim "0" (after [new_enqueue]).
Definition framed_new : World := mkWorld claimed_new [exec new_enqueue].
Definition calls_since : list Run := [new_enqueue; mkRun (CClaimBatch "now" 2 (from_secs 30)) []].

Lemma new_enqueue_supplies i : ¬ supplies new_enqueue i.
Proof. by intros [(r & ->%list_elem_of_singleton & E)|[]]. Qed.
Lemma calls_supply r i : r ∈ (calls_since ++ [new_enqueue])%list → ¬ supplies r i.
Proof.
  unfold calls_since. cbn [app]. rewrite !elem_of_cons, elem_of_nil. intros [->|[->|[->|[]]]];
    [apply new_enqueue_supplies|intros [(r & []%not_elem_of_nil & _)|[]]|apply new_enqueue_supplies].
Qed.

Lemma framed_new_ok : framed_world (λ _, False) framed_new.
Proof.
  destruct (reachable_framed claimed_new) as [Hc Hi].
  { apply after_reachable. intros r i. rewrite !elem_of_cons, elem_of_nil.
    intros [->|[->|[]]]; [apply new_enqueue_supplies|intros [(r & []%not_elem_of_nil & _)|[]]]. }
  constructor; [exact Hc|exact Hi|done|]. constructor; [|constructor].
  eapply frames_mono, exec_frames. intros i. apply new_enqueue_supplies.
Qed.

Lemma claim_settled_once_witness :
  ∃ v w1, settle_claim claim_new then_enqueue (nack_end "late") framed_new = (Ok v, w1) ∧
    ∃ err w3, settle_claim claim_new effects_default ack_end
      (mkWorld (foldl (λ c r, exec r c) (core w1) calls_since) (map exec [new_enqueue])) = (Err err, w3).
Proof.
  destruct (run_case is_ok (settle_claim claim_new then_enqueue (nack_end "late")) framed_new)
    as ([v|e] & w1 & E & H); [by vm_compute|..]; try discriminate H.
  exists v, w1. split; [exact E|].
  destruct (claim_settled_once (λ _, False) claim_new then_enqueue (nack_end "late") framed_new v w1 calls_since [new_enqueue]
    effects_default ack_end framed_new_ok) as (err & w3 & E2 & _).
  - assert (Hz : ∀ n z, (0 <= z < Z.of_nat n)%Z → (z < 18446744073709551615)%Z → claim_issued n z).
    { intros n z Hn Hz m Em. cbn in Em. rewrite wrap64_small in Em by (unfold is_u64, u64_mod; lia). lia. }
    apply Hz; vm_compute; repeat split; discriminate.
  - intros r i ->%list_elem_of_singleton. discriminate.
  - exact E.
  - intros r i Hr Hs. by destruct (calls_supply r i Hr).
  - exists err, w3. exact E2.
Defined.

(** A process with one job, and another task that enqueues. *)
Definition one_job (r : Run) : World := with_runs (after [r]) [run_enqueue "now" "b"].

Lemma one_job_ok r : supplied r → world_ok (one_job r).
Proof. intros. apply with_runs_ok; by repeat constructor. Qed.

Lemma dedup_job_ok : world_ok (one_job (run_dedup "now" "a" "k")).
Proof. apply one_job_ok. repeat constructor. Qed.
Lemma scheduled_job_ok b : world_ok (one_job (run_at "now" "a" 5000000%Z b)).
Proof. apply one_job_ok. repeat constructor. Qed.

Lemma claim_by_id_takes_the_job_witness :
  let w := one_job (run_dedup "now" "a" "k") in
  ∃ c w', claim_by_id "a" (from_secs 30) w = (Ok (ClaimedOutcome c), w') ∧
    ∃ j now k, effect w w' (moved "a" k j (claimed_key (queue j) "a") (leave_waits (claim_record now j))).
Proof.
  destruct (run_case is_claimed (claim_by_id "a" (from_secs 30)) (one_job (run_dedup "now" "a" "k")))
    as ([[c| |]|e] & w' & E & H); [by vm_compute|..]; try discriminate H.
  exists c, w'. split; [exact E|].
  destruct (claim_by_id_takes_the_job _ _ _ _ _ dedup_job_ok E) as (j & now & k & _ & _ & He).
  exists j, now, k. eapply effect_mono; [|exact He]. by intros m m' [? _].
Defined.


Definition is_removed {A} (r : Result (CancelOutcome * A)) : bool :=
  match r with Ok (CancelRemoved, _) => true | _ => false end.

Lemma cancel_takes_effect_witness :
  let w := one_job (run_dedup "now" "a" "k") in
  ∃ rs w', cancel_with "a" effects_default w = (Ok (CancelRemoved, rs), w') ∧
    ∃ k j, effect w w' (removed "a" k j).
Proof.
  destruct (run_case is_removed (cancel_with "a" effects_default) (one_job (run_dedup "now" "a" "k")))
    as ([[[| |] rs]|e] & w' & E & H); [by vm_compute|..]; try discriminate H.
  exists rs, w'. split; [exact E|].
  destruct (cancel_takes_effect _ _ _ _ _ dedup_job_ok E) as (_ & k & j & _ & He). exists k, j. exact He.
Defined.

Definition is_woken (r : Result WakeOutcome) : bool := match r with Ok Woken => true | _ => false end.

Lemma wake_takes_effect_witness :
  let w := one_job (run_at "now" "a" 5000000%Z false) in
  ∃ w', wake_scheduled "a" w = (Ok Woken, w') ∧
    ∃ k j k', effect w w' (moved "a" k j k' (leave_waits (set_run_at None (set_status Pending j)))).
Proof.
  destruct (run_case is_woken (wake_scheduled "a") (one_job (run_at "now" "a" 5000000%Z false)))
    as ([[| |]|e] & w' & E & H); [by vm_compute|..]; try discriminate H.
  exists w'. split; [exact E|].
  destruct (wake_takes_effect _ _ _ _ (scheduled_job_ok _) E) as (k & j & k' & _ & He). exists k, j, k'. exact He.
Defined.

Definition is_delivered (r : Result SignalOutcome) : bool :=
  match r with Ok Delivered => true | _ => false end.

Lemma signal_is_delivered_witness :
  let w := one_job (run_at "now" "a" 5000000%Z true) in
  ∃ w', signal_job "a" [9%Z] w = (Ok Delivered, w') ∧ ∃ j, signal_wait j = true ∧ status j = Scheduled.
Proof.
  destruct (run_case is_delivered (signal_job "a" [9%Z]) (one_job (run_at "now" "a" 5000000%Z true)))
    as ([[|]|e] & w' & E & H); [by vm_compute|..]; try discriminate H.
  exists w'. split; [exact E|].
  destruct (signal_is_delivered _ _ _ _ (scheduled_job_ok _) E) as (k & j & k' & Hs & Hsw & _).
  exists j. by split.
Defined.

Definition kv_runs : list Run := [mkRun (CKvPut [1%Z] [2%Z]) []].
Definition is_bool (b : bool) (r : Result bool) : bool :=
  match r with Ok b' => Bool.eqb b b' | Err _ => false end.

Lemma kv_compare_put_is_atomic_witness :
  let w := with_runs (after kv_runs) [mkRun (CKvDelete [7%Z]) []] in
  ∃ w', kv_compare_put [1%Z] (Some [2%Z]) [3%Z] w = (Ok true, w') ∧
    effect w w' (λ m m', m !! user_scoped_key [1%Z] = Some [2%Z] ∧
      m' = <[user_scoped_key [1%Z] := [3%Z]]> m).
Proof.
  destruct (run_case (is_bool true) (kv_compare_put [1%Z] (Some [2%Z]) [3%Z])
    (with_runs (after kv_runs) [mkRun (CKvDelete [7%Z]) []]))
    as ([[|]|e] & w' & E & H); [by vm_compute|..]; try discriminate H.
  exists w'. split; [exact E|]. exact (kv_compare_put_is_atomic _ _ _ _ _ _ E).
Defined.

Lemma kv_compare_delete_is_atomic_witness :
  let w := with_runs (after kv_runs) [mkRun (CKvPut [1%Z] [4%Z]) []] in
  ∃ w', kv_compare_delete [1%Z] [2%Z] w = (Ok false, w') ∧
    no_effect w w' (λ m, m !! user_scoped_key [1%Z] ≠ Some [2%Z]).
Proof.
  destruct (run_case (is_bool false) (kv_compare_delete [1%Z] [2%Z])
    (with_runs (after kv_runs) [mkRun (CKvPut [1%Z] [4%Z]) []]))
    as ([[|]|e] & w' & E & H); [by vm_compute|..]; try discriminate H.
  exists w'. split; [exact E|]. exact (kv_compare_delete_is_atomic _ _ _ _ _ E).
Defined.
