(* ===== verification/ComponentTheorems.v ===== *)
(** * Theorems of the components

    The keys, the records, the history, the merge operator, the lease registry,
    the claim cursor, the time bounds, the waiters and the preparation of jobs,
    each on its own. *)
From S2P Require Import Prelude Bytes Error Monad Keys Job Store Stats LeaseRegistry.
From S2P Require Import TimeBound ClaimCursor Completion Txn Stage StoreInv Sound Core.
From S2P Require Import QueueCore Control Effects Claim Settle StagedOps.
From S2P Require Import Finishes Linear Outcomes MemStore.

(** ** Keys and records *)

(** The pending keys of a queue sort by priority, then by the time of the
    enqueue, then by id: the scan of a claim returns its jobs in that order. *)
Theorem pending_keys_sort_by_priority_and_time q p p' e e' i i' :
  is_u32 p → is_u32 p' → is_u64 e → is_u64 e' →
  bytes_lt (pending_key q p e i) (pending_key q p' e' i') = true ↔
    (p < p')%Z ∨ p = p' ∧ ((e < e')%Z ∨ e = e' ∧ bytes_lt (as_bytes i) (as_bytes i') = true).
Proof. apply pending_key_order. Qed.

(** Every key the process parses gives back what its builder was called with,
    and a parser refuses the keys of another tag. *)
Theorem keys_parse_back :
  (∀ t ts q i, is_u64 ts → parse_key_timestamp (time_first_key t ts q i) t = Some ts) ∧
  (∀ ts q i, is_ascii_str i = true →
     parse_inbox_expiry_entry (inbox_expiry_key ts q i) = Some (q, i)) ∧
  (∀ q, parse_cursor_key (cursor_key q) = Some q) ∧
  (∀ q m, is_ascii_str m = true → parse_stats_key (stats_key q m) = Some (qn_str q, m)) ∧
  (∀ k q, parse_cursor_key k = Some q → tag_of k = Some TCursor) ∧
  (∀ k x, parse_stats_key k = Some x → tag_of k = Some TStats) ∧
  (∀ k x, parse_inbox_expiry_entry k = Some x → tag_of k = Some TInboxExpiry) ∧
  (∀ k t ts, parse_key_timestamp k t = Some ts → tag_of k = Some t).
Proof.
  assert (Htag : ∀ t k r, strip_prefix (header t) k = Some r → tag_of k = Some t).
  { intros t k r ->%strip_prefix_Some. apply tag_of_header. }
  split_and!.
  - intros. by apply parse_key_timestamp_time_first.
  - intros. by apply parse_inbox_expiry_entry_roundtrip.
  - apply parse_cursor_key_roundtrip.
  - intros. by apply parse_stats_key_roundtrip.
  - intros k q. unfold parse_cursor_key. destruct (strip_prefix _ _) eqn:E; [|done]. by apply Htag in E.
  - intros k x. unfold parse_stats_key. destruct (strip_prefix _ _) eqn:E; [|done]. by apply Htag in E.
  - intros k x. unfold parse_inbox_expiry_entry. destruct (strip_prefix _ _) eqn:E; [|done].
    by apply Htag in E.
  - intros k t ts. unfold parse_key_timestamp. destruct (strip_prefix _ _) eqn:E; [|done].
    by apply Htag in E.
Qed.

Section records.
  Context {SR : Serde JobRecord} {SA : Serde JobAttempt}.

(** A stored record reads back, from its key and its bytes, as the record
    without its offloaded payload, with the state the key space gives it; and two
    records stored at one key are of the same id, queue and state. *)
Theorem stored_record_reads_back j k :
  stored_key j = Ok k →
  decode_job k (stored_bytes j) = Ok (stored_clone j) ∧
  (payload_ref j = None → stored_clone j = j) ∧
  ∀ j', stored_key j' = Ok k → id j' = id j ∧ queue j' = queue j ∧ status j' = status j.
Proof.
  intros Hk. split; [by apply decode_stored|]. split.
  - intros Hr. unfold stored_clone. rewrite Hr. by destruct j.
  - intros j' Hk'. by apply (stored_key_inj j' j k).
Qed.

(** The attempt history is append-only and reads back: what the merge operator
    makes of the stored entries and of appended ones decodes to the stored entries
    followed by the appended ones. *)
Theorem history_reads_back i (old new : list JobAttempt) :
  ∃ b, merge_batch (attempt_history_key i)
         (match old with [] => None | _ => Some (concat (encode <$> old)) end) (encode <$> new) = Ok b ∧
    decode_history b = Ok (old ++ new)%list.
Proof.
  rewrite merge_batch_history. eexists. split; [done|]. unfold merge_append, decode_history.
  replace (default [] _ ++ concat (encode <$> new))%list with (concat (encode <$> (old ++ new)%list))
    by (rewrite fmap_app, concat_app; by destruct old).
  by apply decode_entries_concat.
Qed.
End records.

(** The merge operator may be applied in any grouping: a batch of operands is
    the merge of its first part followed by the merge of the rest, for the
    counters, the histories and the refused key spaces; and the merge of one
    operand is a batch of one. *)
Theorem merges_regroup k e a b :
  merge_batch k e (a ++ b)%list = (m ← merge_batch k e a; merge_batch k (Some m) b) ∧
  ∀ o, merge_one k e o = merge_batch k e [o].
Proof. split; [apply merge_batch_app|done]. Qed.

(** ** The lease registry *)

(** [take_due] returns exactly the leases that expired, soonest first, with
    their claim ids, marks exactly those as being reaped, removes none, and never
    finds the index without an entry. *)
Theorem take_due_returns_the_expired now r :
  registry_wf r →
  ∃ due r', take_due now r = Ok (due, r') ∧ registry_wf r' ∧
    StronglySorted (λ d d', (due_expires_at d ≤ due_expires_at d')%Z) due ∧
    (∀ d, d ∈ due ↔ ∃ e, by_job r !! (due_queue d, due_id d) = Some e ∧
       expires_at e = due_expires_at d ∧ entry_claim_id e = due_claim_id d ∧
       (expires_at e ≤ now)%Z) ∧
    (∀ k, by_job r' !! k =
       (λ e, if (expires_at e <=? now)%Z then set_reaping e else e) <$> by_job r !! k) ∧
    closed r' = closed r ∧ fired r' = fired r.
Proof. apply take_due_wf_spec. Qed.

(** A renewal changes the expiry of the lease of its own claim and no other
    one, never on a closed registry, a fired token, a lease being reaped or one of
    another claim; a renewal that only extends never shortens a lease; and each
    refusal has the error of its cause. *)
Theorem renewal_is_fenced q i cid tok at' mode r :
  registry_wf r →
  match lease_renew q i cid tok at' mode r with
  | Ok (changed, r') => closed r = false ∧ tok ∉ fired r ∧ registry_wf r' ∧
      ∃ e, by_job r !! (q, i) = Some e ∧ entry_claim_id e = cid ∧ reaping e = false ∧
        let at'' := match mode with Set_ => at' | Extend => Z.max at' (expires_at e) end in
        by_job r' !! (q, i) = Some (set_expires_at at'' e) ∧
        changed = (negb (expires_at e =? at'')%Z) ∧
        ∀ k, k ≠ (q, i) → by_job r' !! k = by_job r !! k
  | Err CancelRequested => closed r = false ∧ tok ∈ fired r
  | Err ClaimLost => closed r = true ∨ tok ∉ fired r ∧
      ∀ e, by_job r !! (q, i) = Some e → entry_claim_id e = cid → reaping e = true
  | Err _ => False
  end.
Proof.
  intros Hwf. destruct (lease_renew q i cid tok at' mode r) as [[changed r']|err] eqn:E.
  - assert (Hwf' : registry_wf r') by by eapply lease_renew_wf.
    unfold lease_renew, is_cancelled in E. destruct (closed r) eqn:Hc; [done|].
    case_bool_decide as Ht; [done|]. destruct (by_job r !! (q, i)) as [e|] eqn:He; [|done].
    destruct (bool_decide _ && _) eqn:Hb; [|done].
    apply andb_true_iff in Hb as [Hid%bool_decide_eq_true Hr%negb_true_iff].
    split; [done|]. split; [done|]. split; [done|]. exists e. split; [done|]. split; [done|]. split; [done|].
    assert (Hsame : set_expires_at (expires_at e) e = e) by by destruct e.
    destruct (Z.eqb_spec (expires_at e) at') as [<-|Hne]; cbn [orb] in E.
    { injection E as <- <-. destruct mode; cbn zeta; rewrite ?Z.max_id, Hsame, Z.eqb_refl; done. }
    destruct mode.
    + injection E as <- <-. cbn zeta. cbn [by_job]. rewrite lookup_insert_eq.
      rewrite (proj2 (Z.eqb_neq _ _)) by done. split; [done|]. split; [done|].
      intros k Hk. by rewrite lookup_insert_ne.
    + destruct (Z.ltb_spec at' (expires_at e)) as [Hlt|Hle]; injection E as <- <-; cbn zeta.
      * rewrite Z.max_r, Hsame, Z.eqb_refl by lia. done.
      * rewrite Z.max_l by lia. cbn [by_job]. rewrite lookup_insert_eq.
        rewrite (proj2 (Z.eqb_neq _ _)) by done. split; [done|]. split; [done|].
        intros k Hk. by rewrite lookup_insert_ne.
  - unfold lease_renew, is_cancelled in E. destruct (closed r) eqn:Hc.
    { injection E as <-. by left. }
    case_bool_decide as Ht; [by injection E as <-|].
    destruct (by_job r !! (q, i)) as [e|] eqn:He.
    + destruct (bool_decide _ && _) eqn:Hb; [by destruct (_ || _)|]. injection E as <-. right.
      split; [done|]. intros e' [= <-] Hid. rewrite bool_decide_eq_true_2 in Hb by done. cbn in Hb.
      by apply negb_false_iff in Hb.
    + injection E as <-. right. split; [done|]. intros e' [=].
Qed.

(** ** The claim cursor, the time bounds and the waiters *)

(** C34: no claim misses a job: whatever inserts, removals and claims interleave,
    a scan from the cursor's bound yields every pending key whose insert was noted,
    and a queue that is known to be empty has none. *)
Theorem no_claim_misses_a_job st k :
  PendingScan.reachable st → PendingScan.noted st k →
  from_bound (cs_scan_from (PendingScan.cursor st)) k = true ∧
  state_known_empty (PendingScan.cursor st) = false.
Proof.
  intros (_ & _ & Hb & He & _)%PendingScan.reachable_inv Hk. split; [by apply Hb|].
  apply not_true_iff_false. intros Hke. by apply (He Hke k).
Qed.

(** C35: no sweep misses a due key: when no scan is in flight, a key that is due
    and whose writer noted it makes the next pass begin, at or before the time of
    the key, and the pass reads it. *)
Theorem no_sweep_misses_a_due_key st k now ret :
  Sweep.reachable st → Sweep.scans st = [] →
  k ∈ Sweep.live st → k ∉ Sweep.unnoted st → is_due k.1 now ret = true →
  ∃ s, tb_begin now ret (Sweep.bound st) = (Some s, U64_MAX) ∧
    (scan_from s ≤ k.1)%Z ∧ k ∈ Sweep.read_due s (Sweep.live st).
Proof.
  intros (_ & _ & Hinv)%Sweep.reachable_bound_inv Hs Hk Hu Hdue.
  destruct (Hinv k Hk Hu) as [Hle|(sp & Hsp & _)]; [|rewrite Hs in Hsp; by apply elem_of_nil in Hsp].
  unfold tb_begin. rewrite (is_due_mono _ _ _ _ Hle Hdue). eexists. split; [done|]. cbn.
  split; [done|]. unfold Sweep.read_due. apply elem_of_filter. cbn. done.
Qed.

(** The cursor survives a clean close: what is exported and restored after the
    open claims from the same bound with the same emptiness, and a queue that is
    not exported has neither, as after an open without a record. *)
Theorem cursor_survives_a_close s :
  match export_state s with
  | Some st => cs_scan_from (restore_state st claim_state_default) = cs_scan_from s ∧
      state_known_empty (restore_state st claim_state_default) = state_known_empty s
  | None => cs_scan_from s = None ∧ state_known_empty s = false
  end.
Proof.
  unfold export_state. destruct (cs_scan_from s) as [sf|] eqn:E; cbn.
  - split; [done|]. by destruct (state_known_empty s).
  - by destruct (state_known_empty s).
Qed.

(** A waiter gets the outcome of its job: between its registration and the
    settlement of its id it has none, whichever registrations, withdrawals of
    others and settlements of other ids come, and the settlement delivers it. *)
Theorem a_registered_waiter_is_served jid o c r c1 c2 :
  waiters_wf c → (next_key c + 1 < u64_mod)%Z → register jid c = (r, c1) →
  rtc (waiter_step jid (reg_key r)) c1 c2 →
  try_outcome r c2 = None ∧ try_outcome r (waiters_settle jid o c2) = Some o.
Proof.
  intros Hwf Hlt E Hs.
  assert (Hr : reg_key r = next_key c ∧ waits_for jid (next_key c) c1 ∧ is_u64 (next_key c1)).
  { pose proof (register_waits jid c Hlt Hwf) as H1. rewrite E in H1. injection E as <- <-.
    split; [done|]. split; [done|]. apply wrap64_range. }
  clear E. destruct Hr as (Hr & Hw & Hn). rewrite <- Hr in Hw. unfold try_outcome.
  assert (Hw2 : waits_for jid (reg_key r) c2).
  { clear Hr Hwf Hlt. induction Hs as [|x y z Hst _ IH]; [done|].
    destruct (waiter_step_waits _ _ _ _ Hst Hn Hw) as [H2 H3]. by apply IH. }
  split; [apply Hw2|by apply waits_settled].
Qed.

(** ** Names, preparation, retries and counts *)

(** A queue name is accepted exactly when it has 1 to 255 bytes, begins with a
    letter or a digit and consists of letters, digits, dots, underscores and
    dashes; an accepted name is kept as it is. *)
Theorem queue_names_have_their_form s :
  match QueueName_new s with
  | Ok q => qn_str q = s ∧ 0 < str_len s ≤ 255 ∧
      (∀ c, head (as_bytes s) = Some c → is_ascii_alphanumeric c = true) ∧
      Forall (λ c, is_ascii_alphanumeric c = true ∨ c = 46%Z ∨ c = 95%Z ∨ c = 45%Z) (as_bytes s)
  | Err e => (∃ reason, e = InvalidQueueName s reason) ∧
      ¬ (0 < str_len s ≤ 255 ∧
         (∀ c, head (as_bytes s) = Some c → is_ascii_alphanumeric c = true) ∧
         Forall (λ c, is_ascii_alphanumeric c = true ∨ c = 46%Z ∨ c = 95%Z ∨ c = 45%Z) (as_bytes s))
  end.
Proof.
  pose proof (form_check_ascii QUEUE_NAME_FORM s queue_char_ascii) as Hform.
  assert (Hchars : Forall (λ c, form_characters QUEUE_NAME_FORM c = true) (as_bytes s) ↔
    Forall (λ c, is_ascii_alphanumeric c = true ∨ c = 46%Z ∨ c = 95%Z ∨ c = 45%Z) (as_bytes s)).
  { apply Forall_proper; [|done]. intros c. cbn. rewrite orb_true_iff, bool_decide_eq_true.
    rewrite !elem_of_cons, elem_of_nil. tauto. }
  rewrite Hchars in Hform. cbn [form_max QUEUE_NAME_FORM form_start] in Hform.
  assert (Hf : form_check QUEUE_NAME_FORM s = Ok () ↔ 0 < str_len s ≤ 255 ∧
    (∀ c, head (as_bytes s) = Some c → is_ascii_alphanumeric c = true) ∧
    Forall (λ c, is_ascii_alphanumeric c = true ∨ c = 46%Z ∨ c = 95%Z ∨ c = 45%Z) (as_bytes s)).
  { rewrite Hform. unfold MAX_QUEUE_NAME_LEN. split.
    - intros (? & ? & ? & Hs). split; [lia|]. split; [|done]. intros c Hc. by apply (Hs _ c eq_refl).
    - intros (? & Hs & ?). split; [lia|]. split; [lia|]. split; [done|].
      intros start c [= <-] Hc. by apply Hs. }
  destruct (QueueName_new s) as [q|e] eqn:E.
  - split; [by apply QueueName_new_Ok|]. apply Hf. apply QueueName_new_Ok in E as <-. apply qn_valid.
  - rewrite <- Hf. unfold QueueName_new in E. revert E.
    generalize (@eq_refl _ (form_check QUEUE_NAME_FORM s)).
    generalize (form_check QUEUE_NAME_FORM s) at 2 3. intros [[]|reason] Heq; [done|].
    intros [= <-]. split; [by exists reason|]. by rewrite Heq.
Qed.

(** The backoff of a retry is bounded by its maximum, grows with the attempts,
    starts at the base and doubles with each attempt until it is capped, for any
    base and maximum of a [Duration]. *)
Theorem backoff_doubles_up_to_its_maximum base' max' :
  (0 ≤ base' ≤ duration_max)%Z → (0 ≤ max' ≤ duration_max)%Z →
  (∀ n, (0 ≤ backoff_delay n base' max' ≤ max')%Z) ∧
  (∀ n n', (n ≤ n')%Z → (backoff_delay n base' max' ≤ backoff_delay n' base' max')%Z) ∧
  (∀ n, (1 ≤ n ≤ 32)%Z → backoff_delay n base' max' = Z.min (base' * 2 ^ (n - 1)) max') ∧
  (∀ n, (n ≤ 1)%Z → backoff_delay n base' max' = Z.min base' max').
Proof.
  intros Hb Hm. assert (Hd : (0 < duration_max)%Z) by (unfold duration_max, u64_max; lia).
  assert (Hmul : ∀ n, (1 ≤ Z.min (2 ^ Z.max (n - 1) 0) u32_max)%Z).
  { intros n. assert (1 ≤ 2 ^ Z.max (n - 1) 0)%Z.
    { change 1%Z with (2 ^ 0)%Z. apply Z.pow_le_mono_r; lia. } unfold u32_max. lia. }
  unfold backoff_delay. split_and!; intros n; [|intros n' Hn|intros Hn|intros Hn];
    repeat (case_decide; [subst; lia|]).
  - specialize (Hmul n). assert (0 ≤ base' * Z.min (2 ^ Z.max (n - 1) 0) u32_max)%Z by nia. lia.
  - assert (2 ^ Z.max (n - 1) 0 ≤ 2 ^ Z.max (n' - 1) 0)%Z by (apply Z.pow_le_mono_r; lia).
    assert (base' * Z.min (2 ^ Z.max (n - 1) 0) u32_max ≤ base' * Z.min (2 ^ Z.max (n' - 1) 0) u32_max)%Z
      by (apply Z.mul_le_mono_nonneg_l; lia). lia.
  - rewrite Z.max_l by lia. assert (2 ^ (n - 1) ≤ 2 ^ 31)%Z by (apply Z.pow_le_mono_r; lia).
    rewrite (Z.min_l (2 ^ (n - 1))) by (unfold u32_max; lia). lia.
  - rewrite Z.max_r by lia. change (2 ^ 0)%Z with 1%Z. rewrite (Z.min_l 1) by (unfold u32_max; lia). lia.
Qed.

Section jobs.
  Context {DB : SlateDb} {OS : ObjectStore} {SR : Serde JobRecord} {SA : Serde JobAttempt}.
  Context {SC : Serde CountRecord} {EN : Env}.

(** A failed attempt retries until the attempts of the job are used: the last
    one dead-letters the job with the error, an earlier one returns it to pending
    at once without a backoff, and otherwise schedules it at the end of its
    backoff, which is not before now, with the error kept. *)
Theorem nack_retries_until_the_last_attempt error j now :
  let cfg := configs_get configs (qn_str (queue j)) in
  let backoff := backoff_delay (attempts j) (cfg_retry_backoff_base cfg) (cfg_retry_backoff_max cfg) in
  ((max_attempts j ≤ attempts j)%Z → nack_end error j now = EndDead error) ∧
  ((attempts j < max_attempts j)%Z → backoff = 0%Z →
     nack_end error j now = EndRetry None ORetried (Some error)) ∧
  ((attempts j < max_attempts j)%Z → backoff ≠ 0%Z → (0 ≤ backoff)%Z → (0 ≤ now)%Z →
     (now + as_millis backoff < u64_mod)%Z →
     ∃ at', nack_end error j now = EndRetry (Some at') ORetried (Some error) ∧
       at' = (now + as_millis backoff)%Z ∧ (now ≤ at')%Z).
Proof.
  cbn zeta. unfold nack_end, is_last_attempt. set (b := backoff_delay _ _ _). split_and!.
  - intros Hle. by rewrite (proj2 (Z.leb_le _ _)).
  - intros Hlt Hb. rewrite (proj2 (Z.leb_gt _ _)) by done. by rewrite Hb, decide_True.
  - intros Hlt Hb Hb0 Hn Hov. rewrite (proj2 (Z.leb_gt _ _)) by done. rewrite decide_False by done.
    assert (Hm : (0 ≤ as_millis b)%Z) by (unfold as_millis; apply Z.div_pos; lia).
    eexists. split; [done|]. unfold millis_u64.
    rewrite (wrap64_small (as_millis b)) by (unfold is_u64; lia).
    rewrite wrap64_small by (unfold is_u64; lia). lia.
Qed.

End jobs.

(** *** Offloaded payloads *)

Section offload.
  Context {DB : SlateDb} {OS : ObjectStore} {SR : Serde JobRecord} {SA : Serde JobAttempt}.
  Context {EN : Env}.
  (** An object reads back after it was put. *)
  Context (put_get : ∀ p b o o', os_put p b o = (Ok (), o') → os_get p o' = Ok b).

(** An offloaded payload comes back: a payload above the threshold leaves the
    record, and no other payload does; what the stored record fetches when it is
    materialized is the payload it was enqueued with. *)
Theorem offloaded_payload_comes_back j w j' w' :
  payload_ref j = None → offload j w = (Ok j', w') →
  (materialize (stored_clone j') w').1 = Ok (set_payload_ref (payload_ref j') j) ∧
  (is_Some (payload_ref j') ↔ ∃ t, offload_threshold payload_store = Some t ∧ t < length (payload j)) ∧
  (is_Some (payload_ref j') → payload (stored_clone j') = []).
Proof using put_get.
  intros Hr H. unfold offload in H. destruct (offload_threshold payload_store) as [t|] eqn:Et.
  2: { injection H as <- <-. unfold materialize, stored_clone. rewrite Hr. cbn. rewrite Hr.
       split; [by destruct j; cbn in *; subst|]. split; [|by intros [? [=]]].
       split; [by intros [? [=]]|]. by intros (? & [=] & _). }
  case_decide as Hlen.
  { injection H as <- <-. unfold materialize, stored_clone. rewrite Hr. cbn. rewrite Hr.
    split; [by destruct j; cbn in *; subst|]. split; [|by intros [? [=]]].
    split; [by intros [? [=]]|]. intros (? & [= <-] & ?). lia. }
  apply IO_bind_Ok in H as (u & w1 & _ & H). apply IO_bind_Ok in H as ([] & w2 & Ep & H).
  injection H as <- <-. split; [|split; [|done]].
  - unfold payload_put, on_objects, io_state, mbind, IO_bind in Ep.
    destruct (os_put _ _ _) as [[[]|e] o'] eqn:Eo; [|done]. injection Ep as <-.
    apply put_get in Eo. unfold materialize, payload_get, stored_clone, mbind, IO_bind, get, io_gets.
    cbn. rewrite Eo. cbn. by destruct j.
  - split; [|by eexists]. intros _. exists t. split; [done|lia].
Qed.
End offload.

(** *** Counts *)

Section counts.
  Context {DB : SlateDb} {OS : ObjectStore} {SR : Serde JobRecord} {SA : Serde JobAttempt}.
  Context {SC : Serde CountRecord} {EN : Env} {DL : SlateDbLaws merge_batch}.
  Implicit Types (m : gmap bytes bytes).

(** What a count is in the contents of a store. *)
Definition count_at m (name : string) (r : CountRecord) : Prop :=
  match m !! count_key name with
  | None => r = count_default
  | Some b => from_slice b = Ok r
  end.

(** The job that waits for a count: the waiter of the record, when it is scheduled
    and still waits for it. *)
Definition waiting_job m (name : string) (r : CountRecord) : option (string * bytes * JobRecord) :=
  w ← waiter r; '(k, j) ← lookup_job m w;
  if decide (status j = Scheduled ∧ count_wait j = Some name) then Some (w, k, j) else None.

Lemma waiting_job_ext m m' name r :
  (∀ k, k ≠ count_key name → m' !! k = m !! k) → waiting_job m' name r = waiting_job m name r.
Proof.
  intros Hext. unfold waiting_job, lookup_job. destruct (waiter r) as [w|]; [|done].
  cbn [mbind option_bind].
  rewrite (Hext (job_index_key w)) by done. destruct (m !! job_index_key w) as [k|]; [|done].
  cbn [mbind option_bind].
  assert (Hat : job_at m' k = job_at m k).
  { unfold job_at. destruct (decide (k = count_key name)) as [->|Hne]; [|by rewrite Hext].
    assert (Hno : ∀ b, decode_job (count_key name) b = Err (Deserialization "key holds no job record"))
      by done.
    by destruct (m' !! _), (m !! _); cbn; rewrite ?Hno. }
  by rewrite Hat.
Qed.

(** The change of a count wakes its waiter exactly at zero: a change that
    leaves another number writes it and keeps the waiter; one that leaves zero
    deletes the count and moves the job that waits for it, if there still is one,
    to the pending space without its waits; and a change by zero writes nothing. *)
Theorem a_count_wakes_its_waiter_at_zero name d t t' :
  store_ok (tview t) → stage_count_change name d t = Ok ((), t') →
  if decide (d = 0%Z) then t' = t
  else ∃ r, count_at (tview t) name r ∧
    let n := wrap_i64 (active r + d) in
    if decide (n = 0%Z) then
      tview t' !! count_key name = None ∧
      match waiting_job (tview t) name r with
      | None => tview t' = delete (count_key name) (tview t)
      | Some (w, k, j) => ∃ k',
          let j' := leave_waits (set_run_at None (set_status Pending j)) in
          stored_key j' = Ok k' ∧ tview t' !! k = None ∧ tview t' !! k' = Some (stored_bytes j') ∧
          tview t' !! job_index_key w = Some k'
      end
    else tview t' = <[count_key name := encode (mkCount n (waiter r))]> (tview t).
Proof using DL SA EN.
  intros Hok H. unfold stage_count_change in H. case_decide as Hd; [by injection H|].
  apply M_bind_Ok in H as (r & t1 & E & H). unfold read_record in E.
  apply M_bind_Ok in E as (raw & t2 & Eg & E). apply t_get_Ok in Eg. injection Eg as -> ->.
  assert (count_at (tview t) name r ∧ t1 = t) as [Hr ->].
  { unfold count_at. destruct (tview t !! count_key name) as [b|].
    - apply of_result_Ok in E as (x & Hx & [= -> ->]). done.
    - by injection E as <- <-. }
  exists r. split; [done|]. cbn zeta in *.
  destruct (decide (wrap_i64 (active r + d) = 0%Z)) as [Hz|Hz].
  2: { rewrite decide_True in H by done. apply t_put_Ok in H as (Hst & _).
       apply stages_tview in Hst. by cbn in Hst. }
  rewrite decide_False in H by (intros Hn; by apply Hn).
  apply M_bind_Ok in H as ([] & t1 & E1 & H). apply t_delete_Ok in E1 as (Hst1 & _). cbn [snd] in Hst1.
  pose proof (stages_tview _ _ _ Hst1) as Hv1. cbn in Hv1.
  assert (Hext : ∀ k, k ≠ count_key name → tview t1 !! k = tview t !! k).
  { intros k Hk. rewrite Hv1. by rewrite lookup_delete_ne. }
  rewrite <- (waiting_job_ext _ _ name r Hext). unfold waiting_job.
  destruct (waiter r) as [w|]; cbn [mbind option_bind].
  2: { injection H as <-. rewrite Hv1. by rewrite lookup_delete_eq. }
  apply M_bind_Ok in H as (res & t2 & E2 & H). injection H as <-.
  apply stage_wake_found in E2.
  2: { rewrite Hv1. apply (store_ok_ext (tview t)); [|done]. intros k Hk. rewrite lookup_delete_ne; [done|].
       by intros <-. }
  destruct res as [why|q]; cbn in E2.
  - destruct E2 as [-> Hwhy]. split; [rewrite Hv1; by rewrite lookup_delete_eq|].
    assert (Hnone : (x ← lookup_job (tview t1) w; let '(k, j) := x in
      if decide (status j = Scheduled ∧ count_wait j = Some name) then Some (w, k, j) else None) = None).
    { destruct why; [by rewrite Hwhy|..].
      - destruct Hwhy as (k & j & -> & Hs). cbn. rewrite decide_False; [done|tauto].
      - destruct Hwhy as (k & j & -> & Hs & Hw). cbn. rewrite decide_False; [done|].
        cbn in Hw. case_decide; [done|]. tauto. }
    by rewrite Hnone.
  - destruct E2 as (k & j & j1 & k' & Hl & Hs & Hw & _ & Hk' & Hi & Hne & Hst).
    cbn in Hw. case_decide as Hcw; [|done]. injection Hw as <-. rewrite Hl. cbn [mbind option_bind].
    rewrite decide_True by done. pose proof (stages_tview _ _ _ Hst) as Hv. unfold put_writes in Hv.
    rewrite Hi in Hv. unfold apply_writes in Hv. cbn [foldl apply_write] in Hv.
    assert (Hkr : is_Some (record_status k)).
    { unfold lookup_job in Hl. destruct (tview t1 !! _); [|done]. cbn in Hl.
      destruct (job_at (tview t1) _) eqn:Ej; [|done]. cbn in Hl. injection Hl as -> ->.
      apply job_at_Some in Ej as (b & _ & Hdj). apply decode_job_status in Hdj. by rewrite Hdj. }
    pose proof (stored_key_record _ _ Hk') as Hkr'.
    assert (k ≠ job_index_key w) by (intros ->; by destruct Hkr).
    assert (k' ≠ job_index_key w) by (intros ->; by destruct Hkr').
    assert (Hkc : k ≠ count_key name) by (intros ->; by destruct Hkr).
    assert (Hkc' : k' ≠ count_key name) by (intros ->; by destruct Hkr').
    split.
    + rewrite Hv, lookup_insert_ne, lookup_insert_ne, lookup_delete_ne by done.
      rewrite Hv1. by rewrite lookup_delete_eq.
    + exists k'. cbn zeta. split; [done|]. rewrite Hv. split_and!.
      * rewrite lookup_insert_ne, lookup_insert_ne by done. by rewrite lookup_delete_eq.
      * rewrite lookup_insert_ne by done. by rewrite lookup_insert_eq.
      * by rewrite lookup_insert_eq.
Qed.
End counts.

(** ** The theorems at concrete inputs *)

Definition demo_queue : QueueName := mkQueueName "demo" eq_refl.
Definition demo_job : JobRecord := new_pending "job" demo_queue [1%Z; 2%Z] 3 5 100.
Definition demo_registry : LeaseRegistry :=
  lease_insert demo_queue "b" 20 2 2 (lease_insert demo_queue "a" 5 1 1 registry_new).

Lemma demo_registry_wf : registry_wf demo_registry.
Proof. apply lease_insert_wf, lease_insert_wf, registry_new_wf. Qed.

Lemma pending_keys_sort_by_priority_and_time_witness :
  bytes_lt (pending_key demo_queue 1 7 "b") (pending_key demo_queue 2 3 "a") = true.
Proof.
  apply pending_keys_sort_by_priority_and_time; [by unfold is_u32..|by unfold is_u64|by unfold is_u64|].
  by left.
Defined.

Lemma stored_record_reads_back_witness :
  ∃ k, stored_key demo_job = Ok k ∧ decode_job k (stored_bytes demo_job) = Ok demo_job.
Proof.
  exists (pending_key demo_queue 5 100 "job"). split; [done|].
  destruct (stored_record_reads_back demo_job (pending_key demo_queue 5 100 "job") eq_refl)
    as (H & Hr & _).
  rewrite <- (Hr eq_refl) at 2. exact H.
Defined.

Lemma take_due_returns_the_expired_witness :
  ∃ due r' d, take_due 10 demo_registry = Ok (due, r') ∧ d ∈ due ∧ due_id d = "a" ∧ due_claim_id d = 1%Z.
Proof.
  destruct (take_due_returns_the_expired 10 _ demo_registry_wf) as (due & r' & E & _ & _ & Hd & _).
  exists due, r', (mkDueLease demo_queue "a" 5 1). split; [exact E|]. split; [|done].
  apply Hd. exists (mkEntry 5 1 1 false). split; [reflexivity|]. split; [done|]. split; [done|]. done.
Defined.

Lemma renewal_is_fenced_witness :
  (∃ r', lease_renew demo_queue "a" 1 1 30 Extend demo_registry = Ok (true, r') ∧
     by_job r' !! (demo_queue, "a") = Some (mkEntry 30 1 1 false)) ∧
  lease_renew demo_queue "a" 2 1 30 Extend demo_registry = Err ClaimLost.
Proof.
  split; [|reflexivity].
  pose proof (renewal_is_fenced demo_queue "a" 1 1 30 Extend _ demo_registry_wf) as H.
  destruct (lease_renew demo_queue "a" 1 1 30 Extend demo_registry) as [[ch r']|e] eqn:E; [|discriminate E].
  destruct H as (_ & _ & _ & e & He & _ & _ & Hr & Hc & _).
  assert (He' : by_job demo_registry !! (demo_queue, "a") = Some (mkEntry 5 1 1 false)) by reflexivity.
  rewrite He' in He. injection He as <-. exists r'. rewrite Hr, Hc. split; reflexivity.
Defined.

Lemma no_claim_misses_a_job_witness :
  ∃ st, PendingScan.reachable st ∧ PendingScan.noted st (pending_key demo_queue 5 100 "job") ∧
    from_bound (cs_scan_from (PendingScan.cursor st)) (pending_key demo_queue 5 100 "job") = true.
Proof.
  set (k := pending_key demo_queue 5 100 "job").
  assert (Hr : PendingScan.reachable (PendingScan.mkState ({[k]} ∪ ∅) []
    (note_pending_state k 1 claim_state_default) PendingScan.Idle)).
  { eapply PendingScan.reach_step; [eapply PendingScan.reach_step|].
    - apply (PendingScan.reach_init (PendingScan.mkState ∅ [] claim_state_default PendingScan.Idle)). done.
    - apply (PendingScan.step_insert ∅ [] claim_state_default PendingScan.Idle {[k]}). set_solver.
    - apply (PendingScan.step_note ({[k]} ∪ ∅) [] {[k]} [] claim_state_default PendingScan.Idle k 1);
        [set_solver| |done].
      intros k' ->%elem_of_singleton. apply bytes_le_refl. }
  assert (Hn : PendingScan.noted (PendingScan.mkState ({[k]} ∪ ∅) []
    (note_pending_state k 1 claim_state_default) PendingScan.Idle) k).
  { split; cbn; set_solver. }
  eexists. split; [exact Hr|]. split; [exact Hn|]. by apply (no_claim_misses_a_job _ _ Hr Hn).
Defined.

Lemma no_sweep_misses_a_due_key_witness :
  ∃ s, tb_begin 10 0 time_bound_new = (Some s, U64_MAX) ∧ (5, "a")%Z ∈ Sweep.read_due s {[(5, "a")%Z]}.
Proof.
  set (st := Sweep.mkState {[(5, "a")%Z]} ∅ time_bound_new []).
  assert (Hr : Sweep.reachable st).
  { apply Sweep.reach_init. split; [done|]. split; [done|]. split; [done|].
    intros k Hk. cbn in Hk. by apply elem_of_singleton in Hk as ->. }
  destruct (no_sweep_misses_a_due_key st (5, "a")%Z 10 0 Hr eq_refl) as (s & E & _ & Hk);
    [subst st; cbn; set_solver|subst st; cbn; set_solver|reflexivity|].
  exists s. split; [exact E|exact Hk].
Defined.

Lemma a_registered_waiter_is_served_witness :
  let '(r, c1) := register "job" waiters_new in
  try_outcome r (waiters_settle "job" WaitCancelled (register "other" c1).2) = Some WaitCancelled.
Proof.
  assert (Hwf : waiters_wf waiters_new).
  { constructor; cbn; [intros j|intros j ks k|intros k o|done];
      by rewrite ?lookup_empty. }
  apply (a_registered_waiter_is_served "job" WaitCancelled waiters_new (mkRegistration "job" 0)
    (register "job" waiters_new).2 _ Hwf); [reflexivity|reflexivity|].
  apply rtc_once. constructor. reflexivity.
Defined.

Lemma backoff_doubles_up_to_its_maximum_witness :
  backoff_delay 3 (from_secs 1) (from_secs 60) = from_secs 4 ∧
  (backoff_delay 40 (from_secs 1) (from_secs 60) ≤ from_secs 60)%Z.
Proof.
  destruct (backoff_doubles_up_to_its_maximum (from_secs 1) (from_secs 60)) as (Hb & _ & H & _);
    [unfold duration_max; split; discriminate..|].
  split; [|apply Hb]. rewrite H by lia. reflexivity.
Defined.

(** An environment that offloads the payloads above one byte. *)
Definition offload_env : Env := {|
  clock_now n := (1000000 + 1000 * Z.of_nat n)%Z;
  ulid_new n := Z.of_nat n;
  ulid_generate n at' := Z.of_nat n;
  ulid_string u := pretty.pretty u;
  configs := mkConfigs config_default ∅;
  payload_store := mkPayloadStore "payloads" (Some 1);
|}.

Lemma offloaded_payload_comes_back_witness :
  ∃ j' w', @offload _ _ offload_env demo_job (mkWorld core_new []) = (Ok j', w') ∧
    is_Some (payload_ref j') ∧ payload (stored_clone j') = [] ∧
    (@materialize _ _ offload_env (stored_clone j') w').1 =
      Ok (set_payload_ref (payload_ref j') demo_job).
Proof.
  destruct (@offload _ _ offload_env demo_job (mkWorld core_new [])) as [r w'] eqn:E.
  assert (Hr : ∃ j', r = Ok j').
  { assert (H : match r with Ok _ => true | Err _ => false end = true)
      by (rewrite <- (f_equal fst E : _ = r); reflexivity).
    destruct r as [j'|]; [by eexists|discriminate H]. }
  destruct Hr as [j' ->]. exists j', w'. split; [done|].
  destruct (@offloaded_payload_comes_back mem_store mem_objects offload_env) with
    (j := demo_job) (w := mkWorld core_new []) (j' := j') (w' := w') as (H1 & H2 & H3).
  - intros p b o o' [= <-]. cbn. by rewrite lookup_insert_eq.
  - reflexivity.
  - exact E.
  - assert (Hs : is_Some (payload_ref j')).
    { apply H2. exists 1. split; [done|]. cbn. lia. }
    split; [done|]. split; [by apply H3|exact H1].
Defined.

(** A transaction on an empty store that has staged a count of one. *)
Definition counted_txn : Txn :=
  mkTxn (mkMemTxn mem_empty [WPut (count_key "c") (encode (mkCount 1 None))] ∅) notes_default ∅.

Lemma a_count_wakes_its_waiter_at_zero_witness :
  ∃ t', stage_count_change "c" (-1) counted_txn = Ok (tt, t') ∧ tview t' !! count_key "c" = None.
Proof.
  destruct (stage_count_change "c" (-1) counted_txn) as [[[] t']|e] eqn:E; [|discriminate E].
  exists t'. split; [done|].
  assert (Hok : store_ok (tview counted_txn)).
  { apply (store_ok_ext ∅); [|apply store_ok_empty]. intros k Hk. unfold tview, view. cbn.
    rewrite lookup_insert_ne; [done|]. by intros <-. }
  pose proof (a_count_wakes_its_waiter_at_zero "c" (-1) counted_txn t' Hok E) as H.
  rewrite decide_False in H by done. destruct H as (r & Hr & H).
  assert (r = mkCount 1 None) as ->.
  { change (from_slice (encode (mkCount 1 None)) = Ok r) in Hr. unfold from_slice in Hr.
    revert Hr. vm_compute. by intros [= <-]. }
  rewrite decide_True in H by done. by destruct H as [H _].
Defined.
