(* ===== verification/ViewTheorems.v ===== *)
(** * Theorems of the views

    The streams of jobs and of user keys, over a store that stays the same and over
    one that changes between the pages, and the reads of single entries. *)
From S2P Require Import Prelude Bytes Error Monad Keys Job Store Stats LeaseRegistry.
From S2P Require Import Txn Stage StoreInv Core CoreInv View Listing Finishes Process.
From S2P Require Import MemStore.

#[local] Close Scope string_scope.

Section views.
  Context {DB : SlateDb} {DL : SlateDbLaws merge_batch} {RD : SlateReads}.
  Context {RL : SlateReadsLaws merge_batch} {SR : Serde JobRecord} {SA : Serde JobAttempt}.
  Implicit Types (m : gmap bytes bytes) (h : Handle).

Lemma done_scan h p r o : done_result (handle_scan_prefix h p r o).
Proof. destruct h; apply done_lift. Qed.

Lemma done_list_loop f q limit l jobs k : done_result (list_loop f q limit l jobs k).
Proof.
  revert jobs k. induction l as [|[k v] l IH]; intros jobs k'; cbn [list_loop]; [done|].
  apply done_bind; [apply done_decode|]. intros j. destruct (f && _); [done|]. by case_decide.
Qed.

Lemma done_jobs_page hs q s limit n c : done_result (jobs_page hs (qn_str q) s limit n c).
Proof.
  unfold jobs_page. apply done_bind; [|by intros]. unfold list_jobs. rewrite QueueName_new_qn_str. cbn.
  case_decide; [done|]. destruct (listing_prefix q s) as [p f]. 
  lazymatch goal with |- done_result (match ?x with Some _ => _ | None => _ end) => destruct x end; [|done].
  apply done_bind; [apply done_scan|intros l]. apply done_bind; [apply done_list_loop|].
  intros [[js lk] []]; [|done]. by destruct lk.
Qed.

Lemma done_kv_page hs p range o limit n c : done_result (kv_page hs p range o limit n c).
Proof.
  unfold kv_page. apply done_bind.
  - unfold kv_scan. destruct (subrange _ _); [|done]. case_decide; [done|].
    apply done_bind; [apply done_scan|done].
  - intros [es []]; cbn; [|done]. by destruct (last es).
Qed.

(** C38: the stream of a queue's jobs in a state, in pages of any size, yields in
    the order of their keys, no record twice, only records that a page found and
    every record that all pages find; over a store that stays the same it ends, and
    yields exactly the records of the queue in the state. *)
Theorem a_stream_lists_the_jobs hs q s page_size fuel :
  (∀ i, store_ok (handle_contents (hs i))) → 0 < page_size →
  (∀ l, stream_jobs hs (qn_str q) s page_size fuel = Ok l → ∃ rows, l = rows.*2 ∧
     StronglySorted (λ a b, bytes_lt a.1 b.1 = true) rows ∧
     (∀ k j, (k, j) ∈ rows → ∃ i, job_entry (handle_contents (hs i)) q s k j) ∧
     (∀ k, (∀ i, ∃ j, job_entry (handle_contents (hs i)) q s k j) → ∃ j, (k, j) ∈ rows) ∧
     ∀ m, (∀ i, handle_contents (hs i) = m) → ∀ k j, (k, j) ∈ rows ↔ job_entry m q s k j) ∧
  ∀ m, (∀ i, handle_contents (hs i) = m) → size m < fuel →
    stream_jobs hs (qn_str q) s page_size fuel ≠ Err Unfinished.
Proof using DL RL.
  intros Hok Hlim. unfold stream_jobs.
  set (P i := job_entry (handle_contents (hs i)) q s).
  set (valid k := ∃ suffix, k = (listing_prefix q s).1 ++ suffix).
  assert (HP : ∀ n k v, P n k v → valid k) by (intros; by eapply job_entry_prefix).
  assert (Hfun : ∀ m k j j', job_entry m q s k j → job_entry m q s k j' → j = j').
  { intros m k j j' [Hj _] [Hj' _]. rewrite Hj in Hj'. by injection Hj'. }
  assert (Hlaw := λ n c r Hc, jobs_page_law hs q s page_size n c r Hok Hlim Hc).
  split.
  - intros l H. destruct (pages_sound (follows Ascending) P page_size valid _ Hlim HP Hlaw fuel 0 None l)
      as (rows & -> & Hs & Hin & Hall); [done..|].
    exists rows. split; [done|]. split; [done|]. split.
    { intros k j Hkj. by destruct (Hin _ Hkj) as (_ & i & _ & ?); exists i. }
    split; [intros k Hk; apply Hall; [done|intros i _; apply Hk]|].
    intros m Hm k j. split.
    + intros Hkj. destruct (Hin _ Hkj) as (_ & i & _ & Hp). unfold P in Hp. by rewrite Hm in Hp.
    + intros Hkj. destruct (Hall k) as [j' Hj']; [done|intros i _; exists j; unfold P; by rewrite Hm|].
      destruct (Hin _ Hj') as (_ & i & _ & Hp). unfold P in Hp. rewrite Hm in Hp.
      by rewrite (Hfun m k j j').
  - intros m Hm Hfuel. apply (pages_end (follows Ascending) P page_size valid _ Hlim HP Hlaw (job_entry m q s)).
    + intros i k j. unfold P. by rewrite Hm.
    + intros rest Hr. eapply Nat.le_lt_trans; [|exact Hfuel].
      eapply (listing_size m Ascending _ (λ k, k)); [by intros ? ?| |exact Hr].
      intros k v [[Hj _] _]. apply job_at_Some in Hj as (b & Hb & _). by eexists.
    + done.
    + intros. apply done_jobs_page.
    + lia.
Qed.

(** C39: the stream of user keys, in pages of any size and in either order, yields
    the entries in that order, no key twice, only keys within the prefix and the
    range that a page found, and every such key that exists for the whole sweep;
    over a store that stays the same it ends, with exactly those entries. *)
Theorem a_sweep_observes_what_stays hs p range o page_size fuel :
  0 < page_size →
  (∀ l, kv_entries hs p range o page_size fuel = Ok l →
     StronglySorted (λ a b, follows o a.1 b.1) l ∧
     (∀ k v, (k, v) ∈ l → (∃ i, handle_contents (hs i) !! user_scoped_key k = Some v) ∧
        (∃ suffix, k = p ++ suffix) ∧ in_bounds range k = true) ∧
     (∀ k, (∃ suffix, k = p ++ suffix) → in_bounds range k = true →
        (∀ i, is_Some (handle_contents (hs i) !! user_scoped_key k)) → ∃ v, (k, v) ∈ l)) ∧
  ∀ m, (∀ i, handle_contents (hs i) = m) → size m < fuel →
    kv_entries hs p range o page_size fuel ≠ Err Unfinished.
Proof using DL RL.
  intros Hlim. unfold kv_entries.
  set (P i := kv_entry (handle_contents (hs i)) p range).
  set (valid k := in_bounds range k = true).
  assert (HP : ∀ n k v, P n k v → valid k) by by intros n k v (_ & _ & _ & ?).
  assert (Hlaw := λ n c r Hc, kv_page_law hs p range o page_size n c r Hlim Hc).
  split.
  - intros l. by apply kv_entries_sound.
  - intros m Hm Hfuel. apply (pages_end (follows o) P page_size valid _ Hlim HP Hlaw (kv_entry m p range)).
    + intros i k e. unfold P. by rewrite Hm.
    + intros rest Hr. eapply Nat.le_lt_trans; [|exact Hfuel].
      eapply (listing_size m o _ user_scoped_key); [| |exact Hr].
      * intros k k' E. by injection E.
      * intros k e [(_ & Hv & _) _]. by eexists.
    + done.
    + intros. apply done_kv_page.
    + lia.
Qed.
End views.

(** ** The theorems at concrete inputs *)

#[local] Open Scope string_scope.

(** The store after three enqueues, read by the writer. *)
Definition three_jobs : Core := after [run_enqueue "now" "a"; run_enqueue "kept" "b"; run_enqueue "now" "c"].
Definition live (_ : nat) : Handle := Writer (db three_jobs).

Lemma live_ok i : store_ok (handle_contents (live i)).
Proof. apply core_store, after_ok. repeat constructor. Qed.

Lemma a_stream_lists_the_jobs_witness :
  ∃ l rows, stream_jobs live "now" Pending 1 50 = Ok l ∧ id <$> l = ["a"; "c"] ∧ l = rows.*2 ∧
    ∀ k j, (k, j) ∈ rows ↔ job_entry (mem (db three_jobs)) (mkQueueName "now" eq_refl) Pending k j.
Proof.
  destruct (a_stream_lists_the_jobs live (mkQueueName "now" eq_refl) Pending 1 50 live_ok) as [H _]; [lia|].
  change (qn_str (mkQueueName "now" eq_refl)) with "now" in H.
  assert (E : (λ l : list JobRecord, id <$> l) <$> stream_jobs live "now" Pending 1 50 =
    @Ok Error (list string) ["a"; "c"]) by (vm_compute; reflexivity).
  destruct (stream_jobs live "now" Pending 1 50) as [l|e] eqn:El; [|discriminate E].
  destruct (H l eq_refl) as (rows & Hl & _ & _ & _ & Hrows). exists l, rows. injection E as E.
  split; [done|]. split; [exact E|]. split; [exact Hl|]. by apply Hrows.
Defined.

(** A user key that stays while another one is written between the pages. *)
Definition kv_state (n : nat) : Handle :=
  Writer (mem_write (WPut (user_scoped_key [7%Z]) [1%Z] ::
    match n with O => [] | _ => [WPut (user_scoped_key [3%Z]) [2%Z]] end) mem_empty).

Lemma a_sweep_observes_what_stays_witness :
  ∃ l, kv_entries kv_state [] (Unbounded, Unbounded) Descending 1 50 = Ok l ∧ ∃ v, ([7%Z], v) ∈ l.
Proof.
  destruct (a_sweep_observes_what_stays kv_state [] (Unbounded, Unbounded) Descending 1 50) as [H _]; [lia|].
  assert (Hok : is_ok (kv_entries kv_state [] (Unbounded, Unbounded) Descending 1 50) = true)
    by (vm_compute; reflexivity).
  destruct (kv_entries kv_state [] (Unbounded, Unbounded) Descending 1 50) as [l|e]; [|discriminate Hok].
  exists l. split; [done|]. destruct (H l eq_refl) as (_ & _ & Hall). apply Hall; [by exists [7%Z]|done|].
  intros [|n]; eexists; vm_compute; reflexivity.
Defined.
