(* ===== verification/InboxTheorems.v ===== *)
(** * Theorems of the inbox

    What the application of an entry does, that an entry applies once, and that a
    sent entry is listed, in the order of its send, and read back. *)
From stdpp Require Import sorting.
From S2P Require Import Prelude Bytes Error Monad Keys Job Store Stats LeaseRegistry.
From S2P Require Import Txn Stage StoreInv Core Control Effects Settle InboxEntry Inbox.
From S2P Require Import InboxListing CoreInv Finishes InboxOk Linear Outcomes Applied.
From S2P Require Import Process MemStore.

#[local] Close Scope string_scope.

Section inbox_theorems.
  Context {DB : SlateDb} {OS : ObjectStore} {SR : Serde JobRecord} {SA : Serde JobAttempt}.
  Context {SC : Serde CountRecord} {EN : Env} {ST : EntryStore} {IE : InboxEnv}.
  Context {SE : Serde EnqueueEntry} {SCa : Serde CancelEntry} {SSi : Serde SignalEntry}.
  Context {SI : Serde InboxRecord} {DL : SlateDbLaws merge_batch}.

#[local] Set Default Proof Using "Type DL SA SR EN".

(** C32: the application of an inbox entry that returns changed the store once, at
    a moment between the steps of other tasks, by the effect of its operation and
    the record of its outcome: a new job, found jobs of the entry's own queue
    cancelled or signalled, or nothing with the rejection; one that fails with an
    error of the code changed nothing. *)
Theorem an_entry_applies_with_its_record q h e w r w' :
  world_ok w → apply_entry q h e w = (r, w') →
  match r with
  | Ok (o, refs) => effect_from w w' (applied_with_record h o (entry_applied w q e o refs))
  | Err err => not_storage err → passes w w'
  end.
Proof.
  intros Hw H. destruct r as [[o refs]|err]; [by apply apply_entry_effect|]. by eapply apply_entry_failed.
Qed.

(** C33: an entry applies once: the settlement of an entry that has its record
    changes nothing, and one that returns leaves the record, so that without other
    tasks no further settlement of an entry of the queue and id, of any kind and
    body, changes anything; only an entry whose object is gone leaves none. *)
Theorem an_entry_applies_once s1 e1 body1 w refs1 w1 :
  world_ok w → settle_entry s1 e1 body1 w = (Ok refs1, w1) →
  (is_Some (contents (db (core w)) !! record_key e1) → refs1 = [] ∧ passes w w1) ∧
  (others w = [] →
   db (core w1) = db (core w) ∧ refs1 = [] ∧ contents (db (core w)) !! record_key e1 = None ∧
     (∃ w2 w3, passes w w2 ∧ entry_decoded s1 e1 body1 w2 = (Ok None, w3)) ∨
   is_Some (contents (db (core w1)) !! record_key e1) ∧
   ∀ s2 e2 body2 r w2, pe_queue e2 = pe_queue e1 → pe_id e2 = pe_id e1 →
     settle_entry s2 e2 body2 w1 = (r, w2) →
     db (core w2) = db (core w1) ∧ ∀ refs, r = Ok refs → refs = []).
Proof.
  intros Hw H. apply settle_entry_effect in H; [|done].
  assert (Hagain : others w1 = [] → is_Some (contents (db (core w1)) !! record_key e1) →
    ∀ s2 e2 body2 r w2, pe_queue e2 = pe_queue e1 → pe_id e2 = pe_id e1 →
    settle_entry s2 e2 body2 w1 = (r, w2) →
    db (core w2) = db (core w1) ∧ ∀ refs, r = Ok refs → refs = []).
  { intros Ho Hr s2 e2 body2 r w2 Eq Ei H2.
    assert (Hr2 : is_Some (contents (db (core w1)) !! record_key e2)).
    { unfold record_key in *. by rewrite Eq, Ei. }
    apply settle_entry_again in H2 as [Hp Hn]; [|done].
    split; [by apply (passes_alone _ _ Hp)|]. intros refs ->. by injection (Hn ltac:(by intros s)) as ->. }
  destruct H as [(Hr & -> & Hp)|(Hn & [(Hg & -> & Hp)|(now & o & He)])].
  - split; [done|]. intros Ho. destruct (passes_alone _ _ Hp Ho) as [E Ho1]. right.
    assert (Hr1 : is_Some (contents (db (core w1)) !! record_key e1)) by by rewrite E.
    split; [done|by apply Hagain].
  - split; [rewrite Hn; by intros []|]. intros Ho. destruct (passes_alone _ _ Hp Ho) as [E _]. by left.
  - split; [rewrite Hn; by intros []|]. intros Ho. right.
    apply effect_from_alone in He as [(m1 & _ & E) Ho1]; [|done].
    assert (Hr1 : is_Some (contents (db (core w1)) !! record_key e1)).
    { rewrite E. eexists. apply with_record_lookup. }
    split; [done|by apply Hagain].
Qed.

(** A sent entry is listed and read back: the listing of the inbox contains,
    for the object of each entry that was sent with a valid id, the entry with its
    queue, kind, id and send order, which is not rejected unless it is too large
    and reads back as its stored form; the listing is in the order of a pass, the
    entries sent earlier first and those without an order last. *)
Theorem a_sent_entry_is_listed prefix o objects :
  os_list (path_from (version_prefix prefix)) o = Ok objects →
  ∃ l, list_entries ulid_from_string prefix None o = Ok l ∧
    (∀ i j a b, i < j → l !! i = Some a → l !! j = Some b → pass_le a b = true ∧ send_order a b) ∧
    ∀ object q e order i,
      object ∈ objects → ulid_text_ok ulid_from_string ulid_string order → validate_entry_id i = Ok () →
      location object = entry_path ulid_string prefix (qn_str q) (entry_kind e) order i →
      ∃ p, p ∈ l ∧ pe_queue p = q ∧ pe_id p = i ∧ pe_kind p = entry_kind e ∧ pe_order p = Some order ∧
        pe_size p = om_size object ∧ listing_rejection p = oversized (om_size object) ∧
        (listing_rejection p = None → read_object (location object) o = Body (entry_encode e) →
         read_entry p o = Ok (ReadEntry (stored_entry e))).
Proof.
  intros Ho. assert (Hl : ∃ l, list_entries ulid_from_string prefix None o = Ok l)
    by (unfold list_entries; rewrite Ho; by eexists).
  destruct Hl as [l Hl]. exists l. split; [done|].
  destruct (list_entries_Ok _ _ _ _ _ Hl) as (objects' & Ho' & Hperm & Hs).
  rewrite Ho in Ho'. injection Ho' as <-. split.
  - intros i j a b Hij Ha Hb. assert (Hab : pass_le a b = true).
    { by apply (sorted_lookup l i j). }
    split; [done|by apply pass_le_send_order].
  - intros object q e order i Hin Hu Hi Hloc.
    set (p := mkPendingEntry q i (entry_kind e) (om_size object) (Z.max (last_modified_ms object) 0)
      (location object) (Some order)).
    exists p. split; [|do 6 (split; [done|])].
    + rewrite Hperm. apply list_elem_of_omap. exists object. split; [done|].
      rewrite Hloc, entry_path_relative. cbn [mbind option_bind].
      by apply entry_parse_path.
    + intros Hr Hb. unfold read_entry. rewrite Hr.
      change (pe_location p) with (location object). rewrite Hb.
      change (pe_kind p) with (entry_kind e). by rewrite entry_decode_encode.
Qed.
End inbox_theorems.

(** ** The theorems at concrete inputs *)

#[local] Open Scope string_scope.

Definition queue_now : QueueName := mkQueueName "now" eq_refl.
Definition record_x : InboxRecordHandle := mkRecordHandle queue_now "x" 5.

(** A process with two jobs, and the cancel of one of them as an entry. *)
Definition two_jobs : list Run := [run_enqueue "now" "a"; run_enqueue "now" "b"].
Definition cancel_a : InboxEntry := EntryCancel (mkCancelEntry "a").

Definition is_removed (r : Result (InboxOutcome * list string)) : bool :=
  match r with Ok (OutcomeCancel CancelRemoved, _) => true | _ => false end.

Lemma removed_alone q h w refs w' :
  others w = [] →
  effect_from w w' (applied_with_record h (OutcomeCancel CancelRemoved)
    (entry_applied w q cancel_a (OutcomeCancel CancelRemoved) refs)) →
  ∃ k j m1, qn_str (queue j) = q ∧ removed "a" k j (contents (db (core w))) m1 ∧
    contents (db (core w')) = with_record h (OutcomeCancel CancelRemoved) m1.
Proof.
  intros Ho H. apply effect_from_alone in H as [(m1 & (k & j & Hq & _ & Hrm & _) & Hm) _]; [|done].
  by exists k, j, m1.
Qed.

Lemma an_entry_applies_with_its_record_witness :
  ∃ k j m1, qn_str (queue j) = "now" ∧
    removed "a" k j (contents (db (core (alone (after two_jobs))))) m1 ∧
    contents (db (core (apply_entry "now" record_x cancel_a (alone (after two_jobs))).2)) =
      with_record record_x (OutcomeCancel CancelRemoved) m1.
Proof.
  assert (Hw : world_ok (alone (after two_jobs))) by (apply alone_ok; repeat constructor).
  destruct (run_case is_removed (apply_entry "now" record_x cancel_a) (alone (after two_jobs)))
    as (r & w' & E & Hr); [vm_compute; reflexivity|].
  pose proof (an_entry_applies_with_its_record _ _ _ _ _ _ Hw E) as H. rewrite E. cbn [snd]. clear E.
  destruct r as [[[|[]| |] refs]|]; try discriminate Hr.
  by apply removed_alone in H.
Defined.

(** Two entries of one id: a cancel that was listed first, and a signal. *)
Definition entry_x (k : EntryKind) : PendingEntry := mkPendingEntry queue_now "x" k 9 0 "x" (Some 1%Z).
Definition body_of (e : InboxEntry) : option EntryBody := Some (Body (entry_encode e)).

Lemma an_entry_applies_once_witness :
  let w1 := (settle_entry mem_inbox_state (entry_x CancelKind) (body_of cancel_a) (alone (after two_jobs))).2 in
  is_Some (contents (db (core w1)) !! record_key (entry_x CancelKind)) ∧
  db (core (settle_entry mem_inbox_state (entry_x SignalKind)
    (body_of (EntrySignal (mkSignalEntry "b" []))) w1).2) = db (core w1).
Proof.
  assert (Hw : world_ok (alone (after two_jobs))) by (apply alone_ok; repeat constructor).
  destruct (run_case is_ok (settle_entry mem_inbox_state (entry_x CancelKind) (body_of cancel_a))
    (alone (after two_jobs))) as (r & w1 & E & Hr); [vm_compute; reflexivity|].
  destruct r as [refs|]; [|discriminate Hr]. cbn zeta. rewrite E. cbn [snd].
  destruct (proj2 (an_entry_applies_once _ _ _ _ _ _ Hw E) eq_refl) as [(_ & _ & _ & w2 & w3 & _ & Hgone)|[Hsome Hagain]].
  - exfalso. discriminate Hgone.
  - split; [exact Hsome|].
    destruct (settle_entry mem_inbox_state (entry_x SignalKind)
      (body_of (EntrySignal (mkSignalEntry "b" []))) w1) as [r2 w2] eqn:E2.
    by apply (Hagain _ (entry_x SignalKind) _ _ _ eq_refl eq_refl E2).
Defined.

(** Two entries that are sent to the inbox [inbox], the second one first. *)
Definition sent : Objects :=
  let send order i e o := (send_at "inbox" "now" order i e (λ _, []) o).2 in
  send 3%Z "first" cancel_a (send 12%Z "second" (EntrySignal (mkSignalEntry "b" [7%Z])) ∅).

Definition sent_objects : list ObjectMeta :=
  match os_list (path_from (version_prefix "inbox")) sent with Ok l => l | Err _ => [] end.
Lemma sent_listed : os_list (path_from (version_prefix "inbox")) sent = Ok sent_objects.
Proof. reflexivity. Qed.

Lemma ulid_text_ok_3 : ulid_text_ok ulid_from_string ulid_string 3.
Proof.
  assert (E : ulid_string 3 = "3") by (vm_compute; reflexivity).
  unfold ulid_text_ok. rewrite E. split; [vm_compute; reflexivity|].
  split; (apply Forall_cons; split; [discriminate|apply Forall_nil; exact I]).
Qed.

Lemma a_sent_entry_is_listed_witness :
  ∃ l p, list_entries ulid_from_string "inbox" None sent = Ok l ∧ p ∈ l ∧ pe_id p = "first" ∧
    pe_order p = Some 3%Z ∧ read_entry p sent = Ok (ReadEntry cancel_a) ∧ pe_id <$> l = ["first"; "second"].
Proof.
  destruct (a_sent_entry_is_listed "inbox" sent sent_objects sent_listed) as (l & Hl & _ & Hall).
  set (path := entry_path ulid_string "inbox" "now" CancelKind 3 "first").
  assert (Hin : object_meta path (entry_encode cancel_a) ∈ sent_objects).
  { apply (bool_decide_eq_true_1 _). vm_compute. reflexivity. }
  destruct (Hall _ queue_now cancel_a 3%Z "first" Hin ulid_text_ok_3 eq_refl eq_refl)
    as (p & Hp & _ & Hi & _ & Hord & _ & Hrej & Hread).
  exists l, p. split; [exact Hl|]. split; [exact Hp|]. split; [exact Hi|]. split; [exact Hord|].
  split; [apply Hread; [rewrite Hrej; reflexivity|reflexivity]|].
  assert (E : (λ l : list PendingEntry, pe_id <$> l) <$> list_entries ulid_from_string "inbox" None sent =
    @Ok Error (list string) ["first"; "second"]) by (vm_compute; reflexivity).
  rewrite Hl in E. by injection E.
Defined.
