(* ===== verification/OpenTheorems.v ===== *)
(** * Theorems of the open and the close

    The recovery of the open, the claim cursor across a close, and that the holder
    of a live claim settles it. *)
From S2P Require Import Prelude Bytes Error Monad Keys Job Store Stats LeaseRegistry.
From S2P Require Import TimeBound ClaimCursor Completion Txn Stage StoreInv Sound Core.
From S2P Require Import QueueCore Control Effects Claim Settle Enqueue.
From S2P Require Import Sweeps InboxEntry Inbox Queue CoreInv StagedOps View Session.
From S2P Require Import OpsOk CallsOk Finishes Linear Outcomes Frame Recovery Healthy Process.
From S2P Require Import MemStore.

#[local] Close Scope string_scope.

Section open_theorems.
  Context {DB : SlateDb} {OS : ObjectStore} {SR : Serde JobRecord} {SA : Serde JobAttempt}.
  Context {SC : Serde CountRecord} {EN : Env} {SCu : Serde CursorState}.
  Context {DL : SlateDbLaws merge_batch}.

#[local] Set Default Proof Using "Type DL SA SR EN".

(** C23: an open recovers the store of a process that ended at any point. On a store
    whose operations do not fail it returns; and when it returns the store is
    consistent and no job is claimed: each job that was claimed has the record that
    an interrupted attempt leaves, back in pending or, after its last attempt, dead,
    with the attempt in its history, and every other job, its history included, is
    as it was. *)
Theorem an_open_ends_the_interrupted_claims w :
  world_ok w → others w = [] →
  (SlateDbHealthy → ∃ w', recover w = (Ok tt, w')) ∧
  ∀ w', recover w = (Ok tt, w') →
    let m := contents (db (core w)) in
    let m' := contents (db (core w')) in
    core_ok (core w') ∧
    (∀ i k j, lookup_job m' i = Some (k, j) → status j ≠ Claimed) ∧
    ∀ i, match lookup_job m i with
      | Some (k, j) =>
          if decide (status j = Claimed) then ∃ now key,
            let e := if is_last_attempt j then EndDead "claim interrupted by process exit"
              else EndRetry None OInterrupted None in
            let j' := claim_end_record e now j in
            stored_key j' = Ok key ∧ lookup_job m' i = Some (key, stored_clone j') ∧
            attempts j' = attempts j ∧
            status j' = (if is_last_attempt j then Dead else Pending) ∧
            m' !! attempt_history_key i = Some (default [] (m !! attempt_history_key i) ++
              encode (claim_end_attempt e now j))
          else lookup_job m' i = Some (k, j) ∧
            m' !! attempt_history_key i = m !! attempt_history_key i
      | None => lookup_job m' i = None
      end.
Proof.
  intros Hw Ho. split; [intros HL; by apply recover_works|]. intros w' H. cbn zeta.
  assert (Hm : store_ok (contents (db (core w)))) by apply Hw.
  destruct (recover_Ok _ _ _ Hw Ho H) as ([Hc _] & _ & Hr). split; [done|]. split.
  { intros i k j. by apply (recovering_unclaimed (contents (db (core w)))). }
  intros i. pose proof (Hr i) as Hi. destruct (lookup_job (contents (db (core w))) i) as [[k j]|] eqn:E; [|done].
  destruct (lookup_id _ _ _ _ Hm E) as (<- & _). destruct Hi as [Hcl Hne]. case_decide as Hs.
  - destruct Hcl as (now & key & Hk & Hl & Hh); [done|by apply not_elem_of_nil|]. exists now, key.
    destruct (claim_end_record_fields (interrupted_end j) now j) as (_ & _ & _ & Fa & _).
    split_and!; [done|done|done| |done]. by destruct (is_last_attempt j).
  - apply Hne. by left.
Qed.

(** The claim cursor survives a clean close. What a close persists of the claim
    state of each queue, the next open restores: a claim scans from the same bound
    and knows the same queues empty. The open leaves no record of it in the store, so
    that no later open restores a state that inserts have changed. *)
Theorem the_cursor_survives_a_close w w1 w2 w3 :
  others w = [] → has_records [] (contents (db (core w))) →
  persist_cursor_state w = (Ok tt, w1) →
  others w2 = [] → contents (db (core w2)) = contents (db (core w1)) → claim_cursor (core w2) = ∅ →
  restore_cursor_state w2 = (Ok tt, w3) →
  (∀ q, start_scan_from (begin_claim q (claim_cursor (core w3))) =
          start_scan_from (begin_claim q (claim_cursor (core w))) ∧
        start_known_empty (begin_claim q (claim_cursor (core w3))) =
          start_known_empty (begin_claim q (claim_cursor (core w)))) ∧
  has_records [] (contents (db (core w3))).
Proof.
  intros Ho H0 Hp Ho2 Ed Hc Hr. apply persist_Ok in Hp as [Hrec _]; [|done..]. rewrite <- Ed in Hrec.
  destruct (restore_Ok _ _ _ _ Ho2 Hc Hrec Hr) as (Hin & Hout & Hn). split; [|done]. intros q.
  assert (Hex : (∃ st, (q, st) ∈ export (claim_cursor (core w))) ∨ q ∉ (export (claim_cursor (core w))).*1).
  { destruct (decide (q ∈ (export (claim_cursor (core w))).*1)) as [Hq|Hq]; [left|by right].
    apply list_elem_of_fmap in Hq as ([q' st] & -> & ?). by exists st. }
  unfold begin_claim. destruct Hex as [[st Hq]|Hq].
  - rewrite (Hin _ _ Hq). apply elem_of_export in Hq as (s & -> & Es). cbn.
    revert Es. unfold export_state. destruct (cs_scan_from s) as [sf|]; cbn;
      destruct (state_known_empty s) eqn:Ek; intros [= <-]; by rewrite ?Ek.
  - rewrite (Hout _ Hq). destruct (claim_cursor (core w) !! q) as [s|] eqn:Es; [|done]. cbn.
    destruct (export_state s) as [st|] eqn:Est.
    + exfalso. apply Hq, list_elem_of_fmap. exists (q, st). split; [done|]. apply elem_of_export. by exists s.
    + revert Est. unfold export_state. destruct (cs_scan_from s) as [sf|]; [done|].
      by destruct (state_known_empty s).
Qed.

End open_theorems.

(** ** Examples *)

(** A process with a claimed job and a job that waits, and one that opens its store
    after it ended. *)
Definition one_claimed : Core := the_core "a" (after [run_enqueue "q" "a"; run_enqueue "q" "b"]).
Definition reopened : Core := set_lease_registry registry_new one_claimed.

Lemma one_claimed_ok : core_ok one_claimed.
Proof.
  apply the_core_ok, after_ok. repeat constructor.
Qed.
Lemma reopen_ok c : core_ok c → world_ok (alone (set_lease_registry registry_new c)).
Proof. intros [Hs Hc _]. split; [|constructor]. constructor; [done|done|apply registry_new_wf]. Qed.
Lemma reopened_ok : world_ok (alone reopened).
Proof. exact (reopen_ok one_claimed one_claimed_ok). Qed.

(** The state of the job of an id. *)
Definition status_of (i : string) (c : Core) : option JobStatus :=
  x ← lookup_job (contents (db c)) i; Some (status x.2).

Lemma status_of_claimed i c : status_of i c = Some Claimed →
  ∃ k j, lookup_job (contents (db c)) i = Some (k, j) ∧ status j = Claimed.
Proof.
  unfold status_of. destruct (lookup_job _ _) as [[k j]|]; [|done]. intros [= H]. by exists k, j.
Qed.

Lemma an_open_ends_the_interrupted_claims_witness :
  world_ok (alone reopened) ∧ others (alone reopened) = [] ∧ ∃ w' key j,
    recover (alone reopened) = (Ok tt, w') ∧ lookup_job (contents (db (core w'))) "a" = Some (key, j) ∧
    (status j = Pending ∨ status j = Dead).
Proof.
  split; [apply reopened_ok|]. split; [done|].
  destruct (an_open_ends_the_interrupted_claims (alone reopened) reopened_ok eq_refl) as [Hr Hall].
  destruct (Hr _) as [w' E]. exists w'. specialize (Hall w' E) as (_ & _ & Hi). specialize (Hi "a").
  destruct (status_of_claimed "a" reopened) as (k & j & El & Es); [by vm_compute|].
  change (core (alone reopened)) with reopened in Hi. rewrite El in Hi. rewrite decide_True in Hi by done.
  destruct Hi as (now & key & Hi). cbn zeta in Hi. destruct Hi as (_ & Hl & _ & Hst & _).
  exists key, (stored_clone (claim_end_record
    (if is_last_attempt j then EndDead "claim interrupted by process exit" else EndRetry None OInterrupted None) now j)).
  split; [done|]. split; [done|]. cbn [stored_clone set_payload_ref status].
  destruct (is_last_attempt j); [right|left]; exact Hst.
Defined.

(** A process whose claim state is not empty. *)
Definition batch_claimed : Core := after [run_enqueue "q" "a"; mkRun (CClaimBatch "q" 1 (from_secs 30)) []].

Definition no_cursor_keys (c : Core) : bool :=
  bool_decide (Forall (λ e : kv, tag_of e.1 ≠ Some TCursor) (map_to_list (contents (db c)))).

Lemma no_cursor_records c : no_cursor_keys c = true → has_records [] (contents (db c)).
Proof.
  intros H%bool_decide_eq_true s v. split; [|by intros (? & ? & ?%elem_of_nil & _)]. intros Hv.
  rewrite Forall_forall in H. exfalso. apply (H (tag_prefix TCursor ++ s, v)); [by apply elem_of_map_to_list|done].
Qed.

Lemma restored_case c w1 :
  persist_cursor_state (alone c) = (Ok tt, w1) →
  is_ok (restore_cursor_state (alone (core_open (core (persist_cursor_state (alone c)).2)))).1 = true →
  ∃ w3, restore_cursor_state (alone (core_open (core w1))) = (Ok tt, w3).
Proof.
  intros ->. cbn [snd]. destruct (restore_cursor_state _) as [[[]|] w3]; [by exists w3|done].
Qed.

Lemma the_cursor_survives_a_close_witness : ∃ w1 w3,
  persist_cursor_state (alone batch_claimed) = (Ok tt, w1) ∧
  restore_cursor_state (alone (core_open (core w1))) = (Ok tt, w3) ∧
  start_scan_from (begin_claim (mkQueueName "q" eq_refl) (claim_cursor (core w3))) =
    start_scan_from (begin_claim (mkQueueName "q" eq_refl) (claim_cursor (core (alone batch_claimed)))).
Proof.
  destruct (run_case is_ok persist_cursor_state (alone batch_claimed)) as ([[]|] & w1 & E1 & H1);
    [by vm_compute| |discriminate H1].
  destruct (restored_case batch_claimed w1 E1) as [w3 E3]; [by vm_compute|].
  exists w1, w3. split; [exact E1|]. split; [exact E3|].
  assert (H0 : has_records [] (contents (db (core (alone batch_claimed))))).
  { apply no_cursor_records. by vm_compute. }
  destruct (the_cursor_survives_a_close (alone batch_claimed) w1 (alone (core_open (core w1))) w3
    eq_refl H0 E1 eq_refl eq_refl eq_refl E3) as [H _]. exact (proj1 (H (mkQueueName "q" eq_refl))).
Defined.

