(* ===== verification/Cron.v ===== *)
(** * Cron schedules (taquba-cron/src/lib.rs)

    The scheduler of the cron crate: the schedules and their checks, the registry that
    handles change while the scheduler runs, the positions of the schedules in their
    occurrence sequences, and the enqueue of a firing with its watermark. *)
From S2P Require Import Prelude Bytes Error Monad Keys Job Store Stats LeaseRegistry.
From S2P Require Import TimeBound ClaimCursor Completion Txn Core QueueCore.
From S2P Require Import Control Effects Claim Settle Enqueue Queue View.

(** ** Times and expressions

    [chrono] and [croner]. A [DateTime<Utc>] is known by its instant, in nanoseconds
    from the Unix epoch, which its comparisons and its accessors read. *)
Class Chrono := {
  DateTime : Type;
  instant : DateTime → Z;
  UNIX_EPOCH : DateTime;
  MAX_UTC : DateTime;
  from_timestamp_millis : Z → option DateTime;
  with_nanosecond : Z → DateTime → option DateTime;
  checked_add_signed : Z → DateTime → option DateTime;
  checked_sub_signed : Z → DateTime → option DateTime;
  (** [TimeDelta::from_std]. *)
  from_std : Duration → option Z;
}.

(** [occurs e x]: the expression has an occurrence at the instant [x]. *)
Class Croner `{Chrono} := {
  Cron : Type;
  cron_str : Cron → string;
  cron_parse : string → result string Cron;
  find_next_occurrence : Cron → DateTime → option DateTime;
  find_previous_occurrence : Cron → DateTime → option DateTime;
  occurs : Cron → Z → Prop;
}.

Class CronerLaws `{CH : Chrono} {CR : Croner} : Prop := {
  epoch_law : instant UNIX_EPOCH = 0%Z;
  from_millis_law ms d : from_timestamp_millis ms = Some d → instant d = (ms * 1000000)%Z;
  to_millis_law d : is_i64 (instant d / 1000000) ∧
    ((instant d mod 1000000)%Z = 0%Z → ∃ d', from_timestamp_millis (instant d / 1000000) = Some d' ∧
      instant d' = instant d);
  with_nanosecond_law d d' : with_nanosecond 0 d = Some d' →
    instant d' = (instant d - instant d mod 1000000000)%Z;
  add_law x d d' : checked_add_signed x d = Some d' → instant d' = (instant d + x)%Z;
  sub_law x d d' : checked_sub_signed x d = Some d' → instant d' = (instant d - x)%Z;
  from_std_law x y : from_std x = Some y → y = x;
  occurs_law e x : occurs e x → (x mod 1000000000)%Z = 0%Z;
  next_law e d d' : find_next_occurrence e d = Some d' →
    (instant d < instant d')%Z ∧ occurs e (instant d') ∧
    ∀ x, occurs e x → (instant d < x)%Z → (instant d' <= x)%Z;
  previous_law e d d' : find_previous_occurrence e d = Some d' →
    (instant d mod 1000000000)%Z = 0%Z →
    (instant d' < instant d)%Z ∧ occurs e (instant d') ∧
    ∀ x, occurs e x → (x < instant d)%Z → (x <= instant d')%Z;
  next_ext e d d' : instant d = instant d' → find_next_occurrence e d = find_next_occurrence e d';
}.

(** ** Reserved names *)

Definition FIRE_MS_HEADER : string := "cron.fire_ms".
Definition PREVIOUS_FIRE_MS_HEADER : string := "cron.previous_fire_ms".
Definition CRON_HEADER_PREFIX : string := "cron.".
Definition CRON_KV_PREFIX : string := "cron/".
Definition CRON_DEDUP_PREFIX : string := "cron:".
Definition MAX_SLEEP : Duration := from_secs 1.
Definition ENQUEUE_RETRY_DELAY : Duration := from_secs 1.

Definition watermark_key (name : string) : bytes :=
  as_bytes (CRON_KV_PREFIX +:+ "watermark/" +:+ name).

Inductive CronError :=
| InvalidExpression (expression message : string)
| DuplicateName (name : string)
| ReservedCronHeader (header : string)
| UnboundedStart (name : string)
| CronStopped.

Inductive BackfillStart := StartCurrentTime | StartLookback.
#[global] Instance BackfillStart_eq : EqDecision BackfillStart.
Proof. solve_decision. Defined.

Record Backfill := mkBackfill { lookback : Duration; backfill_start : BackfillStart }.
#[global] Instance Backfill_eq : EqDecision Backfill.
Proof. solve_decision. Defined.

Section cron.
  Context {CH : Chrono} {CR : Croner}.

(** [DateTime::timestamp_millis] and [timestamp_subsec_nanos]. *)
Definition timestamp_millis (d : DateTime) : Z := (instant d / 1000000)%Z.
Definition timestamp_subsec_nanos (d : DateTime) : Z := (instant d mod 1000000000)%Z.

Definition parse_watermark (value : bytes) : option DateTime :=
  s ← from_utf8 value;
  ms ← parse_i64 s;
  from_timestamp_millis ms.

(** The earliest instant a backfill replays. *)
Definition lookback_floor (now : DateTime) (lookback : Duration) : option DateTime :=
  d ← from_std lookback; checked_sub_signed d now.

(** ** Expressions *)

(** [PartialEq] of [Expression]. *)
Definition expression_eqb (a b : Cron) : bool := bool_decide (cron_str a = cron_str b).

(** [Expression::next_time_after] and [previous_time_before]. *)
Definition next_time_after (e : Cron) (anchor : DateTime) : option DateTime :=
  find_next_occurrence e anchor.
Definition previous_time_before (e : Cron) (at_ : DateTime) : option DateTime :=
  start ← (if decide (timestamp_subsec_nanos at_ = 0%Z) then Some at_
    else d ← with_nanosecond 0 at_; checked_add_signed (from_secs 1) d);
  find_previous_occurrence e start.

(** [i64::try_from] of a [u64] and [u64::try_from] of an [i64]. *)
Definition i64_of_u64 (ms : Z) : option Z := if decide (ms <= i64_max)%Z then Some ms else None.
Definition u64_of_i64 (ms : Z) : option Z := if decide (0 <= ms)%Z then Some ms else None.

(** [Expression::next_after] and [previous_before]. *)
Definition next_after (e : Cron) (ms : Z) : option Z :=
  at_ ← i64_of_u64 ms ≫= from_timestamp_millis;
  next ← next_time_after e at_;
  u64_of_i64 (timestamp_millis next).
Definition previous_before (e : Cron) (ms : Z) : option Z :=
  at_ ← i64_of_u64 ms ≫= from_timestamp_millis;
  previous ← previous_time_before e at_;
  u64_of_i64 (timestamp_millis previous).

(** [Expression::from_str]. *)
Definition expression_from_str (expression : string) : result CronError Cron :=
  match cron_parse expression with
  | Ok e => Ok e
  | Err message => Err (InvalidExpression expression message)
  end.

(** ** Schedules *)

Record Schedule := mkSchedule {
  sched_name : string;
  expression : Cron;
  sched_queue : string;
  sched_payload : bytes;
  sched_headers : gmap string string;
  sched_priority : option Z;
  sched_max_attempts : option Z;
  backfill : option Backfill;
}.

Definition schedule_new (name : string) (e : Cron) (q : string) (payload : bytes) : Schedule :=
  mkSchedule name e q payload ∅ None None None.
(** [Schedule::headers], [priority], [max_attempts] and [backfill]. *)
Definition with_headers (h : gmap string string) (s : Schedule) : Schedule :=
  mkSchedule (sched_name s) (expression s) (sched_queue s) (sched_payload s) h (sched_priority s)
    (sched_max_attempts s) (backfill s).
Definition with_priority (p : option Z) (s : Schedule) : Schedule :=
  mkSchedule (sched_name s) (expression s) (sched_queue s) (sched_payload s) (sched_headers s) p
    (sched_max_attempts s) (backfill s).
Definition with_max_attempts (n : option Z) (s : Schedule) : Schedule :=
  mkSchedule (sched_name s) (expression s) (sched_queue s) (sched_payload s) (sched_headers s)
    (sched_priority s) n (backfill s).
Definition with_backfill (b : option Backfill) (s : Schedule) : Schedule :=
  mkSchedule (sched_name s) (expression s) (sched_queue s) (sched_payload s) (sched_headers s)
    (sched_priority s) (sched_max_attempts s) b.

(** The derived [PartialEq] of [Schedule]. *)
Definition schedule_eqb (a b : Schedule) : bool :=
  bool_decide (sched_name a = sched_name b) && expression_eqb (expression a) (expression b) &&
  bool_decide (sched_queue a = sched_queue b) && bool_decide (sched_payload a = sched_payload b) &&
  bool_decide (sched_headers a = sched_headers b) && bool_decide (sched_priority a = sched_priority b) &&
  bool_decide (sched_max_attempts a = sched_max_attempts b) && bool_decide (backfill a = backfill b).

(** [validate]; the order of [HashMap::keys] is that of the model's map. *)
Definition validate (s : Schedule) : result CronError () :=
  match list_find_first (starts_with CRON_HEADER_PREFIX) (map_to_list (sched_headers s)).*1 with
  | Some header => Err (ReservedCronHeader header)
  | None =>
      match backfill s with
      | Some b =>
          if decide (backfill_start b = StartLookback ∧ lookback_floor UNIX_EPOCH (lookback b) = None)
          then Err (UnboundedStart (sched_name s)) else Ok ()
      | None => Ok ()
      end
  end.

(** ** The registry

    An [Arc<Schedule>] is its address with its schedule: [Arc::ptr_eq] compares the
    addresses, and a new [Arc] has the next address. *)
Record Entry := mkEntry { arc : nat; entry : Schedule }.
Record RegistryState := mkRegistry {
  entries : list Entry;
  version : Z;
  stopped : bool;
  arcs : nat;
}.
Definition registry_default : RegistryState := mkRegistry [] 0 false 0.

Definition has_name (name : string) (e : Entry) : bool := bool_decide (sched_name (entry e) = name).

(** [Registry::register]. *)
Definition register (s : Schedule) (r : RegistryState) : result CronError () * RegistryState :=
  match validate s with
  | Err e => (Err e, r)
  | Ok _ =>
      if stopped r then (Err CronStopped, r)
      else if existsb (has_name (sched_name s)) (entries r) then (Err (DuplicateName (sched_name s)), r)
      else (Ok tt, mkRegistry (entries r ++ [mkEntry (arcs r) s]) (wrap64 (version r + 1)) false (S (arcs r)))
  end.

(** The checks of [Registry::replace_all]; [seen] are the names before. *)
Fixpoint validate_all (seen : list string) (l : list Schedule) : result CronError () :=
  match l with
  | [] => Ok tt
  | s :: l =>
      _ ← validate s;
      if decide (sched_name s ∈ seen) then Err (DuplicateName (sched_name s))
      else validate_all (seen ++ [sched_name s]) l
  end.

(** The entries of the new set: how many are kept, and the next address. *)
Fixpoint replaced (old : list Entry) (l : list Schedule) (next : nat) : list Entry * nat * nat :=
  match l with
  | [] => ([], 0, next)
  | s :: l =>
      match list_find_first (λ e, schedule_eqb (entry e) s) old with
      | Some e => let '(es, kept, next) := replaced old l next in (e :: es, S kept, next)
      | None => let '(es, kept, next') := replaced old l (S next) in (mkEntry next s :: es, kept, next')
      end
  end.

(** [Registry::replace_all]: whether the set changed. *)
Definition replace_all (l : list Schedule) (r : RegistryState) : result CronError bool * RegistryState :=
  match validate_all [] l with
  | Err e => (Err e, r)
  | Ok _ =>
      if stopped r then (Err CronStopped, r)
      else
        let '(es, kept, next) := replaced (entries r) l (arcs r) in
        if decide (kept = length es ∧ kept = length (entries r)) then (Ok false, r)
        else (Ok true, mkRegistry es (wrap64 (version r + 1)) false next)
  end.

(** [ScheduleHandle::unschedule]. *)
Definition unschedule (name : string) (r : RegistryState) : bool * RegistryState :=
  let kept := filter (λ e, has_name name e = false) (entries r) in
  if decide (length kept < length (entries r))
  then (true, mkRegistry kept (wrap64 (version r + 1)) (stopped r) (arcs r))
  else (false, mkRegistry kept (version r) (stopped r) (arcs r)).

(** The drop of the scheduler. *)
Definition drop_scheduler (r : RegistryState) : RegistryState :=
  mkRegistry (entries r) (version r) true (arcs r).

(** The calls of a [ScheduleHandle]: the registry after one, and whether it notifies
    the scheduler. *)
Inductive HandleCall := HSchedule (s : Schedule) | HReplaceAll (l : list Schedule) | HUnschedule (name : string).
Definition handle_call (h : HandleCall) (r : RegistryState) : bool * RegistryState :=
  match h with
  | HSchedule s => let '(x, r) := register s r in (match x with Ok _ => true | Err _ => false end, r)
  | HReplaceAll l => let '(x, r) := replace_all l r in (match x with Ok b => b | Err _ => false end, r)
  | HUnschedule name => unschedule name r
  end.

(** ** The scheduler *)

Record ActiveEntry := mkActive { active_entry : Entry; next_fire : option DateTime }.
Record CronScheduler := mkScheduler { active : list ActiveEntry; synced : Z }.
(** [CronScheduler::new], without its registry. *)
Definition scheduler_new : CronScheduler := mkScheduler [] 0.

Definition ptr_eq (a b : Entry) : bool := bool_decide (arc a = arc b).

(** [CronScheduler::sync]. *)
Fixpoint push_new (es : list Entry) (l : list ActiveEntry) : list ActiveEntry :=
  match es with
  | [] => l
  | e :: es =>
      if existsb (λ a, ptr_eq (active_entry a) e) l then push_new es l
      else push_new es (l ++ [mkActive e None])
  end.
Definition sync (r : RegistryState) (s : CronScheduler) : CronScheduler :=
  if decide (version r = synced s) then s
  else
    let kept := filter (λ a, existsb (λ e, ptr_eq e (active_entry a)) (entries r) = true) (active s) in
    mkScheduler (push_new (entries r) kept) (version r).

Section queue.
  Context {DB : SlateDb} {RD : SlateReads} {OS : ObjectStore} {SR : Serde JobRecord} {SA : Serde JobAttempt}.
  Context {SC : Serde CountRecord} {EN : Env}.

(** [CronScheduler::now]. *)
Definition cron_now : Q DateTime :=
  ms ← now_ms;
  let ms := default i64_max (i64_of_u64 ms) in
  mret (default MAX_UTC (from_timestamp_millis ms)).

Definition cron_view {A} (f : Handle → Result A) : Q A :=
  yield ≫= λ _, d ← get db; io_result (f (Writer d)).

(** [CronScheduler::initial_anchor]. *)
Definition initial_anchor (s : Schedule) (now : DateTime) : Q DateTime :=
  match backfill s with
  | None => mret now
  | Some b =>
      raw ← cron_view (λ h, kv_get h (watermark_key (sched_name s)));
      mret match raw with
      | None =>
          match backfill_start b with
          | StartCurrentTime => now
          | StartLookback => default now (lookback_floor now (lookback b))
          end
      | Some raw =>
          match parse_watermark raw with
          | None => now
          | Some watermark =>
              match lookback_floor now (lookback b) with
              | Some floor => if (instant watermark <? instant floor)%Z then floor else watermark
              | None => watermark
              end
          end
      end
  end.

(** The headers and the options of a firing. *)
Definition fire_headers (s : Schedule) (fire_at : DateTime) : gmap string string :=
  let h := <[FIRE_MS_HEADER := dec_text (timestamp_millis fire_at)]> (sched_headers s) in
  match previous_time_before (expression s) fire_at with
  | Some previous => <[PREVIOUS_FIRE_MS_HEADER := dec_text (timestamp_millis previous)]> h
  | None => h
  end.
Definition fire_options (s : Schedule) (fire_at : DateTime) : EnqueueOptions :=
  mkOptions (sched_max_attempts s) (sched_priority s) None
    (Some (CRON_DEDUP_PREFIX +:+ sched_name s +:+ ":" +:+ dec_text (timestamp_millis fire_at)))
    (fire_headers s fire_at) None false None.

(** [CronScheduler::fire]. *)
Definition fire (s : Schedule) (fire_at : DateTime) : Q () :=
  match backfill s with
  | Some _ =>
      let key := watermark_key (sched_name s) in
      let value := as_bytes (dec_text (timestamp_millis fire_at)) in
      '(result, _) ← yield ≫= (λ _, enqueue_with_effects (sched_queue s) (sched_payload s)
        (fire_options s fire_at) (eff_kv_put key value effects_default));
      match result with
      | AlreadyEnqueued _ => yield ≫= λ _, kv_put key value
      | New _ => mret tt
      end
  | None =>
      yield ≫= λ _, enqueue_with (sched_queue s) (sched_payload s) (fire_options s fire_at) ≫= λ _, mret tt
  end.

(** [now + ENQUEUE_RETRY_DELAY], which panics out of the range of the times. *)
Definition retry_at (now : DateTime) : Q DateTime :=
  match checked_add_signed ENQUEUE_RETRY_DELAY now with Some d => mret d | None => io_err Panicked end.

(** [CronScheduler::tick_entry]: the entry after the tick, and the instant at which it
    next needs attention. *)
Definition set_next_fire (f : option DateTime) (a : ActiveEntry) : ActiveEntry := mkActive (active_entry a) f.
Definition tick_due (a : ActiveEntry) (now : DateTime) : Q (option DateTime * ActiveEntry) :=
  let s := entry (active_entry a) in
  let moved anchor := let f := next_time_after (expression s) anchor in (f, set_next_fire f a) in
  match next_fire a with
  | Some fire_at =>
      if decide (instant fire_at <= instant now)%Z then
        fired ← io_try (fire s fire_at);
        match fired, backfill s with
        | Ok _, Some _ => mret (moved fire_at)
        | Err _, Some _ => wake ← retry_at now; mret (Some wake, a)
        | _, None => mret (moved now)
        end
      else mret (Some fire_at, a)
  | None => mret (None, a)
  end.
Definition tick_entry (a : ActiveEntry) (now : DateTime) : Q (option DateTime * ActiveEntry) :=
  match next_fire a with
  | Some _ => tick_due a now
  | None =>
      anchor ← io_try (initial_anchor (entry (active_entry a)) now);
      match anchor with
      | Ok anchor =>
          tick_due (set_next_fire (next_time_after (expression (entry (active_entry a))) anchor) a) now
      | Err _ => wake ← retry_at now; mret (Some wake, a)
      end
  end.

(** [CronScheduler::step]. *)
Definition earlier (a b : option DateTime) : option DateTime :=
  match a, b with
  | Some x, Some y => Some (if (instant x <=? instant y)%Z then x else y)
  | Some x, None => Some x
  | None, y => y
  end.
Fixpoint tick_all (l : list ActiveEntry) (now : DateTime) (soonest : option DateTime)
    : Q (option DateTime * list ActiveEntry) :=
  match l with
  | [] => mret (soonest, [])
  | a :: l =>
      '(wake, a) ← tick_entry a now;
      '(soonest, l) ← tick_all l now (earlier soonest wake);
      mret (soonest, a :: l)
  end.
Definition cron_step (r : RegistryState) (s : CronScheduler) (now : DateTime)
    : Q (option DateTime * CronScheduler) :=
  let s := sync r s in
  '(soonest, l) ← tick_all (active s) now None;
  mret (soonest, mkScheduler l (synced s)).

(** The sleep of [CronScheduler::run] until the next turn, [None] for an unbounded
    one. *)
Definition sleep_for (soonest : option DateTime) : Q (option Duration) :=
  match soonest with
  | None => mret None
  | Some at_ => now ← cron_now; mret (Some (Z.min (Z.max 0 (instant at_ - instant now)) MAX_SLEEP)%Z)
  end.

(** [CronScheduler::run] against the list of its wakes, each with the calls of the
    handles before it: the end of the timer or a notification, or the shutdown, which
    drops the scheduler. Without a further wake the scheduler still sleeps. *)
Inductive CronWake := CronShutdown | CronChanged | CronTimer.
Fixpoint cron_run (wakes : list (list HandleCall * CronWake)) (r : RegistryState) (s : CronScheduler)
    : Q (RegistryState * CronScheduler) :=
  now ← cron_now;
  '(soonest, s) ← cron_step r s now;
  _ ← sleep_for soonest;
  match wakes with
  | [] => mret (r, s)
  | (calls, wake) :: wakes =>
      let r := foldl (λ r h, (handle_call h r).2) r calls in
      match wake with
      | CronShutdown => mret (drop_scheduler r, s)
      | CronChanged | CronTimer => cron_run wakes r s
      end
  end.

(** [CronScheduler::clear_watermark]. *)
Definition clear_watermark (name : string) : Q () := kv_delete (watermark_key name).
End queue.
End cron.
