(* ===== verification/RunError.v ===== *)
(** * Run ids and the errors of the workflow runtime (taquba-workflow/src/error.rs,
    taquba-workflow/src/keys.rs)

    The validated id of a run or of a group, the [Error] of the workflow crate, its
    text and which of its values are permanent; and the calls that return it. *)
From stdpp Require Import pretty.
From Stdlib Require Import Ascii.
From S2P Require Import Prelude Bytes Error Monad Keys.

(** ** Run ids *)

Definition MAX_RUN_ID_LEN : nat := 128.

Definition run_id_byte (b : Z) : bool := is_ascii_alphanumeric b || (b =? 95)%Z || (b =? 45)%Z.

(** The reason of [RunId::new] to reject an id. *)
Definition run_id_reason (i : string) : option string :=
  if decide (as_bytes i = []) then Some "run id must not be empty"
  else if decide (MAX_RUN_ID_LEN < str_len i)
  then Some "run id exceeds maximum length of 128 bytes"
  else if negb (forallb run_id_byte (as_bytes i))
  then Some "run id must contain only `[A-Za-z0-9_-]`"
  else None.

(** The field of the Rust type is private, and every constructor checks or builds a
    valid id: the check is part of the type. *)
Record RunId := mkRunId { rid_str : string; rid_valid : run_id_reason rid_str = None }.

Definition rid_bytes (r : RunId) : bytes := as_bytes (rid_str r).

Lemma RunId_eq (r s : RunId) : rid_str r = rid_str s → r = s.
Proof. destruct r as [a Ha], s as [b Hb]. cbn. intros <-. f_equal. apply (proof_irrel Ha Hb). Qed.

#[global] Instance RunId_eq_dec : EqDecision RunId.
Proof.
  refine (λ r s, cast_if (decide (rid_str r = rid_str s))); [by apply RunId_eq|by intros ->].
Defined.

#[global] Instance rid_bytes_Inj : Inj (=) (=) rid_bytes.
Proof. intros r s H. apply RunId_eq. by apply as_bytes_inj. Qed.

(** What the check lets through. *)
Lemma rid_form r :
  0 < length (rid_bytes r) ≤ 128 ∧ Forall (λ b, run_id_byte b = true) (rid_bytes r).
Proof.
  destruct r as [s Hs]. unfold rid_bytes. cbn [rid_str]. unfold run_id_reason in Hs.
  do 2 (case_decide; [done|]). destruct (forallb _ _) eqn:E; [|done]. unfold str_len, MAX_RUN_ID_LEN in *.
  split; [|apply Forall_forall; intros b Hb; rewrite forallb_forall in E; by apply E, list_elem_of_In]. destruct (as_bytes s); [done|]. cbn [length] in *. lia.
Qed.

(** ** Errors *)

Inductive ControlQueueError :=
| RuntimeQueue
| NotAccepted
| DoneJobsNotKept (retention : Duration)
| DeadRetentionShort (retention : Duration).

(** The constructors with the prefix [Wf] are [Queue], [Store], [Serialization] and
    [Deserialization]. The key of an error about a key is its bytes, where the code
    keeps their lossy text. *)
Inductive WfError :=
| MissingHeader (header : string)
| InvalidStepHeader (header value : string)
| ReservedHeader (name : string)
| InvalidRunId (run_id reason : string)
| InputMismatch (run_id : RunId)
| InconsistentRunState (run_id : RunId)
| ReservedQueue (queue : string)
| ReservedKvKey (key : bytes)
| ReservedCountName (name : string)
| OwnerStepEnded (run_id : RunId)
| OwnerOfAnotherQueue (run_id : RunId)
| KvCompareInEffects
| WfConflictingKvEffect (key : bytes)
| EffectsSealed
| WfQueue (e : Error)
| WfStore (e : ObjectStoreError)
| WfSerialization (message : string)
| WfDeserialization (message : string)
| RunNotFound (run_id : RunId)
| MemberNotSubmitted (group_id : RunId) (key : string)
| MemberNotFound (group_id : RunId) (key : string)
| DuplicateMemberKey (key : string)
| GroupMismatch (group_id : RunId)
| GroupNotFound (group_id : RunId)
| GroupActive (group_id : RunId)
| InvalidControlQueue (queue : string) (reason : ControlQueueError).

Abbreviation WfResult A := (result WfError A).

(** [Error::is_permanent] of the workflow crate. *)
Definition wf_is_permanent (e : WfError) : bool :=
  match e with
  | WfQueue e => is_permanent e
  | WfStore _ | GroupActive _ => false
  | _ => true
  end.

(** [RunId::new]. *)
Definition RunId_new (i : string) : WfResult RunId :=
  match run_id_reason i as o return run_id_reason i = o → WfResult RunId with
  | None => λ E, Ok (mkRunId i E)
  | Some reason => λ _, Err (InvalidRunId i reason)
  end eq_refl.

Lemma RunId_new_None i (E : run_id_reason i = None) : RunId_new i = Ok (mkRunId i E).
Proof.
  unfold RunId_new. generalize (@eq_refl _ (run_id_reason i)).
  generalize (run_id_reason i) at 2 3. intros [reason|] E'; [congruence|]. f_equal. by apply RunId_eq.
Qed.

Lemma RunId_new_rid r : RunId_new (rid_str r) = Ok r.
Proof. destruct r as [s Hs]. apply RunId_new_None. Qed.

Lemma RunId_new_Ok i r : RunId_new i = Ok r → rid_str r = i.
Proof.
  unfold RunId_new. generalize (@eq_refl _ (run_id_reason i)).
  generalize (run_id_reason i) at 2 3. intros [reason|] E; by intros [= <-].
Qed.

#[global] Instance RunId_countable : Countable RunId.
Proof.
  refine (inj_countable rid_str (λ s, match RunId_new s with Ok r => Some r | Err _ => None end) _).
  intros r. by rewrite RunId_new_rid.
Defined.

(** ** Text of the errors *)

Section text.
  (** The text of the errors of the queue and of the object store, and of a duration. *)
  Context (queue_text : Error → string) (store_text : ObjectStoreError → string).
  Context (duration_debug : Duration → string) (lossy : bytes → string).

Definition control_queue_text (e : ControlQueueError) : string :=
  match e with
  | RuntimeQueue => "is the runtime's queue"
  | NotAccepted => "is outside the inbox allow-list"
  | DoneJobsNotKept r => "must keep done jobs for at least " +:+ duration_debug r
  | DeadRetentionShort r => "must keep dead jobs for at least " +:+ duration_debug r
  end.

(** [Error::fmt]. *)
Definition wf_text (e : WfError) : string :=
  match e with
  | MissingHeader h => "step job is missing header `" +:+ h +:+ "`"
  | InvalidStepHeader h v => "step job has invalid `" +:+ h +:+ "` header `" +:+ v +:+ "`"
  | ReservedHeader n => "header `" +:+ n +:+ "` uses the reserved `workflow.*` prefix"
  | InvalidRunId i reason => "invalid run id `" +:+ i +:+ "`: " +:+ reason
  | InputMismatch r =>
      "run `" +:+ rid_str r +:+ "` exists with a different input; pick a fresh run_id"
  | InconsistentRunState r => "run `" +:+ rid_str r +:+ "` has inconsistent durable state"
  | ReservedQueue q => "enqueue targets the reserved queue `" +:+ q +:+ "` of the runtime"
  | ReservedKvKey k => "kv key `" +:+ lossy k +:+ "` uses the reserved `workflow/` prefix"
  | ReservedCountName n => "count `" +:+ n +:+ "` uses the reserved `workflow/` prefix"
  | OwnerStepEnded r => "the step of owner run `" +:+ rid_str r +:+ "` has ended"
  | OwnerOfAnotherQueue r => "owner run `" +:+ rid_str r +:+ "` belongs to another queue"
  | KvCompareInEffects => "the effects of a run spec contain a kv compare"
  | WfConflictingKvEffect k => "kv key `" +:+ lossy k +:+ "` is staged for both a write and a delete"
  | EffectsSealed => "the effects handle is sealed; its delivery has returned"
  | WfQueue e => queue_text e
  | WfStore e => "object store error: " +:+ store_text e
  | WfSerialization m => "serialization error: " +:+ m
  | WfDeserialization m => "deserialization error: " +:+ m
  | RunNotFound r => "run `" +:+ rid_str r +:+ "` not found"
  | MemberNotSubmitted g k =>
      "member `" +:+ k +:+ "` of group `" +:+ rid_str g +:+ "` was not submitted"
  | MemberNotFound g k => "group `" +:+ rid_str g +:+ "` has no member `" +:+ k +:+ "`"
  | DuplicateMemberKey k => "duplicate member key `" +:+ k +:+ "` in group"
  | GroupMismatch g => "group `" +:+ rid_str g +:+ "` exists with a different member set"
  | GroupNotFound g => "group `" +:+ rid_str g +:+ "` not found"
  | GroupActive g => "group `" +:+ rid_str g +:+ "` has an active member"
  | InvalidControlQueue q reason =>
      "invalid control queue `" +:+ q +:+ "`: " +:+ control_queue_text reason
  end.
End text.

(** ** Calls of the runtime

    [EIO E W A] is [IO W A] with the errors of a crate above the queue. *)
Definition EIO (E W A : Type) : Type := W → result E A * W.

#[global] Instance EIO_ret {E W} : MRet (EIO E W) := λ A a w, (Ok a, w).
#[global] Instance EIO_bind {E W} : MBind (EIO E W) :=
  λ A B f m w, match m w with (Ok a, w) => f a w | (Err e, w) => (Err e, w) end.

Definition eio_err {E W A} (e : E) : EIO E W A := λ w, (Err e, w).
Definition eio_result {E W A} (r : result E A) : EIO E W A := λ w, (r, w).
(** [map_err]. *)
Definition map_err {E F W A} (f : E → F) (m : EIO E W A) : EIO F W A := λ w,
  match m w with (Ok a, w) => (Ok a, w) | (Err e, w) => (Err (f e), w) end.
(** The outcome of a call as a value. *)
Definition eio_try {E F W A} (m : EIO E W A) : EIO F W (result E A) := λ w,
  let '(r, w) := m w in (Ok r, w).
(** A call of the queue: [?] wraps its error. *)
Definition lift_q {W A} (m : IO W A) : EIO WfError W A := map_err WfQueue m.

Lemma EIO_bind_Ok {E W A B} (m : EIO E W A) (f : A → EIO E W B) w b w' :
  (m ≫= f) w = (Ok b, w') ↔ ∃ a w1, m w = (Ok a, w1) ∧ f a w1 = (Ok b, w').
Proof.
  unfold mbind, EIO_bind. destruct (m w) as [[a|e] w1].
  - split; [by exists a, w1|]. by intros (? & ? & [= -> ->] & ?).
  - split; [done|]. by intros (? & ? & ? & ?).
Qed.

(** ** Ids in decimal *)

Definition digit_str (s : string) : bool := forallb (in_range 48 57) (as_bytes s).

Lemma pretty_go_digits x s :
  digit_str s = true → digit_str (pretty_N_go x s) = true.
Proof.
  revert s. induction (N.lt_wf_0 x) as [x _ IH]. intros s Hs.
  assert (x = 0 ∨ 0 < x)%N as [->|Hpos] by lia; [by rewrite pretty_N_go_0|].
  rewrite pretty_N_go_step by done. destruct (N_digits x) as (q & r & -> & -> & Hr & E).
  apply IH; [lia|].
  unfold digit_str, as_bytes in *. cbn [String.list_ascii_of_string fmap list_fmap forallb].
  rewrite digit_byte by done. apply andb_true_intro. split; [unfold in_range; lia|done].
Qed.

Lemma pretty_go_length k x s :
  (x < 10 ^ N.of_nat k)%N → str_len (pretty_N_go x s) <= str_len s + k.
Proof.
  revert x s. induction k as [|k IH]; intros x s Hx.
  { assert (x = 0%N) as -> by (cbn in Hx; lia). rewrite pretty_N_go_0. lia. }
  assert (x = 0 ∨ 0 < x)%N as [->|Hpos] by lia; [rewrite pretty_N_go_0; lia|].
  rewrite pretty_N_go_step by done. etrans; [apply IH|].
  - rewrite Nat2N.inj_succ, N.pow_succ_r' in Hx. by apply N.Div0.div_lt_upper_bound.
  - unfold str_len, as_bytes. cbn. lia.
Qed.

(** A decimal number below [10 ^ 128] is a valid run id. *)
Lemma dec_run_id n : (0 <= n < 10 ^ 128)%Z → run_id_reason (dec_text n) = None.
Proof.
  intros [Hn0 Hn]. destruct n as [|p|p]; [done| |lia].
  change (run_id_reason (pretty_N_go (Npos p) "") = None).
  pose proof (pretty_go_digits (Npos p) "" eq_refl) as Hd.
  assert (Npos p < 10 ^ N.of_nat 128)%N as Hlt.
  { apply N2Z.inj_lt. rewrite N2Z.inj_pow. cbn [Z.of_N N.of_nat]. exact Hn. }
  pose proof (pretty_go_length 128 (Npos p) "" Hlt) as Hl.
  destruct (pretty_go_head (Npos p) "" eq_refl) as (d & s' & _ & E).
  unfold run_id_reason. rewrite decide_False by (rewrite E; done).
  rewrite decide_False by (unfold MAX_RUN_ID_LEN; cbn [str_len as_bytes] in Hl; change (str_len "") with 0 in Hl; lia).
  unfold digit_str in Hd. rewrite forallb_forall in Hd.
  rewrite (proj2 (forallb_forall _ _)); [done|]. intros b Hb. apply Hd in Hb.
  unfold run_id_byte, is_ascii_alphanumeric. by rewrite Hb.
Qed.
