(* ===== verification/RunKeys.v ===== *)
(** * The reserved namespaces of the workflow runtime (taquba-workflow/src/keys.rs)

    The reserved headers, keys and count names, the checks of what a caller passes,
    and the builders of the keys of runs, groups and owners, with their ranges. *)
From Stdlib Require Import Ascii.
From S2P Require Import Prelude Bytes Error Monad Keys Job Store Stats LeaseRegistry.
From S2P Require Import TimeBound ClaimCursor Completion Txn Core QueueCore.
From S2P Require Import Control Effects InboxEntry InboxListing View RunError.

(** ** Constants *)

Definition HEADER_RUN_ID : string := "workflow.run_id".
Definition HEADER_STEP : string := "workflow.step".
Definition HEADER_GROUP : string := "workflow.group".
Definition HEADER_GROUP_KEY : string := "workflow.group_key".
(** Of taquba-workflow/src/owner.rs. *)
Definition HEADER_OWNER : string := "workflow.owner".
Definition HEADER_OWNED : string := "workflow.owned".

Definition RESERVED_HEADER_PREFIX : string := "workflow.".
Definition RESERVED_KV_PREFIX : string := "workflow/".
Definition RESERVED_COUNT_PREFIX : string := "workflow/".
Definition DEDUP_PREFIX : string := "run:".
Definition GROUP_COUNT_PREFIX : string := "workflow/groups/".

Definition RUN_KV_PREFIX : bytes := as_bytes "workflow/runs/".
Definition STEP_KV_PREFIX : bytes := as_bytes "workflow/steps/".
Definition TERMINAL_KV_PREFIX : bytes := as_bytes "workflow/terminals/".
Definition RUN_KV_ENTRY_PREFIX : bytes := as_bytes "workflow/run-kv/".
Definition GROUP_KV_PREFIX : bytes := as_bytes "workflow/groups/".
Definition OWNED_KV_PREFIX : bytes := as_bytes "workflow/owned/".
Definition OWNER_QUEUES_KV_PREFIX : bytes := as_bytes "workflow/owner-queues/".
Definition GROUP_TERMINAL_KV_PREFIX : bytes := as_bytes "workflow/group-terminals/".

(** ** The checks of a caller's headers, keys and effects *)

Definition check_kv_key (key : bytes) : WfResult () :=
  if bytes_starts_with (as_bytes RESERVED_KV_PREFIX) key then Err (ReservedKvKey key) else Ok ().

Definition check_count_name (name : string) : WfResult () :=
  if starts_with RESERVED_COUNT_PREFIX name then Err (ReservedCountName name) else Ok ().

Definition submitter_headers (headers : gmap string string) : gmap string string :=
  filter (λ e : string * string, starts_with RESERVED_HEADER_PREFIX e.1 = false) headers.

(** [keys().find]: the order of a [HashMap] is not specified; the model takes that of
    [map_to_list]. *)
Definition check_headers (headers : gmap string string) : WfResult () :=
  match list_find_first (starts_with RESERVED_HEADER_PREFIX) (map_to_list headers).*1 with
  | Some name => Err (ReservedHeader name)
  | None => Ok ()
  end.

Definition check_enqueue (request : EnqueueRequest) (runtime_queue : option string) : WfResult () :=
  if decide (runtime_queue = Some (req_queue request)) then Err (ReservedQueue (req_queue request))
  else check_headers (opt_headers (req_options request)).

(** [for x in l { f(x)?; }]. *)
Fixpoint check_all {A} (f : A → WfResult ()) (l : list A) : WfResult () :=
  match l with [] => Ok () | a :: l => _ ← f a; check_all f l end.

Definition check_effects (effects : SettlementEffects) (runtime_queue : string) : WfResult () :=
  match kv_compares effects with
  | _ :: _ => Err KvCompareInEffects
  | [] =>
      _ ← check_all check_kv_key ((map_to_list (kv_writes effects)).*1 ++ kv_deletes effects);
      _ ← check_all check_count_name (map_to_list (count_changes effects)).*1;
      check_all (λ r, check_enqueue r (Some runtime_queue)) (enqueues effects)
  end.

(** ** Digests *)

(** The digest of the [sha2] crate: 32 bytes. *)
Class Sha256 := {
  sha256 : bytes → bytes;
  sha256_length b : length (sha256 b) = 32;
  sha256_bytes b : Forall is_byte (sha256 b);
}.

(** [{byte:02x}]. *)
Definition hex_digit (d : Z) : ascii := ascii_of_byte (if (d <? 10)%Z then 48 + d else 87 + d)%Z.
Definition hex_byte (b : Z) : list ascii := [hex_digit (b / 16); hex_digit (b mod 16)].

Section digests.
  Context {SH : Sha256}.

Definition hash_input (input : bytes) : bytes := sha256 input.

Definition hex_sha256 (parts : list bytes) : string :=
  String.string_of_list_ascii (mjoin (hex_byte <$> sha256 (mjoin parts))).

(** [String::truncate], of a text of single-byte characters. *)
Definition next_step_job_id (job_id : string) : string :=
  String.substring 0 32 (hex_sha256 [as_bytes "workflow/next-step/"; as_bytes job_id]).

End digests.

(** ** Owners (taquba-workflow/src/owner.rs) *)

(** [ulid::Ulid]: its text, which [Ulid::from_string] reads back. A submission id is
    the 128-bit value of a ULID. *)
Abbreviation SubmissionId := Z (only parsing).
Definition is_u128 (x : Z) : Prop := (0 <= x < 2 ^ 128)%Z.

Class UlidText {EN : Env} := {
  ulid_of_text : string → option Z;
  ulid_of_text_string u : is_u128 u → ulid_of_text (ulid_string u) = Some u;
  ulid_text_id u : is_u128 u → run_id_reason (ulid_string u) = None;
}.

Record OwnerRef := mkOwnerRef { owner_run_id : RunId; owner_submission_id : SubmissionId }.

Section owner.
  Context {EN : Env} {UT : UlidText}.

(** [SubmissionId::of_job]: [None] is its panic. *)
Definition submission_of_job (job_id : string) : option SubmissionId := ulid_of_text job_id.

Definition header_value (o : OwnerRef) : string :=
  rid_str (owner_run_id o) +:+ ":" +:+ ulid_string (owner_submission_id o).

Definition owner_from_header (value : string) : WfResult OwnerRef :=
  let invalid := InvalidStepHeader HEADER_OWNER value in
  match split_once ":"%char value with
  | None => Err invalid
  | Some (run_id, submission_id) =>
      run_id ← RunId_new run_id;
      match ulid_of_text submission_id with
      | Some s => Ok (mkOwnerRef run_id s)
      | None => Err invalid
      end
  end.

Definition cancel_dedup_key (o : OwnerRef) : string := "owned:" +:+ header_value o.

(** ** Keys *)

Definition prefixed (prefix : bytes) (suffix : string) : bytes := prefix ++ as_bytes suffix.

Definition owned_run_kv_key (owner : OwnerRef) (queue : string) (run_id : RunId) : bytes :=
  prefixed OWNED_KV_PREFIX (header_value owner +:+ "/" +:+ queue +:+ "/" +:+ rid_str run_id).

(** A range of keys: [start..end]. *)
Definition owned_runs_range (owner : OwnerRef) (queue : string) : bytes * bytes :=
  let owner := header_value owner in
  (prefixed OWNED_KV_PREFIX (owner +:+ "/" +:+ queue +:+ "/"),
   prefixed OWNED_KV_PREFIX (owner +:+ "/" +:+ queue +:+ "0")).

Definition owner_queues_kv_key (owner : OwnerRef) : bytes :=
  prefixed OWNER_QUEUES_KV_PREFIX
    (rid_str (owner_run_id owner) +:+ "/" +:+ ulid_string (owner_submission_id owner)).

End owner.

Definition owner_queues_range (run_id : RunId) : bytes * bytes :=
  (prefixed OWNER_QUEUES_KV_PREFIX (rid_str run_id +:+ "/"),
   prefixed OWNER_QUEUES_KV_PREFIX (rid_str run_id +:+ "0")).

Definition group_members_kv_prefix (group_id : RunId) : bytes :=
  prefixed GROUP_KV_PREFIX (rid_str group_id +:+ "/").
Definition group_member_kv_key (group_id : RunId) (key : string) : bytes :=
  prefixed (group_members_kv_prefix group_id) key.

Definition group_count_name (group_id : RunId) : string := GROUP_COUNT_PREFIX +:+ rid_str group_id.
Definition group_of_count_name (name : string) : option RunId :=
  i ← str_strip_prefix GROUP_COUNT_PREFIX name;
  match RunId_new i with Ok r => Some r | Err _ => None end.

Definition run_kv_key (run_id : RunId) : bytes := prefixed RUN_KV_PREFIX (rid_str run_id).
Definition step_kv_key (run_id : RunId) : bytes := prefixed STEP_KV_PREFIX (rid_str run_id).

Definition run_kv_entries_prefix (run_id : RunId) : bytes :=
  prefixed RUN_KV_ENTRY_PREFIX (rid_str run_id +:+ "/").
Definition run_kv_entries_range (run_id : RunId) : bytes * bytes :=
  (run_kv_entries_prefix run_id, prefixed RUN_KV_ENTRY_PREFIX (rid_str run_id +:+ "0")).
Definition run_kv_entry_key (run_id : RunId) (key : bytes) : bytes :=
  run_kv_entries_prefix run_id ++ key.

(** A key of a half-open range. *)
Definition in_key_range (r : bytes * bytes) (k : bytes) : bool := bytes_le r.1 k && bytes_lt k r.2.
(** The range as the bounds of a scan. *)
Definition range_bounds (r : bytes * bytes) : Bound * Bound := (Included r.1, Excluded r.2).

(** ** Facts of the reserved namespaces

    The namespaces are disjoint, reserved and separate per run, group and owner, and
    the ids in them are read back. *)

(** ** Text *)

Lemma as_bytes_app s t : as_bytes (s +:+ t) = as_bytes s ++ as_bytes t.
Proof. unfold as_bytes. induction s as [|a s IH]; [done|].
  change (String a s +:+ t) with (String a (s +:+ t)). cbn. f_equal. exact IH. Qed.

Lemma string_app_nil_r s : s +:+ "" = s.
Proof. apply as_bytes_inj. by rewrite as_bytes_app, app_nil_r. Qed.

(** A run id has no byte outside its form. *)
Lemma rid_no_byte r b : run_id_byte b = false → b ∉ rid_bytes r.
Proof.
  intros Hb Hin. destruct (rid_form r) as [_ Hall]. rewrite Forall_forall in Hall.
  apply Hall in Hin. congruence.
Qed.

Lemma rid_ascii r : is_ascii_str (rid_str r) = true.
Proof.
  destruct (rid_form r) as [_ Hall]. apply forallb_forall. intros b Hb%list_elem_of_In.
  rewrite Forall_forall in Hall. apply Hall in Hb. revert Hb.
  unfold run_id_byte, is_ascii_alphanumeric, in_range. rewrite !orb_true_iff, !andb_true_iff, !Z.leb_le, !Z.eqb_eq. lia.
Qed.

Lemma rid_without r c : run_id_byte (byte_of_ascii c) = false → without c (rid_str r).
Proof.
  intros Hc. apply Forall_forall. intros x Hx ->. apply (rid_no_byte r _ Hc). by apply list_elem_of_fmap_2.
Qed.

(** ** Separated fields

    A field without the separator ends where the separator first occurs. *)
Lemma field_inj (c : Z) (a b x y : bytes) :
  c ∉ a → c ∉ b → a ++ c :: x = b ++ c :: y → a = b ∧ x = y.
Proof.
  revert b. induction a as [|z a IH]; intros [|z' b]; cbn; rewrite ?not_elem_of_cons; intros Ha Hb [=].
  - done.
  - subst. tauto.
  - subst. tauto.
  - subst. destruct (IH b) as [-> ->]; tauto.
Qed.

(** The keys from a prefix ending in a byte to the prefix with the next byte in its
    place are those that continue the prefix. *)
Lemma in_key_range_spec p (c : Z) k :
  in_key_range (p ++ [c], p ++ [c + 1]%Z) k = true ↔ ∃ s, k = p ++ c :: s.
Proof.
  unfold in_key_range, bytes_le. cbn [fst snd]. rewrite andb_true_iff, negb_true_iff.
  revert k. induction p as [|x p IH]; intros k; cbn [app].
  - destruct k as [|y k]; cbn [bytes_lt].
    + split; [by intros [? _]|by intros [s ?]].
    + split.
      * intros [H1 H2]. destruct (Z.ltb_spec y c); [done|].
        assert (y = c) as -> by (destruct (Z.ltb_spec y (c + 1)); [lia|];
          destruct (Z.eqb_spec y (c + 1)); [by destruct k|done]). by exists k.
      * intros [s [= -> ->]]. rewrite Z.ltb_irrefl, Z.eqb_refl.
        rewrite (proj2 (Z.ltb_lt c (c + 1))) by lia. by destruct s.
  - destruct k as [|y k]; cbn [bytes_lt].
    + split; [by intros [? _]|by intros [s ?]].
    + destruct (Z.ltb_spec y x).
      * split; [by intros [? _]|]. intros [s [= -> _]]. lia.
      * destruct (Z.eqb_spec y x) as [->|Hne].
        -- rewrite IH. split; intros [s Hs]; exists s; [by rewrite Hs|by injection Hs].
        -- split; [by intros [_ ?]|]. by intros [s [= -> _]].
Qed.

(** ** The entries of one run, group and owner *)

Lemma run_entry_key_split r k : run_kv_entry_key r k = RUN_KV_ENTRY_PREFIX ++ rid_bytes r ++ 47%Z :: k.
Proof.
  unfold run_kv_entry_key, run_kv_entries_prefix, prefixed. rewrite as_bytes_app.
  change (as_bytes "/") with [47%Z]. by rewrite <- !app_assoc.
Qed.

Lemma run_entries_range_spec r k :
  in_key_range (run_kv_entries_range r) k = true ↔ ∃ s, k = run_kv_entry_key r s.
Proof.
  unfold run_kv_entries_range, run_kv_entries_prefix, prefixed. rewrite !as_bytes_app, !app_assoc.
  change (as_bytes "/") with [47%Z]. change (as_bytes "0") with [47 + 1]%Z.
  rewrite in_key_range_spec. by setoid_rewrite run_entry_key_split; setoid_rewrite app_assoc.
Qed.

Lemma run_entry_key_inj r s a b : run_kv_entry_key r a = run_kv_entry_key s b → r = s ∧ a = b.
Proof.
  rewrite !run_entry_key_split. intros H%app_inv_head. apply field_inj in H as [H ->].
  - split; [by apply rid_bytes_Inj|done].
  - by apply rid_no_byte.
  - by apply rid_no_byte.
Qed.

Lemma group_member_key_split g k :
  group_member_kv_key g k = GROUP_KV_PREFIX ++ rid_bytes g ++ 47%Z :: as_bytes k.
Proof.
  unfold group_member_kv_key, group_members_kv_prefix, prefixed. rewrite as_bytes_app.
  change (as_bytes "/") with [47%Z]. by rewrite <- !app_assoc.
Qed.

Lemma group_member_key_inj g h a b : group_member_kv_key g a = group_member_kv_key h b → g = h ∧ a = b.
Proof.
  rewrite !group_member_key_split. intros H%app_inv_head. apply field_inj in H as [H E].
  - split; [by apply rid_bytes_Inj|by apply as_bytes_inj].
  - by apply rid_no_byte.
  - by apply rid_no_byte.
Qed.

#[global] Instance run_kv_key_Inj : Inj (=) (=) run_kv_key.
Proof. intros r s H%app_inv_head. by apply rid_bytes_Inj. Qed.
#[global] Instance step_kv_key_Inj : Inj (=) (=) step_kv_key.
Proof. intros r s H%app_inv_head. by apply rid_bytes_Inj. Qed.

Lemma group_count_name_back g : group_of_count_name (group_count_name g) = Some g.
Proof.
  unfold group_of_count_name, group_count_name.
  rewrite (proj2 (str_strip_prefix_Some _ _ (rid_str g)) eq_refl). cbn [mbind option_bind].
  by rewrite RunId_new_rid.
Qed.

(** ** Owners *)

Section owners.
  Context {EN : Env} {UT : UlidText}.
#[local] Set Default Proof Using "Type UT".

Lemma owner_header_back o : is_u128 (owner_submission_id o) → owner_from_header (header_value o) = Ok o.
Proof.
  destruct o as [r u]. cbn. intros Hu. unfold owner_from_header, header_value. cbn [owner_run_id owner_submission_id].
  change (":" +:+ ulid_string u) with (String ":"%char (ulid_string u)).
  rewrite split_once_app by (by apply rid_without).
  rewrite RunId_new_rid. cbn. by rewrite ulid_of_text_string.
Qed.

Lemma ulid_no_byte u b : is_u128 u → run_id_byte b = false → b ∉ as_bytes (ulid_string u).
Proof. intros Hu Hb. exact (rid_no_byte (mkRunId _ (ulid_text_id u Hu)) b Hb). Qed.

Lemma header_value_no_slash o : is_u128 (owner_submission_id o) → 47%Z ∉ as_bytes (header_value o).
Proof.
  intros Hu. unfold header_value. rewrite !as_bytes_app, !not_elem_of_app. split_and!.
  - by apply rid_no_byte.
  - change (as_bytes ":") with [58%Z]. by rewrite list_elem_of_singleton.
  - by apply ulid_no_byte.
Qed.

Lemma header_value_inj o p :
  is_u128 (owner_submission_id o) → is_u128 (owner_submission_id p) →
  header_value o = header_value p → o = p.
Proof.
  intros Ho Hp E. pose proof (owner_header_back o Ho) as H1. pose proof (owner_header_back p Hp) as H2.
  rewrite E, H2 in H1. by injection H1.
Qed.

Lemma owned_run_key_split o q r :
  owned_run_kv_key o q r =
    OWNED_KV_PREFIX ++ as_bytes (header_value o) ++ 47%Z :: as_bytes q ++ 47%Z :: rid_bytes r.
Proof.
  unfold owned_run_kv_key, prefixed. rewrite !as_bytes_app. change (as_bytes "/") with [47%Z].
  by rewrite <- ?app_assoc.
Qed.

(** The index entries of one owner on one queue are in its range, and those of
    another owner or queue are not. *)
Lemma owned_range_spec o p q q' r :
  is_u128 (owner_submission_id o) → is_u128 (owner_submission_id p) →
  47%Z ∉ as_bytes q → 47%Z ∉ as_bytes q' →
  in_key_range (owned_runs_range o q) (owned_run_kv_key p q' r) = true ↔ o = p ∧ q = q'.
Proof.
  intros Ho Hp Hq Hq'. unfold owned_runs_range, prefixed. rewrite !as_bytes_app, !app_assoc.
  change (as_bytes "/") with [47%Z]. change (as_bytes "0") with [47 + 1]%Z.
  rewrite in_key_range_spec, owned_run_key_split. setoid_rewrite <- app_assoc.
  setoid_rewrite <- app_assoc. setoid_rewrite <- app_assoc. split.
  - intros [s Hs%app_inv_head]. apply field_inj in Hs as [E1 E2]; [|by apply header_value_no_slash..].
    apply field_inj in E2 as [E2 _]; [|done..].
    split; [symmetry; apply header_value_inj; [done..|by apply as_bytes_inj]|symmetry; by apply as_bytes_inj].
  - intros [-> ->]. by exists (rid_bytes r).
Qed.

End owners.
