(* ===== verification/RunRecords.v ===== *)
(** * The records of runs (taquba-workflow/src/durable.rs, taquba-workflow/src/terminal.rs,
    taquba-workflow/src/runner.rs, taquba-workflow/src/view.rs)

    The outcome of a step, the end of a run, the stored form of each, and the
    conversions between the two. *)
From S2P Require Import Prelude Bytes Error Monad Keys Job RunError RunKeys.

(** ** Steps (runner.rs) *)

Inductive Trigger :=
| Immediate
| After (delay : Duration)
| OnSignal (timeout : Duration)
| OnGroup (group_id : RunId) (timeout : Duration).

Inductive StepOutcome :=
| Continue (payload : bytes) (when : Trigger)
| Succeed (result : bytes)
| Fail (reason : string)
| Cancel (reason : string).

Definition continue_now (payload : bytes) : StepOutcome := Continue payload Immediate.
Definition continue_after (payload : bytes) (delay : Duration) : StepOutcome :=
  Continue payload (After delay).
Definition continue_on_signal (payload : bytes) (timeout : Duration) : StepOutcome :=
  Continue payload (OnSignal timeout).
Definition continue_on_group (payload : bytes) (group_id : RunId) (timeout : Duration) : StepOutcome :=
  Continue payload (OnGroup group_id timeout).

Inductive StepErrorKind := Transient | Permanent.

#[global] Instance StepErrorKind_eq_dec : EqDecision StepErrorKind.
Proof. solve_decision. Defined.

Record StepError := mkStepError { se_message : string; se_kind : StepErrorKind }.

(** [StepError::transient], [StepError::permanent] and [From<Error>]. *)
Definition step_error_transient (message : string) : StepError := mkStepError message Transient.
Definition step_error_permanent (message : string) : StepError := mkStepError message Permanent.
Definition step_error_of (text : WfError → string) (e : WfError) : StepError :=
  if wf_is_permanent e then step_error_permanent (text e) else step_error_transient (text e).

(** ** Ends of runs (terminal.rs) *)

Inductive TerminalStatus := Succeeded | Failed | Cancelled.
Inductive CancelOrigin := Runner | Request | Owner.

#[global] Instance TerminalStatus_eq_dec : EqDecision TerminalStatus.
Proof. solve_decision. Defined.

(** [TerminalStatus::as_str] and [CancelOrigin::as_str]. *)
Definition status_str (s : TerminalStatus) : string :=
  match s with Succeeded => "succeeded" | Failed => "failed" | Cancelled => "cancelled" end.
Definition origin_str (o : CancelOrigin) : string :=
  match o with Runner => "runner" | Request => "request" | Owner => "owner" end.

Record StepRef := mkStepRef { step_number : Z; step_job_id : string }.

Record RunTermination := mkRunTermination {
  rt_status : TerminalStatus;
  rt_error : option string;
  rt_cancelled_by : option CancelOrigin;
  rt_error_kind : option StepErrorKind;
  rt_final_step : StepRef;
  rt_terminated_at_ms : Z;
}.

Record TerminatedRun := mkTerminatedRun {
  tr_run_id : RunId;
  tr_termination : RunTermination;
  tr_result : option bytes;
  tr_headers : gmap string string;
}.

(** ** Stored forms (durable.rs)

    The constructors of a stored type are those of the public type with a [D]. *)

Inductive DurableCancelOrigin := DRunner | DRequest | DOwner.
Definition durable_origin (o : CancelOrigin) : DurableCancelOrigin :=
  match o with Runner => DRunner | Request => DRequest | Owner => DOwner end.
Definition public_origin (o : DurableCancelOrigin) : CancelOrigin :=
  match o with DRunner => Runner | DRequest => Request | DOwner => Owner end.

Record DurableStepRef := mkDStepRef { dsr_step_number : Z; dsr_job_id : string }.
Definition durable_step_ref (s : StepRef) : DurableStepRef := mkDStepRef (step_number s) (step_job_id s).
Definition public_step_ref (s : DurableStepRef) : StepRef := mkStepRef (dsr_step_number s) (dsr_job_id s).

Record DurableDuration := mkDDuration { secs : Z; nanos : Z }.
(** [as_secs] and [subsec_nanos]; [Duration::new]. *)
Definition durable_duration (d : Duration) : DurableDuration :=
  mkDDuration (d / 1000000000) (d mod 1000000000).
Definition public_duration (d : DurableDuration) : Duration := (secs d * 1000000000 + nanos d)%Z.

Inductive DurableTrigger :=
| DImmediate
| DAfter (delay : DurableDuration)
| DOnSignal (timeout : DurableDuration)
| DOnGroup (group_id : RunId) (timeout : DurableDuration).
Definition durable_trigger (t : Trigger) : DurableTrigger :=
  match t with
  | Immediate => DImmediate
  | After d => DAfter (durable_duration d)
  | OnSignal d => DOnSignal (durable_duration d)
  | OnGroup g d => DOnGroup g (durable_duration d)
  end.
Definition public_trigger (t : DurableTrigger) : Trigger :=
  match t with
  | DImmediate => Immediate
  | DAfter d => After (public_duration d)
  | DOnSignal d => OnSignal (public_duration d)
  | DOnGroup g d => OnGroup g (public_duration d)
  end.

Inductive DurableStepOutcome :=
| DContinue (payload : bytes) (when : DurableTrigger)
| DSucceed (result : bytes)
| DFail (reason : string)
| DCancel (reason : string).
Definition durable_outcome (o : StepOutcome) : DurableStepOutcome :=
  match o with
  | Continue p w => DContinue p (durable_trigger w)
  | Succeed r => DSucceed r
  | Fail r => DFail r
  | Cancel r => DCancel r
  end.
Definition public_outcome (o : DurableStepOutcome) : StepOutcome :=
  match o with
  | DContinue p w => Continue p (public_trigger w)
  | DSucceed r => Succeed r
  | DFail r => Fail r
  | DCancel r => Cancel r
  end.

Inductive DurableTerminalStatus := DSucceeded | DFailed | DCancelled.
Definition durable_status (s : TerminalStatus) : DurableTerminalStatus :=
  match s with Succeeded => DSucceeded | Failed => DFailed | Cancelled => DCancelled end.
Definition public_status (s : DurableTerminalStatus) : TerminalStatus :=
  match s with DSucceeded => Succeeded | DFailed => Failed | DCancelled => Cancelled end.

Inductive DurableErrorKind := DTransient | DPermanent.
Definition durable_kind (k : StepErrorKind) : DurableErrorKind :=
  match k with Transient => DTransient | Permanent => DPermanent end.
Definition public_kind (k : DurableErrorKind) : StepErrorKind :=
  match k with DTransient => Transient | DPermanent => Permanent end.

Inductive DurableResult := ResultEmpty | ResultObject (attempt : Z).

Record DurableTermination := mkDTermination {
  dt_status : DurableTerminalStatus;
  dt_error : option string;
  dt_cancelled_by : option DurableCancelOrigin;
  dt_error_kind : option DurableErrorKind;
  dt_final_step : DurableStepRef;
  dt_terminated_at_ms : Z;
  dt_input_hash : bytes;
  dt_submitted_at_ms : Z;
  dt_headers : gmap string string;
  dt_result : option DurableResult;
}.
Definition public_termination (t : DurableTermination) : RunTermination :=
  mkRunTermination (public_status (dt_status t)) (dt_error t) (public_origin <$> dt_cancelled_by t)
    (public_kind <$> dt_error_kind t) (public_step_ref (dt_final_step t)) (dt_terminated_at_ms t).

Record DurableCancelRequest := mkDCancelRequest {
  dcr_reason : option string;
  dcr_origin : DurableCancelOrigin;
  dcr_requested_at_ms : Z;
}.

Record DurableRunRecord := mkDRunRecord {
  drr_run_id : RunId;
  drr_submission_id : SubmissionId;
  drr_submitted_at_ms : Z;
  drr_input_hash : bytes;
  drr_cancel_request : option DurableCancelRequest;
}.
Definition set_cancel_request (r : option DurableCancelRequest) (d : DurableRunRecord) : DurableRunRecord :=
  mkDRunRecord (drr_run_id d) (drr_submission_id d) (drr_submitted_at_ms d) (drr_input_hash d) r.

Inductive DurableRun :=
| DActive (r : DurableRunRecord)
| DTerminated (t : DurableTermination).

Record DurableMember := mkDMember { dm_run_id : RunId; dm_terminated : option DurableTermination }.

(** [Submission], and the run as an owner of [Submission::owner]. *)
Record Submission := mkSubmission {
  sub_id : SubmissionId;
  sub_input_hash : bytes;
  sub_submitted_at_ms : Z;
}.
Definition submission_of (r : DurableRunRecord) : Submission :=
  mkSubmission (drr_submission_id r) (drr_input_hash r) (drr_submitted_at_ms r).
Definition submission_owner (s : Submission) (r : RunId) : OwnerRef := mkOwnerRef r (sub_id s).

(** ** Encoding *)

(** [durable::encode]. *)
Definition durable_encode {A} `{!Serde A} (a : A) : bytes := ser a.
(** [durable::decode] and [durable::decode_or_absent]. *)
Definition durable_decode {A} `{!Serde A} (b : bytes) : WfResult A :=
  match de b with Some (a, _) => Ok a | None => Err (WfDeserialization "malformed MessagePack") end.
Definition decode_or_absent {A} `{!Serde A} (b : bytes) : option A :=
  match de b with Some (a, _) => Some a | None => None end.

Lemma durable_decode_encode {A} `{!Serde A} (a : A) : durable_decode (durable_encode a) = Ok a.
Proof. unfold durable_decode, durable_encode. by rewrite <- (app_nil_r (ser a)), de_ser. Qed.
Lemma decode_or_absent_encode {A} `{!Serde A} (a : A) : decode_or_absent (durable_encode a) = Some a.
Proof. unfold decode_or_absent, durable_encode. by rewrite <- (app_nil_r (ser a)), de_ser. Qed.

(** Each stored form reads back as what was stored. *)
Lemma public_durable_origin o : public_origin (durable_origin o) = o.
Proof. by destruct o. Qed.
Lemma public_durable_status s : public_status (durable_status s) = s.
Proof. by destruct s. Qed.
Lemma public_durable_kind k : public_kind (durable_kind k) = k.
Proof. by destruct k. Qed.
Lemma public_durable_step_ref s : public_step_ref (durable_step_ref s) = s.
Proof. by destruct s. Qed.
Lemma public_durable_duration d : public_duration (durable_duration d) = d.
Proof. unfold public_duration. cbn. pose proof (Z.div_mod d 1000000000). lia. Qed.
Lemma public_durable_trigger t : public_trigger (durable_trigger t) = t.
Proof. destruct t; cbn; by rewrite ?public_durable_duration. Qed.
Lemma public_durable_outcome o : public_outcome (durable_outcome o) = o.
Proof. destruct o; cbn; by rewrite ?public_durable_trigger. Qed.

(** The parts of a stored duration fit their fields. *)
Lemma durable_duration_fits d :
  (0 <= d <= duration_max)%Z → is_u64 (secs (durable_duration d)) ∧
  (0 <= nanos (durable_duration d) < 1000000000)%Z.
Proof.
  intros [H0 H1]. unfold is_u64, duration_max, u64_max, u64_mod in *. cbn.
  pose proof (Z.div_mod d 1000000000). pose proof (Z.mod_pos_bound d 1000000000).
  split; [|lia]. split; [apply Z.div_pos; lia|]. apply Z.div_lt_upper_bound; lia.
Qed.
