(* ===== verification/StepEffects.v ===== *)
(** * Effects staged by a step (taquba-workflow/src/effects.rs)

    The handle of a step and the handle of a terminal hook: what they accept, what
    they reject, and what a settlement takes over from them. The mutex of a handle
    makes each operation one transition of its state. *)
From S2P Require Import Prelude Bytes Error Monad Keys Job Store Stats LeaseRegistry.
From S2P Require Import TimeBound ClaimCursor Completion Txn Core QueueCore.
From S2P Require Import Control Effects InboxEntry InboxListing View RunError.
From S2P Require Import RunKeys RunRecords.

Record StagedEffects := mkStaged {
  staged_writes : gmap bytes bytes;
  staged_deletes : gset bytes;
  staged_enqueues : list EnqueueRequest;
}.

Definition staged_default : StagedEffects := mkStaged ∅ ∅ [].

Record EffectsState := mkEffectsState {
  staged : StagedEffects;
  sealed : bool;
  runtime_queue : option string;
}.

(** [EffectsState::default] and [EffectsState::for_delivery]. *)
Definition effects_state_detached : EffectsState := mkEffectsState staged_default false None.
Definition effects_state_for (queue : string) : EffectsState :=
  mkEffectsState staged_default false (Some queue).

Definition set_staged (s : StagedEffects) (e : EffectsState) : EffectsState :=
  mkEffectsState s (sealed e) (runtime_queue e).

Definition check_sealed (e : EffectsState) : WfResult () := if sealed e then Err EffectsSealed else Ok ().
Definition check_key (key : bytes) (e : EffectsState) : WfResult () :=
  _ ← check_sealed e; check_kv_key key.

Definition stage_write (key value : bytes) (e : EffectsState) : WfResult EffectsState :=
  if decide (MAX_KV_VALUE_SIZE < length value)
  then Err (WfQueue (KvValueTooLarge (length value) MAX_KV_VALUE_SIZE))
  else if decide (key ∈ staged_deletes (staged e)) then Err (WfConflictingKvEffect key)
  else Ok (set_staged (mkStaged (<[key := value]> (staged_writes (staged e)))
    (staged_deletes (staged e)) (staged_enqueues (staged e))) e).

Definition stage_delete (key : bytes) (e : EffectsState) : WfResult EffectsState :=
  if decide (is_Some (staged_writes (staged e) !! key)) then Err (WfConflictingKvEffect key)
  else Ok (set_staged (mkStaged (staged_writes (staged e))
    ({[key]} ∪ staged_deletes (staged e)) (staged_enqueues (staged e))) e).

(** [EffectsState::put], [put_run_kv], [delete], [delete_run_kv] and [enqueue]. *)
Definition effects_put (key value : bytes) (e : EffectsState) : WfResult EffectsState :=
  _ ← check_key key e; stage_write key value e.
Definition effects_put_run_kv (key value : bytes) (e : EffectsState) : WfResult EffectsState :=
  _ ← check_sealed e; stage_write key value e.
Definition effects_delete (key : bytes) (e : EffectsState) : WfResult EffectsState :=
  _ ← check_key key e; stage_delete key e.
Definition effects_delete_run_kv (key : bytes) (e : EffectsState) : WfResult EffectsState :=
  _ ← check_sealed e; stage_delete key e.
Definition effects_enqueue (request : EnqueueRequest) (e : EffectsState) : WfResult EffectsState :=
  if sealed e then Err EffectsSealed
  else
    _ ← check_enqueue request (runtime_queue e);
    Ok (set_staged (mkStaged (staged_writes (staged e)) (staged_deletes (staged e))
      (staged_enqueues (staged e) ++ [request])) e).

(** [EffectsState::seal_and_take]. *)
Definition seal_and_take (e : EffectsState) : StagedEffects * EffectsState :=
  (staged e, mkEffectsState staged_default true (runtime_queue e)).

(** [StagedEffects::add_to]. The elements of the set come in no specified order. *)
Definition add_to (s : StagedEffects) (e : SettlementEffects) : SettlementEffects :=
  mkEffects (kv_compares e) (claim_fence e) (enqueues e ++ staged_enqueues s)
    (staged_writes s ∪ kv_writes e) (kv_deletes e ++ elements (staged_deletes s))
    (expiry_entries e) (count_changes e).

(** ** Handles

    The operations of an [EffectsHandle] of the run [r], and of a [TerminalEffects],
    which has no run key space. *)
Inductive StageOp :=
| OpPut (key value : bytes)
| OpDelete (key : bytes)
| OpEnqueue (request : EnqueueRequest).
Inductive HandleOp :=
| OpStage (op : StageOp)
| OpPutRunKv (key value : bytes)
| OpDeleteRunKv (key : bytes).

Definition terminal_op (op : StageOp) (e : EffectsState) : WfResult EffectsState :=
  match op with
  | OpPut k v => effects_put k v e
  | OpDelete k => effects_delete k e
  | OpEnqueue r => effects_enqueue r e
  end.
Definition handle_op (r : RunId) (op : HandleOp) (e : EffectsState) : WfResult EffectsState :=
  match op with
  | OpStage op => terminal_op op e
  | OpPutRunKv k v => effects_put_run_kv (run_kv_entry_key r k) v e
  | OpDeleteRunKv k => effects_delete_run_kv (run_kv_entry_key r k) e
  end.

(** A rejected operation leaves the state. *)
Definition applied {A} (f : A → EffectsState → WfResult EffectsState) (e : EffectsState) (op : A) : EffectsState :=
  match f op e with Ok e => e | Err _ => e end.

(** What a step of the run [r] stages on the runtime of [queue] before it returns, and
    [TerminalEffects::seal_into_settlement] after a hook. *)
Definition staged_by (queue : string) (r : RunId) (ops : list HandleOp) : EffectsState :=
  foldl (applied (handle_op r)) (effects_state_for queue) ops.
Definition seal_into_settlement (queue : string) (ops : list StageOp) : SettlementEffects :=
  add_to (seal_and_take (foldl (applied terminal_op) (effects_state_for queue) ops)).1 effects_default.

(** ** The record of a step outcome (durable.rs) *)

Record DurableStepOutcomeRecord := mkOutcomeRecord {
  stored_at_ms : Z;
  record_outcome : DurableStepOutcome;
  record_effects : StagedEffects;
}.

(** The stored form of an enqueue and of the effects. *)
Definition stored_request (r : EnqueueRequest) : EnqueueRequest :=
  mkRequest (req_queue r) (req_payload r) (stored_options (req_options r)).
Definition stored_effects (s : StagedEffects) : StagedEffects :=
  mkStaged (staged_writes s) (staged_deletes s) (map stored_request (staged_enqueues s)).

(** ** Facts *)

(** A key that a step of the run [r] can stage: one of the caller's, or an entry of
    the run. *)
Definition caller_key (r : RunId) (k : bytes) : Prop :=
  check_kv_key k = Ok () ∨ ∃ s, k = run_kv_entry_key r s.

(** Whatever was accepted so far fits one settlement. *)
Record staged_ok (queue : option string) (r : RunId) (s : StagedEffects) : Prop := {
  staged_disjoint k : k ∈ staged_deletes s → staged_writes s !! k = None;
  staged_write_keys k v : staged_writes s !! k = Some v →
    caller_key r k ∧ length v <= MAX_KV_VALUE_SIZE;
  staged_delete_keys k : k ∈ staged_deletes s → caller_key r k;
  staged_requests q : q ∈ staged_enqueues s → check_enqueue q queue = Ok ();
}.

Lemma stage_write_inv k v e e' :
  stage_write k v e = Ok e' → length v <= MAX_KV_VALUE_SIZE ∧ k ∉ staged_deletes (staged e) ∧
  e' = set_staged (mkStaged (<[k := v]> (staged_writes (staged e)))
    (staged_deletes (staged e)) (staged_enqueues (staged e))) e.
Proof. unfold stage_write. repeat case_decide; intros [= <-]. split_and!; [lia|done..]. Qed.

Lemma stage_delete_inv k e e' :
  stage_delete k e = Ok e' → staged_writes (staged e) !! k = None ∧
  e' = set_staged (mkStaged (staged_writes (staged e))
    ({[k]} ∪ staged_deletes (staged e)) (staged_enqueues (staged e))) e.
Proof.
  unfold stage_delete. case_decide as H; intros [= <-]. split; [|done].
  destruct (staged_writes (staged e) !! k); [|done]. by destruct H.
Qed.

Section ok.
  Context (r : RunId).

Abbreviation ok e := (staged_ok (runtime_queue e) r (staged e)).

Lemma stage_write_ok k v e e' : caller_key r k → ok e → stage_write k v e = Ok e' → ok e'.
Proof.
  intros Hk [H1 H2 H3 H4] (Hv & Hd & ->)%stage_write_inv. split; cbn.
  - intros k' Hk'. rewrite lookup_insert_ne; [by apply H1|]. by intros ->.
  - intros k' v' [[<- <-]|[? ?]]%lookup_insert_Some; [done|by apply H2].
  - exact H3.
  - exact H4.
Qed.

Lemma stage_delete_ok k e e' : caller_key r k → ok e → stage_delete k e = Ok e' → ok e'.
Proof.
  intros Hk [H1 H2 H3 H4] (Hw & ->)%stage_delete_inv. split; cbn.
  - intros k' [->%elem_of_singleton|Hk']%elem_of_union; [done|by apply H1].
  - exact H2.
  - intros k' [->%elem_of_singleton|Hk']%elem_of_union; [done|by apply H3].
  - exact H4.
Qed.

Lemma handle_op_ok op e e' : ok e → handle_op r op e = Ok e' → ok e'.
Proof.
  assert (Hsealed : ∀ u, check_sealed e = Ok u → sealed e = false)
    by (intros u; unfold check_sealed; by destruct (sealed e)).
  intros He. destruct op as [[k v|k|q]|k v|k]; cbn [handle_op terminal_op].
  - intros (u & Hu & H)%bind_Ok. apply bind_Ok in Hu as (u' & _ & Hu).
    apply (stage_write_ok k v e); [left; by destruct u|done..].
  - intros (u & Hu & H)%bind_Ok. apply bind_Ok in Hu as (u' & _ & Hu).
    apply (stage_delete_ok k e); [left; by destruct u|done..].
  - unfold effects_enqueue. destruct (sealed e); [done|]. intros ([] & Hq & [= <-])%bind_Ok.
    destruct He as [H1 H2 H3 H4]. split; cbn; [done..|].
    intros q' [Hin| ->%list_elem_of_singleton]%elem_of_app; [by apply H4|done].
  - intros (u & _ & H)%bind_Ok. eapply stage_write_ok; [right; by eexists|done..].
  - intros (u & _ & H)%bind_Ok. eapply stage_delete_ok; [right; by eexists|done..].
Qed.

Lemma handle_op_queue op e e' : handle_op r op e = Ok e' → runtime_queue e' = runtime_queue e.
Proof.
  destruct op as [[k v|k|q]|k v|k]; cbn [handle_op terminal_op];
    [intros (u & _ & H)%bind_Ok| intros (u & _ & H)%bind_Ok|unfold effects_enqueue
    |intros (u & _ & H)%bind_Ok|intros (u & _ & H)%bind_Ok].
  1,4: by apply stage_write_inv in H as (_ & _ & ->).
  1,3: by apply stage_delete_inv in H as (_ & ->).
  destruct (sealed e); [done|]. by intros (u & _ & [= <-])%bind_Ok.
Qed.

Lemma applied_ok op e : ok e → ok (applied (handle_op r) e op).
Proof. intros He. unfold applied. destruct (handle_op r op e) eqn:E; [by eapply handle_op_ok|done]. Qed.

Lemma applied_queue op e : runtime_queue (applied (handle_op r) e op) = runtime_queue e.
Proof. unfold applied. destruct (handle_op r op e) eqn:E; [by eapply handle_op_queue|done]. Qed.

(** Whatever a step stages, in any order and with any operation rejected on the way,
    fits one settlement. *)
Lemma staged_by_ok queue ops : staged_ok (Some queue) r (staged (staged_by queue r ops)).
Proof.
  assert (H : ∀ e, ok e → runtime_queue e = Some queue →
    staged_ok (Some queue) r (staged (foldl (applied (handle_op r)) e ops))).
  { induction ops as [|op ops IH]; cbn; intros e He Hq; [by rewrite <- Hq|].
    apply IH; [by apply applied_ok|by rewrite applied_queue]. }
  apply H; [|done]. split; cbn; set_solver.
Qed.

(** A sealed handle rejects every operation. *)
Lemma sealed_rejects op e : handle_op r op (seal_and_take e).2 = Err EffectsSealed.
Proof. by destruct op as [[]| |]. Qed.

End ok.

(** The hook's operations are those of a step that leave out the run key space. *)
Lemma terminal_staged_ok queue r ops :
  staged_ok (Some queue) r (seal_and_take (foldl (applied terminal_op) (effects_state_for queue) ops)).1.
Proof.
  cbn. pose proof (staged_by_ok r queue (map OpStage ops)) as H. unfold staged_by in H.
  rewrite foldl_fmap in H. exact H.
Qed.
