(* ===== verification/Runs.v ===== *)
(** * Steps of runs and their transitions (taquba-workflow/src/worker.rs,
    taquba-workflow/src/group.rs, taquba-workflow/src/owner.rs,
    taquba-workflow/src/runtime/enqueue.rs, taquba-workflow/src/runtime/terminate.rs,
    taquba-workflow/src/sweep.rs)

    How a step job names its run, the job of the next step, and the effects that
    advance a run and that terminate it. *)
From S2P Require Import Prelude Bytes Error Monad Keys Job Store Stats LeaseRegistry.
From S2P Require Import TimeBound ClaimCursor Completion Txn Core QueueCore.
From S2P Require Import Control Effects InboxEntry View RunError RunKeys.
From S2P Require Import RunRecords StepEffects.

(** ** The runtime *)

(** [Sweep] of taquba-workflow/src/sweep.rs, without the store it clears. *)
Record Sweep := mkSweep { sweep_index : ExpiryIndex; sweep_retention : Duration }.

(** The settings of [RuntimeCore]. The terminal hook is code of the user, which stages
    from the outcome alone; [memo_prefix] is the prefix of the memo store. *)
Class Runtime := {
  queue_name : string;
  memo_sweep : option Sweep;
  group_sweep : option Sweep;
  (** The prefixes the builder gives the indexes of the two sweeps. *)
  memo_sweep_prefix s : memo_sweep = Some s → index_prefix (sweep_index s) = TERMINAL_KV_PREFIX;
  group_sweep_prefix s : group_sweep = Some s → index_prefix (sweep_index s) = GROUP_TERMINAL_KV_PREFIX;
  step_output_replay : bool;
  terminal_hook : option (TerminatedRun → list StageOp);
  memo_prefix : string;
  queue_error_text : Error → string;
  object_error_text : ObjectStoreError → string;
  duration_debug : Duration → string;
  lossy_text : bytes → string;
}.

(** The text of an error of the runtime, from the texts of the libraries. *)
Definition wf_error_text {RT : Runtime} : WfError → string :=
  wf_text queue_error_text object_error_text duration_debug lossy_text.

(** ** Membership in a group (group.rs) *)

Record Membership := mkMembership { member_group_id : RunId; member_key : string }.

Definition membership_from_headers (headers : gmap string string) : WfResult (option Membership) :=
  match headers !! HEADER_GROUP, headers !! HEADER_GROUP_KEY with
  | Some group_id, Some key =>
      group_id ← RunId_new group_id;
      Ok (Some (mkMembership group_id key))
  | _, _ => Ok None
  end.
Definition membership_headers (m : Membership) : list (string * string) :=
  [(HEADER_GROUP, rid_str (member_group_id m)); (HEADER_GROUP_KEY, member_key m)].
Definition membership_kv_key (m : Membership) : bytes :=
  group_member_kv_key (member_group_id m) (member_key m).
Definition membership_count_name (m : Membership) : string := group_count_name (member_group_id m).

Definition pending_member (r : RunId) : DurableMember := mkDMember r None.
Definition terminated_member (r : RunId) (t : DurableTermination) : DurableMember := mkDMember r (Some t).

(** ** Claimed steps (worker.rs) *)

Record ClaimedStep := mkClaimedStep {
  cs_run_id : RunId;
  cs_step_number : Z;
  cs_membership : option Membership;
  cs_owner : option OwnerRef;
  cs_headers : gmap string string;
  cs_job : JobRecord;
}.

(** How a run ends at a step. *)
Record Ending := mkEnding {
  end_status : TerminalStatus;
  end_error : option string;
  end_cancelled_by : option CancelOrigin;
  end_error_kind : option StepErrorKind;
}.
Definition ending_succeeded : Ending := mkEnding Succeeded None None None.
Definition ending_failed (error : string) (kind : option StepErrorKind) : Ending :=
  mkEnding Failed (Some error) None kind.
Definition ending_cancelled (origin : CancelOrigin) (reason : option string) : Ending :=
  mkEnding Cancelled reason (Some origin) None.

(** ** Step jobs (runtime/enqueue.rs) *)

Inductive StepWait := WaitSignal | WaitCount (name : string).

Record StepEnqueueOpts := mkStepOpts {
  so_run_at : option Z;
  so_priority : option Z;
  so_max_attempts : option Z;
  so_wait : option StepWait;
  so_reserved_headers : list (string * string);
}.

(** [OwnedQueues] of owner.rs. *)
Record OwnedQueues := mkOwnedQueues { oq_owner : OwnerRef; oq_queues : list string }.

Section runs.
  Context {EN : Env} {SH : Sha256} {UT : UlidText} {RT : Runtime}.
  Context {SD : Serde DurableRun} {SP : Serde DurableStepRef} {SM : Serde DurableMember}.

(** [ClaimedStep::parse]. *)
Definition claimed_step_parse (job : JobRecord) : WfResult ClaimedStep :=
  match headers job !! HEADER_RUN_ID with
  | None => Err (MissingHeader HEADER_RUN_ID)
  | Some run_id =>
      run_id ← RunId_new run_id;
      match headers job !! HEADER_STEP with
      | None => Err (MissingHeader HEADER_STEP)
      | Some step =>
          match parse_u32 step with
          | None => Err (InvalidStepHeader HEADER_STEP step)
          | Some step_number =>
              membership ← membership_from_headers (headers job);
              owner ← match headers job !! HEADER_OWNER with
                | Some value => Some <$> owner_from_header value
                | None => Ok None
                end;
              Ok (mkClaimedStep run_id step_number membership owner (submitter_headers (headers job)) job)
          end
      end
  end.

(** [ClaimedStep::reserved_headers_with_none] and [ClaimedStep::next_step_opts]. *)
Definition claimed_reserved_headers (c : ClaimedStep) : list (string * string) :=
  default [] (membership_headers <$> cs_membership c) ++
  match cs_owner c with Some o => [(HEADER_OWNER, header_value o)] | None => [] end.
Definition next_step_opts (c : ClaimedStep) : StepEnqueueOpts :=
  mkStepOpts None (Some (priority (cs_job c))) (Some (max_attempts (cs_job c))) None
    (claimed_reserved_headers c).

Definition set_wait (run_at : option Z) (wait : option StepWait) (o : StepEnqueueOpts) : StepEnqueueOpts :=
  mkStepOpts run_at (so_priority o) (so_max_attempts o) wait (so_reserved_headers o).

Definition current_step_bytes (step_number : Z) (job_id : string) : bytes :=
  durable_encode (mkDStepRef step_number job_id).

Definition step_dedup_key (r : RunId) (step_number : Z) : string :=
  DEDUP_PREFIX +:+ rid_str r +:+ ":" +:+ dec_text step_number.

(** [RuntimeCore::step_enqueue_request]. *)
Definition step_request_headers (r : RunId) (step_number : Z) (user_headers : gmap string string)
    (reserved : list (string * string)) : gmap string string :=
  foldl (λ h '(k, v), <[k := v]> h)
    (<[HEADER_STEP := dec_text step_number]> (<[HEADER_RUN_ID := rid_str r]> user_headers)) reserved.
Definition step_enqueue_request (job_id : string) (r : RunId) (step_number : Z) (payload : bytes)
    (user_headers : gmap string string) (opts : StepEnqueueOpts) : EnqueueRequest :=
  mkRequest queue_name payload
    (mkOptions (so_max_attempts opts) (so_priority opts) (so_run_at opts)
      (Some (step_dedup_key r step_number))
      (step_request_headers r step_number user_headers (so_reserved_headers opts))
      (Some job_id)
      (match so_wait opts with Some WaitSignal => true | _ => false end)
      (match so_wait opts with Some (WaitCount name) => Some name | _ => None end)).

(** [RuntimeCore::run_at_after] at [now]: a [SystemTime] has 64-bit seconds, and an
    addition past them panics. *)
Definition run_at_after (now : Z) (delay : Duration) : option Z :=
  if decide ((now * 1000000 + delay) / 1000000000 <= 9223372036854775807)%Z
  then Some (now + as_millis delay)%Z else None.

(** [RuntimeCore::advance]. *)
Definition advance_run (claimed : ClaimedStep) (payload : bytes) (opts : StepEnqueueOpts) : SettlementEffects :=
  let r := cs_run_id claimed in
  let next_step := wrap32 (cs_step_number claimed + 1) in
  let next_job_id := next_step_job_id (id (cs_job claimed)) in
  let request := step_enqueue_request next_job_id r next_step payload (cs_headers claimed) opts in
  mkEffects [] None [request] {[step_kv_key r := current_step_bytes next_step next_job_id]} [] [] ∅.

(** ** Terminations (runtime/terminate.rs) *)

(** [RuntimeCore::termination] at [now]. *)
Definition termination_at (now : Z) (claimed : ClaimedStep) (ending : Ending)
    (result : option DurableResult) (submission : Submission) : DurableTermination :=
  mkDTermination (durable_status (end_status ending)) (end_error ending)
    (durable_origin <$> end_cancelled_by ending) (durable_kind <$> end_error_kind ending)
    (mkDStepRef (cs_step_number claimed) (id (cs_job claimed))) now (sub_input_hash submission)
    (sub_submitted_at_ms submission) (cs_headers claimed) result.

(** [Sweep::mark]. *)
Definition sweep_mark (s : Sweep) (effects : SettlementEffects) (r : RunId) (at_ms : Z) : SettlementEffects :=
  eff_expiry_entry (sweep_index s) at_ms (rid_bytes r) effects.

(** [RuntimeCore::owner_termination_effects]. *)
Definition owner_cancel_request (owned : OwnedQueues) (q : string) : EnqueueRequest :=
  mkRequest q [] (mkOptions None None None (Some (cancel_dedup_key (oq_owner owned)))
    {[HEADER_OWNED := header_value (oq_owner owned)]} None false None).
Definition owner_termination_effects (effects : SettlementEffects) (owned : OwnedQueues) : SettlementEffects :=
  foldl (λ e q, eff_enqueue (owner_cancel_request owned q) e) effects (oq_queues owned).

(** What the hook stages for the termination [t] of the run [r]. *)
Definition hook_effects (r : RunId) (t : DurableTermination) (result : option bytes) : SettlementEffects :=
  seal_into_settlement queue_name
    (match terminal_hook with
     | Some hook => hook (mkTerminatedRun r (public_termination t) result (dt_headers t))
     | None => []
     end).

(** [RuntimeCore::termination_effects] at [now]. *)
Definition termination_effects_at (now : Z) (step : ClaimedStep) (ending : Ending)
    (result : option (DurableResult * bytes)) (submission : Submission) (owned : OwnedQueues)
    : SettlementEffects :=
  let termination := termination_at now step ending (fst <$> result) submission in
  let r := cs_run_id step in
  let effects := hook_effects r termination (snd <$> result) in
  let effects := eff_kv_delete (step_kv_key r) effects in
  let effects := eff_kv_put (run_kv_key r) (durable_encode (DTerminated termination)) effects in
  let effects := match cs_membership step with
    | Some m => eff_count_down (membership_count_name m)
        (eff_kv_put (membership_kv_key m) (durable_encode (terminated_member r termination)) effects)
    | None => effects
    end in
  let effects := match cs_owner step with
    | Some o => eff_kv_delete (owned_run_kv_key o queue_name r) effects
    | None => effects
    end in
  let effects := owner_termination_effects effects owned in
  match memo_sweep with
  | Some sweep => sweep_mark sweep effects r now
  | None => effects
  end.

End runs.
