(* ===== verification/RunCalls.v ===== *)
(** * The calls of the runtime (taquba-workflow/src/runtime/enqueue.rs,
    taquba-workflow/src/runtime/cancel.rs, taquba-workflow/src/view.rs,
    taquba-workflow/src/owner.rs)

    The submission of a run, its cancellation and the reads of its records. Every
    read and every call of the queue is a point where other tasks run. *)
From S2P Require Import Prelude Bytes Error Monad Keys Job Store Stats LeaseRegistry.
From S2P Require Import TimeBound ClaimCursor Completion Txn Core QueueCore.
From S2P Require Import Control Effects Claim Settle Enqueue InboxEntry Queue.
From S2P Require Import View RunError RunKeys RunRecords StepEffects Runs.

(** The step of an [Owner]: the fence of its claim and the seal, as the guard of a
    submission reads it. The guard is kept until the submission has committed. *)
Record OwnerStep := mkOwnerStep { os_fence : ClaimFence; os_sealed : bool }.
(** [Owner]; [own_same_queue] is the comparison of its queue with the runtime's. *)
Record RunOwner := mkOwner { own_run : OwnerRef; own_same_queue : bool; own_step : option OwnerStep }.

Record RunOptions := mkRunOptions {
  ro_headers : gmap string string;
  ro_priority : option Z;
  ro_max_attempts_per_step : option Z;
  ro_run_at : option Z;
  ro_owner : option RunOwner;
}.
Record RunSpec := mkRunSpec {
  rs_run_id : option RunId;
  rs_input : bytes;
  rs_options : RunOptions;
  rs_effects : SettlementEffects;
}.
Record SubmitOutcome := mkSubmitOutcome {
  sm_run_id : RunId;
  newly_submitted : bool;
  sm_job_id : string;
}.
Inductive CancelRunOutcome := RunRemoved | RunRequested | RunNotActive.

Section calls.
  Context {DB : SlateDb} {RD : SlateReads} {OS : ObjectStore} {SR : Serde JobRecord} {SA : Serde JobAttempt}.
  Context {SC : Serde CountRecord} {EN : Env} {SH : Sha256} {UT : UlidText} {RT : Runtime}.
  Context {SD : Serde DurableRun} {SP : Serde DurableStepRef} {SM : Serde DurableMember}.
  Context {SQ : Serde (list string)}.

Abbreviation Wf := (EIO WfError World).

(** ** Reads *)

(** A query of the view of the writer. *)
Definition wf_view {A} (f : Handle → Result A) : Wf A :=
  lift_q (yield ≫= λ _, d ← get db; io_result (f (Writer d))).

(** [durable::kv_record]. *)
Definition kv_record {A} `{!Serde A} (key : bytes) : Wf (option A) :=
  b ← wf_view (λ h, kv_get h key);
  match b with
  | Some b => a ← eio_result (durable_decode b); mret (Some a)
  | None => mret None
  end.

(** [WorkflowView::run_entry], [run_record], [terminal_record] and
    [current_step_if_active]. *)
Definition run_entry (r : RunId) : Wf (option DurableRun) := kv_record (run_kv_key r).
Definition run_record (r : RunId) : Wf (option DurableRunRecord) :=
  e ← run_entry r;
  mret (match e with Some (DActive record) => Some record | _ => None end).
Definition terminal_record (r : RunId) : Wf (option DurableTermination) :=
  e ← run_entry r;
  mret (match e with Some (DTerminated t) => Some t | _ => None end).
Definition current_step_if_active (r : RunId) : Wf (option DurableStepRef) := kv_record (step_kv_key r).

(** [RuntimeCore::current_step]. *)
Definition current_step (r : RunId) : Wf DurableStepRef :=
  c ← current_step_if_active r;
  match c with Some c => mret c | None => eio_err (InconsistentRunState r) end.

(** [WorkflowView::current_job]. Another turn of the loop follows a change of the
    pointer, which another task made. *)
Definition wf_unfinished {A} : Wf A := eio_err (WfQueue Unfinished).
Fixpoint current_job_loop (fuel : nat) (r : RunId) (absent : option string)
    : Wf (option (DurableStepRef * JobRecord)) :=
  match fuel with
  | O => wf_unfinished
  | S fuel =>
      current ← current_step_if_active r;
      match current with
      | None => mret None
      | Some current =>
          j ← wf_view (λ h, job_record h (dsr_job_id current));
          match j with
          | Some j => mret (Some (current, j))
          | None =>
              if decide (absent = Some (dsr_job_id current)) then eio_err (InconsistentRunState r)
              else current_job_loop fuel r (Some (dsr_job_id current))
          end
      end
  end.
Definition turns : Wf nat := lift_q (io_gets (λ w, length (others w))).
Definition current_job (r : RunId) : Wf (option (DurableStepRef * JobRecord)) :=
  n ← turns; current_job_loop (n + 3) r None.

(** ** Owners (owner.rs) *)

(** [read_owned_queues] and [owned_queues]. *)
Definition read_owned_queues (owner : OwnerRef) : Wf (list string * KvCompare) :=
  let key := owner_queues_kv_key owner in
  b ← wf_view (λ h, kv_get h key);
  match b with
  | Some stored => qs ← eio_result (durable_decode stored); mret (qs, mkCompare key (Some stored))
  | None => mret ([], mkCompare key None)
  end.
Definition owned_queues (owner : OwnerRef) : Wf OwnedQueues :=
  '(qs, _) ← read_owned_queues owner; mret (mkOwnedQueues owner qs).

(** [open_owned_submission] and [owned_submission_effects]. *)
Definition open_owned_submission (owner : RunOwner) : WfResult () :=
  let r := owner_run_id (own_run owner) in
  if negb (own_same_queue owner) then Err (OwnerOfAnotherQueue r)
  else match own_step owner with
    | None => Err (OwnerStepEnded r)
    | Some step => if os_sealed step then Err (OwnerStepEnded r) else Ok ()
    end.
Definition set_claim_fence (f : ClaimFence) (e : SettlementEffects) : SettlementEffects :=
  mkEffects (kv_compares e) (Some f) (enqueues e) (kv_writes e) (kv_deletes e) (expiry_entries e)
    (count_changes e).
Definition owned_submission_effects (effects : SettlementEffects) (owner : RunOwner) (r : RunId)
    : Wf SettlementEffects :=
  match own_step owner with
  | None => eio_err (OwnerStepEnded (owner_run_id (own_run owner)))
  | Some step =>
      let effects := eff_kv_put (owned_run_kv_key (own_run owner) queue_name r) []
        (set_claim_fence (os_fence step) effects) in
      '(queues, compare) ← read_owned_queues (own_run owner);
      mret (if decide (queue_name ∈ queues) then effects
        else eff_kv_put (compare_key compare) (durable_encode (queues ++ [queue_name]))
          (eff_kv_compare compare effects))
  end.

(** ** Submissions (runtime/enqueue.rs) *)

(** [RunId::generate]: an id is a ULID, which is a run id. *)
Definition generate : Wf RunId :=
  i ← lift_q next_job_id;
  match RunId_new i with Ok r => mret r | Err _ => eio_err (WfQueue Panicked) end.

(** [RuntimeCore::validate_spec]. *)
Definition validate_spec (spec : RunSpec) : Wf RunId :=
  _ ← eio_result (check_headers (ro_headers (rs_options spec)));
  _ ← eio_result (check_effects (rs_effects spec) queue_name);
  match rs_run_id spec with Some r => mret r | None => generate end.

Definition check_input (r : RunId) (existing input_hash : bytes) : WfResult () :=
  if decide (existing = input_hash) then Ok () else Err (InputMismatch r).

(** The record, the pointer and the membership that commit with step 0. *)
Definition submission_effects (r : RunId) (effects : SettlementEffects) (record : DurableRunRecord)
    (job_id : string) (membership : option Membership) : SettlementEffects :=
  let effects := eff_kv_put (step_kv_key r) (current_step_bytes 0 job_id)
    (eff_kv_put (run_kv_key r) (durable_encode (DActive record)) effects) in
  match membership with
  | Some m => eff_count_up (membership_count_name m)
      (eff_kv_put (membership_kv_key m) (durable_encode (pending_member r)) effects)
  | None => effects
  end.
Definition first_step_opts (options : RunOptions) (membership : option Membership) : StepEnqueueOpts :=
  mkStepOpts (ro_run_at options) (ro_priority options) (ro_max_attempts_per_step options) None
    (default [] (membership_headers <$> membership) ++
     match ro_owner options with Some o => [(HEADER_OWNER, header_value (own_run o))] | None => [] end).

(** [RuntimeCore::enqueue_run_once]. *)
Definition enqueue_run_once (r : RunId) (spec : RunSpec) (membership : option Membership)
    (cancel_request : option DurableCancelRequest) : Wf SubmitOutcome :=
  let input_hash := hash_input (rs_input spec) in
  entry ← run_entry r;
  match entry with
  | Some (DActive existing) =>
      _ ← eio_result (check_input r (drr_input_hash existing) input_hash);
      current ← current_step r;
      mret (mkSubmitOutcome r false (dsr_job_id current))
  | Some (DTerminated t) =>
      _ ← eio_result (check_input r (dt_input_hash t) input_hash);
      mret (mkSubmitOutcome r false (dsr_job_id (dt_final_step t)))
  | None =>
      job_id ← lift_q next_job_id;
      let request := step_enqueue_request job_id r 0 (rs_input spec) (ro_headers (rs_options spec))
        (first_step_opts (rs_options spec) membership) in
      submission_id ← (match submission_of_job job_id with
        | Some s => mret s
        | None => eio_err (WfQueue Panicked)
        end : Wf SubmissionId);
      now ← lift_q now_ms;
      let record := mkDRunRecord r submission_id now input_hash cancel_request in
      let effects := submission_effects r (rs_effects spec) record job_id membership in
      effects ← match ro_owner (rs_options spec) with
        | Some owner =>
            _ ← eio_result (open_owned_submission owner);
            owned_submission_effects effects owner r
        | None => mret effects
        end;
      enqueued ← eio_try (lift_q (yield ≫= λ _,
        enqueue_with_effects (req_queue request) (req_payload request) (req_options request) effects));
      match enqueued, ro_owner (rs_options spec) with
      | Err (WfQueue ClaimLost), Some owner => eio_err (OwnerStepEnded (owner_run_id (own_run owner)))
      | Err e, _ => eio_err e
      | Ok (New _, _), _ => mret (mkSubmitOutcome r true job_id)
      | Ok (AlreadyEnqueued existing, _), _ =>
          record ← run_record r;
          _ ← eio_result (match record with
            | Some record => check_input r (drr_input_hash record) input_hash
            | None => Ok ()
            end);
          mret (mkSubmitOutcome r false existing)
      end
  end.

(** [RuntimeCore::enqueue_run]: a failed compare follows a change by another task. *)
Fixpoint enqueue_run_loop (fuel : nat) (r : RunId) (spec : RunSpec) (membership : option Membership)
    (cancel_request : option DurableCancelRequest) : Wf SubmitOutcome :=
  match fuel with
  | O => wf_unfinished
  | S fuel =>
      attempt ← eio_try (enqueue_run_once r spec membership cancel_request);
      match attempt with
      | Err (WfQueue (KvCompareFailed _)) => enqueue_run_loop fuel r spec membership cancel_request
      | attempt => eio_result attempt
      end
  end.
Definition enqueue_run (r : RunId) (spec : RunSpec) (membership : option Membership)
    (cancel_request : option DurableCancelRequest) : Wf SubmitOutcome :=
  n ← turns; enqueue_run_loop (n + 1) r spec membership cancel_request.

(** [RuntimeCore::submit], [submit_member] and [submit_cancelled]. *)
Definition submit (spec : RunSpec) : Wf SubmitOutcome :=
  r ← validate_spec spec; enqueue_run r spec None None.
Definition submit_member (m : Membership) (spec : RunSpec) : Wf SubmitOutcome :=
  r ← validate_spec spec; enqueue_run r spec (Some m) None.
Definition submit_cancelled (spec : RunSpec) (reason : option string) : Wf SubmitOutcome :=
  r ← validate_spec spec;
  now ← lift_q now_ms;
  enqueue_run r spec None (Some (mkDCancelRequest reason (durable_origin Request) now)).

(** ** Terminations *)

Definition termination_effects (step : ClaimedStep) (ending : Ending)
    (result : option (DurableResult * bytes)) (submission : Submission) (owned : OwnedQueues)
    : Wf SettlementEffects :=
  now ← lift_q now_ms;
  mret (termination_effects_at now step ending result submission owned).

(** ** Cancellation (runtime/cancel.rs) *)

(** [RuntimeCore::request_cancel]. *)
Fixpoint request_cancel_loop (fuel : nat) (r : RunId) (reason : option string) (origin : CancelOrigin)
    : Wf (option (Submission * DurableCancelRequest)) :=
  match fuel with
  | O => wf_unfinished
  | S fuel =>
      let key := run_kv_key r in
      current ← wf_view (λ h, kv_get h key);
      match current with
      | None => mret None
      | Some current =>
          run ← eio_result (durable_decode current);
          match run with
          | DTerminated _ => mret None
          | DActive record =>
              match drr_cancel_request record with
              | Some request => mret (Some (submission_of record, request))
              | None =>
                  now ← lift_q now_ms;
                  let request := mkDCancelRequest reason (durable_origin origin) now in
                  let record := set_cancel_request (Some request) record in
                  put ← lift_q (yield ≫= λ _,
                    kv_compare_put key (Some current) (durable_encode (DActive record)));
                  if put : bool then mret (Some (submission_of record, request))
                  else request_cancel_loop fuel r reason origin
              end
          end
      end
  end.
Definition request_cancel (r : RunId) (reason : option string) (origin : CancelOrigin)
    : Wf (option (Submission * DurableCancelRequest)) :=
  n ← turns; request_cancel_loop (n + 1) r reason origin.

(** The loop of [RuntimeCore::cancel_run_with]. *)
Fixpoint cancel_step_loop (fuel : nat) (r : RunId) (submission : Submission)
    (request : DurableCancelRequest) : Wf CancelRunOutcome :=
  match fuel with
  | O => wf_unfinished
  | S fuel =>
      current ← current_job r;
      match current with
      | None => mret RunNotActive
      | Some (_, job) =>
          if decide (status job = Dead) then mret RunNotActive
          else
            claimed ← eio_result (claimed_step_parse job);
            owned ← owned_queues (submission_owner submission r);
            let ending := ending_cancelled (public_origin (dcr_origin request)) (dcr_reason request) in
            effects ← termination_effects claimed ending None submission owned;
            '(outcome, _) ← lift_q (yield ≫= λ _, cancel_with (id job) effects);
            match outcome with
            | CancelRemoved => mret RunRemoved
            | CancelRequestedOutcome => mret RunRequested
            | CancelNotFound => cancel_step_loop fuel r submission request
            end
      end
  end.
Definition cancel_run_with (r : RunId) (reason : option string) (origin : CancelOrigin)
    : Wf CancelRunOutcome :=
  requested ← request_cancel r reason origin;
  match requested with
  | None => mret RunNotActive
  | Some (submission, request) => n ← turns; cancel_step_loop (n + 1) r submission request
  end.
Definition cancel_run (r : RunId) (reason : option string) : Wf CancelRunOutcome :=
  cancel_run_with r reason Request.

End calls.

(** ** The memo store (taquba-workflow/src/memo.rs, taquba-workflow/src/blob.rs)

    The objects of a run: its memo entries, the stored outcomes of its steps and its
    results. A missing object reads as absent and deletes as already gone. *)

(** [object_store::path::Path::join] of a path and a segment. *)
Class PathJoin := { path_join : string → string → string }.

Inductive MemoScope := ScopeStep (step_number : Z) | ScopeRun.

(** [Memo]; its store is the one of the runtime. *)
Record Memo := mkMemo { memo_run_id : RunId; memo_scope : MemoScope }.

Definition memo_step_number (m : Memo) : option Z :=
  match memo_scope m with ScopeStep n => Some n | ScopeRun => None end.

Section memo.
  Context {DB : SlateDb} {OS : ObjectStore} {IS : EntryStore} {PJ : PathJoin}.
  Context {SH : Sha256} {RT : Runtime}.

Abbreviation Wf := (EIO WfError World).

(** ** Objects within a prefix (blob.rs) *)

(** [ObjectPrefix::path]. *)
Definition blob_path (suffix : string) : string := path_from (memo_prefix +:+ "/" +:+ suffix).

Definition on_blobs {A} (f : Objects → A * Objects) : Wf A := lift_q (yield ≫= λ _, on_objects f).

Definition blob_get (path : string) : Wf (option bytes) :=
  r ← on_blobs (λ o, (os_get path o, o));
  match r with
  | Ok b => mret (Some b)
  | Err NotFound => mret None
  | Err e => eio_err (WfStore e)
  end.
Definition blob_put (path : string) (value : bytes) : Wf () :=
  r ← on_blobs (os_put path value);
  match r with Ok _ => mret tt | Err e => eio_err (WfStore e) end.
Definition blob_delete (path : string) : Wf bool :=
  r ← on_blobs (os_delete path);
  match r with
  | Ok _ => mret true
  | Err NotFound => mret false
  | Err e => eio_err (WfStore e)
  end.
Definition blob_list (prefix : string) : Wf (list ObjectMeta) :=
  r ← on_blobs (λ o, (os_list prefix o, o));
  match r with Ok l => mret l | Err e => eio_err (WfStore e) end.

(** ** Paths *)

Definition memos_run_prefix (r : RunId) : string := blob_path ("memos/" +:+ rid_str r).
Definition step_outputs_run_prefix (r : RunId) : string := blob_path ("step-outputs/" +:+ rid_str r).
Definition results_run_prefix (r : RunId) : string := blob_path ("results/" +:+ rid_str r).

Definition scope_segment (s : MemoScope) : string :=
  match s with ScopeStep n => dec_text n | ScopeRun => "run" end.
Definition memo_path (r : RunId) (scope : MemoScope) (key : string) : string :=
  path_join (path_join (memos_run_prefix r) (scope_segment scope)) (hex_sha256 [as_bytes key]).
Definition result_path (r : RunId) (job_id : string) (attempt : Z) : string :=
  path_join (path_join (results_run_prefix r) job_id) (dec_text attempt).
Definition step_output_path (r : RunId) (step_number : Z) (step_payload : bytes) : string :=
  path_join (path_join (step_outputs_run_prefix r) (dec_text step_number)) (hex_sha256 [step_payload]).

(** ** The store *)

(** [MemoStore::clear_prefix]: the number of objects deleted. *)
Fixpoint clear_objects (objects : list ObjectMeta) (deleted : nat) : Wf nat :=
  match objects with
  | [] => mret deleted
  | m :: objects =>
      r ← eio_try (blob_delete (location m));
      clear_objects objects (match r with Ok true => S deleted | _ => deleted end)
  end.
Definition clear_prefix (prefix : string) : Wf nat :=
  l ← blob_list prefix; clear_objects l 0.
Definition clear_memos_for_run (r : RunId) : Wf nat :=
  memos ← clear_prefix (memos_run_prefix r);
  outputs ← clear_prefix (step_outputs_run_prefix r);
  results ← clear_prefix (results_run_prefix r);
  mret (memos + outputs + results).

Definition get_step_output (r : RunId) (step_number : Z) (step_payload : bytes) : Wf (option bytes) :=
  blob_get (step_output_path r step_number step_payload).
Definition put_step_output (r : RunId) (step_number : Z) (step_payload value : bytes) : Wf () :=
  blob_put (step_output_path r step_number step_payload) value.
Definition get_result (r : RunId) (job_id : string) (attempt : Z) : Wf (option bytes) :=
  blob_get (result_path r job_id attempt).
Definition put_result (r : RunId) (job_id : string) (attempt : Z) (result : bytes) : Wf () :=
  blob_put (result_path r job_id attempt) result.

(** ** Memos of a run *)

Definition memo_get (m : Memo) (key : string) : Wf (option bytes) :=
  blob_get (memo_path (memo_run_id m) (memo_scope m) key).
Definition memo_put (m : Memo) (key : string) (value : bytes) : Wf () :=
  blob_put (memo_path (memo_run_id m) (memo_scope m) key) value.

(** [Memo::memoized]; [compute] is the code of the step, with its own errors. *)
Definition memoized {R E} `{!Serde R} (of_error : WfError → E) (m : Memo) (key : string)
    (compute : EIO E World R) : EIO E World R :=
  stored ← map_err of_error (memo_get m key);
  match b ← stored; decode_or_absent b with
  | Some value => mret value
  | None =>
      value ← compute;
      _ ← map_err of_error (memo_put m key (ser value));
      mret value
  end.

(** [Memo::content_key], [memoized_by_content], [content_get] and [content_put]. *)
Definition content_key {K} `{!Serde K} (input : K) : string := "content:" +:+ hex_sha256 [ser input].
Definition memoized_by_content {K R E} `{!Serde K} `{!Serde R} (of_error : WfError → E) (m : Memo)
    (input : K) (compute : EIO E World R) : EIO E World R :=
  memoized of_error m (content_key input) compute.
Definition content_get {K} `{!Serde K} (m : Memo) (input : K) : Wf (option bytes) :=
  memo_get m (content_key input).
Definition content_put {K} `{!Serde K} (m : Memo) (input : K) (value : bytes) : Wf () :=
  memo_put m (content_key input) value.

End memo.
