(* ===== verification/Webhooks.v ===== *)
(** * Webhooks (taquba-webhooks/src/lib.rs, taquba-webhooks/src/worker.rs,
    taquba-workflow/src/terminal.rs)

    The delivery of HTTP requests as jobs: the job of a request, the request that the
    worker sends for a job, the settlement by the response, and the terminal hook that
    announces the end of a run. The HTTP client is a parameter. *)
From S2P Require Import Prelude Bytes Error Monad Keys Job Store Stats LeaseRegistry.
From S2P Require Import TimeBound ClaimCursor Completion Txn Core QueueCore.
From S2P Require Import Control Effects Claim Settle Enqueue InboxEntry InboxListing.
From S2P Require Import Queue View RunError RunKeys RunRecords StepEffects Runs.

Definition HEADER_URL : string := "webhook.url".
Definition HEADER_METHOD : string := "webhook.method".
Definition HEADER_TIMEOUT_MS : string := "webhook.timeout_ms".
Definition HTTP_HEADER_PREFIX : string := "http.".
Definition DEFAULT_TIMEOUT : Duration := from_secs 30.

(** ** Errors *)

Inductive WebhookError :=
| MissingUrl
| InvalidMethod (method : string)
| InvalidTimeout (timeout : string)
| Delivery (message : string)
| PermanentDelivery (message : string)
| WebhookQueue (e : Error).

(** [Error::is_permanent] and the text of an error. *)
Definition webhook_is_permanent (e : WebhookError) : bool :=
  match e with
  | MissingUrl | InvalidMethod _ | InvalidTimeout _ | PermanentDelivery _ => true
  | Delivery _ => false
  | WebhookQueue e => is_permanent e
  end.
Definition webhook_text (queue_text : Error → string) (e : WebhookError) : string :=
  match e with
  | MissingUrl => "missing webhook URL (header `" +:+ HEADER_URL +:+ "`)"
  | InvalidMethod m => "invalid HTTP method `" +:+ m +:+ "`"
  | InvalidTimeout t => "invalid `" +:+ HEADER_TIMEOUT_MS +:+ "` `" +:+ t +:+ "`: not a non-negative integer"
  | Delivery m => "delivery failed: " +:+ m
  | PermanentDelivery m => "permanent delivery failure: " +:+ m
  | WebhookQueue e => queue_text e
  end.

(** ** Requests *)

Record WebhookRequest := mkWebhookRequest {
  wr_url : string;
  wr_method : string;
  wr_headers : gmap string string;
  wr_timeout : option Duration;
}.

(** [WebhookRequest::new], [method], [header] and [timeout]. *)
Definition webhook_request_new (url : string) : WebhookRequest := mkWebhookRequest url "POST" ∅ None.
Definition with_method (m : string) (r : WebhookRequest) : WebhookRequest :=
  mkWebhookRequest (wr_url r) m (wr_headers r) (wr_timeout r).
Definition with_header (name value : string) (r : WebhookRequest) : WebhookRequest :=
  mkWebhookRequest (wr_url r) (wr_method r) (<[name := value]> (wr_headers r)) (wr_timeout r).
Definition with_timeout (t : Duration) (r : WebhookRequest) : WebhookRequest :=
  mkWebhookRequest (wr_url r) (wr_method r) (wr_headers r) (Some t).

(** The job headers of a request, and [webhook_enqueue_request]. The headers of the
    request are inserted over the reserved ones. *)
Definition webhook_job_headers (r : WebhookRequest) : gmap string string :=
  let h := <[HEADER_METHOD := wr_method r]> (<[HEADER_URL := wr_url r]> ∅) in
  let h := match wr_timeout r with
    | Some t => <[HEADER_TIMEOUT_MS := dec_text (as_millis t)]> h
    | None => h
    end in
  foldl (λ h (e : string * string), <[HTTP_HEADER_PREFIX +:+ e.1 := e.2]> h) h (map_to_list (wr_headers r)).
Definition webhook_enqueue_request (target_queue : string) (r : WebhookRequest) (body : bytes) : EnqueueRequest :=
  mkRequest target_queue body
    (mkOptions None None None None (webhook_job_headers r) None false None).

(** ** The worker *)

Record WebhookWorker := mkWebhookWorker {
  delivery_id_header : option string;
  default_timeout : Duration;
}.
(** [WebhookWorker::with_client], and its setters. *)
Definition webhook_worker_new : WebhookWorker := mkWebhookWorker (Some "Webhook-Id") DEFAULT_TIMEOUT.
Definition with_default_timeout (t : Duration) (w : WebhookWorker) : WebhookWorker :=
  mkWebhookWorker (delivery_id_header w) t.
Definition with_delivery_id_header (name : string) (w : WebhookWorker) : WebhookWorker :=
  mkWebhookWorker (Some name) (default_timeout w).
Definition without_delivery_id_header (w : WebhookWorker) : WebhookWorker :=
  mkWebhookWorker None (default_timeout w).

(** [effective_timeout]. *)
Definition effective_timeout (headers : gmap string string) (default : Duration) : result WebhookError Duration :=
  match headers !! HEADER_TIMEOUT_MS with
  | Some s => match parse_u64 s with Some ms => Ok (from_millis ms) | None => Err (InvalidTimeout s) end
  | None => Ok default
  end.

(** [reqwest], and the [StatusCode] of a response as its number. A [Client] sends while
    other tasks run. The text of a body can fail to be read. *)
Record HttpResponse := mkResponse { http_status : Z; http_text : option string }.
Class Reqwest := {
  Method : Type;
  method_from_str : string → option Method;
  status_text : Z → string;
  prefix_chars : nat → string → string;
}.

Record HttpRequest {RQ : Reqwest} := mkHttpRequest {
  http_method : Method;
  http_url : string;
  http_headers : list (string * string);
  http_timeout : Duration;
  http_body : bytes;
}.
#[global] Arguments mkHttpRequest {_} _ _ _ _ _.

Section webhooks.
  Context {RQ : Reqwest}.

(** The headers that [deliver] sends: those of the job with the prefix, and the id. *)
Definition delivery_headers (worker : WebhookWorker) (j : JobRecord) : list (string * string) :=
  (omap (λ e : string * string, (λ name, (name, e.2)) <$> str_strip_prefix HTTP_HEADER_PREFIX e.1)
     (map_to_list (headers j))
   ++ match delivery_id_header worker with Some name => [(name, id j)] | None => [] end)%list.

(** The request that [deliver] builds from a job. *)
Definition delivery_request (worker : WebhookWorker) (j : JobRecord) : result WebhookError HttpRequest :=
  match headers j !! HEADER_URL with
  | None | Some EmptyString => Err MissingUrl
  | Some url =>
      let method_str := default "POST" (headers j !! HEADER_METHOD) in
      match method_from_str method_str with
      | None => Err (InvalidMethod method_str)
      | Some method =>
          timeout ← effective_timeout (headers j) (default_timeout worker);
          Ok (mkHttpRequest method url (delivery_headers worker j) timeout (payload j))
      end
  end.

(** The result of [deliver] by the response. *)
Definition is_success (status : Z) : bool := (200 <=? status)%Z && (status <? 300)%Z.
Definition is_client_error (status : Z) : bool := (400 <=? status)%Z && (status <? 500)%Z.
Definition delivery_result (response : HttpResponse) : result WebhookError () :=
  let status := http_status response in
  if is_success status then Ok tt
  else
    let body_preview := default "" (prefix_chars 200 <$> http_text response) in
    let message := "HTTP " +:+ status_text status +:+ ": " +:+ body_preview in
    if is_client_error status && bool_decide (status ≠ 408%Z) && bool_decide (status ≠ 429%Z)
    then Err (PermanentDelivery message) else Err (Delivery message).

Section worker.
  Context {DB : SlateDb} {OS : ObjectStore} {SR : Serde JobRecord} {SA : Serde JobAttempt}.
  Context {SC : Serde CountRecord} {EN : Env}.
  Context (send : HttpRequest → World → result string HttpResponse * World) (error_text : Error → string).

(** [deliver]. *)
Definition deliver (worker : WebhookWorker) (claim : Claim) (w : World) : result WebhookError () * World :=
  match delivery_request worker (job claim) with
  | Err e => (Err e, w)
  | Ok request =>
      match ensure_at_least claim (http_timeout request) w with
      | (Err e, w) => (Err (Delivery ("lease extension failed: " +:+ error_text e)), w)
      | (Ok _, w) =>
          match send request w with
          | (Err e, w) => (Err (Delivery ("transport error: " +:+ e)), w)
          | (Ok response, w) => (delivery_result response, w)
          end
      end
  end.

(** [WebhookWorker::process], as what the worker loop settles. *)
Definition webhook_outcome (r : result WebhookError ()) : WorkerOutcome :=
  match r with
  | Ok _ => WorkerOk effects_default
  | Err e => WorkerFailed (webhook_is_permanent e) (webhook_text error_text e) effects_default
  end.
Definition deliver_webhook (worker : WebhookWorker) (claim : Claim) : Q () := λ w,
  let '(r, w) := deliver worker claim w in
  process_and_settle error_text claim (webhook_outcome r) w.

(** [enqueue_webhook]. *)
Definition enqueue_webhook (target_queue : string) (r : WebhookRequest) (body : bytes) : Q string :=
  let req := webhook_enqueue_request target_queue r body in
  enqueue_with (req_queue req) (req_payload req) (req_options req).
End worker.
End webhooks.

(** ** The terminal hook (terminal.rs) *)

Record WebhookTerminalHook := mkWebhookHook {
  hook_target_queue : string;
  hook_url_header : string;
  hook_timeout : option Duration;
}.
Definition webhook_hook_new (target_queue : string) : WebhookTerminalHook :=
  mkWebhookHook target_queue "callback_url" None.
Definition with_url_header (h : string) (hook : WebhookTerminalHook) : WebhookTerminalHook :=
  mkWebhookHook (hook_target_queue hook) h (hook_timeout hook).
Definition with_hook_timeout (t : Duration) (hook : WebhookTerminalHook) : WebhookTerminalHook :=
  mkWebhookHook (hook_target_queue hook) (hook_url_header hook) (Some t).

(** [stage_effects] and [check_runtime] of the hook. *)
Definition announcement (hook : WebhookTerminalHook) (url : string) (outcome : TerminatedRun) : WebhookRequest :=
  let t := tr_termination outcome in
  let req := with_header "Workflow-Run-Status" (status_str (rt_status t))
    (with_header "Workflow-Run-Id" (rid_str (tr_run_id outcome)) (webhook_request_new url)) in
  let req := match rt_cancelled_by t with
    | Some origin => with_header "Workflow-Run-Cancelled-By" (origin_str origin) req
    | None => req
    end in
  match hook_timeout hook with Some d => with_timeout d req | None => req end.
Definition announcement_body (outcome : TerminatedRun) : bytes :=
  match rt_status (tr_termination outcome) with
  | Succeeded => default [] (tr_result outcome)
  | Failed | Cancelled => as_bytes (default "" (rt_error (tr_termination outcome)))
  end.
Definition webhook_hook (hook : WebhookTerminalHook) (outcome : TerminatedRun) : list StageOp :=
  match tr_headers outcome !! hook_url_header hook with
  | None => []
  | Some url =>
      [OpEnqueue (webhook_enqueue_request (hook_target_queue hook)
        (announcement hook url outcome) (announcement_body outcome))]
  end.
Definition webhook_check_runtime (hook : WebhookTerminalHook) (runtime_queue : string) : WfResult () :=
  if decide (hook_target_queue hook = runtime_queue) then Err (ReservedQueue (hook_target_queue hook))
  else Ok tt.

(** ** Facts *)

Lemma http_prefix_inj a b : HTTP_HEADER_PREFIX +:+ a = HTTP_HEADER_PREFIX +:+ b → a = b.
Proof.
  intros H. assert (Some a = Some b) as [=->]; [|done].
  by rewrite <- (str_strip_prefix_app HTTP_HEADER_PREFIX a), H, str_strip_prefix_app.
Qed.

(** The job header [HTTP_HEADER_PREFIX +:+ n] is the header [n] of the request, and the
    other ones are the reserved ones. *)
Lemma foldl_http_headers (l : list (string * string)) (h : gmap string string) k :
  NoDup l.*1 →
  foldl (λ h (e : string * string), <[HTTP_HEADER_PREFIX +:+ e.1 := e.2]> h) h l !! k =
    match str_strip_prefix HTTP_HEADER_PREFIX k ≫= λ n, (list_to_map l : gmap string string) !! n with
    | Some v => Some v
    | None => h !! k
    end.
Proof.
  revert h. induction l as [|[n v] l IH]; intros h Hl.
  { cbn [foldl]. by destruct (str_strip_prefix HTTP_HEADER_PREFIX k). }
  cbn in Hl. apply NoDup_cons in Hl as [Hn Hl]. cbn [foldl]. rewrite IH by done. cbn [fst snd].
  rewrite list_to_map_cons.
  destruct (str_strip_prefix HTTP_HEADER_PREFIX k) as [m|] eqn:Hk; cbn.
  - apply str_strip_prefix_Some in Hk as ->.
    destruct (decide (n = m)) as [->|Hne].
    + rewrite lookup_insert_eq, (not_elem_of_list_to_map_1 l) by done. by rewrite lookup_insert_eq.
    + rewrite (lookup_insert_ne (list_to_map l)) by done. destruct (list_to_map l !! m); [done|].
      rewrite lookup_insert_ne; [done|]. by intros ?%http_prefix_inj.
  - rewrite lookup_insert_ne; [done|]. intros <-. by rewrite str_strip_prefix_app in Hk.
Qed.

Lemma webhook_job_headers_lookup r k :
  webhook_job_headers r !! k =
    match str_strip_prefix HTTP_HEADER_PREFIX k with
    | Some n => wr_headers r !! n
    | None =>
        if decide (k = HEADER_METHOD) then Some (wr_method r)
        else if decide (k = HEADER_URL) then Some (wr_url r)
        else if decide (k = HEADER_TIMEOUT_MS) then (λ t, dec_text (as_millis t)) <$> wr_timeout r
        else None
    end.
Proof.
  unfold webhook_job_headers. rewrite foldl_http_headers by apply NoDup_fst_map_to_list.
  rewrite list_to_map_to_list.
  assert (Hr : (match wr_timeout r with
      | Some t => <[HEADER_TIMEOUT_MS := dec_text (as_millis t)]>
          (<[HEADER_METHOD := wr_method r]> (<[HEADER_URL := wr_url r]> ∅))
      | None => <[HEADER_METHOD := wr_method r]> (<[HEADER_URL := wr_url r]> ∅)
      end : gmap string string) !! k =
    if decide (k = HEADER_METHOD) then Some (wr_method r)
    else if decide (k = HEADER_URL) then Some (wr_url r)
    else if decide (k = HEADER_TIMEOUT_MS) then (λ t, dec_text (as_millis t)) <$> wr_timeout r
    else None).
  { repeat case_decide; subst; destruct (wr_timeout r); cbn;
      rewrite ?lookup_insert_eq; rewrite ?lookup_insert_ne by done; rewrite ?lookup_insert_eq;
      rewrite ?lookup_insert_ne by done; rewrite ?lookup_insert_eq;
      rewrite ?lookup_insert_ne by done; done. }
  rewrite Hr. destruct (str_strip_prefix HTTP_HEADER_PREFIX k) as [n|] eqn:Hk; cbn; [|done].
  destruct (wr_headers r !! n); [done|]. apply str_strip_prefix_Some in Hk as ->. by repeat case_decide.
Qed.

(** The names with the prefix, with their values, are the headers of the request. *)
Lemma http_headers_of_job r :
  omap (λ e : string * string, (λ name, (name, e.2)) <$> str_strip_prefix HTTP_HEADER_PREFIX e.1)
    (map_to_list (webhook_job_headers r)) ≡ₚ map_to_list (wr_headers r).
Proof.
  apply NoDup_Permutation.
  - apply NoDup_omap; [apply NoDup_map_to_list|]. intros [k1 v1] [k2 v2] [n v] H1 H2. cbn [fst snd] in *.
    apply fmap_Some in H1 as (n1 & ->%str_strip_prefix_Some & [= <- <-]).
    apply fmap_Some in H2 as (n2 & ->%str_strip_prefix_Some & [= <- <-]). done.
  - apply NoDup_map_to_list.
  - intros [n v]. rewrite list_elem_of_omap, elem_of_map_to_list. split.
    + intros ([k v'] & Hk%elem_of_map_to_list & Hn). cbn [fst snd] in Hn.
      apply fmap_Some in Hn as (n' & ->%str_strip_prefix_Some & [= <- <-]).
      by rewrite webhook_job_headers_lookup, str_strip_prefix_app in Hk.
    + intros Hn. exists (HTTP_HEADER_PREFIX +:+ n, v). rewrite elem_of_map_to_list. cbn [fst snd].
      by rewrite webhook_job_headers_lookup, str_strip_prefix_app.
Qed.

(** The headers of a webhook job are not reserved by the workflow runtime. *)
Lemma webhook_headers_free r : check_headers (webhook_job_headers r) = Ok ().
Proof.
  unfold check_headers. destruct (list_find_first _ _) as [k|] eqn:E; [exfalso|done].
  apply list_find_first_Some in E as [Hk Hs].
  apply list_elem_of_fmap in Hk as ([k' v] & -> & Hv%elem_of_map_to_list). cbn [fst] in Hs.
  rewrite webhook_job_headers_lookup in Hv. apply starts_with_spec in Hs as [s ->].
  by destruct (str_strip_prefix HTTP_HEADER_PREFIX _) eqn:Hp in Hv; [apply str_strip_prefix_Some in Hp|repeat case_decide].
Qed.

(** The request of a job with the headers of a webhook. *)
Section sent.
  Context {RQ : Reqwest}.

Lemma delivery_request_of worker r j m :
  headers j = webhook_job_headers r → wr_url r ≠ "" → method_from_str (wr_method r) = Some m →
  (∀ t, wr_timeout r = Some t → is_u64 (as_millis t)) →
  ∃ request, delivery_request worker j = Ok request ∧ http_method request = m ∧ http_url request = wr_url r ∧
    http_body request = payload j ∧
    http_timeout request = from_option (λ t, from_millis (as_millis t)) (default_timeout worker) (wr_timeout r) ∧
    http_headers request ≡ₚ (map_to_list (wr_headers r)
      ++ from_option (λ name, [(name, id j)]) [] (delivery_id_header worker))%list.
Proof.
  intros Hh Hu Hm Ht. unfold delivery_request, effective_timeout, delivery_headers. rewrite Hh.
  assert (webhook_job_headers r !! HEADER_URL = Some (wr_url r)) as -> by by rewrite webhook_job_headers_lookup.
  assert (webhook_job_headers r !! HEADER_METHOD = Some (wr_method r)) as -> by by rewrite webhook_job_headers_lookup.
  assert (webhook_job_headers r !! HEADER_TIMEOUT_MS = (λ t, dec_text (as_millis t)) <$> wr_timeout r) as ->
    by by rewrite webhook_job_headers_lookup.
  pose proof (http_headers_of_job r) as Hp. destruct (wr_url r) as [|a u]; [done|]. change (default "POST" (Some (wr_method r))) with (wr_method r). rewrite Hm.
  assert (Hd : match delivery_id_header worker with Some name => [(name, id j)] | None => [] end
    = from_option (λ name, [(name, id j)]) [] (delivery_id_header worker)) by by destruct (delivery_id_header worker).
  destruct (wr_timeout r) as [t|]; cbn [fmap option_fmap option_map];
    [rewrite (parse_u64_text _ (Ht t eq_refl))|]; (eexists; split; [done|]);
    (do 4 (split; [done|])); cbn [http_headers]; by rewrite Hd, Hp.
Qed.
End sent.
