(* ===== verification/StepWorker.v ===== *)
(** * The worker path (taquba-workflow/src/worker.rs, taquba-workflow/src/signal.rs)

    How a claimed step job is run or replayed, and the settlement of its outcome. *)
From S2P Require Import Prelude Bytes Error Monad Keys Job Store Stats LeaseRegistry.
From S2P Require Import TimeBound ClaimCursor Completion Txn Core QueueCore.
From S2P Require Import Control Effects Claim Settle Enqueue InboxEntry Queue.
From S2P Require Import View RunError RunKeys RunRecords StepEffects Runs RunCalls.

(** The error a worker returns: [PermanentFailure] or another error, with the effects
    of a [FailWith]; or the panic of the processing. *)
Inductive WorkerError :=
| WorkerFailure (permanent : bool) (message : string) (effects : SettlementEffects)
| WorkerPanic.

(** What the worker loop sees: a processing that panicked settles nothing. *)
Definition worker_outcome (r : result WorkerError SettlementEffects) : WorkerOutcome :=
  match r with
  | Ok effects => WorkerOk effects
  | Err (WorkerFailure permanent message effects) => WorkerFailed permanent message effects
  | Err WorkerPanic => WorkerStopped
  end.

(** [ExternalCancel]. *)
Record ExternalCancel := mkExternalCancel { ec_reason : option string; ec_origin : CancelOrigin }.

(** [KvReadHandle]: the run of the delivery, or a detached handle. *)
Definition KvReadHandle : Type := option RunId.

(** [Delivery], without its handle of effects, which is the result of the runner; the
    token is a child of the claim's. *)
Record Delivery := mkDelivery {
  dl_run_id : RunId;
  dl_headers : gmap string string;
  dl_job_id : string;
  dl_next_job_id : string;
  dl_attempts : Z;
  dl_max_attempts : Z;
  dl_cancel_token : CancellationToken;
  dl_lease : LeaseHandle;
  dl_memo : Memo;
  dl_run_memo : Memo;
  dl_kv : KvReadHandle;
  dl_owner : RunOwner;
}.
Record Step := mkStep {
  st_delivery : Delivery;
  st_step_number : Z;
  st_payload : bytes;
  st_signal : option bytes;
}.
Definition st_run_id (s : Step) : RunId := dl_run_id (st_delivery s).

(** [Delivery::is_last_attempt]. *)
Definition delivery_is_last_attempt (d : Delivery) : bool := (dl_max_attempts d <=? dl_attempts d)%Z.

(** [remaining_delay]. *)
Definition remaining_delay (stored_at now : Z) (delay : Duration) : Duration :=
  Z.max 0 (delay - from_millis (sat_sub64 now stored_at)).

(** A stored outcome with its delay or timeout measured from the time it was stored. *)
Definition replayed_outcome (stored_at now : Z) (o : StepOutcome) : StepOutcome :=
  match o with
  | Continue p (After d) => Continue p (After (remaining_delay stored_at now d))
  | Continue p (OnSignal d) => Continue p (OnSignal (remaining_delay stored_at now d))
  | Continue p (OnGroup g d) => Continue p (OnGroup g (remaining_delay stored_at now d))
  | o => o
  end.

Section worker.
  Context {DB : SlateDb} {RD : SlateReads} {OS : ObjectStore} {IS : EntryStore} {PJ : PathJoin}.
  Context {SR : Serde JobRecord} {SA : Serde JobAttempt} {SC : Serde CountRecord}.
  Context {EN : Env} {SH : Sha256} {UT : UlidText} {RT : Runtime}.
  Context {SD : Serde DurableRun} {SP : Serde DurableStepRef} {SM : Serde DurableMember}.
  Context {SQ : Serde (list string)} {SO : Serde DurableStepOutcomeRecord}.

Abbreviation Wf := (EIO WfError World).
Abbreviation Worker := (EIO WorkerError World).

(** [StepError::into_worker_error] and [worker_error]. *)
Definition into_worker_error (e : StepError) : WorkerError :=
  WorkerFailure (bool_decide (se_kind e = Permanent)) (se_message e) effects_default.
Definition worker_error (e : WfError) : WorkerError :=
  match e with
  | WfQueue Panicked => WorkerPanic
  | e => into_worker_error (step_error_of wf_error_text e)
  end.
Definition worker_call {A} (m : Wf A) : Worker A := map_err worker_error m.

(** [KvReadHandle::get] and [KvReadHandle::get_run_kv]. *)
Definition kv_read_get (h : KvReadHandle) (key : bytes) : Wf (option bytes) :=
  match h with Some _ => wf_view (λ v, kv_get v key) | None => mret None end.
Definition kv_read_get_run_kv (h : KvReadHandle) (key : bytes) : Wf (option bytes) :=
  match h with Some r => wf_view (λ v, kv_get v (run_kv_entry_key r key)) | None => mret None end.

(** ** The settlement of an outcome *)

(** [RuntimeCore::terminating_failure]: [FailWith::new]. *)
Definition fail_with (e : WorkerError) (effects : SettlementEffects) : WorkerError :=
  match e with
  | WorkerFailure permanent message _ => WorkerFailure permanent message effects
  | WorkerPanic => WorkerPanic
  end.
Definition terminating_failure (claimed : ClaimedStep) (error : StepError) (submission : Submission)
    (owned : OwnedQueues) : Wf WorkerError :=
  let ending := ending_failed (se_message error) (Some (se_kind error)) in
  effects ← termination_effects claimed ending None submission owned;
  mret (fail_with (into_worker_error error) effects).

(** [RuntimeCore::step_failure]. *)
Definition step_failure {A} (claimed : ClaimedStep) (e : StepError) (submission : Submission) : Worker A :=
  if bool_decide (se_kind e = Permanent) || is_last_attempt (cs_job claimed) then
    owned ← eio_try (owned_queues (submission_owner submission (cs_run_id claimed)));
    match owned with
    | Ok owned =>
        failure ← worker_call (terminating_failure claimed e submission owned);
        eio_err failure
    | Err read => eio_err (worker_error read)
    end
  else eio_err (into_worker_error e).

(** [RuntimeCore::store_result]. *)
Definition store_result (claimed : ClaimedStep) (result : bytes) : Wf DurableResult :=
  match result with
  | [] => mret ResultEmpty
  | _ =>
      let attempt := attempts (cs_job claimed) in
      _ ← put_result (cs_run_id claimed) (id (cs_job claimed)) attempt result;
      mret (ResultObject attempt)
  end.

(** [RuntimeCore::terminate_recorded]. *)
Definition terminate_recorded (claimed : ClaimedStep) (ending : Ending) (result : option bytes)
    (submission : Submission) : Worker SettlementEffects :=
  result ← (match result with
    | Some result => reference ← worker_call (store_result claimed result); mret (Some (reference, result))
    | None => mret None
    end : Worker (option (DurableResult * bytes)));
  owned ← worker_call (owned_queues (submission_owner submission (cs_run_id claimed)));
  worker_call (termination_effects claimed ending result submission owned).

(** [RuntimeCore::run_at_after] and [RuntimeCore::advance_on_signal]. *)
Definition wait_until (delay : Duration) : Wf Z :=
  now ← lift_q now_ms;
  match run_at_after now delay with Some t => mret t | None => eio_err (WfQueue Panicked) end.
Definition advance_on_signal (claimed : ClaimedStep) (payload : bytes) (timeout : Duration)
    : Wf SettlementEffects :=
  t ← wait_until timeout;
  mret (advance_run claimed payload (set_wait (Some t) (Some WaitSignal) (next_step_opts claimed))).

(** [RuntimeCore::advance_on_group] of group.rs. *)
Definition advance_on_group (claimed : ClaimedStep) (payload : bytes) (g : RunId) (timeout : Duration)
    : Wf SettlementEffects :=
  members ← wf_view (λ h, kv_scan h (group_members_kv_prefix g) (Unbounded, Unbounded) Ascending 1);
  match entries members with
  | [] => eio_err (GroupNotFound g)
  | _ =>
      t ← wait_until timeout;
      mret (advance_run claimed payload
        (set_wait (Some t) (Some (WaitCount (group_count_name g))) (next_step_opts claimed)))
  end.

(** [RuntimeCore::settle_outcome]. *)
Definition settle_step_outcome (claimed : ClaimedStep) (outcome : result StepError StepOutcome)
    (external_cancel : option ExternalCancel) (submission : Submission) : Worker SettlementEffects :=
  match external_cancel, outcome with
  | Some c, _ =>
      terminate_recorded claimed (ending_cancelled (ec_origin c) (ec_reason c)) None submission
  | None, Ok (Cancel reason) =>
      terminate_recorded claimed (ending_cancelled Runner (Some reason)) None submission
  | None, Ok (Continue payload Immediate) => mret (advance_run claimed payload (next_step_opts claimed))
  | None, Ok (Continue payload (After delay)) =>
      t ← worker_call (wait_until delay);
      mret (advance_run claimed payload (set_wait (Some t) None (next_step_opts claimed)))
  | None, Ok (Continue payload (OnSignal timeout)) =>
      worker_call (advance_on_signal claimed payload timeout)
  | None, Ok (Continue payload (OnGroup g timeout)) =>
      advanced ← eio_try (advance_on_group claimed payload g timeout);
      match advanced with
      | Ok effects => mret effects
      | Err (WfQueue Panicked) => eio_err WorkerPanic
      | Err e => step_failure claimed (step_error_of wf_error_text e) submission
      end
  | None, Ok (Succeed result) => terminate_recorded claimed ending_succeeded (Some result) submission
  | None, Ok (Fail reason) =>
      terminate_recorded claimed (ending_failed reason (Some Permanent)) None submission
  | None, Err e => step_failure claimed e submission
  end.

(** ** The replay of outcomes *)

Definition load_step_output (r : RunId) (step_number : Z) (step_payload : bytes)
    : Wf (option (StepOutcome * StagedEffects)) :=
  b ← get_step_output r step_number step_payload;
  match b ← b; decode_or_absent b with
  | None => mret None
  | Some record =>
      let outcome := public_outcome (record_outcome record) in
      match outcome with
      | Continue _ (After _) | Continue _ (OnSignal _) | Continue _ (OnGroup _ _) =>
          now ← lift_q now_ms;
          mret (Some (replayed_outcome (stored_at_ms record) now outcome, record_effects record))
      | _ => mret (Some (outcome, record_effects record))
      end
  end.

Definition store_step_output (r : RunId) (step_number : Z) (step_payload : bytes)
    (outcome : StepOutcome) (effects : StagedEffects) : Wf () :=
  now ← lift_q now_ms;
  put_step_output r step_number step_payload
    (durable_encode (mkOutcomeRecord now (durable_outcome outcome) (stored_effects effects))).

(** ** A claimed step *)

(** What the processing of a step reads of a fired token: the request of the record. *)
Definition read_external_cancel (r : RunId) (claim_cancel : CancellationToken)
    : Worker (option ExternalCancel) :=
  fired ← worker_call (lift_q (get (λ c, is_cancelled (lease_registry c) claim_cancel)));
  if fired : bool then
    record ← worker_call (run_record r);
    mret (Some (match record ≫= drr_cancel_request with
      | Some request => mkExternalCancel (dcr_reason request) (public_origin (dcr_origin request))
      | None => mkExternalCancel None Request
      end))
  else mret None.

(** The runner of the user: it runs while other tasks do, and returns an outcome after
    it staged effects through its handle. *)
Context (run_step : Step → World → (result StepError StepOutcome * list HandleOp) * World).

(** The outcome of a step with the effects its caller staged, from the stored record or
    from the runner, and whether it was replayed. *)
Definition step_outcome (claim : Claim) (claimed : ClaimedStep) (record : DurableRunRecord)
    : Worker (result StepError StepOutcome * StagedEffects * bool) :=
  let job := Job.job claim in
  let r := cs_run_id claimed in
  let step_number := cs_step_number claimed in
  let delivery := mkDelivery r (cs_headers claimed) (id job) (next_step_job_id (id job)) (attempts job)
    (max_attempts job) (Job.cancel claim) (lease_handle claim) (mkMemo r (ScopeStep step_number))
    (mkMemo r ScopeRun) (Some r)
    (mkOwner (submission_owner (submission_of record) r) true
      (Some (mkOwnerStep (lease_fence claim) false))) in
  let step := mkStep delivery step_number (payload job) (signal job) in
  replayed ← worker_call (if step_output_replay
    then load_step_output r step_number (payload job) else mret None);
  match replayed with
  | Some (outcome, effects) => mret (Ok outcome, effects, true)
  | None => λ w, let '((outcome, ops), w) := run_step step w in
      (Ok (outcome, (seal_and_take (staged_by queue_name r ops)).1, false), w)
  end.

(** The processing of a step whose run record is read. *)
Definition process_recorded (claim : Claim) (claimed : ClaimedStep) (record : DurableRunRecord)
    : Worker SettlementEffects :=
  match drr_cancel_request record with
  | Some request =>
      terminate_recorded claimed
        (ending_cancelled (public_origin (dcr_origin request)) (dcr_reason request)) None
        (submission_of record)
  | None =>
      let r := cs_run_id claimed in
      '(outcome, caller_effects, replayed) ← step_outcome claim claimed record;
      external_cancel ← read_external_cancel r (Job.cancel claim);
      let cancelled_externally := bool_decide (is_Some external_cancel) in
      _ ← (match outcome with
        | Ok outcome =>
            if step_output_replay && negb replayed && negb cancelled_externally
            then worker_call (store_step_output r (cs_step_number claimed) (payload (Job.job claim))
              outcome caller_effects)
            else mret tt
        | Err _ => mret tt
        end : Worker ());
      let runner_cancelled := match outcome with Ok (Cancel _) => true | _ => false end in
      effects ← settle_step_outcome claimed outcome external_cancel (submission_of record);
      mret (if runner_cancelled || negb cancelled_externally
        then add_to caller_effects effects else effects)
  end.

(** [RuntimeInner::process_step], of a job that is not a cancel job. *)
Definition process_claimed (claim : Claim) (claimed : ClaimedStep) : Worker SettlementEffects :=
  let r := cs_run_id claimed in
  record ← worker_call (run_record r);
  match record with
  | None => eio_err (worker_error (InconsistentRunState r))
  | Some record => process_recorded claim claimed record
  end.

(** ** Cancel jobs of owners (owner.rs) *)

Definition OWNER_TERMINATED : string := "the owner run terminated".
Definition OWNED_PAGE_SIZE : nat := 256.

(** [QueueView::kv_entries], each page a read of its own; more pages than [fuel] are
    not read. *)
Fixpoint wf_pages (fuel : nat) (prefix : bytes) (range : Bound * Bound) (page_size : nat)
    (cursor : option bytes) : Wf (list kv) :=
  match fuel with
  | O => wf_unfinished
  | S fuel =>
      '(l, next) ← wf_view (λ h, kv_page (λ _, h) prefix range Ascending page_size 0 cursor);
      match next with
      | None => mret l
      | Some _ => rest ← wf_pages fuel prefix range page_size next; mret (l ++ rest)
      end
  end.

(** [rsplit(|b| *b == b'/').next()]. *)
Definition last_segment (key : bytes) : bytes :=
  List.rev ((fix go l := match l with
    | [] => []
    | b :: l => if (b =? 47)%Z then [] else b :: go l
    end) (List.rev key)).

(** The run of an index entry. The lossy text of a key that is not UTF-8 has a
    character that no run id has. *)
Definition owned_run_of_key (key : bytes) : option RunId :=
  s ← from_utf8 (last_segment key);
  match RunId_new s with Ok r => Some r | Err _ => None end.

(** The cancels of [RuntimeCore::cancel_owned], and the first error. *)
Fixpoint cancel_all (runs : list RunId) (first_error : option WfError) : Wf (option WfError) :=
  match runs with
  | [] => mret first_error
  | r :: runs =>
      result ← eio_try (cancel_run_with r (Some OWNER_TERMINATED) Owner);
      cancel_all runs (match first_error, result with None, Err e => Some e | e, _ => e end)
  end.

Definition cancel_owned (page_fuel : nat) (header : string) : Worker SettlementEffects :=
  owner ← worker_call (eio_result (owner_from_header header));
  keys ← worker_call (wf_pages page_fuel OWNED_KV_PREFIX (range_bounds (owned_runs_range owner queue_name))
    OWNED_PAGE_SIZE None);
  first_error ← worker_call (cancel_all (omap (λ e : kv, owned_run_of_key e.1) keys) None);
  match first_error with
  | Some e => eio_err (worker_error e)
  | None => mret effects_default
  end.

(** [RuntimeInner::process_step]. *)
Definition process_step (page_fuel : nat) (claim : Claim) : Worker SettlementEffects :=
  let job := Job.job claim in
  match headers job !! HEADER_OWNED with
  | Some owner => cancel_owned page_fuel owner
  | None =>
      match claimed_step_parse job with
      | Err e => eio_err (worker_error e)
      | Ok claimed => process_claimed claim claimed
      end
  end.

(** One delivery of the worker loop: the processing and the settlement. *)
Definition deliver_step (to_string : Error → string) (page_fuel : nat) (claim : Claim) : Q () := λ w,
  let '(r, w) := process_step page_fuel claim w in
  process_and_settle to_string claim (worker_outcome r) w.

End worker.
