(* ===== verification/Commands.v ===== *)
(** * Commands and the runtime (taquba-workflow/src/command.rs, taquba-workflow/src/view.rs,
    taquba-workflow/src/runtime.rs, taquba-workflow/src/runtime/builder.rs)

    The submissions and cancellations that other processes send as jobs on the control
    queue of a runtime, the worker that applies them, what a sender reads of its
    command, the builder of a runtime with its checks, and the tasks of a running
    runtime. *)
From S2P Require Import Prelude Bytes Error Monad Keys Job Store Stats LeaseRegistry.
From S2P Require Import TimeBound ClaimCursor Completion Txn Core QueueCore.
From S2P Require Import Control Effects Claim Settle Enqueue InboxEntry Inbox.
From S2P Require Import Queue View Session RunError RunKeys RunRecords StepEffects Runs.
From S2P Require Import RunCalls Webhooks StepWorker.

Record SubmitCommand := mkSubmitCommand {
  sc_run_id : RunId;
  sc_input : bytes;
  sc_headers : gmap string string;
  sc_run_at : option Z;
  sc_priority : option Z;
  sc_max_attempts_per_step : option Z;
}.
Record CancelCommand := mkCancelCommand { cc_run_id : RunId; cc_reason : option string }.
Inductive Command := CmdSubmit (c : SubmitCommand) | CmdCancel (c : CancelCommand).

Definition submit_command_new (r : RunId) (input : bytes) : SubmitCommand :=
  mkSubmitCommand r input ∅ None None None.
Definition cancel_command_new (r : RunId) : CancelCommand := mkCancelCommand r None.

(** [SubmitCommand::into_spec]. *)
Definition into_spec (c : SubmitCommand) : RunSpec :=
  mkRunSpec (Some (sc_run_id c)) (sc_input c)
    (mkRunOptions (sc_headers c) (sc_priority c) (sc_max_attempts_per_step c) (sc_run_at c) None)
    effects_default.
(** The spec of a submission that a cancellation applies. *)
Definition without_run_at (s : RunSpec) : RunSpec :=
  let o := rs_options s in
  mkRunSpec (rs_run_id s) (rs_input s)
    (mkRunOptions (ro_headers o) (ro_priority o) (ro_max_attempts_per_step o) None (ro_owner o)) (rs_effects s).

(** [EnqueueEntry::from] of a command. *)
Definition command_entry `{!Serde Command} (c : Command) : EnqueueEntry :=
  mkEnqueueEntry (durable_encode c) options_default.

Inductive CommandState :=
| CommandQueued (last_error : option string)
| CommandApplied
| CommandRejected (r : Rejection)
| CommandFailed (e : string).

Definition COMMAND_SCAN_PAGE : nat := 256.

(** [WorkflowRuntimeBuilder::check_control_queue], over the inbox of the queue with its
    record retention. *)
Definition inbox_accepts (inbox : option (InboxState * Duration)) (q : string) : bool :=
  match inbox with Some (s, _) => accepts s q | None => false end.
Definition check_control_queue {EN : Env} (runtime_queue : string) (inbox : option (InboxState * Duration))
    (control : string) : result ControlQueueError () :=
  if decide (control = runtime_queue) then Err RuntimeQueue
  else if negb (inbox_accepts inbox control) then Err NotAccepted
  else
    match inbox with
    | None => Ok ()
    | Some (_, retention) =>
        let config := configs_get configs control in
        if match cfg_keep_done_jobs config with None => true | Some kept => (kept <? retention)%Z end
        then Err (DoneJobsNotKept retention)
        else if match cfg_dead_retention config with None => false | Some kept => (kept <? retention)%Z end
        then Err (DeadRetentionShort retention)
        else Ok ()
    end.
(** [WorkflowRuntimeBuilder::build]: the checks, of which those of the terminal hook are
    the argument. *)
Definition build_checks {EN : Env} (check_runtime : WfResult ()) (runtime_queue : string)
    (inbox : option (InboxState * Duration)) (control_queue : option string) : WfResult () :=
  _ ← check_runtime;
  match control_queue with
  | Some control =>
      match check_control_queue runtime_queue inbox control with
      | Ok _ => Ok ()
      | Err reason => Err (InvalidControlQueue control reason)
      end
  | None => Ok ()
  end.

Section commands.
  Context {DB : SlateDb} {RD : SlateReads} {OS : ObjectStore} {IS : EntryStore} {PJ : PathJoin}.
  Context {SR : Serde JobRecord} {SA : Serde JobAttempt} {SC : Serde CountRecord}.
  Context {EN : Env} {SH : Sha256} {UT : UlidText} {RT : Runtime}.
  Context {SD : Serde DurableRun} {SP : Serde DurableStepRef} {SM : Serde DurableMember}.
  Context {SQ : Serde (list string)} {SCm : Serde Command} {SI : Serde InboxRecord}.
  (** The pages a scan of the control queue reads at most, and the text of the error of
      a payload that does not decode. *)
  Context (page_fuel : nat) (decode_error : bytes → string).

Abbreviation Wf := (EIO WfError World).
Abbreviation Worker := (EIO WorkerError World).

(** The jobs of a listing, each page a read of its own. *)
Fixpoint control_jobs (fuel : nat) (q : string) (s : JobStatus) (cursor : option bytes) : Wf (list JobRecord) :=
  match fuel with
  | O => wf_unfinished
  | S fuel =>
      page ← wf_view (λ h, list_jobs h q s cursor COMMAND_SCAN_PAGE);
      match next_cursor page with
      | None => mret (jobs page)
      | Some next => rest ← control_jobs fuel q s (Some next); mret (jobs page ++ rest)
      end
  end.

(** The submission of [r] that a job is. *)
Definition submission_of_run (r : RunId) (j : JobRecord) : option (JobRecord * SubmitCommand) :=
  match decode_or_absent (payload j) with
  | Some (CmdSubmit c) => if decide (sc_run_id c = r) then Some (j, c) else None
  | _ => None
  end.

(** [CommandWorker::submissions]. *)
Fixpoint submissions_in (statuses : list JobStatus) (q : string) (r : RunId)
    : Wf (list (JobRecord * SubmitCommand)) :=
  match statuses with
  | [] => mret []
  | s :: statuses =>
      jobs ← control_jobs page_fuel q s None;
      rest ← submissions_in statuses q r;
      mret (omap (submission_of_run r) jobs ++ rest)
  end.
Definition submissions (q : string) (r : RunId) : Wf (list (JobRecord * SubmitCommand)) :=
  submissions_in [Pending; Scheduled; Claimed] q r.

(** [CommandWorker::claim_submissions]. *)
Definition being_applied {A} (r : RunId) : Worker A :=
  eio_err (WorkerFailure false ("a submission of run `" +:+ rid_str r +:+ "` is being applied") effects_default).
Fixpoint claim_each (r : RunId) (lease : Duration) (l : list (JobRecord * SubmitCommand))
    (claims : list (Claim * SubmitCommand)) : Worker (list (Claim * SubmitCommand)) :=
  match l with
  | [] => mret claims
  | (j, c) :: l =>
      if decide (status j = Claimed) then being_applied r
      else
        outcome ← worker_call (lift_q (yield ≫= λ _, claim_by_id (id j) lease));
        match outcome with
        | ClaimedOutcome claim => claim_each r lease l (claims ++ [(claim, c)])
        | NotClaimable => being_applied r
        | ClaimNotFound => claim_each r lease l claims
        end
  end.
Definition claim_submissions (q : string) (r : RunId) : Worker (list (Claim * SubmitCommand)) :=
  waiting ← worker_call (submissions q r);
  claim_each r (cfg_lease_duration (configs_get configs q)) waiting [].

(** [CommandWorker::settle]. *)
Definition settle_command (claim : Claim) (applied : WfResult SubmitOutcome) : Worker () :=
  match applied with
  | Ok _ => _ ← worker_call (lift_q (yield ≫= λ _, ack_with claim effects_default)); mret tt
  | Err e =>
      if wf_is_permanent e then
        _ ← worker_call (lift_q (yield ≫= λ _, dead_letter_with claim (wf_error_text e) effects_default));
        mret tt
      else eio_err (worker_error e)
  end.

(** [CommandWorker::cancel]: the submissions up to the first that applies, and the
    others. *)
Fixpoint apply_cancelled (cancel : CancelCommand) (claims : list (Claim * SubmitCommand))
    : Worker (list (Claim * SubmitCommand)) :=
  match claims with
  | [] => mret []
  | (claim, c) :: claims =>
      applied ← eio_try (submit_cancelled (without_run_at (into_spec c)) (cc_reason cancel));
      match applied with
      | Ok _ =>
          _ ← worker_call (cancel_run (cc_run_id cancel) (cc_reason cancel));
          _ ← settle_command claim applied;
          mret claims
      | Err _ =>
          _ ← settle_command claim applied;
          apply_cancelled cancel claims
      end
  end.
Fixpoint apply_others (claims : list (Claim * SubmitCommand)) : Worker () :=
  match claims with
  | [] => mret tt
  | (claim, c) :: claims =>
      applied ← eio_try (submit (into_spec c));
      _ ← settle_command claim applied;
      apply_others claims
  end.
Definition cancel_command (q : string) (cancel : CancelCommand) : Worker () :=
  outcome ← worker_call (cancel_run (cc_run_id cancel) (cc_reason cancel));
  match outcome with
  | RunNotActive =>
      claims ← claim_submissions q (cc_run_id cancel);
      rest ← apply_cancelled cancel claims;
      apply_others rest
  | _ => mret tt
  end.

(** [CommandWorker::process]. *)
Definition process_command (j : JobRecord) : Worker () :=
  match decode_or_absent (payload j) with
  | None =>
      eio_err (WorkerFailure true ("malformed command: " +:+ decode_error (payload j)) effects_default)
  | Some (CmdSubmit c) => _ ← worker_call (submit (into_spec c)); mret tt
  | Some (CmdCancel c) => cancel_command (qn_str (queue j)) c
  end.

(** One delivery of the command worker. *)
Definition deliver_command (to_string : Error → string) (claim : Claim) : Q () := λ w,
  let '(r, w) := process_command (Job.job claim) w in
  process_and_settle to_string claim
    (worker_outcome (match r with Ok _ => Ok effects_default | Err e => Err e end)) w.

(** [WorkflowView::command]. *)
Definition command_state (control_queue entry_id : string) : Wf (option CommandState) :=
  record ← wf_view (λ h, view_inbox_record h control_queue entry_id);
  match record with
  | None => mret None
  | Some record =>
      match InboxEntry.record_outcome record with
      | OutcomeRejected reason => mret (Some (CommandRejected reason))
      | OutcomeCancel _ | OutcomeSignal _ => mret None
      | OutcomeEnqueue enqueued =>
          job ← lift_q (yield ≫= λ _, view_get_job (result_id enqueued));
          mret (match job with
            | None => None
            | Some j => Some (match status j with
                | Done => CommandApplied
                | Dead => CommandFailed (default "" (last_error j))
                | Pending | Scheduled | Claimed => CommandQueued (last_error j)
                end)
            end)
      end
  end.
End commands.

(** ** The builder (taquba-workflow/src/runtime/builder.rs)

    The settings of a runtime, without its queue, its object store, its clock and its
    runner, which are parameters of the model. *)

(** [TerminalHook]: what it stages for the outcome of a run, and its check. *)
Record TerminalHook := mkTerminalHook {
  stage_effects_of : TerminatedRun → list StageOp;
  check_runtime : string → WfResult ();
}.

(** The hook of webhooks (taquba-workflow/src/terminal.rs). *)
Definition webhook_terminal_hook (hook : WebhookTerminalHook) : TerminalHook :=
  mkTerminalHook (webhook_hook hook) (webhook_check_runtime hook).

Record WorkflowRuntimeBuilder := mkRuntimeBuilder {
  wb_queue_name : string;
  wb_memo_prefix : option string;
  wb_terminal_hook : option TerminalHook;
  wb_max_concurrent_steps : nat;
  wb_poll_interval : Duration;
  wb_memo_retention : option Duration;
  wb_group_retention : option Duration;
  wb_step_output_replay : bool;
  wb_control_queue : option string;
}.

Definition DEFAULT_QUEUE_NAME : string := "workflow-steps".

(** [WorkflowRuntime::builder]. *)
Definition runtime_builder : WorkflowRuntimeBuilder :=
  mkRuntimeBuilder DEFAULT_QUEUE_NAME None None 16 (from_millis 250) None None false None.

Definition with_terminal_hook (h : TerminalHook) (b : WorkflowRuntimeBuilder) : WorkflowRuntimeBuilder :=
  mkRuntimeBuilder (wb_queue_name b) (wb_memo_prefix b) (Some h) (wb_max_concurrent_steps b)
    (wb_poll_interval b) (wb_memo_retention b) (wb_group_retention b) (wb_step_output_replay b) (wb_control_queue b).
Definition with_queue_name (n : string) (b : WorkflowRuntimeBuilder) : WorkflowRuntimeBuilder :=
  mkRuntimeBuilder n (wb_memo_prefix b) (wb_terminal_hook b) (wb_max_concurrent_steps b)
    (wb_poll_interval b) (wb_memo_retention b) (wb_group_retention b) (wb_step_output_replay b) (wb_control_queue b).
Definition with_memo_prefix (p : string) (b : WorkflowRuntimeBuilder) : WorkflowRuntimeBuilder :=
  mkRuntimeBuilder (wb_queue_name b) (Some p) (wb_terminal_hook b) (wb_max_concurrent_steps b)
    (wb_poll_interval b) (wb_memo_retention b) (wb_group_retention b) (wb_step_output_replay b) (wb_control_queue b).
(** The setter panics on 0. *)
Definition with_max_concurrent_steps (n : nat) (b : WorkflowRuntimeBuilder) : option WorkflowRuntimeBuilder :=
  if decide (n = 0) then None
  else Some (mkRuntimeBuilder (wb_queue_name b) (wb_memo_prefix b) (wb_terminal_hook b) n
    (wb_poll_interval b) (wb_memo_retention b) (wb_group_retention b) (wb_step_output_replay b) (wb_control_queue b)).
Definition with_poll_interval (d : Duration) (b : WorkflowRuntimeBuilder) : WorkflowRuntimeBuilder :=
  mkRuntimeBuilder (wb_queue_name b) (wb_memo_prefix b) (wb_terminal_hook b) (wb_max_concurrent_steps b)
    d (wb_memo_retention b) (wb_group_retention b) (wb_step_output_replay b) (wb_control_queue b).
Definition with_memo_retention (d : Duration) (b : WorkflowRuntimeBuilder) : WorkflowRuntimeBuilder :=
  mkRuntimeBuilder (wb_queue_name b) (wb_memo_prefix b) (wb_terminal_hook b) (wb_max_concurrent_steps b)
    (wb_poll_interval b) (Some d) (wb_group_retention b) (wb_step_output_replay b) (wb_control_queue b).
Definition with_group_retention (d : Duration) (b : WorkflowRuntimeBuilder) : WorkflowRuntimeBuilder :=
  mkRuntimeBuilder (wb_queue_name b) (wb_memo_prefix b) (wb_terminal_hook b) (wb_max_concurrent_steps b)
    (wb_poll_interval b) (wb_memo_retention b) (Some d) (wb_step_output_replay b) (wb_control_queue b).
Definition with_step_output_replay (b : WorkflowRuntimeBuilder) : WorkflowRuntimeBuilder :=
  mkRuntimeBuilder (wb_queue_name b) (wb_memo_prefix b) (wb_terminal_hook b) (wb_max_concurrent_steps b)
    (wb_poll_interval b) (wb_memo_retention b) (wb_group_retention b) true (wb_control_queue b).
Definition with_control_queue (q : string) (b : WorkflowRuntimeBuilder) : WorkflowRuntimeBuilder :=
  mkRuntimeBuilder (wb_queue_name b) (wb_memo_prefix b) (wb_terminal_hook b) (wb_max_concurrent_steps b)
    (wb_poll_interval b) (wb_memo_retention b) (wb_group_retention b) (wb_step_output_replay b) (Some q).

Section builder.
  (** The names of the bounds of the two new expiry indexes, and the texts of errors. *)
  Context (memo_bound group_bound : nat).
  Context (queue_text : Error → string) (object_text : ObjectStoreError → string).
  Context (debug_text : Duration → string) (lossy : bytes → string).

(** [WorkflowRuntimeBuilder::parts]. *)
Definition memo_prefix_of (b : WorkflowRuntimeBuilder) : string :=
  default (wb_queue_name b +:+ "-memo") (wb_memo_prefix b).
Definition memo_sweep_of (b : WorkflowRuntimeBuilder) : option Sweep :=
  mkSweep (mkExpiryIndex TERMINAL_KV_PREFIX memo_bound) <$> wb_memo_retention b.
Definition group_sweep_of (b : WorkflowRuntimeBuilder) : option Sweep :=
  mkSweep (mkExpiryIndex GROUP_TERMINAL_KV_PREFIX group_bound) <$> wb_group_retention b.

Lemma memo_sweep_of_prefix b s : memo_sweep_of b = Some s → index_prefix (sweep_index s) = TERMINAL_KV_PREFIX.
Proof using Type. unfold memo_sweep_of. by destruct (wb_memo_retention b); intros [= <-]. Qed.
Lemma group_sweep_of_prefix b s :
  group_sweep_of b = Some s → index_prefix (sweep_index s) = GROUP_TERMINAL_KV_PREFIX.
Proof using Type. unfold group_sweep_of. by destruct (wb_group_retention b); intros [= <-]. Qed.

Definition parts (b : WorkflowRuntimeBuilder) : Runtime := {|
  queue_name := wb_queue_name b;
  memo_sweep := memo_sweep_of b;
  group_sweep := group_sweep_of b;
  memo_sweep_prefix := memo_sweep_of_prefix b;
  group_sweep_prefix := group_sweep_of_prefix b;
  step_output_replay := wb_step_output_replay b;
  terminal_hook := stage_effects_of <$> wb_terminal_hook b;
  memo_prefix := memo_prefix_of b;
  queue_error_text := queue_text;
  object_error_text := object_text;
  duration_debug := debug_text;
  lossy_text := lossy;
|}.

(** [WorkflowRuntimeBuilder::build]. *)
Definition build {EN : Env} (inbox : option (InboxState * Duration)) (b : WorkflowRuntimeBuilder) : WfResult Runtime :=
  _ ← build_checks (match wb_terminal_hook b with Some h => check_runtime h (wb_queue_name b) | None => Ok () end)
    (wb_queue_name b) inbox (wb_control_queue b);
  Ok (parts b).

(** A runtime that was built passed the checks of its hook and of its control queue. *)
Lemma build_Ok {EN : Env} inbox b rt :
  build inbox b = Ok rt →
  rt = parts b ∧
  (∀ h, wb_terminal_hook b = Some h → check_runtime h (wb_queue_name b) = Ok tt) ∧
  (∀ q, wb_control_queue b = Some q → check_control_queue (wb_queue_name b) inbox q = Ok tt).
Proof using Type.
  unfold build, build_checks. destruct (wb_terminal_hook b) as [h|]; cbn.
  - destruct (check_runtime h _) as [[]|] eqn:Eh; [|done]. cbn.
    destruct (wb_control_queue b) as [q|]; [|intros [= <-]; split; [done|]; by split; [intros ? [= <-]|]].
    destruct (check_control_queue _ _ _) as [[]|] eqn:Ec; [|done]. intros [= <-].
    split; [done|]. by split; [intros ? [= <-]|intros ? [= <-]].
  - destruct (wb_control_queue b) as [q|]; [|by intros [= <-]].
    destruct (check_control_queue _ _ _) as [[]|] eqn:Ec; [|done]. intros [= <-].
    split; [done|]. by split; [|intros ? [= <-]].
Qed.
End builder.

(** ** [WorkflowRuntime::run_with] (taquba-workflow/src/runtime.rs)

    The step worker runs in the call. The retention sweeps, the reconciliation of dead
    steps and, with a control queue, the worker of commands run as tasks that share its
    stop token: [None] is a worker that runs. *)
Record RunTasks := mkRunTasks {
  rt_stop : bool;
  rt_worker : option (Result ());
  rt_background : nat;
  rt_commands : option (option (Result ()));
}.
(** What happens to them: the shutdown, the returns of the loops, and the panics of the
    tasks. *)
Inductive RunTaskEvent :=
| StopSignalled
| StepWorkerReturns (r : Result ())
| BackgroundEnds (panicked : bool)
| CommandWorkerReturns (r : Result ())
| CommandWorkerPanics.

Definition run_tasks_new (b : WorkflowRuntimeBuilder) : RunTasks :=
  mkRunTasks false None
    (length (option_list (wb_memo_retention b)) + length (option_list (wb_group_retention b)) + 1)
    ((λ _, None) <$> wb_control_queue b).

(** A loop returns an error at any time, and without one when it is stopped. *)
Definition may_return (s : RunTasks) (r : Result ()) : bool :=
  match r with Ok _ => rt_stop s | Err _ => true end.
Definition run_task_event (e : RunTaskEvent) (s : RunTasks) : option RunTasks :=
  match e, rt_worker s, rt_background s, rt_commands s with
  | StopSignalled, w, n, c => Some (mkRunTasks true w n c)
  | StepWorkerReturns r, None, n, c => if may_return s r then Some (mkRunTasks true (Some r) n c) else None
  | BackgroundEnds panicked, w, S n, c =>
      if panicked || rt_stop s then Some (mkRunTasks (rt_stop s) w n c) else None
  | CommandWorkerReturns r, w, n, Some None =>
      if may_return s r then Some (mkRunTasks true w n (Some (Some r))) else None
  | CommandWorkerPanics, w, n, Some None => Some (mkRunTasks (rt_stop s) w n (Some (Some (Ok tt))))
  | _, _, _, _ => None
  end.

(** The result of the call, once every task has ended: the error of the step worker
    comes first. *)
Definition of_queue (r : Result ()) : WfResult () :=
  match r with Ok _ => Ok tt | Err e => Err (WfQueue e) end.
Definition run_with_result (s : RunTasks) : option (WfResult ()) :=
  match rt_worker s, rt_background s, rt_commands s with
  | Some r, O, None => Some (of_queue r)
  | Some r, O, Some (Some c) => Some (_ ← of_queue r; of_queue c)
  | _, _, _ => None
  end.

Fixpoint run_task_events (es : list RunTaskEvent) (s : RunTasks) : option RunTasks :=
  match es with
  | [] => Some s
  | e :: es => s ← run_task_event e s; run_task_events es s
  end.

(** The tasks that run. *)
Definition tasks_left (s : RunTasks) : nat :=
  match rt_worker s with None => 1 | Some _ => 0 end + rt_background s +
  match rt_commands s with Some None => 1 | _ => 0 end.

Lemma run_task_event_left e s s' :
  run_task_event e s = Some s' →
  (e = StopSignalled ∧ tasks_left s' = tasks_left s ∨ tasks_left s = S (tasks_left s')) ∧
  (rt_stop s = true → rt_stop s' = true).
Proof.
  destruct s as [b w n c]. unfold run_task_event, tasks_left. cbn [rt_stop rt_worker rt_background rt_commands].
  destruct e as [|r|p|r|]; [intros [= <-]; split; [by left|done]|..].
  - destruct w; [done|]. case_match; [|done]. intros [= <-]. split; [right; cbn; lia|done].
  - destruct n; [done|]. case_match; [|done]. intros [= <-]. split; [right; cbn; lia|done].
  - destruct c as [[]|]; [done| |done]. case_match; [|done]. intros [= <-]. split; [right; cbn; lia|done].
  - destruct c as [[]|]; [done| |done]. intros [= <-]. split; [right; cbn; lia|done].
Qed.

(** A runtime that is stopped returns: it has a next event until every task has ended,
    and as many events as it has tasks. *)
Lemma run_with_progress s :
  rt_stop s = true → run_with_result s = None →
  ∃ e s', e ≠ StopSignalled ∧ run_task_event e s = Some s'.
Proof.
  destruct s as [b w n c]. unfold run_with_result, run_task_event. cbn. intros ->.
  destruct w as [r|]; [|intros _; by exists (StepWorkerReturns (Ok tt)); eexists].
  destruct n as [|n]; [|intros _; by exists (BackgroundEnds false); eexists].
  destruct c as [[c|]|]; [done| |done]. intros _. by exists (CommandWorkerReturns (Ok tt)); eexists.
Qed.
Lemma run_with_bound es s s' :
  StopSignalled ∉ es → run_task_events es s = Some s' → length es + tasks_left s' = tasks_left s.
Proof.
  revert s. induction es as [|e es IH]; intros s He; cbn; [by intros [= <-]|].
  intros (s1 & H1 & H)%bind_Some. apply run_task_event_left in H1 as [[[-> _]|Hl] _].
  - by destruct He; left.
  - apply IH in H; [lia|]. intros Hin. apply He. by right.
Qed.
