(* ===== verification/RunSweeps.v ===== *)
(** * Expiry indexes (taquba/src/expiry.rs)

    The pass of an [ExpiryIndex] over the user key space: the due entries in the
    order of their times, each handled by the caller and deleted with the effects the
    caller returns. *)
From S2P Require Import Prelude Bytes Error Monad Keys Job Store Stats LeaseRegistry.
From S2P Require Import TimeBound ClaimCursor Completion Txn Core QueueCore.
From S2P Require Import Control Effects Claim Settle Enqueue Sweeps.
From S2P Require Import InboxEntry Queue View RunError RunKeys RunRecords StepEffects.
From S2P Require Import Runs RunCalls StepWorker.

Definition EXPIRY_PAGE_SIZE : nat := 256.

(** [ExpiryIndex::parse]. *)
Definition expiry_parse (index : ExpiryIndex) (key : bytes) : option (Z * bytes) :=
  rest ← strip_prefix (index_prefix index) key;
  '(time, suffix) ← split_at_checked 8 rest;
  Some (from_be time, suffix).

Section expiry.
  Context {DB : SlateDb} {RD : SlateReads} {OS : ObjectStore} {SR : Serde JobRecord} {SA : Serde JobAttempt}.
  Context {SC : Serde CountRecord} {EN : Env}.
  (** The code of the caller for an entry. *)
  Context (clear : Z → bytes → Q Expired).

Definition set_expiry_bound (n : nat) (b : TimeBound) (c : Core) : Core :=
  set_expiry_bounds (<[n := b]> (expiry_bounds c)) c.

(** The end of one entry, [true] for one that is removed. *)
Definition expire_entry (key : bytes) (e : Expired) : Q bool :=
  match e with
  | ExpiredDelete effects => commit_effects (eff_kv_delete key effects) ≫= λ _, mret true
  | ExpiredDeleteIf compared expected effects =>
      committed ← io_try (commit_effects
        (eff_kv_delete key (eff_kv_compare (mkCompare compared expected) effects)));
      match committed with
      | Ok _ => mret true
      | Err (KvCompareFailed _) => kv_delete key ≫= λ _, mret true
      | Err e => io_err e
      end
  | ExpiredKeep => mret false
  end.

(** The entries of a page: the scan, the entries removed so far, and whether an entry
    was not due, which ends the pass. *)
Fixpoint expire_page (index : ExpiryIndex) (l : list kv) (s : Scan) (removed : nat)
    : Q (Scan * nat * bool) :=
  match l with
  | [] => mret (s, removed, false)
  | (key, _) :: l =>
      match expiry_parse index key with
      | None => kv_delete key ≫= λ _, expire_page index l s removed
      | Some (at_ms, suffix) =>
          if scan_due s at_ms then
            e ← clear at_ms suffix;
            gone ← expire_entry key e;
            if gone : bool then expire_page index l s (S removed)
            else expire_page index l (scan_retain at_ms s) removed
          else mret (scan_retain at_ms s, removed, true)
      end
  end.

(** The pages of the pass, at most [fuel] of them. *)
Fixpoint expire_pages (fuel : nat) (index : ExpiryIndex) (start : Bound) (cursor : option bytes)
    (s : Scan) (removed : nat) : Q (nat * Scan) :=
  match fuel with
  | O => io_err Unfinished
  | S fuel =>
      yield ≫= λ _,
      d ← get db;
      '(l, next) ← io_result (kv_page (λ _, Writer d) (index_prefix index) (start, Unbounded) Ascending
        EXPIRY_PAGE_SIZE 0 cursor);
      '(s, removed, stop) ← expire_page index l s removed;
      match next with
      | Some _ => if stop : bool then mret (removed, scan_complete s)
          else expire_pages fuel index start next s removed
      | None => mret (removed, scan_complete s)
      end
  end.

(** [ExpiryIndex::pass]. *)
Definition expiry_pass (fuel : nat) (index : ExpiryIndex) (now : Z) (retention : Duration) : Q nat :=
  let n := index_bound index in
  with_scan (expiry_bound n) (set_expiry_bound n) now (millis_sat retention) 0 (λ s,
    expire_pages fuel index (Included (entry_key index (scan_from s) [])) None s 0).

End expiry.

(** An entry key parses back to its time and its suffix. *)
Lemma expiry_parse_entry index at_ms suffix :
  is_u64 at_ms → expiry_parse index (entry_key index at_ms suffix) = Some (at_ms, suffix).
Proof.
  intros Ht. unfold expiry_parse, entry_key. rewrite strip_prefix_app. cbn [mbind option_bind].
  change 8 with (length (be_bytes 8 at_ms)) at 1. rewrite split_at_checked_app. cbn.
  by rewrite be_bytes_roundtrip.
Qed.

(** Entries sort by time. *)
Lemma entry_key_order index a b s t :
  is_u64 a → is_u64 b → (a < b)%Z → bytes_lt (entry_key index a s) (entry_key index b t) = true.
Proof.
  intros [? ?] [? ?] Hab. unfold entry_key. rewrite bytes_lt_app_l.
  apply bytes_lt_app_r; [by rewrite !length_be_bytes|]. by apply be_bytes_lt.
Qed.

(** ** Retention and reconciliation (taquba-workflow/src/sweep.rs, taquba-workflow/src/kv.rs,
    taquba-workflow/src/runtime.rs, taquba-workflow/src/runtime/terminate.rs)

    The passes of the runtime: the retention sweep of terminated runs, and the
    termination of runs whose step was dead-lettered outside the worker. *)

Inductive Cleared := ClearedRemoved (keys : list bytes) | Superseded.

Section sweeps.
  Context {DB : SlateDb} {RD : SlateReads} {OS : ObjectStore} {IS : EntryStore} {PJ : PathJoin}.
  Context {SR : Serde JobRecord} {SA : Serde JobAttempt} {SC : Serde CountRecord}.
  Context {EN : Env} {SH : Sha256} {UT : UlidText} {RT : Runtime}.
  Context {SD : Serde DurableRun} {SP : Serde DurableStepRef} {SM : Serde DurableMember}.
  Context {SQ : Serde (list string)}.
  (** The pages a listing reads at most. *)
  Context (page_fuel : nat).

Abbreviation Wf := (EIO WfError World).

Definition RUN_KV_PAGE_SIZE : nat := 256.

(** [run_swept_keys] of kv.rs. *)
Definition run_swept_keys (r : RunId) : Wf (list bytes) :=
  entries ← wf_pages page_fuel RUN_KV_ENTRY_PREFIX (range_bounds (run_kv_entries_range r)) RUN_KV_PAGE_SIZE None;
  queues ← wf_pages page_fuel OWNER_QUEUES_KV_PREFIX (range_bounds (owner_queues_range r)) RUN_KV_PAGE_SIZE None;
  mret (entries.*1 ++ queues.*1).

(** [RunStore::clear]. *)
Definition clear_run (r : RunId) (marked_at_ms : Z) : Wf Cleared :=
  t ← terminal_record r;
  if match t with Some t => bool_decide (dt_terminated_at_ms t = marked_at_ms) | None => false end then
    keys ← run_swept_keys r;
    _ ← clear_memos_for_run r;
    mret (ClearedRemoved (keys ++ [run_kv_key r]))
  else mret Superseded.

(** The closure of [Sweep::pass]: what becomes of an expired marker. *)
Definition expire_marker (clear : RunId → Z → Wf Cleared) (at_ms : Z) (suffix : bytes) : Q Expired :=
  match s ← from_utf8 suffix; match RunId_new s with Ok r => Some r | Err _ => None end with
  | None => mret (ExpiredDelete effects_default)
  | Some r => λ w,
      let '(cleared, w) := clear r at_ms w in
      (Ok (match cleared with
        | Ok (ClearedRemoved keys) => ExpiredDelete (mkEffects [] None [] ∅ keys [] ∅)
        | Ok Superseded => ExpiredDelete effects_default
        | Err _ => ExpiredKeep
        end), w)
  end.

(** [Sweep::pass]. *)
Definition sweep_pass (sweep : Sweep) (clear : RunId → Z → Wf Cleared) : Wf nat :=
  now ← lift_q now_ms;
  lift_q (expiry_pass (expire_marker clear) page_fuel (sweep_index sweep) now (sweep_retention sweep)).

(** ** Dead steps *)

Definition DEAD_PAGE : nat := 256.

(** The end of one dead step job: [true] when it terminated its run. *)
Definition reconcile_dead_step (job : JobRecord) : Wf bool :=
  match claimed_step_parse job with
  | Err _ => mret false
  | Ok claimed =>
      let r := cs_run_id claimed in
      current ← current_step_if_active r;
      if match current with Some c => bool_decide (dsr_job_id c = id job) | None => false end then
        record ← run_record r;
        match record with
        | None => mret false
        | Some record =>
            let error := default "step dead-lettered outside the worker" (last_error job) in
            let submission := submission_of record in
            owned ← owned_queues (submission_owner submission r);
            effects ← termination_effects claimed (ending_failed error None) None submission owned;
            _ ← lift_q (commit_effects effects);
            mret true
        end
      else mret false
  end.

Fixpoint reconcile_jobs (l : list JobRecord) (terminated : nat) : Wf nat :=
  match l with
  | [] => mret terminated
  | j :: l =>
      ended ← reconcile_dead_step j;
      reconcile_jobs l (if ended : bool then S terminated else terminated)
  end.

(** [RuntimeCore::reconcile_dead_steps]: the pages of the dead jobs, at most [fuel] of
    them. *)
Fixpoint reconcile_pages (fuel : nat) (cursor : option bytes) (terminated : nat) : Wf nat :=
  match fuel with
  | O => wf_unfinished
  | S fuel =>
      '(l, next) ← wf_view (λ h, jobs_page (λ _, h) queue_name Dead DEAD_PAGE 0 cursor);
      terminated ← reconcile_jobs l terminated;
      match next with
      | None => mret terminated
      | Some _ => reconcile_pages fuel next terminated
      end
  end.
Definition reconcile_dead_steps : Wf nat := reconcile_pages page_fuel None 0.

(** A pass of [run_dead_step_reconciliation]: the dead count at the last successful
    pass. *)
Definition reconciliation_pass (reconciled_at : option Z) : Q (option Z) := λ w,
  match wf_view (λ h, stats h queue_name) w with
  | (Ok s, w) =>
      if decide (reconciled_at = Some (stats_dead s)) then (Ok reconciled_at, w)
      else match reconcile_dead_steps w with
        | (Ok _, w) => (Ok (Some (stats_dead s)), w)
        | (Err _, w) => (Ok reconciled_at, w)
        end
  | (Err _, w) => (Ok reconciled_at, w)
  end.

(** [run_periodically]: a pass at once and then one after each wait, [waits] of them
    until the stop; and the two loops that use it. A pass that fails is logged. *)
Fixpoint run_periodically {T} (pass : T → Q T) (waits : nat) (state : T) : Q T :=
  state ← pass state;
  match waits with
  | O => mret state
  | S waits => yield ≫= λ _, run_periodically pass waits state
  end.
Definition sweep_run (sweep : Sweep) (clear : RunId → Z → Wf Cleared) (waits : nat) : Q () :=
  run_periodically (λ _, λ w, (Ok tt, (sweep_pass sweep clear w).2)) waits tt.
Definition run_dead_step_reconciliation (waits : nat) : Q (option Z) :=
  run_periodically reconciliation_pass waits None.

End sweeps.
