(* ===== verification/RunViews.v ===== *)
(** * Queries of runs (taquba-workflow/src/view.rs, taquba-workflow/src/runtime.rs)

    The status of a run, the listing of runs and the wait for the end of a run. *)
From S2P Require Import Prelude Bytes Error Monad Keys Job Store Stats LeaseRegistry.
From S2P Require Import TimeBound ClaimCursor Completion Txn Core QueueCore.
From S2P Require Import Control Effects Claim Settle Enqueue InboxEntry Queue.
From S2P Require Import View RunError RunKeys RunRecords StepEffects Runs RunCalls.
From S2P Require Import StepWorker.

Inductive RunFilter := FilterAll | FilterActive | FilterTerminated.

Inductive RunState :=
| RunPending
| RunScheduled (run_at_ms : Z)
| RunWaiting (timeout_at_ms : Z)
| RunWaitingForGroup (group_id : RunId) (timeout_at_ms : Z)
| RunRunning
| RunCancelling (reason : option string) (requested_at_ms : Z)
| RunDeadLettered
| RunTerminated (t : RunTermination).

Record RunStatus := mkRunStatus { status_run_id : RunId; status_state : RunState; status_step : StepRef }.
Record ListedRun := mkListedRun {
  listed_status : RunStatus;
  listed_submitted_at_ms : Z;
  listed_headers : gmap string string;
}.

(** [scheduled_state] and [active_state]. *)
Definition scheduled_state (job : JobRecord) : RunState :=
  let run_at_ms := default 0%Z (run_at job) in
  let group_id := n ← count_wait job; group_of_count_name n in
  match signal_wait job, group_id with
  | true, _ => RunWaiting run_at_ms
  | false, Some g => RunWaitingForGroup g run_at_ms
  | false, None => RunScheduled run_at_ms
  end.
Definition active_state (record : DurableRunRecord) (job : JobRecord) : RunState :=
  match status job, drr_cancel_request record with
  | Dead, _ => RunDeadLettered
  | _, Some request => RunCancelling (dcr_reason request) (dcr_requested_at_ms request)
  | Claimed, None => RunRunning
  | Scheduled, None => scheduled_state job
  | Pending, None | Done, None => RunPending
  end.

(** [listed_terminated]. *)
Definition listed_terminated (r : RunId) (t : DurableTermination) : ListedRun :=
  mkListedRun (mkRunStatus r (RunTerminated (public_termination t)) (public_step_ref (dt_final_step t)))
    (dt_submitted_at_ms t) (dt_headers t).

Section views.
  Context {DB : SlateDb} {RD : SlateReads} {OS : ObjectStore} {IS : EntryStore} {PJ : PathJoin}.
  Context {SR : Serde JobRecord} {SA : Serde JobAttempt} {SC : Serde CountRecord}.
  Context {EN : Env} {SH : Sha256} {UT : UlidText} {RT : Runtime}.
  Context {SD : Serde DurableRun} {SP : Serde DurableStepRef} {SM : Serde DurableMember}.
  (** The pages a listing reads at most. *)
  Context (page_fuel : nat).

Abbreviation Wf := (EIO WfError World).

(** [WorkflowView::listed_active], [listed], [run] and [status]. *)
Definition listed_active (r : RunId) (record : DurableRunRecord) : Wf (option ListedRun) :=
  current ← current_job r;
  mret (match current with
    | None => None
    | Some (current, job) =>
        Some (mkListedRun (mkRunStatus r (active_state record job) (public_step_ref current))
          (drr_submitted_at_ms record) (submitter_headers (headers job)))
    end).
Definition listed (r : RunId) (run : DurableRun) : Wf (option ListedRun) :=
  match run with
  | DTerminated t => mret (Some (listed_terminated r t))
  | DActive record =>
      active ← listed_active r record;
      match active with
      | Some l => mret (Some l)
      | None => t ← terminal_record r; mret (listed_terminated r <$> t)
      end
  end.
Definition run_of (r : RunId) : Wf (option ListedRun) :=
  entry ← run_entry r;
  match entry with Some run => listed r run | None => mret None end.
Definition run_status (r : RunId) : Wf (option RunStatus) :=
  l ← run_of r; mret (listed_status <$> l).

(** [WorkflowView::runs]: the entries of the pages, each resolved on its own. *)
Definition runs_prefix (f : RunFilter) : bytes :=
  match f with FilterActive => STEP_KV_PREFIX | _ => RUN_KV_PREFIX end.
Definition run_id_of_key (prefix key : bytes) : WfResult RunId :=
  RunId_new (match from_utf8 (drop (length prefix) key) with
    | Some s => s
    | None => lossy_text (drop (length prefix) key)
    end).
Definition listed_entry (f : RunFilter) (e : kv) : Wf (option ListedRun) :=
  r ← eio_result (run_id_of_key (runs_prefix f) e.1);
  match f with
  | FilterAll => run ← eio_result (durable_decode e.2); listed r run
  | FilterActive =>
      record ← run_record r;
      match record with Some record => listed_active r record | None => mret None end
  | FilterTerminated =>
      run ← eio_result (durable_decode e.2);
      mret (match run with DTerminated t => Some (listed_terminated r t) | DActive _ => None end)
  end.
Fixpoint listed_entries (f : RunFilter) (l : list kv) : Wf (list ListedRun) :=
  match l with
  | [] => mret []
  | e :: l =>
      run ← listed_entry f e;
      rest ← listed_entries f l;
      mret (match run with Some run => run :: rest | None => rest end)
  end.
Fixpoint runs_pages (fuel : nat) (f : RunFilter) (order : KvOrder) (page_size : nat)
    (cursor : option bytes) : Wf (list ListedRun) :=
  match fuel with
  | O => wf_unfinished
  | S fuel =>
      '(l, next) ← wf_view (λ h, kv_page (λ _, h) (runs_prefix f) (Unbounded, Unbounded) order page_size 0 cursor);
      runs ← listed_entries f l;
      match next with
      | None => mret runs
      | Some _ => rest ← runs_pages fuel f order page_size next; mret (runs ++ rest)
      end
  end.
Definition runs (f : RunFilter) (order : KvOrder) (page_size : nat) : Wf (list ListedRun) :=
  runs_pages page_fuel f order page_size None.

(** [WorkflowView::outcome_of] and [terminated_run]. *)
Definition outcome_of (r : RunId) (t : DurableTermination) : Wf (option TerminatedRun) :=
  let ended result := mkTerminatedRun r (public_termination t) result (dt_headers t) in
  match public_status (dt_status t), dt_result t with
  | Succeeded, Some ResultEmpty => mret (Some (ended (Some [])))
  | Succeeded, Some (ResultObject attempt) =>
      result ← get_result r (dsr_job_id (dt_final_step t)) attempt;
      match result with
      | Some result => mret (Some (ended (Some result)))
      | None => mret None
      end
  | Succeeded, None => eio_err (InconsistentRunState r)
  | Failed, _ | Cancelled, _ => mret (Some (ended None))
  end.
Definition terminated_run (r : RunId) : Wf (option TerminatedRun) :=
  t ← terminal_record r;
  match t with Some t => outcome_of r t | None => mret None end.

(** [WorkflowView::run_kv] and [run_kv_entries]. *)
Definition run_kv (r : RunId) (key : bytes) : Wf (option bytes) :=
  wf_view (λ h, kv_get h (run_kv_entry_key r key)).
Definition run_kv_entries (r : RunId) (page_size : nat) : Wf (list kv) :=
  l ← wf_pages page_fuel RUN_KV_ENTRY_PREFIX (range_bounds (run_kv_entries_range r)) page_size None;
  mret (map (λ e : kv, (drop (length (run_kv_entries_prefix r)) e.1, e.2)) l).

(** [RuntimeCore::wait_run]: a turn waits for the job of the current step, and a step that
    is dead and still the current one is polled. *)
Fixpoint wait_run_loop (fuel : nat) (r : RunId) : Wf (option TerminatedRun) :=
  match fuel with
  | O => wf_unfinished
  | S fuel =>
      current ← current_job r;
      match current with
      | None => terminated_run r
      | Some (current, _) =>
          outcome ← lift_q (wait_for_completion (dsr_job_id current));
          match outcome with
          | WaitDead _ =>
              step ← current_step_if_active r;
              let unreconciled := match step with
                | Some step => bool_decide (dsr_job_id step = dsr_job_id current)
                | None => false
                end in
              _ ← (if unreconciled then lift_q yield else mret tt);
              wait_run_loop fuel r
          | WaitDone _ | WaitCancelled | WaitNotFound => wait_run_loop fuel r
          end
      end
  end.

(** A turn reads the store, where another task runs, so that a turn after the last of
    the other tasks is like every turn that follows it. *)
Definition wait_run (r : RunId) : Wf (option TerminatedRun) :=
  λ w, wait_run_loop (S (length (others w))) r w.

(** [RuntimeCore::wait]. *)
Definition wait (r : RunId) : Wf TerminatedRun :=
  t ← wait_run r;
  match t with Some t => mret t | None => eio_err (RunNotFound r) end.

End views.
