(* ===== verification/Groups.v ===== *)
(** * Run groups (taquba-workflow/src/group.rs)

    A set of runs submitted as one: the manifest, the member records, the
    submission and the resumption of members, the cancellation, the status and the
    removal of a group. *)
From Stdlib Require Import Ascii.
From S2P Require Import Prelude Bytes Error Monad Keys Job Store Stats LeaseRegistry.
From S2P Require Import TimeBound ClaimCursor Completion Txn Core QueueCore.
From S2P Require Import Control Effects Claim Settle Enqueue Sweeps.
From S2P Require Import InboxEntry Queue View RunError RunKeys RunRecords StepEffects.
From S2P Require Import Runs RunCalls StepWorker RunSweeps RunViews.

Definition MEMBER_PAGE_SIZE : nat := 1000.

Record GroupMember := mkGroupMember {
  gm_key : string;
  gm_input : bytes;
  gm_max_attempts : option Z;
}.
Record Manifest := mkManifest {
  mf_group_id : RunId;
  mf_members : list GroupMember;
  mf_owner : option OwnerRef;
}.
Record GroupStatus := mkGroupStatus {
  gs_group_id : RunId;
  gs_total : nat;
  gs_pending : nat;
  gs_succeeded : nat;
  gs_failed : nat;
  gs_cancelled : nat;
}.
Record MemberState := mkMemberState { ms_key : string; ms_record : DurableMember }.
Record MemberResult := mkMemberResult { mr_key : string; mr_outcome : TerminatedRun }.
Record RemovedMember := mkRemovedMember {
  rm_key : option string;
  rm_stored : option bytes;
  rm_record : option DurableMember;
}.

(** ** Run ids of members *)

Section ids.
  Context {SH : Sha256}.

(** [RunId::digest]; the text of a digest is a run id. *)
Definition run_id_of_digest (parts : list bytes) : WfResult RunId :=
  match RunId_new (hex_sha256 parts) with Ok r => Ok r | Err _ => Err (WfQueue Panicked) end.

(** [member_run_id]; the error is its [expect]. *)
Definition member_run_id (g : RunId) (key : string) (rerun : Z) : WfResult RunId :=
  first ← run_id_of_digest [rid_bytes g; as_bytes "/"; as_bytes key];
  if decide (rerun = 0%Z) then Ok first
  else match RunId_new (rid_str first +:+ "-r" +:+ dec_text rerun) with
    | Ok r => Ok r
    | Err _ => Err (WfQueue Panicked)
    end.

(** The text after the last occurrence of [p]: [rsplit_once]. *)
Fixpoint after_last (p s : string) : option string :=
  match s with
  | EmptyString => None
  | String a s' => match after_last p s' with Some x => Some x | None => str_strip_prefix p s end
  end.

(** [rerun_of] and [submission_run_id]. *)
Definition rerun_of (r : RunId) : Z := default 0%Z (after_last "-r" (rid_str r) ≫= parse_u32).
Definition submission_run_id (g : RunId) (key : string) (record : option DurableMember)
    : WfResult (option RunId) :=
  match record with
  | None => Some <$> member_run_id g key 0
  | Some record =>
      match dm_terminated record with
      | None => Ok (Some (dm_run_id record))
      | Some t =>
          if decide (public_status (dt_status t) = Succeeded) then Ok None
          else Some <$> member_run_id g key (wrap32 (rerun_of (dm_run_id record) + 1))
      end
  end.

(** [RemovedMember::run_ids]: [(0..=last).map(member_run_id)]. *)
Fixpoint member_run_ids (g : RunId) (key : string) (from : Z) (count : nat) : WfResult (list RunId) :=
  match count with
  | O => Ok []
  | S count =>
      r ← member_run_id g key from;
      rest ← member_run_ids g key (from + 1) count;
      Ok (r :: rest)
  end.
Definition removed_run_ids (g : RunId) (m : RemovedMember) : WfResult (list RunId) :=
  match rm_key m with
  | None => Ok []
  | Some key =>
      let last := match rm_record m with Some record => rerun_of (dm_run_id record) | None => 0%Z end in
      member_run_ids g key 0 (Z.to_nat (last + 1))
  end.

End ids.

(** [MemberState::status]. *)
Definition member_status (m : MemberState) : option TerminalStatus :=
  (λ t, public_status (dt_status t)) <$> dm_terminated (ms_record m).

(** [GroupMember::identity]. *)
Definition identity (m : GroupMember) : string * bytes := (gm_key m, gm_input m).

(** A [BTreeMap] keyed by bytes: [insert] and [entry]. *)
Fixpoint bt_alter {V} (k : bytes) (f : option V → V) (l : list (bytes * V)) : list (bytes * V) :=
  match l with
  | [] => [(k, f None)]
  | (k', v) :: l =>
      if bytes_lt k k' then (k, f None) :: (k', v) :: l
      else if decide (k = k') then (k, f (Some v)) :: l
      else (k', v) :: bt_alter k f l
  end.

(** [Removal::any_member]. *)
Definition any_member (test : DurableMember → bool) (removal : list (bytes * RemovedMember)) : bool :=
  existsb test (omap rm_record removal.*2).

(** The counts of [WorkflowView::group_status]. *)
Definition count_member (s : GroupStatus) (m : MemberState) : GroupStatus :=
  match member_status m with
  | None => mkGroupStatus (gs_group_id s) (gs_total s) (S (gs_pending s)) (gs_succeeded s) (gs_failed s) (gs_cancelled s)
  | Some Succeeded => mkGroupStatus (gs_group_id s) (gs_total s) (gs_pending s) (S (gs_succeeded s)) (gs_failed s) (gs_cancelled s)
  | Some Failed => mkGroupStatus (gs_group_id s) (gs_total s) (gs_pending s) (gs_succeeded s) (S (gs_failed s)) (gs_cancelled s)
  | Some Cancelled => mkGroupStatus (gs_group_id s) (gs_total s) (gs_pending s) (gs_succeeded s) (gs_failed s) (S (gs_cancelled s))
  end.

(** The first key that occurs again: the loop over [seen] of [RunGroup::submit]. *)
Fixpoint duplicate_key (seen : list string) (l : list GroupMember) : option string :=
  match l with
  | [] => None
  | m :: l => if decide (gm_key m ∈ seen) then Some (gm_key m) else duplicate_key (gm_key m :: seen) l
  end.

Section groups.
  Context {DB : SlateDb} {RD : SlateReads} {OS : ObjectStore} {IS : EntryStore} {PJ : PathJoin}.
  Context {SR : Serde JobRecord} {SA : Serde JobAttempt} {SC : Serde CountRecord}.
  Context {EN : Env} {SH : Sha256} {UT : UlidText} {RT : Runtime}.
  Context {SD : Serde DurableRun} {SP : Serde DurableStepRef} {SM : Serde DurableMember}.
  Context {SQ : Serde (list string)} {SF : Serde Manifest}.
  (** The pages a listing reads at most. *)
  Context (page_fuel : nat).

Abbreviation Wf := (EIO WfError World).

(** ** The store of groups *)

Definition manifest_path (g : RunId) : string := blob_path ("groups/" +:+ rid_str g +:+ "/manifest").
Definition read_manifest (g : RunId) : Wf (option Manifest) :=
  b ← blob_get (manifest_path g);
  match b with
  | Some b => m ← eio_result (durable_decode b); mret (Some m)
  | None => mret None
  end.
Definition write_manifest (m : Manifest) : Wf () :=
  blob_put (manifest_path (mf_group_id m)) (durable_encode m).

Definition group_member (g : RunId) (key : string) : Wf (option DurableMember) :=
  kv_record (group_member_kv_key g key).

(** The key of a member record within the prefix of its group. *)
Definition member_of_key (prefix key : bytes) : string :=
  match from_utf8 (drop (length prefix) key) with
  | Some s => s
  | None => lossy_text (drop (length prefix) key)
  end.
Definition group_entries (g : RunId) : Wf (list kv) :=
  wf_pages page_fuel (group_members_kv_prefix g) (Unbounded, Unbounded) MEMBER_PAGE_SIZE None.
Definition read_members (g : RunId) : Wf (list MemberState) :=
  l ← group_entries g;
  mret (omap (λ e : kv, mkMemberState (member_of_key (group_members_kv_prefix g) e.1)
    <$> decode_or_absent e.2) l).

(** [WorkflowView::group_status]. *)
Definition group_status (g : RunId) : Wf (option GroupStatus) :=
  manifest ← read_manifest g;
  match manifest with
  | None => mret None
  | Some m =>
      members ← read_members g;
      mret (Some (foldl count_member (mkGroupStatus g (length (mf_members m)) 0 0 0 0) members))
  end.

(** [RunGroup::status]. *)
Definition status_of_group (g : RunId) : Wf GroupStatus :=
  s ← group_status g;
  match s with Some s => mret s | None => eio_err (GroupNotFound g) end.

(** ** Removal *)

(** [GroupStore::removal]. *)
Definition removal (g : RunId) : Wf (list (bytes * RemovedMember)) :=
  manifest ← read_manifest g;
  let members := match manifest with
    | Some m => foldl (λ l m, bt_alter (group_member_kv_key g (gm_key m))
        (λ _, mkRemovedMember (Some (gm_key m)) None None) l) [] (mf_members m)
    | None => []
    end in
  l ← group_entries g;
  mret (foldl (λ members (e : kv), bt_alter e.1
    (λ m, mkRemovedMember (m ≫= rm_key) (Some e.2) (decode_or_absent e.2)) members) members l).

(** The run ids of members, and their keys that a removal deletes. *)
Fixpoint all_run_ids (g : RunId) (l : list (bytes * RemovedMember)) : WfResult (list RunId) :=
  match l with
  | [] => Ok []
  | (_, m) :: l => rs ← removed_run_ids g m; rest ← all_run_ids g l; Ok (rs ++ rest)
  end.
Fixpoint runs_keys (rs : list RunId) : Wf (list bytes) :=
  match rs with
  | [] => mret []
  | r :: rs =>
      keys ← run_swept_keys page_fuel r;
      rest ← runs_keys rs;
      mret (keys ++ [run_kv_key r] ++ rest)
  end.

(** [GroupStore::remove]: the pages of members, each in a transaction guarded by their
    records, then the objects. *)
Definition remove_page (g : RunId) (page : list (bytes * RemovedMember)) : Wf bool :=
  let compares := map (λ e : bytes * RemovedMember, mkCompare e.1 (rm_stored e.2)) page in
  let deletes := omap (λ e : bytes * RemovedMember,
    if decide (is_Some (rm_stored e.2)) then Some e.1 else None) page in
  rs ← eio_result (all_run_ids g page);
  keys ← runs_keys rs;
  committed ← eio_try (lift_q (commit_effects (mkEffects compares None [] ∅ (deletes ++ keys) [] ∅)));
  match committed with
  | Ok _ => mret true
  | Err (WfQueue (KvCompareFailed _)) => mret false
  | Err e => eio_err e
  end.
Fixpoint remove_pages (g : RunId) (pages : list (list (bytes * RemovedMember))) : Wf bool :=
  match pages with
  | [] => mret true
  | page :: pages =>
      removed ← remove_page g page;
      if removed : bool then remove_pages g pages else mret false
  end.
Fixpoint clear_runs (rs : list RunId) : Wf () :=
  match rs with
  | [] => mret tt
  | r :: rs => _ ← clear_memos_for_run r; clear_runs rs
  end.
Definition group_remove (g : RunId) (members : list (bytes * RemovedMember)) : Wf bool :=
  removed ← remove_pages g (chunks (length members) MEMBER_PAGE_SIZE members);
  if removed : bool then
    rs ← eio_result (all_run_ids g members);
    _ ← clear_runs rs;
    _ ← blob_delete (manifest_path g);
    mret true
  else mret false.

(** [GroupStore::forget]. *)
Definition group_forget (g : RunId) : Wf () :=
  members ← removal g;
  if any_member (λ m, bool_decide (dm_terminated m = None)) members then eio_err (GroupActive g)
  else
    removed ← group_remove g members;
    if removed : bool then mret tt else eio_err (GroupActive g).

(** [Clearable::clear] of a group. *)
Definition clear_group (g : RunId) (marked_at_ms : Z) : Wf Cleared :=
  members ← removal g;
  let superseded := any_member (λ m, match dm_terminated m with
    | None => true
    | Some t => (marked_at_ms <? dt_terminated_at_ms t)%Z
    end) members in
  if superseded : bool then mret Superseded
  else
    removed ← group_remove g members;
    mret (if removed : bool then ClearedRemoved [] else Superseded).

(** ** The group *)

(** [RunGroup::submit_members], one member after the other; the code keeps up to 100
    of them in flight. *)
Fixpoint submit_members (g : RunId) (records : gmap string DurableMember) (options : RunOptions)
    (l : list GroupMember) : Wf () :=
  match l with
  | [] => mret tt
  | m :: l =>
      r ← eio_result (submission_run_id g (gm_key m) (records !! gm_key m));
      _ ← (match r with
        | None => mret tt
        | Some r =>
            _ ← submit_member (mkMembership g (gm_key m))
              (mkRunSpec (Some r) (gm_input m)
                (mkRunOptions (ro_headers options) (ro_priority options)
                  (match ro_max_attempts_per_step options with
                   | Some n => Some n
                   | None => gm_max_attempts m
                   end) (ro_run_at options) (ro_owner options)) effects_default);
            mret tt
        end : Wf ());
      submit_members g records options l
  end.
Definition member_records (g : RunId) : Wf (gmap string DurableMember) :=
  members ← read_members g;
  mret (foldl (λ records m, <[ms_key m := ms_record m]> records) ∅ members).

(** [RunGroup::submit] and [RunGroup::resume]. *)
Definition group_submit (g : RunId) (members : list GroupMember) (options : RunOptions) : Wf () :=
  match duplicate_key [] members with
  | Some key => eio_err (DuplicateMemberKey key)
  | None =>
      existing ← read_manifest g;
      _ ← (match existing with
        | Some existing =>
            if decide (map identity (mf_members existing) = map identity members) then mret tt
            else eio_err (GroupMismatch g)
        | None => write_manifest (mkManifest g members (own_run <$> ro_owner options))
        end : Wf ());
      records ← member_records g;
      submit_members g records options members
  end.
Definition group_manifest (g : RunId) : Wf Manifest :=
  m ← read_manifest g;
  match m with Some m => mret m | None => eio_err (GroupNotFound g) end.
Definition group_resume (g : RunId) (options : RunOptions) : Wf () :=
  manifest ← group_manifest g;
  let owner := match ro_owner options with
    | Some o => Some o
    | None => (λ run, mkOwner run true None) <$> mf_owner manifest
    end in
  let options := mkRunOptions (ro_headers options) (ro_priority options)
    (ro_max_attempts_per_step options) (ro_run_at options) owner in
  records ← member_records g;
  submit_members g records options (mf_members manifest).

(** [RunGroup::cancel], one member after the other. *)
Fixpoint cancel_members (reason : option string) (l : list MemberState) (cancelled : nat) : Wf nat :=
  match l with
  | [] => mret cancelled
  | m :: l =>
      outcome ← cancel_run (dm_run_id (ms_record m)) reason;
      cancel_members reason l (match outcome with RunNotActive => cancelled | _ => S cancelled end)
  end.
Definition group_cancel (g : RunId) (reason : option string) : Wf nat :=
  members ← read_members g;
  cancel_members reason (List.filter (λ m, bool_decide (member_status m = None)) members) 0.

(** [RunGroup::missing_member] and [RunGroup::member_result]. *)
Definition missing_member (g : RunId) (key : string) : Wf WfError :=
  manifest ← eio_try (group_manifest g);
  mret (match manifest with
    | Err e => e
    | Ok manifest =>
        if existsb (λ m, bool_decide (gm_key m = key)) (mf_members manifest)
        then MemberNotSubmitted g key else MemberNotFound g key
    end).
Definition member_result (m : MemberState) : Wf MemberResult :=
  let r := dm_run_id (ms_record m) in
  match dm_terminated (ms_record m) with
  | None => eio_err (InconsistentRunState r)
  | Some t =>
      outcome ← outcome_of r t;
      match outcome with
      | Some outcome => mret (mkMemberResult (ms_key m) outcome)
      | None => eio_err (RunNotFound r)
      end
  end.

(** [RunGroup::mark_terminated]. *)
Definition mark_terminated (g : RunId) : Wf () :=
  match group_sweep with
  | None => mret tt
  | Some sweep =>
      now ← lift_q now_ms;
      _ ← lift_q (commit_effects (sweep_mark sweep effects_default g now));
      mret tt
  end.

(** ** Waits for members *)

(** [RunGroup::wait_member]. *)
Definition submitted_member (g : RunId) (key : string) : Wf DurableMember :=
  m ← group_member g key;
  match m with Some m => mret m | None => eio_err (MemberNotSubmitted g key) end.
Definition wait_member (g : RunId) (key : string) : Wf DurableMember :=
  record ← submitted_member g key;
  if decide (is_Some (dm_terminated record)) then mret record
  else
    _ ← wait_run (dm_run_id record);
    again ← submitted_member g key;
    if decide (is_Some (dm_terminated again)) then mret again
    else eio_err (InconsistentRunState (dm_run_id record)).

(** [RunGroup::terminations] and [RunGroup::results], read to the end: the waits of the
    members end in an order that the other tasks determine, [done], and then the
    marker is written, whose error is logged. *)
Fixpoint member_results (g : RunId) (done : list string) : Wf (list MemberResult) :=
  match done with
  | [] => _ ← eio_try (mark_terminated g); mret []
  | key :: done =>
      record ← wait_member g key;
      result ← member_result (mkMemberState key record);
      rest ← member_results g done;
      mret (result :: rest)
  end.
Definition group_results (g : RunId) (order : list string → list string) : Wf (list MemberResult) :=
  manifest ← group_manifest g;
  member_results g (order (map gm_key (mf_members manifest))).

(** [RunGroup::result]. *)
Definition group_result (g : RunId) (key : string) : Wf MemberResult :=
  record ← eio_try (wait_member g key);
  match record with
  | Err (MemberNotSubmitted _ _) => e ← missing_member g key; eio_err e
  | Err e => eio_err e
  | Ok record => member_result (mkMemberState key record)
  end.

End groups.
