(* ===== verification/Jobs.v ===== *)
(** * Typed jobs (taquba-workflow/src/jobs/)

    A job of a type of the user is a run of one step: its payload has the name and the
    encoding of the job, the step runner finds the handler of the name, and the result
    of the run is the encoding of the output. The type of a job, with its encodings and
    its handler, is an interface that the user implements. *)
From S2P Require Import Prelude Bytes Error Monad Keys Job Store Stats LeaseRegistry.
From S2P Require Import TimeBound ClaimCursor Completion Txn Core QueueCore.
From S2P Require Import Control Effects Claim Settle Enqueue InboxEntry Queue.
From S2P Require Import View RunError RunKeys RunRecords StepEffects Runs RunCalls.
From S2P Require Import StepWorker Commands RunSweeps RunViews Groups.

(** ** Application state (jobs/context.rs)

    A value of any type is stored under the id of its type, and read back by a downcast
    to that type. *)
Class AnyValue (Any T : Type) := {
  type_id : positive;
  to_any : T → Any;
  downcast_ref : Any → option T;
  downcast_to_any (x : T) : downcast_ref (to_any x) = Some x;
}.
#[global] Arguments type_id : clear implicits.
#[global] Arguments type_id Any T {_}.

Section state.
  Context {Any : Type}.

Record State := mkState { state_map : gmap positive Any }.

Definition state_default : State := mkState ∅.
(** [State::insert] and [State::get]. *)
Definition state_insert {T} `{!AnyValue Any T} (value : T) (s : State) : State :=
  mkState (<[type_id Any T := to_any value]> (state_map s)).
Definition state_get {T} `{!AnyValue Any T} (s : State) : option T :=
  state_map s !! type_id Any T ≫= downcast_ref.

(** A value that was registered is found under its type. *)
Lemma state_get_insert {T} `{!AnyValue Any T} (x : T) s : state_get (state_insert x s) = Some x.
Proof using Type. unfold state_get. cbn. rewrite lookup_insert_eq. apply downcast_to_any. Qed.
End state.
#[global] Arguments State : clear implicits.

(** ** Job types (jobs/job.rs)

    [Job], with the encodings that [rmp_serde] derives, whose errors are their texts.
    The handler stages effects through the handle of its delivery. *)
Class JobType {DB : SlateDb} {OS : ObjectStore} (Any J : Type) := {
  job_name : string;
  job_output : Type;
  job_error : Type;
  job_to_vec : J → result string bytes;
  job_from_slice : bytes → result string J;
  output_to_vec : job_output → result string bytes;
  output_from_slice : bytes → result string job_output;
  job_run : J → State Any → Step → World → (result job_error job_output * list HandleOp) * World;
  job_error_text : job_error → string;
  job_idempotency_key : J → option string;
  job_max_attempts : J → option Z;
  job_classify : J → job_error → StepErrorKind;
}.
#[global] Arguments job_name {DB OS} Any J {_} : assert.
#[global] Arguments job_output {DB OS} Any J {_} : assert.
#[global] Arguments job_error {DB OS} Any J {_} : assert.
#[global] Arguments output_to_vec {DB OS} Any J {_} _ : assert.
#[global] Arguments output_from_slice {DB OS} Any J {_} _ : assert.
#[global] Arguments job_from_slice {DB OS} Any J {_} _ : assert.
#[global] Arguments job_error_text {DB OS} Any J {_} _ : assert.
#[global] Arguments job_to_vec {DB OS} Any {J _} _ : assert.
#[global] Arguments job_idempotency_key {DB OS} Any {J _} _ : assert.
#[global] Arguments job_max_attempts {DB OS} Any {J _} _ : assert.
#[global] Arguments job_classify {DB OS} Any {J _} _ _ : assert.

(** The documentation of the trait: a job type round-trips through [serde]. *)
Class JobTypeLaws {DB : SlateDb} {OS : ObjectStore} (Any J : Type) {JT : JobType Any J} : Prop := {
  job_round_trip (j : J) b : job_to_vec Any j = Ok b → job_from_slice Any J b = Ok j;
  output_round_trip o b : output_to_vec Any J o = Ok b → output_from_slice Any J b = Ok o;
  output_nonempty o b : output_to_vec Any J o = Ok b → b ≠ [];
}.

(** The default methods of the trait. *)
Definition default_idempotency_key {J} (_ : J) : option string := None.
Definition default_max_attempts {J} (_ : J) : option Z := None.
Definition default_classify {J E} (_ : J) (_ : E) : StepErrorKind := Transient.

Record JobPayload := mkJobPayload { jp_name : string; jp_input : bytes }.

Record JobError := mkJobError { je_kind : StepErrorKind; je_message : string }.
Inductive JoinError := JoinInfra (e : WfError) | JoinJob (e : JobError).
Record JobHandle := mkJobHandle { jh_id : RunId; jh_newly_submitted : bool }.

(** ** The runner (jobs/runner.rs) *)

Section jobs.
  Context {DB : SlateDb} {OS : ObjectStore}.
  Context {Any : Type} {SJ : Serde JobPayload} {SH : Sha256}.
  (** The text of the error of a payload that does not decode. *)
  Context (decode_error : bytes → string).

Definition DEFAULT_JOBS_QUEUE_NAME : string := "jobs".

(** [run_id_for_key], [job_payload] and [payload_idempotency_key]. *)
Definition run_id_for_key (key : string) : WfResult RunId := run_id_of_digest [as_bytes key].
Definition encoded {A} (r : result string A) : WfResult A :=
  match r with Ok a => Ok a | Err e => Err (WfSerialization e) end.
Definition job_payload {J} `{!JobType Any J} (job : J) : WfResult bytes :=
  input ← encoded (job_to_vec Any job);
  Ok (durable_encode (mkJobPayload (job_name Any J) input)).
Definition payload_idempotency_key {J} `{!JobType Any J} (job : J) : WfResult string :=
  b ← encoded (job_to_vec Any job);
  Ok (job_name Any J +:+ ":" +:+ hex_sha256 [b]).

(** What a step returns: the outcome, after the effects it staged. *)
Definition StepResult : Type := (result StepError StepOutcome * list HandleOp) * World.

(** [run_typed], the [dispatch] of a [TypedHandler]. *)
Definition Handler : Type := State Any → Step → bytes → World → StepResult.
Definition run_typed (J : Type) `{!JobType Any J} : Handler := λ state step input w,
  match job_from_slice Any J input with
  | Err e => ((Err (step_error_permanent ("invalid input for `" +:+ job_name Any J +:+ "`: " +:+ e)), []), w)
  | Ok job =>
      match job_run job state step w with
      | ((Err e, ops), w) => ((Err (mkStepError (job_error_text Any J e) (job_classify Any job e)), ops), w)
      | ((Ok output, ops), w) =>
          match output_to_vec Any J output with
          | Err e => ((Err (step_error_permanent ("`" +:+ job_name Any J +:+
              "` produced an output that failed to serialize: " +:+ e)), ops), w)
          | Ok result => ((Ok (Succeed result), ops), w)
          end
      end
  end.

(** [Dispatch] and its [run_step]. *)
Record Dispatch := mkDispatch { handlers : gmap string Handler; dispatch_state : State Any }.
Definition dispatch_step (d : Dispatch) (step : Step) : World → StepResult := λ w,
  match decode_or_absent (st_payload step) with
  | None =>
      ((Err (step_error_permanent ("job " +:+ rid_str (st_run_id step) +:+ " has a malformed payload: "
        +:+ decode_error (st_payload step))), []), w)
  | Some p =>
      match handlers d !! jp_name p with
      | None => ((Err (step_error_permanent ("no handler registered for job type `" +:+ jp_name p +:+ "`")), []), w)
      | Some handler => handler (dispatch_state d) step (jp_input p) w
      end
  end.

(** [JobRunnerBuilder], with its setters and [register], which panics on a second type
    of a name. *)
Record JobRunnerBuilder := mkJobBuilder {
  jb_queue_name : string;
  jb_memo_prefix : option string;
  jb_handlers : gmap string Handler;
  jb_state : State Any;
  jb_concurrency : option nat;
  jb_poll_interval : option Duration;
  jb_retention : option Duration;
  jb_group_retention : option Duration;
}.
Definition job_builder_new : JobRunnerBuilder :=
  mkJobBuilder DEFAULT_JOBS_QUEUE_NAME None ∅ state_default None None None None.
Definition register_job (J : Type) `{!JobType Any J} (b : JobRunnerBuilder) : option JobRunnerBuilder :=
  match jb_handlers b !! job_name Any J with
  | Some _ => None
  | None => Some (mkJobBuilder (jb_queue_name b) (jb_memo_prefix b)
      (<[job_name Any J := run_typed J]> (jb_handlers b)) (jb_state b) (jb_concurrency b)
      (jb_poll_interval b) (jb_retention b) (jb_group_retention b))
  end.
Definition jb_with_queue_name (n : string) (b : JobRunnerBuilder) : JobRunnerBuilder :=
  mkJobBuilder n (jb_memo_prefix b) (jb_handlers b) (jb_state b) (jb_concurrency b) (jb_poll_interval b)
    (jb_retention b) (jb_group_retention b).
Definition jb_with_memo_prefix (p : string) (b : JobRunnerBuilder) : JobRunnerBuilder :=
  mkJobBuilder (jb_queue_name b) (Some p) (jb_handlers b) (jb_state b) (jb_concurrency b) (jb_poll_interval b)
    (jb_retention b) (jb_group_retention b).
Definition jb_with_state {T} `{!AnyValue Any T} (value : T) (b : JobRunnerBuilder) : JobRunnerBuilder :=
  mkJobBuilder (jb_queue_name b) (jb_memo_prefix b) (jb_handlers b) (state_insert value (jb_state b))
    (jb_concurrency b) (jb_poll_interval b) (jb_retention b) (jb_group_retention b).
(** The setter panics on 0. *)
Definition jb_with_max_concurrent_jobs (n : nat) (b : JobRunnerBuilder) : option JobRunnerBuilder :=
  if decide (n = 0) then None
  else Some (mkJobBuilder (jb_queue_name b) (jb_memo_prefix b) (jb_handlers b) (jb_state b) (Some n)
    (jb_poll_interval b) (jb_retention b) (jb_group_retention b)).
Definition jb_with_poll_interval (d : Duration) (b : JobRunnerBuilder) : JobRunnerBuilder :=
  mkJobBuilder (jb_queue_name b) (jb_memo_prefix b) (jb_handlers b) (jb_state b) (jb_concurrency b) (Some d)
    (jb_retention b) (jb_group_retention b).
Definition jb_with_retention (d : Duration) (b : JobRunnerBuilder) : JobRunnerBuilder :=
  mkJobBuilder (jb_queue_name b) (jb_memo_prefix b) (jb_handlers b) (jb_state b) (jb_concurrency b)
    (jb_poll_interval b) (Some d) (jb_group_retention b).
Definition jb_with_group_retention (d : Duration) (b : JobRunnerBuilder) : JobRunnerBuilder :=
  mkJobBuilder (jb_queue_name b) (jb_memo_prefix b) (jb_handlers b) (jb_state b) (jb_concurrency b)
    (jb_poll_interval b) (jb_retention b) (Some d).

(** [JobRunnerBuilder::build]: the runner and the builder of its runtime, which has no
    hook and no control queue, so that it passes the checks of a build. *)
Definition job_dispatch (b : JobRunnerBuilder) : Dispatch := mkDispatch (jb_handlers b) (jb_state b).
Definition job_runtime_builder (b : JobRunnerBuilder) : WorkflowRuntimeBuilder :=
  let r := with_queue_name (jb_queue_name b) runtime_builder in
  let r := match jb_memo_prefix b with Some p => with_memo_prefix p r | None => r end in
  let r := match jb_concurrency b with Some n => default r (with_max_concurrent_steps n r) | None => r end in
  let r := match jb_poll_interval b with Some d => with_poll_interval d r | None => r end in
  let r := match jb_retention b with Some d => with_memo_retention d r | None => r end in
  match jb_group_retention b with Some d => with_group_retention d r | None => r end.

Lemma job_runtime_builds {EN : Env} mb gb qt ot dt lt inbox b :
  build mb gb qt ot dt lt inbox (job_runtime_builder b) = Ok (parts mb gb qt ot dt lt (job_runtime_builder b)).
Proof using Type.
  unfold job_runtime_builder, with_max_concurrent_steps.
  destruct b as [n [p|] h s [c|] [i|] [r|] [g|]]; cbn; try done; by case_decide.
Qed.

(** ** The result of a job (jobs/handle.rs) *)

(** [decode_end]. *)
Definition decode_end (J : Type) `{!JobType Any J} (outcome : TerminatedRun)
    : WfResult (result JobError (job_output Any J)) :=
  let t := tr_termination outcome in
  if decide (rt_status t = Succeeded) then
    match output_from_slice Any J (default [] (tr_result outcome)) with
    | Ok output => Ok (Ok output)
    | Err e => Err (WfDeserialization e)
    end
  else
    let message := default ("job " +:+ status_str (rt_status t)) (rt_error t) in
    Ok (Err (mkJobError (default Transient (rt_error_kind t)) message)).

(** [JobHandle::into_future], of what [join] returned. *)
Definition join_result {A} (r : WfResult (result JobError A)) : result JoinError A :=
  match r with
  | Ok (Ok output) => Ok output
  | Ok (Err e) => Err (JoinJob e)
  | Err e => Err (JoinInfra e)
  end.

Section calls.
  Context {RD : SlateReads} {IS : EntryStore} {PJ : PathJoin}.
  Context {SR : Serde JobRecord} {SA : Serde JobAttempt} {SC : Serde CountRecord}.
  Context {EN : Env} {UT : UlidText} {RT : Runtime}.
  Context {SD : Serde DurableRun} {SP : Serde DurableStepRef} {SM : Serde DurableMember}.
  Context {SQ : Serde (list string)} {SF : Serde Manifest}.
  Context (page_fuel : nat).
  Context (J : Type) `{!JobType Any J}.

Abbreviation Wf := (EIO WfError World).

(** [JobRunner::submit_with] and [JobRunner::submit]. *)
Definition job_options (job : J) (o : RunOptions) : RunOptions :=
  mkRunOptions (ro_headers o) (ro_priority o)
    (match ro_max_attempts_per_step o with Some n => Some n | None => job_max_attempts Any job end)
    (ro_run_at o) (ro_owner o).
Definition job_submit_with (job : J) (options : RunOptions) : Wf JobHandle :=
  payload ← eio_result (job_payload job);
  run_id ← eio_result (match job_idempotency_key Any job with
    | Some key => Some <$> run_id_for_key key
    | None => Ok None
    end);
  outcome ← submit (mkRunSpec run_id payload (job_options job options) effects_default);
  mret (mkJobHandle (sm_run_id outcome) (newly_submitted outcome)).
Definition run_options_default : RunOptions := mkRunOptions ∅ None None None None.
Definition job_submit (job : J) : Wf JobHandle := job_submit_with job run_options_default.

(** [JobHandle::status], [fetch_result] and [join]. *)
Definition job_status (h : JobHandle) : Wf (option RunStatus) := run_status (jh_id h).
Definition fetch_result (h : JobHandle) : Wf (option (result JobError (job_output Any J))) :=
  t ← terminated_run (jh_id h);
  match t with
  | Some t => r ← eio_result (decode_end J t); mret (Some r)
  | None => mret None
  end.
Definition job_join (h : JobHandle) : Wf (result JobError (job_output Any J)) :=
  t ← wait (jh_id h); eio_result (decode_end J t).

(** ** Groups of jobs (jobs/group.rs) *)

Record GroupResult := mkGroupResult { gr_key : string; gr_result : result JobError (job_output Any J) }.

(** The members of a submission: [submit_with]. *)
Definition group_key (i : nat) (job : J) : string :=
  default ("item-" +:+ dec_text (Z.of_nat i)) (job_idempotency_key Any job).
Fixpoint job_members (i : nat) (jobs : list J) : WfResult (list GroupMember) :=
  match jobs with
  | [] => Ok []
  | job :: jobs =>
      input ← job_payload job;
      rest ← job_members (S i) jobs;
      Ok (mkGroupMember (group_key i job) input (job_max_attempts Any job) :: rest)
  end.
Definition job_group_submit (g : RunId) (jobs : list J) (options : RunOptions) : Wf () :=
  members ← eio_result (job_members 0 jobs);
  group_submit page_fuel g members options.
Definition job_group_resume (g : RunId) (options : RunOptions) : Wf () := group_resume page_fuel g options.

(** [results], read to its end, and [result]. *)
Fixpoint decode_members (l : list MemberResult) : WfResult (list GroupResult) :=
  match l with
  | [] => Ok []
  | m :: l =>
      r ← decode_end J (mr_outcome m);
      rest ← decode_members l;
      Ok (mkGroupResult (mr_key m) r :: rest)
  end.
Definition job_group_results (g : RunId) (order : list string → list string) : Wf (list GroupResult) :=
  l ← group_results g order; eio_result (decode_members l).
Definition job_group_result (g : RunId) (key : string) : Wf GroupResult :=
  m ← group_result g key;
  r ← eio_result (decode_end J (mr_outcome m));
  mret (mkGroupResult (mr_key m) r).

(** [join]: the results in the order of the manifest, each taken from the map of the
    results by key. *)
Fixpoint in_order (members : list GroupMember) (by_key : gmap string (result JobError (job_output Any J)))
    : list GroupResult :=
  match members with
  | [] => []
  | m :: members =>
      match by_key !! gm_key m with
      | Some r => mkGroupResult (gm_key m) r :: in_order members (delete (gm_key m) by_key)
      | None => in_order members by_key
      end
  end.
Definition job_group_join (g : RunId) (order : list string → list string) : Wf (list GroupResult) :=
  manifest ← group_manifest g;
  results ← job_group_results g order;
  mret (in_order (mf_members manifest) (foldl (λ m r, <[gr_key r := gr_result r]> m) ∅ results)).
End calls.
End jobs.
