(* ===== verification/StepFacts.v ===== *)
(** * What the runtime reads back

    The headers of a step job name its run, the ids of the runs of a member name their
    rerun, and a stored outcome is the one that is replayed. *)
From stdpp Require Import pretty.
From Stdlib Require Import Ascii.
From S2P Require Import Prelude Bytes Error Monad Keys Job Store Stats LeaseRegistry.
From S2P Require Import TimeBound ClaimCursor Completion Txn Core QueueCore.
From S2P Require Import Control Effects InboxEntry InboxListing View RunError.
From S2P Require Import RunKeys RunRecords StepEffects Runs RunCalls StepWorker Groups.

(** ** Headers *)

Section headers.
  Context {EN : Env} {SH : Sha256} {UT : UlidText} {RT : Runtime}.
  Context {SD : Serde DurableRun} {SP : Serde DurableStepRef} {SM : Serde DurableMember}.

Lemma check_headers_free h k : check_headers h = Ok () → is_Some (h !! k) → starts_with RESERVED_HEADER_PREFIX k = false.
Proof using Type.
  unfold check_headers. destruct (list_find_first _ _) eqn:E; [done|]. intros _ [v Hv].
  apply list_find_first_None with (x := k) in E; [done|]. apply list_elem_of_fmap. exists (k, v).
  split; [done|]. by apply elem_of_map_to_list.
Qed.

Definition owner_headers (o : option OwnerRef) : list (string * string) :=
  match o with Some o => [(HEADER_OWNER, header_value o)] | None => [] end.
Definition step_reserved (m : option Membership) (o : option OwnerRef) : list (string * string) :=
  default [] (membership_headers <$> m) ++ owner_headers o.

Lemma reserved_header s : starts_with RESERVED_HEADER_PREFIX (RESERVED_HEADER_PREFIX +:+ s) = true.
Proof using Type. apply starts_with_spec. by exists s. Qed.

Ltac header_case := repeat (rewrite lookup_insert_ne by (congruence || discriminate)); rewrite ?lookup_insert_eq.
Ltac header_branch := match goal with
  | k : string |- _ => match goal with
    | |- context [decide (k = ?h)] => destruct (decide (k = h)) as [->|?]
    | |- context [decide (k = ?h ∧ _)] => lazymatch goal with
        H : k ≠ h |- _ => fail | _ => destruct (decide (k = h)) as [->|?] end
    end
  end.
Ltac decide_branch := repeat first [rewrite decide_True by (split; [done|by eexists])
  | rewrite decide_False by (intros [? [? ?]]; (congruence || discriminate))].

(** A header of a step job: one of the runtime, or one of the submitter. *)
Lemma request_header r n user m o k :
  step_request_headers r n user (step_reserved m o) !! k =
    if decide (k = HEADER_RUN_ID) then Some (rid_str r)
    else if decide (k = HEADER_STEP) then Some (dec_text n)
    else if decide (k = HEADER_GROUP ∧ is_Some m) then (λ m, rid_str (member_group_id m)) <$> m
    else if decide (k = HEADER_GROUP_KEY ∧ is_Some m) then member_key <$> m
    else if decide (k = HEADER_OWNER ∧ is_Some o) then header_value <$> o
    else user !! k.
Proof using Type.
  unfold step_request_headers, step_reserved, owner_headers, membership_headers.
  destruct m as [m|], o as [o|]; cbn [fmap option_fmap option_map default from_option Datatypes.id foldl app];
    repeat header_branch; decide_branch; header_case; done.
Qed.

Ltac known_header := repeat first
  [ rewrite decide_False by first [discriminate|intros [? [? ?]]; discriminate]
  | rewrite decide_True by first [done|split; [done|by eexists]] ].

Lemma step_headers_parsed r n user m o job :
  headers job = step_request_headers r n user (step_reserved m o) → check_headers user = Ok () → is_u32 n →
  (∀ o', o = Some o' → is_u128 (owner_submission_id o')) →
  claimed_step_parse job = Ok (mkClaimedStep r n m o user job).
Proof using Type.
  intros Hh Hu Hn Ho.
  assert (Hfree : ∀ s, user !! (RESERVED_HEADER_PREFIX +:+ s) = None).
  { intros s. destruct (user !! _) eqn:E; [|done].
    pose proof (check_headers_free user _ Hu (ex_intro _ _ E)) as Hs. by rewrite reserved_header in Hs. }
  assert (Hrun : headers job !! HEADER_RUN_ID = Some (rid_str r)) by by rewrite Hh, request_header.
  assert (Hstep : headers job !! HEADER_STEP = Some (dec_text n)) by by rewrite Hh, request_header.
  assert (Hmem : membership_from_headers (headers job) = Ok m).
  { unfold membership_from_headers. rewrite Hh, !request_header. cbn.
    destruct m as [m|]; cbn.
    - known_header. cbn. rewrite RunId_new_rid. cbn. by destruct m.
    - known_header. by rewrite (Hfree "group" : user !! HEADER_GROUP = None). }
  assert (Howner : headers job !! HEADER_OWNER = header_value <$> o).
  { rewrite Hh, request_header. destruct o as [o|]; known_header; [done|]. apply (Hfree "owner"). }
  assert (Huser : submitter_headers (headers job) = user).
  { apply map_eq. intros k. unfold submitter_headers.
    destruct (starts_with RESERVED_HEADER_PREFIX k) eqn:E.
    - pose proof E as [s ->]%starts_with_spec. rewrite Hfree. apply map_lookup_filter_None. right.
      intros v _. cbn. by rewrite E.
    - assert (Hk : ∀ s, k ≠ RESERVED_HEADER_PREFIX +:+ s) by (intros s ->; by rewrite reserved_header in E).
      apply option_eq. intros v. rewrite map_lookup_filter_Some. cbn. rewrite E, Hh, request_header.
      rewrite decide_False by apply (Hk "run_id"). rewrite decide_False by apply (Hk "step").
      rewrite decide_False by (intros [-> _]; by apply (Hk "group")).
      rewrite decide_False by (intros [-> _]; by apply (Hk "group_key")).
      rewrite decide_False by (intros [-> _]; by apply (Hk "owner")). tauto. }
  unfold claimed_step_parse. rewrite Hrun, RunId_new_rid. cbn. rewrite Hstep, parse_u32_text by done.
  rewrite Hmem. cbn. rewrite Howner, Huser. destruct o as [o|]; [|done].
  cbn. by rewrite owner_header_back by by apply Ho.
Qed.

End headers.

(** ** Run ids of members *)

Section ids.
  Context {SH : Sha256}.

Lemma hex_digit_byte d : (0 <= d < 16)%Z →
  run_id_byte (byte_of_ascii (hex_digit d)) = true ∧ hex_digit d ≠ "-"%char.
Proof using Type.
  intros Hd. assert (d = 0 ∨ d = 1 ∨ d = 2 ∨ d = 3 ∨ d = 4 ∨ d = 5 ∨ d = 6 ∨ d = 7 ∨ d = 8 ∨ d = 9 ∨
    d = 10 ∨ d = 11 ∨ d = 12 ∨ d = 13 ∨ d = 14 ∨ d = 15)%Z by lia.
  repeat destruct_or!; subst; by split.
Qed.

Lemma hex_chars (l : bytes) :
  Forall is_byte l → let s := mjoin (hex_byte <$> l) in
  length s = 2 * length l ∧ Forall (λ c, run_id_byte (byte_of_ascii c) = true ∧ c ≠ "-"%char) s.
Proof using Type.
  cbn zeta. induction 1 as [|b l Hb _ [IHl IHc]]; [done|].
  change (mjoin (hex_byte <$> b :: l)) with (hex_byte b ++ mjoin (hex_byte <$> l)). unfold is_byte in Hb. split.
  - rewrite length_app, IHl. cbn. lia.
  - apply Forall_app. split; [|done].
    repeat constructor; first [apply hex_digit_byte|apply (hex_digit_byte)];
      (split; [apply Z.div_pos||apply Z.mod_pos_bound|apply Z.div_lt_upper_bound||apply Z.mod_pos_bound]; lia).
Qed.

(** A digest in hexadecimal is a run id of 64 characters without a hyphen. *)
Lemma hex_run_id parts :
  run_id_reason (hex_sha256 parts) = None ∧ str_len (hex_sha256 parts) = 64 ∧ without "-"%char (hex_sha256 parts).
Proof using Type.
  destruct (hex_chars _ (sha256_bytes (mjoin parts))) as [Hl Hc]. unfold hex_sha256.
  set (s := mjoin _) in *. rewrite sha256_length in Hl.
  assert (Hs : String.list_ascii_of_string (String.string_of_list_ascii s) = s)
    by apply String.list_ascii_of_string_of_list_ascii.
  assert (Hb : as_bytes (String.string_of_list_ascii s) = byte_of_ascii <$> s) by (unfold as_bytes; by rewrite Hs).
  assert (Hlen : str_len (String.string_of_list_ascii s) = 64) by (unfold str_len; rewrite Hb, length_fmap; done).
  split; [|split; [done|]].
  - unfold run_id_reason. unfold str_len in Hlen. rewrite decide_False by (intros E; by rewrite E in Hlen).
    unfold str_len. rewrite decide_False by (unfold MAX_RUN_ID_LEN; lia).
    rewrite (proj2 (forallb_forall _ _)); [done|]. intros b. rewrite Hb, <- list_elem_of_In.
    intros (c & -> & Hin)%list_elem_of_fmap. rewrite Forall_forall in Hc. by apply Hc.
  - unfold without. rewrite Hs. eapply Forall_impl; [exact Hc|]. by intros c [_ ?].
Qed.

Lemma after_last_without s : without "-"%char s → after_last "-r" s = None.
Proof using Type.
  induction s as [|c s IH]; intros H; [done|]. inversion H as [|? ? Hc Hs]; subst. cbn [after_last].
  rewrite IH by done. cbn [str_strip_prefix]. by destruct (Ascii.eqb_spec "-" c) as [<-|].
Qed.

Lemma after_last_app a b : without "-"%char b → after_last "-r" (a +:+ "-r" +:+ b) = Some b.
Proof using Type.
  intros Hb. induction a as [|c a IH].
  - change ("" +:+ "-r" +:+ b) with (String "-" (String "r" b)). cbn [after_last].
    rewrite (after_last_without b Hb). done.
  - change (String c a +:+ "-r" +:+ b) with (String c (a +:+ "-r" +:+ b)). cbn [after_last]. by rewrite IH.
Qed.

Lemma dec_text_chars n :
  is_u32 n → digit_str (dec_text n) = true ∧ 0 < str_len (dec_text n) <= 10 ∧ without "-"%char (dec_text n).
Proof using Type.
  intros [Hn0 Hn].
  assert (H : digit_str (dec_text n) = true ∧ 0 < str_len (dec_text n) <= 10).
  { destruct n as [|p|p]; [by (split; [done|vm_compute; lia])| |lia].
    change (dec_text (Zpos p)) with (pretty_N_go (Npos p) "").
    pose proof (pretty_go_digits (Npos p) "" eq_refl) as Hd. split; [done|].
    destruct (pretty_go_head (Npos p) "" eq_refl) as (d & s' & _ & E). split; [rewrite E; unfold str_len, as_bytes; cbn; lia|].
    etrans; [apply (pretty_go_length 10)|done].
    apply N2Z.inj_lt. rewrite N2Z.inj_pow. unfold u32_max, u32_mod in Hn. cbn in *. lia. }
  destruct H as [Hd Hl]. split; [done|]. split; [done|]. unfold without.
  apply Forall_forall. intros c Hc ->. unfold digit_str in Hd. rewrite forallb_forall in Hd.
  specialize (Hd (byte_of_ascii "-")). discriminate Hd. apply list_elem_of_In. unfold as_bytes.
  apply list_elem_of_fmap. by exists "-"%char.
Qed.

(** The run id of a member of a group is valid and tells which rerun it is of. *)
Lemma member_run_id_back g key n :
  is_u32 n → ∃ r, member_run_id g key n = Ok r ∧ rerun_of r = n.
Proof using Type.
  intros Hn. set (parts := [rid_bytes g; as_bytes "/"; as_bytes key]).
  destruct (hex_run_id parts) as (Hv & Hl & Hw).
  assert (Hfirst : run_id_of_digest parts = Ok (mkRunId _ Hv)).
  { unfold run_id_of_digest. by rewrite (RunId_new_None _ Hv). }
  unfold member_run_id. fold parts. rewrite Hfirst. cbn. case_decide as D.
  - exists (mkRunId _ Hv). split; [done|]. unfold rerun_of. cbn. by rewrite after_last_without.
  - destruct (dec_text_chars n Hn) as (Hd & [Hp Hm] & Hwn).
    assert (Hv' : run_id_reason (hex_sha256 parts +:+ "-r" +:+ dec_text n) = None).
    { unfold run_id_reason. unfold str_len in *. rewrite !as_bytes_app.
      rewrite decide_False by (intros E; apply app_eq_nil in E as [E _]; by rewrite E in Hl).
      rewrite decide_False by (rewrite !length_app; unfold MAX_RUN_ID_LEN; cbn [length as_bytes]; change (length (as_bytes "-r")) with 2; lia).
      destruct (rid_form (mkRunId _ Hv)) as [_ Hall]. unfold rid_bytes in Hall. cbn [rid_str] in Hall.
      rewrite !forallb_app. rewrite Forall_forall in Hall.
      rewrite (proj2 (forallb_forall _ (as_bytes (hex_sha256 parts))))
        by (intros b Hb; by apply Hall, list_elem_of_In). cbn.
      rewrite (proj2 (forallb_forall _ _)); [done|]. intros b Hb. unfold digit_str in Hd.
      rewrite forallb_forall in Hd. apply Hd in Hb. unfold run_id_byte, is_ascii_alphanumeric. by rewrite Hb. }
    rewrite (RunId_new_None _ Hv'). eexists. split; [done|]. unfold rerun_of. cbn [rid_str].
    rewrite after_last_app by done. cbn. by rewrite parse_u32_text.
Qed.

End ids.

(** ** Stored outcomes *)

Section replay.
  Context {DB : SlateDb} {RD : SlateReads} {OS : ObjectStore} {IS : EntryStore} {PJ : PathJoin}.
  Context {SR : Serde JobRecord} {SA : Serde JobAttempt} {SC : Serde CountRecord}.
  Context {EN : Env} {SH : Sha256} {UT : UlidText} {RT : Runtime} {SO : Serde DurableStepOutcomeRecord}.
  (** An object reads back after it was put. *)
  Context (put_get : ∀ p b o o', os_put p b o = (Ok (), o') → os_get p o' = Ok b).

Lemma quiet_yield w : others w = [] → yield w = (Ok (), w).
Proof using Type. intros Hw. unfold yield, io_modify. rewrite Hw. by destruct w. Qed.

Lemma now_ms_eq w :
  now_ms w = (Ok (clock_now (ticks (core w))), mkWorld (set_ticks (S (ticks (core w))) (core w)) (others w)).
Proof using Type. done. Qed.

(** An outcome that was stored is the one that a later delivery replays, with its delay
    or timeout measured from the time it was stored. *)
Lemma stored_outcome_replayed r n p o s w w1 w2 :
  others w = [] → store_step_output r n p o s w = (Ok (), w1) →
  others w2 = [] → objects (core w2) = objects (core w1) →
  (load_step_output r n p w2).1 =
    Ok (Some (replayed_outcome (clock_now (ticks (core w))) (clock_now (ticks (core w2))) o, stored_effects s)).
Proof using put_get.
  intros Hw Hs Hw2 Ho. unfold store_step_output, put_step_output, blob_put, on_blobs in Hs.
  apply EIO_bind_Ok in Hs as (at' & w3 & Ea & Hs).
  assert (at' = clock_now (ticks (core w)) ∧ others w3 = []) as [-> Hw3]
    by (unfold lift_q, map_err in Ea; rewrite now_ms_eq in Ea; by injection Ea as <- <-).
  set (record := mkOutcomeRecord _ _ _) in Hs.
  assert (Hobj : os_get (step_output_path r n p) (objects (core w1)) = Ok (durable_encode record)).
  { apply EIO_bind_Ok in Hs as (res & w4 & Eo & Hs). unfold lift_q, map_err, mbind, EIO_bind in Eo.
    rewrite (quiet_yield _ Hw3) in Eo. unfold on_objects, io_state in Eo.
    destruct (os_put _ _ _) as [[[]|e] o'] eqn:Ep; injection Eo as <- <-; [|done].
    injection Hs as <-. cbn. by eapply put_get. }
  unfold load_step_output, get_step_output, blob_get, on_blobs, mbind, EIO_bind, lift_q, map_err.
  rewrite (quiet_yield _ Hw2). unfold on_objects, io_state. rewrite Ho, Hobj. cbn [objects core set_objects others].
  cbn [mret EIO_ret mbind option_bind]. rewrite decode_or_absent_encode. subst record. cbn [record_outcome stored_at_ms record_effects].
  rewrite public_durable_outcome. destruct o as [p0 [| | |]| | |]; try done.
Qed.

(** A stored outcome keeps what fits a settlement. *)
Lemma stored_staged_ok queue r s : staged_ok queue r s → staged_ok queue r (stored_effects s).
Proof using Type.
  intros [H1 H2 H3 H4]. split; cbn; [done..|]. intros q (q' & -> & Hq)%list_elem_of_fmap. by apply H4 in Hq.
Qed.
End replay.
