(* ===== verification/RunFlow.v ===== *)
(** * How effects move a run

    The state of a run in the user key space, the transitions of a run as the
    specification of its effects, and that the effects of a step's settlement, of a
    submission and of a termination make these transitions and leave every other
    run. *)
From S2P Require Import Prelude Bytes Error Monad Keys Job Store Stats LeaseRegistry.
From S2P Require Import TimeBound ClaimCursor Completion Txn Stage Core QueueCore.
From S2P Require Import Control Effects InboxEntry InboxListing View Frame.
From S2P Require Import RunError RunKeys RunRecords StepEffects Runs.

(** ** The keys of the runtime

    A key that no step and no hook can stage: the runtime's own records. *)
Definition record_prefixes : list bytes :=
  [RUN_KV_PREFIX; STEP_KV_PREFIX; GROUP_KV_PREFIX; OWNED_KV_PREFIX; OWNER_QUEUES_KV_PREFIX].
Definition record_key (k : bytes) : Prop := ∃ p s, p ∈ record_prefixes ∧ k = p ++ s.

Lemma record_key_run r : record_key (run_kv_key r).
Proof. exists RUN_KV_PREFIX, (rid_bytes r). split; [left|done]. Qed.
Lemma record_key_step r : record_key (step_kv_key r).
Proof. exists STEP_KV_PREFIX, (rid_bytes r). split; [right; left|done]. Qed.

Ltac prefix_case Hp := repeat (apply elem_of_cons in Hp as [->|Hp]); try by apply not_elem_of_nil in Hp.

Lemma record_key_reserved k : record_key k → check_kv_key k = Err (ReservedKvKey k).
Proof.
  intros (p & s & Hp & ->). unfold check_kv_key.
  assert (Hr : ∃ q, p = as_bytes RESERVED_KV_PREFIX ++ q).
  { unfold record_prefixes in Hp. prefix_case Hp; by eexists. }
  destruct Hr as [q ->]. rewrite <- app_assoc.
  by rewrite (proj2 (bytes_starts_with_spec _ _)) by by eexists.
Qed.

Lemma record_key_no_entry k r s : record_key k → k ≠ run_kv_entry_key r s.
Proof.
  intros (p & x & Hp & ->). rewrite run_entry_key_split. unfold record_prefixes in Hp.
  prefix_case Hp; discriminate.
Qed.

(** What the caller stages is none of the runtime's records. *)
Lemma caller_not_record r k : caller_key r k → ¬ record_key k.
Proof.
  intros [Hk|[s ->]] Hr; [by rewrite record_key_reserved in Hk|]. by eapply record_key_no_entry.
Qed.

Lemma run_step_ne r s : run_kv_key r ≠ step_kv_key s.
Proof. discriminate. Qed.
Lemma run_member_ne r g k : run_kv_key r ≠ group_member_kv_key g k.
Proof. discriminate. Qed.
Lemma step_member_ne r g k : step_kv_key r ≠ group_member_kv_key g k.
Proof. discriminate. Qed.

(** ** The user key space after effects *)

Lemma kv_after_put_ne k' v e u k : k ≠ k' → kv_after (eff_kv_put k' v e) u k = kv_after e u k.
Proof. intros Hk. unfold kv_after. cbn. by rewrite lookup_insert_ne. Qed.
Lemma kv_after_put_eq k v e u : k ∉ kv_deletes e → kv_after (eff_kv_put k v e) u k = Some v.
Proof. intros Hk. unfold kv_after. cbn. by rewrite decide_False, lookup_insert_eq. Qed.
Lemma kv_after_delete_ne k' e u k : k ≠ k' → kv_after (eff_kv_delete k' e) u k = kv_after e u k.
Proof.
  intros Hk. unfold kv_after. cbn. erewrite decide_ext; [done|].
  rewrite elem_of_app, list_elem_of_singleton. naive_solver.
Qed.
Lemma kv_after_delete_eq k e u : kv_after (eff_kv_delete k e) u k = None.
Proof. unfold kv_after. cbn. rewrite decide_True; [done|]. apply elem_of_app. right. by left. Qed.

(** Effects with the same writes and deletes. *)
Lemma kv_after_same e e' u k :
  kv_writes e' = kv_writes e → kv_deletes e' = kv_deletes e → kv_after e' u k = kv_after e u k.
Proof. intros Ew Ed. unfold kv_after. by rewrite Ew, Ed. Qed.

(** No key is both written and deleted: the check of a settlement's effects. *)
Definition effects_fit (e : SettlementEffects) : Prop := ∀ k, k ∈ kv_deletes e → kv_writes e !! k = None.

Lemma fit_put k v e : effects_fit e → k ∉ kv_deletes e → effects_fit (eff_kv_put k v e).
Proof. intros He Hk k' Hd. cbn in *. rewrite lookup_insert_ne; [by apply He|]. by intros <-. Qed.
Lemma fit_delete k e : effects_fit e → kv_writes e !! k = None → effects_fit (eff_kv_delete k e).
Proof. intros He Hk k' [Hd|Hd]%elem_of_app; [by apply He|]. by apply list_elem_of_singleton in Hd as ->. Qed.

Section caller.
  Context (queue : option string) (r : RunId) (s : StagedEffects) (Hs : staged_ok queue r s).

(** What a step or a hook staged leaves the records of the runtime. *)
Lemma kv_after_add_to e u k : record_key k → kv_after (add_to s e) u k = kv_after e u k.
Proof using Hs.
  intros Hk. unfold kv_after. cbn.
  assert (Hw : staged_writes s !! k = None).
  { destruct (staged_writes s !! k) eqn:E; [|done]. apply (staged_write_keys _ _ _ Hs) in E as [Hc _].
    by apply caller_not_record in Hc. }
  assert (Hd : k ∉ elements (staged_deletes s)).
  { rewrite elem_of_elements. intros Hd. apply (staged_delete_keys _ _ _ Hs) in Hd.
    by apply caller_not_record in Hd. }
  rewrite lookup_union, Hw, (left_id_L None (∪)). erewrite decide_ext; [done|]. rewrite elem_of_app. tauto.
Qed.

Lemma add_to_default_fit : effects_fit (add_to s effects_default).
Proof using Hs.
  intros k Hk. cbn in *. rewrite elem_of_elements in Hk. rewrite lookup_union, (staged_disjoint _ _ _ Hs) by done.
  done.
Qed.

(** Effects on the runtime's own keys take over what a step staged. *)
Lemma add_to_fit e :
  effects_fit e → (∀ k, k ∈ kv_deletes e → ¬ caller_key r k) →
  (∀ k, is_Some (kv_writes e !! k) → ¬ caller_key r k) → effects_fit (add_to s e).
Proof using Hs.
  intros He Hd Hw k Hk. cbn in *. rewrite lookup_union. apply elem_of_app in Hk as [Hk|Hk].
  - rewrite (He k Hk), (right_id_L None (∪)). destruct (staged_writes s !! k) eqn:E; [|done].
    apply (staged_write_keys _ _ _ Hs) in E as [Hc _]. by apply Hd in Hk.
  - rewrite elem_of_elements in Hk. rewrite (staged_disjoint _ _ _ Hs), (left_id_L None (∪)) by done.
    apply (staged_delete_keys _ _ _ Hs) in Hk. destruct (kv_writes e !! k) eqn:E; [|done].
    by destruct (Hw k (ex_intro _ _ E)).
Qed.
End caller.

(** ** The phases of a run *)

Inductive RunPhase :=
| Unknown
| Running (record : DurableRunRecord) (step : DurableStepRef)
| Ended (t : DurableTermination).

Section flow.
  Context {EN : Env} {SH : Sha256} {UT : UlidText} {RT : Runtime}.
  Context {SD : Serde DurableRun} {SP : Serde DurableStepRef} {SM : Serde DurableMember}.
  Implicit Types (u : bytes → option bytes) (r : RunId) (e : SettlementEffects).
#[local] Set Default Proof Using "Type SD SP".

(** The phase of the run [r] in a user key space: an active run has its record and
    the pointer to its current step, and a terminated run has no pointer. *)
Definition run_in u r (p : RunPhase) : Prop :=
  match p with
  | Unknown => u (run_kv_key r) = None ∧ u (step_kv_key r) = None
  | Running record step => u (run_kv_key r) = Some (durable_encode (DActive record)) ∧
      u (step_kv_key r) = Some (durable_encode step)
  | Ended t => u (run_kv_key r) = Some (durable_encode (DTerminated t)) ∧ u (step_kv_key r) = None
  end.

(** A run is in one phase at most. *)
Lemma run_in_unique u r p q : run_in u r p → run_in u r q → p = q.
Proof.
  assert (Hd : ∀ a b : DurableRun, durable_encode a = durable_encode b → a = b).
  { intros a b E. apply (Ok_inj (E := WfError)). by rewrite <- !(durable_decode_encode (A := DurableRun)), E. }
  assert (Hs : ∀ a b : DurableStepRef, durable_encode a = durable_encode b → a = b).
  { intros a b E. apply (Ok_inj (E := WfError)). by rewrite <- !(durable_decode_encode (A := DurableStepRef)), E. }
  destruct p as [|a s|t], q as [|b s'|t']; cbn [run_in]; intros [E1 E2] [F1 F2]; rewrite E1 in F1;
    rewrite E2 in F2; try done; try (injection F1 as F1; apply Hd in F1; try discriminate F1).
  - injection F1 as ->. injection F2 as F2. by apply Hs in F2 as ->.
  - by injection F1 as ->.
Qed.

(** Nothing of the other runs changes. *)
Definition others_kept r u u' : Prop :=
  ∀ r', r' ≠ r → u' (run_kv_key r') = u (run_kv_key r') ∧ u' (step_kv_key r') = u (step_kv_key r').

Lemma others_kept_phase r u u' r' p : others_kept r u u' → r' ≠ r → run_in u r' p → run_in u' r' p.
Proof. intros Ho Hr. destruct (Ho r' Hr) as [E1 E2]. by destruct p; cbn [run_in]; rewrite E1, E2. Qed.

(** The next step of a run: the number wraps at 32 bits. *)
Definition next_ref (s : DurableStepRef) : DurableStepRef :=
  mkDStepRef (wrap32 (dsr_step_number s + 1)) (next_step_job_id (dsr_job_id s)).

(** The transitions of an active run with [record] by the settlement of its step: to the
    next step, or to its end, with the final step and the input and the submission time
    of the record. *)
Inductive step_moves (record : DurableRunRecord) (step : DurableStepRef) : RunPhase → Prop :=
| moves_step : step_moves record step (Running record (next_ref step))
| moves_end t :
    dt_final_step t = step → dt_input_hash t = drr_input_hash record →
    dt_submitted_at_ms t = drr_submitted_at_ms record →
    step_moves record step (Ended t).

(** The reference of a claimed step. *)
Definition claimed_ref (c : ClaimedStep) : DurableStepRef := mkDStepRef (cs_step_number c) (id (cs_job c)).

(** ** Advances *)

Lemma advance_moves c payload opts queue s u :
  staged_ok queue (cs_run_id c) s →
  let u' := kv_after (add_to s (advance_run c payload opts)) u in
  u' (run_kv_key (cs_run_id c)) = u (run_kv_key (cs_run_id c)) ∧
  u' (step_kv_key (cs_run_id c)) = Some (durable_encode (next_ref (claimed_ref c))) ∧
  others_kept (cs_run_id c) u u'.
Proof.
  intros Hs. cbn zeta. split; [|split; [|intros r' Hr; split]].
  all: rewrite (kv_after_add_to _ _ _ Hs) by (apply record_key_run || apply record_key_step).
  all: unfold kv_after, advance_run; cbn [kv_deletes kv_writes]; rewrite decide_False by apply not_elem_of_nil.
  - by rewrite lookup_singleton_ne by (intros ?; discriminate).
  - by rewrite lookup_singleton_eq.
  - by rewrite lookup_singleton_ne by (intros ?; discriminate).
  - rewrite lookup_singleton_ne; [done|]. by intros ?%(inj step_kv_key).
Qed.

(** ** Terminations *)

Lemma owner_effects_same e owned :
  kv_writes (owner_termination_effects e owned) = kv_writes e ∧
  kv_deletes (owner_termination_effects e owned) = kv_deletes e ∧
  count_changes (owner_termination_effects e owned) = count_changes e ∧
  kv_compares (owner_termination_effects e owned) = kv_compares e ∧
  enqueues (owner_termination_effects e owned) = enqueues e ++ map (owner_cancel_request owned) (oq_queues owned).
Proof.
  unfold owner_termination_effects. generalize (oq_queues owned) as qs. intros qs. revert e.
  induction qs as [|q qs IH]; intros e; [by rewrite app_nil_r|]. cbn.
  destruct (IH (eff_enqueue (owner_cancel_request owned q) e)) as (-> & -> & -> & -> & ->). cbn.
  split_and!; try done. by rewrite <- app_assoc.
Qed.

(** A key of a marker of the retention sweep. *)
Lemma marker_not_record sweep at_ms r k :
  memo_sweep = Some sweep → record_key k → k ≠ entry_key (sweep_index sweep) at_ms (rid_bytes r).
Proof.
  intros Hm (p & x & Hp & ->). unfold entry_key. rewrite (memo_sweep_prefix _ Hm).
  unfold record_prefixes in Hp. prefix_case Hp; discriminate.
Qed.

Lemma marker_not_caller sweep at_ms r r' :
  memo_sweep = Some sweep → ¬ caller_key r (entry_key (sweep_index sweep) at_ms (rid_bytes r')).
Proof.
  intros Hm. unfold entry_key. rewrite (memo_sweep_prefix _ Hm). intros [Hk|[s Hk]]; [|discriminate].
  unfold check_kv_key in Hk. rewrite (proj2 (bytes_starts_with_spec _ _)) in Hk; [done|].
  by exists (as_bytes "terminals/" ++ be_bytes 8 at_ms ++ rid_bytes r').
Qed.

Lemma hook_kv r t result u k : record_key k → kv_after (hook_effects r t result) u k = u k.
Proof.
  intros Hk. unfold hook_effects, seal_into_settlement.
  rewrite (kv_after_add_to _ r _ (terminal_staged_ok _ _ _)) by done.
  unfold kv_after. by rewrite decide_False by apply not_elem_of_nil.
Qed.

Section termination.
  Context (now : Z) (step : ClaimedStep) (ending : Ending) (result : option (DurableResult * bytes)).
  Context (submission : Submission) (owned : OwnedQueues).

Abbreviation r := (cs_run_id step).
Abbreviation t := (termination_at now step ending (fst <$> result) submission).
Abbreviation e := (termination_effects_at now step ending result submission owned).

(** The effects before those of the owners and the sweep. *)
Definition ended_effects : SettlementEffects :=
  let effects := eff_kv_put (run_kv_key r) (durable_encode (DTerminated t))
    (eff_kv_delete (step_kv_key r) (hook_effects r t (snd <$> result))) in
  match cs_membership step with
  | Some m => eff_count_down (membership_count_name m)
      (eff_kv_put (membership_kv_key m) (durable_encode (terminated_member r t)) effects)
  | None => effects
  end.

(** A record of the runtime that is not the index entry of the run. *)
Lemma termination_kv u k :
  record_key k → (∀ o, cs_owner step = Some o → k ≠ owned_run_kv_key o queue_name r) →
  kv_after e u k = kv_after ended_effects u k.
Proof.
  intros Hk Ho. unfold termination_effects_at. fold ended_effects.
  set (e1 := match cs_owner step with Some o => _ | None => _ end).
  transitivity (kv_after (owner_termination_effects e1 owned) u k).
  { destruct memo_sweep as [sweep|] eqn:E; [|done]. unfold sweep_mark, kv_after, eff_expiry_entry.
    cbn [kv_deletes kv_writes]. rewrite lookup_insert_ne; [done|]. by apply not_eq_sym, marker_not_record. }
  rewrite (kv_after_same e1) by apply owner_effects_same. subst e1.
  destruct (cs_owner step) as [o|]; [|done]. by apply kv_after_delete_ne, Ho.
Qed.

Lemma owned_ne_run r' o : run_kv_key r' ≠ owned_run_kv_key o queue_name r.
Proof. discriminate. Qed.
Lemma owned_ne_step r' o : step_kv_key r' ≠ owned_run_kv_key o queue_name r.
Proof. discriminate. Qed.

Lemma ended_kv u k :
  record_key k → kv_after ended_effects u k =
    if decide (membership_kv_key <$> cs_membership step = Some k)
    then Some (durable_encode (terminated_member r t))
    else if decide (k = run_kv_key r) then Some (durable_encode (DTerminated t))
    else if decide (k = step_kv_key r) then None else u k.
Proof.
  intros Hk. unfold ended_effects.
  assert (Hd : ∀ k, record_key k → k ≠ step_kv_key r →
    k ∉ kv_deletes (eff_kv_delete (step_kv_key r) (hook_effects r t (snd <$> result)))).
  { intros k' Hk' Hne [Hin|Hin]%elem_of_app; [|by apply list_elem_of_singleton in Hin].
    cbn in Hin. apply elem_of_elements in Hin.
    pose proof (staged_delete_keys _ _ _ (terminal_staged_ok queue_name r _) _ Hin) as Hc.
    by apply caller_not_record in Hc. }
  set (e0 := eff_kv_put (run_kv_key r) _ _).
  assert (H0 : kv_after e0 u k = if decide (k = run_kv_key r) then Some (durable_encode (DTerminated t))
    else if decide (k = step_kv_key r) then None else u k).
  { subst e0. case_decide as D1; [subst k; apply kv_after_put_eq, Hd; [done|discriminate]|].
    rewrite kv_after_put_ne by done. case_decide as D2; [subst k; apply kv_after_delete_eq|].
    rewrite kv_after_delete_ne by done. by apply hook_kv. }
  destruct (cs_membership step) as [m|].
  2: { by rewrite decide_False. }
  rewrite (kv_after_same (eff_kv_put (membership_kv_key m) (durable_encode (terminated_member r t)) e0)) by done.
  cbn [fmap option_fmap option_map].
  destruct (decide (Some (membership_kv_key m) = Some k)) as [D|D].
  - apply (inj Some) in D as <-. apply kv_after_put_eq, Hd; [done|discriminate].
  - rewrite kv_after_put_ne; [done|]. intros ->. by apply D.
Qed.

(** A termination ends the run at the step, deletes its pointer, and leaves the other
    runs. *)
Lemma termination_moves s queue u :
  staged_ok queue r s →
  let u' := kv_after (add_to s e) u in run_in u' r (Ended t) ∧ others_kept r u u'.
Proof.
  intros Hs. cbn zeta.
  assert (H : ∀ k, record_key k → (∀ o, k ≠ owned_run_kv_key o queue_name r) →
    (∀ g k', k ≠ group_member_kv_key g k') →
    kv_after (add_to s e) u k = if decide (k = run_kv_key r) then Some (durable_encode (DTerminated t))
      else if decide (k = step_kv_key r) then None else u k).
  { intros k Hk Ho Hm. rewrite (kv_after_add_to _ _ _ Hs) by done.
    rewrite termination_kv, ended_kv by auto. rewrite decide_False; [done|].
    destruct (cs_membership step); [|done]. intros E%(inj Some). by eapply Hm. }
  assert (Hrun : ∀ r', kv_after (add_to s e) u (run_kv_key r') = if decide (r' = r)
    then Some (durable_encode (DTerminated t)) else u (run_kv_key r')).
  { intros r'. rewrite H; [|apply record_key_run|discriminate|discriminate].
    destruct (decide (r' = r)) as [->|Hne]; [by rewrite decide_True|].
    rewrite decide_False by (by intros ?%(inj run_kv_key)). by rewrite decide_False. }
  assert (Hstep : ∀ r', kv_after (add_to s e) u (step_kv_key r') = if decide (r' = r)
    then None else u (step_kv_key r')).
  { intros r'. rewrite H; [|apply record_key_step|discriminate|discriminate].
    rewrite decide_False by discriminate. destruct (decide (r' = r)) as [->|Hne]; [by rewrite decide_True|].
    by rewrite decide_False by (by intros ?%(inj step_kv_key)). }
  split; [split|intros r' Hr; split]; rewrite ?Hrun, ?Hstep.
  - by rewrite decide_True.
  - by rewrite decide_True.
  - by rewrite decide_False.
  - by rewrite decide_False.
Qed.

(** No key of a termination is both written and deleted. *)
Lemma hook_keys k :
  (is_Some (kv_writes (hook_effects r t (snd <$> result)) !! k) → ¬ record_key k) ∧
  (k ∈ kv_deletes (hook_effects r t (snd <$> result)) → ¬ record_key k).
Proof.
  pose proof (terminal_staged_ok queue_name r (match terminal_hook with
    | Some hook => hook (mkTerminatedRun r (public_termination t) (snd <$> result) (dt_headers t)) | None => [] end)) as Hs.
  split.
  - cbn. rewrite (right_id_L ∅ (∪)). intros [v Hv]. apply (staged_write_keys _ _ _ Hs) in Hv as [Hc _].
    by eapply caller_not_record.
  - cbn. rewrite elem_of_elements. intros Hd. apply (staged_delete_keys _ _ _ Hs) in Hd. by eapply caller_not_record.
Qed.

Lemma record_key_member g k : record_key (group_member_kv_key g k).
Proof. exists GROUP_KV_PREFIX. eexists. split; [unfold record_prefixes; set_solver|done]. Qed.
Lemma record_key_owned o q r' : record_key (owned_run_kv_key o q r').
Proof. exists OWNED_KV_PREFIX. eexists. split; [unfold record_prefixes; set_solver|done]. Qed.

Lemma ended_fit : effects_fit ended_effects.
Proof.
  set (e0 := hook_effects r t (snd <$> result)).
  assert (H1 : effects_fit (eff_kv_delete (step_kv_key r) e0)).
  { apply fit_delete.
    - apply (add_to_default_fit (Some queue_name) r), terminal_staged_ok.
    - destruct (kv_writes e0 !! step_kv_key r) eqn:E; [|done].
      destruct (proj1 (hook_keys (step_kv_key r))); [by eexists|apply record_key_step]. }
  assert (Hd : ∀ k, record_key k → k ≠ step_kv_key r → k ∉ kv_deletes (eff_kv_delete (step_kv_key r) e0)).
  { intros k Hk Hne [Hin|Hin]%elem_of_app; [by apply hook_keys in Hin|by apply list_elem_of_singleton in Hin]. }
  unfold ended_effects. fold e0.
  assert (H2 : effects_fit (eff_kv_put (run_kv_key r) (durable_encode (DTerminated t)) (eff_kv_delete (step_kv_key r) e0)))
    by (apply fit_put; [done|apply Hd; [apply record_key_run|discriminate]]).
  destruct (cs_membership step) as [m|]; [|done]. intros k Hk.
  apply (fit_put (membership_kv_key m) (durable_encode (terminated_member r t)) _ H2); [|exact Hk].
  apply Hd; [apply record_key_member|discriminate].
Qed.

Lemma termination_fit : effects_fit e.
Proof.
  unfold termination_effects_at. fold ended_effects.
  set (e1 := match cs_owner step with Some o => _ | None => _ end).
  assert (H1 : effects_fit e1).
  { subst e1. destruct (cs_owner step) as [o|]; [|apply ended_fit]. apply fit_delete; [apply ended_fit|].
    unfold ended_effects. destruct (kv_writes _ !! _) as [v|] eqn:E; [|done]. exfalso.
    destruct (cs_membership step) as [m|]; cbn in E;
      repeat (rewrite lookup_insert_ne in E by discriminate);
      (destruct (proj1 (hook_keys (owned_run_kv_key o queue_name r))); [by eexists|apply record_key_owned]). }
  assert (H2 : effects_fit (owner_termination_effects e1 owned)).
  { destruct (owner_effects_same e1 owned) as (Ew & Ed & _). intros k. rewrite Ew, Ed. apply H1. }
  destruct memo_sweep as [sweep|] eqn:Em; [|done].
  intros k Hk. apply (fit_put (entry_key (sweep_index sweep) now (rid_bytes r)) []
    (owner_termination_effects e1 owned)); [done| |exact Hk].
  destruct (owner_effects_same e1 owned) as (_ & -> & _). clear Hk. intros Hk.
  assert (Hd : entry_key (sweep_index sweep) now (rid_bytes r) ∈ kv_deletes ended_effects).
  { subst e1. destruct (cs_owner step) as [o|]; [|done]. apply elem_of_app in Hk as [Hk|Hk]; [done|].
    apply list_elem_of_singleton in Hk. apply symmetry, (marker_not_record _ _ _ _ Em) in Hk; [done|].
    apply record_key_owned. }
  unfold ended_effects in Hd.
  assert (Hd' : entry_key (sweep_index sweep) now (rid_bytes r) ∈ kv_deletes (eff_kv_delete (step_kv_key r) (hook_effects r t (snd <$> result))))
    by by destruct (cs_membership step).
  apply elem_of_app in Hd' as [Hd'|Hd'].
  - cbn in Hd'. apply elem_of_elements in Hd'.
    apply (staged_delete_keys _ r _ (terminal_staged_ok queue_name r _)) in Hd'.
    by apply (marker_not_caller _ _ _ _ Em) in Hd'.
  - apply list_elem_of_singleton in Hd'. apply symmetry, (marker_not_record _ _ _ _ Em) in Hd'; [done|].
    apply record_key_step.
Qed.

(** Without a hook a termination has only keys of the runtime. *)
Lemma termination_runtime_keys k :
  terminal_hook = None → k ∈ kv_deletes e ∨ is_Some (kv_writes e !! k) → ¬ caller_key r k.
Proof.
  intros Hh.
  assert (He0 : hook_effects r t (snd <$> result) = effects_default).
  { unfold hook_effects. rewrite Hh. unfold seal_into_settlement, add_to. cbn. f_equal. }
  assert (Hrec : ∀ k, record_key k → ¬ caller_key r k) by (intros k' Hk' Hc; by eapply caller_not_record).
  assert (Hend : ∀ k, k ∈ kv_deletes ended_effects ∨ is_Some (kv_writes ended_effects !! k) → record_key k).
  { intros k'. unfold ended_effects. rewrite He0.
    destruct (cs_membership step) as [m|]; cbn; (intros [Hk|Hk];
      [apply list_elem_of_singleton in Hk as ->; apply record_key_step|]);
      repeat (apply lookup_insert_is_Some in Hk as [<-|[_ Hk]]; [first [apply record_key_member|apply record_key_run]|]);
      by destruct Hk. }
  unfold termination_effects_at. fold ended_effects.
  set (e1 := match cs_owner step with Some o => _ | None => _ end).
  assert (H1 : ∀ k, k ∈ kv_deletes e1 ∨ is_Some (kv_writes e1 !! k) → record_key k).
  { intros k'. subst e1. destruct (cs_owner step) as [o|]; [|apply Hend]. intros [Hk|Hk].
    - apply elem_of_app in Hk as [Hk|Hk]; [apply Hend; by left|].
      apply list_elem_of_singleton in Hk as ->. apply record_key_owned.
    - apply Hend. by right. }
  destruct (owner_effects_same e1 owned) as (Ew & Ed & _).
  destruct memo_sweep as [sweep|] eqn:Em.
  - unfold sweep_mark, eff_expiry_entry. cbn [kv_deletes kv_writes]. rewrite Ew, Ed. intros [Hk|Hk].
    + apply Hrec, H1. by left.
    + apply lookup_insert_is_Some in Hk as [<-|[_ Hk]]; [|apply Hrec, H1; by right].
      by apply (marker_not_caller _ _ _ _ Em).
  - rewrite Ew, Ed. intros Hk. by apply Hrec, H1.
Qed.

End termination.
End flow.
