(* ===== verification/RunReads.v ===== *)
(** * The calls of the runtime that leave the store

    The reads of the runtime change nothing in the store itself, whichever tasks run
    at their yields; and the calls of the queue that fail, other than by an error of
    the storage. *)
From S2P Require Import Prelude Bytes Error Monad Keys Job Store Stats LeaseRegistry.
From S2P Require Import TimeBound ClaimCursor Completion Txn Stage StoreInv Sound Core.
From S2P Require Import QueueCore Control Effects Claim Settle Enqueue.
From S2P Require Import Sweeps InboxEntry Queue CoreInv StagedOps View Finishes Linear.
From S2P Require Import Outcomes Frame Applied RunError RunKeys RunRecords StepEffects.
From S2P Require Import Runs RunCalls StepWorker.

Section reads.
  Context {DB : SlateDb} {RD : SlateReads} {OS : ObjectStore} {SR : Serde JobRecord} {SA : Serde JobAttempt}.
  Context {SC : Serde CountRecord} {EN : Env} {SH : Sha256} {UT : UlidText} {RT : Runtime}.
  Context {SD : Serde DurableRun} {SP : Serde DurableStepRef} {SM : Serde DurableMember}.
  Context {SQ : Serde (list string)} {DL : SlateDbLaws merge_batch}.
#[local] Set Default Proof Using "Type DL SR SA EN".

Abbreviation Wf := (EIO WfError World).

(** A call that changes nothing in the store itself. *)
Definition reading {E A} (m : EIO E World A) : Prop := ∀ w r w', m w = (r, w') → passes w w'.

Lemma reading_ret {E A} (a : A) : reading (mret a : EIO E World A).
Proof. by intros w r w' [= _ <-]. Qed.
Lemma reading_err {E A} (e : E) : reading (eio_err e : EIO E World A).
Proof. by intros w r w' [= _ <-]. Qed.
Lemma reading_result {E A} (x : result E A) : reading (eio_result x : EIO E World A).
Proof. by intros w r w' [= _ <-]. Qed.
Lemma reading_bind {E A B} (m : EIO E World A) (f : A → EIO E World B) :
  reading m → (∀ a, reading (f a)) → reading (m ≫= f).
Proof.
  intros Hm Hf w r w'. unfold mbind, EIO_bind. destruct (m w) as [[a|e] w1] eqn:Em.
  - intros H. etrans; [by eapply Hm|by eapply Hf].
  - intros [= _ <-]. by eapply Hm.
Qed.
Lemma reading_map_err {E F A} (f : E → F) (m : EIO E World A) : reading m → reading (map_err f m).
Proof.
  intros Hm w r w'. unfold map_err. destruct (m w) as [[a|e] w1] eqn:Em; intros [= _ <-]; by eapply Hm.
Qed.
Lemma reading_try {E F A} (m : EIO E World A) : reading m → reading (eio_try m : EIO F World _).
Proof.
  intros Hm w r w'. unfold eio_try. destruct (m w) as [x w1] eqn:Em. intros [= _ <-]. by eapply Hm.
Qed.
(** A call of the queue. *)
Lemma reading_still {A} (m : Q A) : still m → reading (lift_q m).
Proof. intros Hm. apply reading_map_err. intros w r w' H. by eapply still_passes. Qed.
Lemma reading_view {A} (f : Handle → Result A) : reading (wf_view f).
Proof.
  apply reading_map_err. intros w r w' [= _ <-]. apply (passes_yield w w), passes_refl.
Qed.

Ltac reading :=
  repeat match goal with
  | |- reading (mret _) => apply reading_ret
  | |- reading (eio_err _) => apply reading_err
  | |- reading (eio_result _) => apply reading_result
  | |- reading (eio_try _) => apply reading_try
  | |- reading (wf_view _) => apply reading_view
  | |- reading (mbind _ _) => apply reading_bind; [|intros]
  | |- reading (match _ with _ => _ end) => case_match
  | |- reading (lift_q now_ms) => apply reading_still, still_now_ms
  end.

Lemma reading_kv_record {A} `{!Serde A} k : reading (kv_record k : Wf (option A)).
Proof. unfold kv_record. reading. Qed.
Lemma reading_run_entry r : reading (run_entry r).
Proof. apply reading_kv_record. Qed.
Lemma reading_run_record r : reading (run_record r).
Proof. unfold run_record. reading; apply reading_run_entry. Qed.
Lemma reading_terminal_record r : reading (terminal_record r).
Proof. unfold terminal_record. reading; apply reading_run_entry. Qed.
Lemma reading_pointer r : reading (current_step_if_active r).
Proof. apply reading_kv_record. Qed.
Lemma reading_current_step r : reading (current_step r).
Proof. unfold current_step. reading; apply reading_pointer. Qed.
Lemma reading_turns : reading turns.
Proof. apply reading_still. by intros w. Qed.
Lemma reading_unfinished {A} : reading (wf_unfinished : Wf A).
Proof. apply reading_err. Qed.
Lemma reading_current_job r : reading (current_job r).
Proof.
  unfold current_job. apply reading_bind; [apply reading_turns|]. intros n.
  generalize (@None string). generalize (n + 3). intros fuel.
  induction fuel as [|fuel IH]; intros a; cbn [current_job_loop]; [apply reading_unfinished|].
  reading; first [apply reading_pointer|apply IH].
Qed.
Lemma reading_owned_queues o : reading (owned_queues o).
Proof. unfold owned_queues, read_owned_queues. reading. Qed.
Lemma reading_owned_effects e o r : reading (owned_submission_effects e o r).
Proof. unfold owned_submission_effects, read_owned_queues. reading. Qed.
Lemma reading_termination s e res sub o : reading (termination_effects s e res sub o).
Proof. unfold termination_effects. reading. Qed.

(** ** What a read returns *)

Lemma no_effect_mono (w w' : World) (P P' : gmap bytes bytes → Prop) :
  (∀ m, P m → P' m) → no_effect w w' P → no_effect w w' P'.
Proof. intros HP (w1 & ? & ? & ?). exists w1. auto. Qed.
Lemma no_effect_passes (w w' : World) P : no_effect w w' P → passes w w'.
Proof. intros (w1 & ? & _ & ?). by etrans. Qed.

(** The user key [k] holds the record [a], or nothing. *)
Definition stored {A} `{!Serde A} (k : bytes) (a : option A) m : Prop :=
  match a with
  | Some a => ∃ b, user_kv m k = Some b ∧ durable_decode b = Ok a
  | None => user_kv m k = None
  end.

Lemma stored_encoded {A} `{!Serde A} k (a : A) m (b : option A) :
  user_kv m k = Some (durable_encode a) → stored k b m → b = Some a.
Proof.
  intros Hk. destruct b as [b|]; unfold stored; [|by rewrite Hk]. intros (x & Hx & Hd).
  rewrite Hk in Hx. injection Hx as <-. rewrite durable_decode_encode in Hd. by injection Hd as ->.
Qed.

Lemma kv_get_at k w b w' : wf_view (λ h, kv_get h k) w = (Ok b, w') → no_effect w w' (λ m, user_kv m k = b).
Proof.
  unfold wf_view, lift_q, map_err. intros H. exists (yield w).2. split; [apply passes_yield, passes_refl|].
  unfold mbind, EIO_bind, yield, io_modify, get, io_gets, io_result, kv_get, handle_get in H. cbn [snd] in *.
  destruct (db_get _ _) as [o|e] eqn:E; cbn in H; [|done]. injection H as <- <-.
  apply db_get_law in E as ->. split; [done|apply passes_refl].
Qed.

(** A step reads the value that an earlier settlement wrote to the key space of its run. *)
Lemma get_run_kv_at r k w b w' :
  kv_read_get_run_kv (Some r) k w = (Ok b, w') → no_effect w w' (λ m, user_kv m (run_kv_entry_key r k) = b).
Proof. apply kv_get_at. Qed.

Lemma kv_record_at {A} `{!Serde A} k w (a : option A) w' :
  kv_record k w = (Ok a, w') → no_effect w w' (stored k a).
Proof.
  unfold kv_record. intros ([b|] & w1 & Eg & H)%EIO_bind_Ok; apply kv_get_at in Eg.
  - apply EIO_bind_Ok in H as (x & w2 & Ed & H). injection Ed as Ed <-. injection H as <- <-.
    destruct Eg as (w2 & ? & Hb & ?). exists w2. split; [done|]. split; [by exists b|done].
  - by injection H as <- <-.
Qed.

(** ** Calls of the queue that fail *)
#[local] Existing Instance IO_bind.

Lemma effects_finished p st w r w' :
  finish_effects p st w = (r, w') → (∃ rs, r = Ok rs) ∧ passes w w'.
Proof.
  intros E. split; [|by eapply still_passes, E; apply still_finish_effects].
  destruct r as [rs|e]; [by exists rs|]. destruct (finish_effects_never p st w e w' E).
Qed.

(** The effects of a call that failed in its transaction. *)
Lemma retried_failed {T A} (body : Txn → Q (Attempt T * Txn)) p (st : result Error T → option _)
    (k : T → option (list EnqueueResult) → Q A) (w : World) err w' :
  body_steady body → (∀ v rs w e w', k v rs w ≠ (Err e, w')) →
  (committed ← io_try (retry Awaited body); results ← finish_effects p (st committed);
   v ← io_result committed; k v results) w = (Err err, w') → not_storage err → passes w w'.
Proof.
  intros Hb Hk. unfold mbind at 1, IO_bind at 1, io_try. destruct (retry _ _ w) as [r w2] eqn:Er.
  unfold mbind at 1, IO_bind at 1. destruct (finish_effects _ _ w2) as [rf w3] eqn:Ef.
  apply effects_finished in Ef as [[rs ->] Hp3]. unfold mbind at 1, IO_bind at 1, io_result.
  destruct r as [v|er]; [by intros H; apply Hk in H|]. intros [= -> <-] Hn.
  etrans; [by eapply retry_failed|done].
Qed.

Lemma commit_effects_failed e w err w' :
  commit_effects e w = (Err err, w') → not_storage err → passes w w'.
Proof.
  unfold commit_effects, mbind at 1, IO_bind at 1.
  destruct (prepare_effects e w) as [[p|e0] w1] eqn:Ep;
    (assert (Hp1 : passes w w1) by (eapply still_passes; [apply still_prepare_effects|done]));
    [|by intros [= _ <-]].
  intros H Hn. etrans; [exact Hp1|]. revert H Hn. apply (retried_failed _ p ok (λ _ rs, mret (default [] rs))); [|done].
  intros t. apply steady_bind; [apply still_get|]. intros reg.
  apply steady_seq; [apply steady_staging, clean_effects|]. intros. apply steady_ret.
Qed.

Lemma finish_cancel_done s w : ∃ j w', finish_cancel s w = (Ok j, w').
Proof. destruct s; cbn; by eexists _, _. Qed.

Lemma cancel_with_failed i e w err w' :
  cancel_with i e w = (Err err, w') → not_storage err → passes w w'.
Proof.
  unfold cancel_with, mbind at 1, IO_bind at 1.
  destruct (prepare_effects e w) as [[p|e0] w1] eqn:Ep;
    (assert (Hp1 : passes w w1) by (eapply still_passes; [apply still_prepare_effects|done]));
    [|by intros [= _ <-]].
  intros H Hn. etrans; [exact Hp1|]. revert H Hn.
  apply (retried_failed _ p (λ r, match r with Ok (_, results) => results | Err _ => None end)
    (λ v results, let '(staged, _) := v in removed ← finish_cancel staged;
      match removed with Some j => delete_for j | None => mret tt end ≫= λ _,
      mret (cancel_outcome staged, default [] results))).
  - intros t. apply steady_seq; [apply steady_staging, clean_stage_cancel|]. intros s t1.
    destruct s; try apply steady_ret. apply steady_bind; [apply still_get|]. intros reg.
    apply steady_seq; [apply steady_staging, clean_effects|]. intros. apply steady_ret.
  - intros [s st] rs w2 e2 w3. unfold mbind at 1, IO_bind at 1.
    destruct (finish_cancel_done s w2) as (j & w4 & ->). unfold mbind, IO_bind. destruct j as [j|]; [|done].
    pose proof (delete_for_ok j w4) as Hd. by destruct (delete_for j w4) as [[]].
Qed.

Lemma write_job_txn_steady p pe : body_steady (λ t,
    '(written, t) ← staging (stage_job_writes p) t;
    match written with
    | inl existing => mret (AbortWith (inl existing), t)
    | inr jid =>
        registry ← get lease_registry;
        '(results, t) ← staging (stage_effects registry pe) t;
        mret (CommitWith (inr (jid, results)), t)
    end).
Proof.
  intros t. apply steady_seq; [apply steady_staging, clean_job_writes|].
  intros [ex|i] t1; [apply steady_ret|]. apply steady_bind; [apply still_get|]. intros reg.
  apply steady_seq; [apply steady_staging, clean_effects|]. intros. apply steady_ret.
Qed.

Lemma enqueue_with_effects_failed q pl opts e w err w' :
  enqueue_with_effects q pl opts e w = (Err err, w') → not_storage err → passes w w'.
Proof.
  unfold enqueue_with_effects, mbind at 1, IO_bind at 1.
  destruct (prepare_job_record q pl opts w) as [[p|e0] w1] eqn:Ep;
    (assert (Hp1 : passes w w1) by (eapply still_passes; [apply still_prepare_job|done]));
    [|by intros [= _ <-]].
  unfold mbind at 1, IO_bind at 1. destruct (prepare_effects e w1) as [[pe|e0] w2] eqn:Epe;
    (assert (Hp2 : passes w1 w2) by (eapply still_passes; [apply still_prepare_effects|done]));
    [|by intros [= _ <-]; etrans].
  intros H Hn. etrans; [exact Hp1|]. etrans; [exact Hp2|]. revert H.
  assert (Hpost : ∀ (b : bool) st (o : Result EnqueueResult) pp w3,
    (finish_job_write pp b ≫= λ _, results ← finish_effects pe st;
     outcome ← io_result o; mret (outcome, default [] results)) w3 = (Err err, w') →
    o = Err err ∧ passes w3 w').
  { intros b st o pp w3. unfold mbind at 1, IO_bind at 1.
    destruct (finish_write_end pp b (Ok ()) w3 (Ok ()) (finish_job_write pp b w3).2) as [_ Hp].
    { unfold mbind, IO_bind. destruct b; [done|]. pose proof (delete_for_ok (prepared_job pp) w3) as Hd.
      unfold finish_job_write. by destruct (delete_for _ w3) as [[[]|]]. }
    destruct (finish_job_write pp b w3) as [[u|e2] w4] eqn:Ew.
    - unfold mbind at 1, IO_bind at 1. destruct (finish_effects pe st w4) as [rf w5] eqn:Ef.
      apply effects_finished in Ef as [[rs ->] Hp5]. destruct o; [done|]. intros [= -> <-].
      split; [done|]. by etrans.
    - exfalso. revert Ew. unfold finish_job_write. destruct b; [done|]. intros Ew.
      pose proof (delete_for_ok (prepared_job pp) w3) as Hd. by rewrite Ew in Hd. }
  unfold write_job, mbind at 1, IO_bind at 1, io_try. destruct (offload (prepared_job p) w2) as [o w3] eqn:Eo.
  assert (Hp3 : passes w2 w3) by (eapply still_passes; [apply still_offload|done]).
  intros H. etrans; [exact Hp3|]. revert H. destruct o as [j|e0].
  - unfold mbind at 1, IO_bind at 1, mbind at 1, IO_bind at 1.
    destruct (write_job_txn _ pe w3) as [x w4] eqn:Ew.
    destruct x as [[ex|[i st]]|e0]; intros [Hr Hp4]%Hpost; [done|done|]. injection Hr as ->.
    etrans; [|exact Hp4]. by eapply retry_failed; [apply write_job_txn_steady|exact Ew|].
  - by intros [_ Hp4]%Hpost.
Qed.
End reads.
