(* ===== verification/RunSettle.v ===== *)
(** * The settlement of a step

    Which effects the processing of a claimed step returns for each outcome, and that
    the settlement of the job with these effects is one transition of its run. *)
From S2P Require Import Prelude Bytes Error Monad Keys Job Store Stats LeaseRegistry.
From S2P Require Import TimeBound ClaimCursor Completion Txn Stage StoreInv Sound Core.
From S2P Require Import QueueCore Control Effects Claim Settle Enqueue.
From S2P Require Import Sweeps InboxEntry InboxListing Queue CoreInv StagedOps View.
From S2P Require Import Finishes Linear Outcomes Frame RunError RunKeys RunRecords.
From S2P Require Import StepEffects Runs RunCalls StepWorker RunFlow.

(** ** Results of a call *)

(** Every result of the call satisfies [P]. *)
Definition yields {E W A} (P : result E A → Prop) (m : EIO E W A) : Prop := ∀ w, P (m w).1.

Lemma yields_ret {E W A} (P : result E A → Prop) a : P (Ok a) → yields P (mret a : EIO E W A).
Proof. by intros H w. Qed.
Lemma yields_err {E W A} (P : result E A → Prop) e : P (Err e) → yields P (eio_err e : EIO E W A).
Proof. by intros H w. Qed.
Lemma yields_bind {E W A B} (P : result E B → Prop) (m : EIO E W A) (f : A → EIO E W B) :
  yields (λ r, match r with Ok a => yields P (f a) | Err e => P (Err e) end) m → yields P (m ≫= f).
Proof.
  intros H w. specialize (H w). unfold mbind, EIO_bind. destruct (m w) as [[a|e] w1]; [apply H|done].
Qed.
Lemma yields_mono {E W A} (P Q : result E A → Prop) (m : EIO E W A) :
  (∀ r, P r → Q r) → yields P m → yields Q m.
Proof. intros HPQ H w. by apply HPQ. Qed.
Lemma yields_try {E F W A} (P : result F (result E A) → Prop) (m : EIO E W A) :
  yields (λ r, P (Ok r)) m → yields P (eio_try m).
Proof. intros H w. specialize (H w). unfold eio_try. by destruct (m w). Qed.
Lemma yields_any {E W A} (P : result E A → Prop) (m : EIO E W A) : (∀ r, P r) → yields P m.
Proof. by intros H w. Qed.

Section settle.
  Context {DB : SlateDb} {RD : SlateReads} {OS : ObjectStore} {IS : EntryStore} {PJ : PathJoin}.
  Context {SR : Serde JobRecord} {SA : Serde JobAttempt} {SC : Serde CountRecord}.
  Context {EN : Env} {SH : Sha256} {UT : UlidText} {RT : Runtime}.
  Context {SD : Serde DurableRun} {SP : Serde DurableStepRef} {SM : Serde DurableMember}.
  Context {SQ : Serde (list string)} {SO : Serde DurableStepOutcomeRecord}.
  Context {DL : SlateDbLaws merge_batch}.

Abbreviation Wf := (EIO WfError World).
Abbreviation Worker := (EIO WorkerError World).

(** ** The effects of an outcome *)

(** An error of the worker that carries no effects. *)
Definition plain_error (e : WorkerError) : Prop :=
  match e with WorkerFailure _ _ effects => effects = effects_default | WorkerPanic => True end.

Lemma worker_error_plain e : plain_error (worker_error e).
Proof. by destruct e as [| | | | | | | | | | | | | |[]| | | | | | | | | | |]. Qed.

Lemma yields_worker_call {A} (P : result WorkerError A → Prop) (m : Wf A) :
  (∀ a, P (Ok a)) → (∀ e, plain_error e → P (Err e)) → yields P (worker_call m).
Proof.
  intros Ha He w. unfold worker_call, map_err. destruct (m w) as [[a|e] w1]; [apply Ha|].
  apply He, worker_error_plain.
Qed.

(** The run of [c] ends with [ending], and a result reference for a succeeded one. *)
Definition ends_as (c : ClaimedStep) (sub : Submission) (ending : Ending) (result : option bytes)
    (e : SettlementEffects) : Prop :=
  ∃ now stored owned, snd <$> stored = result ∧ e = termination_effects_at now c ending stored sub owned.

(** The next step of the run of [c], with the options of the claimed job except for
    its run time and wait. *)
Definition advances_as (c : ClaimedStep) (payload : bytes) (when : Trigger) (e : SettlementEffects) : Prop :=
  ∃ run_at wait, e = advance_run c payload (set_wait run_at wait (next_step_opts c)) ∧
    match when with
    | Immediate => run_at = None ∧ wait = None
    | After d => wait = None ∧ ∃ now, run_at = run_at_after now d ∧ is_Some run_at
    | OnSignal d => wait = Some WaitSignal ∧ ∃ now, run_at = run_at_after now d ∧ is_Some run_at
    | OnGroup g d => wait = Some (WaitCount (group_count_name g)) ∧
        ∃ now, run_at = run_at_after now d ∧ is_Some run_at
    end.

(** What settles a step that failed with [e]: a failure that is permanent or was the
    last attempt terminates the run, and another one leaves it to a retry. *)
Definition fails_as (c : ClaimedStep) (sub : Submission) (e : StepError) (f : WorkerError) : Prop :=
  plain_error f ∨
  (se_kind e = Permanent ∨ is_last_attempt (cs_job c) = true) ∧
  ∃ effects, f = WorkerFailure (bool_decide (se_kind e = Permanent)) (se_message e) effects ∧
    ends_as c sub (ending_failed (se_message e) (Some (se_kind e))) None effects.

(** What settles the outcome of a step: an external cancellation overrides it. *)
Definition settled_as (c : ClaimedStep) (sub : Submission) (cancel : option ExternalCancel)
    (outcome : result StepError StepOutcome) (settled : result WorkerError SettlementEffects) : Prop :=
  match settled with
  | Ok e =>
      match cancel, outcome with
      | Some x, _ => ends_as c sub (ending_cancelled (ec_origin x) (ec_reason x)) None e
      | None, Ok (Cancel reason) => ends_as c sub (ending_cancelled Runner (Some reason)) None e
      | None, Ok (Continue payload when) => advances_as c payload when e
      | None, Ok (Succeed result) => ends_as c sub ending_succeeded (Some result) e
      | None, Ok (Fail reason) => ends_as c sub (ending_failed reason (Some Permanent)) None e
      | None, Err _ => False
      end
  | Err f => plain_error f ∨ cancel = None ∧ ∃ e, fails_as c sub e f ∧
      match outcome with
      | Err e' => e = e'
      | Ok (Continue _ (OnGroup _ _)) => True
      | Ok _ => False
      end
  end.

Lemma step_failure_yields {A} c e sub (P : result WorkerError A → Prop) :
  (∀ f, fails_as c sub e f → P (Err f)) → yields P (step_failure c e sub).
Proof.
  intros HP. unfold step_failure. destruct (bool_decide _ || _) eqn:E.
  2: { apply yields_err, HP. by left. }
  apply yields_bind, yields_try, yields_any. intros [owned|read].
  2: { apply yields_err, HP. left. apply worker_error_plain. }
  apply yields_bind. intros w. unfold worker_call, map_err, terminating_failure, termination_effects.
  unfold mbind, EIO_bind, eio_err. destruct (lift_q now_ms w) as [[now|e'] w1]; cbn.
  2: { apply HP. left. apply worker_error_plain. }
  apply yields_err, HP. right. apply orb_true_iff in E as [E|E].
  - apply bool_decide_eq_true in E. split; [by left|]. eexists. split; [done|]. by exists now, None, owned.
  - split; [by right|]. eexists. split; [done|]. by exists now, None, owned.
Qed.

Lemma terminate_recorded_yields c ending (res : option bytes) sub (P : result WorkerError SettlementEffects → Prop) :
  (∀ e, ends_as c sub ending res e → P (Ok e)) → (∀ f, plain_error f → P (Err f)) →
  yields P (terminate_recorded c ending res sub).
Proof.
  intros He Hf. unfold terminate_recorded.
  assert (Hend : ∀ stored, snd <$> stored = res →
    yields P (owned ← worker_call (owned_queues (submission_owner sub (cs_run_id c)));
      worker_call (termination_effects c ending stored sub owned))).
  { intros stored Hst. apply yields_bind, yields_worker_call; [|done]. intros owned w.
    unfold worker_call, map_err, termination_effects, mbind, EIO_bind.
    destruct (lift_q now_ms w) as [[now|e'] w1]; cbn; [|apply Hf, worker_error_plain].
    apply He. by exists now, stored, owned. }
  apply yields_bind. destruct res as [b|].
  - apply yields_bind, yields_worker_call; [|done]. intros ref. apply yields_ret. by apply Hend.
  - apply yields_ret. by apply Hend.
Qed.

Lemma wait_until_yields d (P : result WfError Z → Prop) :
  (∀ now t, run_at_after now d = Some t → P (Ok t)) → (∀ e, P (Err e)) → yields P (wait_until d).
Proof.
  intros Ht He. unfold wait_until. apply yields_bind, yields_any. intros [now|e]; [|done].
  destruct (run_at_after now d) as [t|] eqn:E; [by apply yields_ret, (Ht now)|by apply yields_err].
Qed.

Lemma worker_call_yields {A} (m : Wf A) (P : result WorkerError A → Prop) :
  yields (λ r, match r with Ok a => P (Ok a) | Err e => P (Err (worker_error e)) end) m →
  yields P (worker_call m).
Proof. intros H w. specialize (H w). unfold worker_call, map_err. by destruct (m w) as [[]]. Qed.

(** Each outcome is settled as its transition. *)
Lemma settle_step_outcome_yields c outcome cancel sub :
  yields (settled_as c sub cancel outcome) (settle_step_outcome c outcome cancel sub).
Proof.
  assert (Hplain : ∀ f, plain_error f → settled_as c sub cancel outcome (Err f)) by (intros f Hf; by left).
  unfold settle_step_outcome. destruct cancel as [x|]; [by apply terminate_recorded_yields|].
  destruct outcome as [[payload [|d|d|g d]|res|reason|reason]|e].
  - apply yields_ret. exists None, None. by split.
  - apply yields_bind, worker_call_yields, wait_until_yields; [|intros; apply Hplain, worker_error_plain].
    intros now t E. apply yields_ret. exists (Some t), None. split; [done|]. split; [done|]. exists now.
    by rewrite E.
  - apply worker_call_yields. unfold advance_on_signal. apply yields_bind, wait_until_yields;
      [|intros; apply Hplain, worker_error_plain].
    intros now t E. apply yields_ret. exists (Some t), (Some WaitSignal). split; [done|]. split; [done|].
    exists now. by rewrite E.
  - apply yields_bind, yields_try. unfold advance_on_group. apply yields_bind, yields_any.
    assert (Hfail : ∀ e : WfError, yields (settled_as c sub None (Ok (Continue payload (OnGroup g d))))
      (match e with WfQueue Panicked => eio_err WorkerPanic
       | e => step_failure c (step_error_of wf_error_text e) sub end)).
    { intros e. assert (Hs : yields (settled_as c sub None (Ok (Continue payload (OnGroup g d))))
        (step_failure c (step_error_of wf_error_text e) sub)).
      { apply step_failure_yields. intros f Hf. right. split; [done|]. by eexists. }
      destruct e as [| | | | | | | | | | | | | |[]| | | | | | | | | | |]; try exact Hs. by apply yields_err; left. }
    intros [members|e]; [|exact (Hfail e)]. destruct (entries members); [apply yields_err, (Hfail (GroupNotFound g))|].
    apply yields_bind, wait_until_yields; [|intros e; exact (Hfail e)].
    intros now t E. apply yields_ret, yields_ret. exists (Some t), (Some (WaitCount (group_count_name g))).
    split; [done|]. split; [done|]. exists now. by rewrite E.
  - by apply terminate_recorded_yields.
  - by apply terminate_recorded_yields.
  - by apply terminate_recorded_yields.
  - apply step_failure_yields. intros f Hf. right. split; [done|]. by exists e.
Qed.


(** ** A claimed step *)

Section processed.
  Context (run_step : Step → World → (result StepError StepOutcome * list HandleOp) * World).

(** Where an outcome and the caller's effects come from: the runner, through its
    handle, or the outcome stored by an earlier attempt. *)
Definition outcome_from (claim : Claim) (c : ClaimedStep) (outcome : result StepError StepOutcome)
    (caller : StagedEffects) : Prop :=
  (∃ step w w' ops, st_run_id step = cs_run_id c ∧ run_step step w = ((outcome, ops), w') ∧
     caller = (seal_and_take (staged_by queue_name (cs_run_id c) ops)).1) ∨
  step_output_replay = true ∧ ∃ w w' o, outcome = Ok o ∧
    load_step_output (cs_run_id c) (cs_step_number c) (payload (job claim)) w = (Ok (Some (o, caller)), w').

(** What the processing of a step returns, from the run record it read: a request
    recorded before it cancels the run without the runner; otherwise the outcome is
    settled, and the caller's effects join it unless a cancellation overrides it. *)
Definition processed_as (claim : Claim) (c : ClaimedStep) (record : DurableRunRecord)
    (settled : result WorkerError SettlementEffects) : Prop :=
  match drr_cancel_request record with
  | Some request => settled_as c (submission_of record)
      (Some (mkExternalCancel (dcr_reason request) (public_origin (dcr_origin request)))) (Err (mkStepError "" Transient))
      settled
  | None => (∃ f, plain_error f ∧ settled = Err f) ∨
      ∃ outcome caller cancel, outcome_from claim c outcome caller ∧ match settled with
        | Err f => settled_as c (submission_of record) cancel outcome (Err f)
        | Ok e => ∃ e0, settled_as c (submission_of record) cancel outcome (Ok e0) ∧
            e = (if match outcome with Ok (Cancel _) => true | _ => false end ||
                   bool_decide (cancel = None) then add_to caller e0 else e0)
        end
  end.

Lemma read_external_cancel_yields r tok (P : result WorkerError (option ExternalCancel) → Prop) :
  (∀ x, P (Ok x)) → (∀ f, plain_error f → P (Err f)) → yields P (read_external_cancel r tok).
Proof.
  intros Hx Hf. unfold read_external_cancel. apply yields_bind, yields_worker_call; [|done].
  intros []; [|apply yields_ret, Hx]. apply yields_bind, yields_worker_call; [|done].
  intros record. apply yields_ret, Hx.
Qed.

Lemma step_outcome_yields claim c record
    (P : result WorkerError (result StepError StepOutcome * StagedEffects * bool) → Prop) :
  (∀ o s b, outcome_from claim c o s → P (Ok (o, s, b))) → (∀ f, plain_error f → P (Err f)) →
  yields P (step_outcome run_step claim c record).
Proof.
  intros Ho Hf. unfold step_outcome.
  apply yields_bind, worker_call_yields. intros w.
  destruct step_output_replay eqn:Erep.
  - destruct (load_step_output _ _ _ w) as [[[[o s]|]|e] w1] eqn:El; [| |by apply Hf, worker_error_plain].
    + apply yields_ret, Ho. right. split; [done|]. by exists w, w1, o.
    + intros w2. destruct (run_step _ w2) as [[o ops] w3] eqn:Er. apply Ho. left.
      eexists _, w2, w3, ops. by split; [|split; [exact Er|]].
  - intros w2. destruct (run_step _ w2) as [[o ops] w3] eqn:Er. apply Ho. left.
    eexists _, w2, w3, ops. by split; [|split; [exact Er|]].
Qed.

Lemma process_recorded_yields claim c record :
  yields (processed_as claim c record) (process_recorded run_step claim c record).
Proof.
  unfold process_recorded, processed_as. destruct (drr_cancel_request record) as [request|].
  { apply terminate_recorded_yields; [done|]. intros f Hf. by left. }
  apply yields_bind, step_outcome_yields; [|intros f Hf; left; by exists f].
  intros outcome caller replayed Hfrom.
  apply yields_bind, read_external_cancel_yields; [|intros f Hf; left; by exists f]. intros cancel.
  apply yields_bind.
  match goal with |- yields ?P _ => set (Q := P) end.
  assert (Hq : Q (Ok ())).
  { intros w. pose proof (settle_step_outcome_yields c outcome cancel (submission_of record) w) as H.
    unfold mbind, EIO_bind. destruct (settle_step_outcome _ _ _ _ w) as [[e0|f] w1]; cbn [fst] in H.
    - right. exists outcome, caller, cancel. split; [done|]. exists e0. split; [done|].
      replace (bool_decide (cancel = None)) with (negb (bool_decide (is_Some cancel))); [done|].
      destruct cancel; done.
    - right. by exists outcome, caller, cancel. }
  assert (Hf : ∀ f, plain_error f → Q (Err f)) by (intros f Hf; left; by exists f).
  destruct outcome as [o|e]; [|by apply yields_ret].
  destruct (_ && _ && _); [|by apply yields_ret]. apply yields_worker_call; [by intros []|done].
Qed.

Lemma process_claimed_yields claim c w :
  let r := (process_claimed run_step claim c w).1 in
  (∃ f, plain_error f ∧ r = Err f) ∨
  ∃ record w0, run_record (cs_run_id c) w = (Ok (Some record), w0) ∧ processed_as claim c record r.
Proof.
  cbn zeta. unfold process_claimed, mbind, EIO_bind, worker_call, map_err.
  destruct (run_record (cs_run_id c) w) as [[[record|]|e] w0].
  - right. exists record, w0. split; [done|]. apply process_recorded_yields.
  - left. eexists. split; [apply worker_error_plain|done].
  - left. eexists. split; [apply worker_error_plain|done].
Qed.
End processed.

(** ** The transition of a settlement *)

(** From [u] to [u'] the run of [c] makes one transition, if it runs at the step of
    [c] in the submission [sub]; the other runs are as they were. *)
Definition settles (c : ClaimedStep) (sub : Submission) (u u' : bytes → option bytes) : Prop :=
  others_kept (cs_run_id c) u u' ∧
  ∀ record, submission_of record = sub → run_in u (cs_run_id c) (Running record (claimed_ref c)) →
    ∃ p, step_moves record (claimed_ref c) p ∧ run_in u' (cs_run_id c) p.

Lemma settles_ext c sub u u' v : (∀ k, v k = u' k) → settles c sub u u' → settles c sub u v.
Proof.
  intros E [Ho Hr]. split.
  - intros r' Hne. rewrite !E. by apply Ho.
  - intros record Hs Hu. destruct (Hr record Hs Hu) as (p & Hm & Hp). exists p. split; [done|].
    destruct p; cbn [run_in] in *; by rewrite !E.
Qed.

Lemma ends_settles c sub ending res e queue s u :
  ends_as c sub ending res e → staged_ok queue (cs_run_id c) s → settles c sub u (kv_after (add_to s e) u).
Proof.
  intros (now & stored & owned & _ & ->) Hs.
  destruct (termination_moves now c ending stored sub owned s queue u Hs) as [Hp Ho].
  split; [done|]. intros record <- _. eexists. split; [|exact Hp]. by apply moves_end.
Qed.

Lemma advances_settles c sub payload when e queue s u :
  advances_as c payload when e → staged_ok queue (cs_run_id c) s → settles c sub u (kv_after (add_to s e) u).
Proof.
  intros (at' & wait & -> & _) Hs.
  destruct (advance_moves c payload (set_wait at' wait (next_step_opts c)) queue s u Hs) as (E1 & E2 & Ho).
  split; [done|]. intros record _ [Hr _]. exists (Running record (next_ref (claimed_ref c))).
  split; [apply moves_step|]. split; [|exact E2]. by rewrite E1.
Qed.

Lemma settled_settles c sub cancel outcome e queue s u :
  settled_as c sub cancel outcome (Ok e) → staged_ok queue (cs_run_id c) s →
  settles c sub u (kv_after (add_to s e) u).
Proof.
  unfold settled_as. intros H Hs. destruct cancel as [x|]; [by eapply ends_settles|].
  destruct outcome as [[]|]; [by eapply advances_settles|by eapply ends_settles..|done].
Qed.

Lemma staged_default_ok queue r : staged_ok queue r staged_default.
Proof. split; cbn; set_solver. Qed.

Lemma kv_after_add_default e u k : kv_after (add_to staged_default e) u k = kv_after e u k.
Proof. apply kv_after_same; cbn; [by rewrite (left_id_L ∅ (∪))|by rewrite elements_empty, app_nil_r]. Qed.

(** The outcomes that are stored for replay are those the runtime stored. *)
Definition replays_staged (run : RunId) : Prop := ∀ n p w o s w',
  load_step_output run n p w = (Ok (Some (o, s)), w') → staged_ok (Some queue_name) run s.

Lemma outcome_from_staged run_step claim c outcome caller :
  (step_output_replay = true → replays_staged (cs_run_id c)) →
  outcome_from run_step claim c outcome caller → staged_ok (Some queue_name) (cs_run_id c) caller.
Proof.
  intros Hr [(step & w & w' & ops & _ & _ & ->)|(Hs & w & w' & o & _ & Hl)].
  - apply staged_by_ok.
  - by eapply Hr.
Qed.

Lemma processed_settles run_step claim c record settled u :
  (step_output_replay = true → replays_staged (cs_run_id c)) →
  processed_as run_step claim c record settled →
  match settled with
  | Ok e => settles c (submission_of record) u (kv_after e u)
  | Err (WorkerFailure _ _ e) => e = effects_default ∨ settles c (submission_of record) u (kv_after e u)
  | Err WorkerPanic => True
  end.
Proof.
  intros Hr. assert (Hdef : ∀ cancel outcome e, settled_as c (submission_of record) cancel outcome (Ok e) →
    settles c (submission_of record) u (kv_after e u)).
  { intros cancel outcome e He. eapply settles_ext, (settled_settles c _ cancel outcome e None staged_default);
      [|exact He|apply staged_default_ok]. intros k. by rewrite kv_after_add_default. }
  assert (Hplain : ∀ f, plain_error f → match f with
    | WorkerFailure _ _ e => e = effects_default ∨ settles c (submission_of record) u (kv_after e u)
    | WorkerPanic => True end) by (intros [] Hf; [by left|done]).
  assert (Herr : ∀ cancel outcome f, settled_as c (submission_of record) cancel outcome (Err f) →
    match f with
    | WorkerFailure _ _ e => e = effects_default ∨ settles c (submission_of record) u (kv_after e u)
    | WorkerPanic => True end).
  { intros cancel outcome f [Hf|(_ & e & [Hf|(_ & effects & -> & He)] & _)]; [by apply Hplain..|]. right.
    eapply settles_ext, (ends_settles c _ _ _ effects None staged_default);
      [|exact He|apply staged_default_ok]. intros k. by rewrite kv_after_add_default. }
  unfold processed_as. destruct (drr_cancel_request record) as [request|].
  { destruct settled as [e|f]; [by eapply Hdef|by eapply Herr]. }
  intros [(f & Hf & ->)|(outcome & caller & cancel & Hfrom & H)]; [by apply Hplain|].
  destruct settled as [e|f]; [|by eapply Herr]. destruct H as (e0 & He0 & ->).
  destruct (_ || _); [|by eapply Hdef]. eapply settled_settles; [done|]. by eapply outcome_from_staged.
Qed.

(** The record of a claim leaves its key. *)
Definition claim_leaves (claim : Claim) (m m' : gmap bytes bytes) : Prop :=
  let k := claimed_key (queue (job claim)) (id (job claim)) in is_Some (m !! k) ∧ m' !! k = None.

(** What the settlement of an outcome of the worker did to the user key space: its
    effects, in the change in which the claimed record left, or nothing in the change
    of a retry. *)
Lemma settle_outcome_kv claim o w w' :
  settle_outcome claim o w = (Ok (), w') →
  match o with
  | WorkerStopped => passes w w'
  | WorkerOk e | WorkerFailed true _ e => effect w w' (λ m m', claim_leaves claim m m' ∧ kv_applied e m m')
  | WorkerFailed false _ e => effect w w' (λ m m', claim_leaves claim m m' ∧ (kv_applied e m m' ∨ kv_kept m m'))
  end.
Proof using DB DL OS SR SA SC EN.
  destruct o as [e|[] message e|]; cbn [settle_outcome]; [| | |by intros [= <-]];
    unfold ack_with, dead_letter_with, nack_with; intros H; apply IO_bind_Ok in H as (x & w1 & H & [= <-]);
    apply IO_bind_Ok in H as ([j rs] & w2 & H & [= _ <-]); apply settle_claim_kv in H as (j0 & now & Hrs & He);
    (eapply effect_mono; [|exact He]; intros m m' (_ & Hc & Hc' & Hk); split; [by split|]).
  - destruct rs; [by destruct Hk|discriminate Hrs].
  - destruct rs; [by destruct Hk|discriminate Hrs].
  - destruct rs; [left; by destruct Hk|by right].
Qed.

Lemma applied_default m m' : kv_applied effects_default m m' → kv_kept m m'.
Proof using DB DL. intros [_ Hk] k. rewrite Hk. unfold kv_after. by rewrite decide_False by apply not_elem_of_nil. Qed.

(** The change of a settlement, in which the claimed record leaves: the run of [c] makes a transition of the submission
    the processing read, or the user key space stays. *)
Definition moved_by (c : ClaimedStep) (w : World) (claim : Claim) (always : bool)
    (m m' : gmap bytes bytes) : Prop :=
  claim_leaves claim m m' ∧ ((if always then False else kv_kept m m') ∨
    ∃ record w0, run_record (cs_run_id c) w = (Ok (Some record), w0) ∧
      settles c (submission_of record) (user_kv m) (user_kv m')).

Lemma settlement_moves run_step claim c w r w1 w2 :
  (step_output_replay = true → replays_staged (cs_run_id c)) →
  process_claimed run_step claim c w = (r, w1) → settle_outcome claim (worker_outcome r) w1 = (Ok (), w2) →
  match r with
  | Ok _ => effect w1 w2 (moved_by c w claim true)
  | Err (WorkerFailure _ _ _) => effect w1 w2 (moved_by c w claim false)
  | Err WorkerPanic => passes w1 w2
  end.
Proof.
  intros Hr Hp Hs. apply settle_outcome_kv in Hs.
  pose proof (process_claimed_yields run_step claim c w) as Hy. rewrite Hp in Hy. cbn [fst] in Hy.
  assert (Hplain : ∀ m m' p message e, plain_error (WorkerFailure p message e) → kv_applied e m m' → kv_kept m m')
    by (intros m m' p message e ->; apply applied_default).
  destruct Hy as [(f & Hf & ->)|(record & w0 & Hrec & Hy)].
  - destruct f as [[] message e|]; cbn [worker_outcome] in Hs; [| |done];
      (eapply effect_mono; [|exact Hs]; intros m m' [Hc Hk]; split; [done|left]).
    + by eapply Hplain.
    + destruct Hk as [Hk|Hk]; [by eapply Hplain|done].
  - assert (Hset : ∀ m m' e, kv_applied e m m' → settles c (submission_of record) (user_kv m) (kv_after e (user_kv m)) →
      ∃ record w0, run_record (cs_run_id c) w = (Ok (Some record), w0) ∧ settles c (submission_of record) (user_kv m) (user_kv m')).
    { intros m m' e Hk Hst. exists record, w0. split; [done|]. eapply settles_ext; [apply Hk|done]. }
    pose proof (λ u, processed_settles run_step claim c record r u Hr Hy) as Hst.
    destruct r as [e|[p message e|]]; cbn [worker_outcome] in Hs; [| |done].
    + eapply effect_mono; [|exact Hs]. intros m m' [Hc Hk]. split; [done|]. right. by eapply Hset.
    + assert (H : ∀ m m', kv_applied e m m' → kv_kept m m' ∨ ∃ record w0,
        run_record (cs_run_id c) w = (Ok (Some record), w0) ∧ settles c (submission_of record) (user_kv m) (user_kv m')).
      { intros m m' Hk. destruct (Hst (user_kv m)) as [->|Hst']; [left; by apply applied_default|right; by eapply Hset]. }
      destruct p; (eapply effect_mono; [|exact Hs]; intros m m' [Hc Hk]; split; [done|]).
      * by apply H.
      * destruct Hk as [Hk|Hk]; [by apply H|by left].
Qed.

(** ** No conflict *)

Lemma advance_fit c payload opts : effects_fit (advance_run c payload opts).
Proof using EN SH UT RT SD SP SM SQ. intros k Hk. by apply not_elem_of_nil in Hk. Qed.

Lemma ends_fit c sub ending res e : ends_as c sub ending res e → effects_fit e.
Proof using EN SH UT RT SD SP SM SQ. intros (now & stored & owned & _ & ->). apply termination_fit. Qed.

(** Without a hook, what a step staged joins the effects of its outcome. *)
Lemma settled_fit c sub cancel outcome e queue s :
  terminal_hook = None → settled_as c sub cancel outcome (Ok e) → staged_ok queue (cs_run_id c) s →
  effects_fit (add_to s e) ∧ effects_fit e.
Proof using EN SH UT RT SD SP SM SQ.
  intros Hh H Hs.
  assert (Hend : ∀ ending res, ends_as c sub ending res e → effects_fit (add_to s e) ∧ effects_fit e).
  { intros ending res He. pose proof (ends_fit _ _ _ _ _ He) as Hf. split; [|done].
    destruct He as (now & stored & owned & _ & ->).
    apply (add_to_fit queue (cs_run_id c)); [done..| |]; intros k Hk;
      (eapply termination_runtime_keys; [done|first [left; exact Hk|right; exact Hk]]). }
  unfold settled_as in H. destruct cancel as [x|]; [by eapply Hend|].
  destruct outcome as [[p [| | |]| | |]|]; [try (by eapply Hend)..|done];
    destruct H as (run_at & wait & -> & _); (split; [|apply advance_fit]);
    (apply (add_to_fit queue (cs_run_id c)); [done|apply advance_fit|by intros k Hk%not_elem_of_nil|]);
    (intros k Hk Hc; apply (caller_not_record _ _ Hc); cbn in Hk;
     apply lookup_singleton_is_Some in Hk as <-; apply record_key_step).
Qed.

Lemma default_fit : effects_fit effects_default.
Proof using EN SH UT RT SD SP SM SQ. intros k Hk. by apply not_elem_of_nil in Hk. Qed.

Definition settled_effects (r : result WorkerError SettlementEffects) : SettlementEffects :=
  match r with Ok e | Err (WorkerFailure _ _ e) => e | Err WorkerPanic => effects_default end.

Lemma failed_fit c sub e f : fails_as c sub e f → effects_fit (settled_effects (Err f)).
Proof using EN SH UT RT SD SP SM SQ.
  intros [Hf|(_ & effects & -> & He)]; [|by eapply ends_fit].
  destruct f as [p m e0|]; [|apply default_fit]. cbn in *. subst e0. apply default_fit.
Qed.

Lemma processed_fit run_step claim c w :
  terminal_hook = None → (step_output_replay = true → replays_staged (cs_run_id c)) →
  effects_fit (settled_effects (process_claimed run_step claim c w).1).
Proof using Type UT.
  intros Hh Hr. pose proof (process_claimed_yields run_step claim c w) as Hy. cbn zeta in Hy.
  assert (Hplain : ∀ f, plain_error f → effects_fit (settled_effects (Err f)))
    by (intros [p m e0|] Hf; [cbn in *; subst e0; apply default_fit|apply default_fit]).
  destruct Hy as [(f & Hf & ->)|(record & w0 & _ & Hy)]; [by apply Hplain|].
  assert (Hset : ∀ cancel outcome r, settled_as c (submission_of record) cancel outcome r → effects_fit (settled_effects r)).
  { intros cancel outcome [e|f] H.
    - by apply (settled_fit c _ cancel outcome e None staged_default Hh H), staged_default_ok.
    - destruct H as [Hf|(_ & e & Hf & _)]; [by apply Hplain|by eapply failed_fit]. }
  unfold processed_as in Hy. destruct (drr_cancel_request record); [by eapply Hset|].
  destruct Hy as [(f & Hf & ->)|(outcome & caller & cancel & Hfrom & H)]; [by apply Hplain|].
  destruct (process_claimed run_step claim c w).1 as [e|f]; [|by eapply Hset].
  destruct H as (e0 & He0 & ->). destruct (_ || _); [|by apply (Hset cancel outcome (Ok e0))].
  refine (proj1 (settled_fit c _ cancel outcome e0 (Some queue_name) caller Hh He0 _)).
  by eapply outcome_from_staged.
Qed.

End settle.
