(* ===== verification/RunSubmit.v ===== *)
(** * Submissions of runs

    What a submission that returns did to the store: it wrote the record and the
    pointer of its run in one change with the job of step 0, or it found the run and
    changed nothing. *)
From S2P Require Import Prelude Bytes Error Monad Keys Job Store Stats LeaseRegistry.
From S2P Require Import TimeBound ClaimCursor Completion Txn Stage StoreInv Sound Core.
From S2P Require Import QueueCore Control Effects Claim Settle Enqueue.
From S2P Require Import Sweeps InboxEntry Queue CoreInv StagedOps View OpsOk CallsOk.
From S2P Require Import Finishes Linear Outcomes Frame Applied RunError RunKeys.
From S2P Require Import RunRecords StepEffects Runs RunCalls RunFlow RunReads.

(** ** The effects of a spec *)

Lemma check_all_Ok {A} (f : A → WfResult ()) l :
  check_all f l = Ok () ↔ ∀ a, a ∈ l → f a = Ok ().
Proof.
  induction l as [|a l IH]; cbn.
  - split; [intros _ a Ha; by apply not_elem_of_nil in Ha|done].
  - split.
    + intros ([] & Ha & Hl)%bind_Ok b [->|Hb]%elem_of_cons; [done|by apply IH].
    + intros H. rewrite (H a) by left. cbn. apply IH. intros b Hb. apply H. by right.
Qed.

(** Effects that neither write nor delete a record of the runtime. *)
Definition keeps_records (e : SettlementEffects) : Prop :=
  ∀ k, record_key k → kv_writes e !! k = None ∧ k ∉ kv_deletes e.

Lemma checked_effects e q : check_effects e q = Ok () → keeps_records e ∧ kv_compares e = [].
Proof.
  unfold check_effects. destruct (kv_compares e); [|done]. intros ([] & H & _)%bind_Ok. split; [|done].
  rewrite check_all_Ok in H. intros k Hk. apply record_key_reserved in Hk. split.
  - destruct (kv_writes e !! k) as [v|] eqn:E; [|done]. rewrite H in Hk; [done|].
    apply elem_of_app. left. apply list_elem_of_fmap. exists (k, v). split; [done|]. by apply elem_of_map_to_list.
  - intros Hd. rewrite H in Hk; [done|]. apply elem_of_app. by right.
Qed.

Lemma kept_record e u k : keeps_records e → record_key k → kv_after e u k = u k.
Proof. intros He [Hw Hd]%He. unfold kv_after. by rewrite decide_False, Hw by done. Qed.

Section submissions.
  Context {DB : SlateDb} {RD : SlateReads} {OS : ObjectStore} {SR : Serde JobRecord} {SA : Serde JobAttempt}.
  Context {SC : Serde CountRecord} {EN : Env} {SH : Sha256} {UT : UlidText} {RT : Runtime}.
  Context {SD : Serde DurableRun} {SP : Serde DurableStepRef} {SM : Serde DurableMember}.
  Context {SQ : Serde (list string)} {DL : SlateDbLaws merge_batch}.
#[local] Set Default Proof Using "Type DL SR SA EN".

Abbreviation Wf := (EIO WfError World).

Section effects.
  Context (r : RunId) (e0 : SettlementEffects) (record : DurableRunRecord) (job_id : string).
  Context (mb : option Membership) (He0 : keeps_records e0).
#[local] Set Default Proof Using "He0".

Abbreviation e := (submission_effects r e0 record job_id mb).

Lemma submission_deletes k : record_key k → k ∉ kv_deletes e.
Proof. intros [_ Hd]%He0. unfold submission_effects. by destruct mb. Qed.

Lemma submission_kv u k :
  record_key k → kv_after e u k =
    if decide (membership_kv_key <$> mb = Some k) then Some (durable_encode (pending_member r))
    else if decide (k = step_kv_key r) then Some (current_step_bytes 0 job_id)
    else if decide (k = run_kv_key r) then Some (durable_encode (DActive record)) else u k.
Proof.
  intros Hk. pose proof (He0 k Hk) as [Hw Hd]. unfold submission_effects.
  set (e1 := eff_kv_put (step_kv_key r) _ _).
  assert (H1 : kv_after e1 u k = if decide (k = step_kv_key r) then Some (current_step_bytes 0 job_id)
    else if decide (k = run_kv_key r) then Some (durable_encode (DActive record)) else u k).
  { subst e1. case_decide as D1; [subst k; by apply kv_after_put_eq|]. rewrite kv_after_put_ne by done.
    case_decide as D2; [subst k; by apply kv_after_put_eq|]. rewrite kv_after_put_ne by done.
    by apply kept_record. }
  destruct mb as [m|]; [|by rewrite decide_False].
  rewrite (kv_after_same (eff_kv_put (membership_kv_key m) (durable_encode (pending_member r)) e1)) by done.
  cbn [fmap option_fmap option_map]. destruct (decide (Some (membership_kv_key m) = Some k)) as [D|D].
  - apply (inj Some) in D as <-. by apply kv_after_put_eq.
  - rewrite kv_after_put_ne; [done|]. intros ->. by apply D.
Qed.
End effects.

(** The effects of an owned submission put the index entry of the run and, when the
    queue is new to the owner, the list of its queues. *)
Lemma owned_submission_inv e owner r w e' w' :
  owned_submission_effects e owner r w = (Ok e', w') → ∃ step,
    own_step owner = Some step ∧ claim_fence e' = Some (os_fence step) ∧ kv_deletes e' = kv_deletes e ∧
    kv_writes e' !! owned_run_kv_key (own_run owner) queue_name r = Some [] ∧
    (∀ u r', kv_after e' u (run_kv_key r') = kv_after e u (run_kv_key r') ∧
             kv_after e' u (step_kv_key r') = kv_after e u (step_kv_key r')) ∧
    (∀ u g k, kv_after e' u (group_member_kv_key g k) = kv_after e u (group_member_kv_key g k)).
Proof.
  unfold owned_submission_effects. destruct (own_step owner) as [step|]; [|done]. intros H.
  exists step. split; [done|].
  set (e1 := eff_kv_put (owned_run_kv_key (own_run owner) queue_name r) [] (set_claim_fence (os_fence step) e)) in *.
  apply EIO_bind_Ok in H as ([queues cmp] & w1 & Eq & H). injection H as <- _.
  assert (Hc : compare_key cmp = owner_queues_kv_key (own_run owner)).
  { unfold read_owned_queues in Eq. apply EIO_bind_Ok in Eq as (b & w2 & _ & Eq). destruct b.
    - apply EIO_bind_Ok in Eq as (qs & w3 & _ & Eq). by injection Eq as _ <- _.
    - by injection Eq as _ <- _. }
  assert (H1 : ∀ u k, k ≠ owned_run_kv_key (own_run owner) queue_name r → kv_after e1 u k = kv_after e u k)
    by (intros u k Hk; etrans; [by apply kv_after_put_ne|done]).
  assert (Hw : kv_writes e1 !! owned_run_kv_key (own_run owner) queue_name r = Some [])
    by apply lookup_insert_eq.
  case_decide.
  - split_and!; [done..| |]; [intros u r'; split|intros u g k]; by apply H1.
  - rewrite Hc. split_and!; [done|done|cbn; by rewrite lookup_insert_ne|intros u r'; split|intros u g k];
      (etrans; [apply kv_after_put_ne; discriminate|by apply H1]).
Qed.

(** The change of a submission: the dedup key of step 0 was free, and the claim of the
    owner's step held; after it the run is active at step 0, the other runs are as they
    were, its member record is pending, and the owner has it in its index. *)
Definition submitted (r : RunId) (spec : RunSpec) (mb : option Membership)
    (request : option DurableCancelRequest) (job_id : string) (m m' : gmap bytes bytes) : Prop :=
  (∃ qn, qn_str qn = queue_name ∧ m !! dedup_index_key qn (step_dedup_key r 0) = None) ∧
  (∃ record, drr_run_id record = r ∧ drr_input_hash record = hash_input (rs_input spec) ∧
     drr_cancel_request record = request ∧ submission_of_job job_id = Some (drr_submission_id record) ∧
     run_in (user_kv m') r (Running record (mkDStepRef 0 job_id))) ∧
  others_kept r (user_kv m) (user_kv m') ∧
  (∀ x, mb = Some x → user_kv m' (membership_kv_key x) = Some (durable_encode (pending_member r))) ∧
  (∀ o, ro_owner (rs_options spec) = Some o → ∃ step, own_step o = Some step ∧ os_sealed step = false ∧
     is_Some (m !! claimed_key (fence_queue (os_fence step)) (fence_id (os_fence step))) ∧
     user_kv m' (owned_run_kv_key (own_run o) queue_name r) = Some []).

Lemma submitted_applied r spec mb request job_id record e1 e m m' qn :
  keeps_records (rs_effects spec) → drr_run_id record = r → drr_input_hash record = hash_input (rs_input spec) →
  drr_cancel_request record = request → submission_of_job job_id = Some (drr_submission_id record) →
  e1 = submission_effects r (rs_effects spec) record job_id mb →
  match ro_owner (rs_options spec) with
  | Some o => open_owned_submission o = Ok () ∧
      ∃ w w', owned_submission_effects e1 o r w = (Ok e, w')
  | None => e = e1
  end →
  qn_str qn = queue_name → m !! dedup_index_key qn (step_dedup_key r 0) = None →
  fence_holds e m → kv_applied e m m' → submitted r spec mb request job_id m m'.
Proof.
  intros He0 Hr Hh Hc Hs He1 Ho Hq Hd Hf [_ Hkv].
  assert (H : ∀ u, (∀ r', kv_after e u (run_kv_key r') = kv_after e1 u (run_kv_key r') ∧
      kv_after e u (step_kv_key r') = kv_after e1 u (step_kv_key r')) ∧
    ∀ g k, kv_after e u (group_member_kv_key g k) = kv_after e1 u (group_member_kv_key g k)).
  { intros u. destruct (ro_owner _) as [o|]; [|by subst e].
    destruct Ho as (_ & w & w' & (step & _ & _ & _ & _ & H1 & H2)%owned_submission_inv). split; intros; auto. }
  destruct (H (user_kv m)) as [Hrs Hg].
  assert (Hrun : ∀ r', kv_after e1 (user_kv m) (run_kv_key r') = if decide (r' = r)
    then Some (durable_encode (DActive record)) else user_kv m (run_kv_key r')).
  { intros r'. subst e1. rewrite submission_kv by (done || apply record_key_run).
    rewrite decide_False by (destruct mb; discriminate). rewrite decide_False by discriminate.
    destruct (decide (r' = r)) as [->|Hne]; [by rewrite decide_True|].
    by rewrite decide_False by (by intros ?%(inj run_kv_key)). }
  assert (Hstep : ∀ r', kv_after e1 (user_kv m) (step_kv_key r') = if decide (r' = r)
    then Some (current_step_bytes 0 job_id) else user_kv m (step_kv_key r')).
  { intros r'. subst e1. rewrite submission_kv by (done || apply record_key_step).
    rewrite decide_False by (destruct mb; discriminate).
    destruct (decide (r' = r)) as [->|Hne]; [by rewrite decide_True|].
    rewrite decide_False by (by intros ?%(inj step_kv_key)). by rewrite decide_False. }
  split; [by exists qn|]. split; [|split; [|split]].
  - exists record. split_and!; [done..|]. split; rewrite Hkv.
    + by rewrite (proj1 (Hrs r)), Hrun, decide_True.
    + by rewrite (proj2 (Hrs r)), Hstep, decide_True.
  - intros r' Hne. rewrite !Hkv, (proj1 (Hrs r')), (proj2 (Hrs r')), Hrun, Hstep. by rewrite !decide_False.
  - intros x ->. rewrite Hkv. unfold membership_kv_key. rewrite Hg. subst e1.
    rewrite submission_kv; [by rewrite decide_True|done|].
    exists GROUP_KV_PREFIX. eexists. split; [unfold record_prefixes; set_solver|done].
  - intros o Eo. rewrite Eo in Ho. destruct Ho as (Hopen & w & w' & Ho).
    apply owned_submission_inv in Ho as (step & Es & Ef & Edel & Ew & _). exists step. split; [done|].
    unfold open_owned_submission in Hopen. destruct (negb _); [done|]. rewrite Es in Hopen.
    destruct (os_sealed step); [done|]. split; [done|]. split; [by apply Hf|].
    rewrite Hkv. unfold kv_after. rewrite Ew, decide_False; [done|]. rewrite Edel. subst e1.
    apply submission_deletes; [done|].
    exists OWNED_KV_PREFIX. eexists. split; [unfold record_prefixes; set_solver|done].
Qed.

(** The run of a submission that found one: its record has the hash of the input, or
    the record of step 0 holds its dedup key. *)
Definition found_active (r : RunId) (spec : RunSpec) (m : gmap bytes bytes) : Prop :=
  ∃ record, stored (run_kv_key r) (Some (DActive record)) m ∧ drr_input_hash record = hash_input (rs_input spec).
Definition found_ended (r : RunId) (spec : RunSpec) (job_id : string) (m : gmap bytes bytes) : Prop :=
  ∃ t, stored (run_kv_key r) (Some (DTerminated t)) m ∧ dt_input_hash t = hash_input (rs_input spec) ∧
    dsr_job_id (dt_final_step t) = job_id.
Definition found_step (r : RunId) (job_id : string) (m : gmap bytes bytes) : Prop :=
  ∃ s, stored (step_kv_key r) (Some s) m ∧ dsr_job_id s = job_id.
Definition found_dedup (r : RunId) (job_id : string) (m : gmap bytes bytes) : Prop :=
  ∃ qn b, qn_str qn = queue_name ∧ m !! dedup_index_key qn (step_dedup_key r 0) = Some b ∧
    from_utf8 b = Some job_id.
Definition found (r : RunId) (spec : RunSpec) (job_id : string) w w' : Prop :=
  no_effect w w' (found_active r spec) ∧ no_effect w w' (found_step r job_id) ∨
  no_effect w w' (found_ended r spec job_id) ∨ no_effect w w' (found_dedup r job_id).

Lemma found_passes r spec i w w' : found r spec i w w' → passes w w'.
Proof. intros [[H _]|[H|H]]; by eapply no_effect_passes. Qed.

Lemma found_around r spec i w0 w w' : passes w0 w → found r spec i w w' → found r spec i w0 w'.
Proof.
  intros Hp. assert (H : ∀ P, no_effect w w' P → no_effect w0 w' P)
    by (intros P HP; by eapply no_effect_around).
  intros [[? ?]|[?|?]]; [left|right; left|right; right]; auto.
Qed.

(** An error of the runtime other than one of the storage. *)
Definition wf_not_storage (e : WfError) : Prop := match e with WfQueue e => not_storage e | _ => True end.

(** What one attempt to submit did. *)
Definition submission_result (r : RunId) (spec : RunSpec) (mb : option Membership)
    (request : option DurableCancelRequest) w (res : result WfError SubmitOutcome) w' : Prop :=
  match res with
  | Ok o => sm_run_id o = r ∧
      if newly_submitted o then effect w w' (submitted r spec mb request (sm_job_id o))
      else found r spec (sm_job_id o) w w'
  | Err e => wf_not_storage e → passes w w'
  end.

Lemma result_around r spec mb request w0 w res w' :
  passes w0 w → submission_result r spec mb request w res w' → submission_result r spec mb request w0 res w'.
Proof.
  intros Hp. destruct res as [o|e]; cbn.
  - intros [-> H]. split; [done|]. destruct (newly_submitted o); [by eapply effect_around|by eapply found_around].
  - intros H Hn. etrans; [done|by apply H].
Qed.

Lemma result_read {A} r spec mb request w (m : Wf A) k res w' :
  reading m → (∀ a w1, m w = (Ok a, w1) → passes w w1 → k a w1 = (res, w') →
    submission_result r spec mb request w1 res w') →
  (m ≫= k) w = (res, w') → submission_result r spec mb request w res w'.
Proof.
  intros Hm Hk. unfold mbind, EIO_bind. destruct (m w) as [[a|e] w1] eqn:E;
    (assert (Hp : passes w w1) by by eapply Hm).
  - intros H. eapply result_around; [exact Hp|]. by eapply Hk.
  - intros [= <- <-]. by intros _.
Qed.

Lemma check_input_Ok r a b u : check_input r a b = Ok u → a = b.
Proof. unfold check_input. by case_decide. Qed.

Lemma check_input_passes r spec mb request w (m : Wf SubmitOutcome) a b res w' :
  (a = b → m w = (res, w') → submission_result r spec mb request w res w') →
  (eio_result (check_input r a b) ≫= λ _, m) w = (res, w') → submission_result r spec mb request w res w'.
Proof.
  intros Hm. apply result_read; [apply reading_result|]. intros u w1 [= E <-] _.
  by apply Hm, (check_input_Ok r a b u).
Qed.

Section run.
  Context (r : RunId) (spec : RunSpec) (mb : option Membership) (request : option DurableCancelRequest).
  Context (Hspec : check_effects (rs_effects spec) queue_name = Ok ()).

Abbreviation result_of := (submission_result r spec mb request).

(** The enqueue of step 0 with its effects. *)
Lemma enqueue_step_result q pl opts e record job_id (k : result WfError (EnqueueResult * list EnqueueResult) → Wf SubmitOutcome)
    w res w' :
  q = queue_name → opt_count_wait opts = None → opt_dedup_key opts = Some (step_dedup_key r 0) →
  opt_id_override opts = Some job_id →
  drr_run_id record = r → drr_input_hash record = hash_input (rs_input spec) →
  drr_cancel_request record = request → submission_of_job job_id = Some (drr_submission_id record) →
  match ro_owner (rs_options spec) with
  | Some o => open_owned_submission o = Ok () ∧ ∃ w w',
      owned_submission_effects (submission_effects r (rs_effects spec) record job_id mb) o r w = (Ok e, w')
  | None => e = submission_effects r (rs_effects spec) record job_id mb
  end →
  (∀ w1, k (Ok (New job_id, [])) w1 = (Ok (mkSubmitOutcome r true job_id), w1)) →
  (∀ i rs, k (Ok (New i, rs)) = k (Ok (New i, []))) →
  (∀ i rs w1 res w2, k (Ok (AlreadyEnqueued i, rs)) w1 = (res, w2) → passes w1 w2 ∧
     ∀ o, res = Ok o → o = mkSubmitOutcome r false i) →
  (∀ e0 w1, ∃ e1, k (Err e0) w1 = (Err e1, w1) ∧ (wf_not_storage e1 → wf_not_storage e0)) →
  (enqueued ← eio_try (lift_q (yield ≫= λ _, enqueue_with_effects q pl opts e)); k enqueued) w = (res, w') →
  result_of w res w'.
Proof using Type* SA SR.
  intros -> Hcw Hdk Hid Hr Hh Hc Hs Ho Hnew Hrs Hdup Hfail H.
  apply checked_effects in Hspec as [Hk _].
  unfold mbind at 1, EIO_bind at 1, eio_try, lift_q, map_err in H.
  unfold mbind at 1, EIO_bind at 1 in H. destruct (yield w) as [[u|e0] w1] eqn:Ey;
    [|by unfold yield, io_modify in Ey]. apply yield_passes in Ey.
  eapply result_around; [exact Ey|].
  destruct (enqueue_with_effects queue_name pl opts e w1) as [[[[i|i] rs]|err] w2] eqn:E.
  - apply enqueue_with_effects_kv in E as (qn & Hq & Hi & He); [|done]. rewrite (Hi _ Hid), Hrs, Hnew in H.
    injection H as <- <-. split; [done|]. cbn. eapply effect_mono; [|exact He]. intros m m' (Hd & Hf & Hkv).
    by eapply submitted_applied; [..|exact Ho|exact Hq|by apply Hd|exact Hf|exact Hkv].
  - apply enqueue_with_effects_kv in E as (qn & Hq & Hn); [|done].
    apply Hdup in H as [Hp H]. destruct res as [o|e1]; cbn.
    + rewrite (H o eq_refl). split; [done|]. right. right.
      destruct Hn as (w3 & ? & (dk & b & E & Hb & Hu) & ?). rewrite Hdk in E. injection E as <-.
      exists w3. split; [done|]. split; [by exists qn, b|by etrans].
    + intros _. etrans; [by eapply no_effect_passes|done].
  - destruct (Hfail (WfQueue err) w2) as (e1 & Hk1 & Hn). rewrite Hk1 in H. injection H as <- <-.
    cbn. intros Hne. eapply enqueue_with_effects_failed; [exact E|]. by apply Hn in Hne.
Qed.

Lemma enqueue_run_once_result w res w' :
  enqueue_run_once r spec mb request w = (res, w') → result_of w res w'.
Proof using Type* SA SR.
  unfold enqueue_run_once. unfold mbind at 1, EIO_bind at 1.
  destruct (run_entry r w) as [[[[existing|t]|]|e] w1] eqn:Er; (assert (Hp : passes w w1) by by eapply reading_run_entry).
  - apply kv_record_at in Er. intros H. cbn in H.
    unfold mbind at 1, EIO_bind at 1, eio_result in H.
    destruct (check_input _ _ _) as [u|e] eqn:Eh; [|by injection H as <- <-; intros _].
    apply check_input_Ok in Eh. unfold mbind at 1, EIO_bind at 1 in H.
    destruct (current_step r w1) as [[s|e] w2] eqn:Es; injection H as <- <-.
    2: { intros _. etrans; [done|by eapply reading_current_step]. }
    split; [done|]. left.
    assert (Hp2 : passes w1 w2) by by eapply reading_current_step.
    apply EIO_bind_Ok in Es as ([c|] & w3 & Ec & Es); [|done]. injection Es as -> <-.
    apply kv_record_at in Ec. split.
    + eapply no_effect_around; [reflexivity|exact Hp2|]. destruct Er as (w4 & ? & Hs & ?). exists w4.
      split; [done|]. split; [by exists existing|done].
    + destruct Ec as (w4 & ? & Hs & ?). exists w4. split; [by etrans|]. split; [by exists s|done].
  - apply kv_record_at in Er. intros H. cbn in H.
    unfold mbind at 1, EIO_bind at 1, eio_result in H.
    destruct (check_input _ _ _) as [u|e] eqn:Eh; [|by injection H as <- <-; intros _].
    apply check_input_Ok in Eh. injection H as <- <-. split; [done|]. right. left.
    destruct Er as (w4 & ? & Hs & ?). exists w4. split; [done|]. split; [by exists t|done].
  - intros H. eapply result_around; [exact Hp|]. clear Er Hp. revert H.
    apply result_read; [apply reading_still, still_next_job_id|]. intros job_id w2 _ _.
    cbv zeta. apply result_read; [case_match; [apply reading_ret|apply reading_err]|].
    intros sid w3 Hsid _. destruct (submission_of_job job_id) as [sid'|] eqn:Esub; [|done]. injection Hsid as <- <-.
    apply result_read; [apply reading_still, still_now_ms|]. intros now w4 _ _.
    set (record := mkDRunRecord _ _ _ _ _). set (e1 := submission_effects _ _ _ _ _).
    set (req := step_enqueue_request _ _ _ _ _ _).
    apply result_read.
    { destruct (ro_owner _); [|apply reading_ret].
      apply reading_bind; [apply reading_result|intros; apply reading_owned_effects]. }
    intros e w5 He _.
    apply (enqueue_step_result _ _ _ e record job_id (λ enqueued, match enqueued, ro_owner (rs_options spec) with
      | Err (WfQueue ClaimLost), Some owner => eio_err (OwnerStepEnded (owner_run_id (own_run owner)))
      | Err e, _ => eio_err e
      | Ok (New _, _), _ => mret (mkSubmitOutcome r true job_id)
      | Ok (AlreadyEnqueued existing, _), _ =>
          record ← run_record r;
          _ ← eio_result (match record with
            | Some record => check_input r (drr_input_hash record) (hash_input (rs_input spec))
            | None => Ok ()
            end);
          mret (mkSubmitOutcome r false existing)
      end)); try done.
    + destruct (ro_owner _) as [o|] eqn:Eo.
      * apply EIO_bind_Ok in He as (u & w6 & [= Eu <-] & He). split; [by destruct u|]. by eexists _, _.
      * by injection He as <- _.
    + intros i rs w6 res' w7. unfold mbind at 1, EIO_bind at 1.
      destruct (run_record r w6) as [[rec|e0] w8] eqn:E; (assert (Hp : passes w6 w8) by by eapply reading_run_record).
      * unfold mbind, EIO_bind, eio_result. destruct (match rec with Some _ => _ | None => _ end);
          intros [= <- <-]; split; [done|by intros o [= <-]|done|done].
      * intros [= <- <-]. by split.
    + intros e0 w6. destruct e0 as [| | | | | | | | | | | | | |e0| | | | | | | | | | |]; try (by eexists).
      destruct e0; try (by eexists). destruct (ro_owner _); [|by eexists]. eexists. split; [done|].
      by intros _ x.
  - intros [= <- <-]. by intros _.
Qed.
Lemma enqueue_run_loop_result fuel w res w' :
  enqueue_run_loop fuel r spec mb request w = (res, w') → result_of w res w'.
Proof using Type* SA SR.
  revert w res w'. induction fuel as [|fuel IH]; intros w res w'; cbn [enqueue_run_loop].
  { intros [= <- <-]. by intros _. }
  unfold mbind, EIO_bind, eio_try. destruct (enqueue_run_once r spec mb request w) as [a w1] eqn:E.
  apply enqueue_run_once_result in E.
  destruct a as [o|[| | | | | | | | | | | | | |[]| | | | | | | | | | |]]; unfold eio_result; try (by intros [= <- <-]).
  intros H. eapply result_around; [|by apply IH]. by apply E.
Qed.

Lemma enqueue_run_result w res w' :
  enqueue_run r spec mb request w = (res, w') → result_of w res w'.
Proof using Type* SA SR.
  unfold enqueue_run. apply result_read; [apply reading_turns|]. intros n w1 _ _. apply enqueue_run_loop_result.
Qed.
End run.

(** A submission of [spec], after its checks. *)
Definition submission_done (spec : RunSpec) (mb : option Membership) (is_request : option DurableCancelRequest → Prop)
    w (res : result WfError SubmitOutcome) w' : Prop :=
  match res with
  | Ok o => ∃ request, is_request request ∧ check_headers (ro_headers (rs_options spec)) = Ok () ∧
      check_effects (rs_effects spec) queue_name = Ok () ∧
      (∀ r, rs_run_id spec = Some r → sm_run_id o = r) ∧
      submission_result (sm_run_id o) spec mb request w (Ok o) w'
  | Err e => wf_not_storage e → passes w w'
  end.

Lemma reading_generate : reading generate.
Proof.
  unfold generate. apply reading_bind; [apply reading_still, still_next_job_id|]. intros i.
  case_match; [apply reading_ret|apply reading_err].
Qed.

Lemma validated spec mb is_request (k : RunId → Wf SubmitOutcome) w res w' :
  (∀ r w1 res w', check_effects (rs_effects spec) queue_name = Ok () → k r w1 = (res, w') →
    match res with
    | Ok o => sm_run_id o = r ∧ ∃ request, is_request request ∧ submission_result r spec mb request w1 res w'
    | Err e => wf_not_storage e → passes w1 w'
    end) →
  (r ← validate_spec spec; k r) w = (res, w') → submission_done spec mb is_request w res w'.
Proof.
  intros Hk. unfold validate_spec, mbind, EIO_bind, eio_result.
  destruct (check_headers _) as [[]|e] eqn:Eh; [|by intros [= <- <-] _].
  destruct (check_effects _ _) as [[]|e] eqn:Ee; [|by intros [= <- <-] _].
  set (chosen := match rs_run_id spec with Some r => _ | None => _ end).
  assert (Hr : reading chosen) by (subst chosen; case_match; [apply reading_ret|apply reading_generate]).
  destruct (chosen w) as [[r|e] w1] eqn:Ec; (assert (Hp : passes w w1) by exact (Hr _ _ _ Ec));
    [|by intros [= <- <-] _].
  intros H%Hk; [|done]. destruct res as [o|e]; unfold submission_done.
  - destruct H as (<- & request & Hreq & H). exists request. split; [done|]. split; [done|]. split; [done|]. split.
    + intros r' Er. subst chosen. rewrite Er in Ec. by injection Ec as <- _.
    + by apply (result_around _ _ _ _ w w1 (Ok o)).
  - intros Hn. etrans; [done|by apply H].
Qed.

Lemma enqueue_run_done r spec mb (is_request : option DurableCancelRequest → Prop) request w1 res w' :
  is_request request → check_effects (rs_effects spec) queue_name = Ok () →
  enqueue_run r spec mb request w1 = (res, w') →
  match res with
  | Ok o => sm_run_id o = r ∧ ∃ request, is_request request ∧ submission_result r spec mb request w1 res w'
  | Err e => wf_not_storage e → passes w1 w'
  end.
Proof using Type* SA SR.
  intros Hreq He H. apply enqueue_run_result in H; [|done]. destruct res as [o|e]; [|done].
  split; [exact (proj1 H)|]. by exists request.
Qed.

Lemma submit_done spec w res w' :
  submit spec w = (res, w') → submission_done spec None (λ request, request = None) w res w'.
Proof using Type* SA SR. apply validated. intros. by eapply enqueue_run_done. Qed.
Lemma submit_member_done m spec w res w' :
  submit_member m spec w = (res, w') → submission_done spec (Some m) (λ request, request = None) w res w'.
Proof using Type* SA SR. apply validated. intros. by eapply enqueue_run_done. Qed.
Lemma submit_cancelled_done spec reason w res w' :
  submit_cancelled spec reason w = (res, w') → submission_done spec None
    (λ request, ∃ now, request = Some (mkDCancelRequest reason DRequest now)) w res w'.
Proof using Type* SA SR.
  apply validated. intros r w1 res' w2 He. unfold mbind, EIO_bind.
  destruct (lift_q now_ms w1) as [[now|e] w3] eqn:En;
    (assert (Hp : passes w1 w3) by (eapply reading_still, En; apply still_now_ms)); [|by intros [= <- <-]].
  intros H. eapply (enqueue_run_done _ _ _ (λ request, ∃ now, request = Some (mkDCancelRequest reason DRequest now))) in H;
    [|by exists now|done].
  destruct res' as [o|e].
  - destruct H as (Hr & request & Hreq & H). split; [done|]. exists request. split; [done|].
    by apply (result_around _ _ _ _ w1 w3 (Ok o)).
  - intros Hn. etrans; [done|by apply H].
Qed.

(** ** Consistency *)

Section consistency.
  Context {UL : UlidLaws}.

(** A call of the runtime that keeps the process consistent. *)
Definition keeps_ok {E A} (m : EIO E World A) : Prop := ∀ w, world_ok w → world_ok (m w).2.

Lemma keeps_reading {E A} (m : EIO E World A) : reading m → keeps_ok m.
Proof. intros Hm w Hw. destruct (m w) as [r w'] eqn:Ew. eapply passes_ok, Hw. by eapply Hm. Qed.
Lemma keeps_ok_bind {E A B} (m : EIO E World A) (f : A → EIO E World B) :
  keeps_ok m → (∀ a, keeps_ok (f a)) → keeps_ok (m ≫= f).
Proof using Type.
  intros Hm Hf w Hw. unfold mbind, EIO_bind. specialize (Hm w Hw).
  destruct (m w) as [[a|e] w1]; [by apply Hf|done].
Qed.
Lemma keeps_bind_reading {E A B} (m : EIO E World A) (f : A → EIO E World B) :
  reading m → (∀ a w w1, m w = (Ok a, w1) → world_ok w1 → world_ok (f a w1).2) → keeps_ok (m ≫= f).
Proof.
  intros Hm Hf w Hw. unfold mbind, EIO_bind. destruct (m w) as [[a|e] w1] eqn:Ew;
    (assert (Hw1 : world_ok w1) by (eapply passes_ok, Hw; by eapply Hm)); [by eapply Hf|done].
Qed.
Lemma keeps_try {E F A} (m : EIO E World A) : keeps_ok m → keeps_ok (eio_try m : EIO F World _).
Proof using Type. intros Hm w Hw. specialize (Hm w Hw). unfold eio_try. by destruct (m w). Qed.

Lemma submission_enqueues r e record job_id mb :
  enqueues (submission_effects r e record job_id mb) = enqueues e.
Proof using Type. unfold submission_effects. by destruct mb. Qed.
Lemma owned_enqueues e owner r w e' w' :
  owned_submission_effects e owner r w = (Ok e', w') → enqueues e' = enqueues e.
Proof using Type.
  unfold owned_submission_effects. destruct (own_step owner); [|done].
  intros ([queues cmp] & w1 & _ & [= <- _])%EIO_bind_Ok. by case_decide.
Qed.

(** The id of step 0 is supplied. *)
Lemma enqueue_run_once_ok r spec mb request :
  ids_needed (enqueues (rs_effects spec)) = 0 → keeps_ok (enqueue_run_once r spec mb request).
Proof using Type UL SA DL SR EN.
  intros Hids. unfold enqueue_run_once. apply keeps_ok_bind; [apply keeps_reading, reading_run_entry|].
  intros [[existing|t]|].
  - apply keeps_reading, reading_bind; [apply reading_result|]. intros.
    apply reading_bind; [apply reading_current_step|intros; apply reading_ret].
  - apply keeps_reading, reading_bind; [apply reading_result|intros; apply reading_ret].
  - apply keeps_ok_bind; [apply keeps_reading, reading_still, still_next_job_id|]. intros job_id. cbv zeta.
    apply keeps_ok_bind; [apply keeps_reading; case_match; [apply reading_ret|apply reading_err]|]. intros sid.
    apply keeps_ok_bind; [apply keeps_reading, reading_still, still_now_ms|]. intros now.
    apply keeps_bind_reading.
    { case_match; [|apply reading_ret]. apply reading_bind; [apply reading_result|intros; apply reading_owned_effects]. }
    intros e w w1 He Hw1.
    assert (Hen : enqueues e = enqueues (rs_effects spec)).
    { destruct (ro_owner _).
      - apply EIO_bind_Ok in He as (u & w2 & _ & He). apply owned_enqueues in He as ->. apply submission_enqueues.
      - injection He as <- _. apply submission_enqueues. }
    clear He. revert w1 Hw1. apply keeps_ok_bind.
    + apply keeps_try. intros w1 Hw1. unfold lift_q, map_err, mbind, EIO_bind.
      pose proof (yield_ok w1 Hw1) as Hy. destruct (yield w1) as [[u|e0] w2]; [|done].
      set (req := step_enqueue_request _ _ _ _ _ _).
      pose proof (enqueue_with_effects_ok (req_queue req) (req_payload req) (req_options req) e w2) as Hq.
      destruct (enqueue_with_effects _ _ _ _ w2) as [[x|x] w3]; (apply Hq, fresh_for_under, fresh_for_supplied; [by cbn; rewrite Hen|done]).
    + intros [[[i|i] rs]|err]; apply keeps_reading.
      * apply reading_ret.
      * apply reading_bind; [apply reading_run_record|]. intros record.
        apply reading_bind; [apply reading_result|intros; apply reading_ret].
      * repeat case_match; apply reading_err.
Qed.

Lemma enqueue_run_ok r spec mb request :
  ids_needed (enqueues (rs_effects spec)) = 0 → keeps_ok (enqueue_run r spec mb request).
Proof using Type UL SA DL SR EN.
  intros Hids. unfold enqueue_run. apply keeps_ok_bind; [apply keeps_reading, reading_turns|]. intros n.
  generalize (n + 1). intros fuel. induction fuel as [|fuel IH]; cbn [enqueue_run_loop]; [by intros w|].
  apply keeps_ok_bind; [by apply keeps_try, enqueue_run_once_ok|].
  intros [o|[| | | | | | | | | | | | | |[]| | | | | | | | | | |]]; first [exact IH|by intros w].
Qed.

(** A submission keeps the process consistent. *)
Lemma submit_ok spec : ids_needed (enqueues (rs_effects spec)) = 0 → keeps_ok (submit spec).
Proof using Type UL SA DL SR EN.
  intros Hids. unfold submit. apply keeps_ok_bind; [|intros r; by apply enqueue_run_ok].
  apply keeps_reading. unfold validate_spec. do 2 (apply reading_bind; [apply reading_result|intros]).
  case_match; [apply reading_ret|apply reading_generate].
Qed.
End consistency.

End submissions.
