(* ===== verification/RunCancel.v ===== *)
(** * Cancellations and reconciliations of runs

    What a cancel request, the cancellation of a waiting step, and the termination of a
    run whose step is dead did to the store. *)
From S2P Require Import Prelude Bytes Error Monad Keys Job Store Stats LeaseRegistry.
From S2P Require Import TimeBound ClaimCursor Completion Txn Stage StoreInv Sound Core.
From S2P Require Import QueueCore Control Effects Claim Settle Enqueue.
From S2P Require Import Sweeps InboxEntry InboxListing Queue CoreInv StagedOps View.
From S2P Require Import OpsOk CallsOk Finishes Linear Outcomes Frame Applied RunError.
From S2P Require Import RunKeys RunRecords StepEffects Runs RunCalls StepWorker.
From S2P Require Import RunSweeps RunFlow RunReads RunSettle RunSubmit.

Section cancels.
  Context {DB : SlateDb} {RD : SlateReads} {OS : ObjectStore} {IS : EntryStore} {PJ : PathJoin}.
  Context {SR : Serde JobRecord} {SA : Serde JobAttempt} {SC : Serde CountRecord}.
  Context {EN : Env} {SH : Sha256} {UT : UlidText} {RT : Runtime}.
  Context {SD : Serde DurableRun} {SP : Serde DurableStepRef} {SM : Serde DurableMember}.
  Context {SQ : Serde (list string)} {SO : Serde DurableStepOutcomeRecord}.
  Context {DL : SlateDbLaws merge_batch}.
#[local] Set Default Proof Using "Type DL SR SA EN".

Abbreviation Wf := (EIO WfError World).

(** ** Requests *)

(** The active record of [r] has the request, and the submission. *)
Definition request_recorded (r : RunId) (sub : Submission) (request : DurableCancelRequest) m : Prop :=
  ∃ record, stored (run_kv_key r) (Some (DActive record)) m ∧
    drr_cancel_request record = Some request ∧ submission_of record = sub.

(** The change that records a request: the first of its record. *)
Definition request_put (r : RunId) (sub : Submission) (request : DurableCancelRequest) m m' : Prop :=
  ∃ record, stored (run_kv_key r) (Some (DActive record)) m ∧ drr_cancel_request record = None ∧
    submission_of record = sub ∧
    ∀ k, user_kv m' k = if decide (k = run_kv_key r)
      then Some (durable_encode (DActive (set_cancel_request (Some request) record))) else user_kv m k.

(** There was no active record. *)
Definition not_active (r : RunId) m : Prop :=
  user_kv m (run_kv_key r) = None ∨ ∃ t, stored (run_kv_key r) (Some (DTerminated t)) m.

Definition request_result (r : RunId) (reason : option string) (origin : CancelOrigin) w
    (res : result WfError (option (Submission * DurableCancelRequest))) w' : Prop :=
  match res with
  | Ok None => no_effect w w' (not_active r)
  | Ok (Some (sub, request)) =>
      no_effect w w' (request_recorded r sub request) ∨
      (∃ now, request = mkDCancelRequest reason (durable_origin origin) now) ∧
      effect w w' (request_put r sub request)
  | Err e => wf_not_storage e → passes w w'
  end.

Lemma request_around r reason origin w0 w res w' :
  passes w0 w → request_result r reason origin w res w' → request_result r reason origin w0 res w'.
Proof.
  intros Hp. destruct res as [[[sub request]|]|e]; cbn.
  - intros [H|[Hr H]]; [left; by eapply no_effect_around|right; split; [done|by eapply effect_around]].
  - intros H. by eapply no_effect_around.
  - intros H Hn. etrans; [done|by apply H].
Qed.

Lemma kv_compare_put_failed k e v w err w' :
  kv_compare_put k e v w = (Err err, w') → not_storage err → passes w w'.
Proof.
  unfold kv_compare_put, mbind at 1, IO_bind at 1, io_result.
  destruct (validate_kv_value_size v) as [u|e0]; [|by intros [= _ <-]]. intros H.
  eapply retry_failed; [|exact H]. intros t. apply steady_seq; [apply steady_staging, clean_kv_state|].
  intros [] t1; [|apply steady_ret]. apply steady_seq; [apply steady_staging, clean_put|].
  intros. apply steady_ret.
Qed.

Lemma request_cancel_loop_result fuel r reason origin w res w' :
  request_cancel_loop fuel r reason origin w = (res, w') → request_result r reason origin w res w'.
Proof.
  revert w res w'. induction fuel as [|fuel IH]; intros w res w'; cbn [request_cancel_loop].
  { intros [= <- <-]. by intros _. }
  cbv zeta. unfold mbind at 1, EIO_bind at 1.
  destruct (wf_view _ w) as [[current|e] w1] eqn:Eg; (assert (Hp : passes w w1) by by eapply reading_view);
    [|by intros [= <- <-] _].
  apply kv_get_at in Eg. destruct current as [current|].
  2: { intros [= <- <-]. cbn. eapply no_effect_mono; [|exact Eg]. intros m Hm. by left. }
  unfold mbind at 1, EIO_bind at 1, eio_result.
  destruct (durable_decode (A := DurableRun) current) as [[record|t]|e] eqn:Ed; [| |by intros [= <- <-] _].
  2: { intros [= <- <-]. cbn. eapply no_effect_mono; [|exact Eg]. intros m Hm. right. exists t. by exists current. }
  destruct (drr_cancel_request record) as [request|] eqn:Er.
  { intros [= <- <-]. left. eapply no_effect_mono; [|exact Eg]. intros m Hm. exists record. split; [by exists current|done]. }
  unfold mbind at 1, EIO_bind at 1.
  destruct (lift_q now_ms w1) as [[now|e] w2] eqn:En;
    (assert (Hp2 : passes w1 w2) by (eapply reading_still, En; apply still_now_ms)); [|intros [= <- <-] _; by etrans].
  unfold mbind at 1, EIO_bind at 1, lift_q, map_err. unfold mbind at 1, EIO_bind at 1.
  destruct (yield w2) as [[u|e0] w3] eqn:Ey; [|by unfold yield, io_modify in Ey]. apply yield_passes in Ey.
  destruct (kv_compare_put _ _ _ w3) as [[put|err] w4] eqn:Ep.
  - apply kv_compare_put_effect in Ep. destruct put.
    + intros [= <- <-]. right. split; [by eexists|].
      eapply effect_around; [do 2 (etrans; [done|]); exact Ey|reflexivity|].
      eapply effect_mono; [|exact Ep]. intros m m' [Hk ->]. exists record. split; [by exists current|].
      split; [done|]. split; [done|]. intros k. unfold user_kv. case_decide as D.
      * subst k. by rewrite lookup_insert_eq.
      * rewrite lookup_insert_ne; [done|]. by intros ?%(inj user_scoped_key).
    + intros H. eapply request_around; [|by apply IH].
      do 2 (etrans; [done|]). etrans; [exact Ey|]. by eapply no_effect_passes.
  - intros [= <- <-] Hn. do 2 (etrans; [done|]). etrans; [exact Ey|]. by eapply kv_compare_put_failed.
Qed.

Lemma request_cancel_result r reason origin w res w' :
  request_cancel r reason origin w = (res, w') → request_result r reason origin w res w'.
Proof.
  unfold request_cancel, mbind, EIO_bind. destruct (turns w) as [[n|e] w1] eqn:E;
    (assert (Hp : passes w w1) by by eapply reading_turns); [|by intros [= <- <-] _].
  intros H. eapply request_around; [exact Hp|]. by eapply request_cancel_loop_result.
Qed.

Lemma request_cancel_loop_ok fuel r reason origin w :
  world_ok w → world_ok (request_cancel_loop fuel r reason origin w).2.
Proof.
  revert w. induction fuel as [|fuel IH]; intros w Hw; cbn [request_cancel_loop]; [done|]. cbv zeta.
  unfold mbind at 1, EIO_bind at 1.
  destruct (wf_view _ w) as [[current|e] w1] eqn:Eg;
    (assert (Hw1 : world_ok w1) by (eapply passes_ok, Hw; by eapply reading_view)); [|done].
  destruct current as [current|]; [|done]. unfold mbind at 1, EIO_bind at 1, eio_result.
  destruct (durable_decode (A := DurableRun) current) as [[record|t]|e]; [|done..].
  destruct (drr_cancel_request record); [done|]. unfold mbind at 1, EIO_bind at 1.
  destruct (lift_q now_ms w1) as [[now|e] w2] eqn:En;
    (assert (Hw2 : world_ok w2) by (eapply passes_ok, Hw1; eapply reading_still, En; apply still_now_ms)); [|done].
  unfold mbind at 1, EIO_bind at 1, lift_q, map_err. unfold mbind at 1, EIO_bind at 1.
  destruct (yield w2) as [[u|e0] w3] eqn:Ey; (assert (Hw3 : world_ok w3)
    by (pose proof (yield_ok w2 Hw2) as Hy; by rewrite Ey in Hy)); [|done].
  match goal with |- context [kv_compare_put ?k ?e ?v w3] => pose proof (kv_compare_put_ok k e v w3 Hw3) as Hput end.
  destruct (kv_compare_put _ _ _ w3) as [[[]|err] w4]; [done|by apply IH|done].
Qed.

Lemma request_cancel_ok r reason origin w : world_ok w → world_ok (request_cancel r reason origin w).2.
Proof.
  intros Hw. unfold request_cancel, mbind, EIO_bind. destruct (turns w) as [[n|e] w1] eqn:E;
    (assert (Hw1 : world_ok w1) by (eapply passes_ok, Hw; by eapply reading_turns)); [|done].
  by apply request_cancel_loop_ok.
Qed.

(** ** Waiting steps *)

(** The removal of a step: in one change the waiting job went and the run of its
    headers ended as cancelled. *)
Definition step_cancelled (sub : Submission) (request : DurableCancelRequest) m m' : Prop :=
  ∃ c k j e, claimed_step_parse (cs_job c) = Ok c ∧ lookup_job m (id (cs_job c)) = Some (k, j) ∧
    (status j = Pending ∨ status j = Scheduled) ∧
    ends_as c sub (ending_cancelled (public_origin (dcr_origin request)) (dcr_reason request)) None e ∧
    kv_applied e m m' ∧ settles c sub (user_kv m) (user_kv m').

Lemma ends_settles_alone c sub ending res e u :
  ends_as c sub ending res e → settles c sub u (kv_after e u).
Proof.
  intros He. eapply settles_ext, (ends_settles c sub ending res e None staged_default);
    [|done|apply staged_default_ok]. intros k. by rewrite kv_after_add_default.
Qed.

Lemma termination_ends c ending sub owned w e w' :
  termination_effects c ending None sub owned w = (Ok e, w') → ends_as c sub ending None e.
Proof.
  unfold termination_effects. intros (now & w1 & _ & [= <- _])%EIO_bind_Ok. by exists now, None, owned.
Qed.
Lemma parse_job job c : claimed_step_parse job = Ok c → cs_job c = job.
Proof.
  unfold claimed_step_parse. destruct (headers job !! HEADER_RUN_ID); [|done].
  intros (r & _ & H)%bind_Ok. destruct (headers job !! HEADER_STEP) as [x|]; [|done].
  destruct (parse_u32 x); [|done]. apply bind_Ok in H as (m & _ & H). by apply bind_Ok in H as (o & _ & [= <-]).
Qed.

(** What the loop of a cancellation did: a removal ended the run in its change; a
    request marked the claimed job, or it was marked; and a run that is not active was
    left. *)
Definition cancel_step_result (sub : Submission) (request : DurableCancelRequest) w
    (res : result WfError CancelRunOutcome) w' : Prop :=
  match res with
  | Ok RunRemoved => effect w w' (step_cancelled sub request)
  | Ok RunRequested => effect w w' kv_kept ∨ passes w w'
  | Ok RunNotActive => passes w w'
  | Err e => wf_not_storage e → passes w w'
  end.

Lemma cancel_step_around sub request w0 w res w' :
  passes w0 w → cancel_step_result sub request w res w' → cancel_step_result sub request w0 res w'.
Proof.
  intros Hp. destruct res as [[]|e]; cbn.
  - intros H. by eapply effect_around.
  - intros [H|H]; [left; by eapply effect_around|right; by etrans].
  - intros H. by etrans.
  - intros H Hn. etrans; [done|by apply H].
Qed.

Lemma cancel_step_read {A} sub request w (m : Wf A) k res w' :
  reading m → (∀ a w1, m w = (Ok a, w1) → passes w w1 → k a w1 = (res, w') →
    cancel_step_result sub request w1 res w') →
  (m ≫= k) w = (res, w') → cancel_step_result sub request w res w'.
Proof.
  intros Hm Hk. unfold mbind, EIO_bind. destruct (m w) as [[a|e] w1] eqn:E;
    (assert (Hp : passes w w1) by by eapply Hm).
  - intros H. eapply cancel_step_around; [exact Hp|]. by eapply Hk.
  - intros [= <- <-]. by intros _.
Qed.

Lemma cancel_step_loop_result fuel r sub request w res w' :
  world_ok w → cancel_step_loop fuel r sub request w = (res, w') → cancel_step_result sub request w res w'.
Proof.
  revert w res w'. induction fuel as [|fuel IH]; intros w res w' Hw; cbn [cancel_step_loop].
  { intros [= <- <-]. by intros _. }
  apply cancel_step_read; [apply reading_current_job|]. intros [[c0 job]|] w1 _ Hp1; [|intros [= <- <-]; apply passes_refl].
  case_decide as Hd; [intros [= <- <-]; apply passes_refl|].
  apply cancel_step_read; [apply reading_result|]. intros claimed w2 [= Ec <-] _.
  apply cancel_step_read; [apply reading_owned_queues|]. intros owned w3 _ Hp3. cbv zeta.
  apply cancel_step_read; [apply reading_termination|]. intros e w4 Ee Hp4.
  apply termination_ends in Ee. unfold mbind at 1, EIO_bind at 1, lift_q, map_err.
  unfold mbind at 1, EIO_bind at 1. destruct (yield w4) as [[u|e0] w5] eqn:Ey; [|by unfold yield, io_modify in Ey].
  apply yield_passes in Ey. intros Hk. eapply cancel_step_around; [exact Ey|]. revert Hk.
  assert (Hw5 : world_ok w5) by (by do 4 (eapply passes_ok; [done|])).
  destruct (cancel_with (id job) e w5) as [[[o rs]|err] w6] eqn:E.
  - apply cancel_with_kv in E; [|done]. destruct o.
    + intros [= <- <-]. destruct E as (k & j & Hs & E). cbn. eapply effect_mono; [|exact E].
      intros m m' [Hl Ha]. pose proof (parse_job _ _ Ec) as Ej. exists claimed, k, j, e.
      rewrite Ej. split_and!; [done|done|done|done|done|].
      eapply settles_ext; [apply Ha|]. by eapply ends_settles_alone.
    + by intros [= <- <-].
    + intros H. eapply cancel_step_around; [exact E|]. apply IH; [by eapply passes_ok|exact H].
  - intros [= <- <-] Hn. by eapply cancel_with_failed.
Qed.

(** What a cancellation did. The request comes first, and its record decides the
    reason and the origin of the end. *)
Definition cancel_run_result (r : RunId) (reason : option string) (origin : CancelOrigin) w
    (res : result WfError CancelRunOutcome) w' : Prop :=
  res = Ok RunNotActive ∧ no_effect w w' (not_active r) ∨
  (∃ e, res = Err e ∧ (wf_not_storage e → passes w w')) ∨
  ∃ sub request w1, request_result r reason origin w (Ok (Some (sub, request))) w1 ∧
    cancel_step_result sub request w1 res w'.

Lemma cancel_run_with_result r reason origin w res w' :
  world_ok w → cancel_run_with r reason origin w = (res, w') → cancel_run_result r reason origin w res w'.
Proof.
  intros Hw. unfold cancel_run_with. unfold mbind at 1, EIO_bind at 1.
  pose proof (request_cancel_ok r reason origin w Hw) as Hw1.
  destruct (request_cancel r reason origin w) as [[[[sub request]|]|e] w1] eqn:E;
    apply request_cancel_result in E.
  - intros H. right. right. exists sub, request, w1. split; [done|]. revert H.
    apply cancel_step_read; [apply reading_turns|]. intros n w2 _ Hp. apply cancel_step_loop_result.
    by eapply passes_ok.
  - intros [= <- <-]. by left.
  - intros [= <- <-]. right. left. by exists e.
Qed.

(** ** Dead steps *)

Lemma reconcile_dead_step_result job w b w' :
  reconcile_dead_step job w = (Ok b, w') →
  if b : bool then ∃ c record e, claimed_step_parse job = Ok c ∧
    ends_as c (submission_of record) (ending_failed (default "step dead-lettered outside the worker" (last_error job)) None)
      None e ∧
    ∃ w1, no_effect w w1 (found_step (cs_run_id c) (id job)) ∧
    effect w1 w' (λ m m', kv_applied e m m' ∧ settles c (submission_of record) (user_kv m) (user_kv m'))
  else passes w w'.
Proof.
  unfold reconcile_dead_step. destruct (claimed_step_parse job) as [c|]; [|by intros [= <- <-]].
  cbv zeta. unfold mbind at 1, EIO_bind at 1.
  destruct (current_step_if_active _ w) as [[current|e] w1] eqn:Ec;
    (assert (Hp1 : passes w w1) by by eapply reading_pointer); [|done].
  destruct current as [current|]; [|by intros [= <- <-]].
  case_bool_decide as Hid; [|by intros [= <- <-]].
  unfold mbind at 1, EIO_bind at 1. destruct (run_record _ w1) as [[record|e] w2] eqn:Er;
    (assert (Hp2 : passes w1 w2) by by eapply reading_run_record); [|done].
  destruct record as [record|]; [|intros [= <- <-]; by etrans]. cbv zeta.
  intros (owned & w3 & Ho & H)%EIO_bind_Ok. apply EIO_bind_Ok in H as (e & w4 & Ee & H).
  apply EIO_bind_Ok in H as (rs & w5 & E & [= <- <-]).
  assert (Hp3 : passes w2 w3) by by eapply reading_owned_queues.
  assert (Hp4 : passes w3 w4) by by eapply reading_termination.
  apply termination_ends in Ee. unfold lift_q, map_err in E.
  destruct (commit_effects e w4) as [[rs'|err] w6] eqn:E'; [|done]. injection E as <- <-.
  apply commit_effects_kv in E'. exists c, record, e. split; [done|]. split; [done|].
  exists w1. split.
  - apply kv_record_at in Ec. eapply no_effect_mono; [|exact Ec]. intros m Hm. by exists current.
  - eapply effect_around; [by do 2 (etrans; [done|])|reflexivity|]. eapply effect_mono; [|exact E'].
    intros m m' Ha. split; [done|]. eapply settles_ext; [apply Ha|]. by eapply ends_settles_alone.
Qed.
End cancels.
