(* ===== verification/RunRetention.v ===== *)
(** * The retention of terminated runs

    What the clearing of an expired marker removes: the record and the entries of the
    run that terminated at the time of the marker, and nothing of another run. *)
From S2P Require Import Prelude Bytes Error Monad Keys Job Store Stats LeaseRegistry.
From S2P Require Import TimeBound ClaimCursor Completion Txn Stage StoreInv Sound Core.
From S2P Require Import QueueCore Control Effects Claim Settle Enqueue.
From S2P Require Import Sweeps InboxEntry Queue CoreInv StagedOps View Listing Finishes.
From S2P Require Import Linear Outcomes Frame Applied RunError RunKeys RunRecords.
From S2P Require Import StepEffects Runs RunCalls StepWorker RunSweeps RunFlow RunReads.

Section retention.
  Context {DB : SlateDb} {RD : SlateReads} {OS : ObjectStore} {IS : EntryStore} {PJ : PathJoin}.
  Context {SR : Serde JobRecord} {SA : Serde JobAttempt} {SC : Serde CountRecord}.
  Context {EN : Env} {SH : Sha256} {UT : UlidText} {RT : Runtime}.
  Context {SD : Serde DurableRun} {SP : Serde DurableStepRef} {SM : Serde DurableMember}.
  Context {SQ : Serde (list string)}.
  Context {DL : SlateDbLaws merge_batch} {RL : SlateReadsLaws merge_batch}.
#[local] Set Default Proof Using "Type DL RL SR SA EN".

Abbreviation Wf := (EIO WfError World).

(** ** The pages of a listing *)

(** What the reads of successive pages see. *)
Definition yielded (w : World) : World := (yield w).2.
Definition page_read (w : World) (i : nat) : Handle := Writer (db (core (Nat.iter (S i) yielded w))).

Lemma wf_view_eq {A} (f : Handle → Result A) w :
  wf_view f w = (match f (page_read w 0) with Ok a => Ok a | Err e => Err (WfQueue e) end, yielded w).
Proof using Type.
  unfold wf_view, lift_q, map_err, page_read, mbind, EIO_bind, get, io_gets, io_result. cbn.
  fold (yielded w). by destruct (f _).
Qed.

Lemma wf_pages_entries fuel p range size n c (hs : nat → Handle) w l w' :
  (∀ i, hs (n + i) = page_read w i) → wf_pages fuel p range size c w = (Ok l, w') →
  pages (kv_page hs p range Ascending size) fuel n c = Ok l.
Proof using Type.
  revert n c w l w'. induction fuel as [|fuel IH]; intros n c w l w' Hh; cbn [wf_pages pages]; [done|].
  intros ([page next] & w1 & Ep & H)%EIO_bind_Ok. rewrite wf_view_eq in Ep.
  assert (Hn : hs n = page_read w 0) by (rewrite <- (Nat.add_0_r n); apply Hh).
  assert (Hp : kv_page hs p range Ascending size n c = Ok (page, next)).
  { unfold kv_page in Ep |- *. rewrite Hn. cbn beta in Ep. revert Ep. destruct (_ ≫= _); [|done]. by intros [= -> _]. }
  rewrite Hp. cbn. destruct next as [k|].
  - apply EIO_bind_Ok in H as (rest & w2 & Er & [= <- <-]).
    rewrite (IH (S n) (Some k) w1 rest w2); [done| |done]. intros i.
    replace (S n + i)%nat with (n + S i)%nat by lia. rewrite Hh. unfold page_read. do 3 f_equal.
    injection Ep as _ <-. clear. induction i as [|i IH]; [done|]. cbn in *. by rewrite IH.
  - by injection H as <- _.
Qed.

Lemma reading_wf_pages fuel p range size c : reading (wf_pages fuel p range size c).
Proof.
  revert c. induction fuel as [|fuel IH]; intros c; cbn [wf_pages]; [apply reading_err|].
  apply reading_bind; [apply reading_view|]. intros [l [next|]]; [|apply reading_ret].
  apply reading_bind; [apply IH|]. intros. apply reading_ret.
Qed.

(** A listing of a range of keys, each page read while other tasks run: only keys of
    the range, and every key that exists for the whole listing. *)
Lemma wf_pages_range fuel p r size w l w' :
  0 < size → wf_pages fuel p (range_bounds r) size None w = (Ok l, w') →
  (∀ k, k ∈ l.*1 → in_key_range r k = true) ∧
  (∀ k, (∃ s, k = p ++ s) → in_key_range r k = true →
     (∀ i, is_Some (handle_contents (page_read w i) !! user_scoped_key k)) → k ∈ l.*1).
Proof.
  intros Hsize H. apply (wf_pages_entries _ _ _ _ 0 None (page_read w)) in H; [|done].
  destruct (kv_entries_sound (page_read w) p (range_bounds r) Ascending size fuel l Hsize H) as (_ & Hin & Hall).
  split.
  - intros k ([k' v] & -> & He)%list_elem_of_fmap_1. by destruct (Hin _ _ He) as (_ & _ & Hb).
  - intros k Hp Hr Hs. destruct (Hall k Hp Hr Hs) as [v Hv]. apply list_elem_of_fmap. by exists (k, v).
Qed.

(** ** The clearing of a run *)

Lemma reading_blob {A} (f : Objects → A * Objects) : reading (on_blobs f).
Proof.
  intros w r w'. unfold on_blobs, lift_q, map_err, mbind, EIO_bind.
  destruct (yield w) as [[u|e] w1] eqn:Ey; [|by unfold yield, io_modify in Ey]. apply yield_passes in Ey.
  destruct (on_objects f w1) as [x w2] eqn:Eo. assert (Hp : passes w1 w2) by (eapply still_passes, Eo; apply still_objects).
  destruct x; intros [= _ <-]; by etrans.
Qed.

Lemma reading_clear_objects l n : reading (clear_objects l n).
Proof.
  revert n. induction l as [|m l IH]; intros n; cbn [clear_objects]; [apply reading_ret|].
  apply reading_bind; [apply reading_try|intros; apply IH]. unfold blob_delete.
  apply reading_bind; [apply reading_blob|]. intros [?|[]]; first [apply reading_ret|apply reading_err].
Qed.
Lemma reading_clear_memos r : reading (clear_memos_for_run r).
Proof.
  assert (H : ∀ p, reading (clear_prefix p)).
  { intros p. unfold clear_prefix, blob_list. apply reading_bind; [|intros; apply reading_clear_objects].
    apply reading_bind; [apply reading_blob|]. intros []; [apply reading_ret|apply reading_err]. }
  unfold clear_memos_for_run. do 3 (apply reading_bind; [apply H|intros]). apply reading_ret.
Qed.

Lemma reading_store_output {SO : Serde DurableStepOutcomeRecord} r n p o s : reading (store_step_output r n p o s).
Proof.
  unfold store_step_output, put_step_output, blob_put. apply reading_bind; [apply reading_still, still_now_ms|].
  intros now. apply reading_bind; [apply reading_blob|]. intros []; [apply reading_ret|apply reading_err].
Qed.

(** The keys of a run that its retention removes, besides its record. *)
Definition swept_key (r : RunId) (k : bytes) : Prop :=
  (∃ s, k = run_kv_entry_key r s) ∨ in_key_range (owner_queues_range r) k = true.

Definition quiet (w : World) : Prop := others w = [].

Lemma quiet_reads w i : quiet w → page_read w i = Writer (db (core w)).
Proof using Type.
  intros Hq. unfold page_read. assert (H : ∀ n, Nat.iter n yielded w = w).
  { intros n. induction n as [|n IH]; [done|]. rewrite Nat.iter_succ, IH. unfold yielded, yield, io_modify. cbn.
    rewrite Hq. by destruct w. }
  by rewrite H.
Qed.

Lemma owner_queues_split r k :
  in_key_range (owner_queues_range r) k = true ↔ ∃ s, k = OWNER_QUEUES_KV_PREFIX ++ rid_bytes r ++ 47%Z :: s.
Proof using Type.
  unfold owner_queues_range, prefixed. rewrite !as_bytes_app, !app_assoc.
  change (as_bytes "/") with [47%Z]. change (as_bytes "0") with [47 + 1]%Z.
  rewrite in_key_range_spec. by setoid_rewrite app_assoc.
Qed.

Lemma swept_keys_read fuel r w keys w' :
  run_swept_keys fuel r w = (Ok keys, w') →
  passes w w' ∧ (∀ k, k ∈ keys → swept_key r k) ∧
  (quiet w → ∀ k, swept_key r k → is_Some (user_kv (contents (db (core w))) k) → k ∈ keys).
Proof.
  intros H. split.
  { eapply reading_bind, H; [apply reading_wf_pages|]. intros. apply reading_bind; [apply reading_wf_pages|].
    intros. apply reading_ret. }
  unfold run_swept_keys in H. apply EIO_bind_Ok in H as (entries & w1 & E1 & H).
  apply EIO_bind_Ok in H as (queues & w2 & E2 & [= <- <-]).
  assert (Hp : passes w w1) by by eapply reading_wf_pages.
  assert (Hlim : 0 < RUN_KV_PAGE_SIZE) by (unfold RUN_KV_PAGE_SIZE; lia).
  apply wf_pages_range in E1 as [H1 H1']; [|done]. apply wf_pages_range in E2 as [H2 H2']; [|done].
  split.
  - intros k [Hk|Hk]%elem_of_app; [left; by apply run_entries_range_spec, H1|right; by apply H2].
  - intros Hq k [[s ->]|Hk] Hs; apply elem_of_app.
    + left. apply H1'; [|by apply run_entries_range_spec; exists s|intros i; by rewrite quiet_reads].
      rewrite run_entry_key_split. by eexists.
    + right. apply H2'; [|done|].
      * apply owner_queues_split in Hk as [s ->]. by eexists.
      * destruct (passes_alone _ _ Hp Hq) as [Ed Ho]. intros i. rewrite quiet_reads by done. cbn. by rewrite Ed.
Qed.

(** What the clearing of a run at the time of its marker returns: the keys of the run
    with its record, which had terminated at that time, or that it was superseded. *)
Lemma clear_run_result fuel r at_ms w res w' :
  clear_run fuel r at_ms w = (res, w') → passes w w' ∧
  match res with
  | Ok (ClearedRemoved keys) => no_effect w w' (λ m, ∃ t,
        stored (run_kv_key r) (Some (DTerminated t)) m ∧ dt_terminated_at_ms t = at_ms) ∧
      (∀ k, k ∈ keys → k = run_kv_key r ∨ swept_key r k) ∧ run_kv_key r ∈ keys ∧
      (quiet w → ∀ k, swept_key r k → is_Some (user_kv (contents (db (core w))) k) → k ∈ keys)
  | Ok Superseded | Err _ => True
  end.
Proof.
  unfold clear_run, mbind at 1, EIO_bind at 1.
  destruct (terminal_record r w) as [[t|e] w1] eqn:Et; (assert (Hp : passes w w1) by by eapply reading_terminal_record);
    [|by intros [= <- <-]].
  destruct t as [t|]; [|by intros [= <- <-]]. case_bool_decide as Ht; [|by intros [= <- <-]].
  unfold mbind at 1, EIO_bind at 1. destruct (run_swept_keys fuel r w1) as [[keys|e] w2] eqn:Ek.
  2: { intros [= <- <-]. split; [|done]. etrans; [done|]. eapply reading_bind, Ek; [apply reading_wf_pages|].
       intros. apply reading_bind; [apply reading_wf_pages|]. intros. apply reading_ret. }
  apply swept_keys_read in Ek as (Hp2 & Hin & Hall). unfold mbind at 1, EIO_bind at 1.
  destruct (clear_memos_for_run r w2) as [[n|e] w3] eqn:Em;
    (assert (Hp3 : passes w2 w3) by by eapply reading_clear_memos);
    intros [= <- <-]; (split; [by do 2 (etrans; [done|])|]); [|done].
  unfold terminal_record in Et. apply EIO_bind_Ok in Et as (entry & w4 & Ee & [= Hentry ->]).
  apply kv_record_at in Ee. split; [|split; [|split]].
  - apply (no_effect_around w w w1 w3); [reflexivity|by etrans|]. eapply no_effect_mono; [|exact Ee].
    intros m Hm. exists t. split; [|done]. destruct entry as [[]|]; by simplify_eq.
  - intros k [Hk|Hk%list_elem_of_singleton]%elem_of_app; [right; by apply Hin|by left].
  - apply elem_of_app. right. by left.
  - intros Hq k Hk Hs. apply elem_of_app. left. destruct (passes_alone _ _ Hp Hq) as [Ed Ho].
    apply Hall; [done..|]. by rewrite Ed.
Qed.

(** ** The end of an expired marker *)

(** The change of a removed marker: only the marker and keys of the run change, the
    other runs are as they were, and the run is unknown when its record went. *)
Definition marker_removed (key : bytes) (r : RunId) (cleared : bool) m m' : Prop :=
  user_kv m' key = None ∧
  (∀ k, user_kv m' k ≠ user_kv m k → k = key ∨ cleared = true ∧ (k = run_kv_key r ∨ swept_key r k)) ∧
  others_kept r (user_kv m) (user_kv m') ∧
  (∀ t, cleared = true → run_in (user_kv m) r (Ended t) → run_in (user_kv m') r Unknown).

Lemma swept_not_record r k r' :
  swept_key r k → k ≠ run_kv_key r' ∧ k ≠ step_kv_key r'.
Proof using Type. intros [[s ->]|[s ->]%owner_queues_split]; split; discriminate. Qed.

Lemma removal_kv key r keys m m' :
  (∀ r', key ≠ run_kv_key r' ∧ key ≠ step_kv_key r') →
  (∀ k, k ∈ keys → k = run_kv_key r ∨ swept_key r k) →
  kv_applied (eff_kv_delete key (mkEffects [] None [] ∅ keys [] ∅)) m m' →
  marker_removed key r (bool_decide (run_kv_key r ∈ keys)) m m' ∨ keys ≠ [] ∧ run_kv_key r ∉ keys.
Proof.
  intros Hkey Hkeys [_ Hkv].
  assert (H : ∀ k, user_kv m' k = if decide (k = key ∨ k ∈ keys) then None else user_kv m k).
  { intros k. rewrite Hkv. unfold kv_after. cbn. rewrite lookup_empty. apply decide_ext.
    rewrite elem_of_app, list_elem_of_singleton. tauto. }
  destruct (decide (keys = [] ∨ run_kv_key r ∈ keys)) as [Hd|Hd]; [left|right; tauto].
  assert (Hin : ∀ r', r' ≠ r → run_kv_key r' ∉ keys ∧ step_kv_key r' ∉ keys).
  { intros r' Hr. split; intros [E|E]%Hkeys; try (by apply (swept_not_record _ _ r') in E as [? ?]); [|discriminate].
    by apply (inj run_kv_key) in E. }
  assert (Hs : step_kv_key r ∉ keys).
  { intros [E|E]%Hkeys; [discriminate|]. by apply (swept_not_record _ _ r) in E as [? ?]. }
  split; [|split; [|split]].
  - rewrite H. by rewrite decide_True by by left.
  - intros k. rewrite H. case_decide as Hk; [|done]. intros _. destruct Hk as [->|Hk]; [by left|right].
    destruct Hd as [->|Hd]; [by apply not_elem_of_nil in Hk|].
    split; [by apply bool_decide_eq_true|by apply Hkeys].
  - intros r' Hr. destruct (Hin r' Hr), (Hkey r') as [? ?]. rewrite !H.
    split; apply decide_False; intros [?|?]; congruence.
  - intros t Hc [Hrun Hstep]. apply bool_decide_eq_true in Hc. split.
    + by rewrite H, decide_True by by right.
    + rewrite H. by case_decide.
Qed.

Lemma expire_marker_result fuel r at_ms key w b w' :
  (∀ r', key ≠ run_kv_key r' ∧ key ≠ step_kv_key r') →
  (e ← expire_marker (clear_run fuel) at_ms (rid_bytes r); expire_entry key e) w = (Ok b, w') →
  ∃ w1, passes w w1 ∧ if b : bool then ∃ cleared : bool,
      effect w1 w' (marker_removed key r cleared) ∧
      (cleared = true →
        no_effect w w1 (λ m, ∃ t, stored (run_kv_key r) (Some (DTerminated t)) m ∧ dt_terminated_at_ms t = at_ms) ∧
        (quiet w → ∀ k, swept_key r k → user_kv (contents (db (core w'))) k = None))
    else passes w1 w'.
Proof.
  intros Hkey H. apply IO_bind_Ok in H as (e & w1 & Ee & H). unfold expire_marker in Ee.
  assert (Hr : (s ← from_utf8 (rid_bytes r); match RunId_new s with Ok r => Some r | Err _ => None end) = Some r).
  { unfold rid_bytes. rewrite from_utf8_as_bytes by apply rid_ascii. cbn. by rewrite RunId_new_rid. }
  rewrite Hr in Ee. destruct (clear_run fuel r at_ms w) as [cleared w2] eqn:Ec. injection Ee as <- <-.
  apply clear_run_result in Ec as [Hp Hc]. exists w2. split; [done|].
  destruct cleared as [[keys|]|e]; cbn [expire_entry] in H.
  - apply IO_bind_Ok in H as (rs & w3 & E & [= <- <-]). apply commit_effects_kv in E.
    destruct Hc as (Hterm & Hkeys & Hrun & Hall). exists true. split.
    + eapply effect_mono; [|exact E]. intros m m' Ha. eapply (removal_kv key r keys) in Ha; [|done..].
      rewrite bool_decide_eq_true_2 in Ha by done. destruct Ha as [?|[_ ?]]; done.
    + intros _. split; [done|]. intros Hq k Hk.
      destruct (passes_alone _ _ Hp Hq) as [Ed Ho]. apply effect_alone in E as [_ Hkv]; [|done].
      rewrite Hkv. unfold kv_after. cbn. rewrite lookup_empty. case_decide as Hd; [done|].
      destruct (user_kv (contents (db (core w2))) k) eqn:Ek; [|done]. destruct Hd.
      apply elem_of_app. left. apply Hall; [done..|]. rewrite <- Ed. by rewrite Ek.
  - apply IO_bind_Ok in H as (rs & w3 & E & [= <- <-]). apply commit_effects_kv in E.
    exists false. split; [|done]. eapply effect_mono; [|exact E]. intros m m' Ha.
    eapply (removal_kv key r []) in Ha; [|done|by intros k Hk%not_elem_of_nil].
    by destruct Ha as [?|[[] _]].
  - by injection H as <- <-.
Qed.

End retention.
