(* ===== verification/CronFacts.v ===== *)
(** * What the cron scheduler does

    The registry and the positions of its schedules under every sequence of calls of
    the handles and turns of the scheduler, and the effect of a firing. *)
From stdpp Require Import pretty.
From Stdlib Require Import Ascii.
From S2P Require Import Prelude Bytes Error Monad Keys Job Store Stats LeaseRegistry.
From S2P Require Import TimeBound ClaimCursor Completion Txn Stage StoreInv Sound Core.
From S2P Require Import QueueCore Control Effects Claim Settle Enqueue Queue.
From S2P Require Import CoreInv StagedOps View Finishes Linear Outcomes Frame Applied.
From S2P Require Import RunError RunReads Cron.

#[local] Existing Instance IO_bind.

Section firing.
  Context {DB : SlateDb} {RD : SlateReads} {OS : ObjectStore} {SR : Serde JobRecord} {SA : Serde JobAttempt}.
  Context {SC : Serde CountRecord} {EN : Env} {DL : SlateDbLaws merge_batch}.
#[local] Set Default Proof Using "Type DL SR SA EN".
Context {CH : Chrono} {CR : Croner}.
Abbreviation run := (apply_writes merge_batch merge_fallback).

(** ** An enqueue with one write of a user key *)

Abbreviation put_effects k v := (eff_kv_put k v effects_default).
Abbreviation put_prepared k v := (mkPreparedEffects [] None [] {[k := v]} [] [] ∅).

Lemma prepare_put k v w pe w' :
  prepare_effects (put_effects k v) w = (Ok pe, w') → pe = put_prepared k v.
Proof.
  unfold prepare_effects. intros (u & w1 & _ & H)%IO_bind_Ok. cbn [kv_deletes effects_default eff_kv_put list_find] in H.
  apply IO_bind_Ok in H as (ps & w2 & E & H). cbn in E. injection E as <- <-.
  apply IO_bind_Ok in H as (js & w3 & E & H). cbn in E.
  injection E as <- <-.
  injection H as <- <-. reflexivity.
Qed.

Lemma stage_put reg k v t rs t' :
  stage_effects reg (put_prepared k v) t = Ok (rs, t') → rs = [] ∧ stages t t' [WPut (user_scoped_key k) v].
Proof.
  unfold stage_effects. cbn [prep_claim_fence prep_kv_compares prep_count_changes prepared_jobs
    prep_kv_writes prep_kv_deletes prep_expiry_entries stage_compares stage_enqueues].
  rewrite map_to_list_empty, map_to_list_singleton.
  intros ([] & t1 & E & H)%M_bind_Ok. injection E as <-.
  apply M_bind_Ok in H as ([] & t2 & E & H). injection E as <-.
  apply M_bind_Ok in H as ([] & t2 & E & H). injection E as <-.
  apply M_bind_Ok in H as (js & t2 & E & H). injection E as <- <-.
  apply M_bind_Ok in H as ([] & t2 & E & H).
  apply M_bind_Ok in H as ([] & t3 & E2 & H). injection E2 as <-.
  apply M_bind_Ok in H as ([] & t3 & E2 & H). injection E2 as <-.
  injection H as <- <-. split; [done|].
  apply M_bind_Ok in E as ([] & t3 & E & E2). injection E2 as <-.
  by apply t_put_Ok in E as (? & _).
Qed.

(** The commit of a new job with the write of a user key. *)
Lemma inserted_put_commit p t t' key k v m m' :
  let j := prepared_job p in
  fresh_txn t → stored_key j = Ok key →
  (∀ dk, dedup_key j = Some dk → tbase t !! dedup_index_key (queue j) dk = None) →
  (id_override_used p = true → tbase t !! job_index_key (id j) = None) →
  stages t t' (new_job_writes key j ++ [WPut (user_scoped_key k) v]) →
  committed t' m m' → inserted j key (id_override_used p) m m' ∧ user_kv m' k = Some v.
Proof.
  cbn zeta. set (j := prepared_job p). intros Hf Hk Hdk Ho Hst Hc.
  pose proof (stored_key_record _ _ Hk) as Hrec.
  assert (Hrun : ∀ x, x ∈ write_key <$> new_job_writes key j ++ [WPut (user_scoped_key k) v] →
    tag_of x ≠ Some TStats → m' !! x = run (new_job_writes key j ++ [WPut (user_scoped_key k) v]) m !! x
      ∧ m !! x = tbase t !! x) by (intros x Hx Hs; by eapply committed_run).
  split.
  - apply (inserted_run p (tbase t)); try done. fold j. intros x Hx Hs.
    destruct (Hrun x) as [E B]; [rewrite fmap_app; apply elem_of_app; by left|done|].
    split; [|done]. rewrite E, run_app. apply run_lookup_ne. intros w ->%list_elem_of_singleton. cbn. intros <-.
    unfold new_job_writes, put_writes in Hx. rewrite fmap_app in Hx. cbn in Hx.
    rewrite !elem_of_cons in Hx. destruct Hx as [E1|[E1|Hx]]; [by rewrite <- E1 in Hrec; destruct Hrec|done|].
    by destruct (dedup_key j); [apply list_elem_of_singleton in Hx|apply not_elem_of_nil in Hx].
  - unfold user_kv. destruct (Hrun (user_scoped_key k)) as [-> _]; [|done|].
    + rewrite fmap_app. apply elem_of_app. right. by left.
    + rewrite run_app. cbn. by rewrite lookup_insert_eq.
Qed.

(** What the transaction of such an enqueue stages. *)
Lemma put_body p k v t w1 r t' w2 m m' :
  let j := prepared_job p in
  fresh_txn t → count_wait j = None →
  ('(written, t) ← staging (stage_job_writes p) t;
   match written with
   | inl existing => mret (AbortWith (inl existing), t)
   | inr jid =>
       registry ← get lease_registry;
       '(results, t) ← staging (stage_effects registry (put_prepared k v)) t;
       mret (CommitWith (inr (jid, results)), t)
   end) w1 = (Ok (CommitWith r, t'), w2) →
  committed t' m m' →
  r = inr (id j, []) ∧ ∃ key, stored_key j = Ok key ∧ inserted j key (id_override_used p) m m' ∧
    user_kv m' k = Some v.
Proof.
  cbn zeta. intros Hf Hcw ([wr t1] & w4 & [E1 ->]%staging_Ok & E)%IO_bind_Ok Hc.
  apply (stage_job_writes_inv _ _ _ _ Hf) in E1; destruct wr as [ex|i]; [discriminate E|].
  apply IO_bind_Ok in E as (reg & w5 & _ & E).
  apply IO_bind_Ok in E as ([rs2 t2] & w6 & [[-> E2]%stage_put ->]%staging_Ok & E).
  injection E as <- <- _. destruct E1 as (-> & Hdk & Ho & Hst). specialize (Hst Hcw) as (key & Hk & Hst).
  split; [done|]. exists key. split; [done|].
  eapply (inserted_put_commit p t t2); [done..| |exact Hc]. by eapply stages_trans.
Qed.

(** The change that an enqueue of the job [j] with the write of [k] makes. *)
Definition put_change j overridden k v m m' : Prop :=
  ∃ key, stored_key j = Ok key ∧ inserted j key overridden m m' ∧ user_kv m' k = Some v.

Lemma write_job_txn_put p k v w r w' :
  write_job_txn p (put_prepared k v) w = (r, w') → count_wait (prepared_job p) = None →
  let j := prepared_job p in
  match r with
  | Ok (inl i) => no_effect w w' (λ m, ∃ dk b, dedup_key j = Some dk ∧
      m !! dedup_index_key (queue j) dk = Some b ∧ from_utf8 b = Some i)
  | Ok (inr (i, rs)) => i = id j ∧ effect w w' (put_change j (id_override_used p) k v)
  | Err e => passes w w' ∨ effect w w' (put_change j (id_override_used p) k v)
  end.
Proof.
  intros H Hcw. cbn zeta. destruct r as [r|e].
  - apply retry_effect in H as (t & wa & t' & wb & Hf & _ & Hor); [|apply write_job_txn_steady].
    destruct Hor as [(E & _ & He)|(E & w3 & Hp & Hm & Hp')].
    + assert (Hr : r = inr (id (prepared_job p), [])).
      { destruct He as (w3 & d' & _ & Hc & _). by apply (put_body p k v t wa r t' wb _ _ Hf Hcw E Hc). }
      subst r. split; [done|]. eapply effect_mono; [|exact He]. intros m m' Hc.
      by apply (put_body p k v t wa _ t' wb _ _ Hf Hcw E Hc).
    + apply IO_bind_Ok in E as ([wr t1] & w4 & [E1 ->]%staging_Ok & E).
      apply (stage_job_writes_inv _ _ _ _ Hf) in E1; destruct wr as [ex|i].
      * injection E as <- _ _. destruct E1 as (_ & Hex). exists w3. split; [done|]. split; [by rewrite Hm|done].
      * apply IO_bind_Ok in E as (reg & w5 & _ & E). by apply IO_bind_Ok in E as ([rs2 t2] & w6 & _ & E).
  - apply retry_failed_effect in H as [Hp|(t & wa & t' & wb & r & Hf & E & _ & He)];
      [by left|right|apply write_job_txn_steady].
    eapply effect_mono; [|exact He]. intros m m' Hc. by apply (put_body p k v t wa r t' wb _ _ Hf Hcw E Hc).
Qed.

(** The end of a write: its outcome is that of the transaction. *)
Lemma write_end pe (b : bool) st (o : Result EnqueueResult) pp w r w' :
  (finish_job_write pp b ≫= λ _, results ← finish_effects pe st;
   outcome ← io_result o; mret (outcome, default [] results)) w = (r, w') →
  passes w w' ∧ fst <$> r = o.
Proof.
  unfold mbind at 1, IO_bind at 1. destruct (finish_job_write pp b w) as [[u|e2] w4] eqn:Ew.
  2: { exfalso. revert Ew. unfold finish_job_write. destruct b; [done|]. intros Ew.
       pose proof (delete_for_ok (prepared_job pp) w) as Hd. by rewrite Ew in Hd. }
  assert (Hp : passes w w4).
  { eapply still_passes, Ew. unfold finish_job_write. destruct b; [apply still_ret|apply still_delete_for]. }
  unfold mbind at 1, IO_bind at 1. destruct (finish_effects pe st w4) as [rf w5] eqn:Ef.
  apply effects_finished in Ef as [[rs ->] Hp5]. destruct o; intros [= <- <-]; (split; [by etrans|done]).
Qed.

(** A write of a job, whatever it returns: nothing happened, or it returns what its
    transaction does. *)
Lemma write_job_end p pe w r w' :
  write_job p pe w = (r, w') →
  passes w w' ∧ (∃ e, r = Err e) ∨
  ∃ j w1 x w2, same_but_payload (prepared_job p) j ∧ passes w w1 ∧
    write_job_txn (mkPrepared j (id_override_used p)) pe w1 = (x, w2) ∧ passes w2 w' ∧
    fst <$> r = (λ y : string + string * list EnqueueResult,
      match y with inl i => AlreadyEnqueued i | inr (i, _) => New i end) <$> x.
Proof.
  unfold write_job, mbind at 1, IO_bind at 1, io_try. destruct (offload (prepared_job p) w) as [o w3] eqn:Eo.
  assert (Hp3 : passes w w3) by (eapply still_passes; [apply still_offload|done]).
  destruct o as [j|e0].
  - apply offload_Ok in Eo as [Hj _].
    unfold mbind at 1, IO_bind at 1, mbind at 1, IO_bind at 1.
    destruct (write_job_txn _ pe w3) as [x w4] eqn:Ew. intros H. right. exists j, w3, x, w4.
    destruct x as [[ex|[i st]]|e0]; apply write_end in H as [Hp4 Hr]; done.
  - intros [Hp4 Hr]%write_end. left. split; [by etrans|]. destruct r as [x|e]; [done|by exists e].
Qed.

(** An enqueue with a write of a user key: the record of the new job, which follows
    its options, and the key are written in one change, or a job holds the dedup key. *)
Lemma enqueue_put_effect q pl opts k v w r w' :
  enqueue_with_effects q pl opts (put_effects k v) w = (r, w') → opt_count_wait opts = None →
  passes w w' ∧ (∃ e, r = Err e) ∨
  ∃ j overridden, qn_str (queue j) = q ∧ headers j = opt_headers opts ∧ dedup_key j = opt_dedup_key opts ∧
  match r with
  | Ok (New i, _) => i = id j ∧ effect w w' (put_change j overridden k v)
  | Ok (AlreadyEnqueued i, _) => no_effect w w' (λ m, ∃ dk b, dedup_key j = Some dk ∧
      m !! dedup_index_key (queue j) dk = Some b ∧ from_utf8 b = Some i)
  | Err e => passes w w' ∨ effect w w' (put_change j overridden k v)
  end.
Proof.
  intros H Hcw. unfold enqueue_with_effects in H. unfold mbind at 1, IO_bind at 1 in H.
  destruct (prepare_job_record q pl opts w) as [[p|e0] w1] eqn:Ep;
    (assert (Hp1 : passes w w1) by (eapply still_passes; [apply still_prepare_job|done]));
    [|injection H as <- <-; left; split; [done|by exists e0]].
  unfold mbind at 1, IO_bind at 1 in H. destruct (prepare_effects _ w1) as [[pe|e0] w2] eqn:Epe;
    (assert (Hp2 : passes w1 w2) by (eapply still_passes; [apply still_prepare_effects|done]));
    [|injection H as <- <-; left; split; [by etrans|by exists e0]].
  apply prepare_put in Epe as ->.
  pose proof (prepare_count_wait _ _ _ _ _ _ Ep Hcw) as Hpc.
  pose proof (prepared_job_follows_its_options q pl opts w) as Hf. rewrite Ep in Hf. cbn [fst] in Hf.
  destruct Hf as ((Hq & _ & _ & Hh & _ & _ & _ & Hdk & _) & _).
  apply write_job_end in H as [[Hp He]|(j & w3 & x & w4 & Hj & Hp3 & Ew & Hp4 & Hr)].
  { left. split; [by do 2 (etrans; [done|])|done]. }
  destruct Hj as (Ei & _ & Ec & Eq & Ed & Es & y & z & Ej).
  apply write_job_txn_put in Ew; cbn [prepared_job id_override_used] in *; [|by rewrite Ec].
  assert (Hp : passes w w3) by (by do 2 (etrans; [done|])).
  right. exists j, (id_override_used p).
  split; [by rewrite Eq|]. split; [by rewrite Ej|]. split; [by rewrite Ed|].
  destruct x as [[i|[i st]]|e], r as [[r rs]|e']; try discriminate Hr; injection Hr as ->.
  - by eapply no_effect_around.
  - destruct Ew as [-> He]. split; [done|]. by eapply effect_around.
  - destruct Ew as [Hpx|He]; [left; by do 2 (etrans; [done|])|right; by eapply effect_around].
Qed.

(** A write of a user key: it is made, or, when the call fails, may not be. *)
Definition key_put (k v : bytes) (m m' : gmap bytes bytes) : Prop := m' = <[user_scoped_key k := v]> m.

Lemma kv_put_effect k v w r w' :
  kv_put k v w = (r, w') →
  match r with Ok _ => effect w w' (key_put k v) | Err _ => passes w w' ∨ effect w w' (key_put k v) end.
Proof.
  unfold kv_put, await_durable, mbind, IO_bind, io_result, get, io_gets, upd, io_modify.
  destruct (validate_kv_value_size v) as [u|e]; [|intros [= <- <-]; by left].
  destruct (lift (db_put _ _ _)) as [d|e] eqn:E; [|intros [= <- <-]; by left].
  apply lift_Ok, db_put_law in E. cbn.
  assert (He : effect w (mkWorld (set_db d (core w)) (others w)) (key_put k v)) by by exists w, d.
  destruct (lift _); intros [= <- <-]; [done|by right].
Qed.

Lemma kv_put_failed k v w e w' :
  kv_put k v w = (Err e, w') → not_storage e → w' = w.
Proof.
  unfold kv_put, await_durable, mbind, IO_bind, io_result, get, io_gets, upd, io_modify.
  intros H Hn. repeat (case_match; simplify_eq/=); try done; exfalso; by eapply lift_storage.
Qed.
Lemma enqueue_with_failed q pl opts w e w' :
  enqueue_with q pl opts w = (Err e, w') → not_storage e → passes w w'.
Proof.
  intros H. apply (enqueue_with_effects_failed q pl opts effects_default w e w').
  revert H. unfold enqueue_with, enqueue_with_effects, mbind, IO_bind.
  destruct (prepare_job_record q pl opts w) as [[p|e0] w1]; [|by intros [= -> ->]].
  change (prepare_effects effects_default w1) with (@Ok Error _ prepared_default, w1).
  cbv beta iota. destruct (write_job p prepared_default w1) as [[[r rs]|e0] w2]; [done|by intros [= -> ->]].
Qed.

(** ** The effect of a firing *)

(** The job of a firing. *)
Definition firing_job (s : Schedule) (fire_at : DateTime) (j : JobRecord) : Prop :=
  qn_str (queue j) = sched_queue s ∧ headers j = fire_headers s fire_at ∧
  dedup_key j = opt_dedup_key (fire_options s fire_at).
Definition watermark_value (fire_at : DateTime) : bytes := as_bytes (dec_text (timestamp_millis fire_at)).
(** A job holds the dedup key of the firing. *)
Definition firing_held (s : Schedule) (fire_at : DateTime) (m : gmap bytes bytes) : Prop :=
  ∃ j dk, firing_job s fire_at j ∧ dedup_key j = Some dk ∧ is_Some (m !! dedup_index_key (queue j) dk).

(** The firing took effect: its job is new, and under backfill the watermark is
    written in the same change; or a job holds its dedup key, and under backfill the
    watermark is written. *)
Definition fired (s : Schedule) (fire_at : DateTime) w w' : Prop :=
  let key := watermark_key (sched_name s) in
  (∃ j overridden, firing_job s fire_at j ∧ effect w w' (λ m m',
     (∃ k, stored_key j = Ok k ∧ inserted j k overridden m m') ∧
     (is_Some (backfill s) → user_kv m' key = Some (watermark_value fire_at)))) ∨
  (∃ w1, no_effect w w1 (firing_held s fire_at) ∧
     match backfill s with
     | Some _ => effect w1 w' (key_put key (watermark_value fire_at))
     | None => passes w1 w'
     end).

Lemma yield_bind {A} (m : Q A) w r w' :
  (yield ≫= λ _, m) w = (r, w') → ∃ w1, passes w w1 ∧ m w1 = (r, w').
Proof.
  unfold mbind, IO_bind. destruct (yield w) as [[u|e] w1] eqn:Ey; [|by unfold yield, io_modify in Ey].
  intros H. exists w1. by apply yield_passes in Ey.
Qed.

(** A firing takes effect or changes nothing, and a firing that returns took effect. *)
Lemma fire_result s fire_at w r w' :
  fire s fire_at w = (r, w') →
  match r with
  | Ok _ => fired s fire_at w w'
  | Err e => (is_Some (backfill s) → passes w w' ∨ fired s fire_at w w') ∧
      (not_storage e → passes w w')
  end.
Proof.
  unfold fire, fired. destruct (backfill s) as [b|] eqn:Eb; cbn zeta.
  - unfold mbind at 1, IO_bind at 1. destruct ((yield ≫= _) w) as [x w2] eqn:E.
    apply yield_bind in E as (w1 & Hy & E).
    assert (Hf : ∀ e, x = Err e → not_storage e → passes w w2).
    { intros e -> Hn. etrans; [exact Hy|]. by eapply enqueue_with_effects_failed. }
    apply enqueue_put_effect in E as [[Hp [e ->]]|(j & o & Hq & Hh & Hd & E)]; [| |done].
    { intros [= <- <-]. split; [left; by etrans|by apply Hf]. }
    assert (He : effect w1 w2 (put_change j o (watermark_key (sched_name s)) (watermark_value fire_at)) →
      effect w w2 (λ m m', (∃ k, stored_key j = Ok k ∧ inserted j k o m m') ∧ (is_Some (Some b) →
        user_kv m' (watermark_key (sched_name s)) = Some (watermark_value fire_at)))).
    { intros He. eapply effect_around; [done|done|]. eapply effect_mono; [|exact He].
      intros m m' (key & Hk & Hi & Hu). split; [by exists key|done]. }
    destruct x as [[[i|i] rs]|e].
    + intros [= <- <-]. left. exists j, o. split; [done|]. apply He, E.
    + intros H. apply yield_bind in H as (w3 & Hy3 & H). apply kv_put_effect in H as H2.
      assert (Hn : no_effect w w3 (firing_held s fire_at)).
      { eapply no_effect_around; [exact Hy|exact Hy3|]. eapply no_effect_mono; [|exact E].
        intros m (dk & x & Hdk & Hm & _). exists j, dk. by rewrite Hm. }
      destruct r as [[]|e]; [right; by exists w3|].
      assert (Hp : passes w w3) by by eapply no_effect_passes. split.
      * destruct H2 as [Hp2|H2]; [left; by etrans|right; right; by exists w3].
      * intros Hs. etrans; [exact Hp|]. by erewrite kv_put_failed.
    + intros [= <- <-]. split; [|by apply Hf].
      destruct E as [Hp|E]; [left; by etrans|]. right. left. exists j, o. split; [done|]. apply He, E.
  - intros H. apply yield_bind in H as (w1 & Hy & H).
    unfold mbind, IO_bind in H. destruct (enqueue_with _ _ _ w1) as [[i|e0] w2] eqn:E; injection H as <- <-.
    + apply enqueue_with_effect in E as (p & w3 & j & Ep & Hj & Hor); [|done].
      pose proof (prepared_job_follows_its_options (sched_queue s) (sched_payload s) (fire_options s fire_at) w1) as Hf.
      rewrite Ep in Hf. destruct Hf as ((Hq & _ & _ & Hh & _ & _ & _ & Hd & _) & _).
      destruct Hj as (_ & _ & _ & Eq & Ed & _ & y & z & Ej).
      assert (Hjob : firing_job s fire_at j) by (split; [by rewrite Eq|split; [by rewrite Ej|by rewrite Ed]]).
      destruct Hor as [(_ & key & Hk & He)|Hn].
      * left. exists j, (id_override_used p). split; [done|].
        eapply effect_around; [exact Hy|done|]. eapply effect_mono; [|exact He].
        intros m m' Hi. split; [by exists key|]. by intros [].
      * right. exists w2. split; [|done]. eapply no_effect_around; [exact Hy|done|].
        eapply no_effect_mono; [|exact Hn].
        intros m (dk & x & Hdk & Hm & _). exists j, dk. by rewrite Hm.
    + split; [by intros []|]. intros Hn. etrans; [done|]. by eapply enqueue_with_failed.
Qed.

(** ** The position of a schedule under backfill *)

(** No other task writes the user key [k]. *)
Definition leaves (k : bytes) w : Prop :=
  Forall (λ f : Core → Core, ∀ c, user_kv (contents (db (f c))) k = user_kv (contents (db c)) k) (others w).
Abbreviation user_at k w := (user_kv (contents (db (core w))) k).

Lemma passes_leaves k w w' : passes w w' → leaves k w → user_at k w' = user_at k w ∧ leaves k w'.
Proof.
  induction 1 as [|w w1 w2 _ IH (E1 & E2 & _)|w w1 _ IH]; intros H; [done|..]; specialize (IH H) as [Ek Hl].
  - unfold leaves. by rewrite E1, E2.
  - unfold yield, io_modify. cbn. unfold leaves in Hl. destruct (others w1) as [|f fs] eqn:Eo; cbn.
    + split; [done|]. unfold leaves. by rewrite Eo.
    + apply Forall_cons in Hl as [Hf Hl]. split; [|done]. etrans; [apply Hf|done].
Qed.

Lemma effect_leaves k w w' R :
  effect w w' R → leaves k w →
  (∃ m m', R m m' ∧ user_kv m' k = user_at k w') ∧ leaves k w'.
Proof.
  intros (w1 & d & Hp & HR & Hp') Hl. apply (passes_leaves k) in Hp as [_ Hl1]; [|done].
  apply (passes_leaves k) in Hp' as [Ek Hl']; [|done]. split; [|done]. by exists (contents (db (core w1))), (contents d).
Qed.

Lemma no_effect_leaves k w w' P : no_effect w w' P → leaves k w → leaves k w'.
Proof. intros Hp%no_effect_passes Hl. by apply (passes_leaves k w w'). Qed.

(** A firing that took effect left its watermark. *)
Lemma fired_watermark s fire_at w w' b :
  fired s fire_at w w' → backfill s = Some b → leaves (watermark_key (sched_name s)) w →
  user_at (watermark_key (sched_name s)) w' = Some (watermark_value fire_at) ∧
  leaves (watermark_key (sched_name s)) w'.
Proof.
  intros H Hb Hl. unfold fired in H. rewrite Hb in H. cbn zeta in H. destruct H as [(j & o & _ & He)|(w1 & Hn & He)].
  - apply (effect_leaves (watermark_key (sched_name s))) in He as [(m & m' & [_ Hw] & <-) Hl']; [|done].
    split; [by apply Hw|done].
  - apply (no_effect_leaves (watermark_key (sched_name s))) in Hn; [|done].
    apply (effect_leaves (watermark_key (sched_name s))) in He as [(m & m' & -> & <-) Hl']; [|done].
    split; [|done]. unfold user_kv. by rewrite lookup_insert_eq.
Qed.

Context {CL : CronerLaws}.
#[local] Set Default Proof Using "Type DL SR SA EN CH CR CL".

Lemma ascii_digits s : digit_str s = true → is_ascii_str s = true.
Proof.
  unfold digit_str, is_ascii_str. rewrite !forallb_forall. intros H b Hb. apply H in Hb. unfold in_range in *. lia.
Qed.
Lemma dec_text_ascii n : is_ascii_str (dec_text n) = true.
Proof.
  destruct n as [|p|p]; [done|..].
  - change (is_ascii_str (pretty_N_go (Npos p) "") = true). by apply ascii_digits, pretty_go_digits.
  - change (is_ascii_str (String "-"%char (pretty_N_go (Npos p) "")) = true).
    assert (H : is_ascii_str (pretty_N_go (Npos p) "") = true) by by apply ascii_digits, pretty_go_digits.
    exact H.
Qed.

(** A watermark reads back as the instant it was written for. *)
Lemma watermark_back fire_at :
  (instant fire_at mod 1000000)%Z = 0%Z →
  ∃ d, parse_watermark (watermark_value fire_at) = Some d ∧ instant d = instant fire_at.
Proof.
  intros H. destruct (to_millis_law fire_at) as [Hi Hb]. destruct (Hb H) as (d & Hd & E).
  exists d. split; [|done]. unfold parse_watermark, watermark_value.
  rewrite from_utf8_as_bytes by apply dec_text_ascii. cbn [mbind option_bind].
  unfold timestamp_millis. rewrite parse_i64_text by done. exact Hd.
Qed.

(** The position follows the stored watermark: it is the next occurrence, or the
    firing of the watermark itself, whose call failed after its commit. *)
Definition at_watermark (s : Schedule) (wm : DateTime) (f : option DateTime) : Prop :=
  f = next_time_after (expression s) wm ∨ ∃ f', f = Some f' ∧ instant f' = instant wm.
Definition tracked_position (s : Schedule) (f : option DateTime) w : Prop :=
  ∃ v wm, user_at (watermark_key (sched_name s)) w = Some v ∧ parse_watermark v = Some wm ∧ at_watermark s wm f.

Lemma parsed_instant v wm : parse_watermark v = Some wm → (instant wm mod 1000000)%Z = 0%Z.
Proof.
  unfold parse_watermark. intros (x & _ & (ms & _ & H)%bind_Some)%bind_Some. apply from_millis_law in H as ->.
  apply Z.mod_mul. lia.
Qed.
Lemma position_instant s f w : tracked_position s (Some f) w → (instant f mod 1000000)%Z = 0%Z.
Proof.
  intros (v & wm & _ & Hp & [H|(f' & [= <-] & ->)]); [|by eapply parsed_instant].
  symmetry in H. apply next_law in H as (_ & Ho%occurs_law & _).
  apply Z.div_exact in Ho; [|lia]. rewrite Ho. replace (1000000000)%Z with (1000 * 1000000)%Z by lia.
  rewrite (Z.mul_comm 1000), <- Z.mul_assoc, Z.mul_comm. apply Z.mod_mul. lia.
Qed.

(** No occurrence after the watermark is before the position. *)
Lemma nothing_skipped s wm f x :
  at_watermark s wm (Some f) → occurs (expression s) x → (instant wm < x)%Z → (instant f <= x)%Z.
Proof.
  intros [H|(f' & [= <-] & ->)] Ho Hx; [|lia]. symmetry in H. apply next_law in H as (_ & _ & H). by apply H.
Qed.

(** The search for the previous occurrence of a time with a fraction of a second starts
    at the following second, and finds the last occurrence before the time. *)
Lemma previous_is_last e at_ p :
  previous_time_before e at_ = Some p →
  (instant p < instant at_)%Z ∧ occurs e (instant p) ∧
  ∀ x, occurs e x → (x < instant at_)%Z → (x <= instant p)%Z.
Proof.
  unfold previous_time_before, timestamp_subsec_nanos. intros (start & Hs & H)%bind_Some.
  case_decide as Hd; [injection Hs as <-; by apply previous_law in H|].
  apply bind_Some in Hs as (d & Hw & Ha). apply with_nanosecond_law in Hw. apply add_law in Ha.
  change (from_secs 1) with 1000000000%Z in Ha.
  pose proof (Z.div_mod (instant at_) 1000000000 ltac:(lia)) as E.
  pose proof (Z.mod_pos_bound (instant at_) 1000000000 ltac:(lia)) as Hm.
  set (q := (instant at_ / 1000000000)%Z) in *.
  assert (Es : instant start = ((q + 1) * 1000000000)%Z) by lia.
  apply previous_law in H as (Hlt & Ho & Hlast); [|rewrite Es; apply Z.mod_mul; lia].
  split; [|split; [done|]].
  - apply occurs_law, Z.div_exact in Ho; [|lia]. nia.
  - intros x Hx Hlx. apply Hlast; [done|]. lia.
Qed.

Lemma fired_position s b f w w' :
  backfill s = Some b → leaves (watermark_key (sched_name s)) w → tracked_position s (Some f) w →
  fired s f w w' →
  tracked_position s (next_time_after (expression s) f) w' ∧ tracked_position s (Some f) w' ∧
  leaves (watermark_key (sched_name s)) w'.
Proof.
  intros Hb Hl Hp Hf. destruct (fired_watermark _ _ _ _ _ Hf Hb Hl) as [Hw Hl'].
  destruct (watermark_back f) as (d & Hd & E); [by eapply position_instant|].
  split; [|split; [|done]]; (exists (watermark_value f), d; split; [done|]; split; [done|]).
  - left. unfold next_time_after. by apply next_ext.
  - right. by exists f.
Qed.

(** A turn of the position of a schedule under backfill. *)
Lemma tick_due_position a now w wake a' w' b :
  let s := entry (active_entry a) in
  backfill s = Some b → leaves (watermark_key (sched_name s)) w → tracked_position s (next_fire a) w →
  tick_due a now w = (Ok (wake, a'), w') →
  active_entry a' = active_entry a ∧ tracked_position s (next_fire a') w' ∧
  leaves (watermark_key (sched_name s)) w'.
Proof.
  cbn zeta. set (s := entry (active_entry a)). intros Hb Hl Hp. unfold tick_due. fold s.
  destruct (next_fire a) as [f|] eqn:Ef; [|intros [= <- <- <-]; by rewrite Ef].
  case_decide as Hd; [|intros [= <- <- <-]; by rewrite Ef].
  unfold mbind at 1, IO_bind at 1, io_try. destruct (fire s f w) as [r w1] eqn:E. apply fire_result in E.
  rewrite Hb. destruct r as [u|e].
  - intros [= <- <- <-]. destruct (fired_position _ _ _ _ _ Hb Hl Hp E) as (H1 & _ & H2). done.
  - destruct E as [E _]. unfold retry_at. intros H.
    assert (w' = w1 ∧ a' = a) as [-> ->].
    { unfold mbind, IO_bind in H. destruct (checked_add_signed _ _); [|done]. by injection H as <- <- <-. }
    rewrite Ef. split; [done|]. destruct E as [E|E]; [by exists b| |].
    + destruct (passes_leaves _ _ _ E Hl) as [Hk Hl']. split; [|done].
      destruct Hp as (v & wm & Hv & Hp). exists v, wm. by rewrite Hk.
    + by destruct (fired_position _ _ _ _ _ Hb Hl Hp E) as (_ & H1 & H2).
Qed.

(** The read of the watermark. *)
Lemma cron_view_at k w (r : result Error (option bytes)) w' :
  cron_view (λ h, kv_get h k) w = (r, w') →
  passes w w' ∧ match r with Ok b => b = user_at k w' | Err _ => True end.
Proof using DL SR SA EN.
  unfold cron_view. intros (w1 & Hy & H)%yield_bind. split.
  - etrans; [exact Hy|]. unfold mbind, IO_bind, get, io_gets, io_result in H. cbn in H. by injection H as _ <-.
  - unfold mbind, IO_bind, get, io_gets, io_result, kv_get, handle_get in H. cbn in H.
    destruct (db_get _ _) as [o|e] eqn:E; cbn in H; injection H as <- <-; [|done]. by apply db_get_law in E as ->.
Qed.

(** The lookback of a schedule does not cut the replay from the watermark [wm]. *)
Definition within_lookback (b : Backfill) (now wm : DateTime) : Prop :=
  ∀ floor, lookback_floor now (lookback b) = Some floor → (instant floor <= instant wm)%Z.

Lemma anchor_at_watermark s b now w r w' v wm :
  backfill s = Some b → leaves (watermark_key (sched_name s)) w →
  user_at (watermark_key (sched_name s)) w = Some v → parse_watermark v = Some wm → within_lookback b now wm →
  initial_anchor s now w = (r, w') →
  leaves (watermark_key (sched_name s)) w' ∧ user_at (watermark_key (sched_name s)) w' = Some v ∧
  match r with Ok anchor => anchor = wm | Err _ => True end.
Proof.
  intros Hb Hl Hv Hp Hw. unfold initial_anchor. rewrite Hb. unfold mbind, IO_bind.
  destruct (cron_view _ w) as [[raw|e] w1] eqn:E; apply cron_view_at in E as [Hps E];
    destruct (passes_leaves _ _ _ Hps Hl) as [Hk Hl']; intros [= <- <-]; (split; [done|]; split; [by rewrite Hk|]);
    [|done].
  rewrite E, Hk, Hv, Hp. destruct (lookback_floor now (lookback b)) as [floor|] eqn:Ef; [|done].
  apply Hw in Ef. case_match eqn:Hc; [|done]. apply Z.ltb_lt in Hc. lia.
Qed.

Lemma retry_at_same now w r w' : retry_at now w = (r, w') → w' = w.
Proof using Type. unfold retry_at. destruct (checked_add_signed _ _); by intros [= _ <-]. Qed.

(** A turn of a schedule under backfill, from a stored watermark. *)
Lemma tick_entry_position a now w wake a' w' b v wm :
  let s := entry (active_entry a) in
  let key := watermark_key (sched_name s) in
  backfill s = Some b → leaves key w → user_at key w = Some v → parse_watermark v = Some wm →
  match next_fire a with Some f => at_watermark s wm (Some f) | None => within_lookback b now wm end →
  tick_entry a now w = (Ok (wake, a'), w') →
  active_entry a' = active_entry a ∧ leaves key w' ∧
  ∃ v' wm', user_at key w' = Some v' ∧ parse_watermark v' = Some wm' ∧
    (next_fire a' = None ∨ at_watermark s wm' (next_fire a')).
Proof.
  cbn zeta. set (s := entry (active_entry a)). intros Hb Hl Hv Hp Hpos. unfold tick_entry.
  assert (Hdue : ∀ x w1, active_entry x = active_entry a → leaves (watermark_key (sched_name s)) w1 →
    user_at (watermark_key (sched_name s)) w1 = Some v → at_watermark s wm (next_fire x) →
    tick_due x now w1 = (Ok (wake, a'), w') → active_entry a' = active_entry a ∧
    leaves (watermark_key (sched_name s)) w' ∧
    ∃ v' wm', user_at (watermark_key (sched_name s)) w' = Some v' ∧ parse_watermark v' = Some wm' ∧
      (next_fire a' = None ∨ at_watermark s wm' (next_fire a'))).
  { intros x w1 Hx Hl1 Hv1 Hx2 H. subst s. rewrite <- Hx in *.
    eapply tick_due_position in H as (He & (v' & wm' & Hv' & Hp' & Hat) & Hl'); [|done..|by exists v, wm].
    split; [done|]. split; [done|]. exists v', wm'. auto. }
  destruct (next_fire a) as [f|] eqn:Ef; [intros H; eapply (Hdue a); [done..| |exact H]; by rewrite Ef|].
  fold s. unfold mbind at 1, IO_bind at 1, io_try.
  destruct (initial_anchor s now w) as [r w1] eqn:E.
  eapply anchor_at_watermark in E as (Hl1 & Hv1 & Hr); [|done..]. destruct r as [anchor|e].
  - subst anchor. apply Hdue; [done..|]. by left.
  - intros H. unfold mbind, IO_bind in H. destruct (retry_at now w1) as [[x|e2] w2] eqn:Er; [|done].
    apply retry_at_same in Er as ->. injection H as <- <- <-. split; [done|]. split; [done|].
    exists v, wm. split; [done|]. split; [done|]. by left.
Qed.

End firing.

(** ** The registry and the active entries *)

Section registry.
  Context {CH : Chrono} {CR : Croner}.

Abbreviation names es := (sched_name ∘ entry <$> es).

(** The names are unique, and so are the addresses, which are below the next one. *)
Record registry_ok (r : RegistryState) : Prop := {
  names_unique : NoDup (names (entries r));
  arcs_unique : NoDup (arc <$> entries r);
  arcs_below : Forall (λ e, arc e < arcs r) (entries r);
}.

Lemma existsb_name n es : existsb (has_name n) es = true ↔ n ∈ names es.
Proof.
  rewrite existsb_exists, list_elem_of_fmap. unfold has_name. split.
  - intros (e & He%list_elem_of_In & Hn%bool_decide_eq_true). by exists e.
  - intros (e & -> & He). exists e. split; [by apply list_elem_of_In|by apply bool_decide_eq_true].
Qed.


Lemma schedule_eqb_spec a b : schedule_eqb a b = true →
  sched_name a = sched_name b ∧ cron_str (expression a) = cron_str (expression b) ∧
  sched_queue a = sched_queue b ∧ sched_payload a = sched_payload b ∧ sched_headers a = sched_headers b ∧
  sched_priority a = sched_priority b ∧ sched_max_attempts a = sched_max_attempts b ∧ backfill a = backfill b.
Proof.
  unfold schedule_eqb, expression_eqb. rewrite !andb_true_iff, !bool_decide_eq_true. naive_solver.
Qed.
Lemma schedule_eqb_refl a : schedule_eqb a a = true.
Proof. unfold schedule_eqb, expression_eqb. by rewrite !bool_decide_eq_true_2 by done. Qed.

Lemma register_ok s r x r' : register s r = (x, r') → registry_ok r →
  registry_ok r' ∧ match x with
  | Ok _ => entries r' = entries r ++ [mkEntry (arcs r) s] ∧ stopped r = false
  | Err _ => r' = r
  end.
Proof.
  unfold register. intros H Hr. destruct (validate s); [|by injection H as <- <-].
  destruct (stopped r) eqn:Es; [by injection H as <- <-|].
  destruct (existsb _ _) eqn:Ex; [by injection H as <- <-|]. injection H as <- <-. split; [|done].
  destruct Hr as [Hn Ha Hb]. split; cbn.
  - rewrite fmap_app. apply NoDup_app. split; [done|]. split; [|apply NoDup_singleton].
    intros n Hin ->%list_elem_of_singleton. cbn in Hin. apply existsb_name in Hin. by rewrite Hin in Ex.
  - rewrite fmap_app. apply NoDup_app. split; [done|]. split; [|apply NoDup_singleton].
    intros n (e & -> & He)%list_elem_of_fmap Hin%list_elem_of_singleton. cbn in Hin.
    rewrite Forall_forall in Hb. specialize (Hb e He). lia.
  - apply Forall_app. split; [|constructor; [cbn; lia|done]].
    eapply Forall_impl; [exact Hb|]. cbn. lia.
Qed.

Lemma filter_all {A} (P : A → Prop) `{!∀ x, Decision (P x)} (l : list A) : (∀ x, x ∈ l → P x) → filter P l = l.
Proof.
  induction l as [|x l IH]; intros Hl; [done|]. rewrite filter_cons_True by (apply Hl; by left).
  f_equal. apply IH. intros y Hy. apply Hl. by right.
Qed.

Lemma unschedule_ok n r x r' : unschedule n r = (x, r') → registry_ok r →
  registry_ok r' ∧ entries r' = filter (λ e, has_name n e = false) (entries r) ∧
  (x = bool_decide (n ∈ names (entries r))) ∧ (x = false → r' = r) ∧ stopped r' = stopped r.
Proof.
  set (kept := filter (λ e, has_name n e = false) (entries r)).
  intros H Hr.
  assert (Hk : kept `sublist_of` entries r) by apply sublist_filter.
  assert (E : entries r' = kept ∧ arcs r' = arcs r ∧ stopped r' = stopped r).
  { unfold unschedule in H. fold kept in H. by case_decide; injection H as <- <-. }
  destruct E as (E & Ea & Es). destruct Hr as [Hn Hu Hb].
  assert (Hx : x = bool_decide (n ∈ names (entries r)) ∧ (x = false → r' = r)).
  { unfold unschedule in H. fold kept in H. destruct (decide (n ∈ names (entries r))) as [Hin|Hin].
    - rewrite decide_True in H; [by injection H as <- <-; rewrite bool_decide_eq_true_2|].
      apply list_elem_of_fmap in Hin as (e & -> & He). apply (length_filter_lt _ _ e He).
      unfold has_name. by rewrite bool_decide_eq_true_2.
    - assert (kept = entries r) as Hkept.
      { apply filter_all. intros e He. apply bool_decide_eq_false. intros <-. apply Hin. by apply (list_elem_of_fmap_2 (sched_name ∘ entry)). }
      rewrite decide_False in H by (rewrite Hkept; lia). injection H as <- <-.
      rewrite bool_decide_eq_false_2 by done. split; [done|]. intros _. rewrite Hkept. by destruct r. }
  split; [|split; [done|split; [apply Hx|split; [apply Hx|done]]]].
  split; rewrite ?E, ?Ea.
  - eapply sublist_NoDup; [exact Hn|]. by apply fmap_sublist.
  - eapply sublist_NoDup; [exact Hu|]. by apply fmap_sublist.
  - rewrite Forall_forall in *. intros e He. apply Hb. by eapply elem_of_sublist.
Qed.

Lemma validate_all_names seen l : validate_all seen l = Ok tt →
  NoDup (sched_name <$> l) ∧ (∀ n, n ∈ sched_name <$> l → n ∉ seen) ∧ Forall (λ s, validate s = Ok tt) l.
Proof.
  revert seen. induction l as [|s l IH]; intros seen; cbn; [intros _; split; [constructor|]; split; [set_solver|done]|].
  destruct (validate s) as [[]|] eqn:Ev; cbn; [|done]. case_decide as Hs; [done|].
  intros (Hn & Hd & Hv)%IH. split; [|split].
  - constructor; [|done]. intros Hin. apply (Hd _ Hin). set_solver.
  - intros n [->|Hin]%elem_of_cons; [done|]. specialize (Hd n Hin). set_solver.
  - by constructor.
Qed.

(** What [replaced] makes of the old entries. *)
Record replaces (old : list Entry) (l : list Schedule) (next : nat) (es : list Entry) (kept next' : nat) : Prop := {
  rep_equal : Forall2 (λ e s, schedule_eqb (entry e) s = true) es l;
  rep_next : next <= next';
  rep_from e : e ∈ es → e ∈ old ∨ next <= arc e < next';
  rep_kept : kept <= length es;
  rep_all : kept = length es → ∀ e, e ∈ es → e ∈ old;
}.

Lemma replaced_ok old l next es kept next' :
  replaced old l next = (es, kept, next') → replaces old l next es kept next'.
Proof.
  revert next es kept next'. induction l as [|s l IH]; intros next es kept next'; cbn [replaced].
  { intros [= <- <- <-]. split; [constructor|lia|set_solver|done|set_solver]. }
  destruct (list_find_first _ old) as [e|] eqn:Ef.
  - apply list_find_first_Some in Ef as [He Hs].
    destruct (replaced old l next) as [[es0 k0] n0] eqn:E. intros [= <- <- <-]. apply IH in E as [H1 H2 H3 H4 H5].
    split; [by constructor|done| |cbn; lia|].
    + intros x [->|Hx]%elem_of_cons; [by left|by apply H3].
    + cbn. intros Hk x [->|Hx]%elem_of_cons; [done|]. apply H5; [lia|done].
  - destruct (replaced old l (S next)) as [[es0 k0] n0] eqn:E. intros [= <- <- <-]. apply IH in E as [H1 H2 H3 H4 H5].
    split; [constructor; [apply schedule_eqb_refl|done]|lia| |cbn; lia|cbn; lia].
    intros x [->|Hx]%elem_of_cons; [right; cbn; lia|]. destruct (H3 x Hx) as [?|?]; [by left|right; lia].
Qed.

Lemma replaced_names es l :
  Forall2 (λ e s, schedule_eqb (entry e) s = true) es l → names es = sched_name <$> l.
Proof.
  induction 1 as [|e s es l He _ IH]; [done|]. rewrite !fmap_cons, IH. f_equal. by apply schedule_eqb_spec in He as (? & _).
Qed.

(** A registered entry equal to a schedule of the set is kept. *)
Lemma replaced_keeps old l next es kept next' e s :
  NoDup (names old) → replaced old l next = (es, kept, next') →
  e ∈ old → s ∈ l → schedule_eqb (entry e) s = true → e ∈ es.
Proof.
  intros Hn. revert next es kept next'. induction l as [|s0 l IH]; intros next es kept next'; cbn [replaced]; [set_solver|].
  destruct (list_find_first _ old) as [e0|] eqn:Ef.
  - destruct (replaced old l next) as [[es0 k0] n0] eqn:E. intros [= <- <- <-] He Hs Heq.
    apply elem_of_cons in Hs as [->|Hs]; [|right; by eapply IH].
    assert (e = e0) as ->; [|by left]. apply list_find_first_Some in Ef as [He0 Hs0]. apply list_elem_of_lookup in He as [i Hi], He0 as [k Hk].
    assert (i = k) as <-; [|congruence]. eapply (NoDup_lookup (names old)); [done| |];
      rewrite list_lookup_fmap; [by rewrite Hi|]. rewrite Hk. cbn. f_equal.
    apply schedule_eqb_spec in Heq as [-> _], Hs0 as [-> _]. done.
  - destruct (replaced old l (S next)) as [[es0 k0] n0] eqn:E. intros [= <- <- <-] He Hs Heq.
    apply elem_of_cons in Hs as [->|Hs]; [|right; by eapply IH]. exfalso.
    clear -Ef He Heq. induction old as [|x old IH]; [set_solver|]. cbn in Ef. destruct (schedule_eqb _ s0) eqn:E; [done|].
    apply elem_of_cons in He as [<-|He]; [congruence|by apply IH].
Qed.

Lemma replaced_arcs old l next es kept next' :
  registry_ok (mkRegistry old 0 false next) → NoDup (sched_name <$> l) →
  replaced old l next = (es, kept, next') → NoDup (arc <$> es).
Proof.
  intros [_ Hu Hb] Hl H. cbn in *. rewrite Forall_forall in Hb.
  assert (Hb' : ∀ e, e ∈ old → arc e < next) by done. clear Hb.
  assert (Hu' : ∀ e e', e ∈ old → e' ∈ old → arc e = arc e' → e = e').
  { intros e e' [i Hi]%list_elem_of_lookup [k Hk]%list_elem_of_lookup Ha.
    assert (i = k) as <-; [|congruence].
    eapply (NoDup_lookup (arc <$> old)); [done| |]; rewrite list_lookup_fmap; [by rewrite Hi|].
    rewrite Hk. cbn. by rewrite Ha. }
  revert next es kept next' Hb' Hl H. induction l as [|s l IH]; intros next es kept next' Hb' Hl; cbn [replaced].
  { intros [= <- <- <-]. constructor. }
  rewrite fmap_cons in Hl. apply NoDup_cons in Hl as [Hs Hl].
  destruct (list_find_first _ old) as [e|] eqn:Ef.
  - apply list_find_first_Some in Ef as [He [Hse _]%schedule_eqb_spec].
    destruct (replaced old l next) as [[es0 k0] n0] eqn:E. intros [= <- <- <-]. rewrite fmap_cons.
    apply NoDup_cons. split; [|by eapply IH]. intros (e' & Ha & He')%list_elem_of_fmap.
    apply replaced_ok in E as [H1 _ H3 _ _]. destruct (H3 e' He') as [Ho|Ho].
    + apply Hu' in Ha as <-; [|done..]. apply Hs. rewrite <- Hse, <- (replaced_names _ _ H1).
      by apply (list_elem_of_fmap_2 (sched_name ∘ entry)).
    + specialize (Hb' e He). lia.
  - destruct (replaced old l (S next)) as [[es0 k0] n0] eqn:E. intros [= <- <- <-]. rewrite fmap_cons.
    apply NoDup_cons. split; [|eapply IH; [|done|exact E]; intros e He; specialize (Hb' e He); lia].
    cbn. intros (e' & Ha & He')%list_elem_of_fmap. apply replaced_ok in E as [_ _ H3 _ _].
    destruct (H3 e' He') as [Ho|Ho]; [specialize (Hb' e' Ho)|]; lia.
Qed.

(** The set [es] is what the registry holds after a replacement by [l]. *)
Record set_replaced (r : RegistryState) (l : list Schedule) (es : list Entry) : Prop := {
  set_equal : Forall2 (λ e s, schedule_eqb (entry e) s = true) es l;
  set_kept e s : e ∈ entries r → s ∈ l → schedule_eqb (entry e) s = true → e ∈ es;
  set_new e : e ∈ es → e ∈ entries r ∨ arcs r <= arc e;
}.

Lemma replace_all_ok l r x r' : replace_all l r = (x, r') → registry_ok r →
  registry_ok r' ∧
  match x with
  | Err _ => r' = r
  | Ok changed => stopped r = false ∧ ∃ es, set_replaced r l es ∧ entries r' ≡ₚ es ∧
      (changed = false → r' = r) ∧ (changed = true → entries r' = es ∧ version r' = wrap64 (version r + 1))
  end ∧ arcs r <= arcs r'.
Proof.
  unfold replace_all. intros H Hr. destruct (validate_all [] l) as [[]|] eqn:Ev; [|by injection H as <- <-].
  destruct (stopped r) eqn:Es; [by injection H as <- <-|].
  destruct (replaced (entries r) l (arcs r)) as [[es kept] next] eqn:E.
  apply validate_all_names in Ev as (Hl & _ & _). pose proof (replaced_ok _ _ _ _ _ _ E) as [H1 H2 H3 H4 H5].
  assert (Hnames : NoDup (names es)) by by rewrite (replaced_names _ _ H1).
  assert (Hset : set_replaced r l es).
  { split; [done| |].
    - intros e s He Hs Heq. by eapply replaced_keeps; [apply Hr|..].
    - intros e He. destruct (H3 e He) as [?|?]; [by left|right; lia]. }
  case_decide as Hk; injection H as <- <-.
  - destruct Hk as [Hk Hlen]. split; [done|]. split; [|done]. split; [done|]. exists es. split; [done|].
    split; [|done]. symmetry. apply submseteq_length_Permutation; [|lia].
    apply NoDup_submseteq; [by eapply NoDup_fmap_1|]. by apply H5.
  - split; [|split; [split; [done|]; exists es; done|done]]. split; cbn; [done| |].
    + eapply (replaced_arcs (entries r)); [|exact Hl|exact E]. by destruct Hr.
    + apply Forall_forall. intros e He. destruct (H3 e He) as [Ho|Ho]; [|lia].
      destruct Hr as [_ _ Hb]. rewrite Forall_forall in Hb. specialize (Hb e Ho). lia.
Qed.

(** ** The active entries *)

Lemma filter_ext_in {A} (P Q : A → Prop) `{!∀ x, Decision (P x), !∀ x, Decision (Q x)} (l : list A) :
  (∀ x, x ∈ l → P x ↔ Q x) → filter P l = filter Q l.
Proof.
  induction l as [|x l IH]; intros Hl; [done|].
  assert (P x ↔ Q x) as Hx by (apply Hl; by left). rewrite !filter_cons, IH by (intros; apply Hl; by right).
  destruct (decide (P x)), (decide (Q x)); naive_solver.
Qed.

Lemma push_new_active es l :
  NoDup (arc <$> es) → push_new es l = l ++
    ((λ e, mkActive e None) <$> filter (λ e, arc e ∉ arc ∘ active_entry <$> l) es).
Proof.
  revert l. induction es as [|e es IH]; intros l Hu; cbn [push_new]; [by rewrite app_nil_r|].
  rewrite fmap_cons in Hu. apply NoDup_cons in Hu as [He Hu].
  assert (Hex : existsb (λ a, ptr_eq (active_entry a) e) l = true ↔ arc e ∈ arc ∘ active_entry <$> l).
  { rewrite existsb_exists, list_elem_of_fmap. unfold ptr_eq. split.
    - intros (a & Ha%list_elem_of_In & Hn%bool_decide_eq_true). by exists a.
    - intros (a & Ha & Hin). exists a. split; [by apply list_elem_of_In|by apply bool_decide_eq_true]. }
  destruct (existsb _ l).
  - rewrite IH by done. rewrite filter_cons_False; [done|]. intros Hn. by apply Hn, Hex.
  - rewrite IH by done. rewrite filter_cons_True by (intros Hn; by apply Hex in Hn). rewrite <- app_assoc. do 2 f_equal.
    erewrite filter_ext_in; [reflexivity|]. intros e' He'. cbn beta. rewrite fmap_app, elem_of_app. cbn.
    rewrite list_elem_of_singleton. split; [intros Hn Hin; apply Hn; by left|]. intros Hn [?|Ha]; [done|].
    apply He. rewrite <- Ha. by apply list_elem_of_fmap_2.
Qed.

(** The scheduler against its registry: once it is synchronised, its entries are the
    registered ones. *)
Record scheduler_ok (r : RegistryState) (s : CronScheduler) : Prop := {
  sok_registry : registry_ok r;
  sok_version : (0 <= synced s <= version r)%Z;
  sok_synced : synced s = version r → active_entry <$> active s ≡ₚ entries r;
  sok_arcs : NoDup (arc ∘ active_entry <$> active s);
  sok_below : Forall (λ a, arc (active_entry a) < arcs r) (active s);
  sok_same a e : a ∈ active s → e ∈ entries r → arc e = arc (active_entry a) → e = active_entry a;
}.

(** What a synchronisation does: the active entries become the registered ones; an
    entry that stays keeps its position, and a new one has none. *)
Record synchronised (r : RegistryState) (s s' : CronScheduler) : Prop := {
  sy_entries : active_entry <$> active s' ≡ₚ entries r;
  sy_positions a : a ∈ active s' → a ∈ active s ∨
    next_fire a = None ∧ active_entry a ∉ active_entry <$> active s;
}.

Lemma sync_ok r s : scheduler_ok r s → scheduler_ok r (sync r s) ∧ synchronised r s (sync r s).
Proof.
  intros Hs. unfold sync. destruct Hs as [Hr Hv Hsy Hu Hb Hsame]. case_decide as Hd.
  { split; [by split|]. split; [by apply Hsy|]. by left. }
  set (kept := filter (λ a, existsb (λ e, ptr_eq e (active_entry a)) (entries r) = true) (active s)).
  assert (Hkept : ∀ a, a ∈ kept ↔ a ∈ active s ∧ active_entry a ∈ entries r).
  { intros a. unfold kept. rewrite list_elem_of_filter, existsb_exists. unfold ptr_eq. split.
    - intros [(e & He%list_elem_of_In & Ha%bool_decide_eq_true) Hin]. split; [done|].
      by rewrite <- (Hsame a e).
    - intros [Hin He]. split; [|done]. exists (active_entry a).
      split; [by apply list_elem_of_In|by apply bool_decide_eq_true]. }
  assert (Hku : NoDup (arc ∘ active_entry <$> kept)).
  { eapply sublist_NoDup; [exact Hu|]. apply fmap_sublist, sublist_filter. }
  assert (Hpush := push_new_active (entries r) kept (arcs_unique _ Hr)). rewrite Hpush.
  set (new := filter (λ e, arc e ∉ arc ∘ active_entry <$> kept) (entries r)) in *.
  assert (Hnew : ∀ e, e ∈ new ↔ e ∈ entries r ∧ arc e ∉ arc ∘ active_entry <$> kept).
  { intros e. unfold new. rewrite list_elem_of_filter. naive_solver. }
  assert (Hent : active_entry <$> (kept ++ ((λ e, mkActive e None) <$> new)) ≡ₚ entries r).
  { rewrite fmap_app, <- list_fmap_compose. change (active_entry ∘ (λ e, mkActive e None)) with (@Datatypes.id Entry).
    rewrite list_fmap_id. apply NoDup_Permutation.
    - apply NoDup_app. split; [|split].
      + eapply (NoDup_fmap_1 arc). by rewrite <- list_fmap_compose.
      + intros e He [_ Hn]%Hnew. apply Hn. apply list_elem_of_fmap in He as (a & -> & Ha).
        by apply (list_elem_of_fmap_2 (arc ∘ active_entry)).
      + eapply (NoDup_fmap_1 arc), sublist_NoDup; [apply (arcs_unique _ Hr)|]. apply fmap_sublist, sublist_filter.
    - eapply (NoDup_fmap_1 arc), (arcs_unique _ Hr).
    - intros e. rewrite elem_of_app, Hnew. split.
      + intros [(a & -> & [_ Ha]%Hkept)%list_elem_of_fmap|[He _]]; done.
      + intros He. destruct (decide (arc e ∈ arc ∘ active_entry <$> kept)) as [Hin|Hin]; [left|by right].
        apply list_elem_of_fmap in Hin as (a & Ha & Hin). apply list_elem_of_fmap. exists a. split; [|done].
        apply Hkept in Hin as [Hin _]. by apply Hsame. }
  assert (Hin : ∀ a, a ∈ kept ++ ((λ e, mkActive e None) <$> new) → active_entry a ∈ entries r).
  { intros a Ha. rewrite <- Hent. by apply list_elem_of_fmap_2. }
  assert (Hnd : NoDup (arc <$> (active_entry <$> (kept ++ ((λ e, mkActive e None) <$> new))))).
  { rewrite Hent. apply (arcs_unique _ Hr). }
  split.
  - split; cbn; [done|lia|done| | |].
    + by rewrite list_fmap_compose.
    + apply Forall_forall. intros a Ha%Hin. pose proof (arcs_below _ Hr) as Hf. rewrite Forall_forall in Hf. by apply Hf.
    + intros a e Ha%Hin He Harc. apply list_elem_of_lookup in Ha as [i Hi], He as [k Hk].
      assert (i = k) as <-; [|congruence].
      eapply (NoDup_lookup (arc <$> entries r)); [apply (arcs_unique _ Hr)| |];
        rewrite list_lookup_fmap; [by rewrite Hi|]. rewrite Hk. cbn. by rewrite Harc.
  - split; cbn; [done|]. intros a [Ha|(e & -> & He)%list_elem_of_fmap]%elem_of_app; [left; by apply Hkept|].
    cbn. apply Hnew in He as [He Hn]. right. split; [done|]. intros (a & -> & Ha)%list_elem_of_fmap.
    apply Hn. apply (list_elem_of_fmap_2 (arc ∘ active_entry)). by apply Hkept.
Qed.

(** A change of the registry under a scheduler. *)
Lemma changed_ok r r' s :
  scheduler_ok r s → registry_ok r' → (r' = r ∨ version r' = (version r + 1)%Z) →
  (∀ e, e ∈ entries r' → e ∈ entries r ∨ arcs r <= arc e) → arcs r <= arcs r' → scheduler_ok r' s.
Proof.
  intros Hs Hr' [->|Hv] He Ha; [done|]. destruct Hs as [Hr Hvs Hsy Hu Hb Hsame]. split; [done|lia|lia|done| |].
  - eapply Forall_impl; [exact Hb|]. cbn. lia.
  - intros a e Hin Hine Harc. destruct (He e Hine) as [Ho|Ho]; [by apply Hsame|].
    rewrite Forall_forall in Hb. specialize (Hb a Hin). cbn in Hb. lia.
Qed.

Lemma next_version r : (0 <= version r < u64_max)%Z → wrap64 (version r + 1) = (version r + 1)%Z.
Proof. intros ?. apply wrap64_small. unfold is_u64, u64_max, u64_mod in *. lia. Qed.

Lemma handle_call_ok h r s :
  scheduler_ok r s → (version r < u64_max)%Z → scheduler_ok (handle_call h r).2 s.
Proof.
  intros Hs Hv. assert (Hn : wrap64 (version r + 1) = (version r + 1)%Z).
  { apply next_version. destruct Hs. lia. }
  pose proof (sok_registry _ _ Hs) as Hr. destruct h as [x|l|n]; cbn.
  - destruct (register x r) as [y r'] eqn:E. cbn. pose proof (register_ok _ _ _ _ E Hr) as [Hr' Hy].
    destruct y as [[]|e]; [|by subst]. destruct Hy as [He _]. revert E. unfold register.
    repeat case_match; intros [= <-]; cbn in *. eapply changed_ok; [done..|by right| |cbn; lia].
    intros e. cbn. rewrite elem_of_app, list_elem_of_singleton. intros [?| ->]; [by left|by right].
  - destruct (replace_all l r) as [y r'] eqn:E. cbn. pose proof (replace_all_ok _ _ _ _ E Hr) as (Hr' & Hy & Ha).
    destruct y as [changed|e]; [|by subst]. destruct Hy as (_ & es & Hset & Hes & Hno & Hyes).
    destruct changed; [|by rewrite Hno]. destruct (Hyes eq_refl) as [He Hve].
    apply (changed_ok r); [done|done|right; lia| |done]. intros e. rewrite He. apply Hset.
  - destruct (unschedule n r) as [y r'] eqn:E. cbn. pose proof (unschedule_ok _ _ _ _ E Hr) as (Hr' & He & _).
    apply (changed_ok r); [done|done| | |].
    + revert E. unfold unschedule. case_decide as Hd; intros [= <- <-]; cbn; [by right|]. left.
      cbn in He. assert (filter (λ e, has_name n e = false) (entries r) = entries r) as ->; [|by destruct r].
      apply filter_all. intros e Hin. destruct (has_name n e) eqn:Hn'; [|done].
      destruct Hd. apply (length_filter_lt _ _ e Hin). by rewrite Hn'.
    + intros e. rewrite He. intros [_ ?]%list_elem_of_filter. by left.
    + revert E. unfold unschedule. case_decide; intros [= <- <-]; cbn; lia.
Qed.

Lemma same_entries_ok r s l :
  active_entry <$> l = active_entry <$> active s → scheduler_ok r s → scheduler_ok r (mkScheduler l (synced s)).
Proof.
  intros El [Hr Hv Hsy Hu Hb Hsame]. split; cbn; [done|done| | | |].
  - by rewrite El.
  - rewrite list_fmap_compose, El, <- list_fmap_compose. done.
  - apply (Forall_fmap active_entry (λ e, arc e < arcs r)). rewrite El. by apply Forall_fmap.
  - intros a e Ha He Harc. assert (Hin : active_entry a ∈ active_entry <$> active s).
    { rewrite <- El. by apply list_elem_of_fmap_2. }
    apply list_elem_of_fmap in Hin as (b & Hb' & Hin). rewrite Hb' in *. by apply Hsame.
Qed.
End registry.

Section scheduler.
  Context {DB : SlateDb} {RD : SlateReads} {OS : ObjectStore} {SR : Serde JobRecord} {SA : Serde JobAttempt}.
  Context {SC : Serde CountRecord} {EN : Env} {CH : Chrono} {CR : Croner}.

Lemma tick_due_entry a now w wake a' w' :
  tick_due a now w = (Ok (wake, a'), w') → active_entry a' = active_entry a.
Proof.
  unfold tick_due. destruct (next_fire a) as [f|]; [|by intros [= <- <- <-]].
  case_decide; [|by intros [= <- <- <-]]. unfold mbind at 1, IO_bind at 1, io_try.
  destruct (fire _ f w) as [[u|e] w1], (backfill _); try by intros [= <- <- <-].
  unfold retry_at, mbind, IO_bind. destruct (checked_add_signed _ _); [by intros [= <- <- <-]|done].
Qed.

Lemma tick_entry_entry a now w wake a' w' :
  tick_entry a now w = (Ok (wake, a'), w') → active_entry a' = active_entry a.
Proof.
  unfold tick_entry. destruct (next_fire a) as [f|]; [apply tick_due_entry|].
  unfold mbind at 1, IO_bind at 1, io_try. destruct (initial_anchor _ now w) as [[x|e] w1].
  - by intros ?%tick_due_entry.
  - unfold retry_at, mbind, IO_bind. destruct (checked_add_signed _ _); [by intros [= <- <- <-]|done].
Qed.

Lemma tick_all_entries l now so w x l' w' :
  tick_all l now so w = (Ok (x, l'), w') → active_entry <$> l' = active_entry <$> l.
Proof.
  revert so w x l' w'. induction l as [|a l IH]; intros so w x l' w'; cbn [tick_all]; [by intros [= <- <- <-]|].
  intros ([wake a'] & w1 & E & H)%IO_bind_Ok. apply IO_bind_Ok in H as ([so' l2] & w2 & E2 & H).
  injection H as <- <- <-. cbn. rewrite (tick_entry_entry _ _ _ _ _ _ E). f_equal. by eapply IH.
Qed.

(** The registries and the schedulers of a process: calls of the handles, fewer than
    [2 ^ 64], between the turns of the scheduler. *)
Inductive cron_reach : RegistryState → CronScheduler → Prop :=
| cr_new : cron_reach registry_default scheduler_new
| cr_call r s h : cron_reach r s → (version r < u64_max)%Z → cron_reach (handle_call h r).2 s
| cr_step r s now w soonest s' w' :
    cron_reach r s → cron_step r s now w = (Ok (soonest, s'), w') → cron_reach r s'
| cr_drop r s : cron_reach r s → cron_reach (drop_scheduler r) s.

Lemma cron_reach_ok r s : cron_reach r s → scheduler_ok r s.
Proof.
  induction 1 as [|r s h _ IH Hv|r s now w x s' w' _ IH E|r s _ IH].
  - split; cbn; [split; cbn; constructor|lia|done|constructor|constructor|set_solver].
  - by apply handle_call_ok.
  - unfold cron_step in E. apply IO_bind_Ok in E as ([so l] & w1 & E & H). injection H as <- <- <-.
    apply tick_all_entries in E. apply same_entries_ok; [done|]. by apply sync_ok.
  - destruct IH as [[H1 H2 H3] ? ? ? ? ?]. by split.
Qed.
End scheduler.
