(* ===== verification/MemRuns.v ===== *)
(** * Instances of the interfaces of the runtime

    Encodings of the stored records of runs, a digest, ULIDs as decimal numbers, and a
    runtime over the instances of [MemStore] and [MemInbox]. *)
From Stdlib Require Import Ascii.
From stdpp Require Import pretty.
From S2P Require Import Prelude Bytes Error Monad Keys Job Store Stats LeaseRegistry.
From S2P Require Import TimeBound ClaimCursor Completion Txn Stage StoreInv Sound Core.
From S2P Require Import QueueCore Control Effects Claim Settle Enqueue.
From S2P Require Import Sweeps InboxEntry Inbox Queue CoreInv StagedOps View OpsOk.
From S2P Require Import CallsOk Process MemStore RunError RunKeys RunRecords.
From S2P Require Import StepEffects Runs RunCalls StepWorker Commands Groups RunSubmit.

(** ** Encodings

    A record is coded as the codes of its fields. *)
Definition countable_of_code {A} `{EqDecision A} (code : A → list positive) (uncode : list positive → option A)
    (law : ∀ a, uncode (code a) = Some a) : Countable A.
Proof.
  refine {| countable.encode a := enc (code a); countable.decode p := decode p ≫= uncode |}.
  intros a. rewrite decode_encode. apply law.
Defined.
Definition serde_of_countable {A} `{Countable A} : Serde A.
Proof.
  refine (serde_of_code (λ a, [enc a]) (λ l, match l with [x] => decode x | _ => None end) _).
  apply decode_encode.
Defined.

Ltac uncode := cbn [mbind option_bind]; repeat (rewrite decode_encode; cbn [mbind option_bind]).

#[global] Instance DurableStepRef_eq_dec : EqDecision DurableStepRef.
Proof. solve_decision. Defined.
#[global] Instance DurableStepRef_countable : Countable DurableStepRef.
Proof.
  refine (countable_of_code (λ s, [enc (dsr_step_number s); enc (dsr_job_id s)])
    (λ l, match l with [a; b] => a ← decode a; b ← decode b; Some (mkDStepRef a b) | _ => None end) _).
  intros []; by uncode.
Defined.

#[global] Instance DurableCancelOrigin_eq_dec : EqDecision DurableCancelOrigin.
Proof. solve_decision. Defined.
#[global] Instance DurableCancelOrigin_countable : Countable DurableCancelOrigin.
Proof.
  refine (inj_countable' (λ o, match o with DRunner => 0 | DRequest => 1 | DOwner => 2 end)
    (λ n, match n with 0 => DRunner | 1 => DRequest | _ => DOwner end) _). by intros [].
Defined.
#[global] Instance DurableTerminalStatus_eq_dec : EqDecision DurableTerminalStatus.
Proof. solve_decision. Defined.
#[global] Instance DurableTerminalStatus_countable : Countable DurableTerminalStatus.
Proof.
  refine (inj_countable' (λ o, match o with DSucceeded => 0 | DFailed => 1 | DCancelled => 2 end)
    (λ n, match n with 0 => DSucceeded | 1 => DFailed | _ => DCancelled end) _). by intros [].
Defined.
#[global] Instance DurableErrorKind_eq_dec : EqDecision DurableErrorKind.
Proof. solve_decision. Defined.
#[global] Instance DurableErrorKind_countable : Countable DurableErrorKind.
Proof.
  refine (inj_countable' (λ k, match k with DTransient => 0 | DPermanent => 1 end)
    (λ n, match n with 0 => DTransient | _ => DPermanent end) _). by intros [].
Defined.
#[global] Instance DurableResult_eq_dec : EqDecision DurableResult.
Proof. solve_decision. Defined.
#[global] Instance DurableResult_countable : Countable DurableResult.
Proof.
  refine (inj_countable' (λ r, match r with ResultEmpty => None | ResultObject a => Some a end)
    (λ o, match o with None => ResultEmpty | Some a => ResultObject a end) _). by intros [].
Defined.
#[global] Instance DurableCancelRequest_eq_dec : EqDecision DurableCancelRequest.
Proof. solve_decision. Defined.
#[global] Instance DurableCancelRequest_countable : Countable DurableCancelRequest.
Proof.
  refine (countable_of_code (λ r, [enc (dcr_reason r); enc (dcr_origin r); enc (dcr_requested_at_ms r)])
    (λ l, match l with
      | [a; b; c] => a ← decode a; b ← decode b; c ← decode c; Some (mkDCancelRequest a b c)
      | _ => None
      end) _).
  intros []; by uncode.
Defined.

#[global] Instance DurableRunRecord_eq_dec : EqDecision DurableRunRecord.
Proof. solve_decision. Defined.
#[global] Instance DurableRunRecord_countable : Countable DurableRunRecord.
Proof.
  refine (countable_of_code (λ r, [enc (drr_run_id r); enc (drr_submission_id r); enc (drr_submitted_at_ms r);
      enc (drr_input_hash r); enc (drr_cancel_request r)])
    (λ l, match l with
      | [a; b; c; d; e] => a ← decode a; b ← decode b; c ← decode c; d ← decode d; e ← decode e;
          Some (mkDRunRecord a b c d e)
      | _ => None
      end) _).
  intros []; by uncode.
Defined.

#[global] Instance DurableTermination_eq_dec : EqDecision DurableTermination.
Proof. solve_decision. Defined.
#[global] Instance DurableTermination_countable : Countable DurableTermination.
Proof.
  refine (countable_of_code (λ t, [enc (dt_status t); enc (dt_error t); enc (dt_cancelled_by t);
      enc (dt_error_kind t); enc (dt_final_step t); enc (dt_terminated_at_ms t); enc (dt_input_hash t);
      enc (dt_submitted_at_ms t); enc (dt_headers t); enc (dt_result t)])
    (λ l, match l with
      | [a; b; c; d; e; f; g; h; i; j] => a ← decode a; b ← decode b; c ← decode c; d ← decode d; e ← decode e;
          f ← decode f; g ← decode g; h ← decode h; i ← decode i; j ← decode j;
          Some (mkDTermination a b c d e f g h i j)
      | _ => None
      end) _).
  intros []; by uncode.
Defined.

#[global] Instance DurableRun_eq_dec : EqDecision DurableRun.
Proof. solve_decision. Defined.
#[global] Instance DurableRun_countable : Countable DurableRun.
Proof.
  refine (inj_countable' (λ r, match r with DActive r => inl r | DTerminated t => inr t end)
    (λ s, match s with inl r => DActive r | inr t => DTerminated t end) _). by intros [].
Defined.
#[global] Instance DurableMember_eq_dec : EqDecision DurableMember.
Proof. solve_decision. Defined.
#[global] Instance DurableMember_countable : Countable DurableMember.
Proof.
  refine (countable_of_code (λ m, [enc (dm_run_id m); enc (dm_terminated m)])
    (λ l, match l with [a; b] => a ← decode a; b ← decode b; Some (mkDMember a b) | _ => None end) _).
  intros []; by uncode.
Defined.

#[global] Instance SubmitCommand_eq_dec : EqDecision SubmitCommand.
Proof. solve_decision. Defined.
#[global] Instance SubmitCommand_countable : Countable SubmitCommand.
Proof.
  refine (countable_of_code (λ c, [enc (sc_run_id c); enc (sc_input c); enc (sc_headers c); enc (sc_run_at c);
      enc (sc_priority c); enc (sc_max_attempts_per_step c)])
    (λ l, match l with
      | [a; b; c; d; e; f] => a ← decode a; b ← decode b; c ← decode c; d ← decode d; e ← decode e; f ← decode f;
          Some (mkSubmitCommand a b c d e f)
      | _ => None
      end) _).
  intros []; by uncode.
Defined.
#[global] Instance CancelCommand_eq_dec : EqDecision CancelCommand.
Proof. solve_decision. Defined.
#[global] Instance Command_eq_dec : EqDecision Command.
Proof. solve_decision. Defined.
#[global] Instance Command_countable : Countable Command.
Proof.
  refine (inj_countable' (λ c, match c with CmdSubmit c => inl c | CmdCancel c => inr (cc_run_id c, cc_reason c) end)
    (λ s, match s with inl c => CmdSubmit c | inr (r, m) => CmdCancel (mkCancelCommand r m) end) _). by intros [|[]].
Defined.

#[global] Instance command_serde : Serde Command := serde_of_countable.
#[global] Instance run_serde : Serde DurableRun := serde_of_countable.
#[global] Instance step_ref_serde : Serde DurableStepRef := serde_of_countable.
#[global] Instance member_serde : Serde DurableMember := serde_of_countable.
#[global] Instance strings_serde : Serde (list string) := serde_of_countable.

(** The records of step outcomes. *)
#[global] Instance DurableDuration_eq_dec : EqDecision DurableDuration.
Proof. solve_decision. Defined.
#[global] Instance DurableDuration_countable : Countable DurableDuration.
Proof.
  refine (inj_countable' (λ d, (secs d, nanos d)) (λ p, mkDDuration p.1 p.2) _). by intros [].
Defined.
#[global] Instance DurableTrigger_eq_dec : EqDecision DurableTrigger.
Proof. solve_decision. Defined.
#[global] Instance DurableTrigger_countable : Countable DurableTrigger.
Proof.
  refine (inj_countable' (λ t, match t with
      | DImmediate => inl None | DAfter d => inl (Some (true, d)) | DOnSignal d => inl (Some (false, d))
      | DOnGroup g d => inr (g, d) end)
    (λ s, match s with
      | inl None => DImmediate | inl (Some (true, d)) => DAfter d | inl (Some (false, d)) => DOnSignal d
      | inr (g, d) => DOnGroup g d end) _). by intros [].
Defined.
#[global] Instance DurableStepOutcome_eq_dec : EqDecision DurableStepOutcome.
Proof. solve_decision. Defined.
#[global] Instance DurableStepOutcome_countable : Countable DurableStepOutcome.
Proof.
  refine (inj_countable' (λ o, match o with
      | DContinue p w => inl (p, w) | DSucceed r => inr (inl r) | DFail s => inr (inr (true, s))
      | DCancel s => inr (inr (false, s)) end)
    (λ s, match s with
      | inl (p, w) => DContinue p w | inr (inl r) => DSucceed r | inr (inr (true, s)) => DFail s
      | inr (inr (false, s)) => DCancel s end) _). by intros [].
Defined.
#[global] Instance EnqueueOptions_eq_dec : EqDecision EnqueueOptions.
Proof. solve_decision. Defined.
#[global] Instance EnqueueOptions_countable : Countable EnqueueOptions.
Proof.
  refine (countable_of_code (λ o, [enc (opt_max_attempts o); enc (opt_priority o); enc (opt_run_at o);
      enc (opt_dedup_key o); enc (opt_headers o); enc (opt_id_override o); enc (opt_signal_wait o);
      enc (opt_count_wait o)])
    (λ l, match l with
      | [a; b; c; d; e; f; g; h] => a ← decode a; b ← decode b; c ← decode c; d ← decode d; e ← decode e;
          f ← decode f; g ← decode g; h ← decode h; Some (mkOptions a b c d e f g h)
      | _ => None
      end) _).
  intros []; by uncode.
Defined.
#[global] Instance EnqueueRequest_eq_dec : EqDecision EnqueueRequest.
Proof. solve_decision. Defined.
#[global] Instance EnqueueRequest_countable : Countable EnqueueRequest.
Proof.
  refine (countable_of_code (λ r, [enc (req_queue r); enc (req_payload r); enc (req_options r)])
    (λ l, match l with
      | [a; b; c] => a ← decode a; b ← decode b; c ← decode c; Some (mkRequest a b c)
      | _ => None
      end) _).
  intros []; by uncode.
Defined.
#[global] Instance StagedEffects_eq_dec : EqDecision StagedEffects.
Proof. solve_decision. Defined.
#[global] Instance StagedEffects_countable : Countable StagedEffects.
Proof.
  refine (countable_of_code (λ s, [enc (staged_writes s); enc (staged_deletes s); enc (staged_enqueues s)])
    (λ l, match l with
      | [a; b; c] => a ← decode a; b ← decode b; c ← decode c; Some (mkStaged a b c)
      | _ => None
      end) _).
  intros []; by uncode.
Defined.
#[global] Instance outcome_record_serde : Serde DurableStepOutcomeRecord.
Proof.
  refine (serde_of_code (λ r, [enc (stored_at_ms r); enc (record_outcome r); enc (record_effects r)])
    (λ l, match l with
      | [a; b; c] => a ← decode a; b ← decode b; c ← decode c; Some (mkOutcomeRecord a b c)
      | _ => None
      end) _).
  intros []; by uncode.
Defined.

(** ** Digests, ids and paths *)

(** A digest of 32 bytes. *)
Definition mem_digest (b : bytes) : Z :=
  foldl (λ a x, ((a * 1099511628211 + x + 1) mod 2 ^ 256)%Z) 14695981039346656037%Z b.
Lemma be_bytes_bytes n z : Forall is_byte (be_bytes n z).
Proof.
  induction n as [|n IH]; [constructor|]. constructor; [|done].
  unfold is_byte. by apply Z.mod_pos_bound.
Qed.
#[global] Instance mem_sha : Sha256.
Proof.
  refine {| sha256 b := be_bytes 32 (mem_digest b) |}.
  - intros b. apply length_be_bytes.
  - intros b. apply be_bytes_bytes.
Defined.

Lemma digits_go x s : digits 0 (pretty_N_go x s) = digits (Z.of_N x) s.
Proof.
  revert s. induction (N.lt_wf_0 x) as [x _ IH]. intros s.
  assert (x = 0 ∨ 0 < x)%N as [->|Hpos] by lia; [by rewrite pretty_N_go_0|].
  rewrite pretty_N_go_step by done. destruct (N_digits x) as (q & r & -> & -> & Hr & E).
  rewrite IH by lia. cbn [digits].
  assert (Hd : Z.of_nat (nat_of_ascii (pretty_N_char r)) = (48 + Z.of_N r)%Z).
  { assert (r = 0 ∨ r = 1 ∨ r = 2 ∨ r = 3 ∨ r = 4 ∨ r = 5 ∨ r = 6 ∨ r = 7 ∨ r = 8 ∨ r = 9)%N
      by lia. repeat destruct_or!; by subst. }
  rewrite Hd. replace (10 * Z.of_N q + (48 + Z.of_N r - 48))%Z with (Z.of_N x) by lia.
  rewrite (proj2 (Z.leb_le _ _)), (proj2 (Z.ltb_lt _ _)) by lia. done.
Qed.

#[global] Instance mem_ulid_text : UlidText.
Proof.
  refine {| ulid_of_text s := match s with EmptyString => None | _ => digits 0 s end |}.
  - intros [|p|p] [Hu _]; [done| |lia].
    change (match pretty_N_go (Npos p) "" with
      | EmptyString => None | _ => digits 0 (pretty_N_go (Npos p) "") end = Some (Zpos p)).
    destruct (pretty_go_head (Npos p) "" eq_refl) as (d & s' & _ & E). rewrite E at 1. by rewrite digits_go.
  - intros u [Hu0 Hu]. apply dec_run_id. split; [done|]. etrans; [exact Hu|]. by vm_compute.
Defined.
#[global] Instance mem_paths : PathJoin := {| path_join a b := a +:+ "/" +:+ b |}.

(** ** The runtime *)

(** A runtime of the queue [kept], without retention and without replay. *)
#[global] Instance mem_runtime : Runtime.
Proof.
  refine {| queue_name := "kept"; memo_sweep := None; group_sweep := None; step_output_replay := false;
    terminal_hook := None; memo_prefix := "memos"; queue_error_text _ := "queue error";
    object_error_text _ := "object error"; duration_debug _ := "duration"; lossy_text _ := "text" |}; done.
Defined.

(** ** Example runs

    Runs of the runtime of [MemRuns], which the witnesses of the theorems of runs and
    the findings use. *)

#[local] Open Scope string_scope.

(** The run [run], and a submission of it. *)
Definition run_a : RunId := mkRunId "run" eq_refl.
Definition spec_of (input : bytes) : RunSpec :=
  mkRunSpec (Some run_a) input (mkRunOptions ∅ None None None None) effects_default.
Definition spec_a : RunSpec := spec_of [1%Z].

(** A process with the run, and with its step 0 claimed. *)
Definition submitted_core : Core := core (submit spec_a (alone core_new)).2.
Definition step_claim : Claim := the_claim "0" submitted_core.
Definition claimed_core : Core := the_core "0" submitted_core.

(** The claimed step. *)
Definition no_step : ClaimedStep := mkClaimedStep run_a 0 None None ∅ (job step_claim).
Definition step_a : ClaimedStep := match claimed_step_parse (job step_claim) with Ok c => c | Err _ => no_step end.

(** A runner that returns [o] after the operations [ops]. *)
Definition runner (o : result StepError StepOutcome) (ops : list HandleOp) :
    Step → World → (result StepError StepOutcome * list HandleOp) * World := λ _ w, ((o, ops), w).

Definition is_ok_of {E A} (r : result E A) : bool := match r with Ok _ => true | Err _ => false end.
Lemma is_ok_Ok {E A} (r : result E A) : is_ok_of r = true → ∃ a, r = Ok a.
Proof. destruct r; [by eexists|done]. Qed.

(** A call with the outcome that a test finds. *)
Lemma call_case {E A} (p : result E A → bool) (m : EIO E World A) w :
  p (m w).1 = true → ∃ r w', m w = (r, w') ∧ p r = true.
Proof. destruct (m w) as [r w']. intros H. by exists r, w'. Qed.

Lemma submitted_ok : world_ok (alone submitted_core).
Proof.
  assert (H : world_ok (submit spec_a (alone core_new)).2).
  { apply submit_ok; [done|]. exact (alone_ok [] ltac:(constructor)). }
  unfold submitted_core. destruct (submit spec_a (alone core_new)) as [r w]. destruct H as [Hc _].
  split; [exact Hc|constructor].
Qed.
