(* ===== verification/RunTheorems.v ===== *)
(** * Theorems of runs

    What the settlement of a step, a submission, a cancellation, the reconciliation of a
    dead step and the retention sweep do to the runs of the store, and what the runtime
    stages and reads back, while any other calls of the process run at their yields. *)
From S2P Require Import Prelude Bytes Error Monad Keys Job Store Stats LeaseRegistry.
From S2P Require Import TimeBound ClaimCursor Completion Txn Stage StoreInv Sound Core.
From S2P Require Import QueueCore Control Effects Claim Settle Enqueue.
From S2P Require Import Sweeps InboxEntry InboxListing Queue CoreInv StagedOps View.
From S2P Require Import Listing OpsOk CallsOk Finishes Linear Outcomes Frame Applied.
From S2P Require Import Process MemStore RunError RunKeys RunRecords.
From S2P Require Import StepEffects Runs RunCalls StepWorker RunSweeps Groups StepFacts.
From S2P Require Import RunFlow RunReads RunSettle RunSubmit RunCancel RunRetention.
From S2P Require Import MemRuns.

Section theorems.
  Context {DB : SlateDb} {RD : SlateReads} {OS : ObjectStore} {IS : EntryStore} {PJ : PathJoin}.
  Context {SR : Serde JobRecord} {SA : Serde JobAttempt} {SC : Serde CountRecord}.
  Context {EN : Env} {SH : Sha256} {UT : UlidText} {RT : Runtime}.
  Context {SD : Serde DurableRun} {SP : Serde DurableStepRef} {SM : Serde DurableMember}.
  Context {SQ : Serde (list string)} {SO : Serde DurableStepOutcomeRecord}.
  Context {DL : SlateDbLaws merge_batch}.

#[local] Set Default Proof Using "Type DL SR SA EN".



(** C11: the effects of a settlement commit with it: a settlement that returns made one
    change, in which the record [j] of its claim left its key. When the end of [j] is
    terminal, its effects joined that change: its writes and deletes of the user key
    space, with its compares holding, and the index entry of each job that it enqueued
    as new, with one result for each enqueue; when the job is retried, the user key
    space stayed. *)
Theorem effects_commit_with_their_settlement claim e ef w j' rs w' :
  settle_claim claim e ef w = (Ok (j', rs), w') →
  ∃ j now, bool_decide (is_Some rs) = is_terminal (ef j now) ∧ effect w w' (λ m m',
    job_at m (claimed_key (queue (job claim)) (id (job claim))) = Some j ∧ effects_applied claim e rs m m').
Proof. apply settle_claim_kv. Qed.

(** C6: a submission is one change. A submission that is new wrote the record of its run
    and the pointer to step 0 in the change in which the dedup key of the step was free,
    with the pending record of a member and, while the claim of the owner's step holds,
    with the owner's index entry; every other run stays. A submission that is not new
    found the run with the same input, or its step 0, and changed nothing; neither does
    one that is rejected. *)
Theorem a_submission_is_one_change mb spec w res w' :
  (match mb with Some m => submit_member m spec | None => submit spec end) w = (res, w') →
  submission_done spec mb (λ request, request = None) w res w'.
Proof. destruct mb; [apply submit_member_done|apply submit_done]. Qed.




(** The effects of a settlement never write and delete the same key, so the queue
    never refuses them as conflicting, where no terminal hook is configured: what a step
    staged fits together and with the records of its outcome. *)
Theorem staged_effects_never_conflict run_step claim c w :
  terminal_hook = None → (step_output_replay = true → replays_staged (cs_run_id c)) →
  effects_fit (settled_effects (process_claimed run_step claim c w).1).
Proof using Type UT. apply processed_fit. Qed.

(** C14: a step stages in its own key space: whatever operations it calls, and whichever
    are rejected, the keys it writes and deletes are neither records of the runtime nor
    entries of another run, and none is both written and deleted. *)
Theorem a_step_stages_in_its_own_key_space queue r ops k :
  let s := staged (staged_by queue r ops) in
  is_Some (staged_writes s !! k) ∨ k ∈ staged_deletes s →
  ¬ record_key k ∧ (∀ r', r' ≠ r → in_key_range (run_kv_entries_range r') k = false) ∧
  ¬ (is_Some (staged_writes s !! k) ∧ k ∈ staged_deletes s).
Proof using Type.
  cbv zeta. intros Hk. pose proof (staged_by_ok r queue ops) as Hs.
  assert (Hc : caller_key r k).
  { destruct Hk as [[v Hv]|Hd]; [by apply (staged_write_keys _ _ _ Hs) in Hv as [? _]|by apply (staged_delete_keys _ _ _ Hs)]. }
  split; [by eapply caller_not_record|]. split.
  - intros r' Hne. apply not_true_iff_false. intros [s E]%run_entries_range_spec. destruct Hc as [Hc|[s' ->]].
    + subst k. revert Hc. unfold check_kv_key. rewrite (proj2 (bytes_starts_with_spec _ _)); [done|].
      rewrite run_entry_key_split. by exists (as_bytes "run-kv/" ++ rid_bytes r' ++ 47%Z :: s)%list.
    + by apply run_entry_key_inj in E as [-> _].
  - intros [Hw Hd]. apply (staged_disjoint _ _ _ Hs) in Hd. rewrite Hd in Hw. by destruct Hw.
Qed.

(** The headers of a step job name its step: they parse back to the run, the number,
    the membership, the owner and the submitter's headers it was built with. *)
Theorem step_headers_read_back r n user m o job :
  headers job = step_request_headers r n user (step_reserved m o) → check_headers user = Ok () → is_u32 n →
  (∀ o', o = Some o' → is_u128 (owner_submission_id o')) →
  claimed_step_parse job = Ok (mkClaimedStep r n m o user job).
Proof using Type. apply step_headers_parsed. Qed.


(** The run ids of the members of a group are valid, and each tells which rerun of
    the member it is: two reruns of a member are two runs. *)
Theorem member_run_ids_read_back g key n :
  is_u32 n → ∃ r, member_run_id g key n = Ok r ∧ rerun_of r = n.
Proof using Type. apply member_run_id_back. Qed.

End theorems.

(** ** The theorems at concrete inputs *)

#[local] Open Scope string_scope.

(** The step 0 of a run continues, and is settled. *)
Definition step_result : result WorkerError SettlementEffects * World :=
  process_claimed (runner (Ok (continue_now [2%Z])) [OpStage (OpPut [1%Z] [3%Z])]) step_claim step_a (alone claimed_core).


Lemma effects_commit_with_their_settlement_witness :
  ∃ j' rs w', settle_claim step_claim (eff_kv_put [1%Z] [2%Z] effects_default) (λ _ _, EndDone false) (alone claimed_core)
      = (Ok (j', Some rs), w') ∧
    ∃ m m', user_kv m' [1%Z] = Some [2%Z] ∧ kv_applied (eff_kv_put [1%Z] [2%Z] effects_default) m m'.
Proof.
  destruct (run_case (λ r, match r with Ok (_, Some _) => true | _ => false end)
    (settle_claim step_claim (eff_kv_put [1%Z] [2%Z] effects_default) (λ _ _, EndDone false)) (alone claimed_core))
    as (r & w' & E & Hr); [by vm_compute|].
  destruct r as [[j' [rs|]]|]; [|discriminate Hr..]. exists j', rs, w'. split; [exact E|].
  destruct (effects_commit_with_their_settlement _ _ _ _ _ _ _ E) as (j & now & _ & w1 & d' & _ & (_ & _ & _ & H & _) & _).
  exists (contents (db (core w1))), (contents d'). split; [|exact H]. destruct H as [_ H]. rewrite H. reflexivity.
Defined.

Lemma a_submission_is_one_change_witness :
  ∃ o w', submit spec_a (alone core_new) = (Ok o, w') ∧ newly_submitted o = true ∧
    submission_done spec_a None (λ request, request = None) (alone core_new) (Ok o) w'.
Proof.
  destruct (call_case (λ r, match r with Ok o => newly_submitted o | Err _ => false end) (submit spec_a) (alone core_new))
    as (r & w' & E & Hr); [by vm_compute|].
  destruct r as [o|]; [|discriminate Hr]. exists o, w'. split; [exact E|]. split; [exact Hr|].
  exact (a_submission_is_one_change None spec_a (alone core_new) (Ok o) w' E).
Defined.






Lemma staged_effects_never_conflict_witness :
  is_ok_of step_result.1 = true ∧ effects_fit (settled_effects step_result.1).
Proof.
  split; [by vm_compute|]. apply staged_effects_never_conflict; [reflexivity|discriminate].
Defined.

Lemma a_step_stages_in_its_own_key_space_witness :
  let s := staged (staged_by "kept" run_a [OpPutRunKv [7%Z] [1%Z]]) in
  is_Some (staged_writes s !! run_kv_entry_key run_a [7%Z]) ∧ ¬ record_key (run_kv_entry_key run_a [7%Z]).
Proof.
  cbv zeta.
  assert (H : is_Some (staged_writes (staged (staged_by "kept" run_a [OpPutRunKv [7%Z] [1%Z]]))
    !! run_kv_entry_key run_a [7%Z])) by (eexists; vm_compute; reflexivity).
  split; [exact H|]. apply (a_step_stages_in_its_own_key_space "kept" run_a [OpPutRunKv [7%Z] [1%Z]]). left. exact H.
Defined.

(** A step job of a member with an owner. *)
Definition member_of_run : Membership := mkMembership run_a "key".
Definition owner_of_run : OwnerRef := mkOwnerRef run_a 7.
Definition headed_job : JobRecord :=
  set_headers (step_request_headers run_a 3 {["color" := "red"]} (step_reserved (Some member_of_run) (Some owner_of_run)))
    (job step_claim).

Lemma step_headers_read_back_witness :
  claimed_step_parse headed_job =
    Ok (mkClaimedStep run_a 3 (Some member_of_run) (Some owner_of_run) {["color" := "red"]} headed_job).
Proof.
  apply step_headers_read_back.
  - reflexivity.
  - vm_compute. reflexivity.
  - unfold is_u32, u32_max, u32_mod. cbn. lia.
  - intros o' [= <-]. unfold is_u128. cbn. lia.
Defined.


Lemma member_run_ids_read_back_witness : ∃ r, member_run_id run_a "key" 3 = Ok r ∧ rerun_of r = 3%Z.
Proof. apply member_run_ids_read_back. unfold is_u32, u32_max, u32_mod. cbn. lia. Defined.
