(* ===== verification/CronTheorems.v ===== *)
(** * The properties of the cron scheduler

    Its firings and the watermarks of its backfills, its registry and the set of its
    active entries, and the headers of a firing; with schedules over an instance of
    the time and expression libraries. *)
From S2P Require Import Prelude Bytes Error Monad Keys Job Store Stats LeaseRegistry.
From S2P Require Import TimeBound ClaimCursor Completion Txn Stage StoreInv Sound Core.
From S2P Require Import QueueCore Control Effects Claim Settle Enqueue Queue.
From S2P Require Import CoreInv StagedOps View Finishes Linear Outcomes Frame Applied.
From S2P Require Import Process MemStore RunReads Cron CronFacts.

#[local] Existing Instance IO_bind.
#[local] Open Scope string_scope.

Section properties.
  Context {DB : SlateDb} {RD : SlateReads} {OS : ObjectStore} {SR : Serde JobRecord} {SA : Serde JobAttempt}.
  Context {SC : Serde CountRecord} {EN : Env} {DL : SlateDbLaws merge_batch}.
  Context {CH : Chrono} {CR : Croner} {CL : CronerLaws}.
#[local] Set Default Proof Using "Type DL SR SA EN CH CR CL".


(** C19: A firing that returns took effect: its job, with the schedule's queue, the
    firing's headers and its dedup key, is new, and under backfill the watermark is
    written in the same change; or a job holds the dedup key already, and under
    backfill the watermark is written. A firing that fails changed nothing, except
    that under backfill an error of the storage may follow the whole effect. *)
Theorem a_firing_commits_with_its_watermark s fire_at w r w' :
  fire s fire_at w = (r, w') →
  match r with
  | Ok _ => fired s fire_at w w'
  | Err e => (is_Some (backfill s) → passes w w' ∨ fired s fire_at w w') ∧
      (not_storage e → passes w w')
  end.
Proof. apply fire_result. Qed.

(** In every state that calls of the handles and turns of the scheduler reach, the
    names and the addresses of the registered schedules are unique, and after its
    synchronisation the scheduler has exactly the registered entries: an entry that
    stays keeps its position, and a new one starts without a next firing. *)
Theorem the_active_entries_follow_the_registry r s :
  cron_reach r s →
  registry_ok r ∧ synchronised r s (sync r s).
Proof. intros H%cron_reach_ok. split; [apply H|by apply sync_ok]. Qed.

(** A replacement of the schedule set is applied as a whole or, on an error, not at
    all: the new entries are equal to the schedules of the set, an entry equal to a
    registered one is that entry, every other one is new, the names stay unique, and
    the registry is unchanged when the set is. *)
Theorem a_schedule_set_is_replaced_whole l r x r' :
  replace_all l r = (x, r') → registry_ok r →
  registry_ok r' ∧
  match x with
  | Err _ => r' = r
  | Ok changed => stopped r = false ∧ ∃ es, set_replaced r l es ∧ entries r' ≡ₚ es ∧
      (changed = false → r' = r)
  end.
Proof.
  intros H Hr. destruct (replace_all_ok _ _ _ _ H Hr) as (Hr' & Hx & _). split; [done|].
  destruct x as [changed|]; [|done]. destruct Hx as (Hs & es & ? & ? & ? & _). split; [done|]. by exists es.
Qed.

(** C22: The previous occurrence of any time, with a fraction of a second or not, is the
    last occurrence before it; so the two headers of a firing parse back to the ends
    of an interval without another occurrence, and the firing is the next occurrence
    after the first of them. *)
Theorem firing_headers_bound_the_interval s fire_at p :
  previous_time_before (expression s) fire_at = Some p →
  (instant p < instant fire_at)%Z ∧ occurs (expression s) (instant p) ∧
  (∀ x, occurs (expression s) x → (x < instant fire_at)%Z → (x <= instant p)%Z) ∧
  (fire_headers s fire_at !! PREVIOUS_FIRE_MS_HEADER ≫= parse_i64) = Some (timestamp_millis p) ∧
  (fire_headers s fire_at !! FIRE_MS_HEADER ≫= parse_i64) = Some (timestamp_millis fire_at) ∧
  (∀ d, occurs (expression s) (instant fire_at) → next_time_after (expression s) p = Some d →
     instant d = instant fire_at).
Proof.
  intros H.
  assert (Hb : (instant p < instant fire_at)%Z ∧ occurs (expression s) (instant p) ∧
    ∀ x, occurs (expression s) x → (x < instant fire_at)%Z → (x <= instant p)%Z) by by apply previous_is_last.
  destruct Hb as (Hlt & Ho & Hlast). do 3 (split; [done|]). split; [|split].
  - unfold fire_headers. rewrite H, lookup_insert_eq. cbn. apply parse_i64_text, to_millis_law.
  - unfold fire_headers. rewrite H, lookup_insert_ne, lookup_insert_eq by done. cbn. apply parse_i64_text, to_millis_law.
  - intros d Hf Hd. apply next_law in Hd as (Hpd & Hod & Hfirst).
    specialize (Hfirst _ Hf Hlt). destruct (Z.lt_ge_cases (instant d) (instant fire_at)) as [Hl|Hl]; [|lia].
    specialize (Hlast _ Hod Hl). lia.
Qed.
End properties.

(** ** Times and periodic expressions

    A time is a number of nanoseconds, read within a range around the epoch, and an
    expression is a period in seconds, with an occurrence at each of its multiples. *)
Definition mem_range : Z := 10 ^ 21.
Definition mem_instant (d : Z) : Z := Z.max (- mem_range) (Z.min mem_range d).
Definition in_mem_range (x : Z) : option Z := if decide (- mem_range <= x <= mem_range)%Z then Some x else None.

#[local] Instance mem_chrono : Chrono := {
  DateTime := Z;
  instant := mem_instant;
  UNIX_EPOCH := 0%Z;
  MAX_UTC := mem_range;
  from_timestamp_millis ms := in_mem_range (ms * 1000000)%Z;
  with_nanosecond n d := in_mem_range (mem_instant d - mem_instant d mod 1000000000 + n)%Z;
  checked_add_signed x d := in_mem_range (mem_instant d + x)%Z;
  checked_sub_signed x d := in_mem_range (mem_instant d - x)%Z;
  from_std d := if decide (d <= 10 ^ 20)%Z then Some d else None;
}.

Definition period (p : positive) : Z := (Zpos p * 1000000000)%Z.
#[local] Instance mem_croner : Croner := {
  Cron := positive;
  cron_str p := dec_text (Zpos p);
  cron_parse s := match parse_u32 s with Some (Zpos p) => Ok p | _ => Err "not a period"%string end;
  find_next_occurrence p d := in_mem_range ((mem_instant d / period p + 1) * period p)%Z;
  find_previous_occurrence p d := in_mem_range ((mem_instant d - 1) / period p * period p)%Z;
  occurs p x := (x mod period p = 0)%Z;
}.

Lemma mem_instant_range d : (- mem_range <= mem_instant d <= mem_range)%Z.
Proof. unfold mem_instant, mem_range. lia. Qed.
Lemma in_mem_range_Some x d : in_mem_range x = Some d → mem_instant d = x ∧ d = x.
Proof. unfold in_mem_range, mem_instant. case_decide; [|done]. intros [= <-]. lia. Qed.
Lemma in_mem_range_instant d : in_mem_range (mem_instant d) = Some (mem_instant d).
Proof. unfold in_mem_range. rewrite decide_True; [done|apply mem_instant_range]. Qed.

(** The multiples of a period around an instant. *)
Lemma period_mult p x : (x mod period p = 0)%Z → ∃ k, x = (k * period p)%Z.
Proof. intros H%Z.div_exact; [|unfold period; lia]. exists (x / period p)%Z. lia. Qed.
Lemma period_next p i : (i < (i / period p + 1) * period p)%Z ∧
  ∀ x, (x mod period p = 0)%Z → (i < x)%Z → ((i / period p + 1) * period p <= x)%Z.
Proof.
  assert (Hp : (0 < period p)%Z) by (unfold period; lia).
  pose proof (Z.div_mod i (period p) ltac:(lia)) as E. pose proof (Z.mod_pos_bound i (period p) Hp) as Hm.
  split; [lia|]. intros x (k & ->)%period_mult Hx. apply Z.mul_le_mono_nonneg_r; [lia|].
  enough (i / period p < k)%Z by lia. apply (Z.mul_lt_mono_pos_r (period p)); lia.
Qed.
Lemma period_previous p i : ((i - 1) / period p * period p < i)%Z ∧
  ∀ x, (x mod period p = 0)%Z → (x < i)%Z → (x <= (i - 1) / period p * period p)%Z.
Proof.
  assert (Hp : (0 < period p)%Z) by (unfold period; lia).
  pose proof (Z.div_mod (i - 1) (period p) ltac:(lia)) as E. pose proof (Z.mod_pos_bound (i - 1) (period p) Hp) as Hm.
  split; [lia|]. intros x (k & ->)%period_mult Hx. apply Z.mul_le_mono_nonneg_r; [lia|].
  enough (k < (i - 1) / period p + 1)%Z by lia. apply (Z.mul_lt_mono_pos_r (period p)); lia.
Qed.

#[local] Instance mem_croner_laws : CronerLaws.
Proof.
  assert (Hp : ∀ p, (0 < period p)%Z) by (intros p; unfold period; lia).
  split; cbn.
  - done.
  - by intros ms d [? _]%in_mem_range_Some.
  - intros d. pose proof (mem_instant_range d) as Hr. unfold mem_range in Hr. split.
    + unfold is_i64. pose proof (Z.div_le_mono (mem_instant d) (10 ^ 21) 1000000 ltac:(lia) ltac:(lia)) as H1.
      pose proof (Z.div_le_mono (- 10 ^ 21) (mem_instant d) 1000000 ltac:(lia) ltac:(lia)) as H2.
      change (10 ^ 21 / 1000000)%Z with 1000000000000000%Z in H1.
      change (- 10 ^ 21 / 1000000)%Z with (-1000000000000000)%Z in H2. lia.
    + intros Hm. apply Z.div_exact in Hm; [|lia].
      replace (mem_instant d / 1000000 * 1000000)%Z with (mem_instant d) by lia.
      exists (mem_instant d). rewrite in_mem_range_instant. split; [done|]. unfold mem_instant, mem_range. lia.
  - intros d d' [-> _]%in_mem_range_Some. lia.
  - by intros x d d' [-> _]%in_mem_range_Some.
  - by intros x d d' [-> _]%in_mem_range_Some.
  - intros x y. case_decide; [|done]. by intros [= <-].
  - intros p x Hx. apply Z.div_exact in Hx; [|specialize (Hp p); lia]. rewrite Hx. unfold period.
    replace (Zpos p * 1000000000 * (x / (Zpos p * 1000000000)))%Z
      with (Zpos p * (x / (Zpos p * 1000000000)) * 1000000000)%Z by lia. apply Z.mod_mul. lia.
  - intros p d d' [-> _]%in_mem_range_Some. destruct (period_next p (mem_instant d)). split; [done|].
    split; [apply Z.mod_mul; specialize (Hp p); lia|done].
  - intros p d d' [-> _]%in_mem_range_Some _. destruct (period_previous p (mem_instant d)). split; [done|].
    split; [apply Z.mod_mul; specialize (Hp p); lia|done].
  - by intros p d d' ->.
Qed.

(** ** A schedule *)

Definition every_minute : Schedule :=
  with_backfill (Some (mkBackfill (from_secs 3600) StartLookback))
    (with_headers {["tenant" := "a"]} (schedule_new "sweep" 60%positive "now" [1%Z])).
Definition minute_entry : Entry := mkEntry 0 every_minute.
Definition minute (n : Z) : DateTime := (n * 60000000000)%Z.

(** The process with the watermark of the first minute. *)
Definition watermarked : World :=
  alone (core (kv_put (watermark_key "sweep") (watermark_value (minute 1)) (alone core_new)).2).


Lemma a_firing_commits_with_its_watermark_witness :
  ∃ w', fire every_minute (minute 2) watermarked = (Ok tt, w') ∧ fired every_minute (minute 2) watermarked w'.
Proof.
  destruct (run_case is_ok (fire every_minute (minute 2)) watermarked) as ([[]|e] & w' & E & H);
    [by vm_compute|..]; try discriminate H.
  exists w'. split; [exact E|]. exact (a_firing_commits_with_its_watermark _ _ _ _ _ E).
Defined.

Definition one_schedule : RegistryState := (handle_call (HSchedule every_minute) registry_default).2.

Lemma one_schedule_reach : cron_reach one_schedule scheduler_new.
Proof. apply cr_call; [apply cr_new|done]. Qed.

Lemma the_active_entries_follow_the_registry_witness :
  registry_ok one_schedule ∧ active_entry <$> active (sync one_schedule scheduler_new) ≡ₚ [minute_entry].
Proof.
  destruct (the_active_entries_follow_the_registry _ _ one_schedule_reach) as [Hr [He _]]. by split.
Defined.

(** A set with the schedule, unchanged, and a new one. *)
Definition new_set : list Schedule := [schedule_new "hourly" 3600%positive "now" []; every_minute].

Lemma a_schedule_set_is_replaced_whole_witness :
  ∃ r', replace_all new_set one_schedule = (Ok true, r') ∧ registry_ok r' ∧
    ∃ es, set_replaced one_schedule new_set es ∧ entries r' ≡ₚ es.
Proof.
  assert (Hok : (replace_all new_set one_schedule).1 = Ok true) by (vm_compute; reflexivity).
  destruct (replace_all new_set one_schedule) as [x r'] eqn:E. cbn [fst] in Hok. subst x.
  assert (Hr : registry_ok one_schedule) by apply (cron_reach_ok _ _ one_schedule_reach).
  pose proof (a_schedule_set_is_replaced_whole _ _ _ _ E Hr) as [Hr' Hx].
  exists r'. split; [reflexivity|]. split; [exact Hr'|]. destruct Hx as (_ & es & Hs & He & _).
  exists es. split; [exact Hs|exact He].
Defined.

Lemma firing_headers_bound_the_interval_witness :
  previous_time_before 60%positive (minute 2) = Some (minute 1) ∧
  (fire_headers every_minute (minute 2) !! PREVIOUS_FIRE_MS_HEADER ≫= parse_i64) = Some 60000%Z.
Proof.
  assert (H : previous_time_before (expression every_minute) (minute 2) = Some (minute 1)) by by vm_compute.
  split; [exact H|]. by destruct (firing_headers_bound_the_interval _ _ _ H) as (_ & _ & _ & -> & _).
Defined.
