(* ===== verification/ClientTheorems.v ===== *)
(** * The properties of the workers and the clients of the queue

    The worker loop, the deliveries of webhooks and the announcement of ended runs, and
    the typed jobs over the workflow runtime; with instances of the HTTP client and of a
    job type. *)
From S2P Require Import Prelude Bytes Error Monad Keys Job Store Stats LeaseRegistry.
From S2P Require Import TimeBound ClaimCursor Completion Txn Stage StoreInv Sound Core.
From S2P Require Import QueueCore Control Effects Claim Settle Enqueue Sweeps InboxEntry.
From S2P Require Import InboxListing Queue WorkerLoop CoreInv StagedOps View OpsOk CallsOk.
From S2P Require Import Finishes Linear Outcomes Process MemStore RunError RunKeys RunRecords StepEffects Runs.
From S2P Require Import RunCalls StepWorker Webhooks Commands RunSweeps RunViews Groups Jobs MemRuns.

#[local] Existing Instance IO_bind.
#[local] Open Scope string_scope.

(** ** The worker loop *)

Section loops.
  Context {DB : SlateDb} {OS : ObjectStore} {SR : Serde JobRecord} {SA : Serde JobAttempt}.
  Context {SC : Serde CountRecord} {EN : Env} {DL : SlateDbLaws merge_batch} {UL : UlidLaws}.
  Context (process : Claim → World → WorkerOutcome * World) (to_string : Error → string).
  Context (q : string) (concurrency : nat).
#[local] Set Default Proof Using "Type".




(** C10: a loop that drains returns: whatever order its tasks end in, it claims nothing
    more, it has a next event until it returned, and it returned after at most two
    events for each task and one more. *)
Theorem a_draining_loop_returns es s w s' w' spawned done :
  phase s = Draining →
  loop_run process to_string q concurrency es s w = Some (s', w', spawned, done) →
  spawned = [] ∧ length es <= 2 * length (running s) + ended s + 1 ∧
  (phase s' = Returned (Ok tt) ∧ running s' = [] ∨
   phase s' = Draining ∧ ∃ e next, loop_event process to_string q concurrency e s' w' = Some next).
Proof.
  intros Hd H. apply draining_run in H as (Hs & Hl & Hp); [|done]. split; [done|].
  split; [unfold drain_left in Hl; lia|]. destruct Hp as [Hp|[]]; [right|by left]. split; [done|].
  destruct (draining_progress process to_string q concurrency s' w' Hp) as (e & s2 & w2 & sp & d & E).
  by exists e, (s2, w2, sp, d).
Qed.

(** C9: a worker loop keeps the process consistent, for any events: the ids [S] that the
    processing supplies are issued before, its own steps keep the process consistent,
    and those of its effects that supply an id supply one of [S]; they generate ids as
    they like, and so do the tasks at the yields. *)
Theorem a_worker_loop_keeps_consistency S es s w s' w' spawned done :
  (∀ claim v, framed_world S v → framed_world S (process claim v).2 ∧
    ∀ e, outcome_carries (process claim v).1 e →
      ∀ r i, r ∈ enqueues e → opt_id_override (req_options r) = Some i → S i) →
  framed_world S w → loop_run process to_string q concurrency es s w = Some (s', w', spawned, done) →
  framed_world S w'.
Proof using DL UL.
  intros Hp. revert s w spawned done. induction es as [|e es IH]; intros s w spawned done Hw; cbn.
  { by intros [= <- <- <- <-]. }
  intros H. apply bind_Some in H as ([[[s1 w1] sp1] d1] & H1 & H).
  apply bind_Some in H as ([[[s2 w2] sp2] d2] & H2 & [= <- <- <- <-]).
  refine (IH _ _ _ _ _ H2). destruct s as [p run n]. unfold loop_event in H1. cbn [phase running ended] in H1.
  assert (Ht : ∀ c v, framed_world S v → framed_world S (worker_task process to_string c v).2).
  { intros c v Hv. unfold worker_task. destruct (Hp c v Hv) as [Ho Hf].
    destruct (process c v) as [o v'].
    apply (framed_world_keeps (outcome_requests o)); [| |done].
    2: { cbn in Hf. intros r i Hr. destruct o as [e0|b m e0|]; [| |by apply not_elem_of_nil in Hr];
      apply (Hf e0); first [done|by left|right; eauto]. }
    intros CI Hc Hu. apply process_and_settle_ok; [|done]. by intros e1 [->|(b & m & ->)]. }
  assert (Hk : ∀ A (m : Q A), (∀ CI : Invariant, preserves world_ok m) → framed_world S (m w).2).
  { intros A m Hm. apply (framed_world_keeps []); [by intros; apply Hm|by intros ? ? ?%not_elem_of_nil|done]. }
  destruct e as [i|b].
  - destruct p as [| | | | |r]; try discriminate H1;
      (apply bind_Some in H1 as (c & Hc & [= <- <- <- <-]); by apply Ht).
  - destruct p as [| | | | |r]; [by destruct b; simplify_eq|by destruct b, n; simplify_eq| |
      |by destruct b, n, run; simplify_eq|by destruct b].
    + pose proof (Hk _ (claim_batch q (concurrency - set_len (mkLoop Claiming run n))
        (cfg_lease_duration (configs_get configs q))) ltac:(intros ?; apply claim_batch_ok)) as Hb.
      by destruct b, (claim_batch _ _ _ _) as [[[|c cs]|err] v]; simplify_eq.
    + pose proof (Hk _ (wait_for_jobs_on q) ltac:(intros ?; apply wait_for_jobs_on_ok)) as Hb.
      by destruct b; simplify_eq.
Qed.
End loops.

(** ** Webhooks *)

Section webhooks.
  Context {RQ : Reqwest} {DB : SlateDb} {OS : ObjectStore} {SR : Serde JobRecord} {SA : Serde JobAttempt}.
  Context {SC : Serde CountRecord} {EN : Env}.
#[local] Set Default Proof Using "Type".





End webhooks.

Section hook.
  Context {RQ : Reqwest} {EN : Env} {SH : Sha256} {UT : UlidText}.
  (** The names of the bounds of a built runtime, and its texts of errors. *)
  Context (memo_bound group_bound : nat) (queue_text : Error → string) (object_text : ObjectStoreError → string).
  Context (debug_text : Duration → string) (lossy : bytes → string).

(** C26: the end of a run is announced: the hook of webhooks of a runtime that was built,
    whose target is not its queue then, stages in the effects of every termination of a run with a URL
    one enqueue to its target, and nothing else; the job of it is sent to that URL with
    the run, the status and the origin of a cancellation in its headers, and the result
    or the error in its body. *)
Theorem a_termination_is_announced inbox b rt hook r t result url worker m :
  wb_terminal_hook b = Some (webhook_terminal_hook hook) →
  build memo_bound group_bound queue_text object_text debug_text lossy inbox b = Ok rt →
  dt_headers t !! hook_url_header hook = Some url → url ≠ "" → method_from_str "POST" = Some m →
  (∀ d, hook_timeout hook = Some d → is_u64 (as_millis d)) →
  ∃ req, hook_effects (RT := rt) r t result = mkEffects [] None [req] ∅ [] [] ∅ ∧ req_queue req = hook_target_queue hook ∧
    ∀ j, headers j = opt_headers (req_options req) → payload j = req_payload req →
      ∃ http, delivery_request worker j = Ok http ∧ http_url http = url ∧
        http_body http = announcement_body (mkTerminatedRun r (public_termination t) result (dt_headers t)) ∧
        ("Workflow-Run-Id", rid_str r) ∈ http_headers http ∧
        ("Workflow-Run-Status", status_str (public_status (dt_status t))) ∈ http_headers http ∧
        ∀ o, public_origin <$> dt_cancelled_by t = Some o →
          ("Workflow-Run-Cancelled-By", origin_str o) ∈ http_headers http.
Proof using Type.
  intros Hb Hbuild Hu Hne Hm Ht. apply build_Ok in Hbuild as (-> & Hc & _). specialize (Hc _ Hb).
  unfold hook_effects. cbn [terminal_hook queue_name parts]. rewrite Hb. cbn [fmap option_fmap option_map].
  cbn [stage_effects_of webhook_terminal_hook]. unfold webhook_hook. cbn [tr_headers]. rewrite Hu.
  set (out := mkTerminatedRun r (public_termination t) result (dt_headers t)).
  set (req := webhook_enqueue_request (hook_target_queue hook) (announcement hook url out) (announcement_body out)).
  assert (Hq : hook_target_queue hook ≠ wb_queue_name b).
  { intros E. cbn [check_runtime webhook_terminal_hook] in Hc. unfold webhook_check_runtime in Hc.
    by rewrite decide_True in Hc. }
  assert (He : effects_enqueue req (effects_state_for (wb_queue_name b))
    = Ok (set_staged (mkStaged ∅ ∅ [req]) (effects_state_for (wb_queue_name b)))).
  { unfold effects_enqueue, check_enqueue. cbn [sealed effects_state_for runtime_queue].
    rewrite decide_False by (by intros [= ?]). cbn [req_options req webhook_enqueue_request opt_headers].
    by rewrite webhook_headers_free. }
  exists req. split; [|split; [done|]].
  { unfold seal_into_settlement. cbn [foldl]. unfold applied. cbn [terminal_op]. rewrite He. cbn.
    unfold add_to. by cbn. }
  intros j Hj Hp. destruct (delivery_request_of worker (announcement hook url out) j m) as
    (http & E & _ & H2 & H3 & _ & H5).
  - done.
  - unfold announcement. by destruct (rt_cancelled_by _), (hook_timeout hook).
  - unfold announcement. by destruct (rt_cancelled_by _), (hook_timeout hook).
  - unfold announcement. intros d. destruct (rt_cancelled_by _), (hook_timeout hook) eqn:Ed; cbn; intros [= <-];
      by apply Ht.
  - exists http. split; [done|]. split.
    { rewrite H2. unfold announcement. by destruct (rt_cancelled_by _), (hook_timeout hook). }
    split; [by rewrite H3, Hp|].
    assert (Hin : ∀ n v, wr_headers (announcement hook url out) !! n = Some v → (n, v) ∈ http_headers http).
    { intros n v Hn. rewrite H5. apply elem_of_app. left. by apply elem_of_map_to_list. }
    split; [|split]; [apply Hin..|intros o Ho; apply Hin]; unfold announcement.
    + by destruct (rt_cancelled_by _), (hook_timeout hook); cbn; rewrite ?lookup_insert_eq, ?lookup_insert_ne by done;
        rewrite ?lookup_insert_eq, ?lookup_insert_ne by done; rewrite ?lookup_insert_eq.
    + by destruct (rt_cancelled_by _), (hook_timeout hook); cbn; rewrite ?lookup_insert_eq, ?lookup_insert_ne by done;
        rewrite ?lookup_insert_eq.
    + cbn [tr_termination out public_termination rt_cancelled_by]. rewrite Ho.
      by destruct (hook_timeout hook); cbn; rewrite lookup_insert_eq.
Qed.
End hook.

(** ** Typed jobs *)

Section typed_jobs.
  Context {DB : SlateDb} {OS : ObjectStore} {Any : Type} {SJ : Serde JobPayload}.
  Context (decode_error : bytes → string) (J : Type) {JT : JobType Any J} {JL : JobTypeLaws Any J}.
#[local] Set Default Proof Using "Type".

(** The registration of a type is kept by those of other types. *)
Lemma register_registers b b' : register_job J b = Some b' → jb_handlers b' !! job_name Any J = Some (run_typed J).
Proof. unfold register_job. case_match; [done|]. intros [= <-]. apply lookup_insert_eq. Qed.
Lemma register_keeps J' {JT' : JobType Any J'} b b' n h :
  register_job J' b = Some b' → jb_handlers b !! n = Some h → jb_handlers b' !! n = Some h.
Proof.
  unfold register_job. destruct (jb_handlers b !! job_name Any J') eqn:E; [done|].
  intros [= <-] Hn. cbn. rewrite lookup_insert_ne; [done|]. intros <-. congruence.
Qed.

(** C15: a typed job returns what its handler returned: the step of the run of a job
    calls the handler of the registered type with the job that was submitted, and stages
    what the handler staged. The result of a run that succeeds with the answer is the
    output of the handler, also when the encoding is read back from the end of the run;
    an error of the handler is the error of the job, with its message and its class;
    and an output that does not encode fails the job for good. *)
Theorem a_typed_job_returns_its_output (j : J) b step w ran ops w' answer ops' w'' :
  jb_handlers b !! job_name Any J = Some (run_typed J) → job_payload j = Ok (st_payload step) →
  job_run j (jb_state b) step w = ((ran, ops), w') →
  dispatch_step decode_error (job_dispatch b) step w = ((answer, ops'), w'') →
  ops' = ops ∧ w'' = w' ∧
  match ran with
  | Ok output =>
      match output_to_vec Any J output with
      | Ok result => answer = Ok (Succeed result) ∧ result ≠ [] ∧
          ∀ now c ref sub h, decode_end J (mkTerminatedRun (cs_run_id c)
            (public_termination (termination_at now c ending_succeeded ref sub)) (Some result) h) = Ok (Ok output)
      | Err _ => ∃ m, answer = Err (step_error_permanent m)
      end
  | Err e =>
      let kind := job_classify Any j e in
      let message := job_error_text Any J e in
      answer = Err (mkStepError message kind) ∧
      ∀ now c sub h, decode_end J (mkTerminatedRun (cs_run_id c)
        (public_termination (termination_at now c (ending_failed message (Some kind)) None sub)) None h)
        = Ok (Err (mkJobError kind message))
  end.
Proof using JL.
  intros Hreg Hp Hrun. unfold job_payload in Hp. unfold dispatch_step.
  destruct (job_to_vec Any j) as [input|e] eqn:Ei; cbn in Hp; [|done]. injection Hp as Hp. rewrite <- Hp.
  rewrite decode_or_absent_encode. cbn [jp_name jp_input job_dispatch handlers dispatch_state].
  destruct (jb_handlers b !! job_name Any J) as [handler|]; [|done]. injection Hreg as ->.
  unfold run_typed. rewrite (job_round_trip j input Ei), Hrun.
  destruct ran as [output|e].
  - destruct (output_to_vec Any J output) as [result|e] eqn:Eo; intros [= <- <- <-];
      (split; [done|]); (split; [done|]); [|by eexists].
    split; [done|]. split; [by eapply output_nonempty|]. intros now c ref sub h.
    unfold decode_end. cbn. by rewrite (output_round_trip output result Eo).
  - intros [= <- <- <-]. do 2 (split; [done|]). split; [done|]. intros now c sub h.
    unfold decode_end. cbn. by destruct (job_classify Any j e).
Qed.
End typed_jobs.

(** ** Instances *)

(** A worker that acknowledges each job, and one turn of a loop with two tasks. *)
Definition ok_worker (_ : Claim) (w : World) : WorkerOutcome * World := (WorkerOk effects_default, w).
Definition three_jobs : Core := after [run_enqueue "now" "a"; run_enqueue "now" "b"; run_enqueue "now" "c"].
(** The loop claims two jobs, whose tasks end in the other order, and then the third,
    when the shutdown is signalled. *)
Definition loop_events : list LoopEvent :=
  [Turn false; Turn false; Turn false; TaskEnds 1; TaskEnds 0; Turn false; Turn false; Turn true].
Definition drain_events : list LoopEvent := [TaskEnds 0; Turn false; Turn false].
Definition loop_of_two (es : list LoopEvent) (s : Loop) (w : World) :=
  loop_run ok_worker (λ _, "error") "now" 2 es s w.
Definition loop_ids (x : option (Loop * World * list Claim * list Claim)) : option (list string * list string) :=
  (λ x, (map (λ c, id (job c)) x.1.2, map (λ c, id (job c)) x.2)) <$> x.
Definition loop_phase (x : option (Loop * World * list Claim * list Claim)) : option LoopPhase :=
  (λ x, phase x.1.1.1) <$> x.
(** The loop when it drains. *)
Definition draining : Loop * World := from_option (λ x, x.1.1) (loop_new, alone three_jobs)
  (loop_of_two loop_events loop_new (alone three_jobs)).

Example loop_order :
  loop_ids (loop_of_two (loop_events ++ drain_events) loop_new (alone three_jobs)) =
    Some (["a"; "b"; "c"], ["b"; "a"; "c"]) ∧
  loop_phase (loop_of_two (loop_events ++ drain_events) loop_new (alone three_jobs)) = Some (Returned (Ok tt)).
Proof. split; vm_compute; reflexivity. Qed.


Lemma a_draining_loop_returns_witness :
  ∃ s' w' spawned done, loop_of_two drain_events draining.1 draining.2 = Some (s', w', spawned, done) ∧
    spawned = [] ∧ phase s' = Returned (Ok tt) ∧ running s' = [].
Proof.
  assert (H : ∀ es s w x, phase s = Draining → loop_of_two es s w = x →
    loop_phase x = Some (Returned (Ok tt)) →
    ∃ s' w' spawned done, x = Some (s', w', spawned, done) ∧
      spawned = [] ∧ phase s' = Returned (Ok tt) ∧ running s' = []).
  { intros es s w [[[[s' w'] sp] d]|] Hd E Hp; [|discriminate Hp]. injection Hp as Hp.
    destruct (a_draining_loop_returns _ _ _ _ _ _ _ _ _ _ _ Hd E) as (Hs & _ & [[_ Hn]|[Hp' _]]);
      [|rewrite Hp in Hp'; discriminate Hp'].
    exists s', w', sp, d. split; [reflexivity|]. split; [exact Hs|]. split; [exact Hp|exact Hn]. }
  apply (H drain_events draining.1 draining.2); [vm_compute; reflexivity|reflexivity|vm_compute; reflexivity].
Defined.

(** Three jobs with generated ids, and a task that enqueues another in between. *)
Definition new_run : Run := mkRun (CEnqueue "now" [1%Z] options_default) [].
Definition new_jobs : World := mkWorld (after [new_run; new_run; new_run]) [exec new_run].

Lemma new_run_supplies i : ¬ supplies new_run i.
Proof. by intros [(r & ->%list_elem_of_singleton & E)|[]]. Qed.

Lemma new_jobs_framed : framed_world (λ _, False) new_jobs.
Proof.
  assert (Hr : reachable (after [new_run; new_run; new_run])).
  { apply after_reachable. intros r i. rewrite !elem_of_cons, elem_of_nil.
    intros [->|[->|[->|[]]]]; apply new_run_supplies. }
  destruct (reachable_framed _ Hr) as [Hc Hi]. constructor; [exact Hc|exact Hi|done|].
  constructor; [|constructor]. eapply frames_mono, exec_frames. intros i. apply new_run_supplies.
Qed.

Lemma a_worker_loop_keeps_consistency_witness :
  ∃ s w' spawned done, loop_of_two loop_events loop_new new_jobs = Some (s, w', spawned, done) ∧
    framed_world (λ _, False) w'.
Proof.
  assert (H : ∀ es w x, framed_world (λ _, False) w → loop_of_two es loop_new w = x → loop_phase x = Some Draining →
    ∃ s w' spawned done, x = Some (s, w', spawned, done) ∧ framed_world (λ _, False) w').
  { intros es w [[[[s w'] sp] d]|] Hw E Hp; [|discriminate Hp]. exists s, w', sp, d. split; [reflexivity|].
    refine (a_worker_loop_keeps_consistency _ _ _ _ _ _ _ _ _ _ _ _ _ Hw E).
    intros c v Hv. split; [exact Hv|]. intros e He r i.
    assert (enqueues e = []) as -> by (destruct He as [[= <-]|(? & ? & ?)]; [reflexivity|discriminate]).
    by intros ?%not_elem_of_nil. }
  apply (H loop_events new_jobs); [exact new_jobs_framed|reflexivity|vm_compute; reflexivity].
Defined.

(** A client that knows two methods, and answers every request with a status. *)
#[local] Instance mem_reqwest : Reqwest := {
  Method := string;
  method_from_str m := if decide (m = "POST" ∨ m = "GET") then Some m else None;
  status_text := dec_text;
  prefix_chars n s := String.substring 0 n s;
}.




(** A runtime that announces the ends of its runs. *)
Definition announce : WebhookTerminalHook := webhook_hook_new "hooks".
Definition announcing_builder : WorkflowRuntimeBuilder :=
  with_terminal_hook (webhook_terminal_hook announce) (with_queue_name "kept" runtime_builder).
Definition announcing_runtime : Runtime :=
  parts 0 1 (λ _, "queue error") (λ _, "object error") (λ _, "duration") (λ _, "text") announcing_builder.
Definition cancelled_run : DurableTermination :=
  mkDTermination DCancelled (Some "stop") (Some DRequest) None (mkDStepRef 0 "0") 1 [] 0
    {["callback_url" := "https://a"]} None.

Lemma a_termination_is_announced_witness :
  ∃ req, enqueues (hook_effects (RT := announcing_runtime) run_a cancelled_run None) = [req] ∧
    req_queue req = "hooks" ∧ req_payload req = as_bytes "stop".
Proof.
  destruct (a_termination_is_announced (RQ := mem_reqwest) 0 1 (λ _, "queue error") (λ _, "object error")
    (λ _, "duration") (λ _, "text") None announcing_builder announcing_runtime announce run_a cancelled_run None "https://a"
    webhook_worker_new "POST" eq_refl eq_refl ltac:(reflexivity) ltac:(discriminate) ltac:(reflexivity))
    as (req & E & Hq & Hj).
  { intros d Hd. discriminate Hd. }
  exists req. split; [by rewrite E|]. split; [exact Hq|].
  assert (H : enqueues (hook_effects (RT := announcing_runtime) run_a cancelled_run None) = [req]) by by rewrite E.
  assert (Some (req_payload req) = Some (as_bytes "stop")) as [=]; [|done].
  change (Some (req_payload req)) with (match [req] with [r] => Some (req_payload r) | _ => None end).
  rewrite <- H. vm_compute. reflexivity.
Defined.

(** A job type: it doubles a number, and rejects a negative one for good. *)
#[local] Instance double : JobType () Z := {
  job_name := "double";
  job_output := Z;
  job_error := string;
  job_to_vec j := Ok [j];
  job_from_slice b := match b with [j] => Ok j | _ => Err "malformed" end;
  output_to_vec o := Ok [o];
  output_from_slice b := match b with [o] => Ok o | _ => Err "malformed" end;
  job_run j _ _ w := ((if decide (j < 0)%Z then Err "negative" else Ok (2 * j)%Z, []), w);
  job_error_text e := e;
  job_idempotency_key := default_idempotency_key;
  job_max_attempts := default_max_attempts;
  job_classify _ _ := Permanent;
}.
#[local] Instance double_laws : JobTypeLaws () Z.
Proof. split; cbn; [by intros j b [= <-]|by intros o b [= <-]|by intros o b [= <-]]. Qed.

#[local] Instance JobPayload_eq_dec : EqDecision JobPayload.
Proof. solve_decision. Defined.
#[local] Instance JobPayload_countable : Countable JobPayload.
Proof.
  apply (inj_countable' (λ p, (jp_name p, jp_input p)) (λ p, mkJobPayload p.1 p.2)). by intros [].
Defined.
#[local] Instance job_payload_serde : Serde JobPayload := serde_of_countable.

Definition double_runner : JobRunnerBuilder := default job_builder_new (register_job Z job_builder_new).
Definition double_step (j : Z) : Step :=
  mkStep (mkDelivery run_a ∅ "0" "1" 1 3 0 lease_detached (mkMemo run_a (ScopeStep 0)) (mkMemo run_a ScopeRun)
    None (mkOwner (mkOwnerRef run_a 0) true None)) 0 (default [] (ok (job_payload j))) None.

Lemma a_typed_job_returns_its_output_witness :
  (dispatch_step (λ _, "malformed") (job_dispatch double_runner) (double_step 21) (alone core_new)).1
    = (Ok (Succeed [42%Z]), []) ∧
  ∀ now c ref sub h, decode_end Z (mkTerminatedRun (cs_run_id c)
    (public_termination (termination_at now c ending_succeeded ref sub)) (Some [42%Z]) h) = Ok (Ok 42%Z).
Proof.
  assert (H : ∀ w, (dispatch_step (λ _, "malformed") (job_dispatch double_runner) (double_step 21) w).1
      = (Ok (Succeed [42%Z]), []) ∧
    ∀ now c ref sub h, decode_end Z (mkTerminatedRun (cs_run_id c)
      (public_termination (termination_at now c ending_succeeded ref sub)) (Some [42%Z]) h) = Ok (Ok 42%Z)).
  { intros w. destruct (dispatch_step (λ _, "malformed") (job_dispatch double_runner) (double_step 21) w)
      as [[answer ops] w'] eqn:E.
    assert (Hr : jb_handlers double_runner !! job_name () Z = Some (run_typed Z)).
    { apply (register_registers Z job_builder_new). reflexivity. }
    assert (Hp : job_payload 21%Z = Ok (st_payload (double_step 21))) by (vm_compute; reflexivity).
    assert (Hj : job_run 21%Z (jb_state double_runner) (double_step 21) w = ((Ok 42%Z, []), w)) by reflexivity.
    destruct (a_typed_job_returns_its_output (JT := double) (λ _, "malformed") Z 21%Z double_runner (double_step 21) w (Ok 42%Z) [] w
      answer ops w' Hr Hp Hj E) as (-> & -> & -> & _ & Hd).
    split; [reflexivity|exact Hd]. }
  apply H.
Defined.
