(* ===== verification/FindingTheorems.v ===== *)
(** * Runs in which the code departs from its documentation

    Concrete runs of the process, over the instances of [MemStore], in which calls
    that overlap end in a way that the comments of the code exclude. *)
From S2P Require Import Prelude Bytes Error Monad Keys Job Store Stats LeaseRegistry.
From S2P Require Import TimeBound ClaimCursor Completion Txn Stage StoreInv Sound Core.
From S2P Require Import QueueCore Control Effects Claim Settle Enqueue.
From S2P Require Import Sweeps InboxEntry Queue CoreInv StagedOps View OpsOk CallsOk.
From S2P Require Import Finishes Linear Outcomes Process MemStore RunError.
From S2P Require Import RunKeys RunRecords StepEffects Runs RunCalls StepWorker Commands.
From S2P Require Import RunSweeps MemRuns.

(** The state of the record of a job, as the view reads it. *)
Definition seen_status (jid : string) (c : Core) : option JobStatus :=
  match (view_get_job jid (alone c)).1 with Ok (Some j) => Some (status j) | _ => None end.

(** A process with one pending job, and with that job claimed. *)
Definition one_job : Core := after [run_enqueue "now" "a"].
Definition one_claim : Claim := the_claim "a" one_job.




(** A wait reports a job that was there when it began as not found: when the
    settlement's transaction deletes the record after the registration and before
    the read, and the outcome is delivered after the read. *)
Theorem a_wait_misses_an_undelivered_outcome :
  let c := the_core "a" one_job in
  let commit c := core (settle_txn one_claim (mkPreparedEffects [] None [] ∅ [] [] ∅)
                          (λ _ _, EndDone false) (alone c)).2 in
  seen_status "a" c = Some Claimed ∧
  (completion "a" (mkWorld c [commit])).1 = Ok (Settled WaitNotFound).
Proof. cbv zeta. split; vm_compute; reflexivity. Qed.

(** The record of a claim has its run time when the claim by id took a
    scheduled job, and none when the job was pending. *)
Theorem a_claim_of_a_scheduled_job_keeps_its_run_time :
  let scheduled := after [MemStore.run_at "now" "s" 2000000 false] in
  seen_status "s" scheduled = Some Scheduled ∧
  Job.run_at (job (the_claim "s" scheduled)) = Some 2000000%Z ∧
  status (job (the_claim "s" scheduled)) = Claimed ∧
  Job.run_at (job one_claim) = None.
Proof. cbv zeta. split_and!; vm_compute; reflexivity. Qed.

(** ** Runs of the runtime that depart from its documentation

    Concrete runs, over the instances of [MemRuns], of submissions that overlap and of
    a terminal hook. *)

#[local] Open Scope string_scope.





(** A runtime whose terminal hook deletes the user key [1]. *)
#[local] Instance hook_runtime : Runtime.
Proof.
  refine {| queue_name := "kept"; memo_sweep := None; group_sweep := None; step_output_replay := false;
    terminal_hook := Some (λ _, [OpDelete [1%Z]]); memo_prefix := "memos"; queue_error_text _ := "queue error";
    object_error_text _ := "object error"; duration_debug _ := "duration"; lossy_text _ := "text" |}; done.
Defined.



(** ** Commands *)

(** The two environments: without offloading, and one that offloads the payloads above
    one byte. *)
Definition offloading (t : option nat) : Env := {|
  clock_now n := (1000000 + 1000 * Z.of_nat n)%Z;
  ulid_new n := Z.of_nat n;
  ulid_generate n at' := Z.of_nat n;
  ulid_string u := pretty.pretty u;
  configs := mkConfigs config_default ∅;
  payload_store := mkPayloadStore "payloads" t;
|}.

#[local] Instance offloading_ulid_text t : UlidText (EN := offloading t) :=
  @Build_UlidText (offloading t) (@ulid_of_text mem_env mem_ulid_text)
    (@ulid_of_text_string mem_env mem_ulid_text) (@ulid_text_id mem_env mem_ulid_text).




